(* ===== verification/_CoqProject ===== *)
-Q . S2P
Prelude.v
GoIO.v
Types.v
Errno.v
Proto.v
Messages.v
P9l.v
P9u.v
Message.v
MsgCache.v
Frame.v
Codec.v
Dirents.v
Bufpool.v
FidTable.v
FidLife.v
Inflight.v
RequestCtx.v
MemFS.v
Bridge.v
Inode.v
Namespace.v
MemTree.v
MemSections.v
ClientFile.v
EndToEnd.v
RefCount.v
MemRequests.v
MemDirs.v
Sharing.v
SharedRefs.v
Names.v
Walk.v
ClientConn.v
ClientOps.v
ClientAdvanced.v
ClientLocks.v
SessionManager.v
Workers.v
Teardown.v
ClientPaths.v
ClientFids.v
ServerFids.v
Sessions.v
HostSys.v
Passthrough.v
PassSystem.v
PassProcess.v
PassResults.v
PassListing.v
Wire.v
ClientWire.v
ClientClose.v
Handshake.v
ServerRun.v
ClientConfig.v
ServerConn.v
