(* ===== verification/Prelude.v ===== *)
(** * ninep: a 9P2000.L / 9P2000.u server and client

    The repository is a Go library: a wire codec ([proto], [proto/p9l],
    [proto/p9u]), a server that exposes a tree of nodes written against
    capability interfaces ([server], with [server/memfs] and
    [server/passthrough] as file systems) and a client ([client]).  A message
    travels from [client.File] through a round trip on the client connection,
    the codec, the server's connection loop and its dispatcher to a handler,
    which works on the connection's fid table and on nodes.

    ** Files and what they model

    - [Prelude]: Go errors, results, the state-and-error monad [M] with its
      Hoare rules, machine integers ([uint_wrap]), bytes and shared lemmas.
    - [GoIO]: Go's readers and writers as streams of chunks; the judgements
      [decodes] and [emits] in which every codec is specified.
    - [Types], [Errno], [Proto], [Messages], [P9l], [P9u], [Message]:
      [proto/constants.go], [types.go], [errno*.go], [encode.go], [decode.go],
      [messages.go], [message.go] and the two dialect packages, one [Module]
      per message with the source's name; [MessageCodec] is the class that
      framing is proved against, [Message] its instance.
    - [Frame], [Codec]: [proto/frame.go] and the [codec.go] files; their
      theorems.  [Dirents]: [proto/dirent.go].
    - [Bufpool]: [internal/bufpool/bufpool.go].
    - [FidTable], [FidLife]: [server/fid.go]; the second interleaves the
      critical sections of handlers that share a fid.
    - [Inflight]: [server/flush.go] with the steps of [dispatchInline]
      ([server/conn.go]) and [handleFlush] ([server/dispatch.go]).
    - [RequestCtx]: [server/requestctx.go].  [MsgCache]: the message caches of
      both sides ([internal/pool], [server/msgcache_pools.go],
      [client/msgcache.go]).
    - [MemFS], [MemTree]: [server/memfs], [server/qid.go] and
      [server/helpers.go]: files, then directories, the builder and the
      instance of [NodeOps] and [Capabilities] the handlers run on.
      [MemSections], [MemRequests], [MemDirs]: its critical sections in any
      order, the handlers as sequences of them, and requests on directories.
    - [Bridge]: the I/O handlers of [server/bridge.go].
    - [Inode], [Namespace]: [server/inode.go] and all other handlers of
      [server/dispatch.go] and [server/bridge.go], with [dispatch] and the
      teardown of [server/cleanup.go].
    - [RefCount], [Sharing]: the reference counts of nodes under the handlers
      of one connection, and of any number of connections that share the tree,
      one request at a time.  [SharedRefs]: the same counts when the critical
      sections of all requests interleave.
    - [Names], [Walk]: what reaches the file system from a request, and the
      path a walk resolves.
    - [ClientFile]: the loops of [client/file.go] and [client/readdir.go].
      [ClientOps], [ClientAdvanced]: the operations of [client/ops.go],
      [raw_advanced.go], [session.go], [walknew.go] and [advanced_*.go];
      [ClientLocks], [ClientPaths]: the lock loop and path splitting.
    - [ClientFids], [ServerFids], [Sessions]: the fids a client holds, how the
      server's handlers change the fids bound, and both together.
    - [SessionManager]: [client/session_manager.go].
    - [ClientConn]: [client/tags.go], [fidalloc.go], [inflight.go], [flush.go]
      and the exchange of [client/ops.go], with any number of callers.
    - [Workers], [Teardown]: the goroutines of a server connection
      ([handleRequest] and [readFrameLocked] in [server/conn.go]) and
      [server/cleanup.go].  [ClientClose]: [client/close.go].
    - [ServerRun], [ClientConfig]: [server/server.go], [options.go] and
      [middleware.go], and [client/options.go].
    - [HostSys], [Passthrough]: [server/passthrough] as programs of system
      calls (the Linux build).  [PassSystem], [PassProcess]: the kernel as a
      relation, and a process of any number of such programs, with and without
      the exclusion of clunks from running requests; [PassResults],
      [PassListing]: what operations leave behind, and directory listings.
    - [Wire], [ClientWire], [Handshake], [ServerConn]: the bytes between the
      two connections.  [internal/wire/wire.go] and the framing both sides
      build on it; [client/read_loop.go] and [client/write.go]; [Dial]
      ([client/dial.go]) with the server's [negotiateVersion]; and
      [server/conn.go] from a frame to its response, for a connection that
      handles one request before it reads the next ([WithMaxInflight(1)]).
    - [EndToEnd]: client files, codec, I/O handlers and memory files together.

    A Go function is a Rocq definition of the same name; methods lose their
    receiver type unless two types clash, in which case a [Module] keeps them
    apart.  Pointers that are shared and mutated (fid states, channels, pool
    buffers, inodes) are addresses in a heap that is passed along; a critical
    section is one definition, so a step relation can interleave them.  Fixed
    width integers are [Z] with the wrap-around written out.

    ** What the theorems show

    - Wire: encode/decode round trips for single frames and streams, canonical
      encodings, independence of how the network segments a stream, size
      limits, agreement of the zero-copy decoder with the general one, and
      the stat encoding whose length field wraps.
    - Directory entries: what fits is packed, parsing inverts packing, and the
      parser never reads outside its input.
    - Fid table: refinement of a finite map; handles are released exactly
      once and never during I/O, except in one race.
    - Flush: no [Rflush] overtakes the response it flushed when a request is
      registered before its flush is looked up, waiters are woken, and what
      happens when the registration comes too late or a handler panics.
    - Buffers, memory files, I/O handlers: exclusive ownership of pooled
      buffers, sparse-file semantics with a size bound, responses that fit the
      negotiated msize whatever a file system returns.
    - Nodes: a node's count is the number of fids bound to it on all
      connections, up to the goroutines between binding or unbinding a fid and
      counting it; what closing a node rests on, how a clone and a clunk at
      the same time close a node that is in use, and the nodes that are never
      closed.  When requests run one at a time, no node is closed under a fid.
    - Memory file systems: the tree of nodes stays well-formed whatever
      requests, builders and connections do at once; requests on directories
      answer and act as a map of names; and which interleavings lose a file.
    - Passthrough: no descriptor is leaked or closed twice; none is used after
      its close, and no walk leaves the exported tree, when no node is closed
      under a running request - and how a request escapes when one is; on a
      read-only export nothing is opened for writing and nothing that was
      opened for reading only is written to; QIDs identify files; listings
      continue where they stopped.
    - Names: the file system is never given an empty name, [.], [..] or a name
      with a slash or NUL where the protocol forbids it; walks agree with
      component-by-component resolution.
    - Server connections: somebody reads the next frame until the limit of
      concurrent requests is reached, the lock blocks nobody for good, the
      goroutines drain after a shutdown; what [cleanup] releases can still be
      in use by a request that registered too late; at most the configured
      number of connections is served; the accept loop outlives descriptor
      exhaustion.
    - Client connection: tags and fids have one owner, callers get their own
      responses when nothing is flushed, and how a flush breaks that.
    - Connections: whatever one side sends, the other hands on only well-formed
      messages of the dialect and its read loop ends; the handshake leaves both
      sides with the same msize and dialect; requests written by callers are
      answered to those callers through [dispatch] when the server handles one
      at a time; and a response larger than
      the msize, which nothing prevents, ends the connection.
    - Client sessions: which fids are bound at the server, and how a cancelled
      walk breaks that; locks are polled until the context ends and not left
      behind; a session has one dialer at a time and closes for good; [Close]
      ends, admits no call any more, and may leave calls behind.
    - Configuration: [New] and the client's options accept only values for
      which the other theorems' bounds hold; both ends then agree.
    - Client files: termination of the chunking loops against any server,
      requests that fit, and end to end: client calls refine operations on the
      file behind the server.

    ** Fuel

    [ClientFile]'s loops and [EndToEnd] take fuel; [client_io_terminates] gives
    the amount that always suffices (one round trip per byte, or per entry
    left plus one), and the end-to-end theorems run with that much.  [Dirents]
    and the codecs recurse on a measure bounded by the length of the input.
    [ClientWire.readLoop] needs one unit more than the bytes that are to come
    ([read_loop_safe]).  Everything else is structural; the server's loop takes
    the times at which frames arrive, one per frame.  [lockLoop] takes as many
    polls as its context allows ([lock_settles]); the extended-attribute loops
    a chunk each; the listing of a host directory one call per entry and one
    more.  Termination of concurrent parts ([Workers], [ClientClose],
    [SessionManager]) is by a rank that every step decreases.

    ** Not modelled

    [vsock] (socket system calls), the test harnesses [server/fstest] and
    [client/clienttest], tracing and metrics ([server/otel.go],
    [client/otel.go], [internal/protometa]) and the format of log lines: they
    make no decision of the protocol.  The FreeBSD and Darwin variants of the
    passthrough file system and the errno tables are alternatives chosen at
    build time.  Deadlines on reads and writes and keep-alive appear as
    failures that can happen at any time, contexts where they decide a
    protocol step.  A file system other than these two is an instance of
    [Capabilities] and [NodeOps] with laws stated where they are used; the
    kernel, the network and the clock are open. *)

From Stdlib Require Export ZArith Lia Bool.
From Stdlib Require Import Strings.Byte.
From stdpp Require Export base list strings gmap.
From stdpp Require Import numbers.

Set Default Goal Selector "!".

#[global] Open Scope Z_scope.

(** ** Hint databases

    [wire] resolves "this encoder emits those bytes" and "this decoder
    consumes those bytes" goals field by field; [bounds] discharges range
    side conditions on machine integers. *)

Create HintDb wire.
Create HintDb bounds.
Create Rewrite HintDb wiresimp.

(** ** Go errors

    The chain of a Go [error] value as [errors.Is] and [errors.As] see it.
    Format strings are kept verbatim, with the integer operands of the
    [%d] verbs. *)

Inductive GoError : Type :=
  | EOF
  | ErrUnexpectedEOF
  | ErrNet (timeout : bool)
  | Sentinel (name : string)
  | ErrnoError (errno : Z)
  | SyscallErrno (errno : Z)
  | RemoteError (errno : Z) (msg : string)
  | Errorf (fmt : string) (args : list Z)
  | Wrapf (fmt : string) (args : list Z) (err : GoError).

#[export] Instance GoError_eq_dec : EqDecision GoError.
Proof. solve_decision. Defined.

(** [errors.Is]: does the wrap chain of [e] contain [target]? *)
Fixpoint errors_Is (e target : GoError) : bool :=
  bool_decide (e = target) ||
  match e with
  | Wrapf _ _ e' => errors_Is e' target
  | RemoteError errno _ => bool_decide (target = ErrnoError errno)
  | _ => false
  end.

(** ** Results and the state-and-error monad

    A fallible Go operation on a mutable object of type [S] is a function
    from the object to its result and the object after the call; the object
    is returned on the error path too, because Go code that fails halfway has
    already consumed or produced bytes. *)

Inductive result (A : Type) : Type :=
  | Ok (a : A)
  | Err (e : GoError).
Arguments Ok {A} a.
Arguments Err {A} e.

Definition M (S A : Type) : Type := S -> result A * S.

#[export] Instance M_ret S : MRet (M S) := fun A a s => (Ok a, s).
#[export] Instance M_bind S : MBind (M S) := fun A B f m s =>
  match m s with
  | (Ok a, s') => f a s'
  | (Err e, s') => (Err e, s')
  end.

Definition throw {S A} (e : GoError) : M S A := fun s => (Err e, s).

(** [if err != nil { return fmt.Errorf(fmt, args..., err) }] *)
Definition wrapf_args {S A} (fmt : string) (args : list Z) (m : M S A) : M S A := fun s =>
  match m s with
  | (Ok a, s') => (Ok a, s')
  | (Err e, s') => (Err (Wrapf fmt args e), s')
  end.
Definition wrapf {S A} (fmt : string) (m : M S A) : M S A := wrapf_args fmt [] m.

Section MonadLaws.
Context {S : Type}.

Lemma mbind_ok {A B} (m : M S A) (f : A -> M S B) s a s' :
  m s = (Ok a, s') -> (m ≫= f) s = f a s'.
Proof. intros H. unfold mbind, M_bind. by rewrite H. Qed.

Lemma mbind_err {A B} (m : M S A) (f : A -> M S B) s e s' :
  m s = (Err e, s') -> (m ≫= f) s = (Err e, s').
Proof. intros H. unfold mbind, M_bind. by rewrite H. Qed.

Lemma mbind_Ok_inv {A B} (m : M S A) (f : A -> M S B) s b s'' :
  (m ≫= f) s = (Ok b, s'') -> exists a s', m s = (Ok a, s') /\ f a s' = (Ok b, s'').
Proof.
  unfold mbind, M_bind. destruct (m s) as [[a|e] s'] eqn:E; intros H; [|congruence].
  by exists a, s'.
Qed.

Lemma wrapf_ok {A} fmt args (m : M S A) s a s' :
  wrapf_args fmt args m s = (Ok a, s') <-> m s = (Ok a, s').
Proof. unfold wrapf_args. destruct (m s) as [[]]; naive_solver. Qed.

Lemma wrapf_err {A} fmt args (m : M S A) s e s' :
  m s = (Err e, s') -> wrapf_args fmt args m s = (Err (Wrapf fmt args e), s').
Proof. intros H. unfold wrapf_args. by rewrite H. Qed.
End MonadLaws.

(** ** Fixed-width integers

    A Go [uintN] is a [Z] in [0, 2^N); conversions and arithmetic wrap. *)

Definition uint_wrap (w : Z) (z : Z) : Z := z mod 2 ^ w.
Definition is_uint (w z : Z) : Prop := 0 <= z < 2 ^ w.

#[export] Instance is_uint_dec w z : Decision (is_uint w z).
Proof. unfold is_uint. solve_decision. Defined.

Abbreviation u8 := (is_uint 8).
Abbreviation u16 := (is_uint 16).
Abbreviation u32 := (is_uint 32).
Abbreviation u64 := (is_uint 64).

Lemma uint_wrap_range w z : 0 <= w -> is_uint w (uint_wrap w z).
Proof. intros. apply Z.mod_pos_bound. lia. Qed.

Lemma uint_wrap_id w z : is_uint w z -> uint_wrap w z = z.
Proof. intros. by apply Z.mod_small. Qed.

#[export] Hint Resolve uint_wrap_range uint_wrap_id : bounds.

(** Removes the [uint_wrap w]s of a goal, innermost first, where the
    context bounds their arguments. *)
Ltac unwrap w :=
  repeat match goal with
         | |- context [uint_wrap w ?x] =>
             lazymatch x with
             | context [uint_wrap] => fail
             | _ => rewrite (uint_wrap_id w x) by (unfold is_uint; lia)
             end
         end.

(** ** Bytes *)

Abbreviation byte := Byte.byte.
Abbreviation bytes := (list Byte.byte).

Definition Z_of_byte (b : byte) : Z := Z.of_N (Byte.to_N b).
Definition byte_of_Z (z : Z) : byte :=
  match Byte.of_N (Z.to_N (z mod 256)) with
  | Some b => b
  | None => x00
  end.

#[export] Instance byte_eq_dec : EqDecision byte := Byte.byte_eq_dec.

Lemma Z_of_byte_range b : 0 <= Z_of_byte b < 256.
Proof. unfold Z_of_byte. pose proof (Byte.to_N_bounded b). lia. Qed.

Lemma byte_of_Z_of_byte b : byte_of_Z (Z_of_byte b) = b.
Proof.
  unfold byte_of_Z. rewrite Z.mod_small by apply Z_of_byte_range.
  unfold Z_of_byte. by rewrite N2Z.id, Byte.of_to_N.
Qed.

Lemma Z_of_byte_of_Z z : Z_of_byte (byte_of_Z z) = z mod 256.
Proof.
  unfold byte_of_Z, Z_of_byte.
  assert (0 <= z mod 256 < 256) by (apply Z.mod_pos_bound; lia).
  destruct (Byte.of_N _) as [b|] eqn:E.
  - apply Byte.to_of_N in E. rewrite E, Z2N.id; lia.
  - apply Byte.of_N_None_iff in E. lia.
Qed.

(** Little-endian encoding: [binary.LittleEndian.PutUintN]/[AppendUintN] of
    an [n]-byte integer, and [binary.LittleEndian.UintN] of its bytes. *)

Fixpoint le_bytes (n : nat) (v : Z) : bytes :=
  match n with
  | O => []
  | S n' => byte_of_Z v :: le_bytes n' (v / 256)
  end.

Fixpoint le_val (bs : bytes) : Z :=
  match bs with
  | [] => 0
  | b :: bs' => Z_of_byte b + 256 * le_val bs'
  end.

Lemma length_le_bytes n v : length (le_bytes n v) = n.
Proof. revert v; induction n; intros; simpl; auto. Qed.

Lemma le_val_bound bs : 0 <= le_val bs < 256 ^ Z.of_nat (length bs).
Proof.
  induction bs as [|b bs IH]; [simpl; lia|].
  cbn [le_val length]. rewrite Nat2Z.inj_succ, Z.pow_succ_r by lia.
  pose proof (Z_of_byte_range b). nia.
Qed.

Lemma le_val_le_bytes n v : le_val (le_bytes n v) = v mod 256 ^ Z.of_nat n.
Proof.
  revert v; induction n as [|n IH]; intros v; [by rewrite Z.mod_1_r|].
  cbn [le_val le_bytes]. rewrite IH, Z_of_byte_of_Z, Nat2Z.inj_succ, Z.pow_succ_r by lia.
  rewrite Z.rem_mul_r by lia. lia.
Qed.

Lemma le_bytes_le_val bs : le_bytes (length bs) (le_val bs) = bs.
Proof.
  induction bs as [|b bs IH]; [done|].
  cbn [le_val le_bytes length]. pose proof (Z_of_byte_range b). f_equal.
  - rewrite <- (byte_of_Z_of_byte b) at 2. unfold byte_of_Z. do 3 f_equal.
    by rewrite Z.mul_comm, Z.mod_add by lia.
  - rewrite Z.mul_comm, Z.div_add, Z.div_small by lia. by rewrite Z.add_0_l.
Qed.

Lemma le_val_le_bytes_id n w v :
  is_uint w v -> w = 8 * Z.of_nat n -> le_val (le_bytes n v) = v.
Proof.
  intros Hv ->. rewrite le_val_le_bytes. apply Z.mod_small.
  unfold is_uint in Hv. rewrite Z.pow_mul_r in Hv by lia. done.
Qed.

Lemma le_bytes_wrap n w v :
  w = 8 * Z.of_nat n -> le_bytes n (uint_wrap w v) = le_bytes n v.
Proof.
  intros ->. unfold uint_wrap. rewrite Z.pow_mul_r by lia. change (2 ^ 8) with 256.
  revert v; induction n as [|n IH]; intros v; [done|].
  cbn [le_bytes]. rewrite Nat2Z.inj_succ, Z.pow_succ_r by lia.
  set (p := 256 ^ Z.of_nat n) in *. assert (0 < p) by (subst p; lia).
  rewrite Z.rem_mul_r by lia. f_equal.
  - unfold byte_of_Z. do 3 f_equal. rewrite Z.mul_comm, Z.mod_add by lia.
    by rewrite Z.mod_mod by lia.
  - rewrite Z.mul_comm, Z.div_add by lia.
    rewrite (Z.div_small (v mod 256)) by (apply Z.mod_pos_bound; lia).
    by rewrite Z.add_0_l, IH.
Qed.

Lemma le_val_is_uint w bs : w = 8 * Z.of_nat (length bs) -> is_uint w (le_val bs).
Proof. intros ->. unfold is_uint. rewrite Z.pow_mul_r by lia. apply le_val_bound. Qed.

#[export] Hint Rewrite length_le_bytes : wiresimp.

Arguments le_bytes : simpl never.
Arguments le_val : simpl never.

(** ** Go strings: immutable byte sequences *)

Definition bytes_of_string (s : string) : bytes := String.list_byte_of_string s.
Definition string_of_bytes (bs : bytes) : string := String.string_of_list_byte bs.
Definition strlen (s : string) : Z := Z.of_nat (String.length s).

Lemma string_of_bytes_of_string s : string_of_bytes (bytes_of_string s) = s.
Proof. apply String.string_of_list_byte_of_string. Qed.

Lemma bytes_of_string_of_bytes bs : bytes_of_string (string_of_bytes bs) = bs.
Proof. apply String.list_byte_of_string_of_list_byte. Qed.

Lemma length_bytes_of_string s : length (bytes_of_string s) = String.length s.
Proof. induction s; simpl; auto. Qed.

Lemma length_string_of_bytes bs : String.length (string_of_bytes bs) = length bs.
Proof. by rewrite <- length_bytes_of_string, bytes_of_string_of_bytes. Qed.

(** [strings.Split(s, "\x00")] and [bytes.Split(b, []byte{0})] *)
Fixpoint splitNul (bs acc : bytes) : list bytes :=
  match bs with
  | [] => [rev acc]
  | b :: bs => if decide (b = byte_of_Z 0) then rev acc :: splitNul bs [] else splitNul bs (b :: acc)
  end.

#[export] Hint Rewrite length_bytes_of_string length_string_of_bytes
  bytes_of_string_of_bytes string_of_bytes_of_string : wiresimp.

(** ** List helpers shared by the components *)

(** A [map] literal or a [switch] on integer constants. *)
Fixpoint assoc {V} (k : Z) (l : list (Z * V)) : option V :=
  match l with
  | [] => None
  | (k', v) :: l' => if k =? k' then Some v else assoc k l'
  end.

Lemma app_prefix_split {A} (xs ys zs : list A) :
  xs = ys ++ zs -> take (length ys) xs = ys /\ drop (length ys) xs = zs.
Proof. intros ->. by rewrite take_app_length, drop_app_length. Qed.

Lemma take_drop_split {A} n (l : list A) :
  (n <= length l)%nat -> exists l1 l2, l = l1 ++ l2 /\ length l1 = n.
Proof.
  intros H. exists (take n l), (drop n l).
  by rewrite take_drop, length_take, Nat.min_l.
Qed.

Lemma take_min_length {A} n (l : list A) : take (n `min` length l) l = take n l.
Proof.
  destruct (Nat.min_spec n (length l)) as [[? ->]|[? ->]]; [done|].
  by rewrite !take_ge by lia.
Qed.

Lemma drop_min_length {A} n (l : list A) : drop (n `min` length l) l = drop n l.
Proof.
  destruct (Nat.min_spec n (length l)) as [[? ->]|[? ->]]; [done|].
  by rewrite !drop_ge by lia.
Qed.

(** The list without the first occurrence of [x]. *)
Fixpoint take_out {A} `{EqDecision A} (x : A) (l : list A) : option (list A) :=
  match l with
  | [] => None
  | y :: l' => if decide (x = y) then Some l' else (y ::.) <$> take_out x l'
  end.

Lemma take_out_Permutation {A} `{EqDecision A} (x : A) l l' : take_out x l = Some l' -> l ≡ₚ x :: l'.
Proof.
  revert l'; induction l as [|y l IH]; intros l'; cbn; [done|]. case_decide as E.
  - intros [= <-]. by subst.
  - intros (k & Hk & ->)%fmap_Some. rewrite (IH k Hk). apply Permutation_swap.
Qed.

(** ** Transition systems

    A component shared by several goroutines is a step relation; an invariant
    holds by rule induction.  A labelled executable form computes the outcome
    of a schedule, which is then a reachable state. *)
Section Transitions.
Context {S L : Type} (start : S) (step : S -> S -> Prop) (run : L -> S -> option S).

Inductive Reachable : S -> Prop :=
  | reach_init : Reachable start
  | reach_step s s' : Reachable s -> step s s' -> Reachable s'.

Lemma Reachable_invariant (I : S -> Prop) :
  I start -> (forall s s', Reachable s -> I s -> step s s' -> I s') -> forall s, Reachable s -> I s.
Proof. intros H0 Hs. induction 1; eauto. Qed.

Fixpoint runLabels (labs : list L) (s : S) : option S :=
  match labs with
  | [] => Some s
  | lab :: labs' => s' ← run lab s; runLabels labs' s'
  end.

Lemma runLabels_Reachable (run_step : forall lab s s', run lab s = Some s' -> step s s') labs s s' :
  Reachable s -> runLabels labs s = Some s' -> Reachable s'.
Proof.
  revert s. induction labs as [|lab labs IH]; intros s Hr; cbn; [by intros [= <-]|].
  intros (s1 & E & H)%bind_Some. eapply IH; [|done]. eapply reach_step; [done|]. by eapply run_step.
Qed.
End Transitions.

(** ** Sums over the threads of a system *)

Section Weigh.
Context {A : Type}.
Implicit Types (m : gmap nat A) (w : A -> nat).

Definition weigh w m : nat := map_fold (fun _ p n => w p + n)%nat 0%nat m.

Lemma weigh_empty w : weigh w ∅ = 0%nat.
Proof. apply map_fold_empty. Qed.
Lemma weigh_insert w g p m : m !! g = None -> weigh w (<[g := p]> m) = (w p + weigh w m)%nat.
Proof. intros Hg. apply (map_fold_insert_L (fun _ p n => w p + n)%nat); [|done]. intros. lia. Qed.
Lemma weigh_singleton w g p : weigh w {[g := p]} = w p.
Proof. rewrite <- insert_empty, weigh_insert, weigh_empty by done. lia. Qed.
Lemma weigh_delete w g p m : m !! g = Some p -> (weigh w (delete g m) + w p)%nat = weigh w m.
Proof. intros Hg. rewrite <- (insert_delete_id m g p Hg) at 2. rewrite weigh_insert by apply lookup_delete_eq. lia. Qed.
Lemma weigh_move w g p p' m : m !! g = Some p -> (weigh w (<[g := p']> m) + w p = weigh w m + w p')%nat.
Proof. intros Hg. rewrite <- insert_delete_eq, weigh_insert by apply lookup_delete_eq. rewrite <- (weigh_delete w g p m Hg). lia. Qed.
Lemma weigh_le w g p m : m !! g = Some p -> (w p <= weigh w m)%nat.
Proof. intros Hg. rewrite <- (weigh_delete w g p m Hg). lia. Qed.
Lemma weigh_some w m : (0 < weigh w m)%nat -> exists g p, m !! g = Some p /\ (0 < w p)%nat.
Proof.
  induction m as [|g p m Hg IH] using map_ind; [rewrite weigh_empty; lia|]. rewrite weigh_insert by done. intros Hpos.
  destruct (decide (0 < w p)%nat); [exists g, p; by rewrite lookup_insert_eq|].
  destruct IH as (g' & p' & Hp' & Hw); [lia|]. exists g', p'. split; [|done]. rewrite lookup_insert_ne; congruence.
Qed.
Lemma weigh_eq w w' m : (forall g p, m !! g = Some p -> w p = w' p) -> weigh w m = weigh w' m.
Proof.
  induction m as [|g p m Hg IH] using map_ind; intros H; [done|]. rewrite !weigh_insert by done.
  rewrite (H g p) by apply lookup_insert_eq. f_equal. apply IH. intros h q Hh. apply (H h). rewrite lookup_insert_ne; congruence.
Qed.
End Weigh.

(** ** Hoare triples of the monad

    [hoare P m Q R]: from a state with [P], [m] ends in one with [Q a] when it
    returns [a], and with [R] when it fails.  [keeps I m]: [m] keeps [I]
    either way. *)
Section Hoare.
Context {S : Type}.

Definition hoare {A} (P : S -> Prop) (m : M S A) (Q : A -> S -> Prop) (R : S -> Prop) : Prop :=
  forall s, P s -> match m s with (Ok a, s') => Q a s' | (Err _, s') => R s' end.
Definition keeps {A} (I : S -> Prop) (m : M S A) : Prop := hoare I m (fun _ => I) I.

Lemma hoare_ret {A} (P : S -> Prop) (a : A) (Q : A -> S -> Prop) R : (forall s, P s -> Q a s) -> hoare P (mret a) Q R.
Proof. intros HP s Hs. cbn. auto. Qed.

Lemma hoare_throw {A} (P : S -> Prop) e (Q : A -> S -> Prop) (R : S -> Prop) : (forall s, P s -> R s) -> hoare P (throw e) Q R.
Proof. intros HP s Hs. cbn. auto. Qed.

Lemma hoare_bind {A B} (m : M S A) (k : A -> M S B) P Q' Q R :
  hoare P m Q' R -> (forall a, hoare (Q' a) (k a) Q R) -> hoare P (m ≫= k) Q R.
Proof.
  intros Hm Hk s Hs. specialize (Hm s Hs). unfold mbind, M_bind. destruct (m s) as [[a|e] s']; [|done]. by apply Hk.
Qed.

Lemma hoare_conseq {A} (m : M S A) (P P' : S -> Prop) (Q Q' : A -> S -> Prop) (R R' : S -> Prop) :
  hoare P' m Q' R' -> (forall s, P s -> P' s) -> (forall a s, Q' a s -> Q a s) -> (forall s, R' s -> R s) ->
  hoare P m Q R.
Proof. intros Hm HP HQ HR s Hs%HP%Hm. destruct (m s) as [[a|e] s']; auto. Qed.

Lemma hoare_exists {A X} (m : M S A) (P : X -> S -> Prop) Q R :
  (forall x, hoare (P x) m Q R) -> hoare (fun s => exists x, P x s) m Q R.
Proof. intros Hm s [x Hs]. exact (Hm x s Hs). Qed.

Lemma hoare_pure {A} (m : M S A) (X : Prop) (P : S -> Prop) Q R :
  (X -> hoare P m Q R) -> hoare (fun s => X /\ P s) m Q R.
Proof. intros Hm s [Hx Hs]. exact (Hm Hx s Hs). Qed.

Lemma keeps_bind {A B} (I : S -> Prop) (m : M S A) (k : A -> M S B) :
  keeps I m -> (forall a, keeps I (k a)) -> keeps I (m ≫= k).
Proof. intros Hm Hk. by eapply hoare_bind. Qed.

Lemma keeps_ret {A} (I : S -> Prop) (a : A) : keeps I (mret a).
Proof. by apply hoare_ret. Qed.

Lemma keeps_throw {A} (I : S -> Prop) e : keeps I (@throw S A e).
Proof. by apply hoare_throw. Qed.
End Hoare.

Create HintDb keeps.
#[export] Hint Resolve keeps_ret keeps_throw : keeps.

(** Case split on the innermost [match]/[if] scrutinee of a hypothesis. *)
Ltac case_hyp H :=
  match type of H with
  | context [match ?x with _ => _ end] =>
      lazymatch x with
      | context [match _ with _ => _ end] => fail
      | _ => destruct x eqn:?
      end
  end.
