(* ===== verification/GoIO.v ===== *)
(** * The byte streams the codecs read from and write to

    Models the parts of Go's [io], [bytes] and [net] packages the program
    uses: [bytes.Reader], [io.LimitedReader] and a network stream as readers
    with [io.ReadFull] on top of them; [bytes.Buffer], [proto.ByteCounter] and
    a network connection as writers.  The theorems show what [io.ReadFull]
    returns as a function of the bytes still to come, whatever the
    segmentation of the stream, and give the two judgements ([decodes] and
    [emits]) in which the codecs are specified. *)

From S2P Require Import Prelude.

(** ** Readers *)

(** [Stream chunks fin] is a network connection whose peer delivers
    [chunks] in that segmentation, after which reads return [fin]. *)
Inductive Reader : Type :=
  | BytesReader (s : bytes)
  | Stream (chunks : list bytes) (fin : GoError)
  | LimitedReader (R : Reader) (N : Z).

Fixpoint skip_empty (chunks : list bytes) : list bytes :=
  match chunks with
  | [] :: rest => skip_empty rest
  | _ => chunks
  end.

(** [r.Read(p)] with [len(p) = n]: the bytes read, the error, and the reader
    after the call. *)
Fixpoint Read (r : Reader) (n : nat) : bytes * option GoError * Reader :=
  match r with
  | BytesReader [] => ([], Some EOF, r)
  | BytesReader s => (take n s, None, BytesReader (drop n s))
  | Stream chunks fin =>
      match skip_empty chunks with
      | [] => ([], Some fin, Stream [] fin)
      | c :: rest => (take n c, None, Stream (drop n c :: rest) fin)
      end
  | LimitedReader R N =>
      if N <=? 0 then ([], Some EOF, r)
      else
        let '(bs, err, R') := Read R (Nat.min n (Z.to_nat N)) in
        (bs, err, LimitedReader R' (N - Z.of_nat (length bs)))
  end.

(** [bytes.Reader.Len]. *)
Definition Len (s : bytes) : Z := Z.of_nat (length s).

(** The loop of [io.ReadAtLeast]; [fuel] bounds the number of [Read] calls,
    each of which makes progress or fails. *)
Fixpoint readLoop (fuel want : nat) (acc : bytes) (r : Reader) : bytes * option GoError * Reader :=
  match want, fuel with
  | O, _ | _, O => (acc, None, r)
  | _, S fuel' =>
      match Read r want with
      | (bs, None, r') => readLoop fuel' (want - length bs) (acc ++ bs) r'
      | (bs, Some e, r') => (acc ++ bs, Some e, r')
      end
  end.

(** [io.ReadFull] into a buffer of [n] bytes. *)
Definition ReadFull (n : nat) : M Reader bytes := fun r =>
  let '(bs, err, r') := readLoop n n [] r in
  if (n <=? length bs)%nat then (Ok bs, r')
  else match err with
       | Some EOF => (Err (if (0 <? length bs)%nat then ErrUnexpectedEOF else EOF), r')
       | Some e => (Err e, r')
       | None => (Err ErrUnexpectedEOF, r')
       end.

(** *** What a reader still has to give *)

Fixpoint avail (r : Reader) : bytes :=
  match r with
  | BytesReader s => s
  | Stream chunks _ => concat chunks
  | LimitedReader R N => take (Z.to_nat N) (avail R)
  end.

(** [advances r n r']: [r'] is [r] after [n] more bytes were consumed. *)
Inductive advances : Reader -> nat -> Reader -> Prop :=
  | advances_bytes s n :
      (n <= length s)%nat -> advances (BytesReader s) n (BytesReader (drop n s))
  | advances_stream cs cs' n fin :
      (n <= length (concat cs))%nat -> concat cs' = drop n (concat cs) ->
      advances (Stream cs fin) n (Stream cs' fin)
  | advances_limited R R' N n :
      advances R n R' -> Z.of_nat n <= Z.max 0 N ->
      advances (LimitedReader R N) n (LimitedReader R' (N - Z.of_nat n)).

#[export] Hint Constructors advances : wire.

Lemma advances_le r n r' : advances r n r' -> (n <= length (avail r))%nat.
Proof. induction 1; simpl; [lia..|]. rewrite length_take. lia. Qed.

Lemma advances_avail r n r' : advances r n r' -> avail r' = drop n (avail r).
Proof.
  induction 1 as [| |R R' N n HR IH Hn]; simpl; [done..|].
  rewrite IH, skipn_firstn_comm. f_equal. lia.
Qed.

Lemma advances_app r n r' bs rest :
  advances r n r' -> avail r = bs ++ rest -> length bs = n -> avail r' = rest.
Proof. intros Ha Hav <-. rewrite (advances_avail _ _ _ Ha), Hav. apply drop_app_length. Qed.

Lemma advances_0 r : advances r 0 r.
Proof.
  induction r as [s|cs fin|R IH N].
  - rewrite <- (drop_0 s) at 2. constructor. lia.
  - constructor; [lia|done].
  - replace N with (N - Z.of_nat 0) at 2 by lia. constructor; [done|lia].
Qed.

Lemma advances_trans r n r' m r'' :
  advances r n r' -> advances r' m r'' -> advances r (n + m) r''.
Proof.
  intros H1; revert m r''; induction H1 as [s n Hn|cs cs' n fin Hn Hc|R R' N n HR IH Hn];
    intros m r'' H2; inversion H2 as [? ? Hm|? ? ? ? Hm Hc'|? ? ? ? HR' Hm]; subst.
  - rewrite drop_drop. constructor. rewrite length_drop in Hm. lia.
  - constructor.
    + rewrite Hc, length_drop in Hm. lia.
    + by rewrite Hc', Hc, drop_drop.
  - replace (N - Z.of_nat n - Z.of_nat m) with (N - Z.of_nat (n + m)) by lia.
    constructor; [by eapply IH|]. lia.
Qed.

(** The error a reader reports once [avail] is exhausted. *)
Fixpoint end_error (r : Reader) : GoError :=
  match r with
  | BytesReader _ => EOF
  | Stream _ fin => fin
  | LimitedReader R N =>
      if (Z.to_nat N <=? length (avail R))%nat then EOF else end_error R
  end.

Lemma concat_skip_empty cs : concat (skip_empty cs) = concat cs.
Proof. induction cs as [|[|b c] cs IH]; simpl; auto. Qed.

Lemma skip_empty_cons cs c rest : skip_empty cs = c :: rest -> c <> [].
Proof. induction cs as [|[|b c'] cs IH]; simpl; naive_solver. Qed.

Lemma end_error_advances r n r' : advances r n r' -> end_error r' = end_error r.
Proof.
  induction 1 as [| |R R' N n HR IH Hn]; simpl; [done..|].
  pose proof (advances_le _ _ _ HR) as Hle.
  rewrite (advances_avail _ _ _ HR), length_drop, IH.
  destruct (Nat.leb_spec (Z.to_nat N) (length (avail R)));
    destruct (Nat.leb_spec (Z.to_nat (N - Z.of_nat n)) (length (avail R) - n)); auto; lia.
Qed.

Lemma Read_some r n :
  (0 < n)%nat -> avail r <> [] ->
  exists bs r', Read r n = (bs, None, r') /\ bs = take (length bs) (avail r) /\
    (0 < length bs <= n)%nat /\ advances r (length bs) r'.
Proof.
  revert n; induction r as [s|cs fin|R IH N]; intros n Hn Hav.
  - destruct s as [|b s]; [done|]. eexists _, _. split; [reflexivity|].
    rewrite length_take, take_min_length. split; [done|]. split; [simpl; lia|].
    rewrite <- drop_min_length. constructor. lia.
  - cbn [Read avail] in *. rewrite <- concat_skip_empty in Hav |- *.
    destruct (skip_empty cs) as [|c rest] eqn:E; [done|].
    pose proof (skip_empty_cons _ _ _ E) as Hc.
    eexists _, _. split; [reflexivity|]. rewrite length_take. cbn [concat].
    destruct c as [|b c]; [done|].
    split; [by rewrite take_app_le, take_min_length by lia|]. split; [simpl; lia|].
    apply advances_stream; rewrite <- (concat_skip_empty cs), E; cbn [concat].
    + rewrite length_app. lia.
    + by rewrite drop_app_le, drop_min_length by lia.
  - cbn [Read avail] in *. destruct (Z.leb_spec N 0) as [HN|HN].
    { replace (Z.to_nat N) with 0%nat in Hav by lia. done. }
    assert (avail R <> []) as HR by (intros E; by rewrite E, take_nil in Hav).
    destruct (IH (n `min` Z.to_nat N)%nat) as (bs & r' & -> & Hbs & Hl & Ha); [lia|done|].
    eexists _, _. split; [reflexivity|]. split.
    { rewrite take_take, Nat.min_l by lia. done. }
    split; [lia|]. constructor; [done|lia].
Qed.

Lemma Read_none r n :
  avail r = [] -> exists r', Read r n = ([], Some (end_error r), r') .
Proof.
  revert n; induction r as [s|cs fin|R IH N]; intros n Hav.
  - cbn in Hav. subst. by eexists.
  - cbn [Read avail] in *. rewrite <- concat_skip_empty in Hav.
    destruct (skip_empty cs) as [|c rest] eqn:E; [by eexists|].
    apply skip_empty_cons in E. by destruct c.
  - cbn [Read avail end_error] in *. destruct (Z.leb_spec N 0) as [HN|HN].
    { rewrite (proj2 (Nat.leb_le _ _)) by lia. by eexists. }
    assert (avail R = []) as HR.
    { destruct (avail R) as [|b l]; [done|].
      destruct (Z.to_nat N) eqn:EN; [lia|done]. }
    destruct (IH (n `min` Z.to_nat N)%nat HR) as [r' ->]. rewrite HR.
    rewrite (proj2 (Nat.leb_gt _ _)) by (simpl; lia). by eexists.
Qed.

Lemma readLoop_spec fuel want acc r :
  (want <= fuel)%nat ->
  if (want <=? length (avail r))%nat
  then exists r', readLoop fuel want acc r = (acc ++ take want (avail r), None, r') /\
         advances r want r'
  else exists r', readLoop fuel want acc r = (acc ++ avail r, Some (end_error r), r').
Proof.
  revert want acc r; induction fuel as [|fuel IH]; intros want acc r Hf.
  { replace want with 0%nat by lia. exists r. split; [by rewrite app_nil_r|apply advances_0]. }
  destruct want as [|w].
  { exists r. split; [by rewrite app_nil_r|apply advances_0]. }
  destruct (decide (avail r = [])) as [E|E].
  { destruct (Read_none r (S w) E) as [r' Hr]. cbn [readLoop]. rewrite Hr, E. by eexists. }
  destruct (Read_some r (S w)) as (bs & r' & Hr & Hbs & Hl & Ha); [lia|done|].
  cbn [readLoop]. rewrite Hr.
  pose proof (advances_avail _ _ _ Ha) as Hav. pose proof (advances_le _ _ _ Ha) as Hle.
  specialize (IH (S w - length bs)%nat (acc ++ bs) r' ltac:(lia)).
  rewrite Hav, length_drop, (end_error_advances _ _ _ Ha) in IH.
  destruct (Nat.leb_spec (S w) (length (avail r)));
    destruct (Nat.leb_spec (S w - length bs) (length (avail r) - length bs)); try lia.
  - destruct IH as (r'' & -> & Ha'). exists r''. split.
    + do 2 f_equal. rewrite <- app_assoc. f_equal. rewrite Hbs at 1.
      rewrite take_take_drop. f_equal. lia.
    + replace (S w) with (length bs + (S w - length bs))%nat by lia.
      by eapply advances_trans.
  - destruct IH as (r'' & ->). exists r''. do 2 f_equal.
    rewrite <- app_assoc. f_equal. rewrite Hbs at 1. apply take_drop.
Qed.

(** What [io.ReadFull] returns depends only on the bytes to come and on the
    error that follows them, not on how the stream is segmented. *)
Definition readFull_result (n : nat) (bs : bytes) (fin : GoError) : result bytes :=
  if (n <=? length bs)%nat then Ok (take n bs)
  else match fin with
       | EOF => Err (if (0 <? length bs)%nat then ErrUnexpectedEOF else EOF)
       | e => Err e
       end.

Lemma ReadFull_result n r : fst (ReadFull n r) = readFull_result n (avail r) (end_error r).
Proof.
  unfold ReadFull, readFull_result. pose proof (readLoop_spec n n [] r ltac:(lia)) as H.
  destruct (Nat.leb_spec n (length (avail r))) as [Hn|Hn].
  - destruct H as (r' & -> & _). cbn [app]. rewrite length_take.
    by rewrite (proj2 (Nat.leb_le _ _)) by lia.
  - destruct H as (r' & ->). cbn [app]. rewrite (proj2 (Nat.leb_gt _ _)) by lia.
    by destruct (end_error r).
Qed.

(** [takes r bs r']: reading from [r] consumed exactly [bs], leaving [r']. *)
Definition takes (r : Reader) (bs : bytes) (r' : Reader) : Prop :=
  advances r (length bs) r' /\ avail r = bs ++ avail r'.

Lemma takes_nil r : takes r [] r.
Proof. split; [apply advances_0|done]. Qed.

Lemma takes_app r bs1 r1 bs2 r2 :
  takes r bs1 r1 -> takes r1 bs2 r2 -> takes r (bs1 ++ bs2) r2.
Proof.
  intros [A1 E1] [A2 E2]. split.
  - rewrite length_app. by eapply advances_trans.
  - by rewrite E1, E2, app_assoc.
Qed.

Lemma advances_takes r n r' :
  advances r n r' -> takes r (take n (avail r)) r'.
Proof.
  intros H. pose proof (advances_le _ _ _ H).
  split; [by rewrite length_take, Nat.min_l|].
  by rewrite (advances_avail _ _ _ H), take_drop.
Qed.

Lemma takes_avail r bs r' rest : takes r bs r' -> avail r = bs ++ rest -> avail r' = rest.
Proof. intros [_ E] E'. rewrite E in E'. by apply app_inv_head in E'. Qed.

Lemma ReadFull_ok n r bs rest :
  avail r = bs ++ rest -> length bs = n ->
  exists r', ReadFull n r = (Ok bs, r') /\ takes r bs r'.
Proof.
  intros Hav <-. unfold ReadFull.
  pose proof (readLoop_spec (length bs) (length bs) [] r ltac:(lia)) as H.
  destruct (Nat.leb_spec (length bs) (length (avail r))) as [Hn|Hn];
    [|rewrite Hav, length_app in Hn; lia].
  destruct H as (r' & -> & Ha). cbn [app]. rewrite Hav, take_app_length, Nat.leb_refl.
  exists r'. split; [done|]. apply advances_takes in Ha.
  by rewrite Hav, take_app_length in Ha.
Qed.

Lemma ReadFull_Ok_inv n r bs r' :
  ReadFull n r = (Ok bs, r') -> length bs = n /\ takes r bs r'.
Proof.
  unfold ReadFull. pose proof (readLoop_spec n n [] r ltac:(lia)) as H.
  destruct (Nat.leb_spec n (length (avail r))) as [Hn|Hn].
  - destruct H as (r1 & -> & Ha). cbn [app]. rewrite length_take, Nat.min_l, Nat.leb_refl by lia.
    intros [= <- <-]. rewrite length_take. split; [lia|]. by apply advances_takes.
  - destruct H as (r1 & ->). cbn [app]. rewrite (proj2 (Nat.leb_gt _ _)) by lia.
    destruct (end_error r); discriminate.
Qed.

(** [decoder m wf wire]: on every reader, [m] accepts exactly the encodings
    [wire v] of the values with [wf v], and consumes nothing else. *)
Record decoder {A} (m : M Reader A) (wf : A -> Prop) (wire : A -> bytes) : Prop := {
  decoder_complete v r rest :
    wf v -> avail r = wire v ++ rest -> exists r', m r = (Ok v, r') /\ takes r (wire v) r';
  decoder_sound r v r' :
    m r = (Ok v, r') -> wf v /\ takes r (wire v) r'
}.
Arguments decoder_complete {A m wf wire} _ v r rest.
Arguments decoder_sound {A m wf wire} _ r v r'.

(** ** Writers *)

(** [Conn out room] is a network connection that has carried [out] and will
    carry [room] more bytes before the peer goes away ([None]: no limit). *)
Inductive Writer : Type :=
  | Buffer (b : bytes)
  | ByteCounter (c : Z)
  | Conn (out : bytes) (room : option nat).

Definition ErrClosed : GoError := ErrNet false.

(** [w.Write(p)]. *)
Definition Write (p : bytes) : M Writer unit := fun w =>
  match w with
  | Buffer b => (Ok tt, Buffer (b ++ p))
  | ByteCounter c => (Ok tt, ByteCounter (c + Z.of_nat (length p)))
  | Conn out None => (Ok tt, Conn (out ++ p) None)
  | Conn out (Some room) =>
      if (length p <=? room)%nat then (Ok tt, Conn (out ++ p) (Some (room - length p)%nat))
      else (Err ErrClosed, Conn (out ++ take room p) (Some O))
  end.

(** *** What an encoder puts on a writer *)

Definition fits (w : Writer) (bs : bytes) : bool :=
  match w with
  | Conn _ (Some room) => (length bs <=? room)%nat
  | _ => true
  end.

(** The writer after [bs] went through, and after the connection broke in
    the middle of [bs]. *)
Definition push (w : Writer) (bs : bytes) : Writer :=
  match w with
  | Buffer b => Buffer (b ++ bs)
  | ByteCounter c => ByteCounter (c + Z.of_nat (length bs))
  | Conn out None => Conn (out ++ bs) None
  | Conn out (Some room) => Conn (out ++ bs) (Some (room - length bs)%nat)
  end.
Definition break (w : Writer) (bs : bytes) : Writer :=
  match w with
  | Conn out (Some room) => Conn (out ++ take room bs) (Some O)
  | _ => w
  end.

(** [emits e bs]: on every writer, [e] writes exactly [bs]; when the
    connection breaks on the way it fails, with a prefix of [bs] sent. *)
Definition emits (e : M Writer unit) (bs : bytes) : Prop := forall w,
  if fits w bs then e w = (Ok tt, push w bs)
  else exists err, e w = (Err err, break w bs).

Lemma Write_emits p : emits (Write p) p.
Proof.
  intros [b|c|out [room|]]; simpl; try done.
  destruct (length p <=? room)%nat eqn:E; [done|]. by eexists.
Qed.

Lemma ret_emits : emits (mret tt) [].
Proof.
  intros [b|c|out [room|]]; cbn; unfold mret, M_ret.
  - by rewrite app_nil_r.
  - by rewrite Z.add_0_r.
  - by rewrite app_nil_r, Nat.sub_0_r.
  - by rewrite app_nil_r.
Qed.

Lemma wrapf_emits fmt args e bs : emits e bs -> emits (wrapf_args fmt args e) bs.
Proof.
  intros H w. specialize (H w). unfold wrapf_args. destruct (fits w bs).
  - by rewrite H.
  - destruct H as [err ->]. by eexists.
Qed.

Lemma fits_app w bs1 bs2 : fits w (bs1 ++ bs2) = fits w bs1 && fits (push w bs1) bs2.
Proof.
  destruct w as [b|c|out [room|]]; cbn; try done.
  rewrite length_app.
  destruct (Nat.leb_spec (length bs1 + length bs2) room);
    destruct (Nat.leb_spec (length bs1) room);
    destruct (Nat.leb_spec (length bs2) (room - length bs1)); try done; lia.
Qed.

Lemma push_app w bs1 bs2 : push w (bs1 ++ bs2) = push (push w bs1) bs2.
Proof.
  destruct w as [b|c|out [room|]]; simpl; rewrite ?app_assoc, ?length_app; try done.
  - f_equal. lia.
  - do 2 f_equal. lia.
Qed.

Lemma bind_emits e1 e2 bs1 bs2 :
  emits e1 bs1 -> emits e2 bs2 -> emits (e1 ;; e2) (bs1 ++ bs2).
Proof.
  intros H1 H2 w. specialize (H1 w). specialize (H2 (push w bs1)).
  rewrite fits_app. destruct (fits w bs1) eqn:F1; cbn [andb].
  - rewrite (mbind_ok _ _ _ _ _ H1), push_app. destruct (fits (push w bs1) bs2) eqn:F2; [done|].
    destruct H2 as [err H2]. exists err. rewrite H2. f_equal.
    destruct w as [b|c|out [room|]]; cbn in *; try discriminate.
    f_equal. rewrite <- app_assoc. f_equal.
    apply Nat.leb_le in F1. by rewrite take_app_ge by lia.
  - destruct H1 as [err H1]. exists err. rewrite (mbind_err _ _ _ _ _ H1). f_equal.
    destruct w as [b|c|out [room|]]; cbn in *; try discriminate.
    apply Nat.leb_gt in F1. by rewrite take_app_le by lia.
Qed.

(** Running an encoder into an empty [bytes.Buffer]. *)
Definition encode (e : M Writer unit) : result bytes :=
  match e (Buffer []) with
  | (Ok tt, Buffer b) => Ok b
  | (Ok tt, _) => Ok []
  | (Err err, _) => Err err
  end.

Lemma emits_encode e bs : emits e bs -> encode e = Ok bs.
Proof. intros H. specialize (H (Buffer [])). unfold encode. cbn in H. by rewrite H. Qed.

#[export] Hint Resolve Write_emits ret_emits wrapf_emits bind_emits takes_nil takes_app : wire.
