(* ===== verification/Types.v ===== *)
(** * Protocol vocabulary

    [proto/constants.go], [proto/types.go] and [proto/message.go]: the sizes
    and sentinels of the protocol, the message type codes and their names,
    and the structures that travel inside messages (QIDs, attributes,
    directory entries, file system statistics).  Unsigned Go integers are
    [Z]; [wf] predicates give their width. *)

From stdpp Require Import pretty.
From S2P Require Import Prelude.

(** ** Protocol limits and sentinels ([proto/constants.go]) *)

Definition HeaderSize : Z := 7.
Definition MaxWalkElements : Z := 16.
Definition MaxStringLen : Z := 65535.
Definition QIDSize : Z := 13.
Definition NoTag : Z := 65535.
Definition NoFid : Z := 4294967295.
Definition NoUID : Z := 4294967295.
Definition MaxDataSize : Z := Z.shiftl 1 24.

(** Directory entry types. *)

Definition DT_UNKNOWN : Z := 0.
Definition DT_FIFO : Z := 1.
Definition DT_CHR : Z := 2.
Definition DT_DIR : Z := 4.
Definition DT_BLK : Z := 6.
Definition DT_REG : Z := 8.
Definition DT_LNK : Z := 10.
Definition DT_SOCK : Z := 12.

(** ** Named integer types and their constants ([proto/types.go]) *)

Definition Version : Type := string.
Definition Fid : Type := Z.
Definition Tag : Type := Z.
Definition QIDType : Type := Z.
Definition FileMode : Type := Z.
Definition AttrMask : Type := Z.
Definition SetAttrMask : Type := Z.
Definition LockType : Type := Z.
Definition LockFlags : Type := Z.
Definition LockStatus : Type := Z.
Definition MessageType : Type := Z.

Definition VersionL : Version := "9P2000.L".
Definition VersionU : Version := "9P2000.u".

Definition QTDIR : Z := 0x80.
Definition QTAPPEND : Z := 0x40.
Definition QTEXCL : Z := 0x20.
Definition QTMOUNT : Z := 0x10.
Definition QTAUTH : Z := 0x08.
Definition QTTMP : Z := 0x04.
Definition QTSYMLINK : Z := 0x02.
Definition QTFILE : Z := 0x00.
Definition DMDIR : Z := 0x80000000.
Definition DMAPPEND : Z := 0x40000000.
Definition DMEXCL : Z := 0x20000000.
Definition DMTMP : Z := 0x04000000.
Definition AttrMode : Z := 0x00000001.
Definition AttrNLink : Z := 0x00000002.
Definition AttrUID : Z := 0x00000004.
Definition AttrGID : Z := 0x00000008.
Definition AttrRDev : Z := 0x00000010.
Definition AttrATime : Z := 0x00000020.
Definition AttrMTime : Z := 0x00000040.
Definition AttrCTime : Z := 0x00000080.
Definition AttrINo : Z := 0x00000100.
Definition AttrSize : Z := 0x00000200.
Definition AttrBlocks : Z := 0x00000400.
Definition AttrBTime : Z := 0x00000800.
Definition AttrGen : Z := 0x00001000.
Definition AttrDataVersion : Z := 0x00002000.
Definition AttrBasic : Z := 0x000007ff.
Definition AttrAll : Z := 0x00003fff.
Definition SetAttrMode : Z := 0x00000001.
Definition SetAttrUID : Z := 0x00000002.
Definition SetAttrGID : Z := 0x00000004.
Definition SetAttrSize : Z := 0x00000008.
Definition SetAttrATime : Z := 0x00000010.
Definition SetAttrMTime : Z := 0x00000020.
Definition SetAttrCTime : Z := 0x00000040.
Definition LockTypeRdLck : Z := 0.
Definition LockTypeWrLck : Z := 1.
Definition LockTypeUnlck : Z := 2.
Definition LockFlagBlock : Z := 1.
Definition LockFlagReclaim : Z := 2.
Definition LockStatusOK : Z := 0.
Definition LockStatusBlocked : Z := 1.
Definition LockStatusError : Z := 2.
Definition LockStatusGrace : Z := 3.

(** ** Message type codes ([proto/message.go]) *)

Definition TypeTlerror : Z := 6.
Definition TypeRlerror : Z := 7.
Definition TypeTstatfs : Z := 8.
Definition TypeRstatfs : Z := 9.
Definition TypeTlopen : Z := 12.
Definition TypeRlopen : Z := 13.
Definition TypeTlcreate : Z := 14.
Definition TypeRlcreate : Z := 15.
Definition TypeTsymlink : Z := 16.
Definition TypeRsymlink : Z := 17.
Definition TypeTmknod : Z := 18.
Definition TypeRmknod : Z := 19.
Definition TypeTrename : Z := 20.
Definition TypeRrename : Z := 21.
Definition TypeTreadlink : Z := 22.
Definition TypeRreadlink : Z := 23.
Definition TypeTgetattr : Z := 24.
Definition TypeRgetattr : Z := 25.
Definition TypeTsetattr : Z := 26.
Definition TypeRsetattr : Z := 27.
Definition TypeTxattrwalk : Z := 30.
Definition TypeRxattrwalk : Z := 31.
Definition TypeTxattrcreate : Z := 32.
Definition TypeRxattrcreate : Z := 33.
Definition TypeTreaddir : Z := 40.
Definition TypeRreaddir : Z := 41.
Definition TypeTfsync : Z := 50.
Definition TypeRfsync : Z := 51.
Definition TypeTlock : Z := 52.
Definition TypeRlock : Z := 53.
Definition TypeTgetlock : Z := 54.
Definition TypeRgetlock : Z := 55.
Definition TypeTlink : Z := 70.
Definition TypeRlink : Z := 71.
Definition TypeTmkdir : Z := 72.
Definition TypeRmkdir : Z := 73.
Definition TypeTrenameat : Z := 74.
Definition TypeRrenameat : Z := 75.
Definition TypeTunlinkat : Z := 76.
Definition TypeRunlinkat : Z := 77.
Definition TypeTversion : Z := 100.
Definition TypeRversion : Z := 101.
Definition TypeTauth : Z := 102.
Definition TypeRauth : Z := 103.
Definition TypeTattach : Z := 104.
Definition TypeRattach : Z := 105.
Definition TypeTerror : Z := 106.
Definition TypeRerror : Z := 107.
Definition TypeTflush : Z := 108.
Definition TypeRflush : Z := 109.
Definition TypeTwalk : Z := 110.
Definition TypeRwalk : Z := 111.
Definition TypeTopen : Z := 112.
Definition TypeRopen : Z := 113.
Definition TypeTcreate : Z := 114.
Definition TypeRcreate : Z := 115.
Definition TypeTread : Z := 116.
Definition TypeRread : Z := 117.
Definition TypeTwrite : Z := 118.
Definition TypeRwrite : Z := 119.
Definition TypeTclunk : Z := 120.
Definition TypeRclunk : Z := 121.
Definition TypeTremove : Z := 122.
Definition TypeRremove : Z := 123.
Definition TypeTstat : Z := 124.
Definition TypeRstat : Z := 125.
Definition TypeTwstat : Z := 126.
Definition TypeRwstat : Z := 127.

(** [messageTypeNames] and [MessageType.String]. *)
Definition messageTypeNames : list (Z * string) := [
  (TypeTlerror, "Tlerror");
  (TypeRlerror, "Rlerror");
  (TypeTstatfs, "Tstatfs");
  (TypeRstatfs, "Rstatfs");
  (TypeTlopen, "Tlopen");
  (TypeRlopen, "Rlopen");
  (TypeTlcreate, "Tlcreate");
  (TypeRlcreate, "Rlcreate");
  (TypeTsymlink, "Tsymlink");
  (TypeRsymlink, "Rsymlink");
  (TypeTmknod, "Tmknod");
  (TypeRmknod, "Rmknod");
  (TypeTrename, "Trename");
  (TypeRrename, "Rrename");
  (TypeTreadlink, "Treadlink");
  (TypeRreadlink, "Rreadlink");
  (TypeTgetattr, "Tgetattr");
  (TypeRgetattr, "Rgetattr");
  (TypeTsetattr, "Tsetattr");
  (TypeRsetattr, "Rsetattr");
  (TypeTxattrwalk, "Txattrwalk");
  (TypeRxattrwalk, "Rxattrwalk");
  (TypeTxattrcreate, "Txattrcreate");
  (TypeRxattrcreate, "Rxattrcreate");
  (TypeTreaddir, "Treaddir");
  (TypeRreaddir, "Rreaddir");
  (TypeTfsync, "Tfsync");
  (TypeRfsync, "Rfsync");
  (TypeTlock, "Tlock");
  (TypeRlock, "Rlock");
  (TypeTgetlock, "Tgetlock");
  (TypeRgetlock, "Rgetlock");
  (TypeTlink, "Tlink");
  (TypeRlink, "Rlink");
  (TypeTmkdir, "Tmkdir");
  (TypeRmkdir, "Rmkdir");
  (TypeTrenameat, "Trenameat");
  (TypeRrenameat, "Rrenameat");
  (TypeTunlinkat, "Tunlinkat");
  (TypeRunlinkat, "Runlinkat");
  (TypeTversion, "Tversion");
  (TypeRversion, "Rversion");
  (TypeTauth, "Tauth");
  (TypeRauth, "Rauth");
  (TypeTattach, "Tattach");
  (TypeRattach, "Rattach");
  (TypeTerror, "Terror");
  (TypeRerror, "Rerror");
  (TypeTflush, "Tflush");
  (TypeRflush, "Rflush");
  (TypeTwalk, "Twalk");
  (TypeRwalk, "Rwalk");
  (TypeTopen, "Topen");
  (TypeRopen, "Ropen");
  (TypeTcreate, "Tcreate");
  (TypeRcreate, "Rcreate");
  (TypeTread, "Tread");
  (TypeRread, "Rread");
  (TypeTwrite, "Twrite");
  (TypeRwrite, "Rwrite");
  (TypeTclunk, "Tclunk");
  (TypeRclunk, "Rclunk");
  (TypeTremove, "Tremove");
  (TypeRremove, "Rremove");
  (TypeTstat, "Tstat");
  (TypeRstat, "Rstat");
  (TypeTwstat, "Twstat");
  (TypeRwstat, "Rwstat")
].

Definition MessageType_String (t : MessageType) : string :=
  match assoc t messageTypeNames with
  | Some name => name
  | None => "MessageType(" +:+ pretty t +:+ ")"
  end.

(** ** Wire structures ([proto/types.go]) *)

Module QID.
Record t : Type := mk { Type_ : QIDType; Version : Z; Path : Z }.
Definition zero : t := mk 0 0 0.
Definition wf (q : t) : Prop := u8 (Type_ q) /\ u32 (Version q) /\ u64 (Path q).
End QID.

Module Attr.
Record t : Type := mk {
  Valid : AttrMask;
  QID : QID.t;
  Mode : Z;
  UID : Z;
  GID : Z;
  NLink : Z;
  RDev : Z;
  Size : Z;
  BlkSize : Z;
  Blocks : Z;
  ATimeSec : Z;
  ATimeNSec : Z;
  MTimeSec : Z;
  MTimeNSec : Z;
  CTimeSec : Z;
  CTimeNSec : Z;
  BTimeSec : Z;
  BTimeNSec : Z;
  Gen : Z;
  DataVersion : Z
}.
Definition zero : t := mk 0 QID.zero 0 0 0 0 0 0 0 0 0 0 0 0 0 0 0 0 0 0.
Definition wf (a : t) : Prop :=
  u64 (Valid a) /\
  QID.wf (QID a) /\
  u32 (Mode a) /\
  u32 (UID a) /\
  u32 (GID a) /\
  u64 (NLink a) /\
  u64 (RDev a) /\
  u64 (Size a) /\
  u64 (BlkSize a) /\
  u64 (Blocks a) /\
  u64 (ATimeSec a) /\
  u64 (ATimeNSec a) /\
  u64 (MTimeSec a) /\
  u64 (MTimeNSec a) /\
  u64 (CTimeSec a) /\
  u64 (CTimeNSec a) /\
  u64 (BTimeSec a) /\
  u64 (BTimeNSec a) /\
  u64 (Gen a) /\
  u64 (DataVersion a).
End Attr.

Module SetAttr.
Record t : Type := mk {
  Valid : SetAttrMask;
  Mode : Z;
  UID : Z;
  GID : Z;
  Size : Z;
  ATimeSec : Z;
  ATimeNSec : Z;
  MTimeSec : Z;
  MTimeNSec : Z
}.
Definition zero : t := mk 0 0 0 0 0 0 0 0 0.
Definition wf (a : t) : Prop :=
  u32 (Valid a) /\
  u32 (Mode a) /\
  u32 (UID a) /\
  u32 (GID a) /\
  u64 (Size a) /\
  u64 (ATimeSec a) /\
  u64 (ATimeNSec a) /\
  u64 (MTimeSec a) /\
  u64 (MTimeNSec a).
End SetAttr.

Module Dirent.
Record t : Type := mk {
  QID : QID.t;
  Offset : Z;
  Type_ : Z;
  Name : string
}.
Definition zero : t := mk QID.zero 0 0 "".
Definition wf (a : t) : Prop :=
  QID.wf (QID a) /\
  u64 (Offset a) /\
  u8 (Type_ a) /\
  strlen (Name a) <= MaxStringLen.
End Dirent.

Module FSStat.
Record t : Type := mk {
  Type_ : Z;
  BSize : Z;
  Blocks : Z;
  BFree : Z;
  BAvail : Z;
  Files : Z;
  FFree : Z;
  FSID : Z;
  NameLen : Z
}.
Definition zero : t := mk 0 0 0 0 0 0 0 0 0.
Definition wf (a : t) : Prop :=
  u32 (Type_ a) /\
  u32 (BSize a) /\
  u64 (Blocks a) /\
  u64 (BFree a) /\
  u64 (BAvail a) /\
  u64 (Files a) /\
  u64 (FFree a) /\
  u64 (FSID a) /\
  u32 (NameLen a).
End FSStat.

#[export] Instance QID_eq_dec : EqDecision QID.t.
Proof. solve_decision. Defined.
#[export] Instance Dirent_eq_dec : EqDecision Dirent.t.
Proof. solve_decision. Defined.

(** [QIDTypeToDT]: the directory-entry type of a QID type. *)
Definition QIDTypeToDT (t : QIDType) : Z :=
  if negb (Z.land t QTDIR =? 0) then DT_DIR
  else if negb (Z.land t QTSYMLINK =? 0) then DT_LNK
  else DT_REG.
