(* ===== verification/Errno.v ===== *)
(** * Wire error numbers

    [proto/errno.go] and the Linux build's [proto/errno_linux.go]: the Linux
    errno values of the protocol, their descriptions, and the translation of
    host errors at the dispatch boundary ([server/dispatch.go],
    [errnoFromError]). *)

From stdpp Require Import pretty.
From S2P Require Import Prelude Types.

Definition Errno : Type := Z.

Definition EPERM : Z := 1.
Definition ENOENT : Z := 2.
Definition ESRCH : Z := 3.
Definition EINTR : Z := 4.
Definition EIO : Z := 5.
Definition ENXIO : Z := 6.
Definition E2BIG : Z := 7.
Definition ENOEXEC : Z := 8.
Definition EBADF : Z := 9.
Definition ECHILD : Z := 10.
Definition EAGAIN : Z := 11.
Definition ENOMEM : Z := 12.
Definition EACCES : Z := 13.
Definition EFAULT : Z := 14.
Definition ENOTBLK : Z := 15.
Definition EBUSY : Z := 16.
Definition EEXIST : Z := 17.
Definition EXDEV : Z := 18.
Definition ENODEV : Z := 19.
Definition ENOTDIR : Z := 20.
Definition EISDIR : Z := 21.
Definition EINVAL : Z := 22.
Definition ENFILE : Z := 23.
Definition EMFILE : Z := 24.
Definition ENOTTY : Z := 25.
Definition ETXTBSY : Z := 26.
Definition EFBIG : Z := 27.
Definition ENOSPC : Z := 28.
Definition ESPIPE : Z := 29.
Definition EROFS : Z := 30.
Definition EMLINK : Z := 31.
Definition EPIPE : Z := 32.
Definition EDOM : Z := 33.
Definition ERANGE : Z := 34.
Definition EDEADLK : Z := 35.
Definition ENAMETOOLONG : Z := 36.
Definition ENOLCK : Z := 37.
Definition ENOSYS : Z := 38.
Definition ENOTEMPTY : Z := 39.
Definition ELOOP : Z := 40.
Definition ENOMSG : Z := 42.
Definition EIDRM : Z := 43.
Definition ECHRNG : Z := 44.
Definition EL2NSYNC : Z := 45.
Definition EL3HLT : Z := 46.
Definition EL3RST : Z := 47.
Definition ELNRNG : Z := 48.
Definition EUNATCH : Z := 49.
Definition ENOCSI : Z := 50.
Definition EL2HLT : Z := 51.
Definition EBADE : Z := 52.
Definition EBADR : Z := 53.
Definition EXFULL : Z := 54.
Definition ENOANO : Z := 55.
Definition EBADRQC : Z := 56.
Definition EBADSLT : Z := 57.
Definition EBFONT : Z := 59.
Definition ENOSTR : Z := 60.
Definition ENODATA : Z := 61.
Definition ETIME : Z := 62.
Definition ENOSR : Z := 63.
Definition ENONET : Z := 64.
Definition ENOPKG : Z := 65.
Definition EREMOTE : Z := 66.
Definition ENOLINK : Z := 67.
Definition EADV : Z := 68.
Definition ESRMNT : Z := 69.
Definition ECOMM : Z := 70.
Definition EPROTO : Z := 71.
Definition EMULTIHOP : Z := 72.
Definition EDOTDOT : Z := 73.
Definition EBADMSG : Z := 74.
Definition EOVERFLOW : Z := 75.
Definition ENOTUNIQ : Z := 76.
Definition EBADFD : Z := 77.
Definition EREMCHG : Z := 78.
Definition ELIBACC : Z := 79.
Definition ELIBBAD : Z := 80.
Definition ELIBSCN : Z := 81.
Definition ELIBMAX : Z := 82.
Definition ELIBEXEC : Z := 83.
Definition EILSEQ : Z := 84.
Definition ERESTART : Z := 85.
Definition ESTRPIPE : Z := 86.
Definition EUSERS : Z := 87.
Definition ENOTSOCK : Z := 88.
Definition EDESTADDRREQ : Z := 89.
Definition EMSGSIZE : Z := 90.
Definition EPROTOTYPE : Z := 91.
Definition ENOPROTOOPT : Z := 92.
Definition EPROTONOSUPPORT : Z := 93.
Definition ESOCKTNOSUPPORT : Z := 94.
Definition ENOTSUP : Z := 95.
Definition EOPNOTSUPP : Z := 95.
Definition EPFNOSUPPORT : Z := 96.
Definition EAFNOSUPPORT : Z := 97.
Definition EADDRINUSE : Z := 98.
Definition EADDRNOTAVAIL : Z := 99.
Definition ENETDOWN : Z := 100.
Definition ENETUNREACH : Z := 101.
Definition ENETRESET : Z := 102.
Definition ECONNABORTED : Z := 103.
Definition ECONNRESET : Z := 104.
Definition ENOBUFS : Z := 105.
Definition EISCONN : Z := 106.
Definition ENOTCONN : Z := 107.
Definition ESHUTDOWN : Z := 108.
Definition ETOOMANYREFS : Z := 109.
Definition ETIMEDOUT : Z := 110.
Definition ECONNREFUSED : Z := 111.
Definition EHOSTDOWN : Z := 112.
Definition EHOSTUNREACH : Z := 113.
Definition EALREADY : Z := 114.
Definition EINPROGRESS : Z := 115.
Definition ESTALE : Z := 116.
Definition EUCLEAN : Z := 117.
Definition ENOTNAM : Z := 118.
Definition ENAVAIL : Z := 119.
Definition EISNAM : Z := 120.
Definition EREMOTEIO : Z := 121.
Definition EDQUOT : Z := 122.
Definition ENOMEDIUM : Z := 123.
Definition EMEDIUMTYPE : Z := 124.
Definition ECANCELED : Z := 125.
Definition ENOKEY : Z := 126.
Definition EKEYEXPIRED : Z := 127.
Definition EKEYREVOKED : Z := 128.
Definition EKEYREJECTED : Z := 129.
Definition EOWNERDEAD : Z := 130.
Definition ENOTRECOVERABLE : Z := 131.
Definition ERFKILL : Z := 132.
Definition EHWPOISON : Z := 133.
Definition ENOTSUPP : Z := 524.

Definition errnoNames : list (Z * string) := [
  (EPERM, "operation not permitted");
  (ENOENT, "no such file or directory");
  (ESRCH, "no such process");
  (EINTR, "interrupted system call");
  (EIO, "input/output error");
  (ENXIO, "no such device or address");
  (E2BIG, "argument list too long");
  (ENOEXEC, "exec format error");
  (EBADF, "bad file descriptor");
  (ECHILD, "no child processes");
  (EAGAIN, "resource temporarily unavailable");
  (ENOMEM, "cannot allocate memory");
  (EACCES, "permission denied");
  (EFAULT, "bad address");
  (ENOTBLK, "block device required");
  (EBUSY, "device or resource busy");
  (EEXIST, "file exists");
  (EXDEV, "invalid cross-device link");
  (ENODEV, "no such device");
  (ENOTDIR, "not a directory");
  (EISDIR, "is a directory");
  (EINVAL, "invalid argument");
  (ENFILE, "too many open files in system");
  (EMFILE, "too many open files");
  (ENOTTY, "inappropriate ioctl for device");
  (ETXTBSY, "text file busy");
  (EFBIG, "file too large");
  (ENOSPC, "no space left on device");
  (ESPIPE, "illegal seek");
  (EROFS, "read-only file system");
  (EMLINK, "too many links");
  (EPIPE, "broken pipe");
  (EDOM, "numerical argument out of domain");
  (ERANGE, "numerical result out of range");
  (EDEADLK, "resource deadlock avoided");
  (ENAMETOOLONG, "file name too long");
  (ENOLCK, "no locks available");
  (ENOSYS, "function not implemented");
  (ENOTEMPTY, "directory not empty");
  (ELOOP, "too many levels of symbolic links");
  (ENOMSG, "no message of desired type");
  (EIDRM, "identifier removed");
  (ECHRNG, "channel number out of range");
  (EL2NSYNC, "level 2 not synchronized");
  (EL3HLT, "level 3 halted");
  (EL3RST, "level 3 reset");
  (ELNRNG, "link number out of range");
  (EUNATCH, "protocol driver not attached");
  (ENOCSI, "no CSI structure available");
  (EL2HLT, "level 2 halted");
  (EBADE, "invalid exchange");
  (EBADR, "invalid request descriptor");
  (EXFULL, "exchange full");
  (ENOANO, "no anode");
  (EBADRQC, "invalid request code");
  (EBADSLT, "invalid slot");
  (EBFONT, "bad font file format");
  (ENOSTR, "device not a stream");
  (ENODATA, "no data available");
  (ETIME, "timer expired");
  (ENOSR, "out of streams resources");
  (ENONET, "machine is not on the network");
  (ENOPKG, "package not installed");
  (EREMOTE, "object is remote");
  (ENOLINK, "link has been severed");
  (EADV, "advertise error");
  (ESRMNT, "srmount error");
  (ECOMM, "communication error on send");
  (EPROTO, "protocol error");
  (EMULTIHOP, "multihop attempted");
  (EDOTDOT, "RFS specific error");
  (EBADMSG, "bad message");
  (EOVERFLOW, "value too large for defined data type");
  (ENOTUNIQ, "name not unique on network");
  (EBADFD, "file descriptor in bad state");
  (EREMCHG, "remote address changed");
  (ELIBACC, "can not access a needed shared library");
  (ELIBBAD, "accessing a corrupted shared library");
  (ELIBSCN, ".lib section in a.out corrupted");
  (ELIBMAX, "attempting to link in too many shared libraries");
  (ELIBEXEC, "cannot exec a shared library directly");
  (EILSEQ, "invalid or incomplete multibyte or wide character");
  (ERESTART, "interrupted system call should be restarted");
  (ESTRPIPE, "streams pipe error");
  (EUSERS, "too many users");
  (ENOTSOCK, "socket operation on non-socket");
  (EDESTADDRREQ, "destination address required");
  (EMSGSIZE, "message too long");
  (EPROTOTYPE, "protocol wrong type for socket");
  (ENOPROTOOPT, "protocol not available");
  (EPROTONOSUPPORT, "protocol not supported");
  (ESOCKTNOSUPPORT, "socket type not supported");
  (ENOTSUP, "operation not supported");
  (EPFNOSUPPORT, "protocol family not supported");
  (EAFNOSUPPORT, "address family not supported by protocol");
  (EADDRINUSE, "address already in use");
  (EADDRNOTAVAIL, "cannot assign requested address");
  (ENETDOWN, "network is down");
  (ENETUNREACH, "network is unreachable");
  (ENETRESET, "network dropped connection on reset");
  (ECONNABORTED, "software caused connection abort");
  (ECONNRESET, "connection reset by peer");
  (ENOBUFS, "no buffer space available");
  (EISCONN, "transport endpoint is already connected");
  (ENOTCONN, "transport endpoint is not connected");
  (ESHUTDOWN, "cannot send after transport endpoint shutdown");
  (ETOOMANYREFS, "too many references: cannot splice");
  (ETIMEDOUT, "connection timed out");
  (ECONNREFUSED, "connection refused");
  (EHOSTDOWN, "host is down");
  (EHOSTUNREACH, "no route to host");
  (EALREADY, "operation already in progress");
  (EINPROGRESS, "operation now in progress");
  (ESTALE, "stale file handle");
  (EUCLEAN, "structure needs cleaning");
  (ENOTNAM, "not a XENIX named type file");
  (ENAVAIL, "no XENIX semaphores available");
  (EISNAM, "is a named type file");
  (EREMOTEIO, "remote I/O error");
  (EDQUOT, "disk quota exceeded");
  (ENOMEDIUM, "no medium found");
  (EMEDIUMTYPE, "wrong medium type");
  (ECANCELED, "operation canceled");
  (ENOKEY, "required key not available");
  (EKEYEXPIRED, "key has expired");
  (EKEYREVOKED, "key has been revoked");
  (EKEYREJECTED, "key was rejected by service");
  (EOWNERDEAD, "owner died");
  (ENOTRECOVERABLE, "state not recoverable");
  (ERFKILL, "operation not possible due to RF-kill");
  (EHWPOISON, "memory page has hardware error");
  (ENOTSUPP, "operation not supported (kernel)")
].

(** [Errno.Error]. *)
Definition Errno_Error (e : Errno) : string :=
  match assoc e errnoNames with
  | Some name => name
  | None => "errno " +:+ pretty e
  end.

(** [ErrnoFromUnix] of the Linux build: host and wire numbers coincide
    ([unix.Errno] is a [uintptr], [Errno] a [uint32]). *)
Definition ErrnoFromUnix (e : Z) : Errno := uint_wrap 32 e.

(** [errnoFromError]: the errno of the first [proto.Errno] in the wrap chain,
    else of the first host errno in it, else [EIO]. *)
Fixpoint asErrno (e : GoError) : option Errno :=
  match e with
  | ErrnoError n => Some n
  | Wrapf _ _ e' => asErrno e'
  | _ => None
  end.
Fixpoint asSyscallErrno (e : GoError) : option Z :=
  match e with
  | SyscallErrno n => Some n
  | Wrapf _ _ e' => asSyscallErrno e'
  | _ => None
  end.
Definition errnoFromError (err : GoError) : Errno :=
  match asErrno err with
  | Some errno => errno
  | None =>
      match asSyscallErrno err with
      | Some errno => ErrnoFromUnix errno
      | None => EIO
      end
  end.
