(* ===== verification/Proto.v ===== *)
(** * Field codecs

    [proto/encode.go] and [proto/decode.go]: the helpers every message codec
    is built from, with their type-switched fast paths.  The theorems show
    that the fast paths and the generic paths agree, what each writer emits,
    and that each reader accepts exactly what the matching writer emits. *)

From S2P Require Import Prelude GoIO Types.

(** ** Writers ([proto/encode.go]) *)

(** [WriteUint16], [WriteUint32] and [WriteUint64] differ only in the
    width [n]: a [bytes.Buffer] is appended to, a [ByteCounter] is bumped by
    the width, any other writer is handed the encoded bytes. *)
Definition writeUint (n : nat) (v : Z) : M Writer unit := fun w =>
  match w with
  | Buffer buf => (Ok tt, Buffer (buf ++ le_bytes n v))
  | ByteCounter c => (Ok tt, ByteCounter (c + Z.of_nat n))
  | Conn _ _ => Write (le_bytes n v) w
  end.

Definition WriteUint8 (v : Z) : M Writer unit := fun w =>
  match w with
  | Buffer buf => (Ok tt, Buffer (buf ++ [byte_of_Z v]))
  | ByteCounter c => (Ok tt, ByteCounter (c + 1))
  | Conn _ _ => Write [byte_of_Z v] w
  end.
Definition WriteUint16 (v : Z) : M Writer unit := writeUint 2 v.
Definition WriteUint32 (v : Z) : M Writer unit := writeUint 4 v.
Definition WriteUint64 (v : Z) : M Writer unit := writeUint 8 v.
Definition WriteFid (f : Fid) : M Writer unit := WriteUint32 f.

Definition WriteString (s : string) : M Writer unit :=
  if MaxStringLen <? strlen s
  then throw (Errorf "string length %d exceeds max %d" [strlen s; MaxStringLen])
  else fun w =>
    match w with
    | Buffer buf =>
        (Ok tt, Buffer (buf ++ le_bytes 2 (uint_wrap 16 (strlen s)) ++ bytes_of_string s))
    | ByteCounter c => (Ok tt, ByteCounter (c + (2 + strlen s)))
    | Conn _ _ =>
        (wrapf "write string length: %w" (WriteUint16 (uint_wrap 16 (strlen s)));;
         if 0 <? strlen s
         then wrapf "write string data: %w" (Write (bytes_of_string s))
         else mret tt) w
    end.

Definition WriteQID (q : QID.t) : M Writer unit := fun w =>
  match w with
  | Buffer buf =>
      (Ok tt, Buffer (buf ++ [byte_of_Z (QID.Type_ q)] ++
                      le_bytes 4 (QID.Version q) ++ le_bytes 8 (QID.Path q)))
  | _ =>
      (wrapf "write qid type: %w" (WriteUint8 (QID.Type_ q));;
       wrapf "write qid version: %w" (WriteUint32 (QID.Version q));;
       wrapf "write qid path: %w" (WriteUint64 (QID.Path q))) w
  end.

(** ** Readers ([proto/decode.go]) *)

(** The [bytes.Reader] fast path of [ReadUint16], [ReadUint32] and
    [ReadUint64], and their [io.ReadFull] path. *)
Definition readUintGeneric (n : nat) : M Reader Z :=
  buf ← ReadFull n; mret (le_val buf).

Definition readUint (n : nat) : M Reader Z := fun r =>
  match r with
  | BytesReader s =>
      if Len s =? 0 then (Err EOF, r)
      else
        let '(buf, _, r') := Read r n in
        if (length buf <? n)%nat then (Err ErrUnexpectedEOF, r')
        else (Ok (le_val buf), r')
  | _ => readUintGeneric n r
  end.

Definition ReadUint8 : M Reader Z := fun r =>
  match r with
  | BytesReader [] => (Err EOF, r)
  | BytesReader (b :: s) => (Ok (Z_of_byte b), BytesReader s)
  | _ => readUintGeneric 1 r
  end.
Definition ReadUint16 : M Reader Z := readUint 2.
Definition ReadUint32 : M Reader Z := readUint 4.
Definition ReadUint64 : M Reader Z := readUint 8.
Definition ReadFid : M Reader Fid := ReadUint32.

Definition ReadString : M Reader string :=
  length ← wrapf "read string length: %w" ReadUint16;
  if length =? 0 then mret "" else
  scratch ← wrapf "read string data: %w" (ReadFull (Z.to_nat length));
  mret (string_of_bytes scratch).

Definition ReadData (count : Z) : M Reader bytes := fun r =>
  if count =? 0 then (Ok [], r)
  else
    match r with
    | BytesReader s =>
        if Len s <? count
        then (Err (Wrapf "read data: count %d exceeds remaining %d bytes: %w"
                     [count; Len s] ErrUnexpectedEOF), r)
        else wrapf "read data: %w" (ReadFull (Z.to_nat count)) r
    | _ => wrapf "read data: %w" (ReadFull (Z.to_nat count)) r
    end.

Definition ReadQID : M Reader QID.t :=
  t ← wrapf "read qid type: %w" ReadUint8;
  version ← wrapf "read qid version: %w" ReadUint32;
  path ← wrapf "read qid path: %w" ReadUint64;
  mret (QID.mk t version path).

(** ** The wire format of a field

    The layout the protocol documents: integers little-endian, strings and
    data prefixed by their length, QIDs as type, version and path. *)

Definition wire_string (s : string) : bytes := le_bytes 2 (strlen s) ++ bytes_of_string s.
Definition wire_qid (q : QID.t) : bytes :=
  le_bytes 1 (QID.Type_ q) ++ le_bytes 4 (QID.Version q) ++ le_bytes 8 (QID.Path q).
Definition wire_data (d : bytes) : bytes := le_bytes 4 (Z.of_nat (length d)) ++ d.

Definition str_ok (s : string) : Prop := strlen s <= MaxStringLen.
Definition data_ok (d : bytes) : Prop := Z.of_nat (length d) <= MaxDataSize.

Lemma length_wire_qid q : Z.of_nat (length (wire_qid q)) = QIDSize.
Proof. done. Qed.

Lemma length_wire_string s : Z.of_nat (length (wire_string s)) = 2 + strlen s.
Proof.
  unfold wire_string, strlen. rewrite length_app, length_le_bytes, length_bytes_of_string. lia.
Qed.

(** ** What the writers emit *)

Lemma writeUint_Write n v w : writeUint n v w = Write (le_bytes n v) w.
Proof. destruct w as [b|c|out room]; cbn; try done. by rewrite length_le_bytes. Qed.

Lemma writeUint_emits n v : emits (writeUint n v) (le_bytes n v).
Proof. intros w. rewrite writeUint_Write. apply Write_emits. Qed.

Lemma WriteUint8_emits v : emits (WriteUint8 v) (le_bytes 1 v).
Proof.
  intros w. replace (WriteUint8 v w) with (Write (le_bytes 1 v) w); [apply Write_emits|].
  by destruct w.
Qed.

Lemma WriteUint16_emits v : emits (WriteUint16 v) (le_bytes 2 v).
Proof. apply writeUint_emits. Qed.
Lemma WriteUint32_emits v : emits (WriteUint32 v) (le_bytes 4 v).
Proof. apply writeUint_emits. Qed.
Lemma WriteUint64_emits v : emits (WriteUint64 v) (le_bytes 8 v).
Proof. apply writeUint_emits. Qed.
Lemma WriteFid_emits v : emits (WriteFid v) (le_bytes 4 v).
Proof. apply writeUint_emits. Qed.

#[export] Hint Resolve WriteUint8_emits WriteUint16_emits WriteUint32_emits
  WriteUint64_emits WriteFid_emits : wire.

(** An encoder given by its generic path on connections, whose shortcuts on
    buffers and counters do what that path does. *)
Lemma emits_fastpath (e fast : M Writer unit) bs :
  emits e bs ->
  (forall b, fast (Buffer b) = (Ok tt, Buffer (b ++ bs))) ->
  (forall c, fast (ByteCounter c) = (Ok tt, ByteCounter (c + Z.of_nat (length bs)))) ->
  (forall out room, fast (Conn out room) = e (Conn out room)) ->
  emits fast bs.
Proof. intros He Hb Hc Hn [b|c|out room]; [apply Hb|apply Hc|]. rewrite Hn. apply He. Qed.

Lemma WriteString_emits s : str_ok s -> emits (WriteString s) (wire_string s).
Proof.
  unfold str_ok, WriteString. intros Hs. rewrite (proj2 (Z.ltb_ge _ _)) by lia.
  eapply (emits_fastpath
    (wrapf "write string length: %w" (WriteUint16 (uint_wrap 16 (strlen s)));;
     if 0 <? strlen s then wrapf "write string data: %w" (Write (bytes_of_string s)) else mret tt)).
  - unfold wire_string. apply bind_emits.
    + rewrite <- (le_bytes_wrap 2 16) by done. apply wrapf_emits, WriteUint16_emits.
    + destruct (Z.ltb_spec 0 (strlen s)); [apply wrapf_emits, Write_emits|].
      destruct s; [apply ret_emits|]. unfold strlen in *. cbn in *. lia.
  - intros b. unfold wire_string. by rewrite (le_bytes_wrap 2 16).
  - intros c. by rewrite length_wire_string.
  - done.
Qed.

Lemma WriteQID_emits q : emits (WriteQID q) (wire_qid q).
Proof.
  eapply (emits_fastpath
    (wrapf "write qid type: %w" (WriteUint8 (QID.Type_ q));;
     wrapf "write qid version: %w" (WriteUint32 (QID.Version q));;
     wrapf "write qid path: %w" (WriteUint64 (QID.Path q)))).
  - unfold wire_qid, wrapf. auto 6 with wire.
  - done.
  - intros c. rewrite length_wire_qid. unfold WriteQID, mbind, M_bind, wrapf, wrapf_args, QIDSize.
    cbn. do 2 f_equal. lia.
  - done.
Qed.

#[export] Hint Resolve WriteString_emits WriteQID_emits : wire.

(** An encoder that fails on every writer. *)
Definition refuses (e : M Writer unit) : Prop := forall w, exists err w', e w = (Err err, w').

Lemma throw_refuses e : refuses (throw e).
Proof. intros w. by eexists _, _. Qed.

Lemma wrapf_refuses fmt args e : refuses e -> refuses (wrapf_args fmt args e).
Proof. intros H w. destruct (H w) as (err & w' & E). eexists _, _. by apply wrapf_err. Qed.

Lemma bind_refuses_l (e1 e2 : M Writer unit) : refuses e1 -> refuses (e1 ;; e2).
Proof. intros H w. destruct (H w) as (err & w' & E). eexists _, _. by apply mbind_err. Qed.

Lemma bind_refuses_r (e1 e2 : M Writer unit) : refuses e2 -> refuses (e1 ;; e2).
Proof.
  intros H w. destruct (e1 w) as [[a|err] w'] eqn:E.
  - rewrite (mbind_ok _ _ _ _ _ E). apply H.
  - eexists _, _. by apply mbind_err.
Qed.

Lemma WriteString_refuses s : ~ str_ok s -> refuses (WriteString s).
Proof.
  unfold str_ok, WriteString. intros Hs. rewrite (proj2 (Z.ltb_lt _ _)) by lia.
  apply throw_refuses.
Qed.

#[export] Hint Resolve throw_refuses wrapf_refuses WriteString_refuses : wire.

(** ** What the readers accept *)

Lemma takes_bytes n s :
  (n <= length s)%nat -> takes (BytesReader s) (take n s) (BytesReader (drop n s)).
Proof. intros. by apply (advances_takes (BytesReader s)), advances_bytes. Qed.

(** The [bytes.Reader] fast path computes what the generic path computes,
    errors and reader state included. *)
Lemma readUint_fast_generic n s :
  (0 < n)%nat -> readUint n (BytesReader s) = readUintGeneric n (BytesReader s).
Proof.
  intros Hn. unfold readUint, readUintGeneric, Len, mbind, M_bind, ReadFull.
  destruct n as [|n]; [lia|].
  destruct s as [|b s]; [done|]. rewrite (proj2 (Z.eqb_neq _ _)) by (cbn [length]; lia).
  cbn [readLoop Read app]. set (bs := take (S n) (b :: s)).
  assert (0 < length bs <= S n)%nat as Hbs.
  { unfold bs. rewrite length_take. cbn [length]. lia. }
  destruct (Nat.ltb_spec (length bs) (S n)) as [Hlt|Hge].
  - assert (drop (S n) (b :: s) = []) as Hd.
    { apply drop_ge. unfold bs in Hlt. rewrite length_take in Hlt. lia. }
    rewrite Hd. destruct n as [|n]; [lia|].
    destruct (S (S n) - length bs)%nat as [|k] eqn:Ek; [lia|]. cbn [readLoop Read].
    rewrite app_nil_r, (proj2 (Nat.leb_gt _ _)) by lia.
    by rewrite (proj2 (Nat.ltb_lt _ _)) by lia.
  - replace (S n - length bs)%nat with 0%nat by lia.
    replace (readLoop n 0 bs (BytesReader (drop (S n) (b :: s))))
      with (bs, @None GoError, BytesReader (drop (S n) (b :: s))) by (by destruct n).
    by rewrite (proj2 (Nat.leb_le _ _)) by lia.
Qed.

Lemma readUintGeneric_decoder n w :
  w = 8 * Z.of_nat n -> decoder (readUintGeneric n) (is_uint w) (le_bytes n).
Proof.
  intros Hw. split.
  - intros v r rest Hv Hav.
    destruct (ReadFull_ok n r _ _ Hav (length_le_bytes n v)) as (r' & Hr & Ht).
    exists r'. unfold readUintGeneric. rewrite (mbind_ok _ _ _ _ _ Hr).
    split; [|done]. unfold mret, M_ret. by rewrite (le_val_le_bytes_id n w).
  - intros r v r' H. apply mbind_Ok_inv in H as (buf & r1 & Hr & [= <- <-]).
    apply ReadFull_Ok_inv in Hr as [Hl Ht].
    split; [apply le_val_is_uint; lia|]. by rewrite <- Hl, le_bytes_le_val.
Qed.

Lemma readUint_generic n r : (0 < n)%nat -> readUint n r = readUintGeneric n r.
Proof. intros Hn. destruct r; [by apply readUint_fast_generic|done..]. Qed.

Lemma readUint_decoder n w :
  (0 < n)%nat -> w = 8 * Z.of_nat n -> decoder (readUint n) (is_uint w) (le_bytes n).
Proof.
  intros Hn Hw. destruct (readUintGeneric_decoder n w Hw) as [Hc Hs].
  split; intros *; rewrite readUint_generic by done; [apply Hc|apply Hs].
Qed.

Lemma ReadUint8_readUint r : ReadUint8 r = readUint 1 r.
Proof.
  destruct r as [[|b s]| |]; try done. cbn. rewrite take_0, drop_0. cbn -[Z.mul].
  unfold le_val. by rewrite Z.add_0_r.
Qed.

Lemma ReadUint8_decoder : decoder ReadUint8 u8 (le_bytes 1).
Proof.
  destruct (readUint_decoder 1 8) as [Hc Hs]; [lia|done|].
  split; intros *; rewrite ReadUint8_readUint; [apply Hc|apply Hs].
Qed.

Lemma ReadUint16_decoder : decoder ReadUint16 u16 (le_bytes 2).
Proof. apply readUint_decoder; lia. Qed.
Lemma ReadUint32_decoder : decoder ReadUint32 u32 (le_bytes 4).
Proof. apply readUint_decoder; lia. Qed.
Lemma ReadUint64_decoder : decoder ReadUint64 u64 (le_bytes 8).
Proof. apply readUint_decoder; lia. Qed.
Lemma ReadFid_decoder : decoder ReadFid u32 (le_bytes 4).
Proof. apply readUint_decoder; lia. Qed.

Lemma ReadFull_decoder n :
  decoder (ReadFull n) (fun bs => length bs = n) (fun bs => bs).
Proof.
  split.
  - intros bs r rest Hl Hav. by eapply ReadFull_ok.
  - intros r bs r' H. by apply ReadFull_Ok_inv in H.
Qed.

Lemma ReadData_decoder count :
  0 <= count -> decoder (ReadData count) (fun d => Z.of_nat (length d) = count) (fun d => d).
Proof.
  intros H0. destruct (ReadFull_decoder (Z.to_nat count)) as [Hc Hs]. split.
  - intros d r rest Hd Hav. unfold ReadData. destruct (Z.eqb_spec count 0) as [E|E].
    { destruct d; [|simpl in *; lia]. exists r. split; [done|apply takes_nil]. }
    destruct (Hc d r rest ltac:(lia) Hav) as (r' & Hr & Ht). exists r'. split; [|done].
    destruct r as [s| |]; try by apply wrapf_ok.
    rewrite (proj2 (Z.ltb_ge _ _)); [by apply wrapf_ok|].
    cbn in Hav. subst s. unfold Len. rewrite length_app. lia.
  - intros r d r' H. unfold ReadData in H. destruct (Z.eqb_spec count 0) as [E|E].
    { injection H as <- <-. split; [done|apply takes_nil]. }
    assert (wrapf "read data: %w" (ReadFull (Z.to_nat count)) r = (Ok d, r')) as H'
      by (destruct r as [s| |]; try done; by destruct (Len s <? count)).
    apply wrapf_ok, Hs in H' as [Hl Ht]. split; [lia|done].
Qed.

(** *** Composing decoders

    [decode_step Hm] runs the next [mbind] of the goal with the decoder
    [Hm]; [decode_inv H] takes a successful run of a [mbind] chain apart. *)

Lemma wrapf_decoder {A} fmt args (m : M Reader A) wf wire :
  decoder m wf wire -> decoder (wrapf_args fmt args m) wf wire.
Proof.
  intros [Hc Hs]. split.
  - intros v r rest Hv Hav. destruct (Hc v r rest Hv Hav) as (r' & Hr & Ht).
    exists r'. by rewrite wrapf_ok.
  - intros r v r' H. by apply Hs, (wrapf_ok fmt args).
Qed.

Lemma bind_complete {A B} (m : M Reader A) wf wire (k : A -> M Reader B) a b r rest tail :
  decoder m wf wire -> wf a -> avail r = (wire a ++ tail) ++ rest ->
  (forall r1, avail r1 = tail ++ rest -> exists r', k a r1 = (Ok b, r') /\ takes r1 tail r') ->
  exists r', (m ≫= k) r = (Ok b, r') /\ takes r (wire a ++ tail) r'.
Proof.
  intros Hm Ha Hav Hk. rewrite <- app_assoc in Hav.
  destruct (decoder_complete Hm a r _ Ha Hav) as (r1 & H1 & T1).
  destruct (Hk r1 (takes_avail _ _ _ _ T1 Hav)) as (r' & H2 & T2).
  exists r'. rewrite (mbind_ok _ _ _ _ _ H1). split; [done|]. by eapply takes_app.
Qed.

(** The last field of a chain. *)
Lemma bind_complete_last {A B} (m : M Reader A) wf wire (k : A -> M Reader B) a b r rest :
  decoder m wf wire -> wf a -> avail r = wire a ++ rest ->
  (forall r1, k a r1 = (Ok b, r1)) ->
  exists r', (m ≫= k) r = (Ok b, r') /\ takes r (wire a) r'.
Proof.
  intros Hm Ha Hav Hk.
  destruct (decoder_complete Hm a r _ Ha Hav) as (r1 & H1 & T1).
  exists r1. rewrite (mbind_ok _ _ _ _ _ H1). done.
Qed.

#[export] Hint Resolve wrapf_decoder ReadUint8_decoder ReadUint16_decoder ReadUint32_decoder
  ReadUint64_decoder ReadFid_decoder : wire.

Ltac solve_wf := first [assumption | solve [eauto with wire]].

Ltac decode_step :=
  lazymatch goal with
  | |- exists r', (_ ≫= _) _ = _ /\ takes _ (_ ++ _) _ =>
      eapply bind_complete; [solve [eauto with wire]| |eassumption|];
      [solve_wf|intros ? ?]
  | |- exists r', (_ ≫= _) _ = _ /\ takes _ _ _ =>
      eapply bind_complete_last; [solve [eauto with wire]| |eassumption|];
      [solve_wf|intros ?]
  end.

Ltac decode_inv H :=
  lazymatch type of H with
  | (_ ≫= _) _ = (Ok _, _) =>
      let x := fresh "x" in let r := fresh "r" in let E := fresh "E" in
      apply mbind_Ok_inv in H as (x & r & E & H);
      let W := fresh "W" in let T := fresh "T" in
      eapply decoder_sound in E as [W T]; [|solve [eauto with wire]]
  end.

Lemma ReadString_decoder : decoder ReadString str_ok wire_string.
Proof.
  split.
  - intros s r rest Hs Hav. unfold wire_string in *.
    eapply (bind_complete _ u16 (le_bytes 2) _ (strlen s)); [unfold wrapf; eauto with wire| |exact Hav|].
    { unfold str_ok, MaxStringLen, is_uint, strlen in *. lia. }
    intros r1 Hr1. destruct (Z.eqb_spec (strlen s) 0) as [E|E].
    + destruct s; [|by unfold strlen in E]. exists r1. split; [done|apply takes_nil].
    + eapply (bind_complete_last _ _ (fun d => d) _ (bytes_of_string s));
        [apply wrapf_decoder, ReadFull_decoder| |exact Hr1|intros ?].
      * cbn. rewrite length_bytes_of_string. unfold strlen. lia.
      * unfold mret, M_ret. by rewrite string_of_bytes_of_string.
  - intros r s r' H. apply mbind_Ok_inv in H as (n & r1 & E & H).
    apply wrapf_ok, (decoder_sound ReadUint16_decoder) in E as [Hn T].
    assert (exists bs, strlen (string_of_bytes bs) = n /\ s = string_of_bytes bs /\ takes r1 bs r')
      as (bs & Hl & -> & T').
    { destruct (Z.eqb_spec n 0) as [->|Hne].
      - injection H as <- <-. exists []. eauto with wire.
      - apply mbind_Ok_inv in H as (bs & r2 & E & [= <- <-]).
        apply wrapf_ok, ReadFull_Ok_inv in E as [Hl T']. exists bs.
        unfold strlen, is_uint in *. rewrite length_string_of_bytes. split; [lia|done]. }
    split.
    + unfold str_ok, MaxStringLen, is_uint in *. lia.
    + unfold wire_string. rewrite Hl, bytes_of_string_of_bytes. by eapply takes_app.
Qed.

Lemma ReadQID_decoder : decoder ReadQID QID.wf wire_qid.
Proof.
  split.
  - intros [t v p] r rest (Ht & Hv & Hp) Hav. unfold ReadQID, wire_qid, wrapf in *.
    cbn [QID.Type_ QID.Version QID.Path] in *. do 3 decode_step. done.
  - intros r q r' H. unfold ReadQID, wrapf in H. do 3 decode_inv H.
    injection H as <- <-. split; [done|]. eauto with wire.
Qed.

#[export] Hint Resolve ReadString_decoder ReadQID_decoder ReadData_decoder : wire.

(** ** Counted sequences

    The loops of [Twalk] and [Rwalk] over their elements; [fmt] is the
    error context, applied to the element's index. *)

Fixpoint encodeList {A} (fmt : string) (e : A -> M Writer unit) (i : Z) (l : list A) : M Writer unit :=
  match l with
  | [] => mret tt
  | x :: l' => wrapf_args fmt [i] (e x);; encodeList fmt e (i + 1) l'
  end.

Fixpoint decodeList {A} (fmt : string) (m : M Reader A) (i : Z) (n : nat) : M Reader (list A) :=
  match n with
  | O => mret []
  | S n' =>
      x ← wrapf_args fmt [i] m;
      xs ← decodeList fmt m (i + 1) n';
      mret (x :: xs)
  end.

Section Lists.
Context {A : Type} (wire : A -> bytes).

Definition wire_list (l : list A) : bytes := concat (map wire l).

Lemma encodeList_emits fmt (e : A -> M Writer unit) i l :
  Forall (fun x => emits (e x) (wire x)) l -> emits (encodeList fmt e i l) (wire_list l).
Proof.
  intros H. revert i. induction H as [|x l Hx Hl IH]; intros i; cbn; eauto with wire.
Qed.

Lemma encodeList_refuses fmt (e : A -> M Writer unit) i l :
  Exists (fun x => refuses (e x)) l -> refuses (encodeList fmt e i l).
Proof.
  intros H. revert i. induction H as [x l Hx|x l Hl IH]; intros i; cbn.
  - apply bind_refuses_l. eauto with wire.
  - by apply bind_refuses_r.
Qed.

Lemma decodeList_decoder fmt (m : M Reader A) i n wf :
  decoder m wf wire ->
  decoder (decodeList fmt m i n) (fun l => length l = n /\ Forall wf l) wire_list.
Proof.
  intros Hm. revert i. induction n as [|n IH]; intros i; split.
  - intros l r rest [Hl _] Hav. destruct l; [|done]. exists r. eauto with wire.
  - intros r l r' [= <- <-]. eauto with wire.
  - intros [|x l] r rest [Hl Hwf] Hav; [done|]. injection Hl as Hl. apply Forall_cons in Hwf as [Hx Hwf].
    cbn [decodeList]. unfold wire_list in *. cbn [map concat] in *.
    eapply bind_complete; [apply wrapf_decoder, Hm|done|exact Hav|].
    intros r1 Hr1.
    eapply (bind_complete_last _ _ wire_list _ l); [apply IH|done|exact Hr1|done].
  - intros r l r' H. cbn [decodeList] in H.
    apply mbind_Ok_inv in H as (x & r1 & E & H). apply wrapf_ok, (decoder_sound Hm) in E as [Hx T].
    apply mbind_Ok_inv in H as (xs & r2 & E & [= <- <-]).
    apply (decoder_sound (IH _)) in E as [[Hl Hf] T'].
    split; [split; [by f_equal/=|by constructor]|]. by eapply takes_app.
Qed.
End Lists.
