(* ===== verification/Messages.v ===== *)
(** * Base messages

    [proto/messages.go]: the messages shared by the 9P2000.L and 9P2000.u
    dialects, one [Module] per message with its structure, [EncodeTo] and
    [DecodeFrom] (and [EncodeFixed], [Payload], [DecodeFromBuf] where the
    message has them).  For each message [wire] is the body layout the
    protocol documents, [encodable] what the encoder demands of the values
    and [wf] the values the decoder can return; the lemmas show that the
    encoder emits [wire] exactly on [encodable] messages and that the decoder
    accepts exactly the encodings of [wf] messages. *)

From S2P Require Import Prelude GoIO Types Proto.

(** ** Proof automation for message codecs *)

Lemma guard_Ok {S A} (b : bool) e (k : M S A) s v s' :
  (if b then throw e else k) s = (Ok v, s') -> b = false /\ k s = (Ok v, s').
Proof. by destruct b. Qed.

Lemma guard_step {A} (b : bool) e (k : M Reader A) r v bs :
  b = false -> (exists r', k r = (Ok v, r') /\ takes r bs r') ->
  exists r', (if b then throw e else k) r = (Ok v, r') /\ takes r bs r'.
Proof. by intros ->. Qed.

Lemma guard_pass {S A} (b : bool) e (k : M S A) s x :
  b = false -> k s = x -> (if b then throw e else k) s = x.
Proof. by intros ->. Qed.

Ltac solve_wire_dec := unfold str_ok; apply _.

Ltac solve_emits := intros; destruct_and?; unfold wrapf; eauto 40 with wire.

Ltac refuses_step :=
  first [ eassumption | solve [eauto with wire]
        | apply bind_refuses_l; solve [unfold wrapf; eauto with wire]
        | apply bind_refuses_r ].

Ltac solve_refuses :=
  intros H; try tauto;
  repeat apply not_and_l in H as [H|H];
  unfold wrapf; repeat refuses_step.

Ltac solve_guard :=
  first [ assumption | lia | apply Z.ltb_ge; lia
        | apply negb_false_iff, Z.eqb_eq; assumption ].

Ltac guard_inv H :=
  lazymatch type of H with
  | (if _ then throw _ else _) _ = (Ok _, _) =>
      let G := fresh "G" in apply guard_Ok in H as [G H];
      rewrite ?Z.ltb_ge, ?negb_false_iff, ?Z.eqb_eq in G
  end.

Ltac eta_struct m :=
  destruct m;
  repeat match goal with
         | x : FSStat.t |- _ => destruct x
         | x : Attr.t |- _ => destruct x
         | x : SetAttr.t |- _ => destruct x
         end.

Ltac solve_decoder :=
  unfold wrapf; split;
  [ let m := fresh "m" in let Hav := fresh "Hav" in
    intros m ? ? ? Hav; destruct_and?;
    repeat first [ decode_step | apply guard_step; [solve_guard|] | apply guard_pass; [solve_guard|] ];
    first [ by eta_struct m | eexists; split; [by eta_struct m|apply takes_nil] ]
  | let H := fresh "H" in intros ? ? ? H;
    repeat first [ decode_inv H | guard_inv H ];
    injection H as <- <-; split; [ cbn; repeat first [assumption | exact I | split] | eauto 40 with wire ] ].

(** ** Data-carrying messages

    [Rread], [Twrite] and [Rreaddir] share the count-prefixed payload. *)

Lemma data_count_emits fmt d :
  data_ok d ->
  emits (if MaxDataSize <? Z.of_nat (length d)
         then throw (Errorf fmt [Z.of_nat (length d); MaxDataSize])
         else WriteUint32 (uint_wrap 32 (Z.of_nat (length d))))
    (le_bytes 4 (Z.of_nat (length d))).
Proof.
  unfold data_ok. intros H. rewrite (proj2 (Z.ltb_ge _ _)) by lia.
  rewrite <- (le_bytes_wrap 4 32) by done. apply WriteUint32_emits.
Qed.

Lemma data_count_refuses fmt d :
  ~ data_ok d ->
  refuses (if MaxDataSize <? Z.of_nat (length d)
           then throw (Errorf fmt [Z.of_nat (length d); MaxDataSize])
           else WriteUint32 (uint_wrap 32 (Z.of_nat (length d)))).
Proof.
  unfold data_ok. intros H. rewrite (proj2 (Z.ltb_lt _ _)) by lia. apply throw_refuses.
Qed.

Lemma data_tail_emits fmt d :
  emits (if 0 <? Z.of_nat (length d) then wrapf fmt (Write d) else mret tt) d.
Proof.
  destruct (Z.ltb_spec 0 (Z.of_nat (length d))); [unfold wrapf; eauto with wire|].
  destruct d; [apply ret_emits|simpl in *; lia].
Qed.

Section DataDecoder.
Context {A : Type} (mkmsg : bytes -> A) (fmt1 fmt2 fmt3 : string).

Let dataDecoder : M Reader A :=
  count ← wrapf fmt1 ReadUint32;
  if MaxDataSize <? count then throw (Errorf fmt2 [count; MaxDataSize]) else
  Data ← wrapf fmt3 (ReadData count);
  mret (mkmsg Data).

Lemma data_complete d r rest m :
  data_ok d -> avail r = wire_data d ++ rest -> (forall r1 : Reader, (Ok (mkmsg d), r1) = (Ok m, r1)) ->
  exists r', dataDecoder r = (Ok m, r') /\ takes r (wire_data d) r'.
Proof.
  unfold data_ok, wire_data, dataDecoder, wrapf. intros Hd Hav Hm.
  assert (MaxDataSize < 2 ^ 32) by done.
  eapply bind_complete; [eauto with wire| |eassumption|intros ? ?].
  { unfold is_uint. lia. }
  apply guard_step; [apply Z.ltb_ge; lia|].
  eapply (bind_complete_last _ _ (fun d => d) _ d);
    [apply wrapf_decoder, ReadData_decoder; lia|done|eassumption|apply Hm].
Qed.

Lemma data_sound r m r' :
  dataDecoder r = (Ok m, r') ->
  exists d r1, data_ok d /\ takes r (wire_data d) r1 /\ (Ok (mkmsg d), r1) = (Ok m, r').
Proof.
  unfold dataDecoder, wrapf. intros H. decode_inv H. guard_inv H.
  apply mbind_Ok_inv in H as (d & r1 & E & H).
  unfold is_uint in *.
  apply wrapf_ok, (decoder_sound (ReadData_decoder x ltac:(lia))) in E as [Hl T'].
  exists d, r1. unfold data_ok, wire_data. split; [lia|]. split; [|done].
  rewrite Hl. eauto with wire.
Qed.

Lemma data_decoder (Data : A -> bytes) wf wire :
  (forall m, wf m <-> data_ok (Data m)) -> (forall m, wire m = wire_data (Data m)) ->
  (forall m, mkmsg (Data m) = m) -> (forall d, Data (mkmsg d) = d) ->
  decoder dataDecoder wf wire.
Proof.
  intros Hwf Hw Hmk Hd. split.
  - intros m r rest Hm Hav. rewrite Hw in *. apply Hwf in Hm.
    eapply data_complete; [done|eassumption|]. intros ?. by rewrite Hmk.
  - intros r m r' H. apply data_sound in H as (d & r1 & Hok & T & [= <- <-]).
    rewrite Hwf, Hw, Hd. done.
Qed.
End DataDecoder.

Module Tversion.
Record t : Type := mk { Msize : Z; Version : string }.
Definition zero : t := mk 0 "".
Definition Type_ (_ : t) : MessageType := TypeTversion.
Definition EncodeTo (m : t) : M Writer unit :=
  wrapf "encode tversion msize: %w" (WriteUint32 (Msize m));;
  wrapf "encode tversion version: %w" (WriteString (Version m)).
Definition DecodeFrom : M Reader t :=
  Msize ← wrapf "decode tversion msize: %w" ReadUint32;
  Version ← wrapf "decode tversion version: %w" ReadString;
  mret (mk Msize Version).

Definition wire (m : t) : bytes :=
  le_bytes 4 (Msize m) ++ wire_string (Version m).
Definition encodable (m : t) : Prop := str_ok (Version m).
Definition wf (m : t) : Prop :=
  u32 (Msize m) /\ str_ok (Version m).

#[export] Instance Tversion_encodable_dec m : Decision (encodable m).
Proof. unfold encodable. solve_wire_dec. Defined.
Lemma Tversion_emits m : encodable m -> emits (EncodeTo m) (wire m).
Proof. unfold EncodeTo, wire, encodable. solve_emits. Qed.
Lemma Tversion_refuses m : ~ encodable m -> refuses (EncodeTo m).
Proof. unfold EncodeTo, encodable. solve_refuses. Qed.
Lemma Tversion_decoder : decoder DecodeFrom wf wire.
Proof. unfold DecodeFrom, wf, wire. solve_decoder. Qed.
Lemma Tversion_wf_encodable m : wf m -> encodable m.
Proof. unfold wf, encodable. tauto. Qed.
End Tversion.

Module Rversion.
Record t : Type := mk { Msize : Z; Version : string }.
Definition zero : t := mk 0 "".
Definition Type_ (_ : t) : MessageType := TypeRversion.
Definition EncodeTo (m : t) : M Writer unit :=
  wrapf "encode rversion msize: %w" (WriteUint32 (Msize m));;
  wrapf "encode rversion version: %w" (WriteString (Version m)).
Definition DecodeFrom : M Reader t :=
  Msize ← wrapf "decode rversion msize: %w" ReadUint32;
  Version ← wrapf "decode rversion version: %w" ReadString;
  mret (mk Msize Version).

Definition wire (m : t) : bytes :=
  le_bytes 4 (Msize m) ++ wire_string (Version m).
Definition encodable (m : t) : Prop := str_ok (Version m).
Definition wf (m : t) : Prop :=
  u32 (Msize m) /\ str_ok (Version m).

#[export] Instance Rversion_encodable_dec m : Decision (encodable m).
Proof. unfold encodable. solve_wire_dec. Defined.
Lemma Rversion_emits m : encodable m -> emits (EncodeTo m) (wire m).
Proof. unfold EncodeTo, wire, encodable. solve_emits. Qed.
Lemma Rversion_refuses m : ~ encodable m -> refuses (EncodeTo m).
Proof. unfold EncodeTo, encodable. solve_refuses. Qed.
Lemma Rversion_decoder : decoder DecodeFrom wf wire.
Proof. unfold DecodeFrom, wf, wire. solve_decoder. Qed.
Lemma Rversion_wf_encodable m : wf m -> encodable m.
Proof. unfold wf, encodable. tauto. Qed.
End Rversion.

Module Tauth.
Record t : Type := mk { Afid : Types.Fid; Uname : string; Aname : string; NUname : Z }.
Definition zero : t := mk 0 "" "" 0.
Definition Type_ (_ : t) : MessageType := TypeTauth.
Definition EncodeTo (m : t) : M Writer unit :=
  wrapf "encode tauth afid: %w" (WriteFid (Afid m));;
  wrapf "encode tauth uname: %w" (WriteString (Uname m));;
  wrapf "encode tauth aname: %w" (WriteString (Aname m));;
  wrapf "encode tauth n_uname: %w" (WriteUint32 (NUname m)).
Definition DecodeFrom : M Reader t :=
  Afid ← wrapf "decode tauth afid: %w" ReadFid;
  Uname ← wrapf "decode tauth uname: %w" ReadString;
  Aname ← wrapf "decode tauth aname: %w" ReadString;
  NUname ← wrapf "decode tauth n_uname: %w" ReadUint32;
  mret (mk Afid Uname Aname NUname).

Definition wire (m : t) : bytes :=
  le_bytes 4 (Afid m) ++ wire_string (Uname m) ++ wire_string (Aname m) ++ le_bytes 4 (NUname
  m).
Definition encodable (m : t) : Prop := str_ok (Uname m) /\ str_ok (Aname m).
Definition wf (m : t) : Prop :=
  u32 (Afid m) /\ str_ok (Uname m) /\ str_ok (Aname m) /\ u32 (NUname m).

#[export] Instance Tauth_encodable_dec m : Decision (encodable m).
Proof. unfold encodable. solve_wire_dec. Defined.
Lemma Tauth_emits m : encodable m -> emits (EncodeTo m) (wire m).
Proof. unfold EncodeTo, wire, encodable. solve_emits. Qed.
Lemma Tauth_refuses m : ~ encodable m -> refuses (EncodeTo m).
Proof. unfold EncodeTo, encodable. solve_refuses. Qed.
Lemma Tauth_decoder : decoder DecodeFrom wf wire.
Proof. unfold DecodeFrom, wf, wire. solve_decoder. Qed.
Lemma Tauth_wf_encodable m : wf m -> encodable m.
Proof. unfold wf, encodable. tauto. Qed.
End Tauth.

Module Rauth.
Record t : Type := mk { AQid : QID.t }.
Definition zero : t := mk QID.zero.
Definition Type_ (_ : t) : MessageType := TypeRauth.
Definition EncodeTo (m : t) : M Writer unit :=
  wrapf "encode rauth aqid: %w" (WriteQID (AQid m)).
Definition DecodeFrom : M Reader t :=
  AQid ← wrapf "decode rauth aqid: %w" ReadQID;
  mret (mk AQid).

Definition wire (m : t) : bytes :=
  wire_qid (AQid m).
Definition encodable (m : t) : Prop := True.
Definition wf (m : t) : Prop :=
  QID.wf (AQid m).

#[export] Instance Rauth_encodable_dec m : Decision (encodable m).
Proof. unfold encodable. solve_wire_dec. Defined.
Lemma Rauth_emits m : encodable m -> emits (EncodeTo m) (wire m).
Proof. unfold EncodeTo, wire, encodable. solve_emits. Qed.
Lemma Rauth_refuses m : ~ encodable m -> refuses (EncodeTo m).
Proof. unfold EncodeTo, encodable. solve_refuses. Qed.
Lemma Rauth_decoder : decoder DecodeFrom wf wire.
Proof. unfold DecodeFrom, wf, wire. solve_decoder. Qed.
Lemma Rauth_wf_encodable m : wf m -> encodable m.
Proof. unfold wf, encodable. tauto. Qed.
End Rauth.

Module Tattach.
Record t : Type := mk { Fid : Types.Fid; Afid : Types.Fid; Uname : string; Aname : string;
  NUname : Z }.
Definition zero : t := mk 0 0 "" "" 0.
Definition Type_ (_ : t) : MessageType := TypeTattach.
Definition EncodeTo (m : t) : M Writer unit :=
  wrapf "encode tattach fid: %w" (WriteFid (Fid m));;
  wrapf "encode tattach afid: %w" (WriteFid (Afid m));;
  wrapf "encode tattach uname: %w" (WriteString (Uname m));;
  wrapf "encode tattach aname: %w" (WriteString (Aname m));;
  wrapf "encode tattach n_uname: %w" (WriteUint32 (NUname m)).
Definition DecodeFrom : M Reader t :=
  Fid ← wrapf "decode tattach fid: %w" ReadFid;
  Afid ← wrapf "decode tattach afid: %w" ReadFid;
  Uname ← wrapf "decode tattach uname: %w" ReadString;
  Aname ← wrapf "decode tattach aname: %w" ReadString;
  NUname ← wrapf "decode tattach n_uname: %w" ReadUint32;
  mret (mk Fid Afid Uname Aname NUname).

Definition wire (m : t) : bytes :=
  le_bytes 4 (Fid m) ++ le_bytes 4 (Afid m) ++ wire_string (Uname m) ++ wire_string (Aname m)
  ++ le_bytes 4 (NUname m).
Definition encodable (m : t) : Prop := str_ok (Uname m) /\ str_ok (Aname m).
Definition wf (m : t) : Prop :=
  u32 (Fid m) /\ u32 (Afid m) /\ str_ok (Uname m) /\ str_ok (Aname m) /\ u32 (NUname m).

#[export] Instance Tattach_encodable_dec m : Decision (encodable m).
Proof. unfold encodable. solve_wire_dec. Defined.
Lemma Tattach_emits m : encodable m -> emits (EncodeTo m) (wire m).
Proof. unfold EncodeTo, wire, encodable. solve_emits. Qed.
Lemma Tattach_refuses m : ~ encodable m -> refuses (EncodeTo m).
Proof. unfold EncodeTo, encodable. solve_refuses. Qed.
Lemma Tattach_decoder : decoder DecodeFrom wf wire.
Proof. unfold DecodeFrom, wf, wire. solve_decoder. Qed.
Lemma Tattach_wf_encodable m : wf m -> encodable m.
Proof. unfold wf, encodable. tauto. Qed.
End Tattach.

Module Rattach.
Record t : Type := mk { QID : QID.t }.
Definition zero : t := mk QID.zero.
Definition Type_ (_ : t) : MessageType := TypeRattach.
Definition EncodeTo (m : t) : M Writer unit :=
  wrapf "encode rattach qid: %w" (WriteQID (QID m)).
Definition DecodeFrom : M Reader t :=
  QID ← wrapf "decode rattach qid: %w" ReadQID;
  mret (mk QID).

Definition wire (m : t) : bytes :=
  wire_qid (QID m).
Definition encodable (m : t) : Prop := True.
Definition wf (m : t) : Prop :=
  QID.wf (QID m).

#[export] Instance Rattach_encodable_dec m : Decision (encodable m).
Proof. unfold encodable. solve_wire_dec. Defined.
Lemma Rattach_emits m : encodable m -> emits (EncodeTo m) (wire m).
Proof. unfold EncodeTo, wire, encodable. solve_emits. Qed.
Lemma Rattach_refuses m : ~ encodable m -> refuses (EncodeTo m).
Proof. unfold EncodeTo, encodable. solve_refuses. Qed.
Lemma Rattach_decoder : decoder DecodeFrom wf wire.
Proof. unfold DecodeFrom, wf, wire. solve_decoder. Qed.
Lemma Rattach_wf_encodable m : wf m -> encodable m.
Proof. unfold wf, encodable. tauto. Qed.
End Rattach.

Module Tflush.
Record t : Type := mk { OldTag : Tag }.
Definition zero : t := mk 0.
Definition Type_ (_ : t) : MessageType := TypeTflush.
Definition EncodeTo (m : t) : M Writer unit :=
  wrapf "encode tflush oldtag: %w" (WriteUint16 (OldTag m)).
Definition DecodeFrom : M Reader t :=
  OldTag ← wrapf "decode tflush oldtag: %w" ReadUint16;
  mret (mk OldTag).

Definition wire (m : t) : bytes :=
  le_bytes 2 (OldTag m).
Definition encodable (m : t) : Prop := True.
Definition wf (m : t) : Prop :=
  u16 (OldTag m).

#[export] Instance Tflush_encodable_dec m : Decision (encodable m).
Proof. unfold encodable. solve_wire_dec. Defined.
Lemma Tflush_emits m : encodable m -> emits (EncodeTo m) (wire m).
Proof. unfold EncodeTo, wire, encodable. solve_emits. Qed.
Lemma Tflush_refuses m : ~ encodable m -> refuses (EncodeTo m).
Proof. unfold EncodeTo, encodable. solve_refuses. Qed.
Lemma Tflush_decoder : decoder DecodeFrom wf wire.
Proof. unfold DecodeFrom, wf, wire. solve_decoder. Qed.
Lemma Tflush_wf_encodable m : wf m -> encodable m.
Proof. unfold wf, encodable. tauto. Qed.
End Tflush.

Module Rflush.
Record t : Type := mk {}.
Definition zero : t := mk.
Definition Type_ (_ : t) : MessageType := TypeRflush.
Definition EncodeTo (_ : t) : M Writer unit := mret tt.
Definition DecodeFrom : M Reader t := mret mk.

Definition wire (_ : t) : bytes := [].
Definition encodable (_ : t) : Prop := True.
Definition wf (_ : t) : Prop := True.

#[export] Instance Rflush_encodable_dec m : Decision (encodable m).
Proof. unfold encodable. solve_wire_dec. Defined.
Lemma Rflush_emits m : encodable m -> emits (EncodeTo m) (wire m).
Proof. unfold EncodeTo, wire, encodable. solve_emits. Qed.
Lemma Rflush_refuses m : ~ encodable m -> refuses (EncodeTo m).
Proof. unfold EncodeTo, encodable. solve_refuses. Qed.
Lemma Rflush_decoder : decoder DecodeFrom wf wire.
Proof. unfold DecodeFrom, wf, wire. solve_decoder. Qed.
Lemma Rflush_wf_encodable m : wf m -> encodable m.
Proof. unfold wf, encodable. tauto. Qed.
End Rflush.

Module Twalk.
Record t : Type := mk { Fid : Types.Fid; NewFid : Types.Fid; Names : list string }.
Definition zero : t := mk 0 0 [].
Definition Type_ (_ : t) : MessageType := TypeTwalk.
Definition EncodeTo (m : t) : M Writer unit :=
  let n := Z.of_nat (length (Names m)) in
  if MaxWalkElements <? n
  then throw (Errorf "walk name count %d exceeds max %d" [n; MaxWalkElements]) else
  wrapf "encode twalk fid: %w" (WriteFid (Fid m));;
  wrapf "encode twalk newfid: %w" (WriteFid (NewFid m));;
  wrapf "encode twalk nwname: %w" (WriteUint16 (uint_wrap 16 n));;
  encodeList "encode twalk name[%d]: %w" WriteString 0 (Names m).
Definition DecodeFrom : M Reader t :=
  Fid ← wrapf "decode twalk fid: %w" ReadFid;
  NewFid ← wrapf "decode twalk newfid: %w" ReadFid;
  nwname ← wrapf "decode twalk nwname: %w" ReadUint16;
  if MaxWalkElements <? nwname
  then throw (Errorf "walk name count %d exceeds max %d" [nwname; MaxWalkElements]) else
  Names ← decodeList "decode twalk name[%d]: %w" ReadString 0 (Z.to_nat nwname);
  mret (mk Fid NewFid Names).

Definition wire (m : t) : bytes :=
  le_bytes 4 (Fid m) ++ le_bytes 4 (NewFid m) ++
  le_bytes 2 (Z.of_nat (length (Names m))) ++ wire_list wire_string (Names m).
Definition encodable (m : t) : Prop :=
  Z.of_nat (length (Names m)) <= MaxWalkElements /\ Forall str_ok (Names m).
Definition wf (m : t) : Prop := u32 (Fid m) /\ u32 (NewFid m) /\ encodable m.

#[export] Instance Twalk_encodable_dec m : Decision (encodable m).
Proof. unfold encodable, str_ok. apply _. Defined.
Lemma Twalk_emits m : encodable m -> emits (EncodeTo m) (wire m).
Proof.
  unfold EncodeTo, wire. intros [Hn Hs]. rewrite (proj2 (Z.ltb_ge _ _)) by lia.
  rewrite <- (le_bytes_wrap 2 16) by done. unfold wrapf.
  repeat apply bind_emits; [eauto with wire..|].
  apply encodeList_emits. eapply Forall_impl; [exact Hs|]. eauto with wire.
Qed.
Lemma Twalk_refuses m : ~ encodable m -> refuses (EncodeTo m).
Proof.
  unfold EncodeTo. intros H. apply not_and_l in H as [H|H].
  - rewrite (proj2 (Z.ltb_lt _ _)) by lia. apply throw_refuses.
  - destruct (_ <? _); [apply throw_refuses|]. repeat apply bind_refuses_r.
    apply encodeList_refuses. apply not_Forall_Exists in H; [|apply _].
    eapply Exists_impl; [exact H|]. eauto with wire.
Qed.
Lemma Twalk_decoder : decoder DecodeFrom wf wire.
Proof.
  split.
  - intros m r rest (H1 & H2 & Hn & Hs) Hav. unfold DecodeFrom, wire, wrapf in *.
    do 2 decode_step.
    eapply bind_complete; [eauto with wire| |eassumption|intros ? ?].
    { unfold is_uint, MaxWalkElements in *. lia. }
    apply guard_step; [apply Z.ltb_ge; lia|].
    eapply bind_complete_last; [apply decodeList_decoder; eauto with wire| |eassumption|].
    + split; [lia|done].
    + intros ?. by destruct m.
  - intros r m r' H. unfold DecodeFrom, wrapf in H. do 3 decode_inv H. guard_inv H.
    apply mbind_Ok_inv in H as (ns & r3 & E & [= <- <-]).
    apply (decoder_sound (decodeList_decoder _ _ _ _ _ _ ReadString_decoder)) in E as [[Hl Hf] T'].
    unfold is_uint in *. unfold wf, wire, encodable. cbn [Fid NewFid Names].
    rewrite Hl, Z2Nat.id by lia. split; [done|]. eauto 10 with wire.
Qed.
Lemma Twalk_wf_encodable m : wf m -> encodable m.
Proof. unfold wf. tauto. Qed.
End Twalk.

Module Rwalk.
Record t : Type := mk { QIDs : list QID.t }.
Definition zero : t := mk [].
Definition Type_ (_ : t) : MessageType := TypeRwalk.
Definition EncodeTo (m : t) : M Writer unit :=
  let n := Z.of_nat (length (QIDs m)) in
  if MaxWalkElements <? n
  then throw (Errorf "walk qid count %d exceeds max %d" [n; MaxWalkElements]) else
  wrapf "encode rwalk nwqid: %w" (WriteUint16 (uint_wrap 16 n));;
  encodeList "encode rwalk qid[%d]: %w" WriteQID 0 (QIDs m).
Definition DecodeFrom : M Reader t :=
  nwqid ← wrapf "decode rwalk nwqid: %w" ReadUint16;
  if MaxWalkElements <? nwqid
  then throw (Errorf "walk qid count %d exceeds max %d" [nwqid; MaxWalkElements]) else
  QIDs ← decodeList "decode rwalk qid[%d]: %w" ReadQID 0 (Z.to_nat nwqid);
  mret (mk QIDs).

Definition wire (m : t) : bytes :=
  le_bytes 2 (Z.of_nat (length (QIDs m))) ++ wire_list wire_qid (QIDs m).
Definition encodable (m : t) : Prop := Z.of_nat (length (QIDs m)) <= MaxWalkElements.
Definition wf (m : t) : Prop := encodable m /\ Forall QID.wf (QIDs m).

#[export] Instance Rwalk_encodable_dec m : Decision (encodable m).
Proof. unfold encodable. apply _. Defined.
Lemma Rwalk_emits m : encodable m -> emits (EncodeTo m) (wire m).
Proof.
  unfold EncodeTo, wire, encodable. intros Hn. rewrite (proj2 (Z.ltb_ge _ _)) by lia.
  rewrite <- (le_bytes_wrap 2 16) by done. unfold wrapf.
  apply bind_emits; [eauto with wire|].
  apply encodeList_emits, Forall_true. eauto with wire.
Qed.
Lemma Rwalk_refuses m : ~ encodable m -> refuses (EncodeTo m).
Proof.
  unfold EncodeTo, encodable. intros H. rewrite (proj2 (Z.ltb_lt _ _)) by lia.
  apply throw_refuses.
Qed.
Lemma Rwalk_decoder : decoder DecodeFrom wf wire.
Proof.
  split.
  - intros m r rest [Hn Hq] Hav. unfold DecodeFrom, wire, wrapf, encodable in *.
    eapply bind_complete; [eauto with wire| |eassumption|intros ? ?].
    { unfold is_uint, MaxWalkElements in *. lia. }
    apply guard_step; [apply Z.ltb_ge; lia|].
    eapply bind_complete_last; [apply decodeList_decoder; eauto with wire| |eassumption|].
    + split; [lia|done].
    + intros ?. by destruct m.
  - intros r m r' H. unfold DecodeFrom, wrapf in H. decode_inv H. guard_inv H.
    apply mbind_Ok_inv in H as (qs & r3 & E & [= <- <-]).
    apply (decoder_sound (decodeList_decoder _ _ _ _ _ _ ReadQID_decoder)) in E as [[Hl Hf] T'].
    unfold is_uint in *. unfold wf, wire, encodable. cbn [Rwalk.QIDs].
    rewrite Hl, Z2Nat.id by lia. split; [done|]. eauto 10 with wire.
Qed.
Lemma Rwalk_wf_encodable m : wf m -> encodable m.
Proof. unfold wf. tauto. Qed.
End Rwalk.

Module Tread.
Record t : Type := mk { Fid : Types.Fid; Offset : Z; Count : Z }.
Definition zero : t := mk 0 0 0.
Definition Type_ (_ : t) : MessageType := TypeTread.
Definition EncodeTo (m : t) : M Writer unit :=
  wrapf "encode tread fid: %w" (WriteFid (Fid m));;
  wrapf "encode tread offset: %w" (WriteUint64 (Offset m));;
  wrapf "encode tread count: %w" (WriteUint32 (Count m)).
Definition DecodeFrom : M Reader t :=
  Fid ← wrapf "decode tread fid: %w" ReadFid;
  Offset ← wrapf "decode tread offset: %w" ReadUint64;
  Count ← wrapf "decode tread count: %w" ReadUint32;
  mret (mk Fid Offset Count).

Definition wire (m : t) : bytes :=
  le_bytes 4 (Fid m) ++ le_bytes 8 (Offset m) ++ le_bytes 4 (Count m).
Definition encodable (m : t) : Prop := True.
Definition wf (m : t) : Prop :=
  u32 (Fid m) /\ u64 (Offset m) /\ u32 (Count m).

#[export] Instance Tread_encodable_dec m : Decision (encodable m).
Proof. unfold encodable. solve_wire_dec. Defined.
Lemma Tread_emits m : encodable m -> emits (EncodeTo m) (wire m).
Proof. unfold EncodeTo, wire, encodable. solve_emits. Qed.
Lemma Tread_refuses m : ~ encodable m -> refuses (EncodeTo m).
Proof. unfold EncodeTo, encodable. solve_refuses. Qed.
Lemma Tread_decoder : decoder DecodeFrom wf wire.
Proof. unfold DecodeFrom, wf, wire. solve_decoder. Qed.
Lemma Tread_wf_encodable m : wf m -> encodable m.
Proof. unfold wf, encodable. tauto. Qed.
End Tread.

Module Rread.
Record t : Type := mk { Data : bytes }.
Definition zero : t := mk [].
Definition Type_ (_ : t) : MessageType := TypeRread.
Definition EncodeFixed (m : t) : M Writer unit :=
  let n := Z.of_nat (length (Data m)) in
  if MaxDataSize <? n
  then throw (Errorf "encode rread count %d exceeds maximum %d" [n; MaxDataSize])
  else WriteUint32 (uint_wrap 32 n).
Definition Payload (m : t) : bytes := Data m.
Definition EncodeTo (m : t) : M Writer unit :=
  EncodeFixed m;;
  if 0 <? Z.of_nat (length (Data m))
  then wrapf "encode rread data: %w" (Write (Data m)) else mret tt.
Definition DecodeFrom : M Reader t :=
  count ← wrapf "decode rread count: %w" ReadUint32;
  if MaxDataSize <? count
  then throw (Errorf "decode rread count %d exceeds maximum %d" [count; MaxDataSize]) else
  Data ← wrapf "decode rread data: %w" (ReadData count);
  mret (mk Data).

Definition wire (m : t) : bytes := wire_data (Data m).
Definition encodable (m : t) : Prop := data_ok (Data m).
Definition wf (m : t) : Prop := encodable m.

#[export] Instance Rread_encodable_dec m : Decision (encodable m).
Proof. unfold encodable, data_ok. apply _. Defined.
Lemma Rread_fixed_emits m :
  encodable m -> emits (EncodeFixed m) (le_bytes 4 (Z.of_nat (length (Data m)))).
Proof. intros H. by apply data_count_emits. Qed.
Lemma Rread_emits m : encodable m -> emits (EncodeTo m) (wire m).
Proof.
  intros H. unfold EncodeTo, wire, wire_data.
  apply bind_emits; [by apply Rread_fixed_emits|apply data_tail_emits].
Qed.
Lemma Rread_refuses m : ~ encodable m -> refuses (EncodeTo m).
Proof. intros H. apply bind_refuses_l. by apply data_count_refuses. Qed.
Lemma Rread_decoder : decoder DecodeFrom wf wire.
Proof. unfold DecodeFrom. eapply data_decoder; done || by intros []. Qed.
Lemma Rread_wf_encodable m : wf m -> encodable m.
Proof. done. Qed.
End Rread.

Module Twrite.
Record t : Type := mk { Fid : Types.Fid; Offset : Z; Data : bytes }.
Definition zero : t := mk 0 0 [].
Definition Type_ (_ : t) : MessageType := TypeTwrite.
Definition EncodeFixed (m : t) : M Writer unit :=
  let n := Z.of_nat (length (Data m)) in
  if MaxDataSize <? n
  then throw (Errorf "encode twrite count %d exceeds maximum %d" [n; MaxDataSize]) else
  wrapf "encode twrite fid: %w" (WriteFid (Fid m));;
  wrapf "encode twrite offset: %w" (WriteUint64 (Offset m));;
  wrapf "encode twrite count: %w" (WriteUint32 (uint_wrap 32 n)).
Definition Payload (m : t) : bytes := Data m.
Definition EncodeTo (m : t) : M Writer unit :=
  EncodeFixed m;;
  if 0 <? Z.of_nat (length (Data m))
  then wrapf "encode twrite data: %w" (Write (Data m)) else mret tt.
Definition DecodeFrom : M Reader t :=
  Fid ← wrapf "decode twrite fid: %w" ReadFid;
  Offset ← wrapf "decode twrite offset: %w" ReadUint64;
  count ← wrapf "decode twrite count: %w" ReadUint32;
  if MaxDataSize <? count
  then throw (Errorf "decode twrite count %d exceeds maximum %d" [count; MaxDataSize]) else
  Data ← wrapf "decode twrite data: %w" (ReadData count);
  mret (mk Fid Offset Data).
(** The zero-copy decoder of the server's receive loop.  [b[i:j]] is
    [take (j - i) (drop i b)]; [uint32(len(b)-16)] wraps. *)
Definition DecodeFromBuf (b : bytes) : result t :=
  if (length b <? 16)%nat
  then Err (Errorf "decode twrite: body too short (%d < 16)" [Z.of_nat (length b)])
  else
    let fid := le_val (take 4 b) in
    let offset := le_val (take 8 (drop 4 b)) in
    let count := le_val (take 4 (drop 12 b)) in
    if MaxDataSize <? count
    then Err (Errorf "decode twrite count %d exceeds maximum %d" [count; MaxDataSize])
    else if uint_wrap 32 (Z.of_nat (length b - 16)) <? count
    then Err (Errorf "decode twrite: data short, want %d have %d"
                [count; Z.of_nat (length b - 16)])
    else Ok (mk fid offset (take (Z.to_nat count) (drop 16 b))).

Definition wire (m : t) : bytes :=
  le_bytes 4 (Fid m) ++ le_bytes 8 (Offset m) ++ wire_data (Data m).
Definition encodable (m : t) : Prop := data_ok (Data m).
Definition wf (m : t) : Prop := u32 (Fid m) /\ u64 (Offset m) /\ data_ok (Data m).

#[export] Instance Twrite_encodable_dec m : Decision (encodable m).
Proof. unfold encodable, data_ok. apply _. Defined.
Definition wire_fixed (m : t) : bytes :=
  le_bytes 4 (Fid m) ++ le_bytes 8 (Offset m) ++ le_bytes 4 (Z.of_nat (length (Data m))).
Lemma Twrite_fixed_emits m : encodable m -> emits (EncodeFixed m) (wire_fixed m).
Proof.
  unfold encodable, data_ok, EncodeFixed, wire_fixed. intros H.
  rewrite (proj2 (Z.ltb_ge _ _)) by lia. rewrite <- (le_bytes_wrap 4 32 (Z.of_nat _)) by done.
  unfold wrapf. eauto 10 with wire.
Qed.
Lemma wire_split m : wire m = wire_fixed m ++ Data m.
Proof. unfold wire, wire_fixed, wire_data. by rewrite <- !app_assoc. Qed.
Lemma Twrite_emits m : encodable m -> emits (EncodeTo m) (wire m).
Proof.
  intros H. unfold EncodeTo. rewrite wire_split.
  apply bind_emits; [by apply Twrite_fixed_emits|apply data_tail_emits].
Qed.
Lemma Twrite_fixed_refuses m : ~ encodable m -> refuses (EncodeFixed m).
Proof.
  unfold encodable, data_ok, EncodeFixed. intros H.
  rewrite (proj2 (Z.ltb_lt _ _)) by lia. apply throw_refuses.
Qed.
Lemma Twrite_refuses m : ~ encodable m -> refuses (EncodeTo m).
Proof. intros H. by apply bind_refuses_l, Twrite_fixed_refuses. Qed.
Lemma Twrite_decoder : decoder DecodeFrom wf wire.
Proof.
  split.
  - intros m r rest (H1 & H2 & Hd) Hav. unfold DecodeFrom, wire, wrapf in *.
    do 2 decode_step. eapply data_complete; [done|eassumption|]. intros ?. by destruct m.
  - intros r m r' H. unfold DecodeFrom, wrapf in H. do 2 decode_inv H.
    apply data_sound in H as (d & r3 & Hd & T' & [= <- <-]).
    split; [done|]. unfold wire. cbn. eauto with wire.
Qed.
Lemma Twrite_wf_encodable m : wf m -> encodable m.
Proof. unfold wf. tauto. Qed.
End Twrite.

Module Rwrite.
Record t : Type := mk { Count : Z }.
Definition zero : t := mk 0.
Definition Type_ (_ : t) : MessageType := TypeRwrite.
Definition EncodeTo (m : t) : M Writer unit :=
  wrapf "encode rwrite count: %w" (WriteUint32 (Count m)).
Definition DecodeFrom : M Reader t :=
  Count ← wrapf "decode rwrite count: %w" ReadUint32;
  mret (mk Count).

Definition wire (m : t) : bytes :=
  le_bytes 4 (Count m).
Definition encodable (m : t) : Prop := True.
Definition wf (m : t) : Prop :=
  u32 (Count m).

#[export] Instance Rwrite_encodable_dec m : Decision (encodable m).
Proof. unfold encodable. solve_wire_dec. Defined.
Lemma Rwrite_emits m : encodable m -> emits (EncodeTo m) (wire m).
Proof. unfold EncodeTo, wire, encodable. solve_emits. Qed.
Lemma Rwrite_refuses m : ~ encodable m -> refuses (EncodeTo m).
Proof. unfold EncodeTo, encodable. solve_refuses. Qed.
Lemma Rwrite_decoder : decoder DecodeFrom wf wire.
Proof. unfold DecodeFrom, wf, wire. solve_decoder. Qed.
Lemma Rwrite_wf_encodable m : wf m -> encodable m.
Proof. unfold wf, encodable. tauto. Qed.
End Rwrite.

Module Tclunk.
Record t : Type := mk { Fid : Types.Fid }.
Definition zero : t := mk 0.
Definition Type_ (_ : t) : MessageType := TypeTclunk.
Definition EncodeTo (m : t) : M Writer unit :=
  wrapf "encode tclunk fid: %w" (WriteFid (Fid m)).
Definition DecodeFrom : M Reader t :=
  Fid ← wrapf "decode tclunk fid: %w" ReadFid;
  mret (mk Fid).

Definition wire (m : t) : bytes :=
  le_bytes 4 (Fid m).
Definition encodable (m : t) : Prop := True.
Definition wf (m : t) : Prop :=
  u32 (Fid m).

#[export] Instance Tclunk_encodable_dec m : Decision (encodable m).
Proof. unfold encodable. solve_wire_dec. Defined.
Lemma Tclunk_emits m : encodable m -> emits (EncodeTo m) (wire m).
Proof. unfold EncodeTo, wire, encodable. solve_emits. Qed.
Lemma Tclunk_refuses m : ~ encodable m -> refuses (EncodeTo m).
Proof. unfold EncodeTo, encodable. solve_refuses. Qed.
Lemma Tclunk_decoder : decoder DecodeFrom wf wire.
Proof. unfold DecodeFrom, wf, wire. solve_decoder. Qed.
Lemma Tclunk_wf_encodable m : wf m -> encodable m.
Proof. unfold wf, encodable. tauto. Qed.
End Tclunk.

Module Rclunk.
Record t : Type := mk {}.
Definition zero : t := mk.
Definition Type_ (_ : t) : MessageType := TypeRclunk.
Definition EncodeTo (_ : t) : M Writer unit := mret tt.
Definition DecodeFrom : M Reader t := mret mk.

Definition wire (_ : t) : bytes := [].
Definition encodable (_ : t) : Prop := True.
Definition wf (_ : t) : Prop := True.

#[export] Instance Rclunk_encodable_dec m : Decision (encodable m).
Proof. unfold encodable. solve_wire_dec. Defined.
Lemma Rclunk_emits m : encodable m -> emits (EncodeTo m) (wire m).
Proof. unfold EncodeTo, wire, encodable. solve_emits. Qed.
Lemma Rclunk_refuses m : ~ encodable m -> refuses (EncodeTo m).
Proof. unfold EncodeTo, encodable. solve_refuses. Qed.
Lemma Rclunk_decoder : decoder DecodeFrom wf wire.
Proof. unfold DecodeFrom, wf, wire. solve_decoder. Qed.
Lemma Rclunk_wf_encodable m : wf m -> encodable m.
Proof. unfold wf, encodable. tauto. Qed.
End Rclunk.

Module Tremove.
Record t : Type := mk { Fid : Types.Fid }.
Definition zero : t := mk 0.
Definition Type_ (_ : t) : MessageType := TypeTremove.
Definition EncodeTo (m : t) : M Writer unit :=
  wrapf "encode tremove fid: %w" (WriteFid (Fid m)).
Definition DecodeFrom : M Reader t :=
  Fid ← wrapf "decode tremove fid: %w" ReadFid;
  mret (mk Fid).

Definition wire (m : t) : bytes :=
  le_bytes 4 (Fid m).
Definition encodable (m : t) : Prop := True.
Definition wf (m : t) : Prop :=
  u32 (Fid m).

#[export] Instance Tremove_encodable_dec m : Decision (encodable m).
Proof. unfold encodable. solve_wire_dec. Defined.
Lemma Tremove_emits m : encodable m -> emits (EncodeTo m) (wire m).
Proof. unfold EncodeTo, wire, encodable. solve_emits. Qed.
Lemma Tremove_refuses m : ~ encodable m -> refuses (EncodeTo m).
Proof. unfold EncodeTo, encodable. solve_refuses. Qed.
Lemma Tremove_decoder : decoder DecodeFrom wf wire.
Proof. unfold DecodeFrom, wf, wire. solve_decoder. Qed.
Lemma Tremove_wf_encodable m : wf m -> encodable m.
Proof. unfold wf, encodable. tauto. Qed.
End Tremove.

Module Rremove.
Record t : Type := mk {}.
Definition zero : t := mk.
Definition Type_ (_ : t) : MessageType := TypeRremove.
Definition EncodeTo (_ : t) : M Writer unit := mret tt.
Definition DecodeFrom : M Reader t := mret mk.

Definition wire (_ : t) : bytes := [].
Definition encodable (_ : t) : Prop := True.
Definition wf (_ : t) : Prop := True.

#[export] Instance Rremove_encodable_dec m : Decision (encodable m).
Proof. unfold encodable. solve_wire_dec. Defined.
Lemma Rremove_emits m : encodable m -> emits (EncodeTo m) (wire m).
Proof. unfold EncodeTo, wire, encodable. solve_emits. Qed.
Lemma Rremove_refuses m : ~ encodable m -> refuses (EncodeTo m).
Proof. unfold EncodeTo, encodable. solve_refuses. Qed.
Lemma Rremove_decoder : decoder DecodeFrom wf wire.
Proof. unfold DecodeFrom, wf, wire. solve_decoder. Qed.
Lemma Rremove_wf_encodable m : wf m -> encodable m.
Proof. unfold wf, encodable. tauto. Qed.
End Rremove.

