(* ===== verification/P9l.v ===== *)
(** * 9P2000.L messages

    [proto/p9l/messages.go]: the messages of the Linux dialect, in the form
    of [Messages]: one [Module] per message with its structure, codec, wire
    layout and the lemmas that relate them.  The [Tlock], [Rlock] and
    [Tgetlock] decoders validate the lock type, flags and status, so that
    their [wf] is narrower than the field widths. *)

From S2P Require Import Prelude GoIO Types Errno Proto Messages.

Module Rlerror.
Record t : Type := mk { Ecode : Errno }.
Definition zero : t := mk 0.
Definition Type_ (_ : t) : MessageType := TypeRlerror.
Definition EncodeTo (m : t) : M Writer unit :=
  wrapf "encode rlerror ecode: %w" (WriteUint32 (Ecode m)).
Definition DecodeFrom : M Reader t :=
  Ecode ← wrapf "decode rlerror ecode: %w" ReadUint32;
  mret (mk Ecode).

Definition wire (m : t) : bytes :=
  le_bytes 4 (Ecode m).
Definition encodable (m : t) : Prop := True.
Definition wf (m : t) : Prop :=
  u32 (Ecode m).

#[export] Instance Rlerror_encodable_dec m : Decision (encodable m).
Proof. unfold encodable. solve_wire_dec. Defined.
Lemma Rlerror_emits m : encodable m -> emits (EncodeTo m) (wire m).
Proof. unfold EncodeTo, wire, encodable. solve_emits. Qed.
Lemma Rlerror_refuses m : ~ encodable m -> refuses (EncodeTo m).
Proof. unfold EncodeTo, encodable. solve_refuses. Qed.
Lemma Rlerror_decoder : decoder DecodeFrom wf wire.
Proof. unfold DecodeFrom, wf, wire. solve_decoder. Qed.
Lemma Rlerror_wf_encodable m : wf m -> encodable m.
Proof. unfold wf, encodable. tauto. Qed.
End Rlerror.

Module Tstatfs.
Record t : Type := mk { Fid : Types.Fid }.
Definition zero : t := mk 0.
Definition Type_ (_ : t) : MessageType := TypeTstatfs.
Definition EncodeTo (m : t) : M Writer unit :=
  wrapf "encode tstatfs fid: %w" (WriteFid (Fid m)).
Definition DecodeFrom : M Reader t :=
  Fid ← wrapf "decode tstatfs fid: %w" ReadFid;
  mret (mk Fid).

Definition wire (m : t) : bytes :=
  le_bytes 4 (Fid m).
Definition encodable (m : t) : Prop := True.
Definition wf (m : t) : Prop :=
  u32 (Fid m).

#[export] Instance Tstatfs_encodable_dec m : Decision (encodable m).
Proof. unfold encodable. solve_wire_dec. Defined.
Lemma Tstatfs_emits m : encodable m -> emits (EncodeTo m) (wire m).
Proof. unfold EncodeTo, wire, encodable. solve_emits. Qed.
Lemma Tstatfs_refuses m : ~ encodable m -> refuses (EncodeTo m).
Proof. unfold EncodeTo, encodable. solve_refuses. Qed.
Lemma Tstatfs_decoder : decoder DecodeFrom wf wire.
Proof. unfold DecodeFrom, wf, wire. solve_decoder. Qed.
Lemma Tstatfs_wf_encodable m : wf m -> encodable m.
Proof. unfold wf, encodable. tauto. Qed.
End Tstatfs.

Module Rstatfs.
Record t : Type := mk { Stat : FSStat.t }.
Definition zero : t := mk FSStat.zero.
Definition Type_ (_ : t) : MessageType := TypeRstatfs.
Definition EncodeTo (m : t) : M Writer unit :=
  wrapf "encode rstatfs type: %w" (WriteUint32 (FSStat.Type_ (Stat m)));;
  wrapf "encode rstatfs bsize: %w" (WriteUint32 (FSStat.BSize (Stat m)));;
  wrapf "encode rstatfs blocks: %w" (WriteUint64 (FSStat.Blocks (Stat m)));;
  wrapf "encode rstatfs bfree: %w" (WriteUint64 (FSStat.BFree (Stat m)));;
  wrapf "encode rstatfs bavail: %w" (WriteUint64 (FSStat.BAvail (Stat m)));;
  wrapf "encode rstatfs files: %w" (WriteUint64 (FSStat.Files (Stat m)));;
  wrapf "encode rstatfs ffree: %w" (WriteUint64 (FSStat.FFree (Stat m)));;
  wrapf "encode rstatfs fsid: %w" (WriteUint64 (FSStat.FSID (Stat m)));;
  wrapf "encode rstatfs namelen: %w" (WriteUint32 (FSStat.NameLen (Stat m))).
Definition DecodeFrom : M Reader t :=
  Stat_Type ← wrapf "decode rstatfs type: %w" ReadUint32;
  Stat_BSize ← wrapf "decode rstatfs bsize: %w" ReadUint32;
  Stat_Blocks ← wrapf "decode rstatfs blocks: %w" ReadUint64;
  Stat_BFree ← wrapf "decode rstatfs bfree: %w" ReadUint64;
  Stat_BAvail ← wrapf "decode rstatfs bavail: %w" ReadUint64;
  Stat_Files ← wrapf "decode rstatfs files: %w" ReadUint64;
  Stat_FFree ← wrapf "decode rstatfs ffree: %w" ReadUint64;
  Stat_FSID ← wrapf "decode rstatfs fsid: %w" ReadUint64;
  Stat_NameLen ← wrapf "decode rstatfs namelen: %w" ReadUint32;
  mret (mk (FSStat.mk Stat_Type Stat_BSize Stat_Blocks Stat_BFree Stat_BAvail Stat_Files
  Stat_FFree Stat_FSID Stat_NameLen)).

Definition wire (m : t) : bytes :=
  le_bytes 4 (FSStat.Type_ (Stat m)) ++ le_bytes 4 (FSStat.BSize (Stat m)) ++ le_bytes 8
  (FSStat.Blocks (Stat m)) ++ le_bytes 8 (FSStat.BFree (Stat m)) ++ le_bytes 8 (FSStat.BAvail
  (Stat m)) ++ le_bytes 8 (FSStat.Files (Stat m)) ++ le_bytes 8 (FSStat.FFree (Stat m)) ++
  le_bytes 8 (FSStat.FSID (Stat m)) ++ le_bytes 4 (FSStat.NameLen (Stat m)).
Definition encodable (m : t) : Prop := True.
Definition wf (m : t) : Prop :=
  u32 (FSStat.Type_ (Stat m)) /\ u32 (FSStat.BSize (Stat m)) /\ u64 (FSStat.Blocks (Stat m))
  /\ u64 (FSStat.BFree (Stat m)) /\ u64 (FSStat.BAvail (Stat m)) /\ u64 (FSStat.Files (Stat
  m)) /\ u64 (FSStat.FFree (Stat m)) /\ u64 (FSStat.FSID (Stat m)) /\ u32 (FSStat.NameLen
  (Stat m)).

#[export] Instance Rstatfs_encodable_dec m : Decision (encodable m).
Proof. unfold encodable. solve_wire_dec. Defined.
Lemma Rstatfs_emits m : encodable m -> emits (EncodeTo m) (wire m).
Proof. unfold EncodeTo, wire, encodable. solve_emits. Qed.
Lemma Rstatfs_refuses m : ~ encodable m -> refuses (EncodeTo m).
Proof. unfold EncodeTo, encodable. solve_refuses. Qed.
Lemma Rstatfs_decoder : decoder DecodeFrom wf wire.
Proof. unfold DecodeFrom, wf, wire. solve_decoder. Qed.
Lemma Rstatfs_wf_encodable m : wf m -> encodable m.
Proof. unfold wf, encodable. tauto. Qed.
End Rstatfs.

Module Tlopen.
Record t : Type := mk { Fid : Types.Fid; Flags : Z }.
Definition zero : t := mk 0 0.
Definition Type_ (_ : t) : MessageType := TypeTlopen.
Definition EncodeTo (m : t) : M Writer unit :=
  wrapf "encode tlopen fid: %w" (WriteFid (Fid m));;
  wrapf "encode tlopen flags: %w" (WriteUint32 (Flags m)).
Definition DecodeFrom : M Reader t :=
  Fid ← wrapf "decode tlopen fid: %w" ReadFid;
  Flags ← wrapf "decode tlopen flags: %w" ReadUint32;
  mret (mk Fid Flags).

Definition wire (m : t) : bytes :=
  le_bytes 4 (Fid m) ++ le_bytes 4 (Flags m).
Definition encodable (m : t) : Prop := True.
Definition wf (m : t) : Prop :=
  u32 (Fid m) /\ u32 (Flags m).

#[export] Instance Tlopen_encodable_dec m : Decision (encodable m).
Proof. unfold encodable. solve_wire_dec. Defined.
Lemma Tlopen_emits m : encodable m -> emits (EncodeTo m) (wire m).
Proof. unfold EncodeTo, wire, encodable. solve_emits. Qed.
Lemma Tlopen_refuses m : ~ encodable m -> refuses (EncodeTo m).
Proof. unfold EncodeTo, encodable. solve_refuses. Qed.
Lemma Tlopen_decoder : decoder DecodeFrom wf wire.
Proof. unfold DecodeFrom, wf, wire. solve_decoder. Qed.
Lemma Tlopen_wf_encodable m : wf m -> encodable m.
Proof. unfold wf, encodable. tauto. Qed.
End Tlopen.

Module Rlopen.
Record t : Type := mk { QID : QID.t; IOUnit : Z }.
Definition zero : t := mk QID.zero 0.
Definition Type_ (_ : t) : MessageType := TypeRlopen.
Definition EncodeTo (m : t) : M Writer unit :=
  wrapf "encode rlopen qid: %w" (WriteQID (QID m));;
  wrapf "encode rlopen iounit: %w" (WriteUint32 (IOUnit m)).
Definition DecodeFrom : M Reader t :=
  QID ← wrapf "decode rlopen qid: %w" ReadQID;
  IOUnit ← wrapf "decode rlopen iounit: %w" ReadUint32;
  mret (mk QID IOUnit).

Definition wire (m : t) : bytes :=
  wire_qid (QID m) ++ le_bytes 4 (IOUnit m).
Definition encodable (m : t) : Prop := True.
Definition wf (m : t) : Prop :=
  QID.wf (QID m) /\ u32 (IOUnit m).

#[export] Instance Rlopen_encodable_dec m : Decision (encodable m).
Proof. unfold encodable. solve_wire_dec. Defined.
Lemma Rlopen_emits m : encodable m -> emits (EncodeTo m) (wire m).
Proof. unfold EncodeTo, wire, encodable. solve_emits. Qed.
Lemma Rlopen_refuses m : ~ encodable m -> refuses (EncodeTo m).
Proof. unfold EncodeTo, encodable. solve_refuses. Qed.
Lemma Rlopen_decoder : decoder DecodeFrom wf wire.
Proof. unfold DecodeFrom, wf, wire. solve_decoder. Qed.
Lemma Rlopen_wf_encodable m : wf m -> encodable m.
Proof. unfold wf, encodable. tauto. Qed.
End Rlopen.

Module Tlcreate.
Record t : Type := mk { Fid : Types.Fid; Name : string; Flags : Z; Mode : FileMode; GID : Z }.
Definition zero : t := mk 0 "" 0 0 0.
Definition Type_ (_ : t) : MessageType := TypeTlcreate.
Definition EncodeTo (m : t) : M Writer unit :=
  wrapf "encode tlcreate fid: %w" (WriteFid (Fid m));;
  wrapf "encode tlcreate name: %w" (WriteString (Name m));;
  wrapf "encode tlcreate flags: %w" (WriteUint32 (Flags m));;
  wrapf "encode tlcreate mode: %w" (WriteUint32 (Mode m));;
  wrapf "encode tlcreate gid: %w" (WriteUint32 (GID m)).
Definition DecodeFrom : M Reader t :=
  Fid ← wrapf "decode tlcreate fid: %w" ReadFid;
  Name ← wrapf "decode tlcreate name: %w" ReadString;
  Flags ← wrapf "decode tlcreate flags: %w" ReadUint32;
  Mode ← wrapf "decode tlcreate mode: %w" ReadUint32;
  GID ← wrapf "decode tlcreate gid: %w" ReadUint32;
  mret (mk Fid Name Flags Mode GID).

Definition wire (m : t) : bytes :=
  le_bytes 4 (Fid m) ++ wire_string (Name m) ++ le_bytes 4 (Flags m) ++ le_bytes 4 (Mode m) ++
  le_bytes 4 (GID m).
Definition encodable (m : t) : Prop := str_ok (Name m).
Definition wf (m : t) : Prop :=
  u32 (Fid m) /\ str_ok (Name m) /\ u32 (Flags m) /\ u32 (Mode m) /\ u32 (GID m).

#[export] Instance Tlcreate_encodable_dec m : Decision (encodable m).
Proof. unfold encodable. solve_wire_dec. Defined.
Lemma Tlcreate_emits m : encodable m -> emits (EncodeTo m) (wire m).
Proof. unfold EncodeTo, wire, encodable. solve_emits. Qed.
Lemma Tlcreate_refuses m : ~ encodable m -> refuses (EncodeTo m).
Proof. unfold EncodeTo, encodable. solve_refuses. Qed.
Lemma Tlcreate_decoder : decoder DecodeFrom wf wire.
Proof. unfold DecodeFrom, wf, wire. solve_decoder. Qed.
Lemma Tlcreate_wf_encodable m : wf m -> encodable m.
Proof. unfold wf, encodable. tauto. Qed.
End Tlcreate.

Module Rlcreate.
Record t : Type := mk { QID : QID.t; IOUnit : Z }.
Definition zero : t := mk QID.zero 0.
Definition Type_ (_ : t) : MessageType := TypeRlcreate.
Definition EncodeTo (m : t) : M Writer unit :=
  wrapf "encode rlcreate qid: %w" (WriteQID (QID m));;
  wrapf "encode rlcreate iounit: %w" (WriteUint32 (IOUnit m)).
Definition DecodeFrom : M Reader t :=
  QID ← wrapf "decode rlcreate qid: %w" ReadQID;
  IOUnit ← wrapf "decode rlcreate iounit: %w" ReadUint32;
  mret (mk QID IOUnit).

Definition wire (m : t) : bytes :=
  wire_qid (QID m) ++ le_bytes 4 (IOUnit m).
Definition encodable (m : t) : Prop := True.
Definition wf (m : t) : Prop :=
  QID.wf (QID m) /\ u32 (IOUnit m).

#[export] Instance Rlcreate_encodable_dec m : Decision (encodable m).
Proof. unfold encodable. solve_wire_dec. Defined.
Lemma Rlcreate_emits m : encodable m -> emits (EncodeTo m) (wire m).
Proof. unfold EncodeTo, wire, encodable. solve_emits. Qed.
Lemma Rlcreate_refuses m : ~ encodable m -> refuses (EncodeTo m).
Proof. unfold EncodeTo, encodable. solve_refuses. Qed.
Lemma Rlcreate_decoder : decoder DecodeFrom wf wire.
Proof. unfold DecodeFrom, wf, wire. solve_decoder. Qed.
Lemma Rlcreate_wf_encodable m : wf m -> encodable m.
Proof. unfold wf, encodable. tauto. Qed.
End Rlcreate.

Module Tsymlink.
Record t : Type := mk { DirFid : Types.Fid; Name : string; Target : string; GID : Z }.
Definition zero : t := mk 0 "" "" 0.
Definition Type_ (_ : t) : MessageType := TypeTsymlink.
Definition EncodeTo (m : t) : M Writer unit :=
  wrapf "encode tsymlink dirfid: %w" (WriteFid (DirFid m));;
  wrapf "encode tsymlink name: %w" (WriteString (Name m));;
  wrapf "encode tsymlink target: %w" (WriteString (Target m));;
  wrapf "encode tsymlink gid: %w" (WriteUint32 (GID m)).
Definition DecodeFrom : M Reader t :=
  DirFid ← wrapf "decode tsymlink dirfid: %w" ReadFid;
  Name ← wrapf "decode tsymlink name: %w" ReadString;
  Target ← wrapf "decode tsymlink target: %w" ReadString;
  GID ← wrapf "decode tsymlink gid: %w" ReadUint32;
  mret (mk DirFid Name Target GID).

Definition wire (m : t) : bytes :=
  le_bytes 4 (DirFid m) ++ wire_string (Name m) ++ wire_string (Target m) ++ le_bytes 4 (GID m).
Definition encodable (m : t) : Prop := str_ok (Name m) /\ str_ok (Target m).
Definition wf (m : t) : Prop :=
  u32 (DirFid m) /\ str_ok (Name m) /\ str_ok (Target m) /\ u32 (GID m).

#[export] Instance Tsymlink_encodable_dec m : Decision (encodable m).
Proof. unfold encodable. solve_wire_dec. Defined.
Lemma Tsymlink_emits m : encodable m -> emits (EncodeTo m) (wire m).
Proof. unfold EncodeTo, wire, encodable. solve_emits. Qed.
Lemma Tsymlink_refuses m : ~ encodable m -> refuses (EncodeTo m).
Proof. unfold EncodeTo, encodable. solve_refuses. Qed.
Lemma Tsymlink_decoder : decoder DecodeFrom wf wire.
Proof. unfold DecodeFrom, wf, wire. solve_decoder. Qed.
Lemma Tsymlink_wf_encodable m : wf m -> encodable m.
Proof. unfold wf, encodable. tauto. Qed.
End Tsymlink.

Module Rsymlink.
Record t : Type := mk { QID : QID.t }.
Definition zero : t := mk QID.zero.
Definition Type_ (_ : t) : MessageType := TypeRsymlink.
Definition EncodeTo (m : t) : M Writer unit :=
  wrapf "encode rsymlink qid: %w" (WriteQID (QID m)).
Definition DecodeFrom : M Reader t :=
  QID ← wrapf "decode rsymlink qid: %w" ReadQID;
  mret (mk QID).

Definition wire (m : t) : bytes :=
  wire_qid (QID m).
Definition encodable (m : t) : Prop := True.
Definition wf (m : t) : Prop :=
  QID.wf (QID m).

#[export] Instance Rsymlink_encodable_dec m : Decision (encodable m).
Proof. unfold encodable. solve_wire_dec. Defined.
Lemma Rsymlink_emits m : encodable m -> emits (EncodeTo m) (wire m).
Proof. unfold EncodeTo, wire, encodable. solve_emits. Qed.
Lemma Rsymlink_refuses m : ~ encodable m -> refuses (EncodeTo m).
Proof. unfold EncodeTo, encodable. solve_refuses. Qed.
Lemma Rsymlink_decoder : decoder DecodeFrom wf wire.
Proof. unfold DecodeFrom, wf, wire. solve_decoder. Qed.
Lemma Rsymlink_wf_encodable m : wf m -> encodable m.
Proof. unfold wf, encodable. tauto. Qed.
End Rsymlink.

Module Tmknod.
Record t : Type := mk { DirFid : Types.Fid; Name : string; Mode : FileMode; Major : Z; Minor :
  Z; GID : Z }.
Definition zero : t := mk 0 "" 0 0 0 0.
Definition Type_ (_ : t) : MessageType := TypeTmknod.
Definition EncodeTo (m : t) : M Writer unit :=
  wrapf "encode tmknod dirfid: %w" (WriteFid (DirFid m));;
  wrapf "encode tmknod name: %w" (WriteString (Name m));;
  wrapf "encode tmknod mode: %w" (WriteUint32 (Mode m));;
  wrapf "encode tmknod major: %w" (WriteUint32 (Major m));;
  wrapf "encode tmknod minor: %w" (WriteUint32 (Minor m));;
  wrapf "encode tmknod gid: %w" (WriteUint32 (GID m)).
Definition DecodeFrom : M Reader t :=
  DirFid ← wrapf "decode tmknod dirfid: %w" ReadFid;
  Name ← wrapf "decode tmknod name: %w" ReadString;
  Mode ← wrapf "decode tmknod mode: %w" ReadUint32;
  Major ← wrapf "decode tmknod major: %w" ReadUint32;
  Minor ← wrapf "decode tmknod minor: %w" ReadUint32;
  GID ← wrapf "decode tmknod gid: %w" ReadUint32;
  mret (mk DirFid Name Mode Major Minor GID).

Definition wire (m : t) : bytes :=
  le_bytes 4 (DirFid m) ++ wire_string (Name m) ++ le_bytes 4 (Mode m) ++ le_bytes 4 (Major m)
  ++ le_bytes 4 (Minor m) ++ le_bytes 4 (GID m).
Definition encodable (m : t) : Prop := str_ok (Name m).
Definition wf (m : t) : Prop :=
  u32 (DirFid m) /\ str_ok (Name m) /\ u32 (Mode m) /\ u32 (Major m) /\ u32 (Minor m) /\ u32
  (GID m).

#[export] Instance Tmknod_encodable_dec m : Decision (encodable m).
Proof. unfold encodable. solve_wire_dec. Defined.
Lemma Tmknod_emits m : encodable m -> emits (EncodeTo m) (wire m).
Proof. unfold EncodeTo, wire, encodable. solve_emits. Qed.
Lemma Tmknod_refuses m : ~ encodable m -> refuses (EncodeTo m).
Proof. unfold EncodeTo, encodable. solve_refuses. Qed.
Lemma Tmknod_decoder : decoder DecodeFrom wf wire.
Proof. unfold DecodeFrom, wf, wire. solve_decoder. Qed.
Lemma Tmknod_wf_encodable m : wf m -> encodable m.
Proof. unfold wf, encodable. tauto. Qed.
End Tmknod.

Module Rmknod.
Record t : Type := mk { QID : QID.t }.
Definition zero : t := mk QID.zero.
Definition Type_ (_ : t) : MessageType := TypeRmknod.
Definition EncodeTo (m : t) : M Writer unit :=
  wrapf "encode rmknod qid: %w" (WriteQID (QID m)).
Definition DecodeFrom : M Reader t :=
  QID ← wrapf "decode rmknod qid: %w" ReadQID;
  mret (mk QID).

Definition wire (m : t) : bytes :=
  wire_qid (QID m).
Definition encodable (m : t) : Prop := True.
Definition wf (m : t) : Prop :=
  QID.wf (QID m).

#[export] Instance Rmknod_encodable_dec m : Decision (encodable m).
Proof. unfold encodable. solve_wire_dec. Defined.
Lemma Rmknod_emits m : encodable m -> emits (EncodeTo m) (wire m).
Proof. unfold EncodeTo, wire, encodable. solve_emits. Qed.
Lemma Rmknod_refuses m : ~ encodable m -> refuses (EncodeTo m).
Proof. unfold EncodeTo, encodable. solve_refuses. Qed.
Lemma Rmknod_decoder : decoder DecodeFrom wf wire.
Proof. unfold DecodeFrom, wf, wire. solve_decoder. Qed.
Lemma Rmknod_wf_encodable m : wf m -> encodable m.
Proof. unfold wf, encodable. tauto. Qed.
End Rmknod.

Module Trename.
Record t : Type := mk { Fid : Types.Fid; DirFid : Types.Fid; Name : string }.
Definition zero : t := mk 0 0 "".
Definition Type_ (_ : t) : MessageType := TypeTrename.
Definition EncodeTo (m : t) : M Writer unit :=
  wrapf "encode trename fid: %w" (WriteFid (Fid m));;
  wrapf "encode trename dirfid: %w" (WriteFid (DirFid m));;
  wrapf "encode trename name: %w" (WriteString (Name m)).
Definition DecodeFrom : M Reader t :=
  Fid ← wrapf "decode trename fid: %w" ReadFid;
  DirFid ← wrapf "decode trename dirfid: %w" ReadFid;
  Name ← wrapf "decode trename name: %w" ReadString;
  mret (mk Fid DirFid Name).

Definition wire (m : t) : bytes :=
  le_bytes 4 (Fid m) ++ le_bytes 4 (DirFid m) ++ wire_string (Name m).
Definition encodable (m : t) : Prop := str_ok (Name m).
Definition wf (m : t) : Prop :=
  u32 (Fid m) /\ u32 (DirFid m) /\ str_ok (Name m).

#[export] Instance Trename_encodable_dec m : Decision (encodable m).
Proof. unfold encodable. solve_wire_dec. Defined.
Lemma Trename_emits m : encodable m -> emits (EncodeTo m) (wire m).
Proof. unfold EncodeTo, wire, encodable. solve_emits. Qed.
Lemma Trename_refuses m : ~ encodable m -> refuses (EncodeTo m).
Proof. unfold EncodeTo, encodable. solve_refuses. Qed.
Lemma Trename_decoder : decoder DecodeFrom wf wire.
Proof. unfold DecodeFrom, wf, wire. solve_decoder. Qed.
Lemma Trename_wf_encodable m : wf m -> encodable m.
Proof. unfold wf, encodable. tauto. Qed.
End Trename.

Module Rrename.
Record t : Type := mk {}.
Definition zero : t := mk.
Definition Type_ (_ : t) : MessageType := TypeRrename.
Definition EncodeTo (_ : t) : M Writer unit := mret tt.
Definition DecodeFrom : M Reader t := mret mk.

Definition wire (_ : t) : bytes := [].
Definition encodable (_ : t) : Prop := True.
Definition wf (_ : t) : Prop := True.

#[export] Instance Rrename_encodable_dec m : Decision (encodable m).
Proof. unfold encodable. solve_wire_dec. Defined.
Lemma Rrename_emits m : encodable m -> emits (EncodeTo m) (wire m).
Proof. unfold EncodeTo, wire, encodable. solve_emits. Qed.
Lemma Rrename_refuses m : ~ encodable m -> refuses (EncodeTo m).
Proof. unfold EncodeTo, encodable. solve_refuses. Qed.
Lemma Rrename_decoder : decoder DecodeFrom wf wire.
Proof. unfold DecodeFrom, wf, wire. solve_decoder. Qed.
Lemma Rrename_wf_encodable m : wf m -> encodable m.
Proof. unfold wf, encodable. tauto. Qed.
End Rrename.

Module Treadlink.
Record t : Type := mk { Fid : Types.Fid }.
Definition zero : t := mk 0.
Definition Type_ (_ : t) : MessageType := TypeTreadlink.
Definition EncodeTo (m : t) : M Writer unit :=
  wrapf "encode treadlink fid: %w" (WriteFid (Fid m)).
Definition DecodeFrom : M Reader t :=
  Fid ← wrapf "decode treadlink fid: %w" ReadFid;
  mret (mk Fid).

Definition wire (m : t) : bytes :=
  le_bytes 4 (Fid m).
Definition encodable (m : t) : Prop := True.
Definition wf (m : t) : Prop :=
  u32 (Fid m).

#[export] Instance Treadlink_encodable_dec m : Decision (encodable m).
Proof. unfold encodable. solve_wire_dec. Defined.
Lemma Treadlink_emits m : encodable m -> emits (EncodeTo m) (wire m).
Proof. unfold EncodeTo, wire, encodable. solve_emits. Qed.
Lemma Treadlink_refuses m : ~ encodable m -> refuses (EncodeTo m).
Proof. unfold EncodeTo, encodable. solve_refuses. Qed.
Lemma Treadlink_decoder : decoder DecodeFrom wf wire.
Proof. unfold DecodeFrom, wf, wire. solve_decoder. Qed.
Lemma Treadlink_wf_encodable m : wf m -> encodable m.
Proof. unfold wf, encodable. tauto. Qed.
End Treadlink.

Module Rreadlink.
Record t : Type := mk { Target : string }.
Definition zero : t := mk "".
Definition Type_ (_ : t) : MessageType := TypeRreadlink.
Definition EncodeTo (m : t) : M Writer unit :=
  wrapf "encode rreadlink target: %w" (WriteString (Target m)).
Definition DecodeFrom : M Reader t :=
  Target ← wrapf "decode rreadlink target: %w" ReadString;
  mret (mk Target).

Definition wire (m : t) : bytes :=
  wire_string (Target m).
Definition encodable (m : t) : Prop := str_ok (Target m).
Definition wf (m : t) : Prop :=
  str_ok (Target m).

#[export] Instance Rreadlink_encodable_dec m : Decision (encodable m).
Proof. unfold encodable. solve_wire_dec. Defined.
Lemma Rreadlink_emits m : encodable m -> emits (EncodeTo m) (wire m).
Proof. unfold EncodeTo, wire, encodable. solve_emits. Qed.
Lemma Rreadlink_refuses m : ~ encodable m -> refuses (EncodeTo m).
Proof. unfold EncodeTo, encodable. solve_refuses. Qed.
Lemma Rreadlink_decoder : decoder DecodeFrom wf wire.
Proof. unfold DecodeFrom, wf, wire. solve_decoder. Qed.
Lemma Rreadlink_wf_encodable m : wf m -> encodable m.
Proof. unfold wf, encodable. tauto. Qed.
End Rreadlink.

Module Tgetattr.
Record t : Type := mk { Fid : Types.Fid; RequestMask : AttrMask }.
Definition zero : t := mk 0 0.
Definition Type_ (_ : t) : MessageType := TypeTgetattr.
Definition EncodeTo (m : t) : M Writer unit :=
  wrapf "encode tgetattr fid: %w" (WriteFid (Fid m));;
  wrapf "encode tgetattr request_mask: %w" (WriteUint64 (RequestMask m)).
Definition DecodeFrom : M Reader t :=
  Fid ← wrapf "decode tgetattr fid: %w" ReadFid;
  RequestMask ← wrapf "decode tgetattr request_mask: %w" ReadUint64;
  mret (mk Fid RequestMask).

Definition wire (m : t) : bytes :=
  le_bytes 4 (Fid m) ++ le_bytes 8 (RequestMask m).
Definition encodable (m : t) : Prop := True.
Definition wf (m : t) : Prop :=
  u32 (Fid m) /\ u64 (RequestMask m).

#[export] Instance Tgetattr_encodable_dec m : Decision (encodable m).
Proof. unfold encodable. solve_wire_dec. Defined.
Lemma Tgetattr_emits m : encodable m -> emits (EncodeTo m) (wire m).
Proof. unfold EncodeTo, wire, encodable. solve_emits. Qed.
Lemma Tgetattr_refuses m : ~ encodable m -> refuses (EncodeTo m).
Proof. unfold EncodeTo, encodable. solve_refuses. Qed.
Lemma Tgetattr_decoder : decoder DecodeFrom wf wire.
Proof. unfold DecodeFrom, wf, wire. solve_decoder. Qed.
Lemma Tgetattr_wf_encodable m : wf m -> encodable m.
Proof. unfold wf, encodable. tauto. Qed.
End Tgetattr.

Module Rgetattr.
Record t : Type := mk { Attr : Attr.t }.
Definition zero : t := mk Attr.zero.
Definition Type_ (_ : t) : MessageType := TypeRgetattr.
Definition EncodeTo (m : t) : M Writer unit :=
  wrapf "encode rgetattr valid: %w" (WriteUint64 (Attr.Valid (Attr m)));;
  wrapf "encode rgetattr qid: %w" (WriteQID (Attr.QID (Attr m)));;
  wrapf "encode rgetattr mode: %w" (WriteUint32 (Attr.Mode (Attr m)));;
  wrapf "encode rgetattr uid: %w" (WriteUint32 (Attr.UID (Attr m)));;
  wrapf "encode rgetattr gid: %w" (WriteUint32 (Attr.GID (Attr m)));;
  wrapf "encode rgetattr nlink: %w" (WriteUint64 (Attr.NLink (Attr m)));;
  wrapf "encode rgetattr rdev: %w" (WriteUint64 (Attr.RDev (Attr m)));;
  wrapf "encode rgetattr size: %w" (WriteUint64 (Attr.Size (Attr m)));;
  wrapf "encode rgetattr blksize: %w" (WriteUint64 (Attr.BlkSize (Attr m)));;
  wrapf "encode rgetattr blocks: %w" (WriteUint64 (Attr.Blocks (Attr m)));;
  wrapf "encode rgetattr atime_sec: %w" (WriteUint64 (Attr.ATimeSec (Attr m)));;
  wrapf "encode rgetattr atime_nsec: %w" (WriteUint64 (Attr.ATimeNSec (Attr m)));;
  wrapf "encode rgetattr mtime_sec: %w" (WriteUint64 (Attr.MTimeSec (Attr m)));;
  wrapf "encode rgetattr mtime_nsec: %w" (WriteUint64 (Attr.MTimeNSec (Attr m)));;
  wrapf "encode rgetattr ctime_sec: %w" (WriteUint64 (Attr.CTimeSec (Attr m)));;
  wrapf "encode rgetattr ctime_nsec: %w" (WriteUint64 (Attr.CTimeNSec (Attr m)));;
  wrapf "encode rgetattr btime_sec: %w" (WriteUint64 (Attr.BTimeSec (Attr m)));;
  wrapf "encode rgetattr btime_nsec: %w" (WriteUint64 (Attr.BTimeNSec (Attr m)));;
  wrapf "encode rgetattr gen: %w" (WriteUint64 (Attr.Gen (Attr m)));;
  wrapf "encode rgetattr data_version: %w" (WriteUint64 (Attr.DataVersion (Attr m))).
Definition DecodeFrom : M Reader t :=
  Attr_Valid ← wrapf "decode rgetattr valid: %w" ReadUint64;
  Attr_QID ← wrapf "decode rgetattr qid: %w" ReadQID;
  Attr_Mode ← wrapf "decode rgetattr mode: %w" ReadUint32;
  Attr_UID ← wrapf "decode rgetattr uid: %w" ReadUint32;
  Attr_GID ← wrapf "decode rgetattr gid: %w" ReadUint32;
  Attr_NLink ← wrapf "decode rgetattr nlink: %w" ReadUint64;
  Attr_RDev ← wrapf "decode rgetattr rdev: %w" ReadUint64;
  Attr_Size ← wrapf "decode rgetattr size: %w" ReadUint64;
  Attr_BlkSize ← wrapf "decode rgetattr blksize: %w" ReadUint64;
  Attr_Blocks ← wrapf "decode rgetattr blocks: %w" ReadUint64;
  Attr_ATimeSec ← wrapf "decode rgetattr atime_sec: %w" ReadUint64;
  Attr_ATimeNSec ← wrapf "decode rgetattr atime_nsec: %w" ReadUint64;
  Attr_MTimeSec ← wrapf "decode rgetattr mtime_sec: %w" ReadUint64;
  Attr_MTimeNSec ← wrapf "decode rgetattr mtime_nsec: %w" ReadUint64;
  Attr_CTimeSec ← wrapf "decode rgetattr ctime_sec: %w" ReadUint64;
  Attr_CTimeNSec ← wrapf "decode rgetattr ctime_nsec: %w" ReadUint64;
  Attr_BTimeSec ← wrapf "decode rgetattr btime_sec: %w" ReadUint64;
  Attr_BTimeNSec ← wrapf "decode rgetattr btime_nsec: %w" ReadUint64;
  Attr_Gen ← wrapf "decode rgetattr gen: %w" ReadUint64;
  Attr_DataVersion ← wrapf "decode rgetattr data_version: %w" ReadUint64;
  mret (mk (Attr.mk Attr_Valid Attr_QID Attr_Mode Attr_UID Attr_GID Attr_NLink Attr_RDev
  Attr_Size Attr_BlkSize Attr_Blocks Attr_ATimeSec Attr_ATimeNSec Attr_MTimeSec Attr_MTimeNSec
  Attr_CTimeSec Attr_CTimeNSec Attr_BTimeSec Attr_BTimeNSec Attr_Gen Attr_DataVersion)).

Definition wire (m : t) : bytes :=
  le_bytes 8 (Attr.Valid (Attr m)) ++ wire_qid (Attr.QID (Attr m)) ++ le_bytes 4 (Attr.Mode
  (Attr m)) ++ le_bytes 4 (Attr.UID (Attr m)) ++ le_bytes 4 (Attr.GID (Attr m)) ++ le_bytes 8
  (Attr.NLink (Attr m)) ++ le_bytes 8 (Attr.RDev (Attr m)) ++ le_bytes 8 (Attr.Size (Attr m))
  ++ le_bytes 8 (Attr.BlkSize (Attr m)) ++ le_bytes 8 (Attr.Blocks (Attr m)) ++ le_bytes 8
  (Attr.ATimeSec (Attr m)) ++ le_bytes 8 (Attr.ATimeNSec (Attr m)) ++ le_bytes 8
  (Attr.MTimeSec (Attr m)) ++ le_bytes 8 (Attr.MTimeNSec (Attr m)) ++ le_bytes 8
  (Attr.CTimeSec (Attr m)) ++ le_bytes 8 (Attr.CTimeNSec (Attr m)) ++ le_bytes 8
  (Attr.BTimeSec (Attr m)) ++ le_bytes 8 (Attr.BTimeNSec (Attr m)) ++ le_bytes 8 (Attr.Gen
  (Attr m)) ++ le_bytes 8 (Attr.DataVersion (Attr m)).
Definition encodable (m : t) : Prop := True.
Definition wf (m : t) : Prop :=
  u64 (Attr.Valid (Attr m)) /\ QID.wf (Attr.QID (Attr m)) /\ u32 (Attr.Mode (Attr m)) /\ u32
  (Attr.UID (Attr m)) /\ u32 (Attr.GID (Attr m)) /\ u64 (Attr.NLink (Attr m)) /\ u64
  (Attr.RDev (Attr m)) /\ u64 (Attr.Size (Attr m)) /\ u64 (Attr.BlkSize (Attr m)) /\ u64
  (Attr.Blocks (Attr m)) /\ u64 (Attr.ATimeSec (Attr m)) /\ u64 (Attr.ATimeNSec (Attr m)) /\
  u64 (Attr.MTimeSec (Attr m)) /\ u64 (Attr.MTimeNSec (Attr m)) /\ u64 (Attr.CTimeSec (Attr
  m)) /\ u64 (Attr.CTimeNSec (Attr m)) /\ u64 (Attr.BTimeSec (Attr m)) /\ u64 (Attr.BTimeNSec
  (Attr m)) /\ u64 (Attr.Gen (Attr m)) /\ u64 (Attr.DataVersion (Attr m)).

#[export] Instance Rgetattr_encodable_dec m : Decision (encodable m).
Proof. unfold encodable. solve_wire_dec. Defined.
Lemma Rgetattr_emits m : encodable m -> emits (EncodeTo m) (wire m).
Proof. unfold EncodeTo, wire, encodable. solve_emits. Qed.
Lemma Rgetattr_refuses m : ~ encodable m -> refuses (EncodeTo m).
Proof. unfold EncodeTo, encodable. solve_refuses. Qed.
Lemma Rgetattr_decoder : decoder DecodeFrom wf wire.
Proof. unfold DecodeFrom, wf, wire. solve_decoder. Qed.
Lemma Rgetattr_wf_encodable m : wf m -> encodable m.
Proof. unfold wf, encodable. tauto. Qed.
End Rgetattr.

Module Tsetattr.
Record t : Type := mk { Fid : Types.Fid; Attr : SetAttr.t }.
Definition zero : t := mk 0 SetAttr.zero.
Definition Type_ (_ : t) : MessageType := TypeTsetattr.
Definition EncodeTo (m : t) : M Writer unit :=
  wrapf "encode tsetattr fid: %w" (WriteFid (Fid m));;
  wrapf "encode tsetattr valid: %w" (WriteUint32 (SetAttr.Valid (Attr m)));;
  wrapf "encode tsetattr mode: %w" (WriteUint32 (SetAttr.Mode (Attr m)));;
  wrapf "encode tsetattr uid: %w" (WriteUint32 (SetAttr.UID (Attr m)));;
  wrapf "encode tsetattr gid: %w" (WriteUint32 (SetAttr.GID (Attr m)));;
  wrapf "encode tsetattr size: %w" (WriteUint64 (SetAttr.Size (Attr m)));;
  wrapf "encode tsetattr atime_sec: %w" (WriteUint64 (SetAttr.ATimeSec (Attr m)));;
  wrapf "encode tsetattr atime_nsec: %w" (WriteUint64 (SetAttr.ATimeNSec (Attr m)));;
  wrapf "encode tsetattr mtime_sec: %w" (WriteUint64 (SetAttr.MTimeSec (Attr m)));;
  wrapf "encode tsetattr mtime_nsec: %w" (WriteUint64 (SetAttr.MTimeNSec (Attr m))).
Definition DecodeFrom : M Reader t :=
  Fid ← wrapf "decode tsetattr fid: %w" ReadFid;
  Attr_Valid ← wrapf "decode tsetattr valid: %w" ReadUint32;
  Attr_Mode ← wrapf "decode tsetattr mode: %w" ReadUint32;
  Attr_UID ← wrapf "decode tsetattr uid: %w" ReadUint32;
  Attr_GID ← wrapf "decode tsetattr gid: %w" ReadUint32;
  Attr_Size ← wrapf "decode tsetattr size: %w" ReadUint64;
  Attr_ATimeSec ← wrapf "decode tsetattr atime_sec: %w" ReadUint64;
  Attr_ATimeNSec ← wrapf "decode tsetattr atime_nsec: %w" ReadUint64;
  Attr_MTimeSec ← wrapf "decode tsetattr mtime_sec: %w" ReadUint64;
  Attr_MTimeNSec ← wrapf "decode tsetattr mtime_nsec: %w" ReadUint64;
  mret (mk Fid (SetAttr.mk Attr_Valid Attr_Mode Attr_UID Attr_GID Attr_Size Attr_ATimeSec
  Attr_ATimeNSec Attr_MTimeSec Attr_MTimeNSec)).

Definition wire (m : t) : bytes :=
  le_bytes 4 (Fid m) ++ le_bytes 4 (SetAttr.Valid (Attr m)) ++ le_bytes 4 (SetAttr.Mode (Attr
  m)) ++ le_bytes 4 (SetAttr.UID (Attr m)) ++ le_bytes 4 (SetAttr.GID (Attr m)) ++ le_bytes 8
  (SetAttr.Size (Attr m)) ++ le_bytes 8 (SetAttr.ATimeSec (Attr m)) ++ le_bytes 8
  (SetAttr.ATimeNSec (Attr m)) ++ le_bytes 8 (SetAttr.MTimeSec (Attr m)) ++ le_bytes 8
  (SetAttr.MTimeNSec (Attr m)).
Definition encodable (m : t) : Prop := True.
Definition wf (m : t) : Prop :=
  u32 (Fid m) /\ u32 (SetAttr.Valid (Attr m)) /\ u32 (SetAttr.Mode (Attr m)) /\ u32
  (SetAttr.UID (Attr m)) /\ u32 (SetAttr.GID (Attr m)) /\ u64 (SetAttr.Size (Attr m)) /\ u64
  (SetAttr.ATimeSec (Attr m)) /\ u64 (SetAttr.ATimeNSec (Attr m)) /\ u64 (SetAttr.MTimeSec
  (Attr m)) /\ u64 (SetAttr.MTimeNSec (Attr m)).

#[export] Instance Tsetattr_encodable_dec m : Decision (encodable m).
Proof. unfold encodable. solve_wire_dec. Defined.
Lemma Tsetattr_emits m : encodable m -> emits (EncodeTo m) (wire m).
Proof. unfold EncodeTo, wire, encodable. solve_emits. Qed.
Lemma Tsetattr_refuses m : ~ encodable m -> refuses (EncodeTo m).
Proof. unfold EncodeTo, encodable. solve_refuses. Qed.
Lemma Tsetattr_decoder : decoder DecodeFrom wf wire.
Proof. unfold DecodeFrom, wf, wire. solve_decoder. Qed.
Lemma Tsetattr_wf_encodable m : wf m -> encodable m.
Proof. unfold wf, encodable. tauto. Qed.
End Tsetattr.

Module Rsetattr.
Record t : Type := mk {}.
Definition zero : t := mk.
Definition Type_ (_ : t) : MessageType := TypeRsetattr.
Definition EncodeTo (_ : t) : M Writer unit := mret tt.
Definition DecodeFrom : M Reader t := mret mk.

Definition wire (_ : t) : bytes := [].
Definition encodable (_ : t) : Prop := True.
Definition wf (_ : t) : Prop := True.

#[export] Instance Rsetattr_encodable_dec m : Decision (encodable m).
Proof. unfold encodable. solve_wire_dec. Defined.
Lemma Rsetattr_emits m : encodable m -> emits (EncodeTo m) (wire m).
Proof. unfold EncodeTo, wire, encodable. solve_emits. Qed.
Lemma Rsetattr_refuses m : ~ encodable m -> refuses (EncodeTo m).
Proof. unfold EncodeTo, encodable. solve_refuses. Qed.
Lemma Rsetattr_decoder : decoder DecodeFrom wf wire.
Proof. unfold DecodeFrom, wf, wire. solve_decoder. Qed.
Lemma Rsetattr_wf_encodable m : wf m -> encodable m.
Proof. unfold wf, encodable. tauto. Qed.
End Rsetattr.

Module Txattrwalk.
Record t : Type := mk { Fid : Types.Fid; NewFid : Types.Fid; Name : string }.
Definition zero : t := mk 0 0 "".
Definition Type_ (_ : t) : MessageType := TypeTxattrwalk.
Definition EncodeTo (m : t) : M Writer unit :=
  wrapf "encode txattrwalk fid: %w" (WriteFid (Fid m));;
  wrapf "encode txattrwalk newfid: %w" (WriteFid (NewFid m));;
  wrapf "encode txattrwalk name: %w" (WriteString (Name m)).
Definition DecodeFrom : M Reader t :=
  Fid ← wrapf "decode txattrwalk fid: %w" ReadFid;
  NewFid ← wrapf "decode txattrwalk newfid: %w" ReadFid;
  Name ← wrapf "decode txattrwalk name: %w" ReadString;
  mret (mk Fid NewFid Name).

Definition wire (m : t) : bytes :=
  le_bytes 4 (Fid m) ++ le_bytes 4 (NewFid m) ++ wire_string (Name m).
Definition encodable (m : t) : Prop := str_ok (Name m).
Definition wf (m : t) : Prop :=
  u32 (Fid m) /\ u32 (NewFid m) /\ str_ok (Name m).

#[export] Instance Txattrwalk_encodable_dec m : Decision (encodable m).
Proof. unfold encodable. solve_wire_dec. Defined.
Lemma Txattrwalk_emits m : encodable m -> emits (EncodeTo m) (wire m).
Proof. unfold EncodeTo, wire, encodable. solve_emits. Qed.
Lemma Txattrwalk_refuses m : ~ encodable m -> refuses (EncodeTo m).
Proof. unfold EncodeTo, encodable. solve_refuses. Qed.
Lemma Txattrwalk_decoder : decoder DecodeFrom wf wire.
Proof. unfold DecodeFrom, wf, wire. solve_decoder. Qed.
Lemma Txattrwalk_wf_encodable m : wf m -> encodable m.
Proof. unfold wf, encodable. tauto. Qed.
End Txattrwalk.

Module Rxattrwalk.
Record t : Type := mk { Size : Z }.
Definition zero : t := mk 0.
Definition Type_ (_ : t) : MessageType := TypeRxattrwalk.
Definition EncodeTo (m : t) : M Writer unit :=
  wrapf "encode rxattrwalk size: %w" (WriteUint64 (Size m)).
Definition DecodeFrom : M Reader t :=
  Size ← wrapf "decode rxattrwalk size: %w" ReadUint64;
  mret (mk Size).

Definition wire (m : t) : bytes :=
  le_bytes 8 (Size m).
Definition encodable (m : t) : Prop := True.
Definition wf (m : t) : Prop :=
  u64 (Size m).

#[export] Instance Rxattrwalk_encodable_dec m : Decision (encodable m).
Proof. unfold encodable. solve_wire_dec. Defined.
Lemma Rxattrwalk_emits m : encodable m -> emits (EncodeTo m) (wire m).
Proof. unfold EncodeTo, wire, encodable. solve_emits. Qed.
Lemma Rxattrwalk_refuses m : ~ encodable m -> refuses (EncodeTo m).
Proof. unfold EncodeTo, encodable. solve_refuses. Qed.
Lemma Rxattrwalk_decoder : decoder DecodeFrom wf wire.
Proof. unfold DecodeFrom, wf, wire. solve_decoder. Qed.
Lemma Rxattrwalk_wf_encodable m : wf m -> encodable m.
Proof. unfold wf, encodable. tauto. Qed.
End Rxattrwalk.

Module Txattrcreate.
Record t : Type := mk { Fid : Types.Fid; Name : string; AttrSize : Z; Flags : Z }.
Definition zero : t := mk 0 "" 0 0.
Definition Type_ (_ : t) : MessageType := TypeTxattrcreate.
Definition EncodeTo (m : t) : M Writer unit :=
  wrapf "encode txattrcreate fid: %w" (WriteFid (Fid m));;
  wrapf "encode txattrcreate name: %w" (WriteString (Name m));;
  wrapf "encode txattrcreate attr_size: %w" (WriteUint64 (AttrSize m));;
  wrapf "encode txattrcreate flags: %w" (WriteUint32 (Flags m)).
Definition DecodeFrom : M Reader t :=
  Fid ← wrapf "decode txattrcreate fid: %w" ReadFid;
  Name ← wrapf "decode txattrcreate name: %w" ReadString;
  AttrSize ← wrapf "decode txattrcreate attr_size: %w" ReadUint64;
  Flags ← wrapf "decode txattrcreate flags: %w" ReadUint32;
  mret (mk Fid Name AttrSize Flags).

Definition wire (m : t) : bytes :=
  le_bytes 4 (Fid m) ++ wire_string (Name m) ++ le_bytes 8 (AttrSize m) ++ le_bytes 4 (Flags m).
Definition encodable (m : t) : Prop := str_ok (Name m).
Definition wf (m : t) : Prop :=
  u32 (Fid m) /\ str_ok (Name m) /\ u64 (AttrSize m) /\ u32 (Flags m).

#[export] Instance Txattrcreate_encodable_dec m : Decision (encodable m).
Proof. unfold encodable. solve_wire_dec. Defined.
Lemma Txattrcreate_emits m : encodable m -> emits (EncodeTo m) (wire m).
Proof. unfold EncodeTo, wire, encodable. solve_emits. Qed.
Lemma Txattrcreate_refuses m : ~ encodable m -> refuses (EncodeTo m).
Proof. unfold EncodeTo, encodable. solve_refuses. Qed.
Lemma Txattrcreate_decoder : decoder DecodeFrom wf wire.
Proof. unfold DecodeFrom, wf, wire. solve_decoder. Qed.
Lemma Txattrcreate_wf_encodable m : wf m -> encodable m.
Proof. unfold wf, encodable. tauto. Qed.
End Txattrcreate.

Module Rxattrcreate.
Record t : Type := mk {}.
Definition zero : t := mk.
Definition Type_ (_ : t) : MessageType := TypeRxattrcreate.
Definition EncodeTo (_ : t) : M Writer unit := mret tt.
Definition DecodeFrom : M Reader t := mret mk.

Definition wire (_ : t) : bytes := [].
Definition encodable (_ : t) : Prop := True.
Definition wf (_ : t) : Prop := True.

#[export] Instance Rxattrcreate_encodable_dec m : Decision (encodable m).
Proof. unfold encodable. solve_wire_dec. Defined.
Lemma Rxattrcreate_emits m : encodable m -> emits (EncodeTo m) (wire m).
Proof. unfold EncodeTo, wire, encodable. solve_emits. Qed.
Lemma Rxattrcreate_refuses m : ~ encodable m -> refuses (EncodeTo m).
Proof. unfold EncodeTo, encodable. solve_refuses. Qed.
Lemma Rxattrcreate_decoder : decoder DecodeFrom wf wire.
Proof. unfold DecodeFrom, wf, wire. solve_decoder. Qed.
Lemma Rxattrcreate_wf_encodable m : wf m -> encodable m.
Proof. unfold wf, encodable. tauto. Qed.
End Rxattrcreate.

Module Treaddir.
Record t : Type := mk { Fid : Types.Fid; Offset : Z; Count : Z }.
Definition zero : t := mk 0 0 0.
Definition Type_ (_ : t) : MessageType := TypeTreaddir.
Definition EncodeTo (m : t) : M Writer unit :=
  wrapf "encode treaddir fid: %w" (WriteFid (Fid m));;
  wrapf "encode treaddir offset: %w" (WriteUint64 (Offset m));;
  wrapf "encode treaddir count: %w" (WriteUint32 (Count m)).
Definition DecodeFrom : M Reader t :=
  Fid ← wrapf "decode treaddir fid: %w" ReadFid;
  Offset ← wrapf "decode treaddir offset: %w" ReadUint64;
  Count ← wrapf "decode treaddir count: %w" ReadUint32;
  mret (mk Fid Offset Count).

Definition wire (m : t) : bytes :=
  le_bytes 4 (Fid m) ++ le_bytes 8 (Offset m) ++ le_bytes 4 (Count m).
Definition encodable (m : t) : Prop := True.
Definition wf (m : t) : Prop :=
  u32 (Fid m) /\ u64 (Offset m) /\ u32 (Count m).

#[export] Instance Treaddir_encodable_dec m : Decision (encodable m).
Proof. unfold encodable. solve_wire_dec. Defined.
Lemma Treaddir_emits m : encodable m -> emits (EncodeTo m) (wire m).
Proof. unfold EncodeTo, wire, encodable. solve_emits. Qed.
Lemma Treaddir_refuses m : ~ encodable m -> refuses (EncodeTo m).
Proof. unfold EncodeTo, encodable. solve_refuses. Qed.
Lemma Treaddir_decoder : decoder DecodeFrom wf wire.
Proof. unfold DecodeFrom, wf, wire. solve_decoder. Qed.
Lemma Treaddir_wf_encodable m : wf m -> encodable m.
Proof. unfold wf, encodable. tauto. Qed.
End Treaddir.

Module Rreaddir.
Record t : Type := mk { Data : bytes }.
Definition zero : t := mk [].
Definition Type_ (_ : t) : MessageType := TypeRreaddir.
Definition EncodeFixed (m : t) : M Writer unit :=
  let n := Z.of_nat (length (Data m)) in
  if MaxDataSize <? n
  then throw (Errorf "encode rreaddir count %d exceeds maximum %d" [n; MaxDataSize])
  else WriteUint32 (uint_wrap 32 n).
Definition Payload (m : t) : bytes := Data m.
Definition EncodeTo (m : t) : M Writer unit :=
  EncodeFixed m;;
  if 0 <? Z.of_nat (length (Data m))
  then wrapf "encode rreaddir data: %w" (Write (Data m)) else mret tt.
Definition DecodeFrom : M Reader t :=
  count ← wrapf "decode rreaddir count: %w" ReadUint32;
  if MaxDataSize <? count
  then throw (Errorf "decode rreaddir count %d exceeds maximum %d" [count; MaxDataSize]) else
  Data ← wrapf "decode rreaddir data: %w" (ReadData count);
  mret (mk Data).

Definition wire (m : t) : bytes := wire_data (Data m).
Definition encodable (m : t) : Prop := data_ok (Data m).
Definition wf (m : t) : Prop := encodable m.

#[export] Instance Rreaddir_encodable_dec m : Decision (encodable m).
Proof. unfold encodable, data_ok. apply _. Defined.
Lemma Rreaddir_fixed_emits m :
  encodable m -> emits (EncodeFixed m) (le_bytes 4 (Z.of_nat (length (Data m)))).
Proof. intros H. by apply data_count_emits. Qed.
Lemma Rreaddir_emits m : encodable m -> emits (EncodeTo m) (wire m).
Proof.
  intros H. unfold EncodeTo, wire, wire_data.
  apply bind_emits; [by apply Rreaddir_fixed_emits|apply data_tail_emits].
Qed.
Lemma Rreaddir_refuses m : ~ encodable m -> refuses (EncodeTo m).
Proof. intros H. apply bind_refuses_l. by apply data_count_refuses. Qed.
Lemma Rreaddir_decoder : decoder DecodeFrom wf wire.
Proof. unfold DecodeFrom. eapply data_decoder; done || by intros []. Qed.
Lemma Rreaddir_wf_encodable m : wf m -> encodable m.
Proof. done. Qed.
End Rreaddir.

Module Tfsync.
Record t : Type := mk { Fid : Types.Fid; DataSync : Z }.
Definition zero : t := mk 0 0.
Definition Type_ (_ : t) : MessageType := TypeTfsync.
Definition EncodeTo (m : t) : M Writer unit :=
  wrapf "encode tfsync fid: %w" (WriteFid (Fid m));;
  wrapf "encode tfsync datasync: %w" (WriteUint32 (DataSync m)).
Definition DecodeFrom : M Reader t :=
  Fid ← wrapf "decode tfsync fid: %w" ReadFid;
  DataSync ← wrapf "decode tfsync datasync: %w" ReadUint32;
  mret (mk Fid DataSync).

Definition wire (m : t) : bytes :=
  le_bytes 4 (Fid m) ++ le_bytes 4 (DataSync m).
Definition encodable (m : t) : Prop := True.
Definition wf (m : t) : Prop :=
  u32 (Fid m) /\ u32 (DataSync m).

#[export] Instance Tfsync_encodable_dec m : Decision (encodable m).
Proof. unfold encodable. solve_wire_dec. Defined.
Lemma Tfsync_emits m : encodable m -> emits (EncodeTo m) (wire m).
Proof. unfold EncodeTo, wire, encodable. solve_emits. Qed.
Lemma Tfsync_refuses m : ~ encodable m -> refuses (EncodeTo m).
Proof. unfold EncodeTo, encodable. solve_refuses. Qed.
Lemma Tfsync_decoder : decoder DecodeFrom wf wire.
Proof. unfold DecodeFrom, wf, wire. solve_decoder. Qed.
Lemma Tfsync_wf_encodable m : wf m -> encodable m.
Proof. unfold wf, encodable. tauto. Qed.
End Tfsync.

Module Rfsync.
Record t : Type := mk {}.
Definition zero : t := mk.
Definition Type_ (_ : t) : MessageType := TypeRfsync.
Definition EncodeTo (_ : t) : M Writer unit := mret tt.
Definition DecodeFrom : M Reader t := mret mk.

Definition wire (_ : t) : bytes := [].
Definition encodable (_ : t) : Prop := True.
Definition wf (_ : t) : Prop := True.

#[export] Instance Rfsync_encodable_dec m : Decision (encodable m).
Proof. unfold encodable. solve_wire_dec. Defined.
Lemma Rfsync_emits m : encodable m -> emits (EncodeTo m) (wire m).
Proof. unfold EncodeTo, wire, encodable. solve_emits. Qed.
Lemma Rfsync_refuses m : ~ encodable m -> refuses (EncodeTo m).
Proof. unfold EncodeTo, encodable. solve_refuses. Qed.
Lemma Rfsync_decoder : decoder DecodeFrom wf wire.
Proof. unfold DecodeFrom, wf, wire. solve_decoder. Qed.
Lemma Rfsync_wf_encodable m : wf m -> encodable m.
Proof. unfold wf, encodable. tauto. Qed.
End Rfsync.

Module Tlock.
Record t : Type := mk { Fid : Types.Fid; LockType : LockType; Flags : LockFlags; Start : Z;
  Length : Z; ProcID : Z; ClientID : string }.
Definition zero : t := mk 0 0 0 0 0 0 "".
Definition Type_ (_ : t) : MessageType := TypeTlock.
Definition EncodeTo (m : t) : M Writer unit :=
  wrapf "encode tlock fid: %w" (WriteFid (Fid m));;
  wrapf "encode tlock type: %w" (WriteUint8 (LockType m));;
  wrapf "encode tlock flags: %w" (WriteUint32 (Flags m));;
  wrapf "encode tlock start: %w" (WriteUint64 (Start m));;
  wrapf "encode tlock length: %w" (WriteUint64 (Length m));;
  wrapf "encode tlock proc_id: %w" (WriteUint32 (ProcID m));;
  wrapf "encode tlock client_id: %w" (WriteString (ClientID m)).
Definition DecodeFrom : M Reader t :=
  Fid ← wrapf "decode tlock fid: %w" ReadFid;
  LockType ← wrapf "decode tlock type: %w" ReadUint8;
  if LockTypeUnlck <? LockType then throw (Errorf "decode tlock type: invalid lock type %d" [LockType]) else
  Flags ← wrapf "decode tlock flags: %w" ReadUint32;
  if negb (Z.ldiff Flags (Z.lor LockFlagBlock LockFlagReclaim) =? 0)
  then throw (Errorf "decode tlock flags: invalid flags %#x" [Flags]) else
  Start ← wrapf "decode tlock start: %w" ReadUint64;
  Length ← wrapf "decode tlock length: %w" ReadUint64;
  ProcID ← wrapf "decode tlock proc_id: %w" ReadUint32;
  ClientID ← wrapf "decode tlock client_id: %w" ReadString;
  mret (mk Fid LockType Flags Start Length ProcID ClientID).

Definition wire (m : t) : bytes :=
  le_bytes 4 (Fid m) ++ le_bytes 1 (LockType m) ++ le_bytes 4 (Flags m) ++ le_bytes 8 (Start
  m) ++ le_bytes 8 (Length m) ++ le_bytes 4 (ProcID m) ++ wire_string (ClientID m).
Definition encodable (m : t) : Prop := str_ok (ClientID m).
Definition wf (m : t) : Prop :=
  u32 (Fid m) /\ u8 (LockType m) /\ (LockType m) <= LockTypeUnlck /\ u32 (Flags m) /\ Z.ldiff
  (Flags m) (Z.lor LockFlagBlock LockFlagReclaim) = 0 /\ u64 (Start m) /\ u64 (Length m) /\
  u32 (ProcID m) /\ str_ok (ClientID m).

#[export] Instance Tlock_encodable_dec m : Decision (encodable m).
Proof. unfold encodable. solve_wire_dec. Defined.
Lemma Tlock_emits m : encodable m -> emits (EncodeTo m) (wire m).
Proof. unfold EncodeTo, wire, encodable. solve_emits. Qed.
Lemma Tlock_refuses m : ~ encodable m -> refuses (EncodeTo m).
Proof. unfold EncodeTo, encodable. solve_refuses. Qed.
Lemma Tlock_decoder : decoder DecodeFrom wf wire.
Proof. unfold DecodeFrom, wf, wire. solve_decoder. Qed.
Lemma Tlock_wf_encodable m : wf m -> encodable m.
Proof. unfold wf, encodable. tauto. Qed.
End Tlock.

Module Rlock.
Record t : Type := mk { Status : LockStatus }.
Definition zero : t := mk 0.
Definition Type_ (_ : t) : MessageType := TypeRlock.
Definition EncodeTo (m : t) : M Writer unit :=
  wrapf "encode rlock status: %w" (WriteUint8 (Status m)).
Definition DecodeFrom : M Reader t :=
  Status ← wrapf "decode rlock status: %w" ReadUint8;
  if LockStatusGrace <? Status then throw (Errorf "decode rlock status: invalid lock status %d" [Status]) else
  mret (mk Status).

Definition wire (m : t) : bytes :=
  le_bytes 1 (Status m).
Definition encodable (m : t) : Prop := True.
Definition wf (m : t) : Prop :=
  u8 (Status m) /\ (Status m) <= LockStatusGrace.

#[export] Instance Rlock_encodable_dec m : Decision (encodable m).
Proof. unfold encodable. solve_wire_dec. Defined.
Lemma Rlock_emits m : encodable m -> emits (EncodeTo m) (wire m).
Proof. unfold EncodeTo, wire, encodable. solve_emits. Qed.
Lemma Rlock_refuses m : ~ encodable m -> refuses (EncodeTo m).
Proof. unfold EncodeTo, encodable. solve_refuses. Qed.
Lemma Rlock_decoder : decoder DecodeFrom wf wire.
Proof. unfold DecodeFrom, wf, wire. solve_decoder. Qed.
Lemma Rlock_wf_encodable m : wf m -> encodable m.
Proof. unfold wf, encodable. tauto. Qed.
End Rlock.

Module Tgetlock.
Record t : Type := mk { Fid : Types.Fid; LockType : LockType; Start : Z; Length : Z; ProcID :
  Z; ClientID : string }.
Definition zero : t := mk 0 0 0 0 0 "".
Definition Type_ (_ : t) : MessageType := TypeTgetlock.
Definition EncodeTo (m : t) : M Writer unit :=
  wrapf "encode tgetlock fid: %w" (WriteFid (Fid m));;
  wrapf "encode tgetlock type: %w" (WriteUint8 (LockType m));;
  wrapf "encode tgetlock start: %w" (WriteUint64 (Start m));;
  wrapf "encode tgetlock length: %w" (WriteUint64 (Length m));;
  wrapf "encode tgetlock proc_id: %w" (WriteUint32 (ProcID m));;
  wrapf "encode tgetlock client_id: %w" (WriteString (ClientID m)).
Definition DecodeFrom : M Reader t :=
  Fid ← wrapf "decode tgetlock fid: %w" ReadFid;
  LockType ← wrapf "decode tgetlock type: %w" ReadUint8;
  if LockTypeUnlck <? LockType then throw (Errorf "decode tgetlock type: invalid lock type %d" [LockType]) else
  Start ← wrapf "decode tgetlock start: %w" ReadUint64;
  Length ← wrapf "decode tgetlock length: %w" ReadUint64;
  ProcID ← wrapf "decode tgetlock proc_id: %w" ReadUint32;
  ClientID ← wrapf "decode tgetlock client_id: %w" ReadString;
  mret (mk Fid LockType Start Length ProcID ClientID).

Definition wire (m : t) : bytes :=
  le_bytes 4 (Fid m) ++ le_bytes 1 (LockType m) ++ le_bytes 8 (Start m) ++ le_bytes 8 (Length
  m) ++ le_bytes 4 (ProcID m) ++ wire_string (ClientID m).
Definition encodable (m : t) : Prop := str_ok (ClientID m).
Definition wf (m : t) : Prop :=
  u32 (Fid m) /\ u8 (LockType m) /\ (LockType m) <= LockTypeUnlck /\ u64 (Start m) /\ u64
  (Length m) /\ u32 (ProcID m) /\ str_ok (ClientID m).

#[export] Instance Tgetlock_encodable_dec m : Decision (encodable m).
Proof. unfold encodable. solve_wire_dec. Defined.
Lemma Tgetlock_emits m : encodable m -> emits (EncodeTo m) (wire m).
Proof. unfold EncodeTo, wire, encodable. solve_emits. Qed.
Lemma Tgetlock_refuses m : ~ encodable m -> refuses (EncodeTo m).
Proof. unfold EncodeTo, encodable. solve_refuses. Qed.
Lemma Tgetlock_decoder : decoder DecodeFrom wf wire.
Proof. unfold DecodeFrom, wf, wire. solve_decoder. Qed.
Lemma Tgetlock_wf_encodable m : wf m -> encodable m.
Proof. unfold wf, encodable. tauto. Qed.
End Tgetlock.

Module Rgetlock.
Record t : Type := mk { LockType : LockType; Start : Z; Length : Z; ProcID : Z; ClientID :
  string }.
Definition zero : t := mk 0 0 0 0 "".
Definition Type_ (_ : t) : MessageType := TypeRgetlock.
Definition EncodeTo (m : t) : M Writer unit :=
  wrapf "encode rgetlock type: %w" (WriteUint8 (LockType m));;
  wrapf "encode rgetlock start: %w" (WriteUint64 (Start m));;
  wrapf "encode rgetlock length: %w" (WriteUint64 (Length m));;
  wrapf "encode rgetlock proc_id: %w" (WriteUint32 (ProcID m));;
  wrapf "encode rgetlock client_id: %w" (WriteString (ClientID m)).
Definition DecodeFrom : M Reader t :=
  LockType ← wrapf "decode rgetlock type: %w" ReadUint8;
  if LockTypeUnlck <? LockType then throw (Errorf "decode rgetlock type: invalid lock type %d" [LockType]) else
  Start ← wrapf "decode rgetlock start: %w" ReadUint64;
  Length ← wrapf "decode rgetlock length: %w" ReadUint64;
  ProcID ← wrapf "decode rgetlock proc_id: %w" ReadUint32;
  ClientID ← wrapf "decode rgetlock client_id: %w" ReadString;
  mret (mk LockType Start Length ProcID ClientID).

Definition wire (m : t) : bytes :=
  le_bytes 1 (LockType m) ++ le_bytes 8 (Start m) ++ le_bytes 8 (Length m) ++ le_bytes 4
  (ProcID m) ++ wire_string (ClientID m).
Definition encodable (m : t) : Prop := str_ok (ClientID m).
Definition wf (m : t) : Prop :=
  u8 (LockType m) /\ (LockType m) <= LockTypeUnlck /\ u64 (Start m) /\ u64 (Length m) /\ u32
  (ProcID m) /\ str_ok (ClientID m).

#[export] Instance Rgetlock_encodable_dec m : Decision (encodable m).
Proof. unfold encodable. solve_wire_dec. Defined.
Lemma Rgetlock_emits m : encodable m -> emits (EncodeTo m) (wire m).
Proof. unfold EncodeTo, wire, encodable. solve_emits. Qed.
Lemma Rgetlock_refuses m : ~ encodable m -> refuses (EncodeTo m).
Proof. unfold EncodeTo, encodable. solve_refuses. Qed.
Lemma Rgetlock_decoder : decoder DecodeFrom wf wire.
Proof. unfold DecodeFrom, wf, wire. solve_decoder. Qed.
Lemma Rgetlock_wf_encodable m : wf m -> encodable m.
Proof. unfold wf, encodable. tauto. Qed.
End Rgetlock.

Module Tlink.
Record t : Type := mk { DirFid : Types.Fid; Fid : Types.Fid; Name : string }.
Definition zero : t := mk 0 0 "".
Definition Type_ (_ : t) : MessageType := TypeTlink.
Definition EncodeTo (m : t) : M Writer unit :=
  wrapf "encode tlink dirfid: %w" (WriteFid (DirFid m));;
  wrapf "encode tlink fid: %w" (WriteFid (Fid m));;
  wrapf "encode tlink name: %w" (WriteString (Name m)).
Definition DecodeFrom : M Reader t :=
  DirFid ← wrapf "decode tlink dirfid: %w" ReadFid;
  Fid ← wrapf "decode tlink fid: %w" ReadFid;
  Name ← wrapf "decode tlink name: %w" ReadString;
  mret (mk DirFid Fid Name).

Definition wire (m : t) : bytes :=
  le_bytes 4 (DirFid m) ++ le_bytes 4 (Fid m) ++ wire_string (Name m).
Definition encodable (m : t) : Prop := str_ok (Name m).
Definition wf (m : t) : Prop :=
  u32 (DirFid m) /\ u32 (Fid m) /\ str_ok (Name m).

#[export] Instance Tlink_encodable_dec m : Decision (encodable m).
Proof. unfold encodable. solve_wire_dec. Defined.
Lemma Tlink_emits m : encodable m -> emits (EncodeTo m) (wire m).
Proof. unfold EncodeTo, wire, encodable. solve_emits. Qed.
Lemma Tlink_refuses m : ~ encodable m -> refuses (EncodeTo m).
Proof. unfold EncodeTo, encodable. solve_refuses. Qed.
Lemma Tlink_decoder : decoder DecodeFrom wf wire.
Proof. unfold DecodeFrom, wf, wire. solve_decoder. Qed.
Lemma Tlink_wf_encodable m : wf m -> encodable m.
Proof. unfold wf, encodable. tauto. Qed.
End Tlink.

Module Rlink.
Record t : Type := mk {}.
Definition zero : t := mk.
Definition Type_ (_ : t) : MessageType := TypeRlink.
Definition EncodeTo (_ : t) : M Writer unit := mret tt.
Definition DecodeFrom : M Reader t := mret mk.

Definition wire (_ : t) : bytes := [].
Definition encodable (_ : t) : Prop := True.
Definition wf (_ : t) : Prop := True.

#[export] Instance Rlink_encodable_dec m : Decision (encodable m).
Proof. unfold encodable. solve_wire_dec. Defined.
Lemma Rlink_emits m : encodable m -> emits (EncodeTo m) (wire m).
Proof. unfold EncodeTo, wire, encodable. solve_emits. Qed.
Lemma Rlink_refuses m : ~ encodable m -> refuses (EncodeTo m).
Proof. unfold EncodeTo, encodable. solve_refuses. Qed.
Lemma Rlink_decoder : decoder DecodeFrom wf wire.
Proof. unfold DecodeFrom, wf, wire. solve_decoder. Qed.
Lemma Rlink_wf_encodable m : wf m -> encodable m.
Proof. unfold wf, encodable. tauto. Qed.
End Rlink.

Module Tmkdir.
Record t : Type := mk { DirFid : Types.Fid; Name : string; Mode : FileMode; GID : Z }.
Definition zero : t := mk 0 "" 0 0.
Definition Type_ (_ : t) : MessageType := TypeTmkdir.
Definition EncodeTo (m : t) : M Writer unit :=
  wrapf "encode tmkdir dirfid: %w" (WriteFid (DirFid m));;
  wrapf "encode tmkdir name: %w" (WriteString (Name m));;
  wrapf "encode tmkdir mode: %w" (WriteUint32 (Mode m));;
  wrapf "encode tmkdir gid: %w" (WriteUint32 (GID m)).
Definition DecodeFrom : M Reader t :=
  DirFid ← wrapf "decode tmkdir dirfid: %w" ReadFid;
  Name ← wrapf "decode tmkdir name: %w" ReadString;
  Mode ← wrapf "decode tmkdir mode: %w" ReadUint32;
  GID ← wrapf "decode tmkdir gid: %w" ReadUint32;
  mret (mk DirFid Name Mode GID).

Definition wire (m : t) : bytes :=
  le_bytes 4 (DirFid m) ++ wire_string (Name m) ++ le_bytes 4 (Mode m) ++ le_bytes 4 (GID m).
Definition encodable (m : t) : Prop := str_ok (Name m).
Definition wf (m : t) : Prop :=
  u32 (DirFid m) /\ str_ok (Name m) /\ u32 (Mode m) /\ u32 (GID m).

#[export] Instance Tmkdir_encodable_dec m : Decision (encodable m).
Proof. unfold encodable. solve_wire_dec. Defined.
Lemma Tmkdir_emits m : encodable m -> emits (EncodeTo m) (wire m).
Proof. unfold EncodeTo, wire, encodable. solve_emits. Qed.
Lemma Tmkdir_refuses m : ~ encodable m -> refuses (EncodeTo m).
Proof. unfold EncodeTo, encodable. solve_refuses. Qed.
Lemma Tmkdir_decoder : decoder DecodeFrom wf wire.
Proof. unfold DecodeFrom, wf, wire. solve_decoder. Qed.
Lemma Tmkdir_wf_encodable m : wf m -> encodable m.
Proof. unfold wf, encodable. tauto. Qed.
End Tmkdir.

Module Rmkdir.
Record t : Type := mk { QID : QID.t }.
Definition zero : t := mk QID.zero.
Definition Type_ (_ : t) : MessageType := TypeRmkdir.
Definition EncodeTo (m : t) : M Writer unit :=
  wrapf "encode rmkdir qid: %w" (WriteQID (QID m)).
Definition DecodeFrom : M Reader t :=
  QID ← wrapf "decode rmkdir qid: %w" ReadQID;
  mret (mk QID).

Definition wire (m : t) : bytes :=
  wire_qid (QID m).
Definition encodable (m : t) : Prop := True.
Definition wf (m : t) : Prop :=
  QID.wf (QID m).

#[export] Instance Rmkdir_encodable_dec m : Decision (encodable m).
Proof. unfold encodable. solve_wire_dec. Defined.
Lemma Rmkdir_emits m : encodable m -> emits (EncodeTo m) (wire m).
Proof. unfold EncodeTo, wire, encodable. solve_emits. Qed.
Lemma Rmkdir_refuses m : ~ encodable m -> refuses (EncodeTo m).
Proof. unfold EncodeTo, encodable. solve_refuses. Qed.
Lemma Rmkdir_decoder : decoder DecodeFrom wf wire.
Proof. unfold DecodeFrom, wf, wire. solve_decoder. Qed.
Lemma Rmkdir_wf_encodable m : wf m -> encodable m.
Proof. unfold wf, encodable. tauto. Qed.
End Rmkdir.

Module Trenameat.
Record t : Type := mk { OldDirFid : Types.Fid; OldName : string; NewDirFid : Types.Fid;
  NewName : string }.
Definition zero : t := mk 0 "" 0 "".
Definition Type_ (_ : t) : MessageType := TypeTrenameat.
Definition EncodeTo (m : t) : M Writer unit :=
  wrapf "encode trenameat olddirfid: %w" (WriteFid (OldDirFid m));;
  wrapf "encode trenameat oldname: %w" (WriteString (OldName m));;
  wrapf "encode trenameat newdirfid: %w" (WriteFid (NewDirFid m));;
  wrapf "encode trenameat newname: %w" (WriteString (NewName m)).
Definition DecodeFrom : M Reader t :=
  OldDirFid ← wrapf "decode trenameat olddirfid: %w" ReadFid;
  OldName ← wrapf "decode trenameat oldname: %w" ReadString;
  NewDirFid ← wrapf "decode trenameat newdirfid: %w" ReadFid;
  NewName ← wrapf "decode trenameat newname: %w" ReadString;
  mret (mk OldDirFid OldName NewDirFid NewName).

Definition wire (m : t) : bytes :=
  le_bytes 4 (OldDirFid m) ++ wire_string (OldName m) ++ le_bytes 4 (NewDirFid m) ++
  wire_string (NewName m).
Definition encodable (m : t) : Prop := str_ok (OldName m) /\ str_ok (NewName m).
Definition wf (m : t) : Prop :=
  u32 (OldDirFid m) /\ str_ok (OldName m) /\ u32 (NewDirFid m) /\ str_ok (NewName m).

#[export] Instance Trenameat_encodable_dec m : Decision (encodable m).
Proof. unfold encodable. solve_wire_dec. Defined.
Lemma Trenameat_emits m : encodable m -> emits (EncodeTo m) (wire m).
Proof. unfold EncodeTo, wire, encodable. solve_emits. Qed.
Lemma Trenameat_refuses m : ~ encodable m -> refuses (EncodeTo m).
Proof. unfold EncodeTo, encodable. solve_refuses. Qed.
Lemma Trenameat_decoder : decoder DecodeFrom wf wire.
Proof. unfold DecodeFrom, wf, wire. solve_decoder. Qed.
Lemma Trenameat_wf_encodable m : wf m -> encodable m.
Proof. unfold wf, encodable. tauto. Qed.
End Trenameat.

Module Rrenameat.
Record t : Type := mk {}.
Definition zero : t := mk.
Definition Type_ (_ : t) : MessageType := TypeRrenameat.
Definition EncodeTo (_ : t) : M Writer unit := mret tt.
Definition DecodeFrom : M Reader t := mret mk.

Definition wire (_ : t) : bytes := [].
Definition encodable (_ : t) : Prop := True.
Definition wf (_ : t) : Prop := True.

#[export] Instance Rrenameat_encodable_dec m : Decision (encodable m).
Proof. unfold encodable. solve_wire_dec. Defined.
Lemma Rrenameat_emits m : encodable m -> emits (EncodeTo m) (wire m).
Proof. unfold EncodeTo, wire, encodable. solve_emits. Qed.
Lemma Rrenameat_refuses m : ~ encodable m -> refuses (EncodeTo m).
Proof. unfold EncodeTo, encodable. solve_refuses. Qed.
Lemma Rrenameat_decoder : decoder DecodeFrom wf wire.
Proof. unfold DecodeFrom, wf, wire. solve_decoder. Qed.
Lemma Rrenameat_wf_encodable m : wf m -> encodable m.
Proof. unfold wf, encodable. tauto. Qed.
End Rrenameat.

Module Tunlinkat.
Record t : Type := mk { DirFid : Types.Fid; Name : string; Flags : Z }.
Definition zero : t := mk 0 "" 0.
Definition Type_ (_ : t) : MessageType := TypeTunlinkat.
Definition EncodeTo (m : t) : M Writer unit :=
  wrapf "encode tunlinkat dirfid: %w" (WriteFid (DirFid m));;
  wrapf "encode tunlinkat name: %w" (WriteString (Name m));;
  wrapf "encode tunlinkat flags: %w" (WriteUint32 (Flags m)).
Definition DecodeFrom : M Reader t :=
  DirFid ← wrapf "decode tunlinkat dirfid: %w" ReadFid;
  Name ← wrapf "decode tunlinkat name: %w" ReadString;
  Flags ← wrapf "decode tunlinkat flags: %w" ReadUint32;
  mret (mk DirFid Name Flags).

Definition wire (m : t) : bytes :=
  le_bytes 4 (DirFid m) ++ wire_string (Name m) ++ le_bytes 4 (Flags m).
Definition encodable (m : t) : Prop := str_ok (Name m).
Definition wf (m : t) : Prop :=
  u32 (DirFid m) /\ str_ok (Name m) /\ u32 (Flags m).

#[export] Instance Tunlinkat_encodable_dec m : Decision (encodable m).
Proof. unfold encodable. solve_wire_dec. Defined.
Lemma Tunlinkat_emits m : encodable m -> emits (EncodeTo m) (wire m).
Proof. unfold EncodeTo, wire, encodable. solve_emits. Qed.
Lemma Tunlinkat_refuses m : ~ encodable m -> refuses (EncodeTo m).
Proof. unfold EncodeTo, encodable. solve_refuses. Qed.
Lemma Tunlinkat_decoder : decoder DecodeFrom wf wire.
Proof. unfold DecodeFrom, wf, wire. solve_decoder. Qed.
Lemma Tunlinkat_wf_encodable m : wf m -> encodable m.
Proof. unfold wf, encodable. tauto. Qed.
End Tunlinkat.

Module Runlinkat.
Record t : Type := mk {}.
Definition zero : t := mk.
Definition Type_ (_ : t) : MessageType := TypeRunlinkat.
Definition EncodeTo (_ : t) : M Writer unit := mret tt.
Definition DecodeFrom : M Reader t := mret mk.

Definition wire (_ : t) : bytes := [].
Definition encodable (_ : t) : Prop := True.
Definition wf (_ : t) : Prop := True.

#[export] Instance Runlinkat_encodable_dec m : Decision (encodable m).
Proof. unfold encodable. solve_wire_dec. Defined.
Lemma Runlinkat_emits m : encodable m -> emits (EncodeTo m) (wire m).
Proof. unfold EncodeTo, wire, encodable. solve_emits. Qed.
Lemma Runlinkat_refuses m : ~ encodable m -> refuses (EncodeTo m).
Proof. unfold EncodeTo, encodable. solve_refuses. Qed.
Lemma Runlinkat_decoder : decoder DecodeFrom wf wire.
Proof. unfold DecodeFrom, wf, wire. solve_decoder. Qed.
Lemma Runlinkat_wf_encodable m : wf m -> encodable m.
Proof. unfold wf, encodable. tauto. Qed.
End Runlinkat.

