(* ===== verification/P9u.v ===== *)
(** * 9P2000.u messages

    [proto/p9u/messages.go]: the Unix dialect's messages and its [Stat]
    structure, whose codec bounds every nested read by the declared size with
    an [io.LimitedReader] and rejects a size that overstates the content.

    [Rstat] and [Twstat] prefix the stat with [nstat], the [uint16] sum of
    two and the stat's size; the addition wraps when the size exceeds 65533,
    which separates [encodable] (the encoder succeeds) from [wf] (a decoder
    can return the value). *)

From S2P Require Import Prelude GoIO Types Errno Proto Messages.

(** ** File mode bits *)

Definition DMSYMLINK : FileMode := 0x02000000.
Definition DMDEVICE : FileMode := 0x00800000.
Definition DMNAMEDPIPE : FileMode := 0x00200000.
Definition DMSOCKET : FileMode := 0x00100000.
Definition DMSETUID : FileMode := 0x00080000.
Definition DMSETGID : FileMode := 0x00040000.

(** [math.MaxUint16]. *)
Definition MaxUint16 : Z := 65535.

(** ** Bounded reads

    [lr := &io.LimitedReader{R: r, N: N}; m(lr); if lr.N != 0 { return over }]:
    run [m] on at most [N] bytes of the reader and require that it used them
    all. *)
Definition withLimit {A} (N : Z) (over : Z -> GoError) (m : M Reader A) : M Reader A := fun r =>
  match m (LimitedReader r N) with
  | (Ok a, LimitedReader r' N') => if N' =? 0 then (Ok a, r') else (Err (over N'), r')
  | (Err e, LimitedReader r' _) => (Err e, r')
  | (res, r') => (res, r')
  end.

Lemma takes_limited_inv r N bs lr :
  takes (LimitedReader r N) bs lr ->
  exists r', lr = LimitedReader r' (N - Z.of_nat (length bs)) /\ takes r bs r'.
Proof.
  intros [Ha Hav]. inversion Ha as [| |? R' ? ? HR Hn]; subst. exists R'. split; [done|].
  pose proof (advances_takes _ _ _ HR) as T.
  replace (take (length bs) (avail r)) with bs in T; [done|].
  cbn [avail] in Hav. apply app_prefix_split in Hav as [Hav _].
  rewrite <- Hav at 1. rewrite take_take, Nat.min_l by lia. done.
Qed.

Lemma withLimit_decoder {A} N over (m : M Reader A) wf wire :
  decoder m wf wire -> 0 <= N ->
  decoder (withLimit N over m) (fun v => wf v /\ Z.of_nat (length (wire v)) = N) wire.
Proof.
  intros [Hc Hs] HN. split.
  - intros v r rest [Hv Hl] Hav.
    destruct (Hc v (LimitedReader r N) [] Hv) as (lr & E & T).
    { cbn [avail]. rewrite Hav, take_app_le, take_ge, app_nil_r by lia. done. }
    apply takes_limited_inv in T as (r' & -> & T). exists r'. split; [|done].
    unfold withLimit. rewrite E, Hl, Z.sub_diag. done.
  - intros r v r' H. unfold withLimit in H.
    destruct (m (LimitedReader r N)) as [[a|e] lr] eqn:E; [|by destruct lr].
    apply Hs in E as [Hv T]. apply takes_limited_inv in T as (r1 & -> & T).
    destruct (Z.eqb_spec (N - Z.of_nat (length (wire a))) 0) as [E|E]; [|done].
    injection H as -> ->. split; [split; [done|lia]|done].
Qed.

(** [size, err := f(); if err != nil { return fmt.Errorf(fmt, err) }; k size] *)
Definition withResult {S A B} (fmt : string) (x : result A) (k : A -> M S B) : M S B :=
  match x with
  | Ok a => k a
  | Err e => throw (Wrapf fmt [] e)
  end.

Module Rerror.
Record t : Type := mk { Ename : string; Errno : Errno }.
Definition zero : t := mk "" 0.
Definition Type_ (_ : t) : MessageType := TypeRerror.
Definition EncodeTo (m : t) : M Writer unit :=
  wrapf "encode rerror ename: %w" (WriteString (Ename m));;
  wrapf "encode rerror errno: %w" (WriteUint32 (Errno m)).
Definition DecodeFrom : M Reader t :=
  Ename ← wrapf "decode rerror ename: %w" ReadString;
  Errno ← wrapf "decode rerror errno: %w" ReadUint32;
  mret (mk Ename Errno).

Definition wire (m : t) : bytes :=
  wire_string (Ename m) ++ le_bytes 4 (Errno m).
Definition encodable (m : t) : Prop := str_ok (Ename m).
Definition wf (m : t) : Prop :=
  str_ok (Ename m) /\ u32 (Errno m).

#[export] Instance Rerror_encodable_dec m : Decision (encodable m).
Proof. unfold encodable. solve_wire_dec. Defined.
Lemma Rerror_emits m : encodable m -> emits (EncodeTo m) (wire m).
Proof. unfold EncodeTo, wire, encodable. solve_emits. Qed.
Lemma Rerror_refuses m : ~ encodable m -> refuses (EncodeTo m).
Proof. unfold EncodeTo, encodable. solve_refuses. Qed.
Lemma Rerror_decoder : decoder DecodeFrom wf wire.
Proof. unfold DecodeFrom, wf, wire. solve_decoder. Qed.
Lemma Rerror_wf_encodable m : wf m -> encodable m.
Proof. unfold wf, encodable. tauto. Qed.
End Rerror.

Module Topen.
Record t : Type := mk { Fid : Types.Fid; Mode : Z }.
Definition zero : t := mk 0 0.
Definition Type_ (_ : t) : MessageType := TypeTopen.
Definition EncodeTo (m : t) : M Writer unit :=
  wrapf "encode topen fid: %w" (WriteFid (Fid m));;
  wrapf "encode topen mode: %w" (WriteUint8 (Mode m)).
Definition DecodeFrom : M Reader t :=
  Fid ← wrapf "decode topen fid: %w" ReadFid;
  Mode ← wrapf "decode topen mode: %w" ReadUint8;
  mret (mk Fid Mode).

Definition wire (m : t) : bytes :=
  le_bytes 4 (Fid m) ++ le_bytes 1 (Mode m).
Definition encodable (m : t) : Prop := True.
Definition wf (m : t) : Prop :=
  u32 (Fid m) /\ u8 (Mode m).

#[export] Instance Topen_encodable_dec m : Decision (encodable m).
Proof. unfold encodable. solve_wire_dec. Defined.
Lemma Topen_emits m : encodable m -> emits (EncodeTo m) (wire m).
Proof. unfold EncodeTo, wire, encodable. solve_emits. Qed.
Lemma Topen_refuses m : ~ encodable m -> refuses (EncodeTo m).
Proof. unfold EncodeTo, encodable. solve_refuses. Qed.
Lemma Topen_decoder : decoder DecodeFrom wf wire.
Proof. unfold DecodeFrom, wf, wire. solve_decoder. Qed.
Lemma Topen_wf_encodable m : wf m -> encodable m.
Proof. unfold wf, encodable. tauto. Qed.
End Topen.

Module Ropen.
Record t : Type := mk { QID : QID.t; IOUnit : Z }.
Definition zero : t := mk QID.zero 0.
Definition Type_ (_ : t) : MessageType := TypeRopen.
Definition EncodeTo (m : t) : M Writer unit :=
  wrapf "encode ropen qid: %w" (WriteQID (QID m));;
  wrapf "encode ropen iounit: %w" (WriteUint32 (IOUnit m)).
Definition DecodeFrom : M Reader t :=
  QID ← wrapf "decode ropen qid: %w" ReadQID;
  IOUnit ← wrapf "decode ropen iounit: %w" ReadUint32;
  mret (mk QID IOUnit).

Definition wire (m : t) : bytes :=
  wire_qid (QID m) ++ le_bytes 4 (IOUnit m).
Definition encodable (m : t) : Prop := True.
Definition wf (m : t) : Prop :=
  QID.wf (QID m) /\ u32 (IOUnit m).

#[export] Instance Ropen_encodable_dec m : Decision (encodable m).
Proof. unfold encodable. solve_wire_dec. Defined.
Lemma Ropen_emits m : encodable m -> emits (EncodeTo m) (wire m).
Proof. unfold EncodeTo, wire, encodable. solve_emits. Qed.
Lemma Ropen_refuses m : ~ encodable m -> refuses (EncodeTo m).
Proof. unfold EncodeTo, encodable. solve_refuses. Qed.
Lemma Ropen_decoder : decoder DecodeFrom wf wire.
Proof. unfold DecodeFrom, wf, wire. solve_decoder. Qed.
Lemma Ropen_wf_encodable m : wf m -> encodable m.
Proof. unfold wf, encodable. tauto. Qed.
End Ropen.

Module Tcreate.
Record t : Type := mk { Fid : Types.Fid; Name : string; Perm : FileMode; Mode : Z; Extension :
  string }.
Definition zero : t := mk 0 "" 0 0 "".
Definition Type_ (_ : t) : MessageType := TypeTcreate.
Definition EncodeTo (m : t) : M Writer unit :=
  wrapf "encode tcreate fid: %w" (WriteFid (Fid m));;
  wrapf "encode tcreate name: %w" (WriteString (Name m));;
  wrapf "encode tcreate perm: %w" (WriteUint32 (Perm m));;
  wrapf "encode tcreate mode: %w" (WriteUint8 (Mode m));;
  wrapf "encode tcreate extension: %w" (WriteString (Extension m)).
Definition DecodeFrom : M Reader t :=
  Fid ← wrapf "decode tcreate fid: %w" ReadFid;
  Name ← wrapf "decode tcreate name: %w" ReadString;
  Perm ← wrapf "decode tcreate perm: %w" ReadUint32;
  Mode ← wrapf "decode tcreate mode: %w" ReadUint8;
  Extension ← wrapf "decode tcreate extension: %w" ReadString;
  mret (mk Fid Name Perm Mode Extension).

Definition wire (m : t) : bytes :=
  le_bytes 4 (Fid m) ++ wire_string (Name m) ++ le_bytes 4 (Perm m) ++ le_bytes 1 (Mode m) ++
  wire_string (Extension m).
Definition encodable (m : t) : Prop := str_ok (Name m) /\ str_ok (Extension m).
Definition wf (m : t) : Prop :=
  u32 (Fid m) /\ str_ok (Name m) /\ u32 (Perm m) /\ u8 (Mode m) /\ str_ok (Extension m).

#[export] Instance Tcreate_encodable_dec m : Decision (encodable m).
Proof. unfold encodable. solve_wire_dec. Defined.
Lemma Tcreate_emits m : encodable m -> emits (EncodeTo m) (wire m).
Proof. unfold EncodeTo, wire, encodable. solve_emits. Qed.
Lemma Tcreate_refuses m : ~ encodable m -> refuses (EncodeTo m).
Proof. unfold EncodeTo, encodable. solve_refuses. Qed.
Lemma Tcreate_decoder : decoder DecodeFrom wf wire.
Proof. unfold DecodeFrom, wf, wire. solve_decoder. Qed.
Lemma Tcreate_wf_encodable m : wf m -> encodable m.
Proof. unfold wf, encodable. tauto. Qed.
End Tcreate.

Module Rcreate.
Record t : Type := mk { QID : QID.t; IOUnit : Z }.
Definition zero : t := mk QID.zero 0.
Definition Type_ (_ : t) : MessageType := TypeRcreate.
Definition EncodeTo (m : t) : M Writer unit :=
  wrapf "encode rcreate qid: %w" (WriteQID (QID m));;
  wrapf "encode rcreate iounit: %w" (WriteUint32 (IOUnit m)).
Definition DecodeFrom : M Reader t :=
  QID ← wrapf "decode rcreate qid: %w" ReadQID;
  IOUnit ← wrapf "decode rcreate iounit: %w" ReadUint32;
  mret (mk QID IOUnit).

Definition wire (m : t) : bytes :=
  wire_qid (QID m) ++ le_bytes 4 (IOUnit m).
Definition encodable (m : t) : Prop := True.
Definition wf (m : t) : Prop :=
  QID.wf (QID m) /\ u32 (IOUnit m).

#[export] Instance Rcreate_encodable_dec m : Decision (encodable m).
Proof. unfold encodable. solve_wire_dec. Defined.
Lemma Rcreate_emits m : encodable m -> emits (EncodeTo m) (wire m).
Proof. unfold EncodeTo, wire, encodable. solve_emits. Qed.
Lemma Rcreate_refuses m : ~ encodable m -> refuses (EncodeTo m).
Proof. unfold EncodeTo, encodable. solve_refuses. Qed.
Lemma Rcreate_decoder : decoder DecodeFrom wf wire.
Proof. unfold DecodeFrom, wf, wire. solve_decoder. Qed.
Lemma Rcreate_wf_encodable m : wf m -> encodable m.
Proof. unfold wf, encodable. tauto. Qed.
End Rcreate.

Module Stat.
Record t : Type := mk {
  Size : Z; Type_ : Z; Dev : Z; QID : QID.t; Mode : FileMode; Atime : Z; Mtime : Z; Length : Z;
  Name : string; UID : string; GID : string; MUID : string; Extension : string;
  NUid : Z; NGid : Z; NMuid : Z }.
Definition zero : t := mk 0 0 0 QID.zero 0 0 0 0 "" "" "" "" "" 0 0 0.

(** [uint32] additions wrap; [len(s)] is converted to [uint32] first. *)
Definition EncodedSize (s : t) : result Z :=
  let size := 39 in
  let size := uint_wrap 32 (size + uint_wrap 32 (2 + uint_wrap 32 (strlen (Name s)))) in
  let size := uint_wrap 32 (size + uint_wrap 32 (2 + uint_wrap 32 (strlen (UID s)))) in
  let size := uint_wrap 32 (size + uint_wrap 32 (2 + uint_wrap 32 (strlen (GID s)))) in
  let size := uint_wrap 32 (size + uint_wrap 32 (2 + uint_wrap 32 (strlen (MUID s)))) in
  let size := uint_wrap 32 (size + uint_wrap 32 (2 + uint_wrap 32 (strlen (Extension s)))) in
  let size := uint_wrap 32 (size + 12) in
  if MaxUint16 <? size
  then Err (Errorf "stat encoded size %d exceeds uint16 max" [size])
  else Ok (uint_wrap 16 size).

Definition encodeBody (s : t) : M Writer unit :=
  wrapf "encode stat type: %w" (WriteUint16 (Type_ s));;
  wrapf "encode stat dev: %w" (WriteUint32 (Dev s));;
  wrapf "encode stat qid: %w" (WriteQID (QID s));;
  wrapf "encode stat mode: %w" (WriteUint32 (Mode s));;
  wrapf "encode stat atime: %w" (WriteUint32 (Atime s));;
  wrapf "encode stat mtime: %w" (WriteUint32 (Mtime s));;
  wrapf "encode stat length: %w" (WriteUint64 (Length s));;
  wrapf "encode stat name: %w" (WriteString (Name s));;
  wrapf "encode stat uid: %w" (WriteString (UID s));;
  wrapf "encode stat gid: %w" (WriteString (GID s));;
  wrapf "encode stat muid: %w" (WriteString (MUID s));;
  wrapf "encode stat extension: %w" (WriteString (Extension s));;
  wrapf "encode stat n_uid: %w" (WriteUint32 (NUid s));;
  wrapf "encode stat n_gid: %w" (WriteUint32 (NGid s));;
  wrapf "encode stat n_muid: %w" (WriteUint32 (NMuid s)).
Definition EncodeTo (s : t) : M Writer unit :=
  withResult "encode stat: %w" (EncodedSize s) (fun encodedSize =>
  wrapf "encode stat size: %w" (WriteUint16 encodedSize);;
  encodeBody s).

Definition decodeBody (Size : Z) : M Reader t :=
  Type_ ← wrapf "decode stat type: %w" ReadUint16;
  Dev ← wrapf "decode stat dev: %w" ReadUint32;
  QID ← wrapf "decode stat qid: %w" ReadQID;
  Mode ← wrapf "decode stat mode: %w" ReadUint32;
  Atime ← wrapf "decode stat atime: %w" ReadUint32;
  Mtime ← wrapf "decode stat mtime: %w" ReadUint32;
  Length ← wrapf "decode stat length: %w" ReadUint64;
  Name ← wrapf "decode stat name: %w" ReadString;
  UID ← wrapf "decode stat uid: %w" ReadString;
  GID ← wrapf "decode stat gid: %w" ReadString;
  MUID ← wrapf "decode stat muid: %w" ReadString;
  Extension ← wrapf "decode stat extension: %w" ReadString;
  NUid ← wrapf "decode stat n_uid: %w" ReadUint32;
  NGid ← wrapf "decode stat n_gid: %w" ReadUint32;
  NMuid ← wrapf "decode stat n_muid: %w" ReadUint32;
  mret (mk Size Type_ Dev QID Mode Atime Mtime Length Name UID GID MUID Extension NUid NGid NMuid).
Definition DecodeFrom : M Reader t :=
  size ← wrapf "decode stat size: %w" ReadUint16;
  withLimit size
    (fun N => Errorf "decode stat: declared size %d exceeds encoded body by %d bytes" [size; N])
    (decodeBody size).

Definition wire_body (s : t) : bytes :=
  le_bytes 2 (Type_ s) ++ le_bytes 4 (Dev s) ++ wire_qid (QID s) ++ le_bytes 4 (Mode s) ++
  le_bytes 4 (Atime s) ++ le_bytes 4 (Mtime s) ++ le_bytes 8 (Length s) ++
  wire_string (Name s) ++ wire_string (UID s) ++ wire_string (GID s) ++ wire_string (MUID s) ++
  wire_string (Extension s) ++ le_bytes 4 (NUid s) ++ le_bytes 4 (NGid s) ++ le_bytes 4 (NMuid s).
(** The number of body bytes, in unbounded arithmetic. *)
Definition size (s : t) : Z :=
  61 + strlen (Name s) + strlen (UID s) + strlen (GID s) + strlen (MUID s) + strlen (Extension s).
Definition wire (s : t) : bytes := le_bytes 2 (size s) ++ wire_body s.
Definition encodable (s : t) : Prop := size s <= MaxUint16.
Definition wf (s : t) : Prop :=
  u16 (Type_ s) /\ u32 (Dev s) /\ QID.wf (QID s) /\ u32 (Mode s) /\ u32 (Atime s) /\
  u32 (Mtime s) /\ u64 (Length s) /\ u32 (NUid s) /\ u32 (NGid s) /\ u32 (NMuid s) /\
  Size s = size s /\ encodable s.

#[export] Instance Stat_encodable_dec s : Decision (encodable s).
Proof. unfold encodable. apply _. Defined.

Lemma length_wire_body s : Z.of_nat (length (wire_body s)) = size s.
Proof.
  unfold wire_body, size. rewrite !length_app, !length_le_bytes, !Nat2Z.inj_add,
    !length_wire_string, length_wire_qid. unfold QIDSize. lia.
Qed.

Lemma length_wire s : Z.of_nat (length (wire s)) = 2 + size s.
Proof. unfold wire. rewrite length_app, length_le_bytes, Nat2Z.inj_add, length_wire_body. lia. Qed.

Lemma size_nonneg s : 61 <= size s.
Proof. unfold size, strlen. lia. Qed.

Lemma encodable_strings s :
  encodable s -> str_ok (Name s) /\ str_ok (UID s) /\ str_ok (GID s) /\ str_ok (MUID s) /\
    str_ok (Extension s).
Proof. unfold encodable, size, str_ok, MaxStringLen, MaxUint16, strlen. lia. Qed.

Lemma EncodedSize_strings s :
  str_ok (Name s) -> str_ok (UID s) -> str_ok (GID s) -> str_ok (MUID s) -> str_ok (Extension s) ->
  EncodedSize s = if MaxUint16 <? size s
                  then Err (Errorf "stat encoded size %d exceeds uint16 max" [size s])
                  else Ok (size s).
Proof.
  unfold str_ok, MaxStringLen. intros.
  assert (2 ^ 32 = 4294967296) by done. assert (2 ^ 16 = 65536) by done.
  assert (forall s : string, 0 <= strlen s) as Hpos by (intros; unfold strlen; lia).
  pose proof (Hpos (Name s)). pose proof (Hpos (UID s)). pose proof (Hpos (GID s)).
  pose proof (Hpos (MUID s)). pose proof (Hpos (Extension s)).
  unfold EncodedSize. unwrap 32.
  replace (39 + _ + _ + _ + _ + _ + 12) with (size s) by (unfold size; lia).
  destruct (Z.ltb_spec MaxUint16 (size s)) as [|Hle]; [done|].
  pose proof (size_nonneg s). unfold MaxUint16 in Hle.
  rewrite uint_wrap_id; [done|]. unfold is_uint. lia.
Qed.

Lemma EncodedSize_encodable s : encodable s -> EncodedSize s = Ok (size s).
Proof.
  intros H. destruct (encodable_strings s H) as (? & ? & ? & ? & ?).
  rewrite EncodedSize_strings by done. unfold encodable in H.
  by rewrite (proj2 (Z.ltb_ge _ _)) by lia.
Qed.

Lemma encodeBody_emits s : encodable s -> emits (encodeBody s) (wire_body s).
Proof. intros H%encodable_strings. unfold encodeBody, wire_body. destruct_and?. solve_emits. Qed.

Lemma Stat_emits s : encodable s -> emits (EncodeTo s) (wire s).
Proof.
  intros H. unfold EncodeTo, wire. rewrite EncodedSize_encodable by done.
  apply bind_emits; [apply wrapf_emits; eauto with wire|by apply encodeBody_emits].
Qed.

Lemma encodeBody_refuses s :
  ~ (str_ok (Name s) /\ str_ok (UID s) /\ str_ok (GID s) /\ str_ok (MUID s) /\
     str_ok (Extension s)) -> refuses (encodeBody s).
Proof. unfold encodeBody. solve_refuses. Qed.

Lemma Stat_refuses s : ~ encodable s -> refuses (EncodeTo s).
Proof.
  intros H. unfold EncodeTo.
  destruct (decide (str_ok (Name s) /\ str_ok (UID s) /\ str_ok (GID s) /\ str_ok (MUID s) /\
     str_ok (Extension s))) as [(? & ? & ? & ? & ?)|Hs].
  - rewrite EncodedSize_strings by done. unfold encodable in H.
    rewrite (proj2 (Z.ltb_lt _ _)) by lia. apply throw_refuses.
  - destruct (EncodedSize s); [|apply throw_refuses].
    by apply bind_refuses_r, encodeBody_refuses.
Qed.

(** Without a bound on the reader the body decoder returns any string field
    in range; the declared size only reaches the [Size] field. *)
Definition wf_body (n : Z) (s : t) : Prop :=
  u16 (Type_ s) /\ u32 (Dev s) /\ QID.wf (QID s) /\ u32 (Mode s) /\ u32 (Atime s) /\
  u32 (Mtime s) /\ u64 (Length s) /\ str_ok (Name s) /\ str_ok (UID s) /\ str_ok (GID s) /\
  str_ok (MUID s) /\ str_ok (Extension s) /\ u32 (NUid s) /\ u32 (NGid s) /\ u32 (NMuid s) /\
  Size s = n.

Lemma decodeBody_decoder n : decoder (decodeBody n) (wf_body n) wire_body.
Proof.
  unfold decodeBody, wf_body, wire_body, wrapf. split.
  - intros m r rest Hm Hav. destruct_and?. subst n.
    repeat decode_step. by destruct m.
  - intros r m r' H. repeat decode_inv H. injection H as <- <-.
    split; [cbn; repeat first [assumption | reflexivity | split]|eauto 40 with wire].
Qed.

Lemma Stat_decoder : decoder DecodeFrom wf wire.
Proof.
  split.
  - intros s r rest Hs Hav. unfold DecodeFrom, wire in *.
    destruct Hs as (? & ? & ? & ? & ? & ? & ? & ? & ? & ? & HS & He).
    pose proof (size_nonneg s). pose proof (encodable_strings s He).
    unfold encodable, MaxUint16 in He.
    eapply (bind_complete _ u16 (le_bytes 2) _ (size s));
      [unfold wrapf; eauto with wire|unfold is_uint; lia|exact Hav|].
    intros r1 Hr1.
    eapply (decoder_complete (withLimit_decoder _ _ _ _ _ (decodeBody_decoder _) _));
      [|exact Hr1]. split; [unfold wf_body; tauto|apply length_wire_body].
    Unshelve. lia.
  - intros r s r' H. unfold DecodeFrom in H. apply mbind_Ok_inv in H as (n & r1 & E & H).
    apply wrapf_ok, (decoder_sound ReadUint16_decoder) in E as [Hn T].
    assert (0 <= n) as H0 by (unfold is_uint in Hn; lia).
    apply (decoder_sound (withLimit_decoder _ _ _ _ _ (decodeBody_decoder n) H0)) in H
      as [[Hb Hl] T'].
    rewrite length_wire_body in Hl. unfold wf_body in Hb. split.
    + unfold wf, encodable, MaxUint16, is_uint in *. rewrite Hl. intuition lia.
    + unfold wire. rewrite Hl. by eapply takes_app.
Qed.
Lemma Stat_wf_encodable s : wf s -> encodable s.
Proof. unfold wf. tauto. Qed.
End Stat.

(** The [nstat]-prefixed stat of [Rstat] and [Twstat]. *)
Section NStat.
Context (fmt1 fmt2 fmt3 fmt4 fmt5 fmt6 : string).

Definition encodeNStat (s : Stat.t) : M Writer unit :=
  withResult fmt1 (Stat.EncodedSize s) (fun encodedSize =>
  let nstat := uint_wrap 16 (2 + encodedSize) in
  wrapf fmt2 (WriteUint16 nstat);;
  wrapf fmt3 (Stat.EncodeTo s)).

Definition decodeNStat : M Reader Stat.t :=
  nstat ← wrapf fmt4 ReadUint16;
  withLimit nstat (fun N => Errorf fmt6 [nstat; N]) (wrapf fmt5 Stat.DecodeFrom).

Definition wire_nstat (s : Stat.t) : bytes :=
  le_bytes 2 (2 + Stat.size s) ++ Stat.wire s.
Definition nstat_wf (s : Stat.t) : Prop := Stat.wf s /\ 2 + Stat.size s <= MaxUint16.

Lemma encodeNStat_emits s : Stat.encodable s -> emits (encodeNStat s) (wire_nstat s).
Proof.
  intros H. unfold encodeNStat, wire_nstat. rewrite Stat.EncodedSize_encodable by done.
  cbn [withResult]. rewrite <- (le_bytes_wrap 2 16) by done.
  apply bind_emits; apply wrapf_emits; [eauto with wire|by apply Stat.Stat_emits].
Qed.

Lemma encodeNStat_refuses s : ~ Stat.encodable s -> refuses (encodeNStat s).
Proof.
  intros H. unfold encodeNStat. destruct (Stat.EncodedSize s); [|apply throw_refuses].
  by apply bind_refuses_r, wrapf_refuses, Stat.Stat_refuses.
Qed.

Lemma decodeNStat_decoder : decoder decodeNStat nstat_wf wire_nstat.
Proof.
  split.
  - intros s r rest [Hs Hn] Hav. unfold decodeNStat, wire_nstat in *.
    pose proof (Stat.size_nonneg s). unfold MaxUint16 in Hn.
    eapply (bind_complete _ u16 (le_bytes 2) _ (2 + Stat.size s));
      [unfold wrapf; eauto with wire|unfold is_uint; lia|exact Hav|].
    intros r1 Hr1.
    eapply (decoder_complete (withLimit_decoder _ _ _ _ _
              (wrapf_decoder _ _ _ _ _ Stat.Stat_decoder) _)); [|exact Hr1].
    split; [done|apply Stat.length_wire].
    Unshelve. lia.
  - intros r s r' H. apply mbind_Ok_inv in H as (n & r1 & E & H).
    apply wrapf_ok, (decoder_sound ReadUint16_decoder) in E as [Hn T].
    assert (0 <= n) as H0 by (unfold is_uint in Hn; lia).
    apply (decoder_sound (withLimit_decoder _ _ _ _ _
             (wrapf_decoder _ _ _ _ _ Stat.Stat_decoder) H0)) in H as [[Hb Hl] T'].
    rewrite Stat.length_wire in Hl. unfold is_uint in Hn.
    split; [split; [done|]|]; [unfold MaxUint16; lia|].
    unfold wire_nstat. rewrite Hl. by eapply takes_app.
Qed.
End NStat.

Module Tstat.
Record t : Type := mk { Fid : Types.Fid }.
Definition zero : t := mk 0.
Definition Type_ (_ : t) : MessageType := TypeTstat.
Definition EncodeTo (m : t) : M Writer unit :=
  wrapf "encode tstat fid: %w" (WriteFid (Fid m)).
Definition DecodeFrom : M Reader t :=
  Fid ← wrapf "decode tstat fid: %w" ReadFid;
  mret (mk Fid).

Definition wire (m : t) : bytes :=
  le_bytes 4 (Fid m).
Definition encodable (m : t) : Prop := True.
Definition wf (m : t) : Prop :=
  u32 (Fid m).

#[export] Instance Tstat_encodable_dec m : Decision (encodable m).
Proof. unfold encodable. solve_wire_dec. Defined.
Lemma Tstat_emits m : encodable m -> emits (EncodeTo m) (wire m).
Proof. unfold EncodeTo, wire, encodable. solve_emits. Qed.
Lemma Tstat_refuses m : ~ encodable m -> refuses (EncodeTo m).
Proof. unfold EncodeTo, encodable. solve_refuses. Qed.
Lemma Tstat_decoder : decoder DecodeFrom wf wire.
Proof. unfold DecodeFrom, wf, wire. solve_decoder. Qed.
Lemma Tstat_wf_encodable m : wf m -> encodable m.
Proof. unfold wf, encodable. tauto. Qed.
End Tstat.

Module Rstat.
Record t : Type := mk { Stat : P9u.Stat.t }.
Definition zero : t := mk Stat.zero.
Definition Type_ (_ : t) : MessageType := TypeRstat.
Definition EncodeTo (m : t) : M Writer unit :=
  encodeNStat "encode rstat: %w" "encode rstat nstat: %w" "encode rstat stat: %w" (Stat m).
Definition DecodeFrom : M Reader t :=
  Stat ← decodeNStat "decode rstat nstat: %w" "decode rstat stat: %w"
           "decode rstat: nstat %d exceeds stat encoding by %d bytes";
  mret (mk Stat).

Definition wire (m : t) : bytes := wire_nstat (Stat m).
Definition encodable (m : t) : Prop := P9u.Stat.encodable (Stat m).
Definition wf (m : t) : Prop := nstat_wf (Stat m).

#[export] Instance Rstat_encodable_dec m : Decision (encodable m).
Proof. unfold encodable. apply _. Defined.
Lemma Rstat_emits m : encodable m -> emits (EncodeTo m) (wire m).
Proof. apply encodeNStat_emits. Qed.
Lemma Rstat_refuses m : ~ encodable m -> refuses (EncodeTo m).
Proof. apply encodeNStat_refuses. Qed.
Lemma Rstat_decoder : decoder DecodeFrom wf wire.
Proof.
  split.
  - intros m r rest Hm Hav. eapply (bind_complete_last _ _ wire_nstat _ (Stat m)); [apply decodeNStat_decoder|done|done|].
    intros ?. by destruct m.
  - intros r m r' H. apply mbind_Ok_inv in H as (s & r1 & E & [= <- <-]).
    by apply (decoder_sound (decodeNStat_decoder _ _ _)) in E.
Qed.
Lemma Rstat_wf_encodable m : wf m -> encodable m.
Proof. intros [H _]. by apply Stat.Stat_wf_encodable. Qed.
End Rstat.

Module Twstat.
Record t : Type := mk { Fid : Types.Fid; Stat : P9u.Stat.t }.
Definition zero : t := mk 0 Stat.zero.
Definition Type_ (_ : t) : MessageType := TypeTwstat.
Definition EncodeTo (m : t) : M Writer unit :=
  wrapf "encode twstat fid: %w" (WriteFid (Fid m));;
  encodeNStat "encode twstat: %w" "encode twstat nstat: %w" "encode twstat stat: %w" (Stat m).
Definition DecodeFrom : M Reader t :=
  Fid ← wrapf "decode twstat fid: %w" ReadFid;
  Stat ← decodeNStat "decode twstat nstat: %w" "decode twstat stat: %w"
           "decode twstat: nstat %d exceeds stat encoding by %d bytes";
  mret (mk Fid Stat).

Definition wire (m : t) : bytes := le_bytes 4 (Fid m) ++ wire_nstat (Stat m).
Definition encodable (m : t) : Prop := P9u.Stat.encodable (Stat m).
Definition wf (m : t) : Prop := u32 (Fid m) /\ nstat_wf (Stat m).

#[export] Instance Twstat_encodable_dec m : Decision (encodable m).
Proof. unfold encodable. apply _. Defined.
Lemma Twstat_emits m : encodable m -> emits (EncodeTo m) (wire m).
Proof.
  intros H. apply bind_emits; [apply wrapf_emits; eauto with wire|by apply encodeNStat_emits].
Qed.
Lemma Twstat_refuses m : ~ encodable m -> refuses (EncodeTo m).
Proof. intros H. by apply bind_refuses_r, encodeNStat_refuses. Qed.
Lemma Twstat_decoder : decoder DecodeFrom wf wire.
Proof.
  split.
  - intros m r rest [Hf Hm] Hav. unfold DecodeFrom, wire, wrapf in *. decode_step.
    eapply bind_complete_last; [apply decodeNStat_decoder|done|eassumption|].
    intros ?. by destruct m.
  - intros r m r' H. unfold DecodeFrom, wrapf in H. decode_inv H.
    apply mbind_Ok_inv in H as (s & r1 & E & [= <- <-]).
    apply (decoder_sound (decodeNStat_decoder _ _ _)) in E as [Hs T'].
    split; [done|]. unfold wire. cbn. eauto with wire.
Qed.
Lemma Twstat_wf_encodable m : wf m -> encodable m.
Proof. intros (_ & H & _). by apply Stat.Stat_wf_encodable. Qed.
End Twstat.

Module Rwstat.
Record t : Type := mk {}.
Definition zero : t := mk.
Definition Type_ (_ : t) : MessageType := TypeRwstat.
Definition EncodeTo (_ : t) : M Writer unit := mret tt.
Definition DecodeFrom : M Reader t := mret mk.

Definition wire (_ : t) : bytes := [].
Definition encodable (_ : t) : Prop := True.
Definition wf (_ : t) : Prop := True.

#[export] Instance Rwstat_encodable_dec m : Decision (encodable m).
Proof. unfold encodable. solve_wire_dec. Defined.
Lemma Rwstat_emits m : encodable m -> emits (EncodeTo m) (wire m).
Proof. unfold EncodeTo, wire, encodable. solve_emits. Qed.
Lemma Rwstat_refuses m : ~ encodable m -> refuses (EncodeTo m).
Proof. unfold EncodeTo, encodable. solve_refuses. Qed.
Lemma Rwstat_decoder : decoder DecodeFrom wf wire.
Proof. unfold DecodeFrom, wf, wire. solve_decoder. Qed.
Lemma Rwstat_wf_encodable m : wf m -> encodable m.
Proof. unfold wf, encodable. tauto. Qed.
End Rwstat.

