(* ===== verification/Message.v ===== *)
(** * The message interface

    [proto/message.go] declares the [Message] interface ([Type], [EncodeTo],
    [DecodeFrom]); framing, the receive loops and the dispatcher are written
    against it.  The class [MessageCodec] is that interface with the contract
    the framing relies on; [Message] is the union of the messages of both
    dialects and its instance.  [NewBaseMessage] ([proto/frame.go]) and the
    [newMessage] functions of [proto/p9l/codec.go] and [proto/p9u/codec.go]
    construct the zero message of a type. *)

From S2P Require Import Prelude GoIO Types Proto Messages P9l P9u.

(** ** The interface and its contract *)

Class MessageCodec (Msg : Type) := {
  Type_ : Msg -> MessageType;
  EncodeTo : Msg -> M Writer unit;
  (** [m.DecodeFrom(r)]: the message after the call. *)
  DecodeFrom : Msg -> M Reader Msg;
  (** The body layout, the values the encoder accepts and those a decoder
      can return. *)
  body : Msg -> bytes;
  encodable : Msg -> Prop;
  wf : Msg -> Prop;
  encodable_decision m :: Decision (encodable m);
  Type_range m : u8 (Type_ m);
  EncodeTo_emits m : encodable m -> emits (EncodeTo m) (body m);
  EncodeTo_refuses m : ~ encodable m -> refuses (EncodeTo m);
  DecodeFrom_decoder m0 :
    decoder (DecodeFrom m0) (fun m => wf m /\ Type_ m = Type_ m0) body;
  wf_encodable m : wf m -> encodable m
}.

(** ** The union of all messages *)

Inductive Message : Type :=
  | MTversion (m : Tversion.t)
  | MRversion (m : Rversion.t)
  | MTauth (m : Tauth.t)
  | MRauth (m : Rauth.t)
  | MTattach (m : Tattach.t)
  | MRattach (m : Rattach.t)
  | MTflush (m : Tflush.t)
  | MRflush (m : Rflush.t)
  | MTwalk (m : Twalk.t)
  | MRwalk (m : Rwalk.t)
  | MTread (m : Tread.t)
  | MRread (m : Rread.t)
  | MTwrite (m : Twrite.t)
  | MRwrite (m : Rwrite.t)
  | MTclunk (m : Tclunk.t)
  | MRclunk (m : Rclunk.t)
  | MTremove (m : Tremove.t)
  | MRremove (m : Rremove.t)
  | MRlerror (m : Rlerror.t)
  | MTstatfs (m : Tstatfs.t)
  | MRstatfs (m : Rstatfs.t)
  | MTlopen (m : Tlopen.t)
  | MRlopen (m : Rlopen.t)
  | MTlcreate (m : Tlcreate.t)
  | MRlcreate (m : Rlcreate.t)
  | MTsymlink (m : Tsymlink.t)
  | MRsymlink (m : Rsymlink.t)
  | MTmknod (m : Tmknod.t)
  | MRmknod (m : Rmknod.t)
  | MTrename (m : Trename.t)
  | MRrename (m : Rrename.t)
  | MTreadlink (m : Treadlink.t)
  | MRreadlink (m : Rreadlink.t)
  | MTgetattr (m : Tgetattr.t)
  | MRgetattr (m : Rgetattr.t)
  | MTsetattr (m : Tsetattr.t)
  | MRsetattr (m : Rsetattr.t)
  | MTxattrwalk (m : Txattrwalk.t)
  | MRxattrwalk (m : Rxattrwalk.t)
  | MTxattrcreate (m : Txattrcreate.t)
  | MRxattrcreate (m : Rxattrcreate.t)
  | MTreaddir (m : Treaddir.t)
  | MRreaddir (m : Rreaddir.t)
  | MTfsync (m : Tfsync.t)
  | MRfsync (m : Rfsync.t)
  | MTlock (m : Tlock.t)
  | MRlock (m : Rlock.t)
  | MTgetlock (m : Tgetlock.t)
  | MRgetlock (m : Rgetlock.t)
  | MTlink (m : Tlink.t)
  | MRlink (m : Rlink.t)
  | MTmkdir (m : Tmkdir.t)
  | MRmkdir (m : Rmkdir.t)
  | MTrenameat (m : Trenameat.t)
  | MRrenameat (m : Rrenameat.t)
  | MTunlinkat (m : Tunlinkat.t)
  | MRunlinkat (m : Runlinkat.t)
  | MRerror (m : Rerror.t)
  | MTopen (m : Topen.t)
  | MRopen (m : Ropen.t)
  | MTcreate (m : Tcreate.t)
  | MRcreate (m : Rcreate.t)
  | MTstat (m : Tstat.t)
  | MRstat (m : Rstat.t)
  | MTwstat (m : Twstat.t)
  | MRwstat (m : Rwstat.t).

Definition Message_Type (m : Message) : MessageType :=
  match m with
  | MTversion m => Tversion.Type_ m
  | MRversion m => Rversion.Type_ m
  | MTauth m => Tauth.Type_ m
  | MRauth m => Rauth.Type_ m
  | MTattach m => Tattach.Type_ m
  | MRattach m => Rattach.Type_ m
  | MTflush m => Tflush.Type_ m
  | MRflush m => Rflush.Type_ m
  | MTwalk m => Twalk.Type_ m
  | MRwalk m => Rwalk.Type_ m
  | MTread m => Tread.Type_ m
  | MRread m => Rread.Type_ m
  | MTwrite m => Twrite.Type_ m
  | MRwrite m => Rwrite.Type_ m
  | MTclunk m => Tclunk.Type_ m
  | MRclunk m => Rclunk.Type_ m
  | MTremove m => Tremove.Type_ m
  | MRremove m => Rremove.Type_ m
  | MRlerror m => Rlerror.Type_ m
  | MTstatfs m => Tstatfs.Type_ m
  | MRstatfs m => Rstatfs.Type_ m
  | MTlopen m => Tlopen.Type_ m
  | MRlopen m => Rlopen.Type_ m
  | MTlcreate m => Tlcreate.Type_ m
  | MRlcreate m => Rlcreate.Type_ m
  | MTsymlink m => Tsymlink.Type_ m
  | MRsymlink m => Rsymlink.Type_ m
  | MTmknod m => Tmknod.Type_ m
  | MRmknod m => Rmknod.Type_ m
  | MTrename m => Trename.Type_ m
  | MRrename m => Rrename.Type_ m
  | MTreadlink m => Treadlink.Type_ m
  | MRreadlink m => Rreadlink.Type_ m
  | MTgetattr m => Tgetattr.Type_ m
  | MRgetattr m => Rgetattr.Type_ m
  | MTsetattr m => Tsetattr.Type_ m
  | MRsetattr m => Rsetattr.Type_ m
  | MTxattrwalk m => Txattrwalk.Type_ m
  | MRxattrwalk m => Rxattrwalk.Type_ m
  | MTxattrcreate m => Txattrcreate.Type_ m
  | MRxattrcreate m => Rxattrcreate.Type_ m
  | MTreaddir m => Treaddir.Type_ m
  | MRreaddir m => Rreaddir.Type_ m
  | MTfsync m => Tfsync.Type_ m
  | MRfsync m => Rfsync.Type_ m
  | MTlock m => Tlock.Type_ m
  | MRlock m => Rlock.Type_ m
  | MTgetlock m => Tgetlock.Type_ m
  | MRgetlock m => Rgetlock.Type_ m
  | MTlink m => Tlink.Type_ m
  | MRlink m => Rlink.Type_ m
  | MTmkdir m => Tmkdir.Type_ m
  | MRmkdir m => Rmkdir.Type_ m
  | MTrenameat m => Trenameat.Type_ m
  | MRrenameat m => Rrenameat.Type_ m
  | MTunlinkat m => Tunlinkat.Type_ m
  | MRunlinkat m => Runlinkat.Type_ m
  | MRerror m => Rerror.Type_ m
  | MTopen m => Topen.Type_ m
  | MRopen m => Ropen.Type_ m
  | MTcreate m => Tcreate.Type_ m
  | MRcreate m => Rcreate.Type_ m
  | MTstat m => Tstat.Type_ m
  | MRstat m => Rstat.Type_ m
  | MTwstat m => Twstat.Type_ m
  | MRwstat m => Rwstat.Type_ m
  end.

Definition Message_EncodeTo (m : Message) : M Writer unit :=
  match m with
  | MTversion m => Tversion.EncodeTo m
  | MRversion m => Rversion.EncodeTo m
  | MTauth m => Tauth.EncodeTo m
  | MRauth m => Rauth.EncodeTo m
  | MTattach m => Tattach.EncodeTo m
  | MRattach m => Rattach.EncodeTo m
  | MTflush m => Tflush.EncodeTo m
  | MRflush m => Rflush.EncodeTo m
  | MTwalk m => Twalk.EncodeTo m
  | MRwalk m => Rwalk.EncodeTo m
  | MTread m => Tread.EncodeTo m
  | MRread m => Rread.EncodeTo m
  | MTwrite m => Twrite.EncodeTo m
  | MRwrite m => Rwrite.EncodeTo m
  | MTclunk m => Tclunk.EncodeTo m
  | MRclunk m => Rclunk.EncodeTo m
  | MTremove m => Tremove.EncodeTo m
  | MRremove m => Rremove.EncodeTo m
  | MRlerror m => Rlerror.EncodeTo m
  | MTstatfs m => Tstatfs.EncodeTo m
  | MRstatfs m => Rstatfs.EncodeTo m
  | MTlopen m => Tlopen.EncodeTo m
  | MRlopen m => Rlopen.EncodeTo m
  | MTlcreate m => Tlcreate.EncodeTo m
  | MRlcreate m => Rlcreate.EncodeTo m
  | MTsymlink m => Tsymlink.EncodeTo m
  | MRsymlink m => Rsymlink.EncodeTo m
  | MTmknod m => Tmknod.EncodeTo m
  | MRmknod m => Rmknod.EncodeTo m
  | MTrename m => Trename.EncodeTo m
  | MRrename m => Rrename.EncodeTo m
  | MTreadlink m => Treadlink.EncodeTo m
  | MRreadlink m => Rreadlink.EncodeTo m
  | MTgetattr m => Tgetattr.EncodeTo m
  | MRgetattr m => Rgetattr.EncodeTo m
  | MTsetattr m => Tsetattr.EncodeTo m
  | MRsetattr m => Rsetattr.EncodeTo m
  | MTxattrwalk m => Txattrwalk.EncodeTo m
  | MRxattrwalk m => Rxattrwalk.EncodeTo m
  | MTxattrcreate m => Txattrcreate.EncodeTo m
  | MRxattrcreate m => Rxattrcreate.EncodeTo m
  | MTreaddir m => Treaddir.EncodeTo m
  | MRreaddir m => Rreaddir.EncodeTo m
  | MTfsync m => Tfsync.EncodeTo m
  | MRfsync m => Rfsync.EncodeTo m
  | MTlock m => Tlock.EncodeTo m
  | MRlock m => Rlock.EncodeTo m
  | MTgetlock m => Tgetlock.EncodeTo m
  | MRgetlock m => Rgetlock.EncodeTo m
  | MTlink m => Tlink.EncodeTo m
  | MRlink m => Rlink.EncodeTo m
  | MTmkdir m => Tmkdir.EncodeTo m
  | MRmkdir m => Rmkdir.EncodeTo m
  | MTrenameat m => Trenameat.EncodeTo m
  | MRrenameat m => Rrenameat.EncodeTo m
  | MTunlinkat m => Tunlinkat.EncodeTo m
  | MRunlinkat m => Runlinkat.EncodeTo m
  | MRerror m => Rerror.EncodeTo m
  | MTopen m => Topen.EncodeTo m
  | MRopen m => Ropen.EncodeTo m
  | MTcreate m => Tcreate.EncodeTo m
  | MRcreate m => Rcreate.EncodeTo m
  | MTstat m => Tstat.EncodeTo m
  | MRstat m => Rstat.EncodeTo m
  | MTwstat m => Twstat.EncodeTo m
  | MRwstat m => Rwstat.EncodeTo m
  end.

Definition lift {A} (C : A -> Message) (d : M Reader A) : M Reader Message :=
  m ← d; mret (C m).

Definition Message_DecodeFrom (m : Message) : M Reader Message :=
  match m with
  | MTversion _ => lift MTversion Tversion.DecodeFrom
  | MRversion _ => lift MRversion Rversion.DecodeFrom
  | MTauth _ => lift MTauth Tauth.DecodeFrom
  | MRauth _ => lift MRauth Rauth.DecodeFrom
  | MTattach _ => lift MTattach Tattach.DecodeFrom
  | MRattach _ => lift MRattach Rattach.DecodeFrom
  | MTflush _ => lift MTflush Tflush.DecodeFrom
  | MRflush _ => lift MRflush Rflush.DecodeFrom
  | MTwalk _ => lift MTwalk Twalk.DecodeFrom
  | MRwalk _ => lift MRwalk Rwalk.DecodeFrom
  | MTread _ => lift MTread Tread.DecodeFrom
  | MRread _ => lift MRread Rread.DecodeFrom
  | MTwrite _ => lift MTwrite Twrite.DecodeFrom
  | MRwrite _ => lift MRwrite Rwrite.DecodeFrom
  | MTclunk _ => lift MTclunk Tclunk.DecodeFrom
  | MRclunk _ => lift MRclunk Rclunk.DecodeFrom
  | MTremove _ => lift MTremove Tremove.DecodeFrom
  | MRremove _ => lift MRremove Rremove.DecodeFrom
  | MRlerror _ => lift MRlerror Rlerror.DecodeFrom
  | MTstatfs _ => lift MTstatfs Tstatfs.DecodeFrom
  | MRstatfs _ => lift MRstatfs Rstatfs.DecodeFrom
  | MTlopen _ => lift MTlopen Tlopen.DecodeFrom
  | MRlopen _ => lift MRlopen Rlopen.DecodeFrom
  | MTlcreate _ => lift MTlcreate Tlcreate.DecodeFrom
  | MRlcreate _ => lift MRlcreate Rlcreate.DecodeFrom
  | MTsymlink _ => lift MTsymlink Tsymlink.DecodeFrom
  | MRsymlink _ => lift MRsymlink Rsymlink.DecodeFrom
  | MTmknod _ => lift MTmknod Tmknod.DecodeFrom
  | MRmknod _ => lift MRmknod Rmknod.DecodeFrom
  | MTrename _ => lift MTrename Trename.DecodeFrom
  | MRrename _ => lift MRrename Rrename.DecodeFrom
  | MTreadlink _ => lift MTreadlink Treadlink.DecodeFrom
  | MRreadlink _ => lift MRreadlink Rreadlink.DecodeFrom
  | MTgetattr _ => lift MTgetattr Tgetattr.DecodeFrom
  | MRgetattr _ => lift MRgetattr Rgetattr.DecodeFrom
  | MTsetattr _ => lift MTsetattr Tsetattr.DecodeFrom
  | MRsetattr _ => lift MRsetattr Rsetattr.DecodeFrom
  | MTxattrwalk _ => lift MTxattrwalk Txattrwalk.DecodeFrom
  | MRxattrwalk _ => lift MRxattrwalk Rxattrwalk.DecodeFrom
  | MTxattrcreate _ => lift MTxattrcreate Txattrcreate.DecodeFrom
  | MRxattrcreate _ => lift MRxattrcreate Rxattrcreate.DecodeFrom
  | MTreaddir _ => lift MTreaddir Treaddir.DecodeFrom
  | MRreaddir _ => lift MRreaddir Rreaddir.DecodeFrom
  | MTfsync _ => lift MTfsync Tfsync.DecodeFrom
  | MRfsync _ => lift MRfsync Rfsync.DecodeFrom
  | MTlock _ => lift MTlock Tlock.DecodeFrom
  | MRlock _ => lift MRlock Rlock.DecodeFrom
  | MTgetlock _ => lift MTgetlock Tgetlock.DecodeFrom
  | MRgetlock _ => lift MRgetlock Rgetlock.DecodeFrom
  | MTlink _ => lift MTlink Tlink.DecodeFrom
  | MRlink _ => lift MRlink Rlink.DecodeFrom
  | MTmkdir _ => lift MTmkdir Tmkdir.DecodeFrom
  | MRmkdir _ => lift MRmkdir Rmkdir.DecodeFrom
  | MTrenameat _ => lift MTrenameat Trenameat.DecodeFrom
  | MRrenameat _ => lift MRrenameat Rrenameat.DecodeFrom
  | MTunlinkat _ => lift MTunlinkat Tunlinkat.DecodeFrom
  | MRunlinkat _ => lift MRunlinkat Runlinkat.DecodeFrom
  | MRerror _ => lift MRerror Rerror.DecodeFrom
  | MTopen _ => lift MTopen Topen.DecodeFrom
  | MRopen _ => lift MRopen Ropen.DecodeFrom
  | MTcreate _ => lift MTcreate Tcreate.DecodeFrom
  | MRcreate _ => lift MRcreate Rcreate.DecodeFrom
  | MTstat _ => lift MTstat Tstat.DecodeFrom
  | MRstat _ => lift MRstat Rstat.DecodeFrom
  | MTwstat _ => lift MTwstat Twstat.DecodeFrom
  | MRwstat _ => lift MRwstat Rwstat.DecodeFrom
  end.

Definition Message_wire (m : Message) : bytes :=
  match m with
  | MTversion m => Tversion.wire m
  | MRversion m => Rversion.wire m
  | MTauth m => Tauth.wire m
  | MRauth m => Rauth.wire m
  | MTattach m => Tattach.wire m
  | MRattach m => Rattach.wire m
  | MTflush m => Tflush.wire m
  | MRflush m => Rflush.wire m
  | MTwalk m => Twalk.wire m
  | MRwalk m => Rwalk.wire m
  | MTread m => Tread.wire m
  | MRread m => Rread.wire m
  | MTwrite m => Twrite.wire m
  | MRwrite m => Rwrite.wire m
  | MTclunk m => Tclunk.wire m
  | MRclunk m => Rclunk.wire m
  | MTremove m => Tremove.wire m
  | MRremove m => Rremove.wire m
  | MRlerror m => Rlerror.wire m
  | MTstatfs m => Tstatfs.wire m
  | MRstatfs m => Rstatfs.wire m
  | MTlopen m => Tlopen.wire m
  | MRlopen m => Rlopen.wire m
  | MTlcreate m => Tlcreate.wire m
  | MRlcreate m => Rlcreate.wire m
  | MTsymlink m => Tsymlink.wire m
  | MRsymlink m => Rsymlink.wire m
  | MTmknod m => Tmknod.wire m
  | MRmknod m => Rmknod.wire m
  | MTrename m => Trename.wire m
  | MRrename m => Rrename.wire m
  | MTreadlink m => Treadlink.wire m
  | MRreadlink m => Rreadlink.wire m
  | MTgetattr m => Tgetattr.wire m
  | MRgetattr m => Rgetattr.wire m
  | MTsetattr m => Tsetattr.wire m
  | MRsetattr m => Rsetattr.wire m
  | MTxattrwalk m => Txattrwalk.wire m
  | MRxattrwalk m => Rxattrwalk.wire m
  | MTxattrcreate m => Txattrcreate.wire m
  | MRxattrcreate m => Rxattrcreate.wire m
  | MTreaddir m => Treaddir.wire m
  | MRreaddir m => Rreaddir.wire m
  | MTfsync m => Tfsync.wire m
  | MRfsync m => Rfsync.wire m
  | MTlock m => Tlock.wire m
  | MRlock m => Rlock.wire m
  | MTgetlock m => Tgetlock.wire m
  | MRgetlock m => Rgetlock.wire m
  | MTlink m => Tlink.wire m
  | MRlink m => Rlink.wire m
  | MTmkdir m => Tmkdir.wire m
  | MRmkdir m => Rmkdir.wire m
  | MTrenameat m => Trenameat.wire m
  | MRrenameat m => Rrenameat.wire m
  | MTunlinkat m => Tunlinkat.wire m
  | MRunlinkat m => Runlinkat.wire m
  | MRerror m => Rerror.wire m
  | MTopen m => Topen.wire m
  | MRopen m => Ropen.wire m
  | MTcreate m => Tcreate.wire m
  | MRcreate m => Rcreate.wire m
  | MTstat m => Tstat.wire m
  | MRstat m => Rstat.wire m
  | MTwstat m => Twstat.wire m
  | MRwstat m => Rwstat.wire m
  end.

Definition Message_encodable (m : Message) : Prop :=
  match m with
  | MTversion m => Tversion.encodable m
  | MRversion m => Rversion.encodable m
  | MTauth m => Tauth.encodable m
  | MRauth m => Rauth.encodable m
  | MTattach m => Tattach.encodable m
  | MRattach m => Rattach.encodable m
  | MTflush m => Tflush.encodable m
  | MRflush m => Rflush.encodable m
  | MTwalk m => Twalk.encodable m
  | MRwalk m => Rwalk.encodable m
  | MTread m => Tread.encodable m
  | MRread m => Rread.encodable m
  | MTwrite m => Twrite.encodable m
  | MRwrite m => Rwrite.encodable m
  | MTclunk m => Tclunk.encodable m
  | MRclunk m => Rclunk.encodable m
  | MTremove m => Tremove.encodable m
  | MRremove m => Rremove.encodable m
  | MRlerror m => Rlerror.encodable m
  | MTstatfs m => Tstatfs.encodable m
  | MRstatfs m => Rstatfs.encodable m
  | MTlopen m => Tlopen.encodable m
  | MRlopen m => Rlopen.encodable m
  | MTlcreate m => Tlcreate.encodable m
  | MRlcreate m => Rlcreate.encodable m
  | MTsymlink m => Tsymlink.encodable m
  | MRsymlink m => Rsymlink.encodable m
  | MTmknod m => Tmknod.encodable m
  | MRmknod m => Rmknod.encodable m
  | MTrename m => Trename.encodable m
  | MRrename m => Rrename.encodable m
  | MTreadlink m => Treadlink.encodable m
  | MRreadlink m => Rreadlink.encodable m
  | MTgetattr m => Tgetattr.encodable m
  | MRgetattr m => Rgetattr.encodable m
  | MTsetattr m => Tsetattr.encodable m
  | MRsetattr m => Rsetattr.encodable m
  | MTxattrwalk m => Txattrwalk.encodable m
  | MRxattrwalk m => Rxattrwalk.encodable m
  | MTxattrcreate m => Txattrcreate.encodable m
  | MRxattrcreate m => Rxattrcreate.encodable m
  | MTreaddir m => Treaddir.encodable m
  | MRreaddir m => Rreaddir.encodable m
  | MTfsync m => Tfsync.encodable m
  | MRfsync m => Rfsync.encodable m
  | MTlock m => Tlock.encodable m
  | MRlock m => Rlock.encodable m
  | MTgetlock m => Tgetlock.encodable m
  | MRgetlock m => Rgetlock.encodable m
  | MTlink m => Tlink.encodable m
  | MRlink m => Rlink.encodable m
  | MTmkdir m => Tmkdir.encodable m
  | MRmkdir m => Rmkdir.encodable m
  | MTrenameat m => Trenameat.encodable m
  | MRrenameat m => Rrenameat.encodable m
  | MTunlinkat m => Tunlinkat.encodable m
  | MRunlinkat m => Runlinkat.encodable m
  | MRerror m => Rerror.encodable m
  | MTopen m => Topen.encodable m
  | MRopen m => Ropen.encodable m
  | MTcreate m => Tcreate.encodable m
  | MRcreate m => Rcreate.encodable m
  | MTstat m => Tstat.encodable m
  | MRstat m => Rstat.encodable m
  | MTwstat m => Twstat.encodable m
  | MRwstat m => Rwstat.encodable m
  end.

Definition Message_wf (m : Message) : Prop :=
  match m with
  | MTversion m => Tversion.wf m
  | MRversion m => Rversion.wf m
  | MTauth m => Tauth.wf m
  | MRauth m => Rauth.wf m
  | MTattach m => Tattach.wf m
  | MRattach m => Rattach.wf m
  | MTflush m => Tflush.wf m
  | MRflush m => Rflush.wf m
  | MTwalk m => Twalk.wf m
  | MRwalk m => Rwalk.wf m
  | MTread m => Tread.wf m
  | MRread m => Rread.wf m
  | MTwrite m => Twrite.wf m
  | MRwrite m => Rwrite.wf m
  | MTclunk m => Tclunk.wf m
  | MRclunk m => Rclunk.wf m
  | MTremove m => Tremove.wf m
  | MRremove m => Rremove.wf m
  | MRlerror m => Rlerror.wf m
  | MTstatfs m => Tstatfs.wf m
  | MRstatfs m => Rstatfs.wf m
  | MTlopen m => Tlopen.wf m
  | MRlopen m => Rlopen.wf m
  | MTlcreate m => Tlcreate.wf m
  | MRlcreate m => Rlcreate.wf m
  | MTsymlink m => Tsymlink.wf m
  | MRsymlink m => Rsymlink.wf m
  | MTmknod m => Tmknod.wf m
  | MRmknod m => Rmknod.wf m
  | MTrename m => Trename.wf m
  | MRrename m => Rrename.wf m
  | MTreadlink m => Treadlink.wf m
  | MRreadlink m => Rreadlink.wf m
  | MTgetattr m => Tgetattr.wf m
  | MRgetattr m => Rgetattr.wf m
  | MTsetattr m => Tsetattr.wf m
  | MRsetattr m => Rsetattr.wf m
  | MTxattrwalk m => Txattrwalk.wf m
  | MRxattrwalk m => Rxattrwalk.wf m
  | MTxattrcreate m => Txattrcreate.wf m
  | MRxattrcreate m => Rxattrcreate.wf m
  | MTreaddir m => Treaddir.wf m
  | MRreaddir m => Rreaddir.wf m
  | MTfsync m => Tfsync.wf m
  | MRfsync m => Rfsync.wf m
  | MTlock m => Tlock.wf m
  | MRlock m => Rlock.wf m
  | MTgetlock m => Tgetlock.wf m
  | MRgetlock m => Rgetlock.wf m
  | MTlink m => Tlink.wf m
  | MRlink m => Rlink.wf m
  | MTmkdir m => Tmkdir.wf m
  | MRmkdir m => Rmkdir.wf m
  | MTrenameat m => Trenameat.wf m
  | MRrenameat m => Rrenameat.wf m
  | MTunlinkat m => Tunlinkat.wf m
  | MRunlinkat m => Runlinkat.wf m
  | MRerror m => Rerror.wf m
  | MTopen m => Topen.wf m
  | MRopen m => Ropen.wf m
  | MTcreate m => Tcreate.wf m
  | MRcreate m => Rcreate.wf m
  | MTstat m => Tstat.wf m
  | MRstat m => Rstat.wf m
  | MTwstat m => Twstat.wf m
  | MRwstat m => Rwstat.wf m
  end.

(** The zero message of the same Go type. *)
Definition reset (m : Message) : Message :=
  match m with
  | MTversion _ => MTversion Tversion.zero
  | MRversion _ => MRversion Rversion.zero
  | MTauth _ => MTauth Tauth.zero
  | MRauth _ => MRauth Rauth.zero
  | MTattach _ => MTattach Tattach.zero
  | MRattach _ => MRattach Rattach.zero
  | MTflush _ => MTflush Tflush.zero
  | MRflush _ => MRflush Rflush.zero
  | MTwalk _ => MTwalk Twalk.zero
  | MRwalk _ => MRwalk Rwalk.zero
  | MTread _ => MTread Tread.zero
  | MRread _ => MRread Rread.zero
  | MTwrite _ => MTwrite Twrite.zero
  | MRwrite _ => MRwrite Rwrite.zero
  | MTclunk _ => MTclunk Tclunk.zero
  | MRclunk _ => MRclunk Rclunk.zero
  | MTremove _ => MTremove Tremove.zero
  | MRremove _ => MRremove Rremove.zero
  | MRlerror _ => MRlerror Rlerror.zero
  | MTstatfs _ => MTstatfs Tstatfs.zero
  | MRstatfs _ => MRstatfs Rstatfs.zero
  | MTlopen _ => MTlopen Tlopen.zero
  | MRlopen _ => MRlopen Rlopen.zero
  | MTlcreate _ => MTlcreate Tlcreate.zero
  | MRlcreate _ => MRlcreate Rlcreate.zero
  | MTsymlink _ => MTsymlink Tsymlink.zero
  | MRsymlink _ => MRsymlink Rsymlink.zero
  | MTmknod _ => MTmknod Tmknod.zero
  | MRmknod _ => MRmknod Rmknod.zero
  | MTrename _ => MTrename Trename.zero
  | MRrename _ => MRrename Rrename.zero
  | MTreadlink _ => MTreadlink Treadlink.zero
  | MRreadlink _ => MRreadlink Rreadlink.zero
  | MTgetattr _ => MTgetattr Tgetattr.zero
  | MRgetattr _ => MRgetattr Rgetattr.zero
  | MTsetattr _ => MTsetattr Tsetattr.zero
  | MRsetattr _ => MRsetattr Rsetattr.zero
  | MTxattrwalk _ => MTxattrwalk Txattrwalk.zero
  | MRxattrwalk _ => MRxattrwalk Rxattrwalk.zero
  | MTxattrcreate _ => MTxattrcreate Txattrcreate.zero
  | MRxattrcreate _ => MRxattrcreate Rxattrcreate.zero
  | MTreaddir _ => MTreaddir Treaddir.zero
  | MRreaddir _ => MRreaddir Rreaddir.zero
  | MTfsync _ => MTfsync Tfsync.zero
  | MRfsync _ => MRfsync Rfsync.zero
  | MTlock _ => MTlock Tlock.zero
  | MRlock _ => MRlock Rlock.zero
  | MTgetlock _ => MTgetlock Tgetlock.zero
  | MRgetlock _ => MRgetlock Rgetlock.zero
  | MTlink _ => MTlink Tlink.zero
  | MRlink _ => MRlink Rlink.zero
  | MTmkdir _ => MTmkdir Tmkdir.zero
  | MRmkdir _ => MRmkdir Rmkdir.zero
  | MTrenameat _ => MTrenameat Trenameat.zero
  | MRrenameat _ => MRrenameat Rrenameat.zero
  | MTunlinkat _ => MTunlinkat Tunlinkat.zero
  | MRunlinkat _ => MRunlinkat Runlinkat.zero
  | MRerror _ => MRerror Rerror.zero
  | MTopen _ => MTopen Topen.zero
  | MRopen _ => MRopen Ropen.zero
  | MTcreate _ => MTcreate Tcreate.zero
  | MRcreate _ => MRcreate Rcreate.zero
  | MTstat _ => MTstat Tstat.zero
  | MRstat _ => MRstat Rstat.zero
  | MTwstat _ => MTwstat Twstat.zero
  | MRwstat _ => MRwstat Rwstat.zero
  end.

(** ** Constructing messages by type

    The cases of the three switches, in source order. *)

Definition baseMessages : list (MessageType * Message) := [
  (TypeTversion, MTversion Tversion.zero);
  (TypeRversion, MRversion Rversion.zero);
  (TypeTauth, MTauth Tauth.zero);
  (TypeRauth, MRauth Rauth.zero);
  (TypeTattach, MTattach Tattach.zero);
  (TypeRattach, MRattach Rattach.zero);
  (TypeTflush, MTflush Tflush.zero);
  (TypeRflush, MRflush Rflush.zero);
  (TypeTwalk, MTwalk Twalk.zero);
  (TypeRwalk, MRwalk Rwalk.zero);
  (TypeTread, MTread Tread.zero);
  (TypeRread, MRread Rread.zero);
  (TypeTwrite, MTwrite Twrite.zero);
  (TypeRwrite, MRwrite Rwrite.zero);
  (TypeTclunk, MTclunk Tclunk.zero);
  (TypeRclunk, MRclunk Rclunk.zero);
  (TypeTremove, MTremove Tremove.zero);
  (TypeRremove, MRremove Rremove.zero)
].

Definition NewBaseMessage (t : MessageType) : option Message := assoc t baseMessages.

Module p9l.
Definition cases : list (MessageType * Message) := [
  (TypeRlerror, MRlerror Rlerror.zero);
  (TypeTstatfs, MTstatfs Tstatfs.zero);
  (TypeRstatfs, MRstatfs Rstatfs.zero);
  (TypeTlopen, MTlopen Tlopen.zero);
  (TypeRlopen, MRlopen Rlopen.zero);
  (TypeTlcreate, MTlcreate Tlcreate.zero);
  (TypeRlcreate, MRlcreate Rlcreate.zero);
  (TypeTsymlink, MTsymlink Tsymlink.zero);
  (TypeRsymlink, MRsymlink Rsymlink.zero);
  (TypeTmknod, MTmknod Tmknod.zero);
  (TypeRmknod, MRmknod Rmknod.zero);
  (TypeTrename, MTrename Trename.zero);
  (TypeRrename, MRrename Rrename.zero);
  (TypeTreadlink, MTreadlink Treadlink.zero);
  (TypeRreadlink, MRreadlink Rreadlink.zero);
  (TypeTgetattr, MTgetattr Tgetattr.zero);
  (TypeRgetattr, MRgetattr Rgetattr.zero);
  (TypeTsetattr, MTsetattr Tsetattr.zero);
  (TypeRsetattr, MRsetattr Rsetattr.zero);
  (TypeTxattrwalk, MTxattrwalk Txattrwalk.zero);
  (TypeRxattrwalk, MRxattrwalk Rxattrwalk.zero);
  (TypeTxattrcreate, MTxattrcreate Txattrcreate.zero);
  (TypeRxattrcreate, MRxattrcreate Rxattrcreate.zero);
  (TypeTreaddir, MTreaddir Treaddir.zero);
  (TypeRreaddir, MRreaddir Rreaddir.zero);
  (TypeTfsync, MTfsync Tfsync.zero);
  (TypeRfsync, MRfsync Rfsync.zero);
  (TypeTlock, MTlock Tlock.zero);
  (TypeRlock, MRlock Rlock.zero);
  (TypeTgetlock, MTgetlock Tgetlock.zero);
  (TypeRgetlock, MRgetlock Rgetlock.zero);
  (TypeTlink, MTlink Tlink.zero);
  (TypeRlink, MRlink Rlink.zero);
  (TypeTmkdir, MTmkdir Tmkdir.zero);
  (TypeRmkdir, MRmkdir Rmkdir.zero);
  (TypeTrenameat, MTrenameat Trenameat.zero);
  (TypeRrenameat, MRrenameat Rrenameat.zero);
  (TypeTunlinkat, MTunlinkat Tunlinkat.zero);
  (TypeRunlinkat, MRunlinkat Runlinkat.zero)
].

Definition newMessage (t : MessageType) : result Message :=
  match assoc t cases with
  | Some m => Ok m
  | None =>
      match NewBaseMessage t with
      | Some m => Ok m
      | None => Err (Errorf "unknown message type %d" [t])
      end
  end.
End p9l.

Module p9u.
Definition cases : list (MessageType * Message) := [
  (TypeRerror, MRerror Rerror.zero);
  (TypeTopen, MTopen Topen.zero);
  (TypeRopen, MRopen Ropen.zero);
  (TypeTcreate, MTcreate Tcreate.zero);
  (TypeRcreate, MRcreate Rcreate.zero);
  (TypeTstat, MTstat Tstat.zero);
  (TypeRstat, MRstat Rstat.zero);
  (TypeTwstat, MTwstat Twstat.zero);
  (TypeRwstat, MRwstat Rwstat.zero)
].

Definition newMessage (t : MessageType) : result Message :=
  match assoc t cases with
  | Some m => Ok m
  | None =>
      match NewBaseMessage t with
      | Some m => Ok m
      | None => Err (Errorf "unknown message type %d" [t])
      end
  end.
End p9u.

(** ** The union implements the interface *)

#[export] Instance Message_encodable_dec m : Decision (Message_encodable m).
Proof. destruct m; cbn; apply _. Defined.

Lemma Message_Type_range m : u8 (Message_Type m).
Proof. destruct m; by vm_compute. Qed.

(** A message's Go type is determined by its type byte: the three tables
    together list every type once. *)
Definition allMessages : list (MessageType * Message) := p9l.cases ++ p9u.cases ++ baseMessages.

Lemma allMessages_reset m : assoc (Message_Type m) allMessages = Some (reset m).
Proof. by destruct m. Qed.

Lemma Message_Type_reset m m' : Message_Type m = Message_Type m' -> reset m = reset m'.
Proof.
  intros H. pose proof (allMessages_reset m) as H1. rewrite H, allMessages_reset in H1.
  by injection H1.
Qed.

Lemma lift_decoder {A} (C : A -> Message) (a0 : A) d wf wire :
  decoder d wf wire ->
  (forall a, Message_wire (C a) = wire a) -> (forall a, Message_wf (C a) <-> wf a) ->
  (forall a, Message_Type (C a) = Message_Type (C a0)) ->
  (forall m, reset m = reset (C a0) -> exists a, m = C a) ->
  decoder (lift C d) (fun m => Message_wf m /\ Message_Type m = Message_Type (C a0)) Message_wire.
Proof.
  intros Hd Hw Hwf HT HC. split.
  - intros m r rest [Hm Ht] Hav. apply Message_Type_reset, HC in Ht as [a ->].
    rewrite Hw in *. apply Hwf in Hm.
    by eapply (bind_complete_last _ _ wire _ a); [done|..].
  - intros r m r' H. apply mbind_Ok_inv in H as (a & r1 & E & [= <- <-]).
    apply (decoder_sound Hd) in E as [Ha T]. by rewrite Hw, Hwf, HT.
Qed.

Ltac same_kind := let m := fresh in let H := fresh in
  intros m H; destruct m; try discriminate H; by eexists.

Ltac lift_with H := apply (lift_decoder _ _ _ _ _ H); [done|done|done|same_kind].

Lemma Message_decoder m0 :
  decoder (Message_DecodeFrom m0)
    (fun m => Message_wf m /\ Message_Type m = Message_Type m0) Message_wire.
Proof.
  destruct m0; cbn [Message_DecodeFrom].
  - lift_with Tversion.Tversion_decoder.
  - lift_with Rversion.Rversion_decoder.
  - lift_with Tauth.Tauth_decoder.
  - lift_with Rauth.Rauth_decoder.
  - lift_with Tattach.Tattach_decoder.
  - lift_with Rattach.Rattach_decoder.
  - lift_with Tflush.Tflush_decoder.
  - lift_with Rflush.Rflush_decoder.
  - lift_with Twalk.Twalk_decoder.
  - lift_with Rwalk.Rwalk_decoder.
  - lift_with Tread.Tread_decoder.
  - lift_with Rread.Rread_decoder.
  - lift_with Twrite.Twrite_decoder.
  - lift_with Rwrite.Rwrite_decoder.
  - lift_with Tclunk.Tclunk_decoder.
  - lift_with Rclunk.Rclunk_decoder.
  - lift_with Tremove.Tremove_decoder.
  - lift_with Rremove.Rremove_decoder.
  - lift_with Rlerror.Rlerror_decoder.
  - lift_with Tstatfs.Tstatfs_decoder.
  - lift_with Rstatfs.Rstatfs_decoder.
  - lift_with Tlopen.Tlopen_decoder.
  - lift_with Rlopen.Rlopen_decoder.
  - lift_with Tlcreate.Tlcreate_decoder.
  - lift_with Rlcreate.Rlcreate_decoder.
  - lift_with Tsymlink.Tsymlink_decoder.
  - lift_with Rsymlink.Rsymlink_decoder.
  - lift_with Tmknod.Tmknod_decoder.
  - lift_with Rmknod.Rmknod_decoder.
  - lift_with Trename.Trename_decoder.
  - lift_with Rrename.Rrename_decoder.
  - lift_with Treadlink.Treadlink_decoder.
  - lift_with Rreadlink.Rreadlink_decoder.
  - lift_with Tgetattr.Tgetattr_decoder.
  - lift_with Rgetattr.Rgetattr_decoder.
  - lift_with Tsetattr.Tsetattr_decoder.
  - lift_with Rsetattr.Rsetattr_decoder.
  - lift_with Txattrwalk.Txattrwalk_decoder.
  - lift_with Rxattrwalk.Rxattrwalk_decoder.
  - lift_with Txattrcreate.Txattrcreate_decoder.
  - lift_with Rxattrcreate.Rxattrcreate_decoder.
  - lift_with Treaddir.Treaddir_decoder.
  - lift_with Rreaddir.Rreaddir_decoder.
  - lift_with Tfsync.Tfsync_decoder.
  - lift_with Rfsync.Rfsync_decoder.
  - lift_with Tlock.Tlock_decoder.
  - lift_with Rlock.Rlock_decoder.
  - lift_with Tgetlock.Tgetlock_decoder.
  - lift_with Rgetlock.Rgetlock_decoder.
  - lift_with Tlink.Tlink_decoder.
  - lift_with Rlink.Rlink_decoder.
  - lift_with Tmkdir.Tmkdir_decoder.
  - lift_with Rmkdir.Rmkdir_decoder.
  - lift_with Trenameat.Trenameat_decoder.
  - lift_with Rrenameat.Rrenameat_decoder.
  - lift_with Tunlinkat.Tunlinkat_decoder.
  - lift_with Runlinkat.Runlinkat_decoder.
  - lift_with Rerror.Rerror_decoder.
  - lift_with Topen.Topen_decoder.
  - lift_with Ropen.Ropen_decoder.
  - lift_with Tcreate.Tcreate_decoder.
  - lift_with Rcreate.Rcreate_decoder.
  - lift_with Tstat.Tstat_decoder.
  - lift_with Rstat.Rstat_decoder.
  - lift_with Twstat.Twstat_decoder.
  - lift_with Rwstat.Rwstat_decoder.
Qed.

Lemma Message_emits m : Message_encodable m -> emits (Message_EncodeTo m) (Message_wire m).
Proof.
  destruct m; cbn.
  - apply Tversion.Tversion_emits.
  - apply Rversion.Rversion_emits.
  - apply Tauth.Tauth_emits.
  - apply Rauth.Rauth_emits.
  - apply Tattach.Tattach_emits.
  - apply Rattach.Rattach_emits.
  - apply Tflush.Tflush_emits.
  - apply Rflush.Rflush_emits.
  - apply Twalk.Twalk_emits.
  - apply Rwalk.Rwalk_emits.
  - apply Tread.Tread_emits.
  - apply Rread.Rread_emits.
  - apply Twrite.Twrite_emits.
  - apply Rwrite.Rwrite_emits.
  - apply Tclunk.Tclunk_emits.
  - apply Rclunk.Rclunk_emits.
  - apply Tremove.Tremove_emits.
  - apply Rremove.Rremove_emits.
  - apply Rlerror.Rlerror_emits.
  - apply Tstatfs.Tstatfs_emits.
  - apply Rstatfs.Rstatfs_emits.
  - apply Tlopen.Tlopen_emits.
  - apply Rlopen.Rlopen_emits.
  - apply Tlcreate.Tlcreate_emits.
  - apply Rlcreate.Rlcreate_emits.
  - apply Tsymlink.Tsymlink_emits.
  - apply Rsymlink.Rsymlink_emits.
  - apply Tmknod.Tmknod_emits.
  - apply Rmknod.Rmknod_emits.
  - apply Trename.Trename_emits.
  - apply Rrename.Rrename_emits.
  - apply Treadlink.Treadlink_emits.
  - apply Rreadlink.Rreadlink_emits.
  - apply Tgetattr.Tgetattr_emits.
  - apply Rgetattr.Rgetattr_emits.
  - apply Tsetattr.Tsetattr_emits.
  - apply Rsetattr.Rsetattr_emits.
  - apply Txattrwalk.Txattrwalk_emits.
  - apply Rxattrwalk.Rxattrwalk_emits.
  - apply Txattrcreate.Txattrcreate_emits.
  - apply Rxattrcreate.Rxattrcreate_emits.
  - apply Treaddir.Treaddir_emits.
  - apply Rreaddir.Rreaddir_emits.
  - apply Tfsync.Tfsync_emits.
  - apply Rfsync.Rfsync_emits.
  - apply Tlock.Tlock_emits.
  - apply Rlock.Rlock_emits.
  - apply Tgetlock.Tgetlock_emits.
  - apply Rgetlock.Rgetlock_emits.
  - apply Tlink.Tlink_emits.
  - apply Rlink.Rlink_emits.
  - apply Tmkdir.Tmkdir_emits.
  - apply Rmkdir.Rmkdir_emits.
  - apply Trenameat.Trenameat_emits.
  - apply Rrenameat.Rrenameat_emits.
  - apply Tunlinkat.Tunlinkat_emits.
  - apply Runlinkat.Runlinkat_emits.
  - apply Rerror.Rerror_emits.
  - apply Topen.Topen_emits.
  - apply Ropen.Ropen_emits.
  - apply Tcreate.Tcreate_emits.
  - apply Rcreate.Rcreate_emits.
  - apply Tstat.Tstat_emits.
  - apply Rstat.Rstat_emits.
  - apply Twstat.Twstat_emits.
  - apply Rwstat.Rwstat_emits.
Qed.

Lemma Message_refuses m : ~ Message_encodable m -> refuses (Message_EncodeTo m).
Proof.
  destruct m; cbn.
  - apply Tversion.Tversion_refuses.
  - apply Rversion.Rversion_refuses.
  - apply Tauth.Tauth_refuses.
  - apply Rauth.Rauth_refuses.
  - apply Tattach.Tattach_refuses.
  - apply Rattach.Rattach_refuses.
  - apply Tflush.Tflush_refuses.
  - apply Rflush.Rflush_refuses.
  - apply Twalk.Twalk_refuses.
  - apply Rwalk.Rwalk_refuses.
  - apply Tread.Tread_refuses.
  - apply Rread.Rread_refuses.
  - apply Twrite.Twrite_refuses.
  - apply Rwrite.Rwrite_refuses.
  - apply Tclunk.Tclunk_refuses.
  - apply Rclunk.Rclunk_refuses.
  - apply Tremove.Tremove_refuses.
  - apply Rremove.Rremove_refuses.
  - apply Rlerror.Rlerror_refuses.
  - apply Tstatfs.Tstatfs_refuses.
  - apply Rstatfs.Rstatfs_refuses.
  - apply Tlopen.Tlopen_refuses.
  - apply Rlopen.Rlopen_refuses.
  - apply Tlcreate.Tlcreate_refuses.
  - apply Rlcreate.Rlcreate_refuses.
  - apply Tsymlink.Tsymlink_refuses.
  - apply Rsymlink.Rsymlink_refuses.
  - apply Tmknod.Tmknod_refuses.
  - apply Rmknod.Rmknod_refuses.
  - apply Trename.Trename_refuses.
  - apply Rrename.Rrename_refuses.
  - apply Treadlink.Treadlink_refuses.
  - apply Rreadlink.Rreadlink_refuses.
  - apply Tgetattr.Tgetattr_refuses.
  - apply Rgetattr.Rgetattr_refuses.
  - apply Tsetattr.Tsetattr_refuses.
  - apply Rsetattr.Rsetattr_refuses.
  - apply Txattrwalk.Txattrwalk_refuses.
  - apply Rxattrwalk.Rxattrwalk_refuses.
  - apply Txattrcreate.Txattrcreate_refuses.
  - apply Rxattrcreate.Rxattrcreate_refuses.
  - apply Treaddir.Treaddir_refuses.
  - apply Rreaddir.Rreaddir_refuses.
  - apply Tfsync.Tfsync_refuses.
  - apply Rfsync.Rfsync_refuses.
  - apply Tlock.Tlock_refuses.
  - apply Rlock.Rlock_refuses.
  - apply Tgetlock.Tgetlock_refuses.
  - apply Rgetlock.Rgetlock_refuses.
  - apply Tlink.Tlink_refuses.
  - apply Rlink.Rlink_refuses.
  - apply Tmkdir.Tmkdir_refuses.
  - apply Rmkdir.Rmkdir_refuses.
  - apply Trenameat.Trenameat_refuses.
  - apply Rrenameat.Rrenameat_refuses.
  - apply Tunlinkat.Tunlinkat_refuses.
  - apply Runlinkat.Runlinkat_refuses.
  - apply Rerror.Rerror_refuses.
  - apply Topen.Topen_refuses.
  - apply Ropen.Ropen_refuses.
  - apply Tcreate.Tcreate_refuses.
  - apply Rcreate.Rcreate_refuses.
  - apply Tstat.Tstat_refuses.
  - apply Rstat.Rstat_refuses.
  - apply Twstat.Twstat_refuses.
  - apply Rwstat.Rwstat_refuses.
Qed.

Lemma Message_wf_encodable m : Message_wf m -> Message_encodable m.
Proof.
  destruct m; cbn.
  - apply Tversion.Tversion_wf_encodable.
  - apply Rversion.Rversion_wf_encodable.
  - apply Tauth.Tauth_wf_encodable.
  - apply Rauth.Rauth_wf_encodable.
  - apply Tattach.Tattach_wf_encodable.
  - apply Rattach.Rattach_wf_encodable.
  - apply Tflush.Tflush_wf_encodable.
  - apply Rflush.Rflush_wf_encodable.
  - apply Twalk.Twalk_wf_encodable.
  - apply Rwalk.Rwalk_wf_encodable.
  - apply Tread.Tread_wf_encodable.
  - apply Rread.Rread_wf_encodable.
  - apply Twrite.Twrite_wf_encodable.
  - apply Rwrite.Rwrite_wf_encodable.
  - apply Tclunk.Tclunk_wf_encodable.
  - apply Rclunk.Rclunk_wf_encodable.
  - apply Tremove.Tremove_wf_encodable.
  - apply Rremove.Rremove_wf_encodable.
  - apply Rlerror.Rlerror_wf_encodable.
  - apply Tstatfs.Tstatfs_wf_encodable.
  - apply Rstatfs.Rstatfs_wf_encodable.
  - apply Tlopen.Tlopen_wf_encodable.
  - apply Rlopen.Rlopen_wf_encodable.
  - apply Tlcreate.Tlcreate_wf_encodable.
  - apply Rlcreate.Rlcreate_wf_encodable.
  - apply Tsymlink.Tsymlink_wf_encodable.
  - apply Rsymlink.Rsymlink_wf_encodable.
  - apply Tmknod.Tmknod_wf_encodable.
  - apply Rmknod.Rmknod_wf_encodable.
  - apply Trename.Trename_wf_encodable.
  - apply Rrename.Rrename_wf_encodable.
  - apply Treadlink.Treadlink_wf_encodable.
  - apply Rreadlink.Rreadlink_wf_encodable.
  - apply Tgetattr.Tgetattr_wf_encodable.
  - apply Rgetattr.Rgetattr_wf_encodable.
  - apply Tsetattr.Tsetattr_wf_encodable.
  - apply Rsetattr.Rsetattr_wf_encodable.
  - apply Txattrwalk.Txattrwalk_wf_encodable.
  - apply Rxattrwalk.Rxattrwalk_wf_encodable.
  - apply Txattrcreate.Txattrcreate_wf_encodable.
  - apply Rxattrcreate.Rxattrcreate_wf_encodable.
  - apply Treaddir.Treaddir_wf_encodable.
  - apply Rreaddir.Rreaddir_wf_encodable.
  - apply Tfsync.Tfsync_wf_encodable.
  - apply Rfsync.Rfsync_wf_encodable.
  - apply Tlock.Tlock_wf_encodable.
  - apply Rlock.Rlock_wf_encodable.
  - apply Tgetlock.Tgetlock_wf_encodable.
  - apply Rgetlock.Rgetlock_wf_encodable.
  - apply Tlink.Tlink_wf_encodable.
  - apply Rlink.Rlink_wf_encodable.
  - apply Tmkdir.Tmkdir_wf_encodable.
  - apply Rmkdir.Rmkdir_wf_encodable.
  - apply Trenameat.Trenameat_wf_encodable.
  - apply Rrenameat.Rrenameat_wf_encodable.
  - apply Tunlinkat.Tunlinkat_wf_encodable.
  - apply Runlinkat.Runlinkat_wf_encodable.
  - apply Rerror.Rerror_wf_encodable.
  - apply Topen.Topen_wf_encodable.
  - apply Ropen.Ropen_wf_encodable.
  - apply Tcreate.Tcreate_wf_encodable.
  - apply Rcreate.Rcreate_wf_encodable.
  - apply Tstat.Tstat_wf_encodable.
  - apply Rstat.Rstat_wf_encodable.
  - apply Twstat.Twstat_wf_encodable.
  - apply Rwstat.Rwstat_wf_encodable.
Qed.

#[export] Instance MessageCodec_Message : MessageCodec Message := {
  Type_ := Message_Type;
  EncodeTo := Message_EncodeTo;
  DecodeFrom := Message_DecodeFrom;
  body := Message_wire;
  encodable := Message_encodable;
  wf := Message_wf;
  Type_range := Message_Type_range;
  EncodeTo_emits := Message_emits;
  EncodeTo_refuses := Message_refuses;
  DecodeFrom_decoder := Message_decoder;
  wf_encodable := Message_wf_encodable
}.

