(* ===== verification/MsgCache.v ===== *)
(** * Caches of message objects

    [internal/pool/cache.go] with the caches of the server's requests
    ([server/msgcache_pools.go]) and of the client's responses
    ([client/msgcache.go]): small FIFO channels of pointers to message
    structs, one per message type.  [Get] resets what it hands out; [Put]
    drops the pointer when the channel is full.

    A pointer is an address in a heap of messages.  [System] lets any number
    of goroutines take objects, decode into those they hold and put them
    back, in any order. *)

From S2P Require Import Prelude Types Proto Messages P9l P9u Message.

Definition Cap : nat := 3.
Abbreviation Ptr := nat.

(** ** [Cache[T]]: the pointers in the channel, first in first out *)

Module Cache.
Definition t : Type := list Ptr.
Definition NewCache : t := [].

(** The pointer, if there was one; the reset of [*m] is the caller's. *)
Definition Get (c : t) : option Ptr * t :=
  match c with [] => (None, []) | p :: c => (Some p, c) end.

Definition Put (p : Ptr) (c : t) : t := if (length c <? Cap)%nat then c ++ [p] else c.
End Cache.

(** ** The two sets of caches *)

(** The zero value of the types that are cached. *)
Definition serverZero (t : MessageType) : option Message :=
  if t =? TypeTread then Some (MTread Tread.zero)
  else if t =? TypeTwrite then Some (MTwrite Twrite.zero)
  else if t =? TypeTwalk then Some (MTwalk Twalk.zero)
  else if t =? TypeTclunk then Some (MTclunk Tclunk.zero)
  else if t =? TypeTlopen then Some (MTlopen Tlopen.zero)
  else if t =? TypeTgetattr then Some (MTgetattr Tgetattr.zero)
  else if t =? TypeTlcreate then Some (MTlcreate Tlcreate.zero)
  else if t =? TypeTremove then Some (MTremove Tremove.zero)
  else if t =? TypeTmkdir then Some (MTmkdir Tmkdir.zero)
  else if t =? TypeTsetattr then Some (MTsetattr Tsetattr.zero)
  else if t =? TypeTrename then Some (MTrename Trename.zero)
  else if t =? TypeTsymlink then Some (MTsymlink Tsymlink.zero)
  else if t =? TypeTmknod then Some (MTmknod Tmknod.zero)
  else None.

Definition clientZero (t : MessageType) : option Message :=
  if t =? TypeRread then Some (MRread Rread.zero)
  else if t =? TypeRwrite then Some (MRwrite Rwrite.zero)
  else if t =? TypeRwalk then Some (MRwalk Rwalk.zero)
  else if t =? TypeRclunk then Some (MRclunk Rclunk.zero)
  else if t =? TypeRlopen then Some (MRlopen Rlopen.zero)
  else if t =? TypeRlcreate then Some (MRlcreate Rlcreate.zero)
  else if t =? TypeRlerror then Some (MRlerror Rlerror.zero)
  else None.

(** The fields that may alias a pooled buffer are cleared before a Put. *)
Definition serverClear (m : Message) : Message :=
  match m with
  | MTwrite w => MTwrite (Twrite.mk (Twrite.Fid w) (Twrite.Offset w) [])
  | _ => m
  end.
Definition clientClear (m : Message) : Message :=
  match m with MRread _ => MRread (Rread.mk []) | MRwalk _ => MRwalk (Rwalk.mk []) | _ => m end.

(** [rreadSentinelOK]: the address of the client's zero-copy response. *)
Definition rreadSentinelOK : Ptr := 0%nat.

Record Side : Type := mkSide {
  zero : MessageType -> option Message;
  clear : Message -> Message;
  (** Pointers that are never put. *)
  kept : Ptr -> bool
}.
Definition server : Side := mkSide serverZero serverClear (fun _ => false).
Definition client : Side := mkSide clientZero clientClear (fun p => (p =? rreadSentinelOK)%nat).

Section Caches.
Context (side : Side).

Record Store : Type := mkStore { heap : gmap Ptr Message; caches : gmap MessageType Cache.t; next : Ptr }.

Definition cacheOf (t : MessageType) (s : Store) : Cache.t := default Cache.NewCache (caches s !! t).

(** [getCachedX()]: [None] for a type that has no cache. *)
Definition getCached (t : MessageType) (s : Store) : option (Ptr * Store) :=
  z ← zero side t;
  match Cache.Get (cacheOf t s) with
  | (Some p, c) => Some (p, mkStore (<[p := z]> (heap s)) (<[t := c]> (caches s)) (next s))
  | (None, c) => Some (next s, mkStore (<[next s := z]> (heap s)) (<[t := c]> (caches s)) (S (next s)))
  end.

(** [putCachedMsg] and [putCachedRMsg] *)
Definition putCached (p : Ptr) (s : Store) : Store :=
  match heap s !! p with
  | None => s
  | Some m =>
      match zero side (Message_Type m) with
      | None => s
      | Some _ =>
          if kept side p then s
          else mkStore (<[p := clear side m]> (heap s))
                 (<[Message_Type m := Cache.Put p (cacheOf (Message_Type m) s)]> (caches s)) (next s)
      end
  end.

(** ** Goroutines *)

(** [held]: the objects that some goroutine has. *)
Record State : Type := mkState { store : Store; held : gset Ptr }.

Inductive step : State -> State -> Prop :=
  | step_get t p st s :
      getCached t (store s) = Some (p, st) -> step s (mkState st ({[p]} ∪ held s))
  | step_decode p m m' s :
      p ∈ held s -> heap (store s) !! p = Some m -> Message_Type m' = Message_Type m ->
      step s (mkState (mkStore (<[p := m']> (heap (store s))) (caches (store s)) (next (store s))) (held s))
  | step_put p s :
      p ∈ held s -> step s (mkState (putCached p (store s)) (held s ∖ {[p]})).
End Caches.

(** The sentinel is an object of its own; other objects come after it. *)
Definition noObjects : Store := mkStore {[rreadSentinelOK := MRread Rread.zero]} ∅ 1.
Definition start : State := mkState noObjects ∅.

Record Inv (side : Side) (s : State) : Prop := {
  inv_typed t p : p ∈ cacheOf t (store s) -> exists m, heap (store s) !! p = Some m /\ Message_Type m = t;
  inv_free t p : p ∈ cacheOf t (store s) -> p ∉ held s /\ kept side p = false;
  inv_nodup t : NoDup (cacheOf t (store s));
  inv_cap t : (length (cacheOf t (store s)) <= Cap)%nat;
  inv_next p : is_Some (heap (store s) !! p) \/ p ∈ held s -> (p < next (store s))%nat;
  inv_kept p : kept side p = true -> p ∉ held s /\ (p < next (store s))%nat
}.

(** What the proofs use of a side. *)
Record Side_ok (side : Side) : Prop := {
  zero_type t z : zero side t = Some z -> Message_Type z = t;
  clear_type m : Message_Type (clear side m) = Message_Type m
}.

Ltac cases_of f :=
  unfold f; repeat match goal with |- context [?a =? ?b] => destruct (Z.eqb_spec a b); [intros [= <-]; by subst|] end.

Lemma server_ok : Side_ok server.
Proof. split; [intros t z; cbn; by cases_of serverZero|by intros []]. Qed.
Lemma client_ok : Side_ok client.
Proof. split; [intros t z; cbn; by cases_of clientZero|by intros []]. Qed.

Section Proofs.
Context (side : Side) (Hside : Side_ok side).

Lemma cacheOf_insert t t' c s : cacheOf t' (mkStore (heap s) (<[t := c]> (caches s)) (next s)) = if decide (t = t') then c else cacheOf t' s.
Proof. unfold cacheOf. cbn. rewrite lookup_insert. by case_decide. Qed.

(** One pointer leaves its cache, or a new one is made. *)
Lemma getCached_spec s t p st :
  Inv side s -> getCached side t (store s) = Some (p, st) ->
  p ∉ held s /\ kept side p = false /\ (exists z, zero side t = Some z /\ heap st = <[p := z]> (heap (store s))) /\
  (p < next st)%nat /\ (next (store s) <= next st)%nat /\
  (forall t', cacheOf t' st = (if decide (t = t') then tail (cacheOf t (store s)) else cacheOf t' (store s))) /\
  (forall t' p', p' ∈ cacheOf t' st -> p' <> p).
Proof.
  intros [Ht Hf Hn Hc Hx Hk]. unfold getCached. destruct (zero side t) as [z|] eqn:Ez; [|done]. cbn.
  destruct (cacheOf t (store s)) as [|q c] eqn:Ec; intros [= <- <-]; cbn.
  - assert (HC : forall t', cacheOf t' (mkStore (<[next (store s) := z]> (heap (store s))) (<[t := []]> (caches (store s))) (S (next (store s)))) =
      (if decide (t = t') then [] else cacheOf t' (store s))).
    { intros t'. unfold cacheOf. cbn. rewrite lookup_insert. by case_decide. }
    split_and!; [|destruct (kept side (next (store s))) eqn:E; [|done]|by eauto|lia|lia|done|].
    + intros Hin. pose proof (Hx _ (or_intror Hin)). lia.
    + destruct (Hk _ E). lia.
    + intros t' p' Hp'. rewrite HC in Hp'. case_decide; [by apply not_elem_of_nil in Hp'|].
      destruct (Ht t' p' Hp') as (m & Hm & _). pose proof (Hx p' (or_introl (ex_intro _ _ Hm))). lia.
  - assert (HC : forall t', cacheOf t' (mkStore (<[q := z]> (heap (store s))) (<[t := c]> (caches (store s))) (next (store s))) =
      (if decide (t = t') then c else cacheOf t' (store s))).
    { intros t'. unfold cacheOf. cbn. rewrite lookup_insert. by case_decide. }
    assert (Hq : q ∈ cacheOf t (store s)) by (rewrite Ec; apply list_elem_of_here).
    destruct (Ht t q Hq) as (m & Hm & Hmt). pose proof (Hx q (or_introl (ex_intro _ _ Hm))). destruct (Hf t q Hq).
    split_and!; [done|done|by eauto|done|lia|by rewrite ?Ec|].
    intros t' p' Hp' ->. rewrite HC in Hp'. case_decide as E.
    + pose proof (Hn t) as Hnd. rewrite Ec in Hnd. by apply NoDup_cons in Hnd as [Hnq _].
    + destruct (Ht t' q Hp') as (m' & Hm' & Hmt'). congruence.
Qed.

Lemma inv_step s s' : Inv side s -> step side s s' -> Inv side s'.
Proof.
  intros Hi. destruct 1 as [t p st s Hget|p m m' s Hheld Hm Hmt|p s Hheld].
  - destruct (getCached_spec s t p st Hi Hget) as (Hh & Hk & (z & Hz & Hheap) & Hlt & Hle & HC & Hne). destruct Hi as [Ht Hf Hn Hc Hx Hkk].
    assert (Hsub : forall t' p', p' ∈ cacheOf t' st -> p' ∈ cacheOf t' (store s)).
    { intros t' p'. rewrite HC. case_decide; [subst|done]. destruct (cacheOf t' (store s)); [done|]. by right. }
    split; cbn.
    + intros t' p' Hp'. rewrite Hheap, lookup_insert_ne by (symmetry; by eapply Hne). apply Ht. by apply Hsub.
    + intros t' p' Hp'. destruct (Hf t' p' (Hsub _ _ Hp')). specialize (Hne _ _ Hp'). split; [set_solver|done].
    + intros t'. rewrite HC. case_decide; [|apply Hn]. specialize (Hn t). destruct (cacheOf t (store s)); [done|]. by inversion Hn.
    + intros t'. rewrite HC. case_decide; [|apply Hc]. specialize (Hc t). destruct (cacheOf t (store s)); cbn in *; lia.
    + intros p'. rewrite Hheap. intros [Hs|[->%elem_of_singleton|Hin]%elem_of_union]; [|done|].
      * rewrite lookup_insert in Hs. case_decide; [by subst|]. pose proof (Hx p' (or_introl Hs)). lia.
      * pose proof (Hx p' (or_intror Hin)). lia.
    + intros p' Hp'. destruct (Hkk p' Hp'). split; [|lia]. assert (p' <> p) by congruence. set_solver.
  - destruct Hi as [Ht Hf Hn Hc Hx Hkk]. split; cbn; try done.
    + intros t' p' Hp'. destruct (Hf t' p' Hp') as [Hnh _]. rewrite lookup_insert_ne; [by apply Ht|]. intros <-. by apply Hnh.
    + intros p' [Hs|Hin]; [|by auto]. apply Hx. rewrite lookup_insert in Hs. case_decide; [subst; by right|by left].
  - destruct Hi as [Ht Hf Hn Hc Hx Hkk]. assert (Hsame : Inv side (mkState (store s) (held s ∖ {[p]}))).
    { split; cbn; try done.
      - intros t' p' Hp'. destruct (Hf t' p' Hp'). set_solver.
      - intros p' [|]; apply Hx; set_solver.
      - intros p' Hp'. destruct (Hkk p' Hp'). set_solver. }
    unfold putCached. destruct (heap (store s) !! p) as [m|] eqn:Hm; [|done]. destruct (zero side (Message_Type m)) eqn:Ez; [|done].
    destruct (kept side p) eqn:Ek; [done|]. set (t := Message_Type m). set (c := Cache.Put p (cacheOf t (store s))).
    assert (Hcin : forall p', p' ∈ c -> p' = p \/ p' ∈ cacheOf t (store s)).
    { unfold c, Cache.Put. destruct (_ <? _)%nat; [set_solver|auto]. }
    assert (HC : forall t', cacheOf t' (mkStore (<[p := clear side m]> (heap (store s))) (<[t := c]> (caches (store s))) (next (store s))) =
      (if decide (t = t') then c else cacheOf t' (store s))).
    { intros t'. unfold cacheOf. cbn. rewrite lookup_insert. by case_decide. }
    assert (Hfree : forall t', p ∉ cacheOf t' (store s)) by (intros t' Hp; by destruct (Hf t' p Hp)).
    assert (Hin : forall t' p', p' ∈ (if decide (t = t') then c else cacheOf t' (store s)) -> p' = p /\ t = t' \/ p' ∈ cacheOf t' (store s)).
    { intros t' p'. case_decide; [|by right]. subst t'. intros [->|]%Hcin; auto. }
    split; cbn [store held heap next].
    + intros t' p' Hp'. rewrite HC in Hp'. apply Hin in Hp' as [[-> <-]|Hp'].
      * exists (clear side m). by rewrite lookup_insert_eq, (clear_type _ Hside).
      * rewrite lookup_insert_ne; [by apply Ht|]. intros <-. by apply (Hfree t').
    + intros t' p' Hp'. rewrite HC in Hp'. apply Hin in Hp' as [[-> _]|Hp']; [set_solver|]. destruct (Hf t' p' Hp'). set_solver.
    + intros t'. rewrite HC. case_decide; [|apply Hn]. unfold c, Cache.Put. destruct (_ <? _)%nat; [|apply Hn].
      apply NoDup_app. split_and!; [apply Hn| |apply NoDup_singleton]. intros q Hq ->%list_elem_of_singleton. by apply (Hfree t).
    + intros t'. rewrite HC. case_decide; [|apply Hc]. unfold c, Cache.Put.
      destruct (Nat.ltb_spec (length (cacheOf t (store s))) Cap); [rewrite length_app; cbn; lia|apply Hc].
    + intros p' [Hs|Hin']; [|apply Hx; right; set_solver]. rewrite lookup_insert in Hs. case_decide as E; [subst; apply Hx; by right|apply Hx; by left].
    + intros p' Hp'. destruct (Hkk p' Hp'). set_solver.
Qed.
End Proofs.

Lemma inv_start side : (forall p, kept side p = true -> p = rreadSentinelOK) -> Inv side start.
Proof.
  intros Hk. split; unfold cacheOf; cbn; try done.
  - intros t p. rewrite lookup_empty. by intros ?%not_elem_of_nil.
  - intros t p. rewrite lookup_empty. by intros ?%not_elem_of_nil.
  - intros t. rewrite lookup_empty. constructor.
  - intros t. rewrite lookup_empty. cbn. lia.
  - intros p [(m & [<- _]%lookup_singleton_Some)|]; [lia|set_solver].
  - intros p Hp. apply Hk in Hp as ->. split; [set_solver|unfold rreadSentinelOK; lia].
Qed.

(** A cached message object has one holder.  Whatever goroutines take,
    decode into and put back, on the server as on the client: an object that
    Get hands out is held by nobody, is in no cache any more, is the zero
    value of its type (nothing of an earlier message shows), and is never the
    client's zero-copy sentinel; and a cache never holds more than [Cap]. *)
Theorem msgcache_exclusive side s :
  side = server \/ side = client -> rtc (step side) start s ->
  (forall t, (length (cacheOf t (store s)) <= Cap)%nat) /\
  forall t p st, getCached side t (store s) = Some (p, st) ->
    p ∉ held s /\ (forall t', p ∉ cacheOf t' st) /\ kept side p = false /\
    exists z, zero side t = Some z /\ heap st !! p = Some z /\ Message_Type z = t.
Proof.
  intros Hs Hr. assert (Side_ok side /\ forall p, kept side p = true -> p = rreadSentinelOK) as [Hok Hk].
  { destruct Hs as [-> | ->]; [split; [apply server_ok|done]|split; [apply client_ok|]]. intros p Hp. by apply Nat.eqb_eq in Hp. }
  assert (Hi : Inv side s).
  { pose proof (inv_start side Hk) as Hi. clear Hs. induction Hr as [|x y z Hxy _ IH]; [done|]. apply IH. by eapply inv_step. }
  split; [apply (inv_cap _ _ Hi)|]. intros t p st Hget.
  destruct (getCached_spec side s t p st Hi Hget) as (Hh & Hkp & (z & Hz & Hheap) & _ & _ & _ & Hne).
  split_and!; [done|intros t' Hp; by eapply Hne|done|]. exists z. split_and!; [done|by rewrite Hheap, lookup_insert_eq|by eapply zero_type].
Qed.

Lemma msgcache_exclusive_witness :
  exists s p st, rtc (step client) start s /\ getCached client TypeRread (store s) = Some (p, st) /\ p = 1%nat /\
    heap st !! p = Some (MRread Rread.zero) /\ p ∉ held s.
Proof.
  (* take, decode, put: the next Get hands out the same object, reset *)
  set (st1 := mkStore (<[1%nat := MRread Rread.zero]> (heap noObjects)) (<[TypeRread := []]> ∅) 2).
  set (st2 := mkStore (<[1%nat := MRread (Rread.mk [byte_of_Z 7])]> (heap st1)) (caches st1) (next st1)).
  set (s3 := mkState (putCached client 1 st2) (({[1%nat]} ∪ ∅) ∖ {[1%nat]})).
  assert (Hr : rtc (step client) start s3).
  { eapply rtc_l; [apply (step_get client TypeRread 1 st1); by vm_compute|].
    eapply rtc_l; [apply (step_decode client 1 (MRread Rread.zero) (MRread (Rread.mk [byte_of_Z 7]))); [set_solver|by vm_compute|done]|].
    eapply rtc_l; [apply (step_put client 1); cbn; set_solver|]. apply rtc_refl. }
  destruct (getCached client TypeRread (store s3)) as [[p st]|] eqn:Hget; [|by vm_compute in Hget].
  assert (p = 1%nat) as Hp by (by vm_compute in Hget; injection Hget as <- _).
  destruct (msgcache_exclusive client s3 (or_intror eq_refl) Hr) as [_ He].
  destruct (He TypeRread p st Hget) as (Hh & _ & _ & z & Hz & Hst & _).
  exists s3, p, st. split_and!; [done..| |done]. rewrite Hst. f_equal. by vm_compute in Hz; injection Hz as <-.
Defined.
