(* ===== verification/Frame.v ===== *)
(** * Message frames

    [proto/frame.go]: [EncodeFrame] and [DecodeFrame], the
    size-type-tag-body envelope of every message, proved against the
    [MessageCodec] interface; and the [Encode]/[Decode] entry points of the
    two dialects ([proto/p9l/codec.go], [proto/p9u/codec.go]). *)

From S2P Require Import Prelude GoIO Types Proto Messages P9l P9u Message.

Definition MaxMessageSize : Z := HeaderSize + MaxDataSize + 4096.

Definition zeroHeader : bytes := repeat (byte_of_Z 0) (Z.to_nat HeaderSize).

(** [copy(b[off:], bs)], for a [bs] that fits: the patches of the header. *)
Definition patch (off : nat) (bs b : bytes) : bytes :=
  take off b ++ bs ++ drop (off + length bs) b.

Section Frames.
Context {Msg : Type} `{MessageCodec Msg}.

(** The frame is assembled in a pooled [bytes.Buffer] and written with one
    [Write]. *)
Definition EncodeFrame (tag : Tag) (msg : Msg) : M Writer unit := fun w =>
  match EncodeTo msg (Buffer zeroHeader) with
  | (Err e, _) => (Err (Wrapf "encode %s body: %w" [Type_ msg] e), w)
  | (Ok _, buf) =>
      let b := match buf with Buffer b => b | _ => [] end in
      let b := patch 0 (le_bytes 4 (uint_wrap 32 (Z.of_nat (length b)))) b in
      let b := patch 4 [byte_of_Z (Type_ msg)] b in
      let b := patch 5 (le_bytes 2 tag) b in
      wrapf "encode frame: %w" (Write b) w
  end.

(** [newMessage] constructs the zero message of the dialect. *)
Definition DecodeFrame (newMessage : MessageType -> result Msg) : M Reader (Tag * Msg) :=
  size ← wrapf "decode size: %w" ReadUint32;
  if size <? HeaderSize
  then throw (Errorf "message size %d too small (minimum %d)" [size; HeaderSize]) else
  if MaxMessageSize <? size
  then throw (Errorf "message size %d exceeds maximum %d" [size; MaxMessageSize]) else
  msgType ← wrapf "decode type: %w" ReadUint8;
  tag ← wrapf "decode tag: %w" ReadUint16;
  match newMessage msgType with
  | Err e => throw e
  | Ok msg =>
      let bodySize := Z.to_nat (size - HeaderSize) in
      buf ← wrapf_args "decode %s body: %w" [Type_ msg] (ReadFull bodySize);
      match DecodeFrom msg (BytesReader buf) with
      | (Err e, _) => throw (Wrapf "decode %s body: %w" [Type_ msg] e)
      | (Ok msg', br) =>
          if negb (Len (avail br) =? 0)
          then throw (Errorf "decode %s body: %d trailing bytes" [Type_ msg; Len (avail br)])
          else mret (tag, msg')
      end
  end.

(** ** What a frame is *)

Definition frame_size (m : Msg) : Z := HeaderSize + Z.of_nat (length (body m)).

Definition frame (tm : Tag * Msg) : bytes :=
  le_bytes 4 (frame_size tm.2) ++ le_bytes 1 (Type_ tm.2) ++ le_bytes 2 tm.1 ++ body tm.2.

(** The messages a dialect can decode: those whose type it constructs, with
    field values in range, within the frame size limit. *)
Definition frame_wf (newMessage : MessageType -> result Msg) (tm : Tag * Msg) : Prop :=
  u16 tm.1 /\ wf tm.2 /\ frame_size tm.2 <= MaxMessageSize /\
  exists m0, newMessage (Type_ tm.2) = Ok m0.

Lemma length_frame tm : Z.of_nat (length (frame tm)) = frame_size tm.2.
Proof.
  unfold frame, frame_size, HeaderSize. rewrite !length_app, !length_le_bytes. lia.
Qed.

Lemma patch_header (bs : bytes) n t g :
  patch 5 (le_bytes 2 g) (patch 4 (le_bytes 1 t) (patch 0 (le_bytes 4 n) (zeroHeader ++ bs))) =
  le_bytes 4 n ++ le_bytes 1 t ++ le_bytes 2 g ++ bs.
Proof. reflexivity. Qed.

Lemma EncodeFrame_emits tag m : encodable m -> emits (EncodeFrame tag m) (frame (tag, m)).
Proof.
  intros He w. pose proof (EncodeTo_emits m He (Buffer zeroHeader)) as E. cbn [fits push] in E.
  unfold EncodeFrame. rewrite E.
  replace (byte_of_Z _ :: nil) with (le_bytes 1 (Type_ m)) by done.
  cbv zeta. rewrite patch_header, (le_bytes_wrap 4 32) by done.
  replace (Z.of_nat (length (zeroHeader ++ body m))) with (frame_size m)
    by (unfold frame_size, HeaderSize; rewrite length_app; change (length zeroHeader) with 7%nat; lia).
  unfold frame. apply wrapf_emits, Write_emits.
Qed.

Lemma EncodeFrame_refuses tag m : ~ encodable m -> refuses (EncodeFrame tag m).
Proof.
  intros He w. destruct (EncodeTo_refuses m He (Buffer zeroHeader)) as (e & w' & E).
  eexists _, _. unfold EncodeFrame. by rewrite E.
Qed.

(** A message the encoder refuses leaves the connection untouched. *)
Lemma EncodeFrame_refuses_clean tag m w :
  ~ encodable m -> exists e, EncodeFrame tag m w = (Err e, w).
Proof.
  intros He. destruct (EncodeTo_refuses m He (Buffer zeroHeader)) as (e & w' & E).
  eexists. unfold EncodeFrame. by rewrite E.
Qed.

Section Decode.
Context (newMessage : MessageType -> result Msg).
(** [newMessage] constructs a message of the type asked for. *)
Hypothesis newMessage_Type : forall t m, newMessage t = Ok m -> Type_ m = t.

Lemma DecodeFrame_complete tm r rest :
  frame_wf newMessage tm -> avail r = frame tm ++ rest ->
  exists r', DecodeFrame newMessage r = (Ok tm, r') /\ takes r (frame tm) r'.
Proof.
  destruct tm as [tag m]. intros (Htag & Hwf & Hsz & m0 & Hm0) Hav. cbn [fst snd] in *.
  unfold DecodeFrame, frame, wrapf in *. cbn [fst snd] in *.
  assert (7 <= frame_size m) by (unfold frame_size, HeaderSize; lia).
  assert (MaxMessageSize < 2 ^ 32) by done.
  eapply bind_complete; [eauto with wire| |eassumption|intros r1 Hr1].
  { unfold is_uint. lia. }
  apply guard_step; [apply Z.ltb_ge; unfold HeaderSize; lia|].
  apply guard_step; [apply Z.ltb_ge; lia|].
  eapply bind_complete; [eauto with wire|apply Type_range|eassumption|intros r2 Hr2].
  eapply bind_complete; [eauto with wire|done|eassumption|intros r3 Hr3].
  rewrite Hm0.
  eapply (bind_complete_last _ _ (fun d => d) _ (body m));
    [apply wrapf_decoder, ReadFull_decoder| |exact Hr3|intros r4].
  { unfold frame_size. lia. }
  destruct (decoder_complete (DecodeFrom_decoder m0) m (BytesReader (body m)) [])
    as (br & E & T).
  { split; [done|]. symmetry. by apply newMessage_Type. }
  { cbn. by rewrite app_nil_r. }
  rewrite E. rewrite (takes_avail _ _ _ [] T); [done|]. cbn. by rewrite app_nil_r.
Qed.

Lemma DecodeFrame_sound r tm r' :
  DecodeFrame newMessage r = (Ok tm, r') -> frame_wf newMessage tm /\ takes r (frame tm) r'.
Proof.
  unfold DecodeFrame, wrapf. intros H1. decode_inv H1. do 2 guard_inv H1. do 2 decode_inv H1.
  destruct (newMessage x0) as [m0|] eqn:Hm0; [|done].
  apply mbind_Ok_inv in H1 as (buf & r3 & E & H1).
  apply wrapf_ok, ReadFull_Ok_inv in E as [Hl T3].
  destruct (DecodeFrom m0 (BytesReader buf)) as [[m|e] br] eqn:E; [|done].
  apply (decoder_sound (DecodeFrom_decoder m0)) in E as [[Hwf HT] [_ Hav]].
  rewrite (newMessage_Type _ _ Hm0) in HT.
  guard_inv H1. injection H1 as <- <-.
  assert (avail br = []) as Hbr by (unfold Len in *; destruct (avail br); [done|cbn in *; lia]).
  rewrite Hbr, app_nil_r in Hav. cbn in Hav. subst buf.
  assert (frame_size m = x) as Hfs by (unfold frame_size, HeaderSize in *; lia).
  unfold frame_wf, frame. cbn [fst snd]. rewrite Hfs, HT. split; [by eauto|]. eauto 10 with wire.
Qed.

Lemma DecodeFrame_decoder : decoder (DecodeFrame newMessage) (frame_wf newMessage) frame.
Proof. split; [apply DecodeFrame_complete|apply DecodeFrame_sound]. Qed.

(** *** Streams of frames *)

(** [n] successive calls of [Decode] on one connection. *)
Fixpoint decodeFrames (n : nat) : M Reader (list (Tag * Msg)) :=
  match n with
  | O => mret []
  | S n' => tm ← DecodeFrame newMessage; tms ← decodeFrames n'; mret (tm :: tms)
  end.

Fixpoint encodeFrames (tms : list (Tag * Msg)) : M Writer unit :=
  match tms with
  | [] => mret tt
  | tm :: tms' => EncodeFrame tm.1 tm.2;; encodeFrames tms'
  end.

Lemma encodeFrames_emits tms :
  Forall (fun tm => encodable tm.2) tms -> emits (encodeFrames tms) (wire_list frame tms).
Proof.
  induction 1 as [|[tag m] tms Hm _ IH]; cbn [encodeFrames]; [apply ret_emits|].
  apply bind_emits; [by apply EncodeFrame_emits|done].
Qed.

Lemma decodeFrames_decoder n :
  decoder (decodeFrames n)
    (fun tms => length tms = n /\ Forall (frame_wf newMessage) tms) (wire_list frame).
Proof.
  induction n as [|n IH]; split.
  - intros tms r rest [Hl _] Hav. destruct tms; [|done]. exists r. split; [done|apply takes_nil].
  - intros r tms r' [= <- <-]. split; [done|apply takes_nil].
  - intros [|tm tms] r rest [Hl Hwf] Hav; [done|]. injection Hl as Hl.
    apply Forall_cons in Hwf as [Hx Hwf]. unfold wire_list in *. cbn [map concat] in *.
    eapply bind_complete; [apply DecodeFrame_decoder|done|exact Hav|]. intros r1 Hr1.
    by eapply (bind_complete_last _ _ (wire_list frame) _ tms); [apply IH|..].
  - intros r tms r' E. apply mbind_Ok_inv in E as (tm & r1 & E & E').
    apply DecodeFrame_sound in E as [Hx T].
    apply mbind_Ok_inv in E' as (tms' & r2 & E & [= <- <-]).
    apply (decoder_sound IH) in E as [[Hl Hf] T'].
    split; [split; [by f_equal/=|by constructor]|]. by eapply takes_app.
Qed.
End Decode.
End Frames.

(** ** The dialects *)

Lemma assoc_Forall {V} (P : Z -> V -> bool) l k v :
  forallb (fun kv => P kv.1 kv.2) l = true -> assoc k l = Some v -> P k v = true.
Proof.
  induction l as [|[k' v'] l IH]; cbn; [done|]. intros [H1 H2]%andb_true_iff.
  destruct (Z.eqb_spec k k') as [->|]; [by intros [= <-]|auto].
Qed.

Definition keyed (k : Z) (m : Message) : bool := Message_Type m =? k.

Lemma NewBaseMessage_Type t m : NewBaseMessage t = Some m -> Message_Type m = t.
Proof. intros E. apply Z.eqb_eq. by apply (assoc_Forall keyed) in E. Qed.

Module P9L.
Definition Encode : Tag -> Message -> M Writer unit := EncodeFrame.
Definition Decode : M Reader (Tag * Message) := DecodeFrame p9l.newMessage.

Lemma newMessage_Type_L t m : p9l.newMessage t = Ok m -> Message_Type m = t.
Proof.
  unfold p9l.newMessage. destruct (assoc t p9l.cases) eqn:E.
  - intros [= <-]. apply Z.eqb_eq. by apply (assoc_Forall keyed) in E.
  - destruct (NewBaseMessage t) eqn:E'; [|done]. intros [= <-]. by apply NewBaseMessage_Type.
Qed.
End P9L.

Module P9U.
Definition Encode : Tag -> Message -> M Writer unit := EncodeFrame.
Definition Decode : M Reader (Tag * Message) := DecodeFrame p9u.newMessage.

Lemma newMessage_Type_U t m : p9u.newMessage t = Ok m -> Message_Type m = t.
Proof.
  unfold p9u.newMessage. destruct (assoc t p9u.cases) eqn:E.
  - intros [= <-]. apply Z.eqb_eq. by apply (assoc_Forall keyed) in E.
  - destruct (NewBaseMessage t) eqn:E'; [|done]. intros [= <-]. by apply NewBaseMessage_Type.
Qed.
End P9U.

(** ** The frame limit admits every message

    [MaxMessageSize] leaves 4096 bytes around the largest payload; walks and
    strings stay far below it. *)

Lemma length_wire_strings l :
  Forall str_ok l -> Z.of_nat (length (wire_list wire_string l)) <= 65537 * Z.of_nat (length l).
Proof.
  unfold wire_list. induction 1 as [|s l Hs _ IH]; cbn [map concat length]; [lia|].
  rewrite length_app. unfold str_ok, MaxStringLen in Hs.
  pose proof (length_wire_string s). lia.
Qed.

Lemma length_wire_qids l : length (wire_list wire_qid l) = (length l * 13)%nat.
Proof.
  unfold wire_list. induction l as [|q l IH]; cbn [map concat length]; [lia|].
  rewrite length_app, IH. pose proof (length_wire_qid q). unfold QIDSize in *. lia.
Qed.

Ltac unfold_body :=
  match goal with
  | H : ?p ?m |- context [length (?w ?m)] => unfold p, w in *; destruct_and?
  end.

Ltac wire_bound :=
  unfold wire_data; rewrite ?length_app, ?length_le_bytes, ?Nat2Z.inj_add;
  repeat match goal with
         | |- context [Z.of_nat (length (wire_string ?s))] => rewrite (length_wire_string s)
         | |- context [Z.of_nat (length (wire_qid ?q))] => rewrite (length_wire_qid q)
         end;
  unfold str_ok, data_ok, MaxStringLen, QIDSize in *;
  assert (MaxDataSize = 16777216) by done; lia.

Lemma length_wire_nstat s :
  nstat_wf s -> Z.of_nat (length (wire_nstat s)) <= 65539.
Proof.
  intros [_ Hn]. unfold wire_nstat, MaxUint16 in *.
  rewrite length_app, length_le_bytes, Nat2Z.inj_add, Stat.length_wire. lia.
Qed.

Lemma Twalk_size_bound m :
  Twalk.wf m -> Z.of_nat (length (Twalk.wire m)) <= MaxDataSize + 4096.
Proof.
  intros (_ & _ & Hn & Hs). apply length_wire_strings in Hs.
  unfold Twalk.wire, MaxWalkElements in *. wire_bound.
Qed.

Lemma Rwalk_size_bound m :
  Rwalk.wf m -> Z.of_nat (length (Rwalk.wire m)) <= MaxDataSize + 4096.
Proof.
  intros [Hn _]. unfold Rwalk.wire, Rwalk.encodable, MaxWalkElements in *.
  pose proof (length_wire_qids (Rwalk.QIDs m)). wire_bound.
Qed.

Lemma Message_size_bound m :
  Message_wf m -> Z.of_nat (length (Message_wire m)) <= MaxDataSize + 4096.
Proof.
  intros H. destruct m; cbn [Message_wf Message_wire] in *;
    lazymatch goal with
    | |- context [Twalk.wire _] => exact (Twalk_size_bound _ H)
    | |- context [Rwalk.wire _] => exact (Rwalk_size_bound _ H)
    | H : nstat_wf _ |- _ => idtac
    | _ => unfold_body
    end;
    unfold Rread.encodable, Rreaddir.encodable in *;
    try match goal with H : nstat_wf _ |- _ => apply length_wire_nstat in H end.
  all: first [ wire_bound | by vm_compute ].
Qed.

