(* ===== verification/Codec.v ===== *)
(** * Codec theorems

    The properties of the wire codec as its users see it: a frame that was
    encoded is decoded to the same message however the network segments it,
    a frame that decodes is the one encoding of its message, the limits and
    the type dispatch reject everything else, the zero-copy paths agree with
    the generic ones, and the place where the 9P2000.u encoder and decoder
    disagree. *)

From S2P Require Import Prelude GoIO Types Errno Proto Messages P9l P9u Message Frame.

(** The two dialects, by the function that constructs their messages. *)
Inductive Dialect : Type := DialectL | DialectU.

Definition newMessage (d : Dialect) : MessageType -> result Message :=
  match d with DialectL => p9l.newMessage | DialectU => p9u.newMessage end.
Definition Encode (d : Dialect) : Tag -> Message -> M Writer unit :=
  match d with DialectL => P9L.Encode | DialectU => P9U.Encode end.
Definition Decode (d : Dialect) : M Reader (Tag * Message) :=
  match d with DialectL => P9L.Decode | DialectU => P9U.Decode end.

(** The message belongs to the dialect and its fields are in range. *)
Definition valid (d : Dialect) (tag : Tag) (m : Message) : Prop :=
  u16 tag /\ Message_wf m /\ exists m0, newMessage d (Message_Type m) = Ok m0.

Lemma newMessage_Type d t m : newMessage d t = Ok m -> Type_ m = t.
Proof. destruct d; [apply P9L.newMessage_Type_L|apply P9U.newMessage_Type_U]. Qed.

Lemma frame_size_bound m : Message_wf m -> frame_size m <= MaxMessageSize.
Proof.
  intros H%Message_size_bound. unfold frame_size, MaxMessageSize. cbn [body MessageCodec_Message].
  lia.
Qed.

Lemma valid_frame_wf d tag m : valid d tag m <-> frame_wf (newMessage d) (tag, m).
Proof.
  unfold valid, frame_wf. cbn [fst snd wf Type_ MessageCodec_Message].
  pose proof (frame_size_bound m). tauto.
Qed.

Lemma Encode_emits d tag m : Message_encodable m -> emits (Encode d tag m) (frame (tag, m)).
Proof. destruct d; exact (EncodeFrame_emits (Msg:=Message) tag m). Qed.

Lemma Decode_decoder d :
  decoder (Decode d) (fun tm => valid d tm.1 tm.2) frame.
Proof.
  assert (decoder (Decode d) (frame_wf (newMessage d)) frame) as [Hc Hs].
  { destruct d; apply DecodeFrame_decoder; [apply P9L.newMessage_Type_L|apply P9U.newMessage_Type_U]. }
  split.
  - intros [tag m] r rest Hv. apply Hc. by apply valid_frame_wf.
  - intros r [tag m] r' E. apply Hs in E as [Hv T]. by apply valid_frame_wf in Hv.
Qed.

(** ** Round trip and canonicity *)

(** C1: Round trip.  Encoding a valid message of a dialect succeeds, and a
    reader of any kind whose remaining bytes start with the encoding decodes
    to the same tag and message and is left at exactly the first byte after
    the frame. *)
Theorem frame_roundtrip d tag m :
  valid d tag m ->
  exists bs, encode (Encode d tag m) = Ok bs /\
    forall r rest, avail r = bs ++ rest ->
      exists r', Decode d r = (Ok (tag, m), r') /\ avail r' = rest.
Proof.
  intros Hv. exists (frame (tag, m)). split.
  - apply emits_encode, Encode_emits, Message_wf_encodable, Hv.
  - intros r rest Hav. destruct (decoder_complete (Decode_decoder d) (tag, m) r rest Hv Hav)
      as (r' & E & T). exists r'. split; [done|]. by eapply takes_avail.
Qed.

Example frame_roundtrip_witness :
  let m := MTwalk (Twalk.mk 1 2 ["usr"; "lib"]) in
  valid DialectL 7 m /\
  exists bs, encode (Encode DialectL 7 m) = Ok bs /\
    forall r rest, avail r = bs ++ rest ->
      exists r', Decode DialectL r = (Ok (7, m), r') /\ avail r' = rest.
Proof.
  intros m. assert (valid DialectL 7 m) as Hv.
  { split; [by vm_compute|]. split; [|by eexists].
    split; [by vm_compute|]. split; [by vm_compute|].
    split; [by vm_compute|]. repeat constructor; by vm_compute. }
  split; [exact Hv|]. exact (frame_roundtrip DialectL 7 m Hv).
Defined.

(** At the end of the bytes [Decode] reports the reader's end error, before
    anything of a frame was read. *)
Lemma Decode_at_end d r :
  avail r = [] -> end_error r = EOF -> fst (Decode d r) = Err (Wrapf "decode size: %w" [] EOF).
Proof.
  intros Hr He. assert (fst (ReadUint32 r) = Err EOF) as HR.
  { unfold ReadUint32. rewrite readUint_generic by lia. unfold readUintGeneric, mbind, M_bind.
    pose proof (ReadFull_result 4 r) as HF. rewrite Hr, He in HF.
    destruct (ReadFull 4 r) as [[] ?]; cbn in HF; by simplify_eq. }
  destruct (ReadUint32 r) as [res r'] eqn:E. cbn in HR. subst res.
  destruct d; cbn [Decode]; unfold P9L.Decode, P9U.Decode, DecodeFrame, wrapf;
    by rewrite (mbind_err _ _ _ _ _ (wrapf_err _ _ _ _ _ _ E)).
Qed.

(** Streams.  A sequence of valid messages written to a connection and
    delivered to the peer in any segmentation decodes, frame by frame, to the
    same sequence, and the next read finds the end of the stream cleanly at a
    frame boundary. *)
Theorem stream_roundtrip d tms chunks :
  Forall (fun tm => valid d tm.1 tm.2) tms ->
  encodeFrames tms (Conn [] None) = (Ok tt, Conn (concat chunks) None) ->
  exists r', decodeFrames (newMessage d) (length tms) (Stream chunks EOF) = (Ok tms, r') /\
    fst (Decode d r') = Err (Wrapf "decode size: %w" [] EOF).
Proof.
  intros Hv He.
  assert (Forall (frame_wf (newMessage d)) tms) as Hf.
  { eapply Forall_impl; [exact Hv|]. intros [tag m]. apply valid_frame_wf. }
  assert (concat chunks = wire_list frame tms) as Hc.
  { assert (Forall (fun tm => encodable tm.2) tms) as Henc.
    { eapply Forall_impl; [exact Hv|]. intros [tag m] (_ & Hwf & _). by apply wf_encodable. }
    rewrite (encodeFrames_emits tms Henc (Conn [] None)) in He. by injection He. }
  destruct (decoder_complete (decodeFrames_decoder _ (newMessage_Type d) (length tms)) tms
    (Stream chunks EOF) []) as (r' & E & T); [done|by rewrite app_nil_r|].
  exists r'. split; [done|]. apply Decode_at_end.
  - eapply takes_avail; [exact T|]. by rewrite app_nil_r.
  - destruct T as [Ha _]. by apply end_error_advances in Ha.
Qed.

Example stream_roundtrip_witness :
  let m1 := MTversion (Tversion.mk 8192 "9P2000.L") in
  let m2 := MTclunk (Tclunk.mk 3) in
  let tms := [(65535, m1); (0, m2)] in
  exists chunks,
    encodeFrames tms (Conn [] None) = (Ok tt, Conn (concat chunks) None) /\
    exists r', decodeFrames (newMessage DialectU) 2 (Stream chunks EOF) = (Ok tms, r') /\
      fst (Decode DialectU r') = Err (Wrapf "decode size: %w" [] EOF).
Proof.
  intros m1 m2 tms.
  exists [take 3 (frame (65535, m1)); drop 3 (frame (65535, m1)) ++ frame (0, m2)].
  assert (Forall (fun tm => valid DialectU tm.1 tm.2) tms) as Hv.
  { repeat constructor; first [by vm_compute | by eexists]. }
  split; [by vm_compute|]. apply (stream_roundtrip DialectU tms); [exact Hv|by vm_compute].
Defined.

(** Canonicity.  When a frame decodes, the decoded message is valid for
    the dialect, its encoding is exactly the bytes that were consumed, and
    the reader stands right after them: no two different byte strings decode
    to the same message. *)
Theorem decode_canonical d r tag m r' :
  Decode d r = (Ok (tag, m), r') ->
  valid d tag m /\
  exists bs, avail r = bs ++ avail r' /\ encode (Encode d tag m) = Ok bs.
Proof.
  intros E. apply (decoder_sound (Decode_decoder d)) in E as [Hv [_ Hav]].
  split; [done|]. exists (frame (tag, m)). split; [done|].
  apply emits_encode, Encode_emits, Message_wf_encodable, Hv.
Qed.

Example decode_canonical_witness :
  let r := BytesReader (frame (5, MTflush (Tflush.mk 4)) ++ [byte_of_Z 9]) in
  Decode DialectL r = (Ok (5, MTflush (Tflush.mk 4)), BytesReader [byte_of_Z 9]) /\
  valid DialectL 5 (MTflush (Tflush.mk 4)) /\
  exists bs, avail r = bs ++ [byte_of_Z 9] /\
    encode (Encode DialectL 5 (MTflush (Tflush.mk 4))) = Ok bs.
Proof.
  intros r. assert (Decode DialectL r = (Ok (5, MTflush (Tflush.mk 4)), BytesReader [byte_of_Z 9]))
    as E by by vm_compute.
  split; [exact E|]. exact (decode_canonical DialectL r 5 _ _ E).
Defined.

(** ** Independence of segmentation *)

(** Two readers with the same bytes to come and the same end. *)
Definition same_future (r1 r2 : Reader) : Prop :=
  avail r1 = avail r2 /\ end_error r1 = end_error r2.

Definition uniform {A} (m : M Reader A) : Prop := forall r1 r2,
  same_future r1 r2 ->
  fst (m r1) = fst (m r2) /\
  (forall a, fst (m r1) = Ok a -> same_future (snd (m r1)) (snd (m r2))).

Lemma ReadFull_uniform n : uniform (ReadFull n).
Proof.
  intros r1 r2 [Ha He]. split; [by rewrite !ReadFull_result, Ha, He|].
  intros bs Hbs. pose proof Hbs as Hbs'. rewrite ReadFull_result, Ha, He, <- ReadFull_result in Hbs'.
  destruct (ReadFull n r1) as [res1 r1'] eqn:E1, (ReadFull n r2) as [res2 r2'] eqn:E2.
  cbn in *. subst. apply ReadFull_Ok_inv in E1 as [_ [A1 T1]], E2 as [_ [A2 T2]].
  split.
  - rewrite Ha, T2 in T1. by apply app_inv_head in T1.
  - by rewrite (end_error_advances _ _ _ A1), (end_error_advances _ _ _ A2).
Qed.

Lemma ret_uniform {A} (a : A) : uniform (mret a).
Proof. intros r1 r2 H. done. Qed.

Lemma throw_uniform {A} e : uniform (throw e : M Reader A).
Proof. intros r1 r2 H. done. Qed.

Lemma bind_uniform {A B} (m : M Reader A) (k : A -> M Reader B) :
  uniform m -> (forall a, uniform (k a)) -> uniform (m ≫= k).
Proof.
  intros Hm Hk r1 r2 H. destruct (Hm r1 r2 H) as [E S]. unfold mbind, M_bind.
  destruct (m r1) as [[a|e] r1'], (m r2) as [[a'|e'] r2']; cbn in *; simplify_eq; [|done].
  apply Hk. by eapply S.
Qed.

Lemma wrapf_uniform {A} fmt args (m : M Reader A) : uniform m -> uniform (wrapf_args fmt args m).
Proof.
  intros Hm r1 r2 H. destruct (Hm r1 r2 H) as [E S]. unfold wrapf_args.
  destruct (m r1) as [[a|e] r1'], (m r2) as [[a'|e'] r2']; cbn in *; by simplify_eq.
Qed.

Lemma readUint_uniform n : (0 < n)%nat -> uniform (readUint n).
Proof.
  intros Hn. assert (uniform (readUintGeneric n)) as H.
  { apply bind_uniform; [apply ReadFull_uniform|]. intros a. apply ret_uniform. }
  intros r1 r2. rewrite !readUint_generic by done. apply H.
Qed.

Lemma ReadUint8_uniform : uniform ReadUint8.
Proof. intros r1 r2. rewrite !ReadUint8_readUint. by apply readUint_uniform; lia. Qed.

Create HintDb uniform.
#[export] Hint Resolve ReadFull_uniform ret_uniform throw_uniform bind_uniform wrapf_uniform
  ReadUint8_uniform : uniform.
#[export] Hint Extern 1 (uniform ReadUint16) => (apply readUint_uniform; lia) : uniform.
#[export] Hint Extern 1 (uniform ReadUint32) => (apply readUint_uniform; lia) : uniform.

(** Segmentation.  What [Decode] returns, error values included, is a
    function of the bytes still to come and of how the stream ends: the sizes
    of the network's reads, and whether the bytes come from a connection or a
    buffer with its fast paths, make no difference. *)
Theorem decode_segmentation d r1 r2 :
  avail r1 = avail r2 -> end_error r1 = end_error r2 -> fst (Decode d r1) = fst (Decode d r2).
Proof.
  intros Ha He. assert (uniform (Decode d)) as HU; [|by apply HU].
  assert (uniform (DecodeFrame (newMessage d))) as HF; [|by destruct d].
  unfold DecodeFrame, wrapf.
  apply bind_uniform; [auto with uniform|intros size].
  destruct (size <? HeaderSize); [auto with uniform|].
  destruct (MaxMessageSize <? size); [auto with uniform|].
  apply bind_uniform; [auto with uniform|intros msgType].
  apply bind_uniform; [auto with uniform|intros tag].
  destruct (newMessage d msgType) as [m|e]; [|auto with uniform].
  apply bind_uniform; [auto with uniform|intros buf].
  destruct (DecodeFrom m (BytesReader buf)) as [[m'|e] br]; [|auto with uniform].
  case_match; auto with uniform.
Qed.

Example decode_segmentation_witness :
  let bs := frame (1, MRclunk Rclunk.mk) in
  avail (BytesReader bs) = avail (Stream [take 1 bs; []; drop 1 bs] EOF) /\
  fst (Decode DialectL (BytesReader bs)) = fst (Decode DialectL (Stream [take 1 bs; []; drop 1 bs] EOF)).
Proof.
  intros bs. split; [by vm_compute|].
  apply decode_segmentation; by vm_compute.
Defined.

(** ** What is rejected *)

(** Runs the next reader of a chain on a reader whose next bytes are known. *)
Lemma run_step {A B} (m : M Reader A) wf wire (k : A -> M Reader B) a r rest :
  decoder m wf wire -> wf a -> avail r = wire a ++ rest ->
  exists r1, (m ≫= k) r = k a r1 /\ avail r1 = rest.
Proof.
  intros Hm Ha Hav. destruct (decoder_complete Hm a r rest Ha Hav) as (r1 & E & T).
  exists r1. split; [by apply mbind_ok|]. by eapply takes_avail.
Qed.

Ltac run_next r Hd Ha Hav r' Hr' :=
  lazymatch goal with
  | |- context [@mbind ?N ?I ?A ?B ?k ?m r] =>
      let E := fresh in
      destruct (run_step m _ _ k _ r _ Hd Ha Hav) as (r' & E & Hr');
      lazymatch type of E with
      | _ = ?rhs => replace (@mbind N I A B k m r) with rhs by (symmetry; exact E)
      end; clear E
  end.

Lemma Decode_unfold d r : Decode d r = DecodeFrame (newMessage d) r.
Proof. by destruct d. Qed.

(** Size limits.  A frame whose size field is below the header size or
    above [MaxMessageSize] is refused after the four bytes of the field: the
    body is not read. *)
Theorem decode_size_limits d r size rest :
  u32 size -> avail r = le_bytes 4 size ++ rest ->
  size < HeaderSize \/ MaxMessageSize < size ->
  exists e r', Decode d r = (Err e, r') /\ avail r' = rest.
Proof.
  intros Hs Hav Hlim. rewrite Decode_unfold. unfold DecodeFrame, wrapf.
  run_next r (wrapf_decoder "decode size: %w" [] _ _ _ ReadUint32_decoder) Hs Hav r1 Hr1.
  destruct (Z.ltb_spec size HeaderSize); [by eexists _, _|].
  destruct (Z.ltb_spec MaxMessageSize size); [by eexists _, _|]. lia.
Qed.

Example decode_size_limits_witness :
  let r := Stream [le_bytes 4 6; le_bytes 4 0] EOF in
  exists e r', Decode DialectU r = (Err e, r') /\ avail r' = le_bytes 4 0.
Proof.
  intros r. apply (decode_size_limits DialectU r 6); [by vm_compute|by vm_compute|].
  left. by vm_compute.
Defined.

(** Trailing bytes.  A frame whose size field covers more than the
    message's encoding is refused, with the surplus reported, and the reader
    is left at the next frame: the surplus is never parsed as a header. *)
Theorem decode_trailing d tag m extra r rest :
  valid d tag m -> extra <> [] ->
  let size := frame_size m + Z.of_nat (length extra) in
  size <= MaxMessageSize ->
  avail r = (le_bytes 4 size ++ le_bytes 1 (Message_Type m) ++ le_bytes 2 tag) ++
            (Message_wire m ++ extra) ++ rest ->
  exists r', Decode d r =
      (Err (Errorf "decode %s body: %d trailing bytes"
              [Message_Type m; Z.of_nat (length extra)]), r') /\ avail r' = rest.
Proof.
  intros (Htag & Hwf & m0 & Hm0) Hx size Hsz Hav. rewrite <- !app_assoc in Hav.
  rewrite Decode_unfold. unfold DecodeFrame, wrapf.
  assert (7 <= size) by (unfold size, frame_size, HeaderSize; lia).
  assert (MaxMessageSize < 2 ^ 32) by done.
  assert (u32 size) as Hu by (unfold is_uint; lia).
  run_next r (wrapf_decoder "decode size: %w" [] _ _ _ ReadUint32_decoder) Hu Hav r1 Hr1.
  rewrite (proj2 (Z.ltb_ge size HeaderSize)) by (unfold HeaderSize; lia).
  rewrite (proj2 (Z.ltb_ge MaxMessageSize size)) by lia.
  run_next r1 (wrapf_decoder "decode type: %w" [] _ _ _ ReadUint8_decoder)
    (Message_Type_range m) Hr1 r2 Hr2.
  run_next r2 (wrapf_decoder "decode tag: %w" [] _ _ _ ReadUint16_decoder) Htag Hr2 r3 Hr3.
  rewrite Hm0. pose proof (newMessage_Type _ _ _ Hm0) as Ht0.
  assert (avail r3 = (Message_wire m ++ extra) ++ rest) as Hr3' by by rewrite <- app_assoc.
  assert (length (Message_wire m ++ extra) = Z.to_nat (size - HeaderSize)) as Hl.
  { rewrite length_app. unfold size, frame_size. cbn [body MessageCodec_Message]. lia. }
  run_next r3 (wrapf_decoder "decode %s body: %w" [Type_ m0] _ _ _
                 (ReadFull_decoder (Z.to_nat (size - HeaderSize)))) Hl Hr3' r4 Hr4.
  destruct (decoder_complete (DecodeFrom_decoder m0) m (BytesReader (Message_wire m ++ extra)) extra)
    as (br & E & T); [by split|done|].
  rewrite E, (takes_avail _ _ _ extra T) by done.
  rewrite (proj2 (Z.eqb_neq _ _)) by (unfold Len; destruct extra; [done|cbn [length]; lia]).
  exists r4. split; [|done]. cbn [negb]. unfold throw, Len. by rewrite Ht0.
Qed.

Example decode_trailing_witness :
  let m := MTflush (Tflush.mk 4) in
  let r := BytesReader (le_bytes 4 10 ++ [byte_of_Z 108] ++ le_bytes 2 1 ++ le_bytes 2 4 ++
                        [byte_of_Z 0] ++ le_bytes 4 77) in
  exists r', Decode DialectL r =
    (Err (Errorf "decode %s body: %d trailing bytes" [108; 1]), r') /\ avail r' = le_bytes 4 77.
Proof.
  intros m r.
  apply (decode_trailing DialectL 1 m [byte_of_Z 0] r); [|done|by vm_compute|by vm_compute].
  split; [by vm_compute|]. split; [by vm_compute|by eexists].
Defined.

(** Writing a frame.  On every writer an encodable message's frame goes
    out whole, or, when the connection breaks, fails with a prefix of the
    frame on the wire; a message that is not encodable (an overlong string,
    payload or walk) fails before anything is written. *)
Theorem encode_writes d tag m w :
  (Message_encodable m -> fits w (frame (tag, m)) = true ->
     Encode d tag m w = (Ok tt, push w (frame (tag, m)))) /\
  (Message_encodable m -> fits w (frame (tag, m)) = false ->
     exists e, Encode d tag m w = (Err e, break w (frame (tag, m)))) /\
  (~ Message_encodable m -> exists e, Encode d tag m w = (Err e, w)).
Proof.
  split; [|split].
  - intros He Hf. pose proof (Encode_emits d tag m He w) as E. by rewrite Hf in E.
  - intros He Hf. pose proof (Encode_emits d tag m He w) as E. by rewrite Hf in E.
  - intros He. destruct d; exact (EncodeFrame_refuses_clean (Msg:=Message) tag m w He).
Qed.

Example encode_writes_witness :
  let m := MTclunk (Tclunk.mk 9) in
  let w := Conn [] (Some 8%nat) in
  exists e, Encode DialectL 2 m w = (Err e, break w (frame (2, m))).
Proof.
  intros m w. apply (encode_writes DialectL 2 m w); [exact I|by vm_compute].
Defined.

(** The limit admits every message.  [MaxMessageSize] is large enough
    for every valid message of a dialect, so [DecodeFrame]'s upper bound
    rejects no valid message. *)
Theorem frame_limit_admits_all d tag m : valid d tag m -> frame_size m <= MaxMessageSize.
Proof. intros (_ & H & _). by apply frame_size_bound. Qed.

Example frame_limit_admits_all_witness :
  let m := MRreadlink (Rreadlink.mk "/target") in
  valid DialectL 1 m /\ frame_size m <= MaxMessageSize.
Proof.
  intros m. assert (valid DialectL 1 m) as Hv.
  { split; [by vm_compute|]. split; [by vm_compute|by eexists]. }
  split; [exact Hv|]. exact (frame_limit_admits_all DialectL 1 m Hv).
Defined.

(** ** Zero-copy paths *)

Lemma le_bytes_field n (b : bytes) :
  (n <= length b)%nat -> le_bytes n (le_val (take n b)) = take n b.
Proof.
  intros H. assert (length (take n b) = n) as Hl by (rewrite length_take; lia).
  rewrite <- Hl at 1. apply le_bytes_le_val.
Qed.

Lemma take_field n v (b : bytes) : take n (le_bytes n v ++ b) = le_bytes n v.
Proof. rewrite <- (length_le_bytes n v) at 1. apply take_app_length. Qed.

Lemma drop_field n v (b : bytes) : drop n (le_bytes n v ++ b) = b.
Proof. rewrite <- (length_le_bytes n v) at 1. apply drop_app_length. Qed.

Lemma twrite_fields (b : bytes) :
  b = take 4 b ++ take 8 (drop 4 b) ++ take 4 (drop 12 b) ++ drop 16 b.
Proof.
  rewrite <- (take_drop 4 b) at 1. f_equal.
  rewrite <- (take_drop 8 (drop 4 b)) at 1. f_equal.
  by rewrite drop_drop, <- (take_drop 4 (drop (4 + 8) b)), drop_drop at 1.
Qed.

Lemma Twrite_DecodeFromBuf_spec b m :
  Z.of_nat (length b) < 2 ^ 32 ->
  Twrite.DecodeFromBuf b = Ok m <-> Twrite.wf m /\ exists rest, b = Twrite.wire m ++ rest.
Proof.
  intros Hb. unfold Twrite.DecodeFromBuf. split.
  - destruct (Nat.ltb_spec (length b) 16) as [|H16]; [done|].
    rewrite uint_wrap_id by (unfold is_uint; lia).
    set (count := le_val (take 4 (drop 12 b))).
    destruct (Z.ltb_spec MaxDataSize count) as [|Hc]; [done|].
    destruct (Z.ltb_spec (Z.of_nat (length b - 16)) count) as [|Hd]; [done|]. intros [= <-].
    assert (0 <= count) by (subst count; pose proof (le_val_bound (take 4 (drop 12 b))); lia).
    assert (length (take (Z.to_nat count) (drop 16 b)) = Z.to_nat count) as Hl
      by (rewrite length_take, length_drop; lia).
    split.
    + split; [|split]; cbn; [apply le_val_is_uint; rewrite ?length_take, ?length_drop; lia..|].
      unfold data_ok. rewrite Hl. lia.
    + exists (drop (Z.to_nat count) (drop 16 b)). unfold Twrite.wire, wire_data. cbn.
      rewrite Hl, Z2Nat.id by lia. unfold count.
      rewrite !le_bytes_field by (rewrite ?length_drop; lia).
      rewrite <- !app_assoc, take_drop. apply twrite_fields.
  - intros [(Hf & Ho & Hd) [rest ->]]. unfold Twrite.wire, wire_data in *. destruct m as [f o d].
    cbn [Twrite.Fid Twrite.Offset Twrite.Data] in *.
    rewrite !length_app, !length_le_bytes in *. rewrite (proj2 (Nat.ltb_ge _ _)) by lia.
    rewrite <- !app_assoc.
    change (drop 16) with (drop (A:=byte) (4 + (8 + 4))). change (drop 12) with (drop (A:=byte) (4 + 8)).
    rewrite <- !drop_drop, !drop_field, !take_field.
    unfold data_ok in Hd. assert (MaxDataSize < 2 ^ 32) by done.
    rewrite (le_val_le_bytes_id 4 32), (le_val_le_bytes_id 8 64), (le_val_le_bytes_id 4 32)
      by (done || (unfold is_uint; lia)).
    rewrite (proj2 (Z.ltb_ge _ _)) by lia.
    rewrite uint_wrap_id by (unfold is_uint; lia). rewrite (proj2 (Z.ltb_ge _ _)) by lia.
    by rewrite take_app_length' by lia.
Qed.

(** The generic decoder, on the same buffer. *)
Definition decodeTwrite (b : bytes) : result Twrite.t := fst (Twrite.DecodeFrom (BytesReader b)).

(** Zero-copy writes.  The server's [Twrite.DecodeFromBuf] accepts
    exactly the buffers the generic decoder accepts from a [bytes.Reader] and
    returns the same message, for every buffer a [uint32] frame can hold. *)
Theorem twrite_buf_equiv b m :
  Z.of_nat (length b) < 2 ^ 32 ->
  Twrite.DecodeFromBuf b = Ok m <-> decodeTwrite b = Ok m.
Proof.
  intros Hb. rewrite Twrite_DecodeFromBuf_spec by done. unfold decodeTwrite. split.
  - intros [Hwf [rest ->]].
    destruct (decoder_complete Twrite.Twrite_decoder m (BytesReader (Twrite.wire m ++ rest)) rest)
      as (r' & E & _); [done|done|]. by rewrite E.
  - intros E. destruct (Twrite.DecodeFrom (BytesReader b)) as [res r'] eqn:E'. cbn in E. subst res.
    apply (decoder_sound Twrite.Twrite_decoder) in E' as [Hwf [_ Hav]]. eauto.
Qed.

Example twrite_buf_equiv_witness :
  let b := Twrite.wire (Twrite.mk 3 4096 [byte_of_Z 65]) in
  Twrite.DecodeFromBuf b = Ok (Twrite.mk 3 4096 [byte_of_Z 65]) <->
  decodeTwrite b = Ok (Twrite.mk 3 4096 [byte_of_Z 65]).
Proof. intros b. apply (twrite_buf_equiv b). by vm_compute. Defined.

(** The header fields and then the payload slice, as [net.Buffers] sends
    them. *)
Definition writev (fixed : M Writer unit) (payload : bytes) : M Writer unit :=
  fixed;; Write payload.

(** Vectored replies.  The [Payloader] messages written as header fields
    followed by the payload slice (the [writev] path) put on every writer
    exactly what [EncodeTo] puts there, and fail exactly when it does. *)
Theorem payloader_split (rr : Rread.t) (tw : Twrite.t) (rd : Rreaddir.t) :
  (Rread.encodable rr ->
     emits (writev (Rread.EncodeFixed rr) (Rread.Payload rr)) (Rread.wire rr) /\
     emits (Rread.EncodeTo rr) (Rread.wire rr)) /\
  (Twrite.encodable tw ->
     emits (writev (Twrite.EncodeFixed tw) (Twrite.Payload tw)) (Twrite.wire tw) /\
     emits (Twrite.EncodeTo tw) (Twrite.wire tw)) /\
  (Rreaddir.encodable rd ->
     emits (writev (Rreaddir.EncodeFixed rd) (Rreaddir.Payload rd)) (Rreaddir.wire rd) /\
     emits (Rreaddir.EncodeTo rd) (Rreaddir.wire rd)) /\
  (~ Rread.encodable rr -> refuses (Rread.EncodeFixed rr) /\ refuses (Rread.EncodeTo rr)) /\
  (~ Twrite.encodable tw -> refuses (Twrite.EncodeFixed tw) /\ refuses (Twrite.EncodeTo tw)) /\
  (~ Rreaddir.encodable rd -> refuses (Rreaddir.EncodeFixed rd) /\ refuses (Rreaddir.EncodeTo rd)).
Proof.
  repeat split; intros.
  - apply bind_emits; [by apply Rread.Rread_fixed_emits|apply Write_emits].
  - by apply Rread.Rread_emits.
  - rewrite Twrite.wire_split. apply bind_emits; [by apply Twrite.Twrite_fixed_emits|apply Write_emits].
  - by apply Twrite.Twrite_emits.
  - apply bind_emits; [by apply Rreaddir.Rreaddir_fixed_emits|apply Write_emits].
  - by apply Rreaddir.Rreaddir_emits.
  - by apply data_count_refuses.
  - by apply Rread.Rread_refuses.
  - by apply Twrite.Twrite_fixed_refuses.
  - by apply Twrite.Twrite_refuses.
  - by apply data_count_refuses.
  - by apply Rreaddir.Rreaddir_refuses.
Qed.

Example payloader_split_witness :
  let tw := Twrite.mk 1 0 [byte_of_Z 7] in
  emits (writev (Twrite.EncodeFixed tw) (Twrite.Payload tw)) (Twrite.wire tw) /\
  emits (Twrite.EncodeTo tw) (Twrite.wire tw).
Proof. intros tw. apply (payloader_split Rread.zero tw Rreaddir.zero). by vm_compute. Defined.

(** ** The stat size that wraps *)

Lemma le_bytes_wrapped_stat s s' (rest rest' : bytes) :
  65534 <= Stat.size s <= MaxUint16 -> nstat_wf s' ->
  wire_nstat s ++ rest <> wire_nstat s' ++ rest'.
Proof.
  intros Hs [_ Hn] E. unfold wire_nstat in E. rewrite <- !app_assoc in E.
  apply app_inj_1 in E as [E _]; [|by rewrite !length_le_bytes].
  apply (f_equal le_val) in E. rewrite !le_val_le_bytes in E.
  pose proof (Stat.size_nonneg s'). unfold MaxUint16 in *.
  change (256 ^ Z.of_nat 2) with 65536 in E.
  rewrite (Z.mod_small (2 + Stat.size s')) in E by lia.
  assert (Stat.size s = 65534 \/ Stat.size s = 65535) as Hz by lia.
  assert ((2 + Stat.size s) mod 65536 <= 1) by (destruct Hz as [-> | ->]; done). lia.
Qed.

(** No input that starts with [bs] is accepted. *)
Definition rejects {A} (d : M Reader A) (bs : bytes) : Prop :=
  forall rest, exists e, fst (d (BytesReader (bs ++ rest))) = Err e.

(** A 9P2000.u stat of 65534 or 65535 bytes, the two largest sizes
    [EncodedSize] allows, is encoded without an error into an [Rstat] or a
    [Twstat] body that no decoder accepts: [nstat], the [uint16] sum of two
    and the size, has wrapped to 0 or 1. *)
Theorem stat_nstat_wraps s fid :
  65534 <= Stat.size s <= MaxUint16 ->
  (exists bs, encode (Rstat.EncodeTo (Rstat.mk s)) = Ok bs /\
     rejects Rstat.DecodeFrom bs) /\
  (exists bs, encode (Twstat.EncodeTo (Twstat.mk fid s)) = Ok bs /\
     rejects Twstat.DecodeFrom bs).
Proof.
  intros Hs. assert (Stat.encodable s) as He by (unfold Stat.encodable; lia).
  split; eexists.
  - split; [by apply emits_encode, Rstat.Rstat_emits|]. intros rest.
    destruct (Rstat.DecodeFrom _) as [[m|e] r'] eqn:E; [|by eexists].
    apply (decoder_sound Rstat.Rstat_decoder) in E as [Hwf [_ Hav]].
    exfalso. by eapply le_bytes_wrapped_stat.
  - split; [by apply emits_encode, Twstat.Twstat_emits|]. intros rest.
    destruct (Twstat.DecodeFrom _) as [[m|e] r'] eqn:E; [|by eexists].
    apply (decoder_sound Twstat.Twstat_decoder) in E as [[_ Hwf] [_ Hav]].
    exfalso. cbn [avail] in Hav. unfold Twstat.wire in Hav. rewrite <- !app_assoc in Hav.
    apply app_inj_1 in Hav as [_ Hav]; [|by rewrite !length_le_bytes].
    by eapply le_bytes_wrapped_stat.
Qed.

(** A stat whose name fills it to 65534 bytes. *)
Definition bigStat : Stat.t :=
  Stat.mk 0 0 0 QID.zero 0 0 0 0
    (string_of_bytes (repeat (byte_of_Z 97) (Z.to_nat 65473))) "" "" "" "" 0 0 0.

Example stat_nstat_wraps_witness :
  exists bs, encode (Rstat.EncodeTo (Rstat.mk bigStat)) = Ok bs /\
    rejects Rstat.DecodeFrom bs.
Proof.
  apply (stat_nstat_wraps bigStat 0). unfold bigStat, Stat.size, strlen. cbn [Stat.Name].
  rewrite length_string_of_bytes, repeat_length, Z2Nat.id by lia. by vm_compute.
Defined.
