(* ===== verification/Dirents.v ===== *)
(** * Directory entries

    [proto/dirent.go]: the packing of directory entries into [Rreaddir] data
    ([EncodeDirentsInto], [EncodeDirents]) and the bounds-checked parser of
    the client side ([ParseDirents]).  The theorems show that the packer
    writes a prefix of the entries that fits the buffer, whatever the buffer
    held before, and that parser and packer invert each other. *)

From S2P Require Import Prelude GoIO Types Proto Message Frame.

(** ** Packing *)

(** One iteration's writes into [dst] at [off]; returns the new offset. *)
Definition encodeDirentAt (dst : bytes) (off : nat) (d : Dirent.t) : bytes * nat :=
  let q := Dirent.QID d in
  let dst := patch off [byte_of_Z (QID.Type_ q)] dst in
  let dst := patch (off + 1) (le_bytes 4 (QID.Version q)) dst in
  let dst := patch (off + 5) (le_bytes 8 (QID.Path q)) dst in
  let off := (off + Z.to_nat QIDSize)%nat in
  let dst := patch off (le_bytes 8 (Dirent.Offset d)) dst in
  let off := (off + 8)%nat in
  let dst := patch off [byte_of_Z (Dirent.Type_ d)] dst in
  let off := (off + 1)%nat in
  let dst := patch off (le_bytes 2 (uint_wrap 16 (strlen (Dirent.Name d)))) dst in
  let off := (off + 2)%nat in
  let dst := patch off (bytes_of_string (Dirent.Name d)) dst in
  let off := (off + String.length (Dirent.Name d))%nat in
  (dst, off).

Definition entrySize (d : Dirent.t) : nat :=
  Z.to_nat (QIDSize + 8 + 1 + 2) + String.length (Dirent.Name d).

Fixpoint encodeLoop (dst : bytes) (off count : nat) (dirents : list Dirent.t) : bytes * (nat * nat) :=
  match dirents with
  | [] => (dst, (off, count))
  | d :: dirents' =>
      if 0xFFFF <? strlen (Dirent.Name d) then encodeLoop dst off count dirents'
      else if (length dst <? off + entrySize d)%nat then (dst, (off, count))
      else
        let '(dst', off') := encodeDirentAt dst off d in
        encodeLoop dst' off' (S count) dirents'
  end.

(** The buffer after the call, with the bytes written and the entries
    that fit. *)
Definition EncodeDirentsInto (dst : bytes) (dirents : list Dirent.t) : bytes * (nat * nat) :=
  encodeLoop dst 0 0 dirents.

(** [pooled] is the buffer [bufpool.GetMsgBuf] hands out, with at least
    [maxBytes] bytes of whatever its last user left. *)
Definition EncodeDirents (pooled : bytes) (dirents : list Dirent.t) (maxBytes : Z) : bytes * nat :=
  if (length dirents =? 0)%nat then ([], 0%nat)
  else
    let '(buf, (n, count)) := EncodeDirentsInto (take (Z.to_nat maxBytes) pooled) dirents in
    (take n buf, count).

(** ** Parsing *)

Definition minEntrySize : nat := Z.to_nat (QIDSize + 8 + 1 + 2).

(** The little-endian field of [n] bytes at [data[off:]]. *)
Definition field (data : bytes) (off n : nat) : Z := le_val (take n (drop off data)).

(** One iteration at [off < len(data)]: the entry and the next offset. *)
Definition parseDirent (data : bytes) (off : nat) : result (Dirent.t * nat) :=
  let rest := (length data - off)%nat in
  if (rest <? minEntrySize)%nat
  then Err (Errorf "truncated dirent header (%d bytes left, need %d)"
              [Z.of_nat rest; Z.of_nat minEntrySize])
  else
    let qid := QID.mk (field data off 1) (field data (off + 1) 4) (field data (off + 5) 8) in
    let offset := field data (off + Z.to_nat QIDSize) 8 in
    let type := field data (off + Z.to_nat QIDSize + 8) 1 in
    let nameLen := Z.to_nat (field data (off + Z.to_nat QIDSize + 9) 2) in
    let off := (off + minEntrySize)%nat in
    if (length data - off <? nameLen)%nat
    then Err (Errorf "dirent name len %d exceeds remaining %d bytes"
                [Z.of_nat nameLen; Z.of_nat (length data - off)])
    else
      let name := string_of_bytes (take nameLen (drop off data)) in
      Ok (Dirent.mk qid offset type name, (off + nameLen)%nat).

(** [fuel] bounds the iterations; each consumes at least [minEntrySize]. *)
Fixpoint parseLoop (fuel : nat) (data : bytes) (off : nat) (out : list Dirent.t)
    : list Dirent.t * option GoError :=
  if (off <? length data)%nat then
    match fuel with
    | O => (out, None)
    | S fuel' =>
        match parseDirent data off with
        | Err e => (out, Some e)
        | Ok (d, off') => parseLoop fuel' data off' (out ++ [d])
        end
    end
  else (out, None).

Definition ParseDirents (data : bytes) : list Dirent.t * option GoError :=
  parseLoop (length data) data 0 [].

(** ** Layout *)

Definition wire_dirent (d : Dirent.t) : bytes :=
  wire_qid (Dirent.QID d) ++ le_bytes 8 (Dirent.Offset d) ++ le_bytes 1 (Dirent.Type_ d) ++
  wire_string (Dirent.Name d).

Lemma length_wire_dirent d : length (wire_dirent d) = entrySize d.
Proof.
  apply Nat2Z.inj. unfold wire_dirent, entrySize. rewrite !length_app, !length_le_bytes, !Nat2Z.inj_add.
  rewrite length_wire_qid, length_wire_string. unfold strlen, QIDSize. lia.
Qed.

(** Writes that follow each other are one write. *)
Lemma patch_patch off off' (a b dst : bytes) :
  (off + length a)%nat = off' -> (off' + length b <= length dst)%nat ->
  patch off' b (patch off a dst) = patch off (a ++ b) dst.
Proof.
  intros <- Hl. unfold patch.
  assert (length (take off dst ++ a) = (off + length a)%nat) as Ht
    by (rewrite length_app, length_take; lia).
  rewrite (app_assoc (take off dst)).
  rewrite (take_app_length' (take off dst ++ a)) by lia.
  rewrite drop_app_ge by lia. rewrite Ht, drop_drop, length_app, <- !app_assoc.
  do 4 f_equal. lia.
Qed.

Lemma length_patch off (bs dst : bytes) :
  (off + length bs <= length dst)%nat -> length (patch off bs dst) = length dst.
Proof. intros H. unfold patch. rewrite !length_app, length_take, length_drop. lia. Qed.

Lemma take_patch off (bs dst : bytes) :
  (off + length bs <= length dst)%nat ->
  take (off + length bs) (patch off bs dst) = take off dst ++ bs.
Proof.
  intros H. unfold patch. rewrite app_assoc. apply take_app_length'.
  rewrite length_app, length_take. lia.
Qed.

Lemma encodeDirentAt_patch dst off d :
  str_ok (Dirent.Name d) -> (off + entrySize d <= length dst)%nat ->
  encodeDirentAt dst off d = (patch off (wire_dirent d) dst, (off + entrySize d)%nat).
Proof.
  intros Hs Hl. unfold encodeDirentAt. cbv zeta. f_equal.
  - change [byte_of_Z (QID.Type_ (Dirent.QID d))] with (le_bytes 1 (QID.Type_ (Dirent.QID d))).
    change [byte_of_Z (Dirent.Type_ d)] with (le_bytes 1 (Dirent.Type_ d)).
    rewrite (le_bytes_wrap 2 16) by done.
    unfold entrySize, QIDSize in Hl. change (Z.to_nat (13 + 8 + 1 + 2)) with 24%nat in Hl.
    change (Z.to_nat QIDSize) with 13%nat.
    repeat (rewrite (patch_patch off); [|rewrite ?length_app, ?length_le_bytes, ?length_bytes_of_string; lia..]).
    unfold wire_dirent, wire_qid, wire_string. by rewrite <- !app_assoc.
  - unfold entrySize, QIDSize. change (Z.to_nat (13 + 8 + 1 + 2)) with 24%nat.
    change (Z.to_nat 13) with 13%nat. lia.
Qed.

(** The entries a buffer of [room] bytes takes: overlong names are skipped,
    the first entry that does not fit ends the packing. *)
Fixpoint fitting (room : nat) (dirents : list Dirent.t) : list Dirent.t :=
  match dirents with
  | [] => []
  | d :: dirents' =>
      if decide (str_ok (Dirent.Name d)) then
        if decide (entrySize d <= room)%nat
        then d :: fitting (room - entrySize d) dirents'
        else []
      else fitting room dirents'
  end.

Lemma length_fitting room ds : (length (wire_list wire_dirent (fitting room ds)) <= room)%nat.
Proof.
  revert room; induction ds as [|d ds IH]; intros room; cbn [fitting]; [cbn; lia|].
  case_decide; [|done]. case_decide; [|cbn; lia].
  cbn. rewrite length_app, length_wire_dirent. specialize (IH (room - entrySize d)%nat).
  unfold wire_list in IH. lia.
Qed.

Lemma encodeLoop_spec ds dst off count :
  (off <= length dst)%nat ->
  let f := fitting (length dst - off) ds in
  encodeLoop dst off count ds =
    (patch off (wire_list wire_dirent f) dst,
     ((off + length (wire_list wire_dirent f))%nat, (count + length f)%nat)).
Proof.
  revert dst off count; induction ds as [|d ds IH]; intros dst off count Hoff; cbn [fitting encodeLoop].
  { cbn. unfold patch. cbn. by rewrite !Nat.add_0_r, take_drop. }
  change 0xFFFF with MaxStringLen. unfold str_ok. case_decide as Hs.
  2: { rewrite (proj2 (Z.ltb_lt _ _)) by lia. by apply IH. }
  rewrite (proj2 (Z.ltb_ge _ _)) by lia. case_decide as Hr.
  2: { rewrite (proj2 (Nat.ltb_lt _ _)) by lia. cbn. unfold patch. cbn.
       by rewrite !Nat.add_0_r, take_drop. }
  rewrite (proj2 (Nat.ltb_ge _ _)) by lia.
  rewrite encodeDirentAt_patch by (done || lia).
  assert (length (patch off (wire_dirent d) dst) = length dst) as Hp
    by (apply length_patch; rewrite length_wire_dirent; lia).
  rewrite IH by lia. rewrite Hp. cbv zeta.
  replace (length dst - (off + entrySize d))%nat with (length dst - off - entrySize d)%nat by lia.
  unfold wire_list. cbn [map concat length]. rewrite length_app, length_wire_dirent.
  rewrite patch_patch; [f_equal; f_equal; lia|by rewrite length_wire_dirent|].
  pose proof (length_fitting (length dst - off - entrySize d) ds). unfold wire_list in *. lia.
Qed.

(** ** Parsing what was packed *)

Lemma field_app data off n v tl w :
  drop off data = le_bytes n v ++ tl -> w = 8 * Z.of_nat n -> is_uint w v -> field data off n = v.
Proof.
  intros Hd Hw Hv. unfold field. rewrite Hd, take_app_length' by (by rewrite length_le_bytes).
  by eapply le_val_le_bytes_id.
Qed.

Lemma drop_field_app (data : bytes) off n v tl :
  drop off data = le_bytes n v ++ tl -> drop (off + n) data = tl.
Proof.
  intros Hd. rewrite <- drop_drop, Hd. apply drop_app_length'. by rewrite length_le_bytes.
Qed.

Lemma parseDirent_ok data off d tl :
  Dirent.wf d -> drop off data = wire_dirent d ++ tl ->
  parseDirent data off = Ok (d, (off + entrySize d)%nat).
Proof.
  intros (Hq & Ho & Ht & Hn) Hd. destruct Hq as (Hqt & Hqv & Hqp).
  assert (length data - off = entrySize d + length tl)%nat as Hlen.
  { rewrite <- length_drop, Hd, length_app. by rewrite length_wire_dirent. }
  assert (entrySize d = minEntrySize + String.length (Dirent.Name d))%nat as Hes by done.
  unfold parseDirent. rewrite (proj2 (Nat.ltb_ge _ _)) by lia.
  unfold wire_dirent, wire_qid, wire_string in Hd. rewrite <- !app_assoc in Hd.
  pose proof (drop_field_app _ _ _ _ _ Hd) as Hd1.
  pose proof (drop_field_app _ _ _ _ _ Hd1) as Hd5.
  pose proof (drop_field_app _ _ _ _ _ Hd5) as Hd13.
  pose proof (drop_field_app _ _ _ _ _ Hd13) as Hd21.
  pose proof (drop_field_app _ _ _ _ _ Hd21) as Hd22.
  pose proof (drop_field_app _ _ _ _ _ Hd22) as Hd24.
  replace (off + 1 + 4)%nat with (off + 5)%nat in * by lia.
  replace (off + 5 + 8)%nat with (off + 13)%nat in * by lia.
  replace (off + 13 + 8)%nat with (off + 21)%nat in * by lia.
  replace (off + 21 + 1)%nat with (off + 22)%nat in * by lia.
  replace (off + 22 + 2)%nat with (off + 24)%nat in * by lia.
  change (Z.to_nat QIDSize) with 13%nat. change minEntrySize with 24%nat in *.
  replace (off + 13 + 8)%nat with (off + 21)%nat by lia.
  replace (off + 13 + 9)%nat with (off + 22)%nat by lia.
  unfold MaxStringLen in Hn. assert (u16 (strlen (Dirent.Name d))) as Hu
    by (unfold is_uint, strlen in *; lia).
  rewrite (field_app _ _ _ _ _ _ Hd eq_refl Hqt), (field_app _ _ _ _ _ _ Hd1 eq_refl Hqv),
    (field_app _ _ _ _ _ _ Hd5 eq_refl Hqp), (field_app _ _ _ _ _ _ Hd13 eq_refl Ho),
    (field_app _ _ _ _ _ _ Hd21 eq_refl Ht), (field_app _ _ _ _ _ _ Hd22 eq_refl Hu).
  unfold strlen. rewrite Nat2Z.id. rewrite (proj2 (Nat.ltb_ge _ _)) by lia.
  rewrite Hd24, take_app_length', string_of_bytes_of_string by (by rewrite length_bytes_of_string).
  do 2 f_equal; [by destruct d as [[] ? ? ?]|lia].
Qed.

Lemma field_bytes data off n :
  (off + n <= length data)%nat ->
  is_uint (8 * Z.of_nat n) (field data off n) /\
  le_bytes n (field data off n) = take n (drop off data).
Proof.
  intros H. assert (length (take n (drop off data)) = n) as Hl
    by (rewrite length_take, length_drop; lia).
  unfold field. split; [apply le_val_is_uint; lia|].
  rewrite <- Hl at 1. apply le_bytes_le_val.
Qed.

Lemma drop_split (data : bytes) off n : drop off data = take n (drop off data) ++ drop (off + n) data.
Proof. by rewrite <- (take_drop n (drop off data)) at 1; rewrite drop_drop. Qed.

Lemma parseDirent_inv data off d off' :
  parseDirent data off = Ok (d, off') ->
  Dirent.wf d /\ drop off data = wire_dirent d ++ drop off' data /\
  off' = (off + entrySize d)%nat /\ (off' <= length data)%nat.
Proof.
  unfold parseDirent. change minEntrySize with 24%nat. change (Z.to_nat QIDSize) with 13%nat.
  destruct (Nat.ltb_spec (length data - off) 24) as [|H24]; [done|].
  replace (off + 13 + 8)%nat with (off + 21)%nat by lia.
  replace (off + 13 + 9)%nat with (off + 22)%nat by lia.
  destruct (field_bytes data (off + 22) 2) as [U22 B22]; [lia|].
  set (nl := field data (off + 22) 2) in *. unfold is_uint in U22. cbn in U22.
  destruct (Nat.ltb_spec (length data - (off + 24)) (Z.to_nat nl)) as [|Hnl]; [done|].
  intros [= <- <-].
  destruct (field_bytes data off 1) as [U0 B0]; [lia|].
  destruct (field_bytes data (off + 1) 4) as [U1 B1]; [lia|].
  destruct (field_bytes data (off + 5) 8) as [U5 B5]; [lia|].
  destruct (field_bytes data (off + 13) 8) as [U13 B13]; [lia|].
  destruct (field_bytes data (off + 21) 1) as [U21 B21]; [lia|].
  assert (String.length (string_of_bytes (take (Z.to_nat nl) (drop (off + 24) data))) = Z.to_nat nl)
    as Hsl by (rewrite length_string_of_bytes, length_take, length_drop; lia).
  split; [|split; [|split]].
  - repeat split; try assumption; try apply U0; try apply U1; try apply U5; try apply U13; try apply U21.
    cbn. unfold strlen. rewrite Hsl. unfold MaxStringLen. lia.
  - unfold wire_dirent, wire_qid, wire_string. cbn [Dirent.QID Dirent.Offset Dirent.Type_ Dirent.Name
      QID.Type_ QID.Version QID.Path].
    unfold strlen. rewrite Hsl, Z2Nat.id, bytes_of_string_of_bytes by lia.
    rewrite B0, B1, B5, B13, B21, B22, <- !app_assoc.
    rewrite (drop_split data off 1) at 1. f_equal. rewrite (drop_split data (off + 1) 4) at 1. f_equal.
    replace (off + 1 + 4)%nat with (off + 5)%nat by lia.
    rewrite (drop_split data (off + 5) 8) at 1. f_equal. replace (off + 5 + 8)%nat with (off + 13)%nat by lia.
    rewrite (drop_split data (off + 13) 8) at 1. f_equal. replace (off + 13 + 8)%nat with (off + 21)%nat by lia.
    rewrite (drop_split data (off + 21) 1) at 1. f_equal. replace (off + 21 + 1)%nat with (off + 22)%nat by lia.
    rewrite (drop_split data (off + 22) 2) at 1. f_equal. replace (off + 22 + 2)%nat with (off + 24)%nat by lia.
    apply drop_split.
  - unfold entrySize. cbn [Dirent.Name]. rewrite Hsl. change (Z.to_nat (QIDSize + 8 + 1 + 2)) with 24%nat. lia.
  - lia.
Qed.

Lemma entrySize_pos d : (24 <= entrySize d)%nat.
Proof. unfold entrySize. change (Z.to_nat (QIDSize + 8 + 1 + 2)) with 24%nat. lia. Qed.

Lemma parseLoop_ok fuel data off out ds :
  Forall Dirent.wf ds -> drop off data = wire_list wire_dirent ds ->
  (length data - off <= fuel)%nat ->
  parseLoop fuel data off out = (out ++ ds, None).
Proof.
  intros Hwf. revert fuel off out; induction Hwf as [|d ds Hd _ IH]; intros fuel off out Hdr Hf.
  - assert (length data <= off)%nat.
    { apply (f_equal length) in Hdr. rewrite length_drop in Hdr. cbn in Hdr. lia. }
    rewrite app_nil_r. destruct fuel; cbn [parseLoop]; by rewrite (proj2 (Nat.ltb_ge _ _)) by lia.
  - unfold wire_list in Hdr. cbn [map concat] in Hdr. pose proof (entrySize_pos d).
    assert (entrySize d <= length data - off)%nat.
    { rewrite <- length_drop, Hdr, length_app, length_wire_dirent. lia. }
    destruct fuel as [|fuel]; [lia|]. cbn [parseLoop].
    rewrite (proj2 (Nat.ltb_lt _ _)) by lia. rewrite (parseDirent_ok _ _ _ _ Hd Hdr).
    rewrite IH; [by rewrite <- app_assoc| |lia].
    rewrite <- drop_drop, Hdr. apply drop_app_length'. by rewrite length_wire_dirent.
Qed.

Lemma parseLoop_sound fuel data off out ds e :
  parseLoop fuel data off out = (ds, e) -> (off <= length data)%nat ->
  (length data - off <= fuel)%nat ->
  exists ds' off', ds = out ++ ds' /\ Forall Dirent.wf ds' /\ (off' <= length data)%nat /\
    drop off data = wire_list wire_dirent ds' ++ drop off' data /\
    match e with
    | None => off' = length data
    | Some err => (off' < length data)%nat /\ parseDirent data off' = Err err
    end.
Proof.
  revert off out; induction fuel as [|fuel IH]; intros off out; cbn [parseLoop];
    destruct (Nat.ltb_spec off (length data)) as [Hlt|Hge]; intros H Hoff Hf; try lia.
  - injection H as <- <-. exists [], off. rewrite app_nil_r. by repeat split; (lia || constructor).
  - destruct (parseDirent data off) as [[d off']|err] eqn:E.
    + apply parseDirent_inv in E as (Hd & Hdr & -> & Hle). pose proof (entrySize_pos d).
      apply IH in H as (ds' & off'' & -> & Hwf & Hle' & Hdr' & He); [|lia..].
      exists (d :: ds'), off''. rewrite <- app_assoc. split; [done|]. split; [by constructor|].
      split; [done|]. split; [|done]. unfold wire_list. cbn [map concat].
      rewrite Hdr, Hdr', <- app_assoc. done.
    + injection H as <- <-. exists [], off. rewrite app_nil_r. by repeat split; (done || constructor).
  - injection H as <- <-. exists [], off. rewrite app_nil_r. by repeat split; (lia || constructor).
Qed.

Lemma EncodeDirents_fitting pooled ds maxBytes :
  0 <= maxBytes <= Z.of_nat (length pooled) ->
  let g := fitting (Z.to_nat maxBytes) ds in
  EncodeDirents pooled ds maxBytes = (wire_list wire_dirent g, length g).
Proof.
  intros Hmax g. unfold EncodeDirents. destruct ds as [|d ds']; [done|]. cbn [Nat.eqb length].
  unfold EncodeDirentsInto. rewrite encodeLoop_spec by lia. rewrite Nat.sub_0_r, length_take.
  replace (Z.to_nat maxBytes `min` length pooled)%nat with (Z.to_nat maxBytes) by lia.
  fold g. cbv zeta. cbn [Nat.add]. f_equal. unfold patch. rewrite take_0, app_nil_l. apply take_app_length.
Qed.

Lemma fitting_Forall (P : Dirent.t -> Prop) room ds : Forall P ds -> Forall P (fitting room ds).
Proof.
  intros H. revert room. induction H as [|d ds Hd _ IH]; intros room; cbn [fitting]; [done|].
  repeat case_decide; auto.
Qed.

(** ** Properties *)

(** Packing.  [EncodeDirentsInto] writes, back to back from the start of
    the buffer, the wire form of the entries it takes in order (overlong
    names skipped, stopping at the first that does not fit), never more than
    the buffer holds; it returns the bytes and entries written and leaves the
    rest of the buffer alone.  [EncodeDirents] returns those bytes whatever
    the pooled buffer held. *)
Theorem encode_dirents_spec dst pooled ds maxBytes :
  0 <= maxBytes <= Z.of_nat (length pooled) ->
  let f := fitting (length dst) ds in
  let g := fitting (Z.to_nat maxBytes) ds in
  let bs := wire_list wire_dirent f in
  EncodeDirentsInto dst ds = (bs ++ drop (length bs) dst, (length bs, length f)) /\
  (length bs <= length dst)%nat /\
  EncodeDirents pooled ds maxBytes = (wire_list wire_dirent g, length g).
Proof.
  intros Hmax f g bs. split; [|split].
  - unfold EncodeDirentsInto. rewrite encodeLoop_spec by lia. by rewrite Nat.sub_0_r.
  - apply length_fitting.
  - by apply EncodeDirents_fitting.
Qed.

Example encode_dirents_spec_witness :
  let d := Dirent.mk (QID.mk 0 1 2) 1 8 "a" in
  EncodeDirentsInto (repeat (byte_of_Z 255) 30) [d; d] =
    (wire_dirent d ++ repeat (byte_of_Z 255) 5, (25%nat, 1%nat)).
Proof.
  intros d.
  destruct (encode_dirents_spec (repeat (byte_of_Z 255) 30) [] [d; d] 0) as [E _]; [cbn; lia|].
  rewrite E. by vm_compute.
Defined.

(** Directory round trip.  Parsing packed entries returns exactly those
    entries without an error. *)
Theorem dirents_roundtrip pooled ds maxBytes :
  0 <= maxBytes <= Z.of_nat (length pooled) ->
  Forall Dirent.wf ds ->
  ParseDirents (fst (EncodeDirents pooled ds maxBytes)) = (fitting (Z.to_nat maxBytes) ds, None).
Proof.
  intros Hmax Hwf. rewrite EncodeDirents_fitting by done. cbn [fst]. unfold ParseDirents.
  by rewrite (parseLoop_ok _ _ _ _ (fitting (Z.to_nat maxBytes) ds));
    [|apply fitting_Forall|rewrite drop_0|lia].
Qed.

Example dirents_roundtrip_witness :
  let d := Dirent.mk (QID.mk 0x80 7 42) 3 4 "etc" in
  ParseDirents (fst (EncodeDirents (repeat (byte_of_Z 1) 100) [d; d; d; d; d] 100)) =
    (fitting 100 [d; d; d; d; d], None).
Proof.
  intros d. apply (dirents_roundtrip (repeat (byte_of_Z 1) 100) [d; d; d; d; d] 100); [cbn; lia|].
  repeat constructor; by vm_compute.
Defined.

(** Parsing.  On any data, [ParseDirents] returns the longest run of
    well-formed entries the data starts with; without an error the data is
    exactly their packed form, and with an error it stops at the entry that
    is cut short, keeping those before it. *)
Theorem parse_dirents_sound data ds e :
  ParseDirents data = (ds, e) ->
  Forall Dirent.wf ds /\
  exists tail, data = wire_list wire_dirent ds ++ tail /\
    match e with
    | None => tail = []
    | Some err => tail <> [] /\
        parseDirent data (length (wire_list wire_dirent ds)) = Err err
    end.
Proof.
  intros H. apply parseLoop_sound in H as (ds' & off & -> & Hwf & Hle & Hdr & He); [|lia..].
  rewrite drop_0 in Hdr. cbn [app]. split; [done|]. exists (drop off data). split; [done|].
  assert (length data = length (wire_list wire_dirent ds') + (length data - off))%nat as Hl
    by (rewrite Hdr at 1; rewrite length_app, length_drop; done).
  destruct e as [err|].
  - destruct He as [Hlt He]. replace (length (wire_list wire_dirent ds')) with off by lia.
    split; [|done]. intros Hn. apply (f_equal length) in Hn. rewrite length_drop in Hn. cbn in Hn. lia.
  - subst off. apply drop_ge. lia.
Qed.

Example parse_dirents_sound_witness :
  let d := Dirent.mk (QID.mk 0 1 2) 1 8 "a" in
  let data := wire_dirent d ++ le_bytes 3 0 in
  exists err, ParseDirents data = ([d], Some err) /\ Forall Dirent.wf [d].
Proof.
  intros d data. exists (Errorf "truncated dirent header (%d bytes left, need %d)" [3; 24]).
  split; [by vm_compute|].
  eapply (parse_dirents_sound data [d] (Some (Errorf _ _))). by vm_compute.
Defined.
