(* ===== verification/Bufpool.v ===== *)
(** * Message buffer pool

    [internal/bufpool/bufpool.go]: the bucketed pools of message buffers
    ([GetMsgBuf], [PutMsgBuf]) and of string scratch buffers
    ([GetStringBuf], [PutStringBuf]).

    A [*[]byte] is an address of a slice: a backing array, whose length is
    the capacity, and a length.  [sync.Pool] hands out any value that was put
    and not yet taken, or a new one, and may drop values at any time; the
    choice is an argument.  [System] has the steps of the users of the pool,
    each of which returns only buffers it holds.  In every reachable state a
    buffer has at most one user, and a buffer handed out is at least as long
    as asked.  [BufPool] is what the users of the pool rely on. *)

From S2P Require Import Prelude.

Definition Addr : Type := nat.

Record slice : Type := mkSlice { backing : bytes; slen : Z }.
Definition cap (b : slice) : Z := Z.of_nat (length (backing b)).
(** [make([]byte, len, cap)] *)
Definition make (len cap : Z) : slice := mkSlice (repeat (byte_of_Z 0) (Z.to_nat cap)) len.
(** [*b = ( *b)[:n]] *)
Definition reslice (n : Z) (b : slice) : slice := mkSlice (backing b) n.

Definition msgBucketSizes : list Z := [2 ^ 10; 2 ^ 12; 2 ^ 16; 2 ^ 20].
Definition stringBucketSizes : list Z := [128; 512; 1024; 4096].

(** Memory, and the contents of each bucket's [sync.Pool]. *)
Record Pool : Type := mkPool {
  mem : gmap Addr slice;
  buckets : gmap nat (list Addr)
}.

(** The loop of [msgBucketFor] and [stringBucketFor]; [None] is -1. *)
Fixpoint bucketFrom (i : nat) (sizes : list Z) (n : Z) : option nat :=
  match sizes with
  | [] => None
  | size :: sizes' => if n <=? size then Some i else bucketFrom (S i) sizes' n
  end.
Definition msgBucketFor : Z -> option nat := bucketFrom 0 msgBucketSizes.
Definition stringBucketFor : Z -> option nat := bucketFrom 0 stringBucketSizes.

(** The [switch] of the [Put] functions on the capacity. *)
Fixpoint bucketOf (i : nat) (sizes : list Z) (c : Z) : option nat :=
  match sizes with
  | [] => None
  | size :: sizes' => if c =? size then Some i else bucketOf (S i) sizes' c
  end.

Definition bucket (i : nat) (p : Pool) : list Addr := default [] (buckets p !! i).
Definition alloc (b : slice) (p : Pool) : Addr * Pool :=
  let a := fresh (dom (mem p)) in (a, mkPool (<[a := b]> (mem p)) (buckets p)).

(** [sync.Pool.Get] and [Put] of bucket [i]. *)
Definition poolGet (i : nat) (New : slice) (choice : option Addr) (p : Pool) : Addr * Pool :=
  match choice ≫= fun a => pair a <$> take_out a (bucket i p) with
  | Some (a, rest) => (a, mkPool (mem p) (<[i := rest]> (buckets p)))
  | None => alloc New p
  end.
Definition poolPut (i : nat) (a : Addr) (p : Pool) : Pool :=
  mkPool (mem p) (<[i := a :: bucket i p]> (buckets p)).

Definition setSlice (a : Addr) (f : slice -> slice) (p : Pool) : Pool :=
  mkPool (alter f a (mem p)) (buckets p).

Definition GetMsgBuf (n : Z) (choice : option Addr) (p : Pool) : Addr * Pool :=
  match msgBucketFor n with
  | None => alloc (make n n) p
  | Some idx =>
      let size := nth idx msgBucketSizes 0 in
      poolGet idx (make size size) choice p
  end.

Definition PutMsgBuf (a : Addr) (p : Pool) : Pool :=
  match mem p !! a with
  | None => p
  | Some b =>
      match bucketOf 0 msgBucketSizes (cap b) with
      | Some i => poolPut i a (setSlice a (reslice (cap b)) p)
      | None => p
      end
  end.

Definition PutStringBuf (a : Addr) (p : Pool) : Pool :=
  match mem p !! a with
  | None => p
  | Some b =>
      match bucketOf 0 stringBucketSizes (cap b) with
      | Some i => poolPut i a (setSlice a (reslice 0) p)
      | None => p
      end
  end.

Definition GetStringBuf (n : Z) (choice : option Addr) (p : Pool) : Addr * Pool :=
  match stringBucketFor n with
  | None => alloc (make 0 n) p
  | Some idx =>
      let '(a, p) := poolGet idx (make 0 (nth idx stringBucketSizes 0)) choice p in
      match mem p !! a with
      | None => (a, p)
      | Some b =>
          if cap b <? n then alloc (make 0 n) (PutStringBuf a p)
          else (a, setSlice a (reslice 0) p)
      end
  end.

(** ** Buckets *)

Lemma cap_make len n : n <= cap (make len n).
Proof. unfold cap, make. cbn [backing]. rewrite repeat_length. lia. Qed.

Lemma bucketFrom_spec sizes n i k :
  bucketFrom i sizes n = Some k ->
  (i <= k)%nat /\ exists s, sizes !! (k - i)%nat = Some s /\ n <= s /\ nth (k - i) sizes 0 = s.
Proof.
  revert i; induction sizes as [|s sizes IH]; intros i; cbn; [done|].
  destruct (Z.leb_spec n s).
  - intros [= <-]. split; [lia|]. rewrite Nat.sub_diag. by exists s.
  - intros (Hle & s' & Hs & Hn & Hnth)%IH. split; [lia|]. exists s'.
    replace (k - i)%nat with (S (k - S i)) by lia. done.
Qed.

Lemma bucketOf_spec sizes c i k :
  bucketOf i sizes c = Some k -> (i <= k)%nat /\ sizes !! (k - i)%nat = Some c.
Proof.
  revert i; induction sizes as [|s sizes IH]; intros i; cbn; [done|].
  destruct (Z.eqb_spec c s).
  - intros [= <-]. split; [lia|]. rewrite Nat.sub_diag. by subst.
  - intros (Hle & Hs)%IH. split; [lia|]. by replace (k - i)%nat with (S (k - S i)) by lia.
Qed.

(** ** Ownership *)

(** [owned] are the buffers in use; [newLen] is the length a pooled buffer of
    a given capacity has. *)
Record Inv (sizes : list Z) (newLen : Z -> Z) (owned : gset Addr) (p : Pool) : Prop := {
  p_slice i a : a ∈ bucket i p ->
    exists b, mem p !! a = Some b /\ sizes !! i = Some (cap b) /\ slen b = newLen (cap b);
  p_once i : NoDup (bucket i p);
  p_free i a : a ∈ bucket i p -> a ∉ owned;
  p_owned a : a ∈ owned -> a ∈ dom (mem p)
}.

Lemma bucket_set p i l j m :
  bucket j (mkPool m (<[i := l]> (buckets p))) = if decide (i = j) then l else bucket j p.
Proof. unfold bucket. cbn. rewrite lookup_insert. by case_decide. Qed.

Section Ownership.
Context (sizes : list Z) (newLen : Z -> Z).
Hypothesis Hsizes : NoDup sizes.
Abbreviation Inv := (Inv sizes newLen).

(** What a [Get] promises. *)
Definition got (n : Z) (len : slice -> Z) (owned : gset Addr) (p : Pool) (r : Addr * Pool) : Prop :=
  (r.1 ∉ owned) /\ Inv ({[r.1]} ∪ owned) r.2 /\
  (exists b, mem r.2 !! r.1 = Some b /\ n <= len b) /\
  forall a, a ∈ owned -> mem r.2 !! a = mem p !! a.

Lemma alloc_got n len owned p b :
  Inv owned p -> n <= len b -> got n len owned p (alloc b p).
Proof.
  intros HI Hn. unfold got, alloc. cbn. set (a := fresh _).
  assert (a ∉ dom (mem p)) as Ha by apply is_fresh.
  assert (forall i, a ∉ bucket i p) as Hb.
  { intros i (b' & H & _)%(p_slice _ _ _ _ HI). apply Ha, elem_of_dom. eauto. }
  split; [intros H; by apply Ha, (p_owned _ _ _ _ HI)|]. split; [split|split].
  - intros i x Hx. change (x ∈ bucket i p) in Hx. destruct (p_slice _ _ _ _ HI i x Hx) as (b' & H).
    exists b'. cbn. rewrite lookup_insert_ne; [done|]. intros <-. by apply (Hb i).
  - intros i. apply (p_once _ _ _ _ HI).
  - intros i x Hx. change (x ∈ bucket i p) in Hx. rewrite not_elem_of_union, not_elem_of_singleton.
    split; [intros ->; by apply (Hb i)|by apply (p_free _ _ _ _ HI i)].
  - intros x. cbn. rewrite elem_of_union, elem_of_singleton, dom_insert_L, elem_of_union, elem_of_singleton.
    intros [->|H]; [by left|right; by apply (p_owned _ _ _ _ HI)].
  - exists b. by rewrite lookup_insert_eq.
  - intros x Hx. rewrite lookup_insert_ne; [done|]. intros <-. by apply Ha, (p_owned _ _ _ _ HI).
Qed.

Lemma poolGet_got n len owned p i size New choice :
  Inv owned p -> sizes !! i = Some size -> n <= len New ->
  (forall b, cap b = size -> slen b = newLen size -> n <= len b) ->
  got n len owned p (poolGet i New choice p).
Proof.
  intros HI Hs Hnew Hlen. unfold poolGet.
  destruct (choice ≫= _) as [[a rest]|] eqn:E; [|by apply alloc_got].
  apply bind_Some in E as (a' & _ & E). destruct (take_out a' (bucket i p)) as [rest'|] eqn:Et; [|done].
  injection E as -> ->. apply take_out_Permutation in Et.
  assert (a ∈ bucket i p) as Ha by (rewrite Et; by left).
  destruct (p_slice _ _ _ _ HI i a Ha) as (b & Hb & Hsz & Hl).
  pose proof (p_once _ _ _ _ HI i) as Hnd. rewrite Et in Hnd. apply NoDup_cons in Hnd as [Hna Hnd].
  assert (forall j x, x ∈ bucket j (mkPool (mem p) (<[i := rest]> (buckets p))) ->
    x ∈ bucket j p /\ x <> a) as Hsub.
  { intros j x. rewrite bucket_set. case_decide as Hij.
    - subst j. intros Hx. split; [rewrite Et; by right|]. intros ->. done.
    - intros Hx. split; [done|]. intros ->. destruct (p_slice _ _ _ _ HI j a Hx) as (b' & Hb' & Hsz' & _).
      assert (b' = b) as -> by congruence. by apply Hij, (NoDup_lookup _ _ _ _ Hsizes Hsz Hsz'). }
  unfold got. cbn. split; [by apply (p_free _ _ _ _ HI i)|]. split; [split|split].
  - intros j x [Hx _]%Hsub. by apply (p_slice _ _ _ _ HI).
  - intros j. rewrite bucket_set. case_decide; [done|apply (p_once _ _ _ _ HI)].
  - intros j x [Hx Hne]%Hsub. rewrite not_elem_of_union, not_elem_of_singleton.
    split; [done|by apply (p_free _ _ _ _ HI j)].
  - intros x. rewrite elem_of_union, elem_of_singleton. intros [->|H]; [apply elem_of_dom; eauto|by apply (p_owned _ _ _ _ HI)].
  - exists b. split; [done|]. apply Hlen; congruence.
  - done.
Qed.

(** An owner changes its slice in any way. *)
Lemma setSlice_Inv owned p a f : Inv owned p -> a ∈ owned -> Inv owned (setSlice a f p).
Proof.
  intros HI Ha. split.
  - intros i x Hx. change (x ∈ bucket i p) in Hx. destruct (p_slice _ _ _ _ HI i x Hx) as (b & H).
    exists b. cbn. rewrite lookup_alter_ne; [done|]. intros <-. by apply (p_free _ _ _ _ HI i a Hx).
  - apply (p_once _ _ _ _ HI).
  - apply (p_free _ _ _ _ HI).
  - intros x Hx. cbn. rewrite dom_alter_L. by apply (p_owned _ _ _ _ HI).
Qed.

Lemma pool_drop_Inv owned p a : Inv ({[a]} ∪ owned) p -> Inv owned p.
Proof.
  intros HI. split; try apply HI.
  - intros i x H Hx. by apply (p_free _ _ _ _ HI i x H), elem_of_union_r.
  - intros x Hx. by apply (p_owned _ _ _ _ HI), elem_of_union_r.
Qed.

Lemma poolPut_Inv owned p a i b :
  Inv ({[a]} ∪ owned) p -> a ∉ owned -> mem p !! a = Some b -> sizes !! i = Some (cap b) ->
  slen b = newLen (cap b) -> Inv owned (poolPut i a p).
Proof.
  intros HI Ha Hb Hs Hl.
  assert (forall j, a ∉ bucket j p) as Hna.
  { intros j H. apply (p_free _ _ _ _ HI j a H), elem_of_union_l, elem_of_singleton. done. }
  unfold poolPut. split.
  - intros j x. rewrite bucket_set. case_decide as Hij; [subst j|by apply (p_slice _ _ _ _ HI)].
    rewrite elem_of_cons. intros [->|Hx]; [by exists b|by apply (p_slice _ _ _ _ HI)].
  - intros j. rewrite bucket_set. case_decide; [|apply (p_once _ _ _ _ HI)].
    apply NoDup_cons. split; [done|apply (p_once _ _ _ _ HI)].
  - intros j x. rewrite bucket_set. assert (x ∈ bucket j p -> x ∉ owned) as Hf.
    { intros H Hx. by apply (p_free _ _ _ _ HI j x H), elem_of_union_r. }
    case_decide; [subst j|done]. rewrite elem_of_cons. intros [->|Hx]; auto.
  - intros x Hx. by apply (p_owned _ _ _ _ HI), elem_of_union_r.
Qed.

(** The body of the [Put] functions. *)
Lemma put_Inv owned p a :
  Inv ({[a]} ∪ owned) p -> a ∉ owned ->
  Inv owned
    match mem p !! a with
    | None => p
    | Some b =>
        match bucketOf 0 sizes (cap b) with
        | Some i => poolPut i a (setSlice a (reslice (newLen (cap b))) p)
        | None => p
        end
    end.
Proof.
  intros HI Ha. destruct (mem p !! a) as [b|] eqn:Hb; [|by eapply pool_drop_Inv].
  destruct (bucketOf 0 sizes (cap b)) as [i|] eqn:Hi; [|by eapply pool_drop_Inv].
  apply bucketOf_spec in Hi as [_ Hi]. rewrite Nat.sub_0_r in Hi.
  eapply (poolPut_Inv _ _ _ _ (reslice (newLen (cap b)) b)); try done.
  - apply setSlice_Inv; [done|]. by apply elem_of_union_l, elem_of_singleton.
  - cbn. by rewrite lookup_alter_eq, Hb.
Qed.
End Ownership.

Lemma GetMsgBuf_got n choice owned p :
  Inv msgBucketSizes id owned p -> got msgBucketSizes id n slen owned p (GetMsgBuf n choice p).
Proof.
  intros HI. unfold GetMsgBuf. destruct (msgBucketFor n) as [i|] eqn:E; [|by apply alloc_got].
  apply bucketFrom_spec in E as (_ & s & Hs & Hn & Hnth). rewrite Nat.sub_0_r in *.
  eapply poolGet_got; [by apply (bool_decide_unpack _)|done|done| |].
  - rewrite Hnth. exact Hn.
  - intros b _ ->. exact Hn.
Qed.

Lemma GetMsgBuf_cap n choice owned p :
  Inv msgBucketSizes id owned p ->
  exists b, mem (GetMsgBuf n choice p).2 !! (GetMsgBuf n choice p).1 = Some b /\ n <= cap b.
Proof.
  intros HI. unfold GetMsgBuf. destruct (msgBucketFor n) as [i|] eqn:E.
  2:{ eexists. cbn. rewrite lookup_insert_eq. split; [done|apply cap_make]. }
  apply bucketFrom_spec in E as (_ & s & Hs & Hn & Hnth). rewrite Nat.sub_0_r in *.
  assert (got msgBucketSizes id n cap owned p
    (poolGet i (make (nth i msgBucketSizes 0) (nth i msgBucketSizes 0)) choice p)) as (_ & _ & H & _); [|exact H].
  eapply poolGet_got; [by apply (bool_decide_unpack _)|done|done| |by intros b ->].
  rewrite Hnth. etransitivity; [exact Hn|apply cap_make].
Qed.

Lemma GetStringBuf_got n choice owned p :
  Inv stringBucketSizes (fun _ => 0) owned p ->
  got stringBucketSizes (fun _ => 0) n cap owned p (GetStringBuf n choice p).
Proof.
  intros HI. unfold GetStringBuf.
  destruct (stringBucketFor n) as [i|] eqn:E.
  2:{ apply alloc_got; [done|]. by apply cap_make. }
  apply bucketFrom_spec in E as (_ & s & Hs & Hn & Hnth). rewrite Nat.sub_0_r in *.
  assert (got stringBucketSizes (fun _ => 0) n cap owned p
    (poolGet i (make 0 (nth i stringBucketSizes 0)) choice p)) as Hg.
  { eapply poolGet_got; [by apply (bool_decide_unpack _)|done|done| |by intros b ->].
    rewrite Hnth. etransitivity; [exact Hn|by apply cap_make]. }
  destruct (poolGet _ _ _ _) as [a p1]. destruct Hg as (H1 & H2 & (b & Hb & Hc) & H4). cbn [fst snd] in *.
  rewrite Hb. destruct (Z.ltb_spec (cap b) n); [lia|]. unfold got. cbn [fst snd].
  split; [done|]. split; [apply setSlice_Inv; [done|set_solver]|]. split.
  - exists (reslice 0 b). cbn. by rewrite lookup_alter_eq, Hb.
  - intros x Hx. cbn. rewrite lookup_alter_ne; [by apply H4|]. intros <-. done.
Qed.

(** ** What the users of the message pool rely on *)

Class BufPool : Type := {
  (** The contents of the buffer [GetMsgBuf n] hands out: whatever its last
      user left. *)
  getMsgBuf : Z -> bytes;
  getMsgBuf_length n : n <= Z.of_nat (length (getMsgBuf n))
}.

(** ** Users of a pool *)

Module System.
Section System.
Context (Get : Z -> option Addr -> Pool -> Addr * Pool) (Put : Addr -> Pool -> Pool).

(** The buffers each user holds. *)
Record Sys : Type := mkSys { pool : Pool; held : list (nat * Addr) }.
Definition init : Sys := mkSys (mkPool ∅ ∅) [].

Inductive Label : Type :=
  | LGet (user : nat) (n : Z) (choice : option Addr)
  | LPut (user : nat) (a : Addr)
  | LWrite (user : nat) (a : Addr) (f : slice -> slice)
  | LDrop (user : nat) (a : Addr).

(** A user writes to, re-slices, puts back or forgets only what it holds. *)
Definition exec (lab : Label) (s : Sys) : option Sys :=
  match lab with
  | LGet u n choice => let '(a, p) := Get n choice (pool s) in Some (mkSys p ((u, a) :: held s))
  | LPut u a => rest ← take_out (u, a) (held s); Some (mkSys (Put a (pool s)) rest)
  | LWrite u a f => rest ← take_out (u, a) (held s); Some (mkSys (setSlice a f (pool s)) (held s))
  | LDrop u a => rest ← take_out (u, a) (held s); Some (mkSys (pool s) rest)
  end.

Definition step (s s' : Sys) : Prop := exists lab, exec lab s = Some s'.
Definition reachable : Sys -> Prop := Reachable init step.
Definition owned (s : Sys) : gset Addr := list_to_set (held s).*2.

Context (sizes : list Z) (newLen : Z -> Z) (len : slice -> Z).
Hypothesis Get_got : forall n choice o p,
  Inv sizes newLen o p -> got sizes newLen n len o p (Get n choice p).
Hypothesis Put_Inv : forall o p a, Inv sizes newLen ({[a]} ∪ o) p -> a ∉ o -> Inv sizes newLen o (Put a p).

Definition pool_ok (s : Sys) : Prop := NoDup (held s).*2 /\ Inv sizes newLen (owned s) (pool s).

Lemma init_pool_ok : pool_ok init.
Proof.
  split; [apply NoDup_nil_2|]. split.
  - intros i a H. unfold bucket in H. cbn in H. rewrite lookup_empty in H. by apply elem_of_nil in H.
  - intros i. unfold bucket. cbn. rewrite lookup_empty. apply NoDup_nil_2.
  - intros i a _. by apply not_elem_of_empty.
  - intros a H. by apply not_elem_of_empty in H.
Qed.

Lemma take_out_owned (u : nat) (a : Addr) h rest :
  take_out (u, a) h = Some rest -> NoDup h.*2 ->
  NoDup rest.*2 /\ (a ∉ (list_to_set rest.*2 : gset Addr)) /\
  (list_to_set h.*2 : gset Addr) = {[a]} ∪ list_to_set rest.*2.
Proof.
  intros Hp%take_out_Permutation Hnd. rewrite Hp in Hnd. cbn in Hnd.
  apply NoDup_cons in Hnd as [Hn Hnd]. split; [done|]. split; [by rewrite elem_of_list_to_set|].
  apply set_eq. intros x. by rewrite Hp.
Qed.

Lemma step_pool_ok s s' : pool_ok s -> step s s' -> pool_ok s'.
Proof.
  intros [Hnd HI] [lab E]. destruct lab as [u n choice|u a|u a f|u a]; cbn in E.
  - pose proof (Get_got n choice (owned s) (pool s) HI) as Hg.
    destruct (Get n choice (pool s)) as [a p]. injection E as <-. destruct Hg as (Ha & HI' & _). cbn in *.
    split; [|exact HI']. apply NoDup_cons. split; [|done]. by rewrite <- (elem_of_list_to_set (C:=gset Addr)).
  - apply bind_Some in E as (rest & Ht & E). injection E as <-.
    destruct (take_out_owned _ _ _ _ Ht Hnd) as (Hnd' & Ha & Ho). split; [done|].
    apply Put_Inv; [|done]. unfold owned in HI. by rewrite Ho in HI.
  - apply bind_Some in E as (rest & Ht & E). injection E as <-. split; [done|].
    apply setSlice_Inv; [done|]. destruct (take_out_owned _ _ _ _ Ht Hnd) as (_ & _ & Ho).
    unfold owned. cbn. rewrite Ho. set_solver.
  - apply bind_Some in E as (rest & Ht & E). injection E as <-.
    destruct (take_out_owned _ _ _ _ Ht Hnd) as (Hnd' & Ha & Ho). split; [done|].
    apply (pool_drop_Inv _ _ _ _ a). unfold owned in HI. by rewrite Ho in HI.
Qed.

Lemma reachable_pool_ok s : reachable s -> pool_ok s.
Proof. apply Reachable_invariant; [apply init_pool_ok|]. intros s1 s2 _. apply step_pool_ok. Qed.

(** A buffer handed out is held by nobody, is long enough, and no held buffer changes. *)
Definition hands_out (s : Sys) (n : Z) (choice : option Addr) : Prop :=
  let '(a, p) := Get n choice (pool s) in
  (a ∉ (held s).*2) /\ (exists b, mem p !! a = Some b /\ n <= len b) /\
  forall x, x ∈ (held s).*2 -> mem p !! x = mem (pool s) !! x.

Lemma reachable_hands_out s n choice : reachable s -> hands_out s n choice.
Proof.
  intros [_ HI]%reachable_pool_ok. pose proof (Get_got n choice (owned s) (pool s) HI) as Hg.
  unfold hands_out. destruct (Get n choice (pool s)) as [a p]. destruct Hg as (H1 & _ & H3 & H4). cbn in *.
  unfold owned in *. split; [by rewrite <- (elem_of_list_to_set (C:=gset Addr))|]. split; [done|].
  intros x Hx. apply H4. by rewrite elem_of_list_to_set.
Qed.
End System.

Lemma PutMsgBuf_Inv o p a :
  Inv msgBucketSizes id ({[a]} ∪ o) p -> a ∉ o -> Inv msgBucketSizes id o (PutMsgBuf a p).
Proof. apply put_Inv. Qed.
Lemma PutStringBuf_Inv o p a :
  Inv stringBucketSizes (fun _ => 0) ({[a]} ∪ o) p -> a ∉ o ->
  Inv stringBucketSizes (fun _ => 0) o (PutStringBuf a p).
Proof. apply (put_Inv stringBucketSizes (fun _ => 0)). Qed.

Definition msgReachable : Sys -> Prop := reachable GetMsgBuf PutMsgBuf.
(** The pool in a reachable state, whichever buffers it yields, is a [BufPool]. *)
Definition handedOut (s : Sys) (n : Z) (choice : option Addr) : bytes :=
  let '(a, p) := GetMsgBuf n choice (pool s) in
  match mem p !! a with Some b => backing b | None => [] end.

Lemma handedOut_length s n choice : msgReachable s -> n <= Z.of_nat (length (handedOut s n choice)).
Proof.
  intros Hs. pose proof (proj2 (reachable_pool_ok _ _ _ _ _ GetMsgBuf_got PutMsgBuf_Inv s Hs)) as HI.
  pose proof (GetMsgBuf_cap n choice _ _ HI) as H. unfold handedOut.
  destruct (GetMsgBuf n choice (pool s)) as [a p]. destruct H as (b & Hb & H). cbn in Hb. rewrite Hb. exact H.
Qed.

Definition reachable_BufPool (s : Sys) (choice : Z -> option Addr) (Hs : msgReachable s) : BufPool :=
  Build_BufPool (fun n => handedOut s n (choice n)) (fun n => handedOut_length s n (choice n) Hs).

Definition stringReachable : Sys -> Prop := reachable GetStringBuf PutStringBuf.

(** C8: as long as every user returns only buffers it holds, a pooled message
    or string buffer has at most one user at a time: whichever pooled buffer
    [sync.Pool] yields, the buffer [GetMsgBuf n] or [GetStringBuf n] hands out
    is held by nobody, holds at least [n] bytes (length for a message buffer,
    capacity for a string buffer), and no buffer in use is touched. *)
Theorem bufpool_exclusive n choice :
  (forall s, msgReachable s -> NoDup (held s).*2 /\ hands_out GetMsgBuf slen s n choice) /\
  (forall s, stringReachable s -> NoDup (held s).*2 /\ hands_out GetStringBuf cap s n choice).
Proof.
  split; intros s Hs; split.
  - by apply (reachable_pool_ok _ _ _ _ _ (GetMsgBuf_got) PutMsgBuf_Inv).
  - by apply (reachable_hands_out _ _ _ _ _ (GetMsgBuf_got) PutMsgBuf_Inv).
  - by apply (reachable_pool_ok _ _ _ _ _ (GetStringBuf_got) PutStringBuf_Inv).
  - by apply (reachable_hands_out _ _ _ _ _ (GetStringBuf_got) PutStringBuf_Inv).
Qed.

(** A buffer is put back, taken again, and a second user asks for the same. *)
Definition reuse : list Label := [LGet 0 300 None; LPut 0 0%nat; LGet 0 20 (Some 0%nat)].

Lemma bufpool_exclusive_witness :
  exists s, runLabels (exec GetMsgBuf PutMsgBuf) reuse init = Some s /\
    held s = [(0, 0)]%nat /\ hands_out GetMsgBuf slen s 300 (Some 0%nat).
Proof.
  destruct (runLabels (exec GetMsgBuf PutMsgBuf) reuse init) as [s|] eqn:E; [|by vm_compute in E].
  assert (msgReachable s) as Hr
    by (eapply (runLabels_Reachable _ _ (exec GetMsgBuf PutMsgBuf)); [by eexists|apply reach_init|exact E]).
  exists s. split; [done|]. split; [vm_compute in E; by injection E as <-|].
  by apply (proj1 (bufpool_exclusive 300 (Some 0%nat)) s Hr).
Defined.
End System.
