(* ===== verification/FidTable.v ===== *)
(** * Server fid table

    [server/fid.go]: the state of a fid, the table from fid numbers to
    states, and the reference-counted hand-over between I/O handlers and the
    clunk that releases the fid's resources.

    Go shares a [*fidState] between the table and the handlers that looked
    it up, and a handler may go on using it after the fid left the table; so
    states live in a heap of locations and the table maps fids to locations.
    Every method is one critical section (under [ft.mu], [fs.mu] or both);
    [FidLife] interleaves them.

    [Node], [Handle] and [XattrWriter] stand for the values behind the
    interfaces of the same names, which the file system implementation
    provides; only their identity matters here. *)

From S2P Require Import Prelude Types Errno.

(** ** State *)

Inductive fidStatus : Type :=
  | fidAllocated
  | fidOpened
  | fidXattrRead
  | fidXattrWrite.

#[export] Instance fidStatus_eq_dec : EqDecision fidStatus.
Proof. solve_decision. Defined.

Record fidState (Node Handle XattrWriter : Type) : Type := mkFidState {
  node : Node;
  path : string;
  state : fidStatus;
  handle : option Handle;
  dirCache : list Dirent.t;
  dirCached : bool;
  ioRefs : Z;
  closing : bool;
  closeNode : bool;
  xattrNode : option Node;
  xattrName : string;
  xattrData : bytes;
  xattrSize : Z;
  xattrFlags : Z;
  xattrWriter : option XattrWriter
}.
Arguments mkFidState {Node Handle XattrWriter}.
Arguments node {Node Handle XattrWriter}.
Arguments path {Node Handle XattrWriter}.
Arguments state {Node Handle XattrWriter}.
Arguments handle {Node Handle XattrWriter}.
Arguments dirCache {Node Handle XattrWriter}.
Arguments dirCached {Node Handle XattrWriter}.
Arguments ioRefs {Node Handle XattrWriter}.
Arguments closing {Node Handle XattrWriter}.
Arguments closeNode {Node Handle XattrWriter}.
Arguments xattrNode {Node Handle XattrWriter}.
Arguments xattrName {Node Handle XattrWriter}.
Arguments xattrData {Node Handle XattrWriter}.
Arguments xattrSize {Node Handle XattrWriter}.
Arguments xattrFlags {Node Handle XattrWriter}.
Arguments xattrWriter {Node Handle XattrWriter}.

(** A heap location: the address of a [fidState]. *)
Definition Loc : Type := nat.

Record fidTable (Node Handle XattrWriter : Type) : Type := mkFidTable {
  heap : gmap Loc (fidState Node Handle XattrWriter);
  fids : gmap Fid Loc
}.
Arguments mkFidTable {Node Handle XattrWriter}.
Arguments heap {Node Handle XattrWriter}.
Arguments fids {Node Handle XattrWriter}.

Definition ErrFidInUse : GoError := Sentinel "fid already in use".
Definition ErrFidLimitExceeded : GoError := Sentinel "fid limit exceeded".

Section FidTable.
Context {Node Handle XattrWriter : Type}.
Abbreviation FS := (fidState Node Handle XattrWriter).
Abbreviation FT := (fidTable Node Handle XattrWriter).

(** [&fidState{node: n, path: p, state: s}]: the other fields are zero. *)
Definition newFidState (n : Node) (p : string) (s : fidStatus) : FS :=
  mkFidState n p s None [] false 0 false false None "" [] 0 0 None.

(** *** Field updates *)

Definition set_node (n : Node) (p : string) (fs : FS) : FS :=
  mkFidState n p (state fs) (handle fs) (dirCache fs) (dirCached fs) (ioRefs fs) (closing fs)
    (closeNode fs) (xattrNode fs) (xattrName fs) (xattrData fs) (xattrSize fs) (xattrFlags fs)
    (xattrWriter fs).
Definition set_open (h : option Handle) (fs : FS) : FS :=
  mkFidState (node fs) (path fs) fidOpened h (dirCache fs) (dirCached fs) (ioRefs fs) (closing fs)
    (closeNode fs) (xattrNode fs) (xattrName fs) (xattrData fs) (xattrSize fs) (xattrFlags fs)
    (xattrWriter fs).
Definition set_io (refs : Z) (fs : FS) : FS :=
  mkFidState (node fs) (path fs) (state fs) (handle fs) (dirCache fs) (dirCached fs) refs
    (closing fs) (closeNode fs) (xattrNode fs) (xattrName fs) (xattrData fs) (xattrSize fs)
    (xattrFlags fs) (xattrWriter fs).
Definition set_closing (c cn : bool) (fs : FS) : FS :=
  mkFidState (node fs) (path fs) (state fs) (handle fs) (dirCache fs) (dirCached fs) (ioRefs fs)
    c cn (xattrNode fs) (xattrName fs) (xattrData fs) (xattrSize fs) (xattrFlags fs)
    (xattrWriter fs).
(** The transition of [handleXattrcreate] to [fidXattrWrite]. *)
Definition set_xattrWrite (name : string) (size flags : Z) (w : option XattrWriter) (fs : FS) : FS :=
  mkFidState (node fs) (path fs) fidXattrWrite (handle fs) (dirCache fs) (dirCached fs) (ioRefs fs)
    (closing fs) (closeNode fs) (Some (node fs)) name [] size flags w.

(** ** Methods of [fidState] *)

Definition currentState (fs : FS) : fidStatus := state fs.
Definition currentNode (fs : FS) : Node := node fs.
Definition currentPath (fs : FS) : string := path fs.
Definition nodeAndPath (fs : FS) : Node * string := (node fs, path fs).

Definition beginIO (fs : FS) : bool * FS :=
  if closing fs then (false, fs) else (true, set_io (ioRefs fs + 1) fs).

(** The critical section of [endIO]: whether the caller must now call
    [releaseNow], with which [closeNode], and the state after it. *)
Definition endIO (fs : FS) : option bool * FS :=
  let fs' := set_io (ioRefs fs - 1) fs in
  let release := closing fs' && (ioRefs fs' =? 0) in
  (if release then Some (closeNode fs') else None, fs').

(** The critical section of [finishClunk], in the same form. *)
Definition finishClunk (cn : bool) (fs : FS) : option bool * FS :=
  let fs' := set_closing true cn fs in
  let release := ioRefs fs' =? 0 in
  (if release then Some cn else None, fs').

(** What [releaseNow] calls: [FileReleaser.Release] on the handle and
    [NodeCloser.Close] on the node. *)
Inductive Event : Type :=
  | Release (h : Handle)
  | Close (n : Node).

Definition releaseFileHandle (h : option Handle) : list Event :=
  match h with
  | None => []
  | Some h => [Release h]
  end.

Definition releaseNow (cn : bool) (fs : FS) : list Event :=
  releaseFileHandle (handle fs) ++ (if cn then [Close (node fs)] else []).

(** ** Methods of [fidTable] *)

Definition newFidTable : FT := mkFidTable ∅ ∅.

Definition get (ft : FT) (fid : Fid) : option Loc := fids ft !! fid.

(** Allocation of the state a handler is about to add. *)
Definition alloc (fs : FS) (ft : FT) : Loc * FT :=
  let l := fresh (dom (heap ft)) in (l, mkFidTable (<[l := fs]> (heap ft)) (fids ft)).

Definition add (fid : Fid) (l : Loc) (maxFids : Z) (ft : FT) : result unit * FT :=
  if (0 <? maxFids) && (maxFids <=? Z.of_nat (size (fids ft)))
  then (Err ErrFidLimitExceeded, ft)
  else match fids ft !! fid with
       | Some _ => (Err (Wrapf "add fid %d: %w" [fid] ErrFidInUse), ft)
       | None => (Ok tt, mkFidTable (heap ft) (<[fid := l]> (fids ft)))
       end.

Definition clunk (fid : Fid) (ft : FT) : option Loc * FT :=
  match fids ft !! fid with
  | None => (None, ft)
  | Some l => (Some l, mkFidTable (heap ft) (delete fid (fids ft)))
  end.

Definition clunkAll (ft : FT) : list Loc * FT :=
  ((map_to_list (fids ft)).*2, mkFidTable (heap ft) ∅).

(** [f] applied to the state at [l]. *)
Definition modify (l : Loc) (f : FS -> FS) (ft : FT) : FT :=
  mkFidTable (alter f l (heap ft)) (fids ft).

Definition setPath (fid : Fid) (p : string) (ft : FT) : FT :=
  match get ft fid with
  | None => ft
  | Some l => modify l (fun fs => set_node (node fs) p fs) ft
  end.

Definition getPath (fid : Fid) (ft : FT) : string :=
  match get ft fid with
  | None => ""
  | Some l => match heap ft !! l with Some fs => currentPath fs | None => "" end
  end.

Definition update (fid : Fid) (n : Node) (p : string) (ft : FT) : option Node * FT :=
  match fids ft !! fid with
  | None => (None, ft)
  | Some l =>
      match heap ft !! l with
      | None => (None, ft)
      | Some fs => (Some (node fs), modify l (set_node n p) ft)
      end
  end.

Definition markOpenedWithHandle (fid : Fid) (h : option Handle) (ft : FT) : bool * FT :=
  match fids ft !! fid with
  | None => (false, ft)
  | Some l =>
      match heap ft !! l with
      | None => (false, ft)
      | Some fs =>
          if decide (state fs = fidAllocated) then (true, modify l (set_open h) ft) else (false, ft)
      end
  end.

Definition updateAndOpen (fid : Fid) (n : Node) (h : option Handle) (ft : FT) : option Node * FT :=
  match fids ft !! fid with
  | None => (None, ft)
  | Some l =>
      match heap ft !! l with
      | None => (None, ft)
      | Some fs =>
          if decide (state fs = fidAllocated)
          then (Some (node fs), modify l (fun fs => set_open h (set_node n (path fs) fs)) ft)
          else (None, ft)
      end
  end.

Definition len (ft : FT) : Z := Z.of_nat (size (fids ft)).

(** ** Invariant

    Every fid is bound to an allocated state, and no state to two fids. *)
Record wf (ft : FT) : Prop := {
  wf_alloc fid l : fids ft !! fid = Some l -> is_Some (heap ft !! l);
  wf_inj fid1 fid2 l : fids ft !! fid1 = Some l -> fids ft !! fid2 = Some l -> fid1 = fid2
}.

(** A location no fid is bound to: what [add] expects of the state it is
    given. *)
Definition unbound (ft : FT) (l : Loc) : Prop := forall fid, fids ft !! fid <> Some l.

Lemma newFidTable_wf : wf newFidTable.
Proof. split; intros *; cbn; rewrite lookup_empty; done. Qed.

Lemma alloc_fresh fs ft l ft' : alloc fs ft = (l, ft') -> heap ft !! l = None.
Proof. intros [= <- <-]. apply not_elem_of_dom, is_fresh. Qed.

Lemma alloc_wf fs ft l ft' : alloc fs ft = (l, ft') -> wf ft -> wf ft' /\ unbound ft' l.
Proof.
  intros E [Ha Hi]. pose proof (alloc_fresh _ _ _ _ E) as Hf. injection E as <- <-.
  split; [split|]; cbn.
  - intros fid l H%Ha. destruct (decide (l = fresh (dom (heap ft)))) as [->|];
      [by rewrite lookup_insert_eq|by rewrite lookup_insert_ne].
  - done.
  - intros fid H. apply Ha in H. rewrite Hf in H. by destruct H.
Qed.

Lemma add_wf fid l maxFids ft :
  wf ft -> unbound ft l -> is_Some (heap ft !! l) -> wf (snd (add fid l maxFids ft)).
Proof.
  intros [Ha Hi] Hu Hl. unfold add. destruct (_ && _); [done|].
  destruct (fids ft !! fid) eqn:E; [done|]. split; cbn.
  - intros fid' l'. destruct (decide (fid = fid')) as [->|];
      [rewrite lookup_insert_eq; by intros [= <-]|rewrite lookup_insert_ne by done; apply Ha].
  - intros f1 f2 l'. rewrite !lookup_insert. repeat case_decide; subst; try done.
    + intros [= <-] Hb. by apply Hu in Hb.
    + intros Hb [= <-]. by apply Hu in Hb.
    + apply Hi.
Qed.

Lemma clunk_wf fid ft : wf ft -> wf (snd (clunk fid ft)).
Proof.
  intros [Ha Hi]. unfold clunk. destruct (fids ft !! fid); [|done].
  split; cbn; intros *; rewrite !lookup_delete_Some;
    [intros [_ H]; by apply (Ha _ _ H)|].
  intros [_ H1] [_ H2]. by eapply Hi.
Qed.

Lemma clunk_unbound fid ft l ft' : wf ft -> clunk fid ft = (Some l, ft') -> unbound ft' l.
Proof.
  intros [_ Hi] E. unfold clunk in E. destruct (fids ft !! fid) as [l'|] eqn:El; [|done].
  injection E as -> <-. intros fid'. cbn. rewrite lookup_delete_Some. intros [Hne H].
  by apply Hne, (Hi fid fid' l).
Qed.

Lemma modify_wf l f ft : wf ft -> wf (modify l f ft).
Proof.
  intros [Ha Hi]. split; [|done]. intros fid l' H%Ha. cbn.
  destruct (decide (l = l')) as [->|]; [|by rewrite lookup_alter_ne].
  rewrite lookup_alter_eq. by apply fmap_is_Some.
Qed.
End FidTable.

Create HintDb fids.
#[export] Hint Resolve newFidTable_wf add_wf clunk_wf modify_wf : fids.

(** ** The table as a map

    What the table promises its users: a map from fids to states, on which an
    operation on one fid leaves every other fid alone.  The heap and the
    sharing of states are an implementation of that map. *)

Section Spec.
Context {Node Handle XattrWriter : Type}.
Abbreviation FS := (fidState Node Handle XattrWriter).
Abbreviation FT := (fidTable Node Handle XattrWriter).

Definition abs (ft : FT) : gmap Fid FS := omap (fun l => heap ft !! l) (fids ft).

Lemma lookup_abs ft fid : abs ft !! fid = fids ft !! fid ≫= fun l => heap ft !! l.
Proof. apply lookup_omap. Qed.

Lemma abs_bound ft fid l fs :
  fids ft !! fid = Some l -> heap ft !! l = Some fs -> abs ft !! fid = Some fs.
Proof. intros Hl Hfs. by rewrite lookup_abs, Hl. Qed.

Lemma abs_None ft fid : wf ft -> abs ft !! fid = None <-> fids ft !! fid = None.
Proof.
  intros [Ha _]. rewrite lookup_abs. destruct (fids ft !! fid) as [l|] eqn:E; [|done]. cbn.
  destruct (Ha fid l E) as [fs ->]. naive_solver.
Qed.

Lemma abs_new : abs newFidTable = ∅.
Proof. apply omap_empty. Qed.

Lemma abs_alloc fs ft l ft' : wf ft -> alloc fs ft = (l, ft') -> abs ft' = abs ft.
Proof.
  intros [Ha _] E. pose proof (alloc_fresh _ _ _ _ E) as Hf. injection E as El <-.
  apply map_eq. intros fid. rewrite !lookup_abs. cbn. destruct (fids ft !! fid) as [l'|] eqn:Ef; [|done].
  cbn. apply lookup_insert_ne. intros He. apply Ha in Ef. rewrite <- He, El, Hf in Ef. by destruct Ef.
Qed.

Lemma abs_add fid l fs ft :
  heap ft !! l = Some fs ->
  abs (mkFidTable (heap ft) (<[fid := l]> (fids ft))) = <[fid := fs]> (abs ft).
Proof.
  intros Hl. apply map_eq. intros fid'. rewrite lookup_abs. cbn. rewrite !lookup_insert.
  case_decide; [done|]. by rewrite lookup_abs.
Qed.

Lemma abs_delete fid ft :
  abs (mkFidTable (heap ft) (delete fid (fids ft))) = delete fid (abs ft).
Proof.
  apply map_eq. intros fid'. rewrite lookup_abs. cbn. rewrite !lookup_delete.
  case_decide; [done|]. by rewrite lookup_abs.
Qed.

Lemma abs_modify fid l f ft :
  wf ft -> fids ft !! fid = Some l -> abs (modify l f ft) = alter f fid (abs ft).
Proof.
  intros [_ Hi] Hl. apply map_eq. intros fid'. rewrite lookup_abs. cbn.
  destruct (decide (fid = fid')) as [<-|Hne].
  - by rewrite lookup_alter_eq, lookup_abs, Hl; cbn; rewrite lookup_alter_eq.
  - rewrite lookup_alter_ne, lookup_abs by done. destruct (fids ft !! fid') as [l'|] eqn:E; [|done].
    cbn. apply lookup_alter_ne. intros <-. by apply Hne, (Hi fid fid' l).
Qed.

Lemma size_abs ft : wf ft -> size (abs ft) = size (fids ft).
Proof.
  intros Hwf. rewrite <- !size_dom. f_equal. apply set_eq. intros fid.
  rewrite !elem_of_dom, <- !not_eq_None_Some. by rewrite abs_None.
Qed.

Lemma snd_map_to_list_abs ft :
  wf ft -> omap (fun l => heap ft !! l) (map_to_list (fids ft)).*2 ≡ₚ (map_to_list (abs ft)).*2.
Proof.
  destruct ft as [h m]. unfold abs. cbn [heap fids]. intros [Ha _]. cbn [heap fids] in Ha.
  induction m as [|fid l m Hn IH] using map_ind; [by rewrite omap_empty, !map_to_list_empty|].
  assert (exists fs, h !! l = Some fs) as [fs Hfs] by (apply (Ha fid); by rewrite lookup_insert_eq).
  rewrite map_to_list_insert by done. cbn. rewrite Hfs. rewrite (omap_insert_Some _ _ _ _ fs) by done.
  rewrite map_to_list_insert by (by rewrite lookup_omap, Hn). cbn. f_equiv. apply IH.
  intros fid' l' H. apply (Ha fid'). rewrite lookup_insert_ne; [done|]. by intros ->; rewrite Hn in H.
Qed.

(** *** Requests and answers *)

Inductive Op : Type :=
  | OpAdd (fid : Fid) (fs : FS) (maxFids : Z)
  | OpClunk (fid : Fid)
  | OpClunkAll
  | OpSetPath (fid : Fid) (p : string)
  | OpGetPath (fid : Fid)
  | OpUpdate (fid : Fid) (n : Node) (p : string)
  | OpMarkOpened (fid : Fid) (h : option Handle)
  | OpUpdateAndOpen (fid : Fid) (n : Node) (h : option Handle)
  | OpLen.

Inductive Ans : Type :=
  | AErr (r : result unit)
  | AState (fs : option FS)
  | AStates (l : list FS)
  | APath (p : string)
  | ANode (n : option Node)
  | ABool (b : bool)
  | ALen (n : Z).

(** The answers agree; [clunkAll] returns the states in the unspecified
    order of Go's map iteration. *)
Inductive same_ans : Ans -> Ans -> Prop :=
  | same_refl a : same_ans a a
  | same_perm l l' : l ≡ₚ l' -> same_ans (AStates l) (AStates l').

Definition run (op : Op) (ft : FT) : Ans * FT :=
  match op with
  | OpAdd fid fs maxFids =>
      let '(l, ft) := alloc fs ft in
      let '(r, ft) := add fid l maxFids ft in (AErr r, ft)
  | OpClunk fid =>
      let '(l, ft') := clunk fid ft in (AState (l ≫= fun l => heap ft' !! l), ft')
  | OpClunkAll =>
      let '(ls, ft') := clunkAll ft in (AStates (omap (fun l => heap ft' !! l) ls), ft')
  | OpSetPath fid p => (ABool true, setPath fid p ft)
  | OpGetPath fid => (APath (getPath fid ft), ft)
  | OpUpdate fid n p => let '(r, ft') := update fid n p ft in (ANode r, ft')
  | OpMarkOpened fid h => let '(b, ft') := markOpenedWithHandle fid h ft in (ABool b, ft')
  | OpUpdateAndOpen fid n h => let '(r, ft') := updateAndOpen fid n h ft in (ANode r, ft')
  | OpLen => (ALen (len ft), ft)
  end.

Definition spec (op : Op) (m : gmap Fid FS) : Ans * gmap Fid FS :=
  match op with
  | OpAdd fid fs maxFids =>
      if (0 <? maxFids) && (maxFids <=? Z.of_nat (size m)) then (AErr (Err ErrFidLimitExceeded), m)
      else match m !! fid with
           | Some _ => (AErr (Err (Wrapf "add fid %d: %w" [fid] ErrFidInUse)), m)
           | None => (AErr (Ok tt), <[fid := fs]> m)
           end
  | OpClunk fid => (AState (m !! fid), delete fid m)
  | OpClunkAll => (AStates (map_to_list m).*2, ∅)
  | OpSetPath fid p => (ABool true, alter (fun fs => set_node (node fs) p fs) fid m)
  | OpGetPath fid => (APath (default "" (path <$> m !! fid)), m)
  | OpUpdate fid n p => (ANode (node <$> m !! fid), alter (set_node n p) fid m)
  | OpMarkOpened fid h =>
      match m !! fid with
      | Some fs =>
          if decide (state fs = fidAllocated) then (ABool true, <[fid := set_open h fs]> m)
          else (ABool false, m)
      | None => (ABool false, m)
      end
  | OpUpdateAndOpen fid n h =>
      match m !! fid with
      | Some fs =>
          if decide (state fs = fidAllocated)
          then (ANode (Some (node fs)), <[fid := set_open h (set_node n (path fs) fs)]> m)
          else (ANode None, m)
      | None => (ANode None, m)
      end
  | OpLen => (ALen (Z.of_nat (size m)), m)
  end.

Lemma alter_insert (f : FS -> FS) fid fs (m : gmap Fid FS) :
  m !! fid = Some fs -> alter f fid m = <[fid := f fs]> m.
Proof.
  intros H. apply map_eq. intros i. rewrite lookup_insert. case_decide as E.
  - subst i. by rewrite lookup_alter_eq, H.
  - by rewrite lookup_alter_ne.
Qed.

Lemma alter_None (f : FS -> FS) fid (m : gmap Fid FS) : m !! fid = None -> alter f fid m = m.
Proof.
  intros H. apply map_eq. intros i. destruct (decide (fid = i)) as [<-|];
    [by rewrite lookup_alter_eq, H|by rewrite lookup_alter_ne].
Qed.

(** One request: the abstract answer is the concrete one, the abstraction of
    the new table is the new abstract map, and the invariant is kept. *)
Definition simulates (op : Op) (ft : FT) : Prop :=
  let '(a, ft') := run op ft in
  let '(a', m') := spec op (abs ft) in
  same_ans a a' /\ m' = abs ft' /\ wf ft'.

Ltac sim_done := split; [apply same_refl|split; [reflexivity|assumption]].

Lemma add_simulates fid fs maxFids ft : wf ft -> simulates (OpAdd fid fs maxFids) ft.
Proof.
  intros Hwf. unfold simulates, run, spec. destruct (alloc fs ft) as [l ft1] eqn:E.
  destruct (alloc_wf _ _ _ _ E Hwf) as [Hwf1 Hu]. rewrite <- (abs_alloc _ _ _ _ Hwf E).
  assert (heap ft1 !! l = Some fs) as Hl by (injection E as <- <-; cbn; by rewrite lookup_insert_eq).
  pose proof (add_wf fid l maxFids ft1 Hwf1 Hu (ex_intro _ fs Hl)) as Hwf2. unfold add in *.
  rewrite size_abs by done. destruct (_ && _); [sim_done|].
  destruct (fids ft1 !! fid) as [l'|] eqn:Ef.
  - destruct (wf_alloc _ Hwf1 _ _ Ef) as [fs' Hfs']. rewrite (abs_bound _ _ _ _ Ef Hfs').
    sim_done.
  - rewrite (proj2 (abs_None ft1 fid Hwf1)) by done. rewrite (abs_add _ _ _ _ Hl).
    sim_done.
Qed.

Lemma clunk_simulates fid ft : wf ft -> simulates (OpClunk fid) ft.
Proof.
  intros Hwf. unfold simulates, run, spec. pose proof (clunk_wf fid ft Hwf) as Hwf'.
  rewrite lookup_abs. unfold clunk in *. destruct (fids ft !! fid) as [l|] eqn:E; cbn -[abs] in *.
  - rewrite abs_delete. sim_done.
  - rewrite delete_id by (by apply abs_None). sim_done.
Qed.

Lemma clunkAll_simulates ft : wf ft -> simulates OpClunkAll ft.
Proof.
  intros Hwf. unfold simulates, run, spec, clunkAll. cbn. split.
  - apply same_perm. by apply snd_map_to_list_abs.
  - split; [unfold abs; cbn; by rewrite omap_empty|].
    split; intros *; cbn; by rewrite lookup_empty.
Qed.

(** An operation that rewrites the state of a bound fid. *)
Lemma modify_simulates fid l fs f ft :
  wf ft -> fids ft !! fid = Some l -> heap ft !! l = Some fs ->
  abs ft !! fid = Some fs /\ <[fid := f fs]> (abs ft) = abs (modify l f ft) /\
  alter f fid (abs ft) = abs (modify l f ft) /\ wf (modify l f ft).
Proof.
  intros Hwf Hl Hfs. pose proof (abs_bound _ _ _ _ Hl Hfs) as Ha. split; [done|].
  rewrite <- (alter_insert f _ _ _ Ha), <- (abs_modify _ _ _ _ Hwf Hl).
  split; [done|]. split; [done|]. by apply modify_wf.
Qed.

Lemma lookup_cases ft fid :
  wf ft ->
  (fids ft !! fid = None /\ abs ft !! fid = None) \/
  (exists l fs, fids ft !! fid = Some l /\ heap ft !! l = Some fs /\ abs ft !! fid = Some fs).
Proof.
  intros Hwf. destruct (fids ft !! fid) as [l|] eqn:E.
  - right. destruct (wf_alloc _ Hwf _ _ E) as [fs Hfs]. exists l, fs.
    split; [done|]. split; [done|]. by eapply abs_bound.
  - left. split; [done|]. by apply abs_None.
Qed.

Lemma rewrite_simulates op ft :
  wf ft ->
  match op with
  | OpSetPath _ _ | OpGetPath _ | OpUpdate _ _ _ | OpMarkOpened _ _ | OpUpdateAndOpen _ _ _ => True
  | _ => False
  end -> simulates op ft.
Proof.
  intros Hwf Hop. destruct op; try done; unfold simulates, run, spec, setPath, getPath, get, update,
    markOpenedWithHandle, updateAndOpen, currentPath;
    (destruct (lookup_cases ft fid Hwf) as [[E1 E2]|(l & fs & E1 & E2 & E3)];
     [rewrite E1, ?E2, ?alter_None by done; sim_done|rewrite E1, ?E2, ?E3]).
  - edestruct (modify_simulates fid l fs (fun fs => set_node (node fs) p fs)) as (_ & _ & Hm & Hw);
      [done..|]. rewrite Hm. sim_done.
  - sim_done.
  - edestruct (modify_simulates fid l fs (set_node n p)) as (_ & _ & Hm & Hw); [done..|].
    rewrite Hm. sim_done.
  - case_decide; [|sim_done].
    edestruct (modify_simulates fid l fs (set_open h)) as (_ & Hm & _ & Hw); [done..|].
    rewrite Hm. sim_done.
  - case_decide; [|sim_done].
    edestruct (modify_simulates fid l fs (fun fs => set_open h (set_node n (path fs) fs)))
      as (_ & Hm & _ & Hw); [done..|]. rewrite Hm. sim_done.
Qed.

Lemma run_simulates op ft : wf ft -> simulates op ft.
Proof.
  intros Hwf. destruct op; try by apply rewrite_simulates.
  - by apply add_simulates.
  - by apply clunk_simulates.
  - by apply clunkAll_simulates.
  - unfold simulates, run, spec, len. rewrite size_abs by done. sim_done.
Qed.

Fixpoint run_all (ops : list Op) (ft : FT) : list Ans * FT :=
  match ops with
  | [] => ([], ft)
  | op :: ops' =>
      let '(a, ft1) := run op ft in
      let '(l, ft2) := run_all ops' ft1 in (a :: l, ft2)
  end.

Fixpoint spec_all (ops : list Op) (m : gmap Fid FS) : list Ans * gmap Fid FS :=
  match ops with
  | [] => ([], m)
  | op :: ops' =>
      let '(a, m1) := spec op m in
      let '(l, m2) := spec_all ops' m1 in (a :: l, m2)
  end.

(** An abstract operation never takes the map over a positive cap its adds
    respect. *)
Lemma spec_limit op maxFids m a m' :
  0 < maxFids -> (forall fid fs mf, op = OpAdd fid fs mf -> mf = maxFids) ->
  spec op m = (a, m') -> Z.of_nat (size m) <= maxFids -> Z.of_nat (size m') <= maxFids.
Proof.
  intros Hmax Hop E Hm.
  assert (forall (f : FS -> FS) fid, size (alter f fid m) = size m) as Halter.
  { intros f fid. rewrite <- !size_dom. by rewrite dom_alter_L. }
  assert (forall fid fs fs', m !! fid = Some fs -> size (<[fid := fs']> m) = size m) as Hins.
  { intros fid fs fs' H. apply map_size_insert_Some. by eexists. }
  destruct op; cbn in E; repeat case_match; simplify_eq; rewrite ?Halter; try done;
    try (by erewrite Hins).
  - rewrite (Hop _ _ _ eq_refl) in *. rewrite map_size_insert_None by done.
    apply andb_false_iff in H as [H|H]; [apply Z.ltb_ge in H|apply Z.leb_gt in H]; lia.
  - rewrite map_size_delete. case_match; cbn; lia.
  - rewrite map_size_empty. lia.
Qed.

Lemma run_all_simulates ops ft :
  wf ft ->
  let '(l, ft') := run_all ops ft in
  let '(l', m') := spec_all ops (abs ft) in
  Forall2 same_ans l l' /\ m' = abs ft' /\ wf ft'.
Proof.
  revert ft; induction ops as [|op ops IH]; intros ft Hwf; cbn; [split; [constructor|by split]|].
  pose proof (run_simulates op ft Hwf) as Hs. unfold simulates in Hs.
  destruct (run op ft) as [a ft1], (spec op (abs ft)) as [a' m1]. destruct Hs as (Ha & -> & Hwf1).
  specialize (IH ft1 Hwf1). destruct (run_all ops ft1) as [l ft2], (spec_all ops (abs ft1)) as [l' m2].
  destruct IH as (Hl & -> & Hwf2). split; [by constructor|]. by split.
Qed.

Lemma spec_all_limit ops maxFids m l m' :
  0 < maxFids -> (forall fid fs mf, OpAdd fid fs mf ∈ ops -> mf = maxFids) ->
  spec_all ops m = (l, m') -> Z.of_nat (size m) <= maxFids -> Z.of_nat (size m') <= maxFids.
Proof.
  intros Hmax. revert m l m'; induction ops as [|op ops IH]; intros m l m' Hops E Hm; cbn in E.
  { by injection E as <- <-. }
  destruct (spec op m) as [a m1] eqn:E1, (spec_all ops m1) as [l2 m2] eqn:E2. injection E as <- <-.
  eapply IH; [|exact E2|].
  - intros fid fs mf Hin. apply (Hops fid fs mf). by right.
  - eapply spec_limit; [done| |exact E1|done]. intros fid fs mf ->. apply (Hops fid fs mf). by left.
Qed.
End Spec.

(** ** Properties *)

(** C2: Refinement.  Any sequence of fid-table operations on a new table
    answers exactly as the same operations on a map from fids to states do,
    and ends in the corresponding map: states are never shared between fids,
    an operation on one fid cannot change another, and the invariant
    holds throughout. *)
Theorem fid_table_refines_map {Node Handle XattrWriter} (ops : list (@Op Node Handle XattrWriter)) :
  let '(l, ft') := run_all ops newFidTable in
  let '(l', m') := spec_all ops ∅ in
  Forall2 same_ans l l' /\ m' = abs ft' /\ wf ft'.
Proof. exact (run_all_simulates ops newFidTable newFidTable_wf). Qed.

(** Fid limit.  With a positive cap, no sequence of operations that adds
    under that cap leaves more than [maxFids] fids in the table, and an
    add at the cap is refused without changing the table. *)
Theorem fid_limit {Node Handle XattrWriter} (ops : list (@Op Node Handle XattrWriter)) maxFids :
  0 < maxFids ->
  (forall fid fs mf, OpAdd fid fs mf ∈ ops -> mf = maxFids) ->
  let ft := snd (run_all ops newFidTable) in
  len ft <= maxFids /\
  (len ft = maxFids -> forall fid l, add fid l maxFids ft = (Err ErrFidLimitExceeded, ft)).
Proof.
  intros Hmax Hops ft. split.
  - pose proof (run_all_simulates ops newFidTable newFidTable_wf) as H. subst ft.
    destruct (run_all ops newFidTable) as [l ft]. cbn [snd].
    destruct (spec_all ops (abs newFidTable)) as [l' m'] eqn:E. destruct H as (_ & -> & Hwf).
    unfold len. rewrite <- size_abs by done.
    assert (Z.of_nat (size (abs (@newFidTable Node Handle XattrWriter))) <= maxFids) as H0
      by (rewrite abs_new, map_size_empty; lia).
    by eapply spec_all_limit.
  - intros Hlen fid l. unfold add, len in *. rewrite (proj2 (Z.ltb_lt _ _)), (proj2 (Z.leb_le _ _)) by lia.
    done.
Qed.

Example fid_limit_witness :
  let fs := newFidState (Node:=nat) (Handle:=nat) (XattrWriter:=nat) 7%nat "/" fidAllocated in
  let ops := [OpAdd 1 fs 2; OpAdd 2 fs 2; OpAdd 3 fs 2] in
  len (snd (run_all ops newFidTable)) <= 2 /\
  add 4 9%nat 2 (snd (run_all ops newFidTable)) =
    (Err ErrFidLimitExceeded, snd (run_all ops newFidTable)).
Proof.
  intros fs ops. destruct (fid_limit ops 2) as [H1 H2]; [lia| |].
  { intros fid fs' mf. subst ops. rewrite !elem_of_cons, elem_of_nil.
    intros [[= _ _ ->]|[[= _ _ ->]|[[= _ _ ->]|[]]]]; done. }
  split; [exact H1|]. apply H2. by vm_compute.
Defined.
