(* ===== verification/FidLife.v ===== *)
(** * Concurrent life of a fid's resources

    The handlers of one connection run on many goroutines.  This file
    interleaves the critical sections of [FidTable] the way the handlers of
    [server/bridge.go] and [server/dispatch.go] compose them (open, create,
    read/write/readdir/fsync/lock bracketed by [beginIO]/[endIO], clunk,
    remove, in-place walk, xattrcreate) as a step relation, and follows every
    [FileHandle] from the [Open] that returned it to its [Release].

    The theorems show that a handle is released at most once and never while
    an I/O call can still use it, that outside extended-attribute writes
    every handle is released once the connection is quiet, and how a
    [Txattrcreate] that races a [Tlopen] on the same fid leaks one. *)

From S2P Require Import Prelude Types Errno FidTable.

Section Life.
Context {Node Handle XattrWriter : Type}.
Abbreviation FS := (fidState Node Handle XattrWriter).
Abbreviation FT := (fidTable Node Handle XattrWriter).

(** How a goroutine came to own a fid it took from the table, and how far it
    is: [Checked] is a clunk that has seen no xattr write and will finish. *)
Inductive Teardown : Type := ByClunk | ByRemove | Checked.

(** The table and the goroutines between two critical sections.  [issued]
    and [released] record the calls of [Open]/[Create] and [Release]. *)
Record Sys : Type := mkSys {
  tab : FT;
  active : gmap Loc nat;
  opened : list Handle;
  clunkers : list (Loc * Teardown);
  pending : list (Loc * bool);
  xattring : list Loc;
  issued : list Handle;
  released : list Handle
}.

Definition init : Sys := mkSys newFidTable ∅ [] [] [] [] [] [].

(** Goroutines between [beginIO] and [endIO] on the state at [l]. *)
Definition act (s : Sys) (l : Loc) : nat := default 0%nat (active s !! l).

Definition releases (h : option Handle) : list Handle :=
  match h with Some h => [h] | None => [] end.

Inductive step : Sys -> Sys -> Prop :=
  (** [handleAttach], [handleWalk], [addXattrReadFid]: bind a new state. *)
  | step_bind s fid n p st maxFids l t1 t2 :
      st = fidAllocated \/ st = fidXattrRead ->
      alloc (newFidState n p st) (tab s) = (l, t1) ->
      add fid l maxFids t1 = (Ok tt, t2) ->
      step s (mkSys t2 (active s) (opened s) (clunkers s) (pending s) (xattring s)
                (issued s) (released s))
  (** [opener.Open] or [creator.Create] returns a handle of its own. *)
  | step_Open s h :
      h ∉ issued s ->
      step s (mkSys (tab s) (active s) (h :: opened s) (clunkers s) (pending s) (xattring s)
                (h :: issued s) (released s))
  (** The same with a nil handle, which is valid: nothing to release. *)
  | step_openNil s fid ok t :
      markOpenedWithHandle fid None (tab s) = (ok, t) ->
      step s (mkSys t (active s) (opened s) (clunkers s) (pending s) (xattring s) (issued s)
                (released s))
  | step_createNil s fid n prev t :
      updateAndOpen fid n None (tab s) = (prev, t) ->
      step s (mkSys t (active s) (opened s) (clunkers s) (pending s) (xattring s) (issued s)
                (released s))
  (** [openFid]: store the handle, or release it when the fid is gone. *)
  | step_markOpened s fid h rest ok t :
      opened s ≡ₚ h :: rest ->
      markOpenedWithHandle fid (Some h) (tab s) = (ok, t) ->
      step s (mkSys t (active s) rest (clunkers s) (pending s) (xattring s) (issued s)
                (if ok then released s else released s ++ [h]))
  (** [handleLcreate], [handleUCreate]. *)
  | step_updateAndOpen s fid n h rest prev t :
      opened s ≡ₚ h :: rest ->
      updateAndOpen fid n (Some h) (tab s) = (prev, t) ->
      step s (mkSys t (active s) rest (clunkers s) (pending s) (xattring s) (issued s)
                (match prev with Some _ => released s | None => released s ++ [h] end))
  (** [handleWalk] in place. *)
  | step_update s fid n p prev t :
      update fid n p (tab s) = (prev, t) ->
      step s (mkSys t (active s) (opened s) (clunkers s) (pending s) (xattring s) (issued s)
                (released s))
  (** The I/O handlers, on any state they hold a pointer to. *)
  | step_beginIO s l fs fs' :
      heap (tab s) !! l = Some fs -> beginIO fs = (true, fs') ->
      step s (mkSys (modify l (fun _ => fs') (tab s)) (<[l := S (act s l)]> (active s)) (opened s)
                (clunkers s) (pending s) (xattring s) (issued s) (released s))
  | step_endIO s l fs fs' r k :
      heap (tab s) !! l = Some fs -> act s l = S k -> endIO fs = (r, fs') ->
      step s (mkSys (modify l (fun _ => fs') (tab s)) (<[l := k]> (active s)) (opened s)
                (clunkers s) (match r with Some cn => (l, cn) :: pending s | None => pending s end)
                (xattring s) (issued s) (released s))
  (** [handleClunk] and [handleRemove] take the fid from the table... *)
  | step_clunk s fid l t how :
      clunk fid (tab s) = (Some l, t) ->
      step s (mkSys t (active s) (opened s) ((l, how) :: clunkers s) (pending s) (xattring s)
                (issued s) (released s))
  (** ...[handleClunk] looks at the state: an xattr write fid is committed in
      the same critical section... *)
  | step_checkClunk s l rest fs :
      clunkers s ≡ₚ (l, ByClunk) :: rest -> heap (tab s) !! l = Some fs ->
      state fs <> fidXattrWrite ->
      step s (mkSys (tab s) (active s) (opened s) ((l, Checked) :: rest) (pending s) (xattring s)
                (issued s) (released s))
  (** ...and any other fid is released in a second one, as every fid that is
      removed. *)
  | step_finishClunk s l how rest fs fs' cn r :
      clunkers s ≡ₚ (l, how) :: rest -> heap (tab s) !! l = Some fs ->
      how <> ByClunk -> finishClunk cn fs = (r, fs') ->
      step s (mkSys (modify l (fun _ => fs') (tab s)) (active s) (opened s) rest
                (match r with Some cn => (l, cn) :: pending s | None => pending s end)
                (xattring s) (issued s) (released s))
  | step_xattrClunk s l rest fs :
      clunkers s ≡ₚ (l, ByClunk) :: rest -> heap (tab s) !! l = Some fs ->
      state fs = fidXattrWrite ->
      step s (mkSys (modify l (set_closing true (closeNode fs)) (tab s)) (active s) (opened s) rest
                (pending s) (xattring s) (issued s) (released s))
  (** [releaseNow], after the critical section that decided on it. *)
  | step_releaseNow s l cn rest fs :
      pending s ≡ₚ (l, cn) :: rest -> heap (tab s) !! l = Some fs ->
      step s (mkSys (tab s) (active s) (opened s) (clunkers s) rest (xattring s) (issued s)
                (released s ++ releases (handle fs)))
  (** [handleXattrcreate]: the state check, and later the transition. *)
  | step_xattrCheck s fid l fs :
      get (tab s) fid = Some l -> heap (tab s) !! l = Some fs -> currentState fs = fidAllocated ->
      step s (mkSys (tab s) (active s) (opened s) (clunkers s) (pending s) (l :: xattring s)
                (issued s) (released s))
  | step_xattrCreate s l rest name sz flags w :
      xattring s ≡ₚ l :: rest ->
      step s (mkSys (modify l (set_xattrWrite name sz flags w) (tab s)) (active s) (opened s)
                (clunkers s) (pending s) rest (issued s) (released s)).

Definition reachable : Sys -> Prop := Reachable init step.

(** ** Invariant *)

Definition bound (t : FT) (l : Loc) : Prop := exists fid, fids t !! fid = Some l.

(** What holds of each allocated state. *)
Record loc_ok (s : Sys) (l : Loc) (fs : FS) : Prop := {
  lo_refs : ioRefs fs = Z.of_nat (act s l);
  lo_live : (bound (tab s) l \/ l ∈ (clunkers s).*1) <-> closing fs = false;
  lo_pending : l ∈ (pending s).*1 -> closing fs = true /\ act s l = 0%nat;
  lo_state : state fs = fidAllocated \/ state fs = fidXattrRead -> handle fs = None;
  lo_issued h : handle fs = Some h -> h ∈ issued s /\ h ∉ opened s;
  lo_safe h : handle fs = Some h -> h ∈ released s ->
    closing fs = true /\ act s l = 0%nat /\ l ∉ (pending s).*1;
  lo_done h : handle fs = Some h -> closing fs = true -> act s l = 0%nat -> l ∉ (pending s).*1 ->
    h ∈ released s \/ state fs = fidXattrWrite
}.

Record Inv (s : Sys) : Prop := {
  inv_wf : wf (tab s);
  inv_loc l fs : heap (tab s) !! l = Some fs -> loc_ok s l fs;
  inv_unborn l : heap (tab s) !! l = None ->
    act s l = 0%nat /\ (l ∉ (clunkers s).*1) /\ (l ∉ (pending s).*1);
  inv_clunkers : NoDup ((clunkers s).*1);
  inv_bound l : bound (tab s) l -> l ∉ (clunkers s).*1;
  inv_pending : NoDup ((pending s).*1);
  inv_opened : NoDup (opened s);
  inv_open_issued h : h ∈ opened s -> h ∈ issued s /\ h ∉ released s;
  inv_rel_issued h : h ∈ released s -> h ∈ issued s;
  inv_released : NoDup (released s);
  inv_inj l1 l2 fs1 fs2 h : heap (tab s) !! l1 = Some fs1 -> heap (tab s) !! l2 = Some fs2 ->
    handle fs1 = Some h -> handle fs2 = Some h -> l1 = l2
}.

Lemma fid_init_Inv : Inv init.
Proof.
  split; cbn; try constructor; intros; set_solver.
Qed.

(** *** Framing *)

Lemma modify_lookup l f (t : FT) l' fs' :
  heap (modify l f t) !! l' = Some fs' ->
  (l' = l /\ exists fs, heap t !! l = Some fs /\ fs' = f fs) \/ (l' <> l /\ heap t !! l' = Some fs').
Proof.
  cbn. destruct (decide (l = l')) as [<-|Hne].
  - rewrite lookup_alter_eq. intros (fs & H & ->)%fmap_Some. left. eauto.
  - rewrite lookup_alter_ne by done. auto.
Qed.

Lemma modify_lookup_None l f (t : FT) l' : heap (modify l f t) !! l' = None -> heap t !! l' = None.
Proof.
  cbn. destruct (decide (l = l')) as [<-|Hne]; [rewrite lookup_alter_eq|rewrite lookup_alter_ne by done];
    [apply fmap_None|done].
Qed.

(** A step that leaves a state and its bookkeeping alone. *)
Lemma loc_ok_frame s s' l fs :
  loc_ok s l fs -> act s' l = act s l -> (bound (tab s') l <-> bound (tab s) l) ->
  (l ∈ (clunkers s').*1 <-> l ∈ (clunkers s).*1) -> (l ∈ (pending s').*1 <-> l ∈ (pending s).*1) ->
  (forall h, h ∈ issued s -> h ∈ issued s') ->
  (forall h, handle fs = Some h -> h ∉ opened s -> h ∉ opened s') ->
  (forall h, handle fs = Some h -> h ∈ released s' <-> h ∈ released s) ->
  loc_ok s' l fs.
Proof.
  intros [H1 H2 H3 H4 H5 H6 H7] Ha Hb Hc Hp Hi Ho Hr. split.
  - by rewrite Ha.
  - by rewrite Hb, Hc.
  - by rewrite Hp, Ha.
  - exact H4.
  - intros h Hh. destruct (H5 h Hh). auto.
  - intros h Hh. rewrite Hr, Ha, Hp by done. exact (H6 h Hh).
  - intros h Hh. rewrite Hr, Ha, Hp by done. exact (H7 h Hh).
Qed.

Lemma fst_perm {A B} (l l' : list (A * B)) : l ≡ₚ l' -> l.*1 ≡ₚ l'.*1.
Proof. by intros ->. Qed.

(** *** Each step keeps the invariant *)

Lemma step_bind_Inv s fid n p st maxFids l t1 t2 :
  Inv s -> st = fidAllocated \/ st = fidXattrRead ->
  alloc (newFidState n p st) (tab s) = (l, t1) -> add fid l maxFids t1 = (Ok tt, t2) ->
  Inv (mkSys t2 (active s) (opened s) (clunkers s) (pending s) (xattring s) (issued s) (released s)).
Proof.
  intros HI Hst Ea Eadd. pose proof (inv_wf _ HI) as Hwf.
  destruct (alloc_wf _ _ _ _ Ea Hwf) as [Hwf1 Hu1]. pose proof (alloc_fresh _ _ _ _ Ea) as Hf.
  assert (heap t1 = <[l := newFidState n p st]> (heap (tab s)) /\ fids t1 = fids (tab s)) as [Hh1 Hf1]
    by (unfold alloc in Ea; by injection Ea as <- <-).
  assert (wf t2) as Hwf2.
  { pose proof (add_wf fid l maxFids t1 Hwf1 Hu1) as W. rewrite Eadd in W. apply W.
    rewrite Hh1, lookup_insert_eq. by eexists. }
  assert (t2 = mkFidTable (heap t1) (<[fid := l]> (fids t1)) /\ fids t1 !! fid = None) as [-> Hnone].
  { unfold add in Eadd. destruct (_ && _); [done|]. destruct (fids t1 !! fid); [done|].
    by injection Eadd as <-. }
  destruct (inv_unborn _ HI l Hf) as (Ua & Uc & Up).
  assert (forall l', bound (mkFidTable (heap t1) (<[fid := l]> (fids t1))) l' <->
                     l' = l \/ bound (tab s) l') as Hb.
  { intros l'. unfold bound. cbn. rewrite Hf1 in *. split.
    - intros [fid' H]. rewrite lookup_insert in H. case_decide; [left; congruence|right; eauto].
    - intros [->|[fid' H]]; [exists fid; apply lookup_insert_eq|].
      exists fid'. rewrite lookup_insert_ne; [done|]. by intros ->; rewrite Hnone in H. }
  split; cbn; try apply HI; [done|..].
  - intros l' fs' H. rewrite Hh1, lookup_insert in H. case_decide as E.
    + injection H as <-. subst l'. split; cbn; try done.
      * unfold act in *. cbn in *. by rewrite Ua.
      * split; [done|]. intros _. left. apply Hb. by left.
    + eapply loc_ok_frame; [by apply (inv_loc _ HI)|done|..|done|done|done|done|done].
      cbn [tab]. rewrite Hb. split; [by intros [->|?]|by right].
  - intros l'. rewrite Hh1, lookup_insert. case_decide; [done|]. apply (inv_unborn _ HI).
  - intros l' [->|H]%Hb; [done|]. by apply (inv_bound _ HI).
  - intros l1 l2 fs1 fs2 h. rewrite Hh1, !lookup_insert.
    repeat case_decide; intros H1 H2; try (injection H1 as <-; done); try (injection H2 as <-; done).
    by apply (inv_inj _ HI).
Qed.

Lemma step_Open_Inv s h :
  Inv s -> h ∉ issued s ->
  Inv (mkSys (tab s) (active s) (h :: opened s) (clunkers s) (pending s) (xattring s)
         (h :: issued s) (released s)).
Proof.
  intros HI Hn. split; cbn; try apply HI.
  - intros l fs H. pose proof (inv_loc _ HI l fs H) as L.
    eapply loc_ok_frame; [exact L|done|done|done|done|set_solver| |done].
    cbn. intros h' Hh Ho. rewrite not_elem_of_cons. split; [|done].
    intros ->. by destruct (lo_issued _ _ _ L h Hh).
  - constructor; [|apply HI]. intros Ho. by destruct (inv_open_issued _ HI h Ho).
  - intros h'. rewrite !elem_of_cons. intros [->|Ho].
    + split; [by left|]. intros Hr. by apply Hn, (inv_rel_issued _ HI).
    + destruct (inv_open_issued _ HI h' Ho). auto.
  - intros h' Hr. right. by apply (inv_rel_issued _ HI).
Qed.

Lemma modify_const l f fs (t : FT) :
  heap t !! l = Some fs -> modify l f t = modify l (fun _ => f fs) t.
Proof.
  intros H. unfold modify. f_equal. apply map_eq. intros i.
  destruct (decide (l = i)) as [<-|]; [by rewrite !lookup_alter_eq, H|by rewrite !lookup_alter_ne].
Qed.

Lemma modify_absent l f (t : FT) : heap t !! l = None -> modify l f t = t.
Proof.
  intros H. destruct t as [h m]. unfold modify. cbn in *. f_equal. apply map_eq. intros i.
  destruct (decide (l = i)) as [<-|]; [by rewrite lookup_alter_eq, H|by rewrite lookup_alter_ne].
Qed.

(** A rewrite of fields other than the I/O count, the flags and the handle. *)
Lemma rewrite_Inv s l fs fs' xs :
  Inv s -> heap (tab s) !! l = Some fs ->
  ioRefs fs' = ioRefs fs -> closing fs' = closing fs -> handle fs' = handle fs ->
  (state fs' = state fs \/ state fs' = fidXattrWrite \/ state fs' = fidOpened /\ state fs = fidAllocated) ->
  Inv (mkSys (modify l (fun _ => fs') (tab s)) (active s) (opened s) (clunkers s) (pending s) xs
         (issued s) (released s)).
Proof.
  intros HI Hl Hio Hcl Hh Hst. split; cbn [tab active opened clunkers pending issued released];
    try apply HI.
  - apply modify_wf, HI.
  - intros l' fs2 [[-> (fs1 & H1 & ->)]|[Hne H]]%modify_lookup.
    2: { eapply loc_ok_frame; [by apply (inv_loc _ HI)|done..]. }
    assert (fs1 = fs) as -> by congruence. destruct (inv_loc _ HI l fs Hl) as [L1 L2 L3 L4 L5 L6 L7].
    split; rewrite ?Hio, ?Hcl, ?Hh; try done.
    + intros [E|E]; apply L4; destruct Hst as [<-|[Hst|[Hst _]]]; auto; rewrite Hst in E; discriminate.
    + intros h E1 E2 E3 E4. destruct Hst as [->|[Hst|[_ Hst]]]; [by apply L7|by right|].
      rewrite L4 in E1; [done|by left].
  - intros l' H%modify_lookup_None. by apply (inv_unborn _ HI).
  - intros l1 l2 fs1 fs2 h [[-> (f1 & H1 & ->)]|[N1 H1]]%modify_lookup
      [[-> (f2 & H2 & ->)]|[N2 H2]]%modify_lookup; try done; rewrite ?Hh; by apply (inv_inj _ HI).
Qed.

(** A fid is opened without a handle. *)
Lemma openNil_Inv s fid l fs fs' :
  Inv s -> fids (tab s) !! fid = Some l -> heap (tab s) !! l = Some fs -> state fs = fidAllocated ->
  ioRefs fs' = ioRefs fs -> closing fs' = closing fs -> handle fs' = None -> state fs' = fidOpened ->
  Inv (mkSys (modify l (fun _ => fs') (tab s)) (active s) (opened s) (clunkers s) (pending s) (xattring s)
         (issued s) (released s)).
Proof.
  intros HI Hfid Hl Hst Hio Hcl Hh Hst'. eapply rewrite_Inv; try done; [|by auto].
  rewrite Hh. symmetry. apply (lo_state _ _ _ (inv_loc _ HI l fs Hl)). by left.
Qed.

Lemma markOpenedNil_Inv s fid ok t :
  Inv s -> markOpenedWithHandle fid None (tab s) = (ok, t) ->
  Inv (mkSys t (active s) (opened s) (clunkers s) (pending s) (xattring s) (issued s) (released s)).
Proof.
  intros HI E. destruct s as [tb ac op cl pe xa iss rel]. cbn in *. unfold markOpenedWithHandle in E.
  destruct (fids tb !! fid) as [l|] eqn:Ef; [|by injection E as <- <-].
  destruct (heap tb !! l) as [fs|] eqn:El; [|by injection E as <- <-].
  case_decide; injection E as <- <-; [|done]. rewrite (modify_const _ _ fs) by done.
  by eapply (openNil_Inv (mkSys tb ac op cl pe xa iss rel)).
Qed.

Lemma updateNil_Inv s fid n prev t :
  Inv s -> updateAndOpen fid n None (tab s) = (prev, t) ->
  Inv (mkSys t (active s) (opened s) (clunkers s) (pending s) (xattring s) (issued s) (released s)).
Proof.
  intros HI E. destruct s as [tb ac op cl pe xa iss rel]. cbn in *. unfold updateAndOpen in E.
  destruct (fids tb !! fid) as [l|] eqn:Ef; [|by injection E as <- <-].
  destruct (heap tb !! l) as [fs|] eqn:El; [|by injection E as <- <-].
  case_decide; injection E as <- <-; [|done]. rewrite (modify_const _ _ fs) by done.
  by eapply (openNil_Inv (mkSys tb ac op cl pe xa iss rel)).
Qed.

(** The handle a goroutine holds moves into the state of a bound fid. *)
Lemma open_Inv s fid l fs fs' h rest :
  Inv s -> fids (tab s) !! fid = Some l -> heap (tab s) !! l = Some fs -> state fs = fidAllocated ->
  ioRefs fs' = ioRefs fs -> closing fs' = closing fs -> handle fs' = Some h ->
  state fs' = fidOpened -> opened s ≡ₚ h :: rest ->
  Inv (mkSys (modify l (fun _ => fs') (tab s)) (active s) rest (clunkers s) (pending s) (xattring s)
         (issued s) (released s)).
Proof.
  intros HI Hfid Hl Hst Hio Hcl Hh Hst' Hop.
  assert (NoDup (h :: rest)) as Hnd by (rewrite <- Hop; apply HI).
  apply NoDup_cons in Hnd as [Hh1 Hnd].
  destruct (inv_open_issued _ HI h) as [Hiss Hrel]; [rewrite Hop; by left|].
  destruct (inv_loc _ HI l fs Hl) as [L1 L2 L3 L4 L5 L6 L7].
  assert (closing fs = false) as Hc by (apply L2; left; by exists fid).
  split; cbn [tab active opened clunkers pending issued released]; try apply HI; try done.
  - apply modify_wf, HI.
  - intros l' fs2 [[-> (fs1 & H1 & ->)]|[Hne H]]%modify_lookup.
    + split; rewrite ?Hio, ?Hcl, ?Hh, ?Hst'; try done; [by intros [?|?]|..].
      * by intros h' [= <-].
      * by intros h' [= <-] ?.
      * intros h' _. by rewrite Hc.
    + eapply loc_ok_frame; [by apply (inv_loc _ HI)|done..| |done].
      cbn. intros h' _ Ho. rewrite Hop in Ho. by apply not_elem_of_cons in Ho as [_ ?].
  - intros l' H%modify_lookup_None. by apply (inv_unborn _ HI).
  - intros h' H. apply (inv_open_issued _ HI). rewrite Hop. by right.
  - assert (forall l' fs', heap (tab s) !! l' = Some fs' -> handle fs' = Some h -> False) as Hno.
    { intros l' f' H1 H2. destruct (lo_issued _ _ _ (inv_loc _ HI l' f' H1) h H2) as [_ H3].
      apply H3. rewrite Hop. by left. }
    intros l1 l2 fs1 fs2 h' [[-> (f1 & H1 & ->)]|[N1 H1]]%modify_lookup
      [[-> (f2 & H2 & ->)]|[N2 H2]]%modify_lookup; try done; rewrite ?Hh.
    + intros [= <-] H. by destruct (Hno _ _ H2 H).
    + intros H [= <-]. by destruct (Hno _ _ H1 H).
    + by apply (inv_inj _ HI).
Qed.

(** The handle of a lost race is released by the goroutine that holds it. *)
Lemma drop_Inv s h rest :
  Inv s -> opened s ≡ₚ h :: rest ->
  Inv (mkSys (tab s) (active s) rest (clunkers s) (pending s) (xattring s) (issued s)
         (released s ++ [h])).
Proof.
  intros HI Hop. assert (NoDup (h :: rest)) as Hnd by (rewrite <- Hop; apply HI).
  apply NoDup_cons in Hnd as [Hh1 Hnd].
  destruct (inv_open_issued _ HI h) as [Hiss Hrel]; [rewrite Hop; by left|].
  split; cbn [tab active opened clunkers pending issued released]; try apply HI; try done.
  - intros l fs H. pose proof (inv_loc _ HI l fs H) as L.
    eapply loc_ok_frame; [exact L|done..| |]; cbn; intros h' Hh'.
    + rewrite Hop. set_solver.
    + destruct (lo_issued _ _ _ L h' Hh') as [_ Ho]. rewrite Hop in Ho.
      apply not_elem_of_cons in Ho as [Hne _]. rewrite elem_of_app, list_elem_of_singleton.
      split; [by intros [?|?]|by left].
  - intros h' H. destruct (inv_open_issued _ HI h') as [H1 H2]; [rewrite Hop; by right|].
    split; [done|]. rewrite elem_of_app, list_elem_of_singleton. intros [?| ->]; done.
  - intros h'. rewrite elem_of_app, list_elem_of_singleton. intros [H| ->]; [|done].
    by apply (inv_rel_issued _ HI).
  - apply NoDup_app. split; [apply HI|]. split; [|apply NoDup_singleton].
    intros h' H. rewrite list_elem_of_singleton. by intros ->.
Qed.

Lemma act_insert s t l k op cl pe xa iss rel l' :
  act (mkSys t (<[l := k]> (active s)) op cl pe xa iss rel) l' = if decide (l = l') then k else act s l'.
Proof. unfold act. cbn. rewrite lookup_insert. by case_decide. Qed.

(** What one location's critical section may do to the bookkeeping: the
    state at [l] is replaced, the count of [l], the presence of [l] among
    the clunkers and among the pending releases may change, nothing else. *)
Lemma local_Inv s l fs fs' ac cl pe :
  Inv s -> heap (tab s) !! l = Some fs ->
  handle fs' = handle fs -> state fs' = state fs ->
  let s' := mkSys (modify l (fun _ => fs') (tab s)) ac (opened s) cl pe (xattring s) (issued s)
              (released s) in
  (forall l', l' <> l -> act s' l' = act s l') ->
  (forall l', l' <> l -> l' ∈ cl.*1 <-> l' ∈ (clunkers s).*1) ->
  (forall l', l' <> l -> l' ∈ pe.*1 <-> l' ∈ (pending s).*1) ->
  NoDup (cl.*1) -> NoDup (pe.*1) -> (bound (tab s) l -> l ∉ cl.*1) ->
  loc_ok s' l fs' -> Inv s'.
Proof.
  intros HI Hl Hh Hst s' Ha Hc Hp Hnc Hnp Hb Hok.
  split; cbn [tab opened clunkers pending issued released s']; try apply HI; try done.
  - apply modify_wf, HI.
  - intros l' fs2 [[-> (fs1 & H1 & ->)]|[Hne H]]%modify_lookup; [done|].
    eapply loc_ok_frame; [by apply (inv_loc _ HI)|by apply Ha|done|by apply Hc|by apply Hp|done..].
  - intros l' H%modify_lookup_None. assert (l' <> l) as Hne by (intros ->; congruence).
    rewrite Ha, Hc, Hp by done. by apply (inv_unborn _ HI).
  - intros l' H. destruct (decide (l' = l)) as [->|Hne]; [by apply Hb|].
    rewrite Hc by done. by apply (inv_bound _ HI).
  - intros l1 l2 fs1 fs2 h [[-> (f1 & H1 & ->)]|[N1 H1]]%modify_lookup
      [[-> (f2 & H2 & ->)]|[N2 H2]]%modify_lookup; try done; rewrite ?Hh; by apply (inv_inj _ HI).
Qed.

Lemma step_beginIO_Inv s l fs fs' :
  Inv s -> heap (tab s) !! l = Some fs -> beginIO fs = (true, fs') ->
  Inv (mkSys (modify l (fun _ => fs') (tab s)) (<[l := S (act s l)]> (active s)) (opened s)
         (clunkers s) (pending s) (xattring s) (issued s) (released s)).
Proof.
  intros HI Hl E. unfold beginIO in E. destruct (closing fs) eqn:Hc; [done|]. injection E as <-.
  destruct (inv_loc _ HI l fs Hl) as [L1 L2 L3 L4 L5 L6 L7].
  eapply local_Inv; try done; try apply HI.
  - intros l' Hne. rewrite act_insert. by case_decide.
  - split; cbn [ioRefs closing handle state set_io]; try done.
    + rewrite act_insert, decide_True by done. lia.
    + intros Hp. destruct (L3 Hp) as [H _]. congruence.
    + intros h Hh Hr. destruct (L6 h Hh Hr) as [H _]. congruence.
    + intros h Hh Hcl. congruence.
Qed.

Lemma step_endIO_Inv s l fs fs' r k :
  Inv s -> heap (tab s) !! l = Some fs -> act s l = S k -> endIO fs = (r, fs') ->
  Inv (mkSys (modify l (fun _ => fs') (tab s)) (<[l := k]> (active s)) (opened s) (clunkers s)
         (match r with Some cn => (l, cn) :: pending s | None => pending s end) (xattring s)
         (issued s) (released s)).
Proof.
  intros HI Hl Hk E. destruct (inv_loc _ HI l fs Hl) as [L1 L2 L3 L4 L5 L6 L7].
  assert (l ∉ (pending s).*1) as Hnp by (intros Hp; destruct (L3 Hp); lia).
  unfold endIO in E. cbn [ioRefs closing closeNode set_io] in E.
  set (rel := closing fs && (ioRefs fs - 1 =? 0)) in E. injection E as <- <-.
  assert (rel = true <-> closing fs = true /\ k = 0%nat) as Hrel.
  { unfold rel. rewrite andb_true_iff, Z.eqb_eq, L1, Hk. split; intros []; split; auto; lia. }
  eapply local_Inv; try done; try apply HI.
  - intros l' Hne. rewrite act_insert. by case_decide.
  - intros l' Hne. destruct rel; cbn; [rewrite elem_of_cons|]; [|done].
    split; [by intros [?|?]|by right].
  - destruct rel; [|apply HI]. cbn. constructor; [done|apply HI].
  - split; cbn [ioRefs closing handle state set_io pending released]; try done.
    + rewrite act_insert, decide_True by done. lia.
    + rewrite act_insert, decide_True by done. destruct rel; [tauto|done].
    + intros h Hh Hr. destruct (L6 h Hh Hr) as (_ & H & _). lia.
    + intros h Hh Hcl. rewrite act_insert, decide_True by done. intros -> Hp. exfalso.
      rewrite (proj2 Hrel) in Hp by done. apply Hp. cbn. by left.
Qed.

Lemma step_finish_Inv s l how rest fs fs' cn r :
  Inv s -> clunkers s ≡ₚ (l, how) :: rest -> heap (tab s) !! l = Some fs ->
  finishClunk cn fs = (r, fs') ->
  Inv (mkSys (modify l (fun _ => fs') (tab s)) (active s) (opened s) rest
         (match r with Some cn => (l, cn) :: pending s | None => pending s end) (xattring s)
         (issued s) (released s)).
Proof.
  intros HI Hcl Hl E. destruct (inv_loc _ HI l fs Hl) as [L1 L2 L3 L4 L5 L6 L7].
  pose proof (fst_perm _ _ Hcl) as Hcl1. cbn in Hcl1.
  assert (NoDup (l :: rest.*1)) as [Hn1 Hn2]%NoDup_cons by (rewrite <- Hcl1; apply HI).
  assert (closing fs = false) as Hc by (apply L2; right; rewrite Hcl1; by left).
  assert (l ∉ (pending s).*1) as Hnp by (intros Hp; destruct (L3 Hp); congruence).
  assert (~ bound (tab s) l) as Hnb.
  { intros Hb. apply (inv_bound _ HI l Hb). rewrite Hcl1. by left. }
  unfold finishClunk in E. cbn [ioRefs set_closing] in E. injection E as <- <-.
  set (rel := ioRefs fs =? 0).
  assert (rel = true <-> act s l = 0%nat) as Hrel by (unfold rel; rewrite Z.eqb_eq, L1; lia).
  eapply local_Inv; try done; try apply HI.
  - intros l' Hne. rewrite Hcl1, elem_of_cons. split; [by right|by intros [?|?]].
  - intros l' Hne. destruct rel; cbn; [rewrite elem_of_cons|]; [|done].
    split; [by intros [?|?]|by right].
  - destruct rel; [|apply HI]. cbn. constructor; [done|apply HI].
  - split; cbn [ioRefs closing handle state set_closing pending released clunkers tab]; try done.
    + split; [by intros [?|?]|done].
    + destruct rel; [tauto|done].
    + intros h Hh Hr. destruct (L6 h Hh Hr) as (H & _). congruence.
    + intros h Hh _ H0 Hp. exfalso. change (act s l = 0%nat) in H0.
      rewrite (proj2 Hrel) in Hp by done. apply Hp. cbn. by left.
Qed.

Lemma step_xattrClunk_Inv s l rest fs :
  Inv s -> clunkers s ≡ₚ (l, ByClunk) :: rest -> heap (tab s) !! l = Some fs ->
  state fs = fidXattrWrite ->
  Inv (mkSys (modify l (set_closing true (closeNode fs)) (tab s)) (active s) (opened s) rest
         (pending s) (xattring s) (issued s) (released s)).
Proof.
  intros HI Hcl Hl Hst. destruct (inv_loc _ HI l fs Hl) as [L1 L2 L3 L4 L5 L6 L7].
  pose proof (fst_perm _ _ Hcl) as Hcl1. cbn in Hcl1.
  assert (NoDup (l :: rest.*1)) as [Hn1 Hn2]%NoDup_cons by (rewrite <- Hcl1; apply HI).
  assert (closing fs = false) as Hc by (apply L2; right; rewrite Hcl1; by left).
  assert (~ bound (tab s) l) as Hnb.
  { intros Hb. apply (inv_bound _ HI l Hb). rewrite Hcl1. by left. }
  rewrite (modify_const _ _ fs) by done. eapply local_Inv; try done; try apply HI.
  - intros l' Hne. rewrite Hcl1, elem_of_cons. split; [by right|by intros [?|?]].
  - split; cbn [ioRefs closing handle state set_closing pending released clunkers tab]; try done.
    + split; [by intros [?|?]|done].
    + intros Hp. destruct (L3 Hp). congruence.
    + intros h Hh Hr. destruct (L6 h Hh Hr) as (H & _). congruence.
    + by right.
Qed.

(** The check leaves the goroutine with its fid. *)
Lemma checkClunk_Inv s l rest :
  Inv s -> clunkers s ≡ₚ (l, ByClunk) :: rest ->
  Inv (mkSys (tab s) (active s) (opened s) ((l, Checked) :: rest) (pending s) (xattring s) (issued s)
         (released s)).
Proof.
  intros HI Hcl. pose proof (fst_perm _ _ Hcl) as Hcl1. cbn in Hcl1.
  split; cbn [tab active opened clunkers pending issued released fmap list_fmap fst]; try apply HI.
  - intros l' fs' H. eapply loc_ok_frame; [by apply (inv_loc _ HI)|done|done| |done..].
    cbn [clunkers fmap list_fmap fst]. by rewrite Hcl1.
  - intros l' H. destruct (inv_unborn _ HI l' H) as (Ha & Hc & Hp). split; [done|]. split; [|done].
    cbn [clunkers fmap list_fmap fst]. by rewrite <- Hcl1.
  - change (NoDup (l :: rest.*1)). rewrite <- Hcl1. apply HI.
  - intros l' H. change (l' ∉ l :: rest.*1). rewrite <- Hcl1. by apply (inv_bound _ HI).
Qed.

Lemma step_clunk_Inv s fid l t how :
  Inv s -> clunk fid (tab s) = (Some l, t) ->
  Inv (mkSys t (active s) (opened s) ((l, how) :: clunkers s) (pending s) (xattring s) (issued s)
         (released s)).
Proof.
  intros HI E. pose proof (clunk_wf fid (tab s) (inv_wf _ HI)) as Hwf. rewrite E in Hwf.
  pose proof (clunk_unbound _ _ _ _ (inv_wf _ HI) E) as Hu.
  unfold clunk in E. destruct (fids (tab s) !! fid) as [l'|] eqn:Ef; [|done]. injection E as -> <-.
  assert (bound (tab s) l) as Hb by by exists fid.
  assert (forall l', l' <> l ->
    bound (mkFidTable (heap (tab s)) (delete fid (fids (tab s)))) l' <-> bound (tab s) l') as Hbb.
  { intros l' Hne. unfold bound. cbn. split; intros [fid' H]; exists fid'.
    - by apply lookup_delete_Some in H as [_ H].
    - apply lookup_delete_Some. split; [|done]. intros ->. congruence. }
  split; cbn [tab active opened clunkers pending issued released heap]; try apply HI; try done.
  - intros l' fs H. pose proof (inv_loc _ HI l' fs H) as L.
    destruct (decide (l' = l)) as [->|Hne].
    + destruct L as [L1 L2 L3 L4 L5 L6 L7]. split; try done. cbn. split; [|by right; left].
      intros _. apply L2. by left.
    + eapply loc_ok_frame; [exact L|done|by apply Hbb| |done..]. cbn. rewrite elem_of_cons.
      split; [by intros [?|?]|by right].
  - intros l' H. destruct (inv_unborn _ HI l' H) as (Ha & Hc & Hp). split; [done|]. split; [|done].
    cbn. rewrite not_elem_of_cons. split; [|done]. intros ->.
    destruct (wf_alloc _ (inv_wf _ HI) _ _ Ef) as [fs Hfs]. congruence.
  - cbn. constructor; [by apply (inv_bound _ HI)|apply HI].
  - intros l' Hb'. cbn. rewrite not_elem_of_cons. split.
    + intros ->. destruct Hb' as [fid' H]. by apply (Hu fid').
    + assert (l' <> l) as Hne by (intros ->; destruct Hb' as [fid' H]; by apply (Hu fid')).
      apply (inv_bound _ HI). by apply Hbb.
Qed.

Lemma step_release_Inv s l cn rest fs :
  Inv s -> pending s ≡ₚ (l, cn) :: rest -> heap (tab s) !! l = Some fs ->
  Inv (mkSys (tab s) (active s) (opened s) (clunkers s) rest (xattring s) (issued s)
         (released s ++ releases (handle fs))).
Proof.
  intros HI Hp Hl. pose proof (fst_perm _ _ Hp) as Hp1. cbn in Hp1.
  assert (NoDup (l :: rest.*1)) as [Hn1 Hn2]%NoDup_cons by (rewrite <- Hp1; apply HI).
  assert (l ∈ (pending s).*1) as Hin by (rewrite Hp1; by left).
  destruct (inv_loc _ HI l fs Hl) as [L1 L2 L3 L4 L5 L6 L7]. destruct (L3 Hin) as [Hc Ha].
  assert (forall h, h ∈ releases (handle fs) <-> handle fs = Some h) as Hrel.
  { intros h. unfold releases. destruct (handle fs) as [h'|].
    - rewrite list_elem_of_singleton. split; [by intros ->|by intros [= ->]].
    - by rewrite elem_of_nil. }
  assert (forall h, handle fs = Some h -> h ∉ released s) as Hnr
    by (intros h Hh Hr; by destruct (L6 h Hh Hr) as (_ & _ & ?)).
  split; cbn [tab active opened clunkers pending issued released]; try apply HI; try done.
  - intros l' fs' H. destruct (decide (l' = l)) as [->|Hne].
    + assert (fs' = fs) as -> by congruence. split; try done; cbn [pending released].
      intros h Hh _ _ _. left. rewrite elem_of_app, Hrel. by right.
    + eapply loc_ok_frame; [by apply (inv_loc _ HI)|done|done|done| |done|done|].
      * cbn. rewrite Hp1, elem_of_cons. split; [by right|by intros [?|?]].
      * cbn. intros h Hh. rewrite elem_of_app, Hrel. split; [|by left]. intros [?|Hh']; [done|].
        exfalso. by apply Hne, (inv_inj _ HI l' l fs' fs h).
  - intros l' H. destruct (inv_unborn _ HI l' H) as (Ha' & Hc' & Hp'). split; [done|].
    split; [done|]. rewrite Hp1 in Hp'. by apply not_elem_of_cons in Hp' as [_ ?].
  - intros h Ho. destruct (inv_open_issued _ HI h Ho) as [H1 H2]. split; [done|].
    rewrite elem_of_app, Hrel. intros [?|Hh]; [done|]. by destruct (L5 h Hh).
  - intros h. rewrite elem_of_app, Hrel. intros [H|Hh]; [by apply (inv_rel_issued _ HI)|].
    by destruct (L5 h Hh).
  - apply NoDup_app. split; [apply HI|]. split.
    + intros h Hr Hh. apply Hrel in Hh. by apply (Hnr h).
    + unfold releases. destruct (handle fs); [apply NoDup_singleton|constructor].
Qed.

Lemma xattring_Inv s xs :
  Inv s ->
  Inv (mkSys (tab s) (active s) (opened s) (clunkers s) (pending s) xs (issued s) (released s)).
Proof.
  intros HI. split; try apply HI. intros l fs H.
  eapply loc_ok_frame; [by apply (inv_loc _ HI)|done..].
Qed.

Lemma fid_step_Inv s s' : Inv s -> step s s' -> Inv s'.
Proof.
  intros HI Hs. destruct Hs as [s fid n p st mf l t1 t2 Hst Ea Eadd|s h Hn|s fid ok t E|s fid n prev t E|s fid h rest ok t Hop E
    |s fid n h rest prev t Hop E|s fid n p prev t E|s l fs fs' Hl E|s l fs fs' r k Hl Hk E
    |s fid l t how E|s l rest fs Hcl Hl Hst|s l how rest fs fs' cn r Hcl Hl Hst E|s l rest fs Hcl Hl Hst
    |s l cn rest fs Hp Hl|s fid l fs Hg Hl Hst|s l rest name sz flags w Hx].
  - by eapply step_bind_Inv.
  - by apply step_Open_Inv.
  - by eapply markOpenedNil_Inv.
  - by eapply updateNil_Inv.
  - unfold markOpenedWithHandle in E.
    destruct (fids (tab s) !! fid) as [l|] eqn:Ef; [|injection E as <- <-; by apply drop_Inv].
    destruct (heap (tab s) !! l) as [fs|] eqn:El; [|injection E as <- <-; by apply drop_Inv].
    case_decide; injection E as <- <-; [|by apply drop_Inv].
    rewrite (modify_const _ _ fs) by done. by eapply open_Inv.
  - unfold updateAndOpen in E.
    destruct (fids (tab s) !! fid) as [l|] eqn:Ef; [|injection E as <- <-; by apply drop_Inv].
    destruct (heap (tab s) !! l) as [fs|] eqn:El; [|injection E as <- <-; by apply drop_Inv].
    case_decide; injection E as <- <-; [|by apply drop_Inv].
    rewrite (modify_const _ _ fs) by done. by eapply open_Inv.
  - destruct s as [tb ac op cl pe xa iss rel]. cbn in *. unfold update in E.
    destruct (fids tb !! fid) as [l|] eqn:Ef; [|by injection E as <- <-].
    destruct (heap tb !! l) as [fs|] eqn:El; injection E as <- <-; [|done].
    rewrite (modify_const _ _ fs) by done.
    eapply (rewrite_Inv (mkSys tb ac op cl pe xa iss rel)); try done. by left.
  - by eapply step_beginIO_Inv.
  - by eapply step_endIO_Inv.
  - by eapply step_clunk_Inv.
  - by eapply checkClunk_Inv.
  - by eapply step_finish_Inv.
  - by eapply step_xattrClunk_Inv.
  - by eapply step_release_Inv.
  - by apply xattring_Inv.
  - destruct (heap (tab s) !! l) as [fs|] eqn:El.
    + rewrite (modify_const _ _ fs) by done. eapply rewrite_Inv; try done. by right; left.
    + rewrite modify_absent by done. by apply xattring_Inv.
Qed.

Lemma fid_reachable_Inv s : reachable s -> Inv s.
Proof. apply Reachable_invariant; [apply fid_init_Inv|]. intros s1 s2 _. apply fid_step_Inv. Qed.

(** *** Where a handle is *)

Definition stored (t : FT) (h : Handle) : Prop :=
  exists l fs, heap t !! l = Some fs /\ handle fs = Some h.

Definition Located (s : Sys) : Prop := forall h,
  h ∈ issued s -> h ∈ opened s \/ h ∈ released s \/ stored (tab s) h.

Lemma stored_modify l fs fs' t h :
  heap t !! l = Some fs -> (forall h, handle fs = Some h -> handle fs' = Some h) ->
  stored t h -> stored (modify l (fun _ => fs') t) h.
Proof.
  intros Hl Hh (l' & f & H1 & H2). destruct (decide (l = l')) as [<-|Hne].
  - exists l, fs'. cbn. rewrite lookup_alter_eq, Hl. split; [done|]. apply Hh. congruence.
  - exists l', f. cbn. by rewrite lookup_alter_ne.
Qed.

Lemma stored_new l fs fs' t h :
  heap t !! l = Some fs -> handle fs' = Some h -> stored (modify l (fun _ => fs') t) h.
Proof. intros Hl Hh. exists l, fs'. cbn. by rewrite lookup_alter_eq, Hl. Qed.

(** The hand-over of an opened handle: stored when the fid took it, released
    by the opener otherwise. *)
Lemma Located_take s h rest t (rel : list Handle) :
  Located s -> opened s ≡ₚ h :: rest -> (forall h', stored (tab s) h' -> stored t h') ->
  (forall h', h' ∈ released s -> h' ∈ rel) -> stored t h \/ h ∈ rel ->
  forall h', h' ∈ issued s -> h' ∈ rest \/ h' ∈ rel \/ stored t h'.
Proof.
  intros HL Hop Ht Hr Hh h' Hi. destruct (HL h' Hi) as [Ho|[H|H]]; [|by auto..].
  rewrite Hop in Ho. apply elem_of_cons in Ho as [->|Ho]; [tauto|by left].
Qed.

Lemma allocated_stored s l fs fs' :
  Inv s -> Located s -> heap (tab s) !! l = Some fs -> state fs = fidAllocated ->
  forall h, h ∈ issued s -> h ∈ opened s \/ h ∈ released s \/ stored (modify l (fun _ => fs') (tab s)) h.
Proof.
  intros HI HL Hl Hst h Hi. destruct (HL h Hi) as [?|[?|?]]; [by auto..|]. right. right.
  eapply stored_modify; [done| |done]. intros h2 H2. exfalso.
  rewrite (lo_state _ _ _ (inv_loc _ HI _ _ Hl)) in H2 by (by left). done.
Qed.

Lemma markOpenedNil_stored s fid ok t :
  Inv s -> Located s -> markOpenedWithHandle fid None (tab s) = (ok, t) ->
  forall h, h ∈ issued s -> h ∈ opened s \/ h ∈ released s \/ stored t h.
Proof.
  intros HI HL E. unfold markOpenedWithHandle in E. repeat case_match; simplify_eq; try exact HL.
  rewrite (modify_const _ _ f) by done. by eapply allocated_stored.
Qed.

Lemma updateNil_stored s fid n prev t :
  Inv s -> Located s -> updateAndOpen fid n None (tab s) = (prev, t) ->
  forall h, h ∈ issued s -> h ∈ opened s \/ h ∈ released s \/ stored t h.
Proof.
  intros HI HL E. unfold updateAndOpen in E. repeat case_match; simplify_eq; try exact HL.
  rewrite (modify_const _ _ f) by done. by eapply allocated_stored.
Qed.

Lemma step_Located s s' : Inv s -> Located s -> step s s' -> Located s'.
Proof.
  intros HI HL Hs. destruct Hs as [s fid n p st mf l t1 t2 Hst Ea Eadd|s h Hn|s fid ok t E|s fid n prev t E|s fid h rest ok t Hop E
    |s fid n h rest prev t Hop E|s fid n p prev t E|s l fs fs' Hl E|s l fs fs' r k Hl Hk E
    |s fid l t how E|s l rest fs Hcl Hl Hst|s l how rest fs fs' cn r Hcl Hl Hst E|s l rest fs Hcl Hl Hst
    |s l cn rest fs Hp Hl|s fid l fs Hg Hl Hst|s l rest name sz flags w Hx];
    unfold Located; cbn [tab opened issued released]; try exact HL.
  - intros h Hi. destruct (HL h Hi) as [?|[?|(l' & fs & H1 & H2)]]; [by auto..|].
    right. right. exists l', fs. split; [|done]. pose proof (alloc_fresh _ _ _ _ Ea) as Hf.
    injection Ea as <- <-. unfold add in Eadd. repeat case_match; simplify_eq. cbn.
    rewrite lookup_insert_ne; [done|]. intros <-. congruence.
  - intros h'. rewrite !elem_of_cons. intros [->|Hi]; [by left; left|].
    destruct (HL h' Hi) as [?|?]; tauto.
  - by eapply markOpenedNil_stored.
  - by eapply updateNil_stored.
  - eapply Located_take; [done|done|..]; unfold markOpenedWithHandle in E; repeat case_match;
      simplify_eq; auto; try (intros; rewrite elem_of_app; by left);
      try (right; rewrite elem_of_app, list_elem_of_singleton; by right);
      rewrite (modify_const _ _ f) by done.
    + intros h'. eapply stored_modify; [done|]. intros h2 H2. exfalso.
      rewrite (lo_state _ _ _ (inv_loc _ HI _ _ H0)) in H2 by (by left). done.
    + left. by eapply stored_new.
  - eapply Located_take; [done|done|..]; unfold updateAndOpen in E; repeat case_match;
      simplify_eq; auto; try (intros; rewrite elem_of_app; by left);
      try (right; rewrite elem_of_app, list_elem_of_singleton; by right);
      rewrite (modify_const _ _ f) by done.
    + intros h'. eapply stored_modify; [done|]. intros h2 H2. exfalso.
      rewrite (lo_state _ _ _ (inv_loc _ HI _ _ H0)) in H2 by (by left). done.
    + left. by eapply stored_new.
  - unfold update in E. repeat case_match; simplify_eq; try done. intros h Hi.
    destruct (HL h Hi) as [?|[?|?]]; [by auto..|]. right. right.
    rewrite (modify_const _ _ f) by done. by eapply stored_modify.
  - intros h Hi. destruct (HL h Hi) as [?|[?|?]]; [by auto..|]. right. right.
    eapply stored_modify; [done| |done]. unfold beginIO in E. case_match; simplify_eq. done.
  - intros h Hi. destruct (HL h Hi) as [?|[?|?]]; [by auto..|]. right. right.
    eapply stored_modify; [done| |done]. by injection E as <- <-.
  - intros h Hi. destruct (HL h Hi) as [?|[?|H]]; [by auto..|]. right. right.
    unfold clunk in E. repeat case_match; simplify_eq. exact H.
  - intros h Hi. destruct (HL h Hi) as [?|[?|?]]; [by auto..|]. right. right.
    eapply stored_modify; [done| |done]. by injection E as <- <-.
  - intros h Hi. destruct (HL h Hi) as [?|[?|?]]; [by auto..|]. right. right.
    rewrite (modify_const _ _ fs) by done. by eapply stored_modify.
  - intros h Hi. destruct (HL h Hi) as [?|[?|?]]; [by auto| |by auto].
    right. left. rewrite elem_of_app. by left.
  - intros h Hi. destruct (HL h Hi) as [?|[?|?]]; [by auto..|]. right. right.
    destruct (heap (tab s) !! l) as [fs|] eqn:El; [|by rewrite modify_absent].
    rewrite (modify_const _ _ fs) by done. by eapply stored_modify.
Qed.

Lemma reachable_Located s : reachable s -> Located s.
Proof.
  apply Reachable_invariant; [intros h H; by apply elem_of_nil in H|].
  intros s1 s2 Hr. by apply step_Located, fid_reachable_Inv.
Qed.

(** No goroutine is inside a handler and every fid has been clunked. *)
Definition quiet (s : Sys) : Prop :=
  opened s = [] /\ clunkers s = [] /\ pending s = [] /\ (forall l, act s l = 0%nat) /\
  fids (tab s) = ∅.
End Life.

(** ** Properties *)

(** C3: Release safety.  In every interleaving of the handlers, each file
    handle is released at most once, and no handle is released while a
    goroutine is between [beginIO] and [endIO] on the fid that holds it: a
    read, write, readdir, fsync or lock never runs on a released handle. *)
Theorem handle_release_safe {Node Handle XattrWriter} (s : @Sys Node Handle XattrWriter) :
  reachable s ->
  NoDup (released s) /\
  forall l fs h, heap (tab s) !! l = Some fs -> handle fs = Some h -> (0 < act s l)%nat ->
    h ∉ released s.
Proof.
  intros Hr%fid_reachable_Inv. split; [apply Hr|]. intros l fs h Hl Hh Ha Hrel.
  destruct (lo_safe _ _ _ (inv_loc _ Hr l fs Hl) h Hh Hrel) as (_ & H & _). lia.
Qed.

(** C4: No leak.  Once the connection is quiet, every handle that [Open] or
    [Create] returned has been released, except those still stored in a fid
    that was turned into an extended-attribute write. *)
Theorem handle_no_leak {Node Handle XattrWriter} (s : @Sys Node Handle XattrWriter) :
  reachable s -> quiet s ->
  forall h, h ∈ issued s ->
    h ∈ released s \/
    exists l fs, heap (tab s) !! l = Some fs /\ handle fs = Some h /\ state fs = fidXattrWrite.
Proof.
  intros Hr (Ho & Hc & Hp & Ha & Hf) h Hi. pose proof (fid_reachable_Inv _ Hr) as HI.
  destruct (reachable_Located _ Hr h Hi) as [H|[H|(l & fs & Hl & Hh)]]; [|by left|].
  - rewrite Ho in H. by apply elem_of_nil in H.
  - destruct (inv_loc _ HI l fs Hl) as [_ L2 _ _ _ _ L7].
    assert (closing fs = true) as Hcl.
    { destruct (closing fs); [done|]. destruct (proj2 L2 eq_refl) as [[fid H]|H].
      - by rewrite Hf, lookup_empty in H.
      - rewrite Hc in H. by apply elem_of_nil in H. }
    destruct (L7 h Hh Hcl (Ha l)) as [H|H]; [rewrite Hp; by apply not_elem_of_nil|by left|].
    right. eauto.
Qed.

(** ** Concrete runs

    An executable form of the steps, to compute the outcome of a schedule. *)

#[export] Instance Teardown_eq_dec : EqDecision Teardown.
Proof. solve_decision. Defined.

Inductive Label : Type :=
  | LBind (fid : Fid) (st : fidStatus)
  | LOpen (h : nat)
  | LMarkOpened (fid : Fid) (h : nat)
  | LBeginIO (l : Loc)
  | LEndIO (l : Loc)
  | LClunk (fid : Fid)
  | LCheck (l : Loc)
  | LFinish (l : Loc)
  | LRelease (l : Loc) (cn : bool)
  | LXattrCheck (fid : Fid)
  | LXattrCreate (l : Loc).

Abbreviation S3 := (@Sys nat nat nat).

Definition exec (lab : Label) (s : S3) : option S3 :=
  match lab with
  | LBind fid st =>
      if decide (st = fidAllocated \/ st = fidXattrRead) then
        let '(l, t1) := alloc (newFidState 0%nat "/" st) (tab s) in
        match add fid l 0 t1 with
        | (Ok tt, t2) =>
            Some (mkSys t2 (active s) (opened s) (clunkers s) (pending s) (xattring s) (issued s)
                    (released s))
        | _ => None
        end
      else None
  | LOpen h =>
      if decide (h ∈ issued s) then None
      else Some (mkSys (tab s) (active s) (h :: opened s) (clunkers s) (pending s) (xattring s)
                   (h :: issued s) (released s))
  | LMarkOpened fid h =>
      rest ← take_out h (opened s);
      let '(ok, t) := markOpenedWithHandle fid (Some h) (tab s) in
      Some (mkSys t (active s) rest (clunkers s) (pending s) (xattring s) (issued s)
              (if ok : bool then released s else released s ++ [h]))
  | LBeginIO l =>
      fs ← heap (tab s) !! l;
      match beginIO fs with
      | (true, fs') =>
          Some (mkSys (modify l (fun _ => fs') (tab s)) (<[l := S (act s l)]> (active s)) (opened s)
                  (clunkers s) (pending s) (xattring s) (issued s) (released s))
      | (false, _) => None
      end
  | LEndIO l =>
      fs ← heap (tab s) !! l;
      match act s l with
      | O => None
      | S k =>
          let '(r, fs') := endIO fs in
          Some (mkSys (modify l (fun _ => fs') (tab s)) (<[l := k]> (active s)) (opened s) (clunkers s)
                  (match r with Some cn => (l, cn) :: pending s | None => pending s end)
                  (xattring s) (issued s) (released s))
      end
  | LClunk fid =>
      match clunk fid (tab s) with
      | (Some l, t) =>
          Some (mkSys t (active s) (opened s) ((l, ByClunk) :: clunkers s) (pending s) (xattring s)
                  (issued s) (released s))
      | (None, _) => None
      end
  | LCheck l =>
      rest ← take_out (l, ByClunk) (clunkers s);
      fs ← heap (tab s) !! l;
      if decide (state fs = fidXattrWrite) then
        Some (mkSys (modify l (set_closing true (closeNode fs)) (tab s)) (active s) (opened s) rest
                (pending s) (xattring s) (issued s) (released s))
      else
        Some (mkSys (tab s) (active s) (opened s) ((l, Checked) :: rest) (pending s) (xattring s)
                (issued s) (released s))
  | LFinish l =>
      rest ← take_out (l, Checked) (clunkers s);
      fs ← heap (tab s) !! l;
      let '(r, fs') := finishClunk true fs in
      Some (mkSys (modify l (fun _ => fs') (tab s)) (active s) (opened s) rest
              (match r with Some cn => (l, cn) :: pending s | None => pending s end)
              (xattring s) (issued s) (released s))
  | LRelease l cn =>
      rest ← take_out (l, cn) (pending s);
      fs ← heap (tab s) !! l;
      Some (mkSys (tab s) (active s) (opened s) (clunkers s) rest (xattring s) (issued s)
              (released s ++ releases (handle fs)))
  | LXattrCheck fid =>
      l ← get (tab s) fid;
      fs ← heap (tab s) !! l;
      if decide (currentState fs = fidAllocated) then
        Some (mkSys (tab s) (active s) (opened s) (clunkers s) (pending s) (l :: xattring s)
                (issued s) (released s))
      else None
  | LXattrCreate l =>
      rest ← take_out l (xattring s);
      Some (mkSys (modify l (set_xattrWrite "user.a" 1 0 None) (tab s)) (active s) (opened s)
              (clunkers s) (pending s) rest (issued s) (released s))
  end.

Definition schedule : list Label -> S3 -> option S3 := runLabels exec.

Lemma fid_exec_step lab s s' : exec lab s = Some s' -> step s s'.
Proof.
  intros E. destruct lab; cbn [exec] in E.
  - case_decide; [|done]. destruct (alloc _ _) as [l t1] eqn:Ea.
    destruct (add _ _ _ _) as [[[]|] t2] eqn:Eadd; [|done]. injection E as <-. by eapply step_bind.
  - case_decide; [done|]. injection E as <-. by apply step_Open.
  - apply bind_Some in E as (rest & Hr%take_out_Permutation & E).
    destruct (markOpenedWithHandle _ _ _) as [ok t] eqn:Em. injection E as <-. by eapply step_markOpened.
  - apply bind_Some in E as (fs & Hl & E). destruct (beginIO fs) as [[] fs'] eqn:Eb; [|done].
    injection E as <-. by eapply step_beginIO.
  - apply bind_Some in E as (fs & Hl & E). destruct (act s l) as [|k] eqn:Ek; [done|].
    destruct (endIO fs) as [r fs'] eqn:Ee. injection E as <-. by eapply step_endIO.
  - destruct (clunk _ _) as [[l|] t] eqn:Ec; [|done]. injection E as <-. by eapply step_clunk.
  - apply bind_Some in E as (rest & Hr%take_out_Permutation & E). apply bind_Some in E as (fs & Hl & E).
    case_decide.
    + injection E as <-. by eapply step_xattrClunk.
    + injection E as <-. by eapply step_checkClunk.
  - apply bind_Some in E as (rest & Hr%take_out_Permutation & E). apply bind_Some in E as (fs & Hl & E).
    destruct (finishClunk true fs) as [r fs'] eqn:Ef. injection E as <-. by eapply step_finishClunk.
  - apply bind_Some in E as (rest & Hr%take_out_Permutation & E). apply bind_Some in E as (fs & Hl & E).
    injection E as <-. by eapply step_releaseNow.
  - apply bind_Some in E as (l & Hg & E). apply bind_Some in E as (fs & Hl & E).
    case_decide; [|done]. injection E as <-. by eapply step_xattrCheck.
  - apply bind_Some in E as (rest & Hr%take_out_Permutation & E). injection E as <-.
    by eapply step_xattrCreate.
Qed.

Lemma fid_schedule_reachable labs s s' : reachable s -> schedule labs s = Some s' -> reachable s'.
Proof. apply runLabels_Reachable, fid_exec_step. Qed.

Lemma act_zero (s : S3) :
  map_Forall (fun _ k => k = 0%nat) (active s) -> forall l, act s l = 0%nat.
Proof. intros H l. unfold act. destruct (active s !! l) as [k|] eqn:E; [|done]. by apply (H l). Qed.

(** A fid is opened with handle 7 and clunked while a read is in flight. *)
Definition clunkDuringRead : list Label :=
  [LBind 1 fidAllocated; LOpen 7%nat; LMarkOpened 1 7%nat; LBeginIO 0%nat; LClunk 1; LCheck 0%nat; LFinish 0%nat].

(** [Txattrcreate] checks the fid, [Tlopen] opens it, [Txattrcreate] goes on;
    the client clunks the fid. *)
Definition xattrRace : list Label :=
  [LBind 1 fidAllocated; LXattrCheck 1; LOpen 7%nat; LMarkOpened 1 7%nat; LXattrCreate 0%nat; LClunk 1; LCheck 0%nat].

Example handle_release_safe_witness :
  exists s fs, schedule clunkDuringRead init = Some s /\ heap (tab s) !! 0%nat = Some fs /\
    handle fs = Some 7%nat /\ act s 0%nat = 1%nat /\ 7%nat ∉ released s.
Proof.
  destruct (schedule clunkDuringRead init) as [s|] eqn:E; [|by vm_compute in E].
  assert (reachable s) as Hr by (by eapply fid_schedule_reachable; [apply reach_init|]).
  vm_compute in E. injection E as E.
  destruct (heap (tab s) !! 0%nat) as [fs|] eqn:Hl; [|by rewrite <- E in Hl; vm_compute in Hl].
  exists s, fs. assert (handle fs = Some 7%nat) as Hh
    by (rewrite <- E in Hl; vm_compute in Hl; by injection Hl as <-).
  assert (act s 0%nat = 1%nat) as Ha by (rewrite <- E; by vm_compute).
  repeat (split; [done|]).
  apply (handle_release_safe s Hr) with (l := 0%nat) (fs := fs); [done|done|lia].
Defined.

Example handle_no_leak_witness :
  exists s, schedule (clunkDuringRead ++ [LEndIO 0%nat; LRelease 0%nat true]) init = Some s /\ quiet s /\
    7%nat ∈ released s.
Proof.
  destruct (schedule (clunkDuringRead ++ [LEndIO 0%nat; LRelease 0%nat true]) init) as [s|] eqn:E;
    [|by vm_compute in E].
  assert (reachable s) as Hr by (by eapply fid_schedule_reachable; [apply reach_init|]).
  vm_compute in E. injection E as E. exists s. split; [done|].
  assert (quiet s) as Hq.
  { rewrite <- E. repeat split. apply act_zero. by apply (bool_decide_unpack _); vm_compute. }
  split; [done|]. destruct (handle_no_leak s Hr Hq 7%nat) as [H|(l & fs & Hl & _ & Hst)].
  - rewrite <- E. by left.
  - exact H.
  - exfalso. assert (map_Forall (fun _ fs => state fs <> fidXattrWrite) (heap (tab s))) as Hn
      by (rewrite <- E; by apply (bool_decide_unpack _); vm_compute).
    by apply (Hn l fs Hl).
Defined.

(** C5: The xattrcreate race.  [handleXattrcreate] checks that the fid is
    freshly walked and makes it an xattr write in two critical sections; when
    a pipelined [Tlopen] of the same fid completes in between, the clunk that
    follows commits the attribute and never releases the open handle: the
    connection can become quiet with a handle that no one will release. *)
Theorem xattrcreate_race_leaks :
  exists s : S3, reachable s /\ quiet s /\ 7%nat ∈ issued s /\ 7%nat ∉ released s.
Proof.
  destruct (schedule xattrRace init) as [s|] eqn:E; [|by vm_compute in E].
  assert (reachable s) as Hr by (by eapply fid_schedule_reachable; [apply reach_init|]).
  vm_compute in E. injection E as E. exists s. split; [done|]. rewrite <- E. split.
  - by repeat split.
  - split; [by left|]. cbn. apply not_elem_of_nil.
Qed.
