(* ===== verification/Inflight.v ===== *)
(** * In-flight requests and flush ordering

    [server/flush.go]: the map of in-flight requests by tag, with the
    commit protocol that orders a flushed request's response before the
    [Rflush].  Channels are addresses with a set of closed ones; closing a
    closed channel, a panic in Go, is recorded in [panicked].  A [Rctx] is
    the address of a pooled [requestCtx].

    [System] interleaves the critical sections as [handleRequest],
    [dispatchInline] and [handleFlush] ([server/conn.go],
    [server/dispatch.go]) call them, for a client that reuses a tag only
    after it has seen the response or the [Rflush] for it.  When every
    request is registered before its flush is looked up, an [Rflush] never
    overtakes the response it flushed, no channel is closed twice, no
    request is taken for a duplicate unless a handler panicked, the request
    count is the number of entries, a drain waiter is woken when it returns to
    zero.  The receive loop does not
    guarantee that premise: it registers a request only after it has released
    the receive lock, and the last theorem exhibits the [Rflush] that
    overtakes.  A flush waiter is woken when the requests end in either case. *)

From S2P Require Import Prelude Types.

Definition Chan : Type := nat.
Definition Rctx : Type := nat.

Record inflightEntry : Type := mkEntry {
  rctx : Rctx;
  done : option Chan;
  committed : bool
}.

Record inflightMap : Type := mkMap {
  entries : gmap Tag inflightEntry;
  count : Z;
  drained : option Chan;
  (** The channels made so far are those below [chans]. *)
  chans : Chan;
  closed : gset Chan;
  panicked : bool
}.

Definition newInflightMap : inflightMap := mkMap ∅ 0 None 0%nat ∅ false.

(** [make(chan struct{})] and [close(ch)]. *)
Definition makeChan (im : inflightMap) : Chan * inflightMap :=
  (chans im, mkMap (entries im) (count im) (drained im) (S (chans im)) (closed im) (panicked im)).
Definition closeChan (ch : Chan) (im : inflightMap) : inflightMap :=
  mkMap (entries im) (count im) (drained im) (chans im) ({[ch]} ∪ closed im)
    (panicked im || bool_decide (ch ∈ closed im)).
Definition closeOpt (ch : option Chan) (im : inflightMap) : inflightMap :=
  match ch with Some ch => closeChan ch im | None => im end.

Definition setEntries (es : gmap Tag inflightEntry) (im : inflightMap) : inflightMap :=
  mkMap es (count im) (drained im) (chans im) (closed im) (panicked im).
Definition setCount (c : Z) (im : inflightMap) : inflightMap :=
  mkMap (entries im) c (drained im) (chans im) (closed im) (panicked im).
Definition setDrained (d : option Chan) (im : inflightMap) : inflightMap :=
  mkMap (entries im) (count im) d (chans im) (closed im) (panicked im).

Definition start (tag : Tag) (r : Rctx) (im : inflightMap) : bool * inflightMap :=
  match entries im !! tag with
  | Some entry =>
      if negb (committed entry) then (false, im)
      else
        let im := closeOpt (done entry) im in
        (true, setEntries (<[tag := mkEntry r None false]> (entries im)) im)
  | None =>
      let im := setEntries (<[tag := mkEntry r None false]> (entries im)) im in
      (true, setCount (count im + 1) im)
  end.

(** [im.count--; if im.count == 0 && im.drained != nil { close; nil }]. *)
Definition decCount (im : inflightMap) : inflightMap :=
  let im := setCount (count im - 1) im in
  if count im =? 0 then setDrained None (closeOpt (drained im) im) else im.

Definition remove (tag : Tag) (im : inflightMap) : option Chan * inflightMap :=
  let ch := entries im !! tag ≫= done in
  (ch, decCount (setEntries (delete tag (entries im)) im)).

Definition finish (tag : Tag) (im : inflightMap) : inflightMap :=
  let '(ch, im) := remove tag im in closeOpt ch im.

(** The zero entry of a missing key has a nil [rctx], written 0. *)
Definition commit (tag : Tag) (im : inflightMap) : inflightMap :=
  let entry := default (mkEntry 0%nat None false) (entries im !! tag) in
  setEntries (<[tag := mkEntry (rctx entry) (done entry) true]> (entries im)) im.

Definition completeCommit (tag : Tag) (r : Rctx) (im : inflightMap) : option Chan * inflightMap :=
  match entries im !! tag with
  | None => (None, im)
  | Some entry =>
      if decide (rctx entry = r)
      then (done entry, decCount (setEntries (delete tag (entries im)) im))
      else (None, im)
  end.

Definition drainChan (im : inflightMap) : option Chan * inflightMap :=
  if count im =? 0 then (None, im)
  else match drained im with
       | Some d => (Some d, im)
       | None => let '(d, im) := makeChan im in (Some d, setDrained (Some d) im)
       end.

(** The channel to wait on and the request context that was cancelled. *)
Definition flushWait (tag : Tag) (im : inflightMap) : option (Chan * Rctx) * inflightMap :=
  match entries im !! tag with
  | None => (None, im)
  | Some entry =>
      match done entry with
      | Some ch => (Some (ch, rctx entry), im)
      | None =>
          let '(ch, im) := makeChan im in
          (Some (ch, rctx entry),
           setEntries (<[tag := mkEntry (rctx entry) (Some ch) (committed entry)]> (entries im)) im)
      end
  end.

(** The request contexts [cancelAll] flushes. *)
Definition cancelAll (im : inflightMap) : list Rctx := rctx <$> (map_to_list (entries im)).*2.

Definition len (im : inflightMap) : Z := Z.of_nat (size (entries im)).

(** ** The connection's goroutines *)

Module System.

(** A request's goroutine: frame read, not yet registered; in its handler;
    past [commit]; response written; recovered from a handler panic with the
    [EIO] response written and its entry still registered; holding the channel [completeCommit] or
    [remove] returned; done. *)
Inductive phase : Type :=
  | Received
  | Running
  | Committed
  | Written
  | Recovered
  | Closing (ch : option Chan)
  | Finished.

Record request : Type := mkReq { qtag : Tag; qctx : Rctx; qphase : phase }.

(** A [Tflush] goroutine: waiting on a channel, ready to answer, answered.
    [aim] is the request the client means: the one with that tag whose end it
    has not seen. *)
Inductive fphase : Type := Waiting (ch : Chan) | Ready | Answered.

Record flush : Type := mkFlush { aim : option nat; fph : fphase }.

Inductive event : Type :=
  | Response (req : nat)
  | Rflush (fl : nat).

Record Sys : Type := mkSys {
  im : inflightMap;
  reqs : gmap nat request;
  flushes : gmap nat flush;
  wire : list event
}.

Definition init : Sys := mkSys newInflightMap ∅ ∅ [].

(** The request holds a request context. *)
Definition holds (p : phase) : bool :=
  match p with Received | Finished => false | _ => true end.

(** The response, if any, has been written. *)
Definition past (p : phase) : bool :=
  match p with Written | Recovered | Closing _ | Finished => true | _ => false end.

(** The phases whose entry must be in the map. *)
Definition live (p : phase) : bool :=
  match p with Running | Committed | Recovered => true | _ => false end.

(** The phases of the owner of an entry. *)
Definition owner (committed : bool) (p : phase) : bool :=
  match p with
  | Running | Recovered => negb committed
  | Committed | Written => committed
  | _ => false
  end.

(** The client saw the end of request [q]: its response, or the [Rflush] of
    a flush it sent for [q]. *)
Definition seen (s : Sys) (q : nat) : Prop :=
  Response q ∈ wire s \/
  exists f fl, Rflush f ∈ wire s /\ flushes s !! f = Some fl /\ aim fl = Some q.

Definition setPhase (q : nat) (rq : request) (p : phase) (s : Sys) : gmap nat request :=
  <[q := mkReq (qtag rq) (qctx rq) p]> (reqs s).

(** What the client means by a flush of [tag]. *)
Definition aims (s : Sys) (tag : Tag) (a : option nat) : Prop :=
  match a with
  | Some q => (exists rq, reqs s !! q = Some rq /\ qtag rq = tag) /\ ~ seen s q
  | None => True
  end.

Section Step.
(** Whether a flush can be looked up while a request with its tag has been
    read but not registered. *)
Context (racy : bool).

Inductive step : Sys -> Sys -> Prop :=
  (** [readFrameLocked]: a request whose tag the client may use. *)
  | step_recv s q tag :
      reqs s !! q = None ->
      (forall q' rq, reqs s !! q' = Some rq -> qtag rq = tag -> seen s q') ->
      step s (mkSys (im s) (<[q := mkReq tag 0%nat Received]> (reqs s)) (flushes s) (wire s))
  (** [handleRequest]: a request context no other goroutine holds, and
      [inflight.start]. *)
  | step_start s q rq r im' :
      reqs s !! q = Some rq -> qphase rq = Received ->
      (forall q' rq', reqs s !! q' = Some rq' -> holds (qphase rq') = true -> qctx rq' <> r) ->
      start (qtag rq) r (im s) = (true, im') ->
      step s (mkSys im' (<[q := mkReq (qtag rq) r Running]> (reqs s)) (flushes s) (wire s))
  (** [dispatchInline] with a response: commit, write, complete, close. *)
  | step_commit s q rq :
      reqs s !! q = Some rq -> qphase rq = Running ->
      step s (mkSys (commit (qtag rq) (im s)) (setPhase q rq Committed s) (flushes s) (wire s))
  | step_write s q rq :
      reqs s !! q = Some rq -> qphase rq = Committed ->
      step s (mkSys (im s) (setPhase q rq Written s) (flushes s) (wire s ++ [Response q]))
  | step_complete s q rq ch im' :
      reqs s !! q = Some rq -> qphase rq = Written ->
      completeCommit (qtag rq) (qctx rq) (im s) = (ch, im') ->
      step s (mkSys im' (setPhase q rq (Closing ch) s) (flushes s) (wire s))
  (** The deferred recovery of a handler panic writes its response first. *)
  | step_panic s q rq :
      reqs s !! q = Some rq -> qphase rq = Running ->
      step s (mkSys (im s) (setPhase q rq Recovered s) (flushes s) (wire s ++ [Response q]))
  (** [finish], after a panic or when there is no response. *)
  | step_remove s q rq ch im' :
      reqs s !! q = Some rq -> qphase rq = Running \/ qphase rq = Recovered ->
      remove (qtag rq) (im s) = (ch, im') ->
      step s (mkSys im' (setPhase q rq (Closing ch) s) (flushes s) (wire s))
  | step_close s q rq ch :
      reqs s !! q = Some rq -> qphase rq = Closing ch ->
      step s (mkSys (closeOpt ch (im s)) (setPhase q rq Finished s) (flushes s) (wire s))
  (** [handleFlush]. *)
  | step_flush s f tag a res im' :
      flushes s !! f = None -> aims s tag a ->
      racy = true \/ (forall q rq, reqs s !! q = Some rq -> qtag rq = tag -> qphase rq <> Received) ->
      flushWait tag (im s) = (res, im') ->
      step s (mkSys im' (reqs s)
                (<[f := mkFlush a (match res with Some (ch, _) => Waiting ch | None => Ready end)]>
                   (flushes s)) (wire s))
  | step_wake s f fl ch :
      flushes s !! f = Some fl -> fph fl = Waiting ch -> ch ∈ closed (im s) ->
      step s (mkSys (im s) (reqs s) (<[f := mkFlush (aim fl) Ready]> (flushes s)) (wire s))
  | step_answer s f fl :
      flushes s !! f = Some fl -> fph fl = Ready ->
      step s (mkSys (im s) (reqs s) (<[f := mkFlush (aim fl) Answered]> (flushes s))
                (wire s ++ [Rflush f]))
  (** [waitWithDeadline] takes the drain channel. *)
  | step_drain s d im' :
      drainChan (im s) = (d, im') -> step s (mkSys im' (reqs s) (flushes s) (wire s)).

Definition reachable : Sys -> Prop := Reachable init step.
End Step.

(** ** Channels

    Every channel in use has one place, is open, and was made; [P x ch] says
    that place [x] refers to [ch]. *)

Inductive place : Type := PEntry (tag : Tag) | PClosing (q : nat) | PDrain.

Record ChanOk (P : place -> Chan -> Prop) (n : Chan) (cl : gset Chan) : Prop := {
  ch_open x ch : P x ch -> (ch < n)%nat /\ ch ∉ cl;
  ch_one x y ch : P x ch -> P y ch -> x = y;
  ch_closed ch : ch ∈ cl -> (ch < n)%nat
}.

Lemma ChanOk_sub (P P' : place -> Chan -> Prop) n cl :
  ChanOk P n cl -> (forall x ch, P' x ch -> P x ch) -> ChanOk P' n cl.
Proof. intros [H1 H2 H3] HP. split; eauto. Qed.

Lemma ChanOk_move (P P' : place -> Chan -> Prop) n cl x y ch :
  ChanOk P n cl -> P x ch ->
  (forall z c, P' z c -> (z = y /\ c = ch) \/ (P z c /\ z <> x)) -> ChanOk P' n cl.
Proof.
  intros [H1 H2 H3] Hx HP. split; [| |done].
  - intros z c [[-> ->]|[H _]]%HP; eauto.
  - intros z1 z2 c [[-> ->]|[A1 N1]]%HP [[-> E]|[A2 N2]]%HP; subst; try done; try (by eauto).
    + exfalso. by apply N2, (H2 z2 x ch).
    + exfalso. by apply N1, (H2 z1 x ch).
Qed.

Lemma ChanOk_close (P P' : place -> Chan -> Prop) n cl x ch :
  ChanOk P n cl -> P x ch -> (forall z c, P' z c -> P z c /\ z <> x) -> ChanOk P' n ({[ch]} ∪ cl).
Proof.
  intros [H1 H2 H3] Hx HP. split.
  - intros z c [H N]%HP. destruct (H1 _ _ H) as [Hlt Hc]. split; [done|].
    rewrite not_elem_of_union, not_elem_of_singleton. split; [|done].
    intros ->. by apply N, (H2 z x ch).
  - intros z1 z2 c [A1 _]%HP [A2 _]%HP. eauto.
  - intros c. rewrite elem_of_union, elem_of_singleton. intros [->|H]; [by apply (H1 x)|eauto].
Qed.

Lemma ChanOk_make (P P' : place -> Chan -> Prop) n cl y :
  ChanOk P n cl -> (forall z c, P' z c -> (z = y /\ c = n) \/ P z c) -> ChanOk P' (S n) cl.
Proof.
  intros [H1 H2 H3] HP. split.
  - intros z c [[-> ->]|H]%HP; [split; [lia|]|destruct (H1 _ _ H); split; [lia|done]].
    intros H%H3. lia.
  - intros z1 z2 c [[-> ->]|A1]%HP [[-> E]|A2]%HP; subst; try done; [..|by eauto].
    + destruct (H1 _ _ A2). lia.
    + destruct (H1 _ _ A1). lia.
  - intros c H%H3. lia.
Qed.

Definition at_place (s : Sys) (x : place) (ch : Chan) : Prop :=
  match x with
  | PEntry tag => exists e, entries (im s) !! tag = Some e /\ done e = Some ch
  | PClosing q => exists rq, reqs s !! q = Some rq /\ qphase rq = Closing (Some ch)
  | PDrain => drained (im s) = Some ch
  end.

(** ** Invariant *)

Record Inv (s : Sys) : Prop := {
  i_entry tag e : entries (im s) !! tag = Some e ->
    exists q p, reqs s !! q = Some (mkReq tag (rctx e) p) /\
      owner (committed e) p = true;
  i_live q rq : reqs s !! q = Some rq -> live (qphase rq) = true ->
    exists e, entries (im s) !! qtag rq = Some e /\ rctx e = qctx rq;
  i_ctx q1 q2 r1 r2 : reqs s !! q1 = Some r1 -> reqs s !! q2 = Some r2 ->
    holds (qphase r1) = true -> holds (qphase r2) = true -> qctx r1 = qctx r2 -> q1 = q2;
  i_tag q1 q2 r1 r2 : reqs s !! q1 = Some r1 -> reqs s !! q2 = Some r2 -> qtag r1 = qtag r2 ->
    past (qphase r1) = false -> past (qphase r2) = false -> q1 = q2;
  i_chan : ChanOk (at_place s) (chans (im s)) (closed (im s));
  i_count : count (im s) = Z.of_nat (size (entries (im s)));
  i_drain d : drained (im s) = Some d -> 0 < count (im s);
  i_panic : panicked (im s) = false;
  i_resp q : Response q ∈ wire s -> exists rq, reqs s !! q = Some rq /\ past (qphase rq) = true;
  i_rfl f : Rflush f ∈ wire s -> exists fl, flushes s !! f = Some fl /\ fph fl = Answered;
  i_flush f fl q : flushes s !! f = Some fl -> aim fl = Some q ->
    exists rq, reqs s !! q = Some rq /\
      (past (qphase rq) = true \/
       exists ch e, fph fl = Waiting ch /\ qphase rq <> Received /\
         entries (im s) !! qtag rq = Some e /\ rctx e = qctx rq /\ done e = Some ch);
  i_order w1 w2 f fl q : wire s = w1 ++ Rflush f :: w2 -> flushes s !! f = Some fl ->
    aim fl = Some q -> Response q ∉ w2
}.

Lemma inflight_init_Inv : Inv init.
Proof.
  split; cbn; try done; try (intros *; rewrite lookup_empty; done);
    try (intros *; rewrite elem_of_nil; done).
  - split; try done. intros [tag|q|] ch; cbn.
    + intros (e & H & _). by rewrite lookup_empty in H.
    + intros (e & H & _). by rewrite lookup_empty in H.
    + done.
    + intros [tag|q|] y ch; cbn; [intros (e & H & _); by rewrite lookup_empty in H..|done].
Qed.

Lemma seen_past s q : Inv s -> seen s q -> exists rq, reqs s !! q = Some rq /\ past (qphase rq) = true.
Proof.
  intros HI [H|(f & fl & Hw & Hf & Ha)]; [by apply (i_resp _ HI)|].
  destruct (i_rfl _ HI f Hw) as (fl' & Hf' & Hp). assert (fl' = fl) as -> by congruence.
  destruct (i_flush _ HI f fl q Hf Ha) as (rq & Hq & [H|(ch & e & Hc & _)]); [by eauto|congruence].
Qed.

Lemma owner_holds c p : owner c p = true -> holds p = true.
Proof. by destruct p. Qed.
Lemma live_holds p : live p = true -> holds p = true.
Proof. by destruct p. Qed.

(** The entry with a request's context is its own. *)
Lemma own_entry s q rq e :
  Inv s -> reqs s !! q = Some rq -> holds (qphase rq) = true ->
  entries (im s) !! qtag rq = Some e -> rctx e = qctx rq ->
  owner (committed e) (qphase rq) = true.
Proof.
  intros HI Hq Hh He Hr. destruct (i_entry _ HI _ _ He) as (q' & p & Hq' & Hp).
  assert (q' = q) as ->.
  { apply (i_ctx _ HI q' q _ _ Hq' Hq); [|done|done]. by eapply owner_holds. }
  rewrite Hq in Hq'. injection Hq' as ->. exact Hp.
Qed.

Lemma lookup_setPhase q rq p s q' rq' :
  setPhase q rq p s !! q' = Some rq' ->
  (q' = q /\ rq' = mkReq (qtag rq) (qctx rq) p) \/ (q' <> q /\ reqs s !! q' = Some rq').
Proof.
  unfold setPhase. rewrite lookup_insert. case_decide as E; [|by right].
  intros [= <-]. by left.
Qed.

Lemma setPhase_same q rq p s : setPhase q rq p s !! q = Some (mkReq (qtag rq) (qctx rq) p).
Proof. apply lookup_insert_eq. Qed.
Lemma setPhase_other q rq p s q' : q' <> q -> setPhase q rq p s !! q' = reqs s !! q'.
Proof. intros H. by apply lookup_insert_ne. Qed.

(** *** A registered request moves to its next phase

    Its own entry, if it still has one, may change or go; an entry of a
    later request with the same tag and every other entry stay. *)
Section Advance.
Context (s : Sys) (q : nat) (rq : request) (p' : phase) (im' : inflightMap) (w' : list event).
Hypothesis HI : Inv s.
Hypothesis Hq : reqs s !! q = Some rq.
Hypothesis Hholds : holds (qphase rq) = true.
Hypothesis Hp' : p' <> Received.
Hypothesis Hpast : past (qphase rq) = true -> past p' = true.
Hypothesis E_other : forall tag, tag <> qtag rq -> entries im' !! tag = entries (im s) !! tag.
Hypothesis E_tag : forall e', entries im' !! qtag rq = Some e' ->
  (rctx e' = qctx rq /\ owner (committed e') p' = true) \/
  (rctx e' <> qctx rq /\ entries (im s) !! qtag rq = Some e').
Hypothesis E_own : live p' = true ->
  exists e', entries im' !! qtag rq = Some e' /\ rctx e' = qctx rq.
Hypothesis E_foreign : forall e, entries (im s) !! qtag rq = Some e -> rctx e <> qctx rq ->
  entries im' !! qtag rq = Some e.
Hypothesis E_done : forall e ch, past p' = false -> entries (im s) !! qtag rq = Some e ->
  rctx e = qctx rq -> done e = Some ch ->
  exists e', entries im' !! qtag rq = Some e' /\ rctx e' = qctx rq /\ done e' = Some ch.
Let s' : Sys := mkSys im' (setPhase q rq p' s) (flushes s) w'.
Hypothesis H_chan : ChanOk (at_place s') (chans im') (closed im').
Hypothesis H_count : count im' = Z.of_nat (size (entries im')).
Hypothesis H_drain : forall d, drained im' = Some d -> 0 < count im'.
Hypothesis H_panic : panicked im' = false.
Hypothesis H_wire : w' = wire s \/
  (w' = wire s ++ [Response q] /\ past (qphase rq) = false /\ past p' = true).

Lemma advance_reqs q' r : reqs s !! q' = Some r ->
  exists r', reqs s' !! q' = Some r' /\ qtag r' = qtag r /\ qctx r' = qctx r /\
    (past (qphase r) = true -> past (qphase r') = true) /\
    (qphase r <> Received -> qphase r' <> Received).
Proof.
  intros H. destruct (decide (q' = q)) as [->|Hne].
  - assert (r = rq) as -> by congruence. exists (mkReq (qtag rq) (qctx rq) p').
    cbn. by rewrite setPhase_same.
  - exists r. cbn. by rewrite setPhase_other.
Qed.

Lemma advance_entry tag e : entries im' !! tag = Some e ->
  exists q0 p, reqs s' !! q0 = Some (mkReq tag (rctx e) p) /\
    owner (committed e) p = true.
Proof.
  intros He. destruct (decide (tag = qtag rq)) as [->|Hne].
  - destruct (E_tag e He) as [[Hr Hc]|[Hr Hs]].
    + exists q, p'. cbn. rewrite setPhase_same, Hr. done.
    + destruct (i_entry _ HI _ _ Hs) as (q0 & p & H0 & Hp). exists q0, p. split; [|done].
      cbn. rewrite setPhase_other; [done|]. intros ->. apply Hr. rewrite Hq in H0.
      injection H0 as H0. by rewrite H0.
  - rewrite E_other in He by done. destruct (i_entry _ HI _ _ He) as (q0 & p & H0 & Hp).
    exists q0, p. split; [|done]. cbn. rewrite setPhase_other; [done|]. intros ->.
    apply Hne. rewrite Hq in H0. injection H0 as H0. by rewrite H0.
Qed.

Lemma advance_live q0 r : reqs s' !! q0 = Some r -> live (qphase r) = true ->
  exists e, entries im' !! qtag r = Some e /\ rctx e = qctx r.
Proof.
  intros [[-> ->]|[Hne H]]%lookup_setPhase Hp; [by apply E_own|].
  destruct (i_live _ HI q0 r H Hp) as (e & He & Hr). destruct (decide (qtag r = qtag rq)) as [Ht|Ht].
  - rewrite Ht in *. exists e. split; [|done]. apply E_foreign; [done|]. intros Hc.
    apply Hne, (i_ctx _ HI q0 q r rq H Hq); [by apply live_holds|done|congruence].
  - exists e. by rewrite E_other.
Qed.

Lemma advance_flush f fl q0 : flushes s !! f = Some fl -> aim fl = Some q0 ->
  exists r, reqs s' !! q0 = Some r /\
    (past (qphase r) = true \/
     exists ch e, fph fl = Waiting ch /\ qphase r <> Received /\
       entries im' !! qtag r = Some e /\ rctx e = qctx r /\ done e = Some ch).
Proof.
  intros Hf Ha. destruct (i_flush _ HI f fl q0 Hf Ha) as (r & Hr & H).
  destruct (advance_reqs q0 r Hr) as (r' & Hr' & Et & Ec & Hpp & Hnr). exists r'. split; [done|].
  destruct H as [H|(ch & e & Hw & Hn & He & Hx & Hd)]; [auto|].
  destruct (past (qphase r')) eqn:Hp; [by left|]. right. exists ch.
  rewrite Et, Ec. destruct (decide (qtag r = qtag rq)) as [Ht|Ht].
  - rewrite Ht in *. destruct (decide (rctx e = qctx rq)) as [Hown|Hown].
    + assert (q0 = q) as ->.
      { apply (i_ctx _ HI q0 q r rq Hr Hq); [|done|congruence].
        destruct (qphase r); [by destruct Hn|done..|]. specialize (Hpp eq_refl). congruence. }
      cbn in Hr'. rewrite setPhase_same in Hr'. injection Hr' as <-. cbn in *.
      destruct (E_done e ch Hp He Hown Hd) as (e' & H1 & H2 & H3). exists e'.
      assert (r = rq) as -> by congruence. auto.
    + exists e. split; [done|]. split; [auto|]. split; [by apply E_foreign|done].
  - exists e. rewrite E_other by done. auto.
Qed.

Lemma advance_Inv : Inv s'.
Proof.
  split; cbn [im reqs flushes wire s']; try done.
  - apply advance_entry.
  - apply advance_live.
  - intros q1 q2 r1 r2 [[-> ->]|[N1 H1]]%lookup_setPhase [[-> ->]|[N2 H2]]%lookup_setPhase; cbn;
      intros A1 A2 E; [done|..]; by eapply (i_ctx _ HI).
  - intros q1 q2 r1 r2 [[-> ->]|[N1 H1]]%lookup_setPhase [[-> ->]|[N2 H2]]%lookup_setPhase; cbn;
      intros E A1 A2; [done|..]; (eapply (i_tag _ HI); [done|done|done|..]); try done;
      destruct (past (qphase rq)) eqn:Hx; try done; by rewrite Hpast in *.
  - intros q0 H. assert (Response q0 ∈ wire s \/ q0 = q /\ past p' = true) as [H0|[-> Hpp]].
    { destruct H_wire as [->|(-> & _ & Hpp)]; [by left|].
      apply elem_of_app in H as [H|H]; [by left|]. apply list_elem_of_singleton in H.
      injection H as ->. by right. }
    + destruct (i_resp _ HI q0 H0) as (r & Hr & Hp).
      destruct (advance_reqs q0 r Hr) as (r' & Hr' & _ & _ & Hpp & _). eauto.
    + eexists. split; [apply setPhase_same|done].
  - intros f H. apply (i_rfl _ HI). destruct H_wire as [->|(-> & _)]; [done|].
    apply elem_of_app in H as [H|H]; [done|]. by apply list_elem_of_singleton in H.
  - intros f fl q0. apply advance_flush.
  - intros w1 w2 f fl q0 E Hf Ha. destruct H_wire as [->|(-> & Hnp & _)];
      [by eapply (i_order _ HI)|].
    destruct w2 as [|ev w2 _] using rev_ind; [apply not_elem_of_nil|].
    rewrite app_comm_cons, app_assoc in E. apply app_inj_tail in E as [E <-].
    rewrite elem_of_app, list_elem_of_singleton. intros [H|[= ->]].
    + by apply (i_order _ HI w1 w2 f fl q0 E Hf Ha).
    + destruct (seen_past s q HI) as (r & Hr & Hp); [|congruence].
      right. exists f, fl. split; [|done]. rewrite E. apply elem_of_app. right. by left.
Qed.
End Advance.

(** *** Taking an entry out *)

Definition without (tag : Tag) (im : inflightMap) : inflightMap :=
  decCount (setEntries (delete tag (entries im)) im).

Lemma without_entries tag m : entries (without tag m) = delete tag (entries m).
Proof.
  unfold without, decCount. cbn. case_match; [|done]. cbn. by destruct (drained m).
Qed.

Lemma without_count tag m e :
  entries m !! tag = Some e -> count m = Z.of_nat (size (entries m)) ->
  count (without tag m) = Z.of_nat (size (entries (without tag m))).
Proof.
  intros He Hc. rewrite without_entries, map_size_delete, He. unfold without, decCount. cbn.
  assert (0 < size (entries m))%nat.
  { destruct (size (entries m)) eqn:E; [|lia]. apply map_size_empty_inv in E. by rewrite E, lookup_empty in He. }
  case_match; cbn; [|lia]. destruct (drained m); cbn; lia.
Qed.

Lemma without_drained tag m d :
  drained (without tag m) = Some d ->
  drained m = Some d /\ count (without tag m) <> 0 /\ closed (without tag m) = closed m.
Proof.
  unfold without, decCount. cbn. destruct (Z.eqb_spec (count m - 1) 0); cbn; [|done].
  by destruct (drained m).
Qed.

Lemma without_chans tag m : chans (without tag m) = chans m.
Proof. unfold without, decCount. cbn. case_match; [|done]. by destruct (drained m). Qed.

(** The drain channel is closed, once, exactly when the last entry goes. *)
Lemma without_closed tag m :
  (closed (without tag m) = closed m /\ panicked (without tag m) = panicked m) \/
  exists d, drained m = Some d /\ drained (without tag m) = None /\
    closed (without tag m) = {[d]} ∪ closed m /\
    panicked (without tag m) = panicked m || bool_decide (d ∈ closed m).
Proof.
  unfold without, decCount. cbn. case_match; cbn; [|by left].
  destruct (drained m) as [d|]; cbn; [|by left]. right. by exists d.
Qed.

Lemma without_chan s q rq tag e :
  Inv s -> reqs s !! q = Some rq -> (forall ch, qphase rq <> Closing ch) ->
  entries (im s) !! tag = Some e ->
  let im' := without tag (im s) in
  ChanOk (at_place (mkSys im' (setPhase q rq (Closing (done e)) s) (flushes s) (wire s)))
    (chans im') (closed im') /\
  panicked im' = false.
Proof.
  intros HI Hq Hnc He im'. set (s' := mkSys _ _ _ _).
  assert (forall z c, at_place s' z c ->
    (z = PClosing q /\ done e = Some c) \/ (at_place s z c /\ z <> PEntry tag)) as HP.
  { intros [t|q'|] c; cbn.
    - intros (e' & H & Hd). unfold im' in H. rewrite without_entries in H.
      apply lookup_delete_Some in H as [Hne H]. right. split; [eauto|]. congruence.
    - intros (r & [[-> ->]|[Hne H]]%lookup_setPhase & Hc); [left|right].
      + cbn in Hc. injection Hc as ->. done.
      + split; [eauto|done].
    - intros H. right. split; [|done]. by apply without_drained in H as [H _]. }
  assert (ChanOk (at_place s') (chans im') (closed (im s))) as Hok.
  { unfold im'. rewrite without_chans. destruct (done e) as [ch|] eqn:Ed.
    - eapply (ChanOk_move _ _ _ _ (PEntry tag) (PClosing q) ch); [apply (i_chan _ HI)|by exists e|].
      intros z c H. destruct (HP z c H) as [[-> [= ->]]|H']; auto.
    - eapply ChanOk_sub; [apply (i_chan _ HI)|]. intros z c H. by destruct (HP z c H) as [[_ ?]|[? _]]. }
  destruct (without_closed tag (im s)) as [[E1 E2]|(d & Hd & Hn & E1 & E2)];
    fold im' in E1, E2.
  - rewrite E1, E2. split; [done|apply (i_panic _ HI)].
  - assert (d ∉ closed (im s)) as Hnd by (by apply (ch_open _ _ _ (i_chan _ HI) PDrain d)).
    rewrite E1, E2, (i_panic _ HI), bool_decide_eq_false_2 by done. split; [|done].
    split.
    + intros x c H. destruct (ch_open _ _ _ Hok x c H) as [Hlt Hnc']. split; [done|].
      rewrite not_elem_of_union, not_elem_of_singleton. split; [|done]. intros ->.
      destruct (HP x d H) as [[-> Hde]|[H' Hne]].
      * assert (PEntry tag = PDrain) as [=]; apply (ch_one _ _ _ (i_chan _ HI) _ _ d); [by exists e|done].
      * assert (x = PDrain) as -> by (apply (ch_one _ _ _ (i_chan _ HI) _ _ d); done).
        cbn in H. unfold im' in H. by rewrite Hn in H.
    + apply (ch_one _ _ _ Hok).
    + intros c. rewrite elem_of_union, elem_of_singleton. intros [->|H].
      * unfold im'. rewrite without_chans. by apply (ch_open _ _ _ (i_chan _ HI) PDrain d).
      * by apply (ch_closed _ _ _ Hok).
Qed.

Lemma without_drain s tag e :
  Inv s -> entries (im s) !! tag = Some e -> forall d,
  drained (without tag (im s)) = Some d -> 0 < count (without tag (im s)).
Proof.
  intros HI He d (_ & Hne & _)%without_drained.
  pose proof (without_count tag (im s) e He (i_count _ HI)). lia.
Qed.

(** A request's goroutine takes its own entry out and keeps its channel. *)
Lemma take_Inv s q rq e :
  Inv s -> reqs s !! q = Some rq -> holds (qphase rq) = true -> (forall ch, qphase rq <> Closing ch) ->
  entries (im s) !! qtag rq = Some e -> rctx e = qctx rq ->
  Inv (mkSys (without (qtag rq) (im s)) (setPhase q rq (Closing (done e)) s) (flushes s) (wire s)).
Proof.
  intros HI Hq Hp Hnc He Hr.
  destruct (without_chan s q rq (qtag rq) e HI Hq) as [Hok Hpa]; [done|done|].
  apply advance_Inv; try done.
  - intros tag Hne. rewrite without_entries. by apply lookup_delete_ne.
  - intros e'. by rewrite without_entries, lookup_delete_eq.
  - intros e'. congruence.
  - by apply (without_count _ _ e), (i_count _ HI).
  - by eapply without_drain.
  - by left.
Qed.

Lemma complete_Inv s q rq ch im' :
  Inv s -> reqs s !! q = Some rq -> qphase rq = Written ->
  completeCommit (qtag rq) (qctx rq) (im s) = (ch, im') ->
  Inv (mkSys im' (setPhase q rq (Closing ch) s) (flushes s) (wire s)).
Proof.
  intros HI Hq Hp E. unfold completeCommit in E.
  destruct (entries (im s) !! qtag rq) as [e|] eqn:He; [case_decide as Hr|].
  { injection E as <- <-. apply (take_Inv s q rq e); by rewrite ?Hp. }
  all: injection E as <- <-; apply advance_Inv; try done; try apply HI; try (by rewrite Hp);
    try (by intros [?|?]); try (by left).
  all: try (intros e'; rewrite He; done).
  - intros e' [= <-]%(eq_trans (eq_sym He)). by right.
  - eapply ChanOk_sub; [apply (i_chan _ HI)|]. intros [t|q'|] c; cbn; try done.
    by intros (r & [[-> ->]|[Hne H]]%lookup_setPhase & Hc); [|eauto].
  - eapply ChanOk_sub; [apply (i_chan _ HI)|]. intros [t|q'|] c; cbn; try done.
    by intros (r & [[-> ->]|[Hne H]]%lookup_setPhase & Hc); [|eauto].
Qed.

Lemma remove_Inv s q rq ch im' :
  Inv s -> reqs s !! q = Some rq -> qphase rq = Running \/ qphase rq = Recovered ->
  remove (qtag rq) (im s) = (ch, im') ->
  Inv (mkSys im' (setPhase q rq (Closing ch) s) (flushes s) (wire s)).
Proof.
  intros HI Hq Hp E. destruct (i_live _ HI q rq Hq) as (e & He & Hr); [by destruct Hp as [-> | ->]|].
  unfold remove in E. rewrite He in E. injection E as <- <-.
  apply (take_Inv s q rq e); try done; by destruct Hp as [-> | ->].
Qed.

(** A phase change of a request that keeps every channel in place. *)
Lemma setPhase_chan s q rq p im' w :
  ChanOk (at_place s) (chans (im s)) (closed (im s)) ->
  chans im' = chans (im s) -> closed im' = closed (im s) -> drained im' = drained (im s) ->
  (forall tag ch, at_place (mkSys im' (reqs s) (flushes s) w) (PEntry tag) ch ->
     at_place s (PEntry tag) ch) ->
  (forall ch, p <> Closing (Some ch)) ->
  ChanOk (at_place (mkSys im' (setPhase q rq p s) (flushes s) w)) (chans im') (closed im').
Proof.
  intros Hok -> -> Hd He Hp. eapply ChanOk_sub; [exact Hok|]. intros [t|q'|] c.
  - apply He.
  - intros (r & [[-> ->]|[Hne H]]%lookup_setPhase & Hc); cbn in *; [by apply Hp in Hc|eauto].
  - cbn. by rewrite Hd.
Qed.

Lemma commit_Inv s q rq :
  Inv s -> reqs s !! q = Some rq -> qphase rq = Running ->
  Inv (mkSys (commit (qtag rq) (im s)) (setPhase q rq Committed s) (flushes s) (wire s)).
Proof.
  intros HI Hq Hp. destruct (i_live _ HI q rq Hq) as (e & He & Hr); [by rewrite Hp|].
  unfold commit. rewrite He. change (default _ (Some e)) with e.
  apply advance_Inv; cbn [entries setEntries count drained panicked chans closed]; try done;
    try apply HI; try (by rewrite Hp); try (by left).
  - intros tag Hne. by rewrite lookup_insert_ne.
  - rewrite lookup_insert_eq. intros e' [= <-]. left. cbn. auto.
  - intros _. eexists. by rewrite lookup_insert_eq.
  - intros e'. congruence.
  - intros e' ch _ He' Hr' Hd. eexists. rewrite lookup_insert_eq. split; [done|].
    cbn. split; congruence.
  - refine (setPhase_chan s q rq Committed (setEntries _ (im s)) (wire s) (i_chan _ HI) _ _ _ _ _); try done.
    intros tag ch (e' & H & Hd). cbn in H.
    rewrite lookup_insert in H. case_decide as Et; [|by exists e'].
    injection H as <-. exists e. by subst tag.
  - rewrite map_size_insert_Some by (by eexists). apply HI.
Qed.

(** A live request writes its response and keeps its entry. *)
Lemma response_Inv s q rq p' :
  Inv s -> reqs s !! q = Some rq -> live (qphase rq) = true -> past (qphase rq) = false ->
  past p' = true -> (forall c, owner c (qphase rq) = true -> owner c p' = true) ->
  (forall ch, p' <> Closing ch) ->
  Inv (mkSys (im s) (setPhase q rq p' s) (flushes s) (wire s ++ [Response q])).
Proof.
  intros HI Hq Hl Hnp Hp' Ho Hnc. destruct (i_live _ HI q rq Hq Hl) as (e & He & Hr).
  pose proof (own_entry s q rq e HI Hq (live_holds _ Hl) He Hr) as Hown.
  apply advance_Inv; try done; try apply HI; eauto using live_holds.
  - by intros ->.
  - intros e' He'. assert (e' = e) as -> by congruence. auto.
  - eapply setPhase_chan; try done; apply HI.
Qed.

Lemma close_Inv s q rq ch :
  Inv s -> reqs s !! q = Some rq -> qphase rq = Closing ch ->
  Inv (mkSys (closeOpt ch (im s)) (setPhase q rq Finished s) (flushes s) (wire s)).
Proof.
  intros HI Hq Hp.
  assert (entries (closeOpt ch (im s)) = entries (im s) /\ count (closeOpt ch (im s)) = count (im s) /\
    drained (closeOpt ch (im s)) = drained (im s)) as (Ee & Ec & Ed) by by destruct ch.
  apply advance_Inv; rewrite ?Ee, ?Ec, ?Ed; try done; try apply HI; try (by rewrite Hp);
    try (by intros [?|?]); try (by left).
  - intros e' He'. destruct (decide (rctx e' = qctx rq)) as [Hr|]; [|by right].
    pose proof (own_entry s q rq e' HI Hq) as Ho. rewrite Hp in Ho. specialize (Ho eq_refl He' Hr).
    done.
  - destruct ch as [ch|].
    + cbn [closeOpt closeChan chans closed]. eapply (ChanOk_close _ _ _ _ (PClosing q)); [apply HI|by exists rq|].
      intros [t|q'|] c; cbn; try done.
      intros (r & [[-> ->]|[Hne H]]%lookup_setPhase & Hc); [done|]. split; [eauto|congruence].
    + eapply setPhase_chan; try done; apply HI.
  - destruct ch as [ch|]; cbn; [|apply HI]. rewrite (i_panic _ HI). cbn.
    apply bool_decide_eq_false_2. apply (ch_open _ _ _ (i_chan _ HI) (PClosing q)). by exists rq.
Qed.

(** *** Requests that arrive *)

Lemma recv_Inv s q tag :
  Inv s -> reqs s !! q = None ->
  (forall q' rq, reqs s !! q' = Some rq -> qtag rq = tag -> seen s q') ->
  Inv (mkSys (im s) (<[q := mkReq tag 0%nat Received]> (reqs s)) (flushes s) (wire s)).
Proof.
  intros HI Hq Hseen.
  assert (forall q' r, reqs s !! q' = Some r ->
    <[q := mkReq tag 0%nat Received]> (reqs s) !! q' = Some r) as Hmono.
  { intros q' r H. rewrite lookup_insert_ne; [done|]. intros <-. congruence. }
  assert (forall q' r, <[q := mkReq tag 0%nat Received]> (reqs s) !! q' = Some r ->
    (q' = q /\ r = mkReq tag 0%nat Received) \/ reqs s !! q' = Some r) as Hinv.
  { intros q' r. rewrite lookup_insert. case_decide; [intros [= <-]; by left|by right]. }
  split; cbn [im reqs flushes wire]; try apply HI.
  - intros t e He. destruct (i_entry _ HI t e He) as (q' & p & H & Hp). eauto.
  - intros q' r [[-> ->]|H]%Hinv; [done|]. by apply (i_live _ HI q').
  - intros q1 q2 r1 r2 [[-> ->]|H1]%Hinv [[-> ->]|H2]%Hinv; try done. by apply (i_ctx _ HI).
  - assert (forall q' r, reqs s !! q' = Some r -> qtag r = tag -> past (qphase r) = true) as Hpast.
    { intros q' r H Ht. destruct (seen_past s q' HI (Hseen q' r H Ht)) as (r' & H' & Hp). congruence. }
    intros q1 q2 r1 r2 [[-> ->]|H1]%Hinv [[-> ->]|H2]%Hinv; cbn; try done.
    + intros E _. by rewrite (Hpast q2 r2 H2).
    + intros E. by rewrite (Hpast q1 r1 H1).
    + by apply (i_tag _ HI).
  - eapply ChanOk_sub; [apply HI|]. intros [t|q'|] c; cbn; try done.
    by intros (r & [[-> ->]|H]%Hinv & Hc); [|eauto].
  - intros q' H. destruct (i_resp _ HI q' H) as (r & Hr & Hp). eauto.
  - intros f fl q' Hf Ha. destruct (i_flush _ HI f fl q' Hf Ha) as (r & Hr & H). eauto.
Qed.
(** The owner of a committed entry that a newly read request with the same
    tag finds has written its response. *)
Lemma entry_past s q rq e :
  Inv s -> reqs s !! q = Some rq -> qphase rq = Received -> entries (im s) !! qtag rq = Some e ->
  forall q' r, reqs s !! q' = Some r -> holds (qphase r) = true -> qctx r = rctx e ->
    qphase r = (if committed e then Written else Recovered).
Proof.
  intros HI Hq Hp He. destruct (i_entry _ HI _ _ He) as (q0 & p & H0 & Hp0).
  intros q' r Hr Hh Hc. assert (q' = q0) as ->.
  { apply (i_ctx _ HI q' q0 _ _ Hr H0); [done|by eapply owner_holds|done]. }
  assert (past p = true) as Hpast.
  { destruct (past p) eqn:E; [done|]. assert (q0 = q) as ->.
    { by apply (i_tag _ HI q0 q _ _ H0 Hq); [..|rewrite Hp]. }
    assert (p = Received) as -> by (rewrite Hq in H0; injection H0 as H0; by rewrite H0 in Hp). done. }
  assert (r = mkReq (qtag rq) (rctx e) p) as -> by congruence. cbn.
  by destruct p, (committed e).
Qed.

(** A request is taken for a duplicate only while another with its tag is
    between the response and the [finish] of a handler panic. *)
Lemma start_false s q rq r m' :
  Inv s -> reqs s !! q = Some rq -> qphase rq = Received -> start (qtag rq) r (im s) = (false, m') ->
  exists q' r', reqs s !! q' = Some r' /\ qtag r' = qtag rq /\ qphase r' = Recovered.
Proof.
  intros HI Hq Hp. unfold start. destruct (entries (im s) !! qtag rq) as [e|] eqn:He; [|done].
  destruct (i_entry _ HI _ _ He) as (q' & p & H' & Ho).
  pose proof (entry_past s q rq e HI Hq Hp He q' _ H' (owner_holds _ _ Ho) eq_refl) as Hp'. cbn in Hp'.
  destruct (committed e); [done|]. intros _. by exists q', (mkReq (qtag rq) (rctx e) p).
Qed.

(** What [start] does to a map whose entry for the tag, if any, is committed. *)
Lemma start_spec tag r m m' :
  start tag r m = (true, m') ->
  (forall e, entries m !! tag = Some e -> committed e = true) /\
  entries m' = <[tag := mkEntry r None false]> (entries m) /\
  chans m' = chans m /\ drained m' = drained m /\
  match entries m !! tag ≫= done with
  | Some ch => closed m' = {[ch]} ∪ closed m /\ panicked m' = panicked m || bool_decide (ch ∈ closed m)
  | None => closed m' = closed m /\ panicked m' = panicked m
  end /\
  (count m = Z.of_nat (size (entries m)) ->
   count m' = Z.of_nat (size (entries m')) /\ count m <= count m').
Proof.
  unfold start. destruct (entries m !! tag) as [e|] eqn:He; cbn.
  - destruct (committed e) eqn:Hc; cbn; [|done]. intros [= <-].
    destruct (done e); cbn; (repeat split; try done; try lia; try congruence);
      rewrite map_size_insert_Some by (by eexists); lia.
  - intros [= <-]. cbn. repeat split; try done; rewrite ?map_size_insert_None by done; lia.
Qed.

Lemma start_chan s q rq r m' fs w :
  Inv s -> reqs s !! q = Some rq -> start (qtag rq) r (im s) = (true, m') ->
  ChanOk (at_place (mkSys m' (<[q := mkReq (qtag rq) r Running]> (reqs s)) fs w)) (chans m') (closed m') /\
  panicked m' = false.
Proof.
  intros HI Hq (_ & Ee & -> & Ed & Hc & _)%start_spec. set (s' := mkSys _ _ _ _).
  assert (forall z c, at_place s' z c -> at_place s z c /\ z <> PEntry (qtag rq)) as HP.
  { intros [t|q'|] c; cbn; rewrite ?Ee, ?Ed; [| |done].
    - intros (e & H & Hd). apply lookup_insert_Some in H as [[<- <-]|[Hne H]]; [done|].
      split; [eauto|congruence].
    - intros (r' & H & Hp). apply lookup_insert_Some in H as [[<- <-]|[Hne H]]; [done|]. split; [eauto|done]. }
  destruct (entries (im s) !! qtag rq) as [e|] eqn:He; cbn in Hc.
  2:{ destruct Hc as [-> ->]. split; [|apply HI]. eapply ChanOk_sub; [apply HI|]. intros z c H. by apply HP. }
  destruct (done e) as [ch|] eqn:Hd; destruct Hc as [-> ->].
  - assert (at_place s (PEntry (qtag rq)) ch) as Hat by by exists e. split.
    + by eapply ChanOk_close; [apply HI|exact Hat|].
    + rewrite (i_panic _ HI). apply bool_decide_eq_false_2. by apply (ch_open _ _ _ (i_chan _ HI) _ _ Hat).
  - split; [|apply HI]. eapply ChanOk_sub; [apply HI|]. intros z c H. by apply HP.
Qed.

Lemma start_flush s q rq r m' f fl q0 :
  Inv s -> reqs s !! q = Some rq -> qphase rq = Received ->
  (forall e, entries (im s) !! qtag rq = Some e -> committed e = true) ->
  entries m' = <[qtag rq := mkEntry r None false]> (entries (im s)) ->
  flushes s !! f = Some fl -> aim fl = Some q0 ->
  exists r0, <[q := mkReq (qtag rq) r Running]> (reqs s) !! q0 = Some r0 /\
    (past (qphase r0) = true \/
     exists ch e, fph fl = Waiting ch /\ qphase r0 <> Received /\
       entries m' !! qtag r0 = Some e /\ rctx e = qctx r0 /\ done e = Some ch).
Proof.
  intros HI Hq Hp Hcom Ee Hf Ha. destruct (i_flush _ HI f fl q0 Hf Ha) as (r0 & H0 & H).
  assert (q0 <> q) as Hne.
  { intros ->. assert (r0 = rq) as -> by congruence. rewrite Hp in H.
    destruct H as [H|(ch & e & _ & H & _)]; done. }
  exists r0. rewrite lookup_insert_ne by done. split; [done|].
  destruct H as [H|(ch & e & Hw & Hn & He & Hc & Hd)]; [by left|].
  destruct (decide (qtag r0 = qtag rq)) as [Ht|Ht].
  - left. rewrite Ht in He. destruct (past (qphase r0)) eqn:E; [done|].
    assert (qphase r0 = if committed e then Written else Recovered) as H; [|by destruct (committed e); rewrite H in E].
    apply (entry_past s q rq e HI Hq Hp He q0 r0 H0); [|done]. by destruct (qphase r0).
  - right. exists ch, e. by rewrite Ee, lookup_insert_ne.
Qed.

Lemma start_Inv s q rq r m' :
  Inv s -> reqs s !! q = Some rq -> qphase rq = Received ->
  (forall q' rq', reqs s !! q' = Some rq' -> holds (qphase rq') = true -> qctx rq' <> r) ->
  start (qtag rq) r (im s) = (true, m') ->
  Inv (mkSys m' (<[q := mkReq (qtag rq) r Running]> (reqs s)) (flushes s) (wire s)).
Proof.
  intros HI Hq Hp Hfresh Hs. destruct (start_chan s q rq r m' (flushes s) (wire s) HI Hq Hs) as [Hok Hpa].
  destruct (start_spec _ _ _ _ Hs) as (Hcom & Ee & _ & Ed & _ & Hcount).
  destruct (Hcount (i_count _ HI)) as [Hc Hle].
  split; cbn [im reqs flushes wire]; try done; try apply HI.
  - intros t e. rewrite Ee. intros [[<- <-]|[Hne He]]%lookup_insert_Some.
    + exists q, Running. by rewrite lookup_insert_eq.
    + destruct (i_entry _ HI t e He) as (q0 & p & H0 & Hp0). exists q0, p.
      rewrite lookup_insert_ne; [done|]. intros <-. rewrite Hq in H0. injection H0 as H0. by rewrite H0 in Hne.
  - intros q0 r0 [[<- <-]|[Hne H0]]%lookup_insert_Some Hp0; cbn.
    + eexists. by rewrite Ee, lookup_insert_eq.
    + rewrite Ee, lookup_insert_ne; [by apply (i_live _ HI q0)|]. intros Ht. exfalso.
      destruct (i_live _ HI q0 r0 H0 Hp0) as (e & He & Hr). rewrite <- Ht in He.
      apply live_holds in Hp0 as Hh.
      pose proof (entry_past s q rq e HI Hq Hp He q0 r0 H0 Hh (eq_sym Hr)) as Hw.
      rewrite (Hcom e He) in Hw. by rewrite Hw in Hp0.
  - intros q1 q2 r1 r2 [[<- <-]|[N1 H1]]%lookup_insert_Some [[<- <-]|[N2 H2]]%lookup_insert_Some; cbn;
      intros A1 A2 E; [done|..|by eapply (i_ctx _ HI)]; exfalso; by eapply Hfresh.
  - assert (past (qphase rq) = false) as Hnp by by rewrite Hp.
    intros q1 q2 r1 r2 [[<- <-]|[N1 H1]]%lookup_insert_Some [[<- <-]|[N2 H2]]%lookup_insert_Some; cbn;
      intros E A1 A2; [done|..]; by eapply (i_tag _ HI).
  - intros d. rewrite Ed. intros H. pose proof (i_drain _ HI d H). lia.
  - intros q0 H. destruct (i_resp _ HI q0 H) as (r0 & Hr & Hp0). exists r0.
    rewrite lookup_insert_ne; [done|]. intros <-. assert (r0 = rq) as -> by congruence. by rewrite Hp in Hp0.
  - intros f fl q0. by apply start_flush.
Qed.
(** *** Flushes *)

(** A step that changes only flush goroutines and the lazily made channels. *)
Lemma flush_only_Inv s m' fs w :
  Inv s ->
  (forall t e', entries m' !! t = Some e' ->
     exists e, entries (im s) !! t = Some e /\ rctx e = rctx e' /\ committed e = committed e') ->
  (forall t e, entries (im s) !! t = Some e -> exists e', entries m' !! t = Some e' /\ rctx e' = rctx e) ->
  ChanOk (at_place (mkSys m' (reqs s) fs w)) (chans m') (closed m') ->
  count m' = Z.of_nat (size (entries m')) ->
  (forall d, drained m' = Some d -> 0 < count m') -> panicked m' = false ->
  (forall q, Response q ∈ w -> Response q ∈ wire s) ->
  (forall f, Rflush f ∈ w -> exists fl, fs !! f = Some fl /\ fph fl = Answered) ->
  (forall f fl q, fs !! f = Some fl -> aim fl = Some q ->
     exists rq, reqs s !! q = Some rq /\
      (past (qphase rq) = true \/
       exists ch e, fph fl = Waiting ch /\ qphase rq <> Received /\
         entries m' !! qtag rq = Some e /\ rctx e = qctx rq /\ done e = Some ch)) ->
  (forall w1 w2 f fl q, w = w1 ++ Rflush f :: w2 -> fs !! f = Some fl -> aim fl = Some q -> Response q ∉ w2) ->
  Inv (mkSys m' (reqs s) fs w).
Proof.
  intros HI He1 He2 Hok Hc Hd Hp Hr Hrf Hfl Ho. split; cbn [im reqs flushes wire]; try done; try apply HI.
  - intros t e' He'. destruct (He1 t e' He') as (e & He & <- & <-). by apply (i_entry _ HI).
  - intros q rq Hq Hph. destruct (i_live _ HI q rq Hq Hph) as (e & He & <-). by apply He2.
  - intros q Hq%Hr. by apply (i_resp _ HI).
Qed.

Lemma flushWait_spec tag m res m' :
  flushWait tag m = (res, m') ->
  count m' = count m /\ drained m' = drained m /\ closed m' = closed m /\ panicked m' = panicked m /\
  match entries m !! tag with
  | None => res = None /\ m' = m
  | Some e => exists ch, res = Some (ch, rctx e) /\
      ((done e = Some ch /\ m' = m) \/
       (done e = None /\ ch = chans m /\ chans m' = S (chans m) /\
        entries m' = <[tag := mkEntry (rctx e) (Some ch) (committed e)]> (entries m)))
  end.
Proof.
  unfold flushWait. destruct (entries m !! tag) as [e|]; [|by intros [= <- <-]].
  destruct (done e) as [ch|] eqn:Hd; cbn; intros [= <- <-]; cbn; repeat split; try done; eexists;
    (split; [done|]); [by left|by right].
Qed.

(** The entries keep their owners, and [tag]'s has the returned channel. *)
Lemma flushWait_entries tag m res m' :
  flushWait tag m = (res, m') ->
  (forall t e', entries m' !! t = Some e' -> exists e, entries m !! t = Some e /\
     rctx e = rctx e' /\ committed e = committed e' /\ forall c, done e = Some c -> done e' = Some c) /\
  (forall t e, entries m !! t = Some e -> exists e', entries m' !! t = Some e' /\
     rctx e' = rctx e /\ (forall c, done e = Some c -> done e' = Some c) /\
     (t = tag -> exists ch, res = Some (ch, rctx e) /\ done e' = Some ch)) /\
  size (entries m') = size (entries m).
Proof.
  intros (_ & _ & _ & _ & H)%flushWait_spec.
  destruct (entries m !! tag) as [e0|] eqn:He0.
  2:{ destruct H as [-> ->]. split; [eauto 10|]. split; [|done].
      intros t e He. exists e. repeat split; try done. intros ->. congruence. }
  destruct H as (ch & -> & [[Hd ->]|(Hd & _ & _ & Ee)]).
  - split; [eauto 10|]. split; [|done]. intros t e He. exists e. repeat split; try done.
    intros ->. assert (e = e0) as -> by congruence. eauto.
  - rewrite Ee. split; [|split; [|rewrite map_size_insert_Some by (by eexists); done]].
    + intros t e' [[<- <-]|[Hne H]]%lookup_insert_Some; [exists e0; repeat split; try done; congruence|eauto 10].
    + intros t e He. destruct (decide (t = tag)) as [->|Hne].
      * assert (e = e0) as -> by congruence. eexists. rewrite lookup_insert_eq.
        split; [done|]. cbn. split; [done|]. split; [congruence|eauto].
      * exists e. rewrite lookup_insert_ne by done. done.
Qed.

Lemma flushWait_chan s tag res m' fs w :
  Inv s -> flushWait tag (im s) = (res, m') ->
  ChanOk (at_place (mkSys m' (reqs s) fs w)) (chans m') (closed m').
Proof.
  intros HI (_ & Ed & -> & _ & H)%flushWait_spec.
  destruct (entries (im s) !! tag) as [e0|] eqn:He0; [|by destruct H as [-> ->]; apply HI].
  destruct H as (ch & -> & [[Hd ->]|(Hd & -> & -> & Ee)]); [apply HI|].
  eapply (ChanOk_make _ _ _ _ (PEntry tag)); [apply HI|]. intros [t|q|] c; cbn; [|by right|rewrite Ed; by right].
  rewrite Ee. intros (e & [[<- <-]|[Hne H]]%lookup_insert_Some & Hc); [|right; eauto].
  cbn in Hc. injection Hc as <-. by left.
Qed.

Lemma flush_Inv s f tag a res m' :
  Inv s -> flushes s !! f = None -> aims s tag a ->
  (forall q rq, reqs s !! q = Some rq -> qtag rq = tag -> qphase rq <> Received) ->
  flushWait tag (im s) = (res, m') ->
  Inv (mkSys m' (reqs s)
        (<[f := mkFlush a (match res with Some (ch, _) => Waiting ch | None => Ready end)]> (flushes s)) (wire s)).
Proof.
  intros HI Hf Ha Hrecv Hw.
  destruct (flushWait_entries _ _ _ _ Hw) as (He1 & He2 & Hsz).
  destruct (flushWait_spec _ _ _ _ Hw) as (Ec & Ed & _ & Ep & _).
  assert (Rflush f ∉ wire s) as Hnf.
  { intros H. destruct (i_rfl _ HI f H) as (fl & H' & _). congruence. }
  apply flush_only_Inv; try done.
  - intros t e' H. destruct (He1 t e' H) as (e & ? & ? & ? & _). eauto.
  - intros t e H. destruct (He2 t e H) as (e' & ? & ? & _). eauto.
  - by eapply flushWait_chan.
  - rewrite Ec, Hsz. apply HI.
  - intros d. rewrite Ec, Ed. apply HI.
  - rewrite Ep. apply HI.
  - intros f' H. destruct (i_rfl _ HI f' H) as (fl & H' & Hp). exists fl.
    rewrite lookup_insert_ne; [done|]. by intros <-.
  - intros f' fl q [[<- <-]|[Hne H]]%lookup_insert_Some; cbn [aim fph]; intros Hq.
    + subst a. destruct Ha as [(rq & Hq & Ht) _]. exists rq. split; [done|].
      destruct (past (qphase rq)) eqn:Hp; [by left|]. right.
      destruct (i_live _ HI q rq Hq) as (e & He & Hr).
      { specialize (Hrecv q rq Hq Ht). by destruct (qphase rq). }
      destruct (He2 _ _ He) as (e' & He' & Hr' & _ & Hch).
      destruct (Hch Ht) as (ch & -> & Hd). exists ch, e'. repeat split; try done; [|congruence].
      by apply Hrecv with q.
    + destruct (i_flush _ HI f' fl q H Hq) as (rq & Hrq & [Hp|(ch & e & Hw' & Hn & He & Hr & Hd)]); [eauto|].
      exists rq. split; [done|]. right. destruct (He2 _ _ He) as (e' & He' & Hr' & Hd' & _).
      exists ch, e'. repeat split; try done; [congruence|by apply Hd'].
  - intros w1 w2 f' fl q E H. apply (i_order _ HI w1 w2 f' fl q E).
    rewrite lookup_insert_ne in H; [done|]. intros <-. apply Hnf. rewrite E. apply elem_of_app. right. by left.
Qed.

(** A flush that is no longer waiting: the request it aims at is past. *)
Lemma released_past s f fl q :
  Inv s -> flushes s !! f = Some fl -> aim fl = Some q ->
  (forall ch, fph fl = Waiting ch -> ch ∈ closed (im s)) ->
  exists rq, reqs s !! q = Some rq /\ past (qphase rq) = true.
Proof.
  intros HI Hf Ha Hc. destruct (i_flush _ HI f fl q Hf Ha) as (rq & Hq & [Hp|(ch & e & Hw & _ & He & _ & Hd)]).
  - eauto.
  - destruct (ch_open _ _ _ (i_chan _ HI) (PEntry (qtag rq)) ch) as [_ []]; [by exists e|]. by apply Hc.
Qed.

Lemma release_Inv s f fl p w :
  Inv s -> flushes s !! f = Some fl -> (forall ch, fph fl = Waiting ch -> ch ∈ closed (im s)) ->
  (p = Ready /\ w = wire s /\ fph fl <> Answered) \/ (p = Answered /\ w = wire s ++ [Rflush f]) ->
  Inv (mkSys (im s) (reqs s) (<[f := mkFlush (aim fl) p]> (flushes s)) w).
Proof.
  intros HI Hf Hc Hw.
  assert (forall f' fl', <[f := mkFlush (aim fl) p]> (flushes s) !! f' = Some fl' ->
    exists fl0, flushes s !! f' = Some fl0 /\ aim fl0 = aim fl') as Haim.
  { intros f' fl' [[<- <-]|[Hne H]]%lookup_insert_Some; eauto. }
  apply flush_only_Inv; try done; try apply HI.
  - eauto.
  - eauto.
  - intros q H. destruct Hw as [(_ & -> & _)|(_ & ->)]; [done|].
    apply elem_of_app in H as [H|H]; [done|]. by apply list_elem_of_singleton in H.
  - intros f' H. destruct (decide (f' = f)) as [->|Hne].
    + eexists. rewrite lookup_insert_eq. split; [done|]. cbn.
      destruct Hw as [(-> & -> & Hn)|(-> & _)]; [|done].
      destruct (i_rfl _ HI f H) as (fl0 & H0 & Hp0). congruence.
    + rewrite lookup_insert_ne by done. apply (i_rfl _ HI).
      destruct Hw as [(_ & -> & _)|(_ & ->)]; [done|].
      apply elem_of_app in H as [H|H]; [done|]. apply list_elem_of_singleton in H. congruence.
  - intros f' fl' q [[<- <-]|[Hne H]]%lookup_insert_Some; cbn; [|by apply (i_flush _ HI f' fl')].
    intros Ha. destruct (released_past s f fl q HI Hf Ha Hc) as (rq & Hq & Hp). eauto.
  - intros w1 w2 f' fl' q E (fl0 & H0 & Ea)%Haim Hq. rewrite <- Ea in Hq.
    destruct Hw as [(_ & -> & _)|(_ & ->)]; [by apply (i_order _ HI w1 w2 f' fl0)|].
    destruct w2 as [|ev w2 _] using rev_ind; [apply not_elem_of_nil|].
    rewrite app_comm_cons, app_assoc in E. apply app_inj_tail in E as [E <-].
    rewrite elem_of_app, list_elem_of_singleton. intros [H|[=]].
    by apply (i_order _ HI w1 w2 f' fl0 q E H0 Hq).
Qed.

Lemma drain_Inv s d m' :
  Inv s -> drainChan (im s) = (d, m') -> Inv (mkSys m' (reqs s) (flushes s) (wire s)).
Proof.
  intros HI E. destruct s as [m rs fs w]. cbn [im reqs flushes wire] in *. unfold drainChan in E.
  destruct (Z.eqb_spec (count m) 0) as [Hz|Hz]; [by injection E as <- <-|].
  destruct (drained m) as [d0|] eqn:Hd; [by injection E as <- <-|]. cbn in E. injection E as <- <-.
  apply (flush_only_Inv (mkSys m rs fs w)); cbn; try done; try apply HI; [eauto|eauto|..].
  - eapply (ChanOk_make _ _ _ _ PDrain); [apply HI|]. intros [t|q|] c; cbn; [by right..|].
    intros [= <-]. by left.
  - intros _ _. pose proof (i_count _ HI) as Hc. cbn in Hc. lia.
Qed.

Lemma inflight_step_Inv s s' : Inv s -> step false s s' -> Inv s'.
Proof.
  intros HI H. destruct H; eauto using recv_Inv, start_Inv, commit_Inv, complete_Inv, remove_Inv,
    close_Inv, drain_Inv.
  - apply response_Inv; rewrite ?H0; try done; by intros [].
  - apply response_Inv; rewrite ?H0; try done; by intros [].
  - eapply flush_Inv; try done. destruct H1 as [[=]|H1]. done.
  - eapply release_Inv; try done; [congruence|]. left. repeat split; congruence.
  - eapply release_Inv; try done; [congruence|]. by right.
Qed.

Lemma inflight_reachable_Inv s : reachable false s -> Inv s.
Proof. apply Reachable_invariant; [apply inflight_init_Inv|]. intros s1 s2 _. apply inflight_step_Inv. Qed.
(** ** Channels are never lost *)

(** What the drain waiters and the flush goroutines wait on: [d] is still the
    drain channel or was closed, a done channel is in an entry or in the hands
    of a goroutine that will close it. *)
Definition drainKept (d : Chan) (m : inflightMap) : Prop := drained m = Some d \/ d ∈ closed m.

Lemma closeOpt_closed ch m x : x ∈ closed m -> x ∈ closed (closeOpt ch m).
Proof. destruct ch; cbn; set_solver. Qed.

Lemma without_kept d tag m : drainKept d m -> drainKept d (without tag m).
Proof.
  unfold drainKept, without, decCount. cbn. case_match; [|done]. cbn. destruct (drained m); cbn; set_solver.
Qed.

Lemma drain_step racy s s' d : step racy s s' -> drainKept d (im s) -> drainKept d (im s').
Proof.
  intros [] Hd; cbn [im]; try done.
  - apply start_spec in H2 as (_ & _ & _ & Ed & Hc & _). unfold drainKept in *. rewrite Ed.
    destruct (entries (im s0) !! qtag rq ≫= done); destruct Hc as [-> _]; set_solver.
  - unfold completeCommit in H1. destruct (entries (im s0) !! qtag rq); [case_decide|];
      injection H1 as <- <-; [by apply without_kept|done..].
  - injection H1 as <- <-. by apply without_kept.
  - destruct ch; cbn; unfold drainKept in *; cbn; set_solver.
  - apply flushWait_spec in H2 as (_ & Ed & Ec & _). unfold drainKept. by rewrite Ed, Ec.
  - unfold drainChan in H. destruct (count (im s0) =? 0); [by injection H as <- <-|].
    destruct (drained (im s0)) eqn:E; cbn in H; injection H as <- <-; [done|].
    destruct Hd as [Hd|Hd]; [congruence|by right].
Qed.

Definition doneKept (s : Sys) (ch : Chan) : Prop :=
  ch ∈ closed (im s) \/ (exists t, at_place s (PEntry t) ch) \/ exists q, at_place s (PClosing q) ch.

Lemma doneKept_mono s s' ch :
  doneKept s ch -> closed (im s) ⊆ closed (im s') ->
  (forall t, at_place s (PEntry t) ch -> doneKept s' ch) ->
  (forall q, at_place s (PClosing q) ch -> doneKept s' ch) -> doneKept s' ch.
Proof. intros [H|[[t H]|[q H]]] Hc He Hq; [left; by apply Hc|by eapply He|by eapply Hq]. Qed.

(** A phase change of a goroutine that holds no channel keeps the others'. *)
Lemma closing_kept s q rq p m fs w q' ch :
  reqs s !! q = Some rq -> (forall c, qphase rq <> Closing c) ->
  at_place s (PClosing q') ch -> doneKept (mkSys m (setPhase q rq p s) fs w) ch.
Proof.
  intros Hq Hnc (r & Hr & Hp). right; right. exists q', r. split; [|done].
  cbn. rewrite setPhase_other; [done|]. intros ->. assert (r = rq) as -> by congruence. by eapply Hnc.
Qed.

Lemma without_step_kept s q rq ch :
  reqs s !! q = Some rq -> (forall c, qphase rq <> Closing c) -> doneKept s ch ->
  doneKept (mkSys (without (qtag rq) (im s))
    (setPhase q rq (Closing (entries (im s) !! qtag rq ≫= done)) s) (flushes s) (wire s)) ch.
Proof.
  intros Hq Hnc Hk. apply (doneKept_mono s); [done| | |].
  - cbn. destruct (without_closed (qtag rq) (im s)) as [[-> _]|(d & _ & _ & -> & _)]; set_solver.
  - intros t (e & He & Hd). destruct (decide (t = qtag rq)) as [->|Hne].
    + right; right. exists q. eexists. cbn. rewrite setPhase_same. split; [done|]. cbn. rewrite He. cbn. by rewrite Hd.
    + right; left. exists t, e. cbn. by rewrite without_entries, lookup_delete_ne.
  - intros q'. by apply closing_kept.
Qed.

(** A phase change with the map untouched. *)
Lemma phase_kept s q rq p w ch :
  reqs s !! q = Some rq -> (forall c, qphase rq <> Closing c) -> doneKept s ch ->
  doneKept (mkSys (im s) (setPhase q rq p s) (flushes s) w) ch.
Proof.
  intros Hq Hnc Hk. apply (doneKept_mono s); [done..| |].
  - intros t Hx. right; left. by exists t.
  - intros q'. by apply closing_kept.
Qed.

Lemma commit_kept s q rq ch :
  reqs s !! q = Some rq -> (forall c, qphase rq <> Closing c) -> doneKept s ch ->
  doneKept (mkSys (commit (qtag rq) (im s)) (setPhase q rq Committed s) (flushes s) (wire s)) ch.
Proof.
  intros Hq Hnc Hk. apply (doneKept_mono s); [done..| |].
  - intros t (e & He & Hd). right; left. cbn. destruct (decide (t = qtag rq)) as [->|Hne].
    + exists (qtag rq). eexists. cbn. by rewrite lookup_insert_eq, He.
    + exists t, e. cbn. by rewrite lookup_insert_ne.
  - intros q'. by apply closing_kept.
Qed.

Lemma start_kept s q rq r m' ch :
  reqs s !! q = Some rq -> qphase rq = Received -> start (qtag rq) r (im s) = (true, m') ->
  doneKept s ch ->
  doneKept (mkSys m' (<[q := mkReq (qtag rq) r Running]> (reqs s)) (flushes s) (wire s)) ch.
Proof.
  intros Hq Hp (_ & Ee & _ & _ & Hc & _)%start_spec Hk. apply (doneKept_mono s); [done| | |]; cbn [im].
  - destruct (entries (im s) !! qtag rq ≫= done); destruct Hc as [-> _]; set_solver.
  - intros t (e & He & Hd). destruct (decide (t = qtag rq)) as [->|Hne].
    + left. rewrite He in Hc. cbn in Hc. rewrite Hd in Hc. destruct Hc as [Hc _]. cbn. rewrite Hc. set_solver.
    + right; left. exists t, e. cbn. by rewrite Ee, lookup_insert_ne.
  - intros q' (r0 & Hr & Hd). right; right. exists q', r0. split; [|done].
    cbn. rewrite lookup_insert_ne; [done|]. intros <-. congruence.
Qed.

Lemma close_kept s q rq c ch :
  reqs s !! q = Some rq -> qphase rq = Closing c -> doneKept s ch ->
  doneKept (mkSys (closeOpt c (im s)) (setPhase q rq Finished s) (flushes s) (wire s)) ch.
Proof.
  intros Hq Hp Hk. apply (doneKept_mono s); [done| | |]; cbn [im].
  - intros x. by apply closeOpt_closed.
  - intros t Hx. right; left. exists t. cbn. by destruct c.
  - intros q' (r & Hr & Hd). destruct (decide (q' = q)) as [->|Hne].
    + left. assert (c = Some ch) as -> by congruence. cbn. set_solver.
    + right; right. exists q', r. split; [|done]. cbn. by rewrite setPhase_other.
Qed.

Lemma flushWait_kept s tag res m' fs w ch :
  flushWait tag (im s) = (res, m') -> doneKept s ch -> doneKept (mkSys m' (reqs s) fs w) ch.
Proof.
  intros Hw Hk. destruct (flushWait_spec _ _ _ _ Hw) as (_ & _ & Ec & _).
  destruct (flushWait_entries _ _ _ _ Hw) as (_ & He2 & _).
  apply (doneKept_mono s); [done|by cbn; rewrite Ec| |].
  - intros t (e & He & Hd). destruct (He2 _ _ He) as (e' & He' & _ & Hd' & _).
    right; left. exists t, e'. split; [done|by apply Hd'].
  - intros q Hx. right; right. by exists q.
Qed.

Lemma done_step racy s s' ch : step racy s s' -> doneKept s ch -> doneKept s' ch.
Proof.
  intros Hs Hk. destruct Hs as [s q tag Hq _|s q rq r m' Hq Hp _ Hst|s q rq Hq Hp|s q rq Hq Hp
    |s q rq c m' Hq Hp Hc|s q rq Hq Hp|s q rq c m' Hq Hp Hc|s q rq c Hq Hp|s f tag a res m' _ _ _ Hw
    |s f fl c _ _ _|s f fl _ _|s d m' Hd].
  - destruct Hk as [H|[H|[q' (r & Hr & Hd)]]]; [by left|by right; left|].
    right; right. exists q', r. split; [|done]. cbn. rewrite lookup_insert_ne; [done|congruence].
  - by eapply start_kept.
  - apply commit_kept; congruence.
  - apply phase_kept; congruence.
  - unfold completeCommit in Hc. destruct (entries (im s) !! qtag rq) as [e|] eqn:He; [case_decide|].
    + injection Hc as <- <-. pose proof (without_step_kept s q rq ch Hq) as H'. rewrite He in H'.
      apply H'; congruence.
    + injection Hc as <- <-. apply phase_kept; congruence.
    + injection Hc as <- <-. apply phase_kept; congruence.
  - apply phase_kept; congruence.
  - injection Hc as <- <-. apply without_step_kept; [done| |done]. intros c. by destruct Hp as [-> | ->].
  - by apply close_kept.
  - by eapply flushWait_kept.
  - exact Hk.
  - exact Hk.
  - unfold drainChan in Hd. destruct (count (im s) =? 0); [by injection Hd as <- <-; destruct s|].
    destruct (drained (im s)); injection Hd as <- <-; [by destruct s|exact Hk].
Qed.

(** A flush goroutine waits on a kept channel. *)
Lemma waiting_kept racy s : reachable racy s -> forall f fl ch,
  flushes s !! f = Some fl -> fph fl = Waiting ch -> doneKept s ch.
Proof.
  revert s. refine (Reachable_invariant init (step racy) (fun s => forall f fl ch,
    flushes s !! f = Some fl -> fph fl = Waiting ch -> doneKept s ch) _ _); [|intros s s' _ IH Hs].
  { intros f fl ch H _. cbn in H. by apply lookup_empty_Some in H. }
  intros f fl ch Hf Hw. assert (Hd := done_step racy s s' ch Hs).
  destruct Hs as [| | | | | | | |s f' tag a res m' _ _ _ Hfw|s f' fl' c _ _ _|s f' fl' _ _|]; eauto; cbn in Hf.
  - apply lookup_insert_Some in Hf as [[<- <-]|[_ Hf]]; [|eauto]. cbn in Hw.
    destruct (flushWait_entries _ _ _ _ Hfw) as (_ & He2 & _). apply flushWait_spec in Hfw as (_ & _ & _ & _ & H).
    destruct (entries (im s) !! tag) as [e|] eqn:He; [|by destruct H as [-> _]].
    destruct (He2 _ _ He) as (e' & He' & _ & _ & Hch). destruct (Hch eq_refl) as (ch' & -> & Hd').
    injection Hw as ->. right; left. by exists tag, e'.
  - apply lookup_insert_Some in Hf as [[<- <-]|[_ Hf]]; [done|eauto].
  - apply lookup_insert_Some in Hf as [[<- <-]|[_ Hf]]; [done|eauto].
Qed.
(** ** An executable form of the steps, to compute the outcome of a schedule *)

#[export] Instance event_eq_dec : EqDecision event.
Proof. solve_decision. Defined.
#[export] Instance phase_eq_dec : EqDecision phase.
Proof. solve_decision. Defined.

Inductive Label : Type :=
  | LRecv (q : nat) (tag : Tag)
  | LStart (q : nat) (r : Rctx)
  | LCommit (q : nat)
  | LWrite (q : nat)
  | LComplete (q : nat)
  | LPanic (q : nat)
  | LRemove (q : nat)
  | LClose (q : nat)
  | LFlush (f : nat) (tag : Tag) (a : option nat)
  | LWake (f : nat)
  | LAnswer (f : nat)
  | LDrain.

Definition seenb (s : Sys) (q : nat) : bool :=
  existsb (fun ev => match ev with
    | Response q' => bool_decide (q' = q)
    | Rflush f => match flushes s !! f with Some fl => bool_decide (aim fl = Some q) | None => false end
    end) (wire s).

Definition everyReq (P : nat -> request -> bool) (s : Sys) : bool :=
  forallb (fun x => P (fst x) (snd x)) (map_to_list (reqs s)).

Definition exec (racy : bool) (lab : Label) (s : Sys) : option Sys :=
  let inPhase q p k :=
    rq ← reqs s !! q; if decide (qphase rq = p) then k rq else None in
  match lab with
  | LRecv q tag =>
      if bool_decide (reqs s !! q = None) &&
         everyReq (fun q' rq => negb (qtag rq =? tag) || seenb s q') s
      then Some (mkSys (im s) (<[q := mkReq tag 0%nat Received]> (reqs s)) (flushes s) (wire s))
      else None
  | LStart q r =>
      inPhase q Received (fun rq =>
        if everyReq (fun _ rq' => negb (holds (qphase rq')) || negb (bool_decide (qctx rq' = r))) s then
          match start (qtag rq) r (im s) with
          | (true, im') =>
              Some (mkSys im' (<[q := mkReq (qtag rq) r Running]> (reqs s)) (flushes s) (wire s))
          | (false, _) => None
          end
        else None)
  | LCommit q =>
      inPhase q Running (fun rq =>
        Some (mkSys (commit (qtag rq) (im s)) (setPhase q rq Committed s) (flushes s) (wire s)))
  | LWrite q =>
      inPhase q Committed (fun rq =>
        Some (mkSys (im s) (setPhase q rq Written s) (flushes s) (wire s ++ [Response q])))
  | LComplete q =>
      inPhase q Written (fun rq =>
        let '(ch, im') := completeCommit (qtag rq) (qctx rq) (im s) in
        Some (mkSys im' (setPhase q rq (Closing ch) s) (flushes s) (wire s)))
  | LPanic q =>
      inPhase q Running (fun rq =>
        Some (mkSys (im s) (setPhase q rq Recovered s) (flushes s) (wire s ++ [Response q])))
  | LRemove q =>
      rq ← reqs s !! q;
      if decide (qphase rq = Running \/ qphase rq = Recovered) then
        let '(ch, im') := remove (qtag rq) (im s) in
        Some (mkSys im' (setPhase q rq (Closing ch) s) (flushes s) (wire s))
      else None
  | LClose q =>
      rq ← reqs s !! q;
      match qphase rq with
      | Closing ch => Some (mkSys (closeOpt ch (im s)) (setPhase q rq Finished s) (flushes s) (wire s))
      | _ => None
      end
  | LFlush f tag a =>
      if bool_decide (flushes s !! f = None) &&
         match a with
         | Some q =>
             match reqs s !! q with Some rq => (qtag rq =? tag) && negb (seenb s q) | None => false end
         | None => true
         end &&
         (racy || everyReq (fun _ rq => negb (qtag rq =? tag) || negb (bool_decide (qphase rq = Received))) s)
      then
        let '(res, im') := flushWait tag (im s) in
        Some (mkSys im' (reqs s)
          (<[f := mkFlush a (match res with Some (ch, _) => Waiting ch | None => Ready end)]> (flushes s))
          (wire s))
      else None
  | LWake f =>
      fl ← flushes s !! f;
      match fph fl with
      | Waiting ch =>
          if decide (ch ∈ closed (im s))
          then Some (mkSys (im s) (reqs s) (<[f := mkFlush (aim fl) Ready]> (flushes s)) (wire s))
          else None
      | _ => None
      end
  | LAnswer f =>
      fl ← flushes s !! f;
      match fph fl with
      | Ready => Some (mkSys (im s) (reqs s) (<[f := mkFlush (aim fl) Answered]> (flushes s)) (wire s ++ [Rflush f]))
      | _ => None
      end
  | LDrain => let '(d, im') := drainChan (im s) in Some (mkSys im' (reqs s) (flushes s) (wire s))
  end.

Definition schedule (racy : bool) : list Label -> Sys -> option Sys := runLabels (exec racy).

Lemma seenb_spec s q : seenb s q = true <-> seen s q.
Proof.
  unfold seenb, seen. rewrite existsb_exists. split.
  - intros ([q'|f] & Hin%list_elem_of_In & H).
    + apply bool_decide_eq_true in H as ->. by left.
    + destruct (flushes s !! f) as [fl|] eqn:Hf; [|done]. apply bool_decide_eq_true in H. right. eauto.
  - intros [H|(f & fl & H & Hf & Ha)].
    + exists (Response q). split; [by apply list_elem_of_In|]. by apply bool_decide_eq_true.
    + exists (Rflush f). split; [by apply list_elem_of_In|]. rewrite Hf. by apply bool_decide_eq_true.
Qed.

Lemma everyReq_spec P s : everyReq P s = true -> forall q rq, reqs s !! q = Some rq -> P q rq = true.
Proof.
  unfold everyReq. rewrite forallb_forall. intros H q rq Hq.
  apply (H (q, rq)). by apply list_elem_of_In, elem_of_map_to_list.
Qed.

Lemma inflight_exec_step racy lab s s' : exec racy lab s = Some s' -> step racy s s'.
Proof.
  intros E. destruct lab; cbn [exec] in E.
  - destruct (bool_decide _) eqn:Hq; [|done]. destruct (everyReq _ _) eqn:He; [|done].
    injection E as <-. apply step_recv; [by apply bool_decide_eq_true in Hq|].
    intros q' rq Hr Ht. apply (everyReq_spec _ _ He) in Hr. apply seenb_spec.
    destruct (Z.eqb_spec (qtag rq) tag); [done|congruence].
  - apply bind_Some in E as (rq & Hq & E). case_decide as Hp; [|done].
    destruct (everyReq _ _) eqn:He; [|done]. destruct (start _ _ _) as [[] m] eqn:Es; [|done].
    injection E as <-. eapply step_start; [done|done| |done].
    intros q' rq' Hr Hh Hc. apply (everyReq_spec _ _ He) in Hr. rewrite Hh, bool_decide_eq_true_2 in Hr; done.
  - apply bind_Some in E as (rq & Hq & E). case_decide; [|done]. injection E as <-. by apply step_commit.
  - apply bind_Some in E as (rq & Hq & E). case_decide; [|done]. injection E as <-. by apply step_write.
  - apply bind_Some in E as (rq & Hq & E). case_decide; [|done].
    destruct (completeCommit _ _ _) eqn:Ec. injection E as <-. by eapply step_complete.
  - apply bind_Some in E as (rq & Hq & E). case_decide; [|done]. injection E as <-. by apply step_panic.
  - apply bind_Some in E as (rq & Hq & E). case_decide; [|done].
    destruct (remove _ _) eqn:Ec. injection E as <-. by eapply step_remove.
  - apply bind_Some in E as (rq & Hq & E). destruct (qphase rq) eqn:Hp; try done.
    injection E as <-. by apply step_close.
  - destruct (bool_decide _) eqn:Hf; [|done]. apply bool_decide_eq_true in Hf. cbn [andb] in E.
    destruct (match a with Some _ => _ | None => _ end) eqn:Ha; [|done]. cbn [andb] in E.
    destruct (racy || _) eqn:Hr; [|done]. destruct (flushWait _ _) as [res m] eqn:Ew. injection E as <-.
    eapply step_flush; [done| | |done].
    + destruct a as [q|]; [|done]. cbn. destruct (reqs s !! q) as [rq|]; [|done].
      apply andb_true_iff in Ha as [Ht%Z.eqb_eq Hs]. split; [by exists rq|].
      rewrite <- seenb_spec. by destruct (seenb s q).
    + destruct racy; [by left|right]. intros q rq Hq Ht Hp. apply (everyReq_spec _ _ Hr) in Hq.
      by rewrite Ht, Z.eqb_refl, Hp in Hq.
  - apply bind_Some in E as (fl & Hf & E). destruct (fph fl) eqn:Hp; try done. case_decide; [|done].
    injection E as <-. by eapply step_wake.
  - apply bind_Some in E as (fl & Hf & E). destruct (fph fl) eqn:Hp; try done.
    injection E as <-. by apply step_answer.
  - destruct (drainChan _) eqn:Ed. injection E as <-. by eapply step_drain.
Qed.

Lemma inflight_schedule_reachable racy labs s s' :
  reachable racy s -> schedule racy labs s = Some s' -> reachable racy s'.
Proof. apply runLabels_Reachable, inflight_exec_step. Qed.

(** ** Properties *)

(** C6: an [Rflush] never overtakes the response of the request it flushed:
    when no flush is looked up between the read and the registration of a
    request with its tag, after the [Rflush] of a flush aimed at a request no
    response of that request is written, whatever the interleaving of handlers
    (panicking ones included), tag reuse and other flushes; and the request is
    past its write, so none will be. *)
Theorem flush_ordering s w1 w2 f fl q :
  reachable false s -> wire s = w1 ++ Rflush f :: w2 -> flushes s !! f = Some fl -> aim fl = Some q ->
  (Response q ∉ w2) /\ exists rq, reqs s !! q = Some rq /\ past (qphase rq) = true.
Proof.
  intros HI%inflight_reachable_Inv Hw Hf Ha. split; [by apply (i_order _ HI w1 w2 f fl q)|].
  apply seen_past; [done|]. right. exists f, fl. split; [|done]. rewrite Hw. apply elem_of_app. right. by left.
Qed.

(** A flush that arrives while the response is being written. *)
Definition flushDuringWrite : list Label :=
  [LRecv 0 5; LStart 0 1%nat; LCommit 0; LFlush 0 5 (Some 0%nat); LWrite 0; LComplete 0; LClose 0;
   LWake 0; LAnswer 0].

Lemma flush_ordering_witness :
  exists s fl, schedule false flushDuringWrite init = Some s /\ wire s = [Response 0] ++ Rflush 0 :: [] /\
    flushes s !! 0%nat = Some fl /\ aim fl = Some 0%nat /\ Response 0 ∉ [].
Proof.
  destruct (schedule false flushDuringWrite init) as [s|] eqn:E; [|by vm_compute in E].
  assert (reachable false s) as Hr by (by eapply inflight_schedule_reachable; [apply reach_init|]).
  vm_compute in E. injection E as E. exists s, (mkFlush (Some 0%nat) Answered).
  assert (wire s = [Response 0] ++ Rflush 0 :: []) as Hw by by subst s.
  assert (flushes s !! 0%nat = Some (mkFlush (Some 0%nat) Answered)) as Hf by by subst s.
  repeat split; try done. by destruct (flush_ordering s [Response 0] [] 0 _ 0 Hr Hw Hf).
Defined.

(** The bookkeeping is exact in every reachable state: [count] is the
    number of entries, no channel is closed twice (which would panic), every
    registered entry belongs to a request still running its handler or writing
    its response, and every request up to that point has its entry. *)
Theorem inflight_accounting s :
  reachable false s ->
  (count (im s) = len (im s)) /\ (panicked (im s) = false) /\
  (forall tag e, entries (im s) !! tag = Some e -> exists q rq, reqs s !! q = Some rq /\
     qtag rq = tag /\ qctx rq = rctx e /\ owner (committed e) (qphase rq) = true) /\
  (forall q rq, reqs s !! q = Some rq -> live (qphase rq) = true ->
     exists e, entries (im s) !! qtag rq = Some e /\ rctx e = qctx rq).
Proof.
  intros HI%inflight_reachable_Inv. repeat split; try apply HI.
  intros tag e He. destruct (i_entry _ HI tag e He) as (q & p & Hq & Hp).
  by exists q, (mkReq tag (rctx e) p).
Qed.

Lemma inflight_accounting_witness :
  exists s, schedule false (firstn 5 flushDuringWrite) init = Some s /\ count (im s) = 1 /\ count (im s) = len (im s).
Proof.
  destruct (schedule false (firstn 5 flushDuringWrite) init) as [s|] eqn:E; [|by vm_compute in E].
  assert (reachable false s) as Hr by (by eapply inflight_schedule_reachable; [apply reach_init|]).
  vm_compute in E. injection E as E. exists s. split; [done|]. split; [by subst s|].
  apply (inflight_accounting s Hr).
Defined.

(** Reuse.  A client that keeps to the protocol is never taken for one that
    reuses a tag in flight: [start] registers every request it reads, unless
    an earlier request with the tag is between the response and the [finish]
    of a handler panic. *)
Theorem start_accepts_reuse s q rq r :
  reachable false s -> reqs s !! q = Some rq -> qphase rq = Received ->
  (forall q' r', reqs s !! q' = Some r' -> qtag r' = qtag rq -> qphase r' <> Recovered) ->
  fst (start (qtag rq) r (im s)) = true.
Proof.
  intros HI%inflight_reachable_Inv Hq Hp Hnp. destruct (start (qtag rq) r (im s)) as [[] m] eqn:E; [done|].
  destruct (start_false s q rq r m HI Hq Hp E) as (q' & r' & H' & Ht & Hp'). by destruct (Hnp q' r' H' Ht).
Qed.

(** A tag reused between the response and [completeCommit]. *)
Definition earlyReuse : list Label :=
  [LRecv 0 5; LStart 0 1%nat; LCommit 0; LFlush 0 5 None; LWrite 0; LRecv 1 5].

Lemma start_accepts_reuse_witness :
  exists s rq, schedule false earlyReuse init = Some s /\ reqs s !! 1%nat = Some rq /\ size (entries (im s)) = 1%nat /\
    fst (start (qtag rq) 2%nat (im s)) = true.
Proof.
  destruct (schedule false earlyReuse init) as [s|] eqn:E; [|by vm_compute in E].
  assert (reachable false s) as Hr by (by eapply inflight_schedule_reachable; [apply reach_init|]).
  vm_compute in E. injection E as E. exists s, (mkReq 5 0%nat Received).
  assert (reqs s !! 1%nat = Some (mkReq 5 0%nat Received)) as Hq by by subst s.
  repeat split; try done; [by subst s|]. apply (start_accepts_reuse s 1 _ 2%nat Hr Hq eq_refl).
  intros q' r' H' _.
  assert (map_Forall (fun _ r => qphase r <> Recovered) (reqs s)) as Hn
    by (rewrite <- E; by apply (bool_decide_unpack _); vm_compute).
  by apply (Hn q').
Defined.

(** A handler panic can tear down the connection of a correct client: the
    recovery writes the [EIO] response while the entry is registered and not
    committed, so the client may reuse the tag before the deferred [finish]
    and [start] then reports a duplicate. *)
Theorem panic_false_duplicate :
  exists s q rq, reachable false s /\ reqs s !! q = Some rq /\ qphase rq = Received /\
    (forall q' r', q' <> q -> reqs s !! q' = Some r' -> qtag r' = qtag rq -> Response q' ∈ wire s) /\
    forall r, fst (start (qtag rq) r (im s)) = false.
Proof.
  destruct (schedule false [LRecv 0 5; LStart 0 1%nat; LPanic 0; LRecv 1 5] init) as [s|] eqn:E; [|by vm_compute in E].
  assert (reachable false s) as Hr by (by eapply inflight_schedule_reachable; [apply reach_init|]).
  vm_compute in E. injection E as E. exists s, 1%nat, (mkReq 5 0%nat Received).
  repeat split; [done|by subst s| |by subst s].
  assert (map_Forall (fun q' _ => q' <> 1%nat -> q' = 0%nat) (reqs s)) as Hn
    by (rewrite <- E; by apply (bool_decide_unpack _); vm_compute).
  intros q' r' Hne H' _. rewrite (Hn q' r' H' Hne). subst s. by left.
Qed.

(** A connection drain is never left waiting: the channel a drain waiter
    was given is closed by the time no request is in flight. *)
Theorem drain_woken s s' d :
  reachable false s -> drained (im s) = Some d -> rtc (step false) s s' -> count (im s') = 0 ->
  d ∈ closed (im s').
Proof.
  intros Hr Hd Hs Hc. assert (Inv s') as HI.
  { apply inflight_reachable_Inv. clear Hd. induction Hs; [done|]. apply IHHs; [by eapply reach_step|done]. }
  assert (drainKept d (im s')) as [H|H]; [|pose proof (i_drain _ HI d H); lia|done].
  assert (drainKept d (im s)) as Hk by by left. clear -Hs Hk.
  induction Hs; [done|]. by eapply IHHs, drain_step.
Qed.

Lemma drain_woken_witness :
  exists s s', schedule false [LRecv 0 5; LStart 0 1%nat; LDrain] init = Some s /\ drained (im s) = Some 0%nat /\
    schedule false [LRemove 0] s = Some s' /\ 0%nat ∈ closed (im s').
Proof.
  destruct (schedule false [LRecv 0 5; LStart 0 1%nat; LDrain] init) as [s|] eqn:E; [|by vm_compute in E].
  assert (reachable false s) as Hr by (by eapply inflight_schedule_reachable; [apply reach_init|]).
  destruct (exec false (LRemove 0) s) as [s'|] eqn:E'; [|vm_compute in E; injection E as <-; by vm_compute in E'].
  exists s, s'. assert (drained (im s) = Some 0%nat) as Hd by (vm_compute in E; by injection E as <-).
  repeat split; [done|by unfold schedule; cbn [runLabels]; rewrite E'|].
  apply (drain_woken s s' 0%nat Hr Hd); [by eapply rtc_once, inflight_exec_step|].
  vm_compute in E. injection E as <-. vm_compute in E'. by injection E' as <-.
Defined.

(** *** The entries and their goroutines, racy or not *)

(** Whatever the client does with its tags: an entry belongs to a goroutine
    that will still remove or complete it. *)
Record EntryInv (s : Sys) : Prop := {
  e_entry tag e : entries (im s) !! tag = Some e ->
    exists q p, reqs s !! q = Some (mkReq tag (rctx e) p) /\ owner (committed e) p = true;
  e_live q rq : reqs s !! q = Some rq -> qphase rq = Running \/ qphase rq = Recovered ->
    exists e, entries (im s) !! qtag rq = Some e /\ rctx e = qctx rq /\ committed e = false;
  e_ctx q1 q2 r1 r2 : reqs s !! q1 = Some r1 -> reqs s !! q2 = Some r2 ->
    holds (qphase r1) = true -> holds (qphase r2) = true -> qctx r1 = qctx r2 -> q1 = q2
}.

Lemma entries_decCount m : entries (decCount m) = entries m.
Proof. unfold decCount. case_match; [|done]. cbn. by destruct (drained m). Qed.
Lemma entries_closeOpt ch m : entries (closeOpt ch m) = entries m.
Proof. by destruct ch. Qed.

(** The step of request [q] from [rq] to [rq'], with the entry of its tag. *)
Section EntryMove.
Context (s : Sys) (HI : EntryInv s) (q : nat) (rq rq' : request) (Hq : reqs s !! q = Some rq).
Context (m' : inflightMap) (fs' : gmap nat flush) (w' : list event).
Context (Htag : qtag rq' = qtag rq).
Context (Hctx : qctx rq' = qctx rq /\ (holds (qphase rq') = true -> holds (qphase rq) = true) \/
  forall q' r, reqs s !! q' = Some r -> holds (qphase r) = true -> qctx r <> qctx rq').
Context (Hother : forall tag, tag <> qtag rq -> entries m' !! tag = entries (im s) !! tag).
(** What becomes of the entry under the tag. *)
Context (Hentry : forall e, entries m' !! qtag rq = Some e ->
  (rctx e = qctx rq' /\ owner (committed e) (qphase rq') = true) \/
  (entries (im s) !! qtag rq = Some e /\ rctx e <> qctx rq)).
Context (Hlive : qphase rq' = Running \/ qphase rq' = Recovered ->
  exists e, entries m' !! qtag rq = Some e /\ rctx e = qctx rq' /\ committed e = false).
Context (Hothers : forall q' r e, q' <> q -> reqs s !! q' = Some r -> qtag r = qtag rq -> holds (qphase r) = true ->
  entries (im s) !! qtag rq = Some e -> rctx e = qctx r -> committed e = false -> entries m' !! qtag rq = Some e).

Lemma entry_moved : EntryInv (mkSys m' (<[q := rq']> (reqs s)) fs' w').
Proof.
  pose proof HI as [He Hl Hc]. split; cbn.
  - intros tag e Hte.
    assert (Hold : entries (im s) !! tag = Some e -> (tag = qtag rq -> rctx e <> qctx rq) ->
      exists q0 p, <[q := rq']> (reqs s) !! q0 = Some (mkReq tag (rctx e) p) /\ owner (committed e) p = true).
    { intros Hoe Hne. destruct (He tag e Hoe) as (q0 & p & Hq0 & Ho). exists q0, p. split; [|done].
      rewrite lookup_insert_ne; [done|]. intros <-. rewrite Hq in Hq0. injection Hq0 as ->. by apply Hne. }
    destruct (decide (tag = qtag rq)) as [->|Hne]; [|by apply Hold; [rewrite <- Hother|]].
    destruct (Hentry e Hte) as [[Hr Ho]|[Hoe Hr]]; [|by apply Hold].
    exists q, (qphase rq'). rewrite lookup_insert_eq, Hr, <- Htag. by destruct rq'.
  - intros q0 r [[<- <-]|[Hne Hr]]%lookup_insert_Some Hp; [rewrite Htag; by apply Hlive|].
    destruct (Hl q0 r Hr Hp) as (e & Hte & Hre & Hce). exists e. split; [|done].
    destruct (decide (qtag r = qtag rq)) as [Et|Et]; [|by rewrite Hother]. rewrite Et in *. eapply (Hothers q0 r); try done.
    by destruct Hp as [-> | ->].
  - intros q1 q2 r1 r2 [[<- <-]|[Hn1 H1]]%lookup_insert_Some [[<- <-]|[Hn2 H2]]%lookup_insert_Some Hh1 Hh2 Ec; [done| | |by apply (Hc q1 q2 r1 r2)].
    + destruct Hctx as [[Ex Hh]|Hfresh]; [apply (Hc q q2 rq r2); auto; congruence|]. by destruct (Hfresh q2 r2).
    + destruct Hctx as [[Ex Hh]|Hfresh]; [apply (Hc q1 q r1 rq); auto; congruence|]. by destruct (Hfresh q1 r1).
Qed.
End EntryMove.

(** Steps that leave requests and owners alone. *)
Lemma entry_same s m' fs' w' : EntryInv s ->
  (forall tag, (fun e => (rctx e, committed e)) <$> entries m' !! tag = (fun e => (rctx e, committed e)) <$> entries (im s) !! tag) ->
  EntryInv (mkSys m' (reqs s) fs' w').
Proof.
  intros [He Hl Hc] Hm. split; cbn; [| |done].
  - intros tag e Hte. specialize (Hm tag). rewrite Hte in Hm. cbn in Hm. symmetry in Hm. apply fmap_Some in Hm as (e0 & He0 & [= -> ->]).
    by apply He.
  - intros q rq Hq Hp. destruct (Hl q rq Hq Hp) as (e & Hte & Hr & Hce). specialize (Hm (qtag rq)). rewrite Hte in Hm. cbn in Hm.
    apply fmap_Some in Hm as (e' & He' & [= E1 E2]). exists e'. split_and!; [done|congruence..].
Qed.
Ltac otherTag := intros tag0 Hne0; cbn; rewrite ?entries_decCount; cbn;
  first [by rewrite lookup_insert_ne | by rewrite lookup_delete_ne | done].

Lemma live_entry s q rq e : EntryInv s -> reqs s !! q = Some rq ->
  qphase rq = Running \/ qphase rq = Recovered -> entries (im s) !! qtag rq = Some e ->
  rctx e = qctx rq /\ committed e = false.
Proof. intros HI Hq Hp He. destruct (e_live _ HI q rq Hq Hp) as (e' & He' & Hr). by simplify_eq. Qed.

(** Two requests whose entries share the tag of a running one are the same. *)
Lemma live_alone s q rq q' r e : EntryInv s -> reqs s !! q = Some rq ->
  qphase rq = Running \/ qphase rq = Recovered -> q' <> q -> reqs s !! q' = Some r ->
  holds (qphase r) = true -> entries (im s) !! qtag rq = Some e -> rctx e <> qctx r.
Proof.
  intros HI Hq Hp Hne Hr Hh He Hx. destruct (live_entry s q rq e HI Hq Hp He) as [Hc _].
  apply Hne, (e_ctx _ HI q' q r rq); [done|done|done| |congruence]. by destruct Hp as [-> | ->].
Qed.

Lemma entry_recv s q tag : EntryInv s -> reqs s !! q = None ->
  EntryInv (mkSys (im s) (<[q := mkReq tag 0%nat Received]> (reqs s)) (flushes s) (wire s)).
Proof.
  intros [He Hl Hc] Hq. split; cbn.
  - intros t e Hte. destruct (He t e Hte) as (q0 & p & Hq0 & Ho). exists q0, p. split; [|done].
    rewrite lookup_insert_ne; [done|]. intros <-. congruence.
  - intros q0 r [[<- <-]|[_ Hr]]%lookup_insert_Some Hp; [by destruct Hp|by apply (Hl q0)].
  - intros q1 q2 r1 r2 [[<- <-]|[_ H1]]%lookup_insert_Some [[<- <-]|[_ H2]]%lookup_insert_Some Hh1 Hh2 E; try done. by apply (Hc q1 q2 r1 r2).
Qed.

Lemma start_entries tag r m m' : start tag r m = (true, m') ->
  entries m' = <[tag := mkEntry r None false]> (entries m) /\
  forall e, entries m !! tag = Some e -> committed e = true.
Proof.
  unfold start. destruct (entries m !! tag) as [e|] eqn:Ee.
  - destruct (committed e) eqn:Ec; [|done]. intros [= <-]. cbn. rewrite entries_closeOpt. split; [done|].
    intros e' [= <-]. done.
  - intros [= <-]. by split.
Qed.

Lemma flushWait_owners tag m res m' : flushWait tag m = (res, m') -> forall t,
  (fun e => (rctx e, committed e)) <$> entries m' !! t = (fun e => (rctx e, committed e)) <$> entries m !! t.
Proof.
  unfold flushWait. destruct (entries m !! tag) as [e|] eqn:Ee; [|by intros [= <- <-]].
  destruct (done e); [by intros [= <- <-]|]. intros [= <- <-] t. cbn.
  destruct (decide (t = tag)) as [->|]; [by rewrite lookup_insert_eq, Ee|by rewrite lookup_insert_ne].
Qed.

Lemma drainChan_entries m d m' : drainChan m = (d, m') -> entries m' = entries m.
Proof. unfold drainChan. case_match; [by intros [= <- <-]|]. case_match; by intros [= <- <-]. Qed.

Lemma entry_start s q rq r im' : EntryInv s -> reqs s !! q = Some rq -> qphase rq = Received ->
  (forall q' rq', reqs s !! q' = Some rq' -> holds (qphase rq') = true -> qctx rq' <> r) ->
  start (qtag rq) r (im s) = (true, im') ->
  EntryInv (mkSys im' (<[q := mkReq (qtag rq) r Running]> (reqs s)) (flushes s) (wire s)).
Proof.
  intros HI Hq Hp Hfresh [Hm Hcom]%start_entries. eapply (entry_moved s HI q rq); cbn; rewrite ?Hm; [done|done|by right| | | |].
  - intros t Ht. by rewrite lookup_insert_ne.
  - intros e. rewrite lookup_insert_eq. intros [= <-]. by left.
  - intros _. rewrite lookup_insert_eq. by eexists.
  - intros q' r' e _ _ _ _ He _ Hc. specialize (Hcom e He). congruence.
Qed.

(** The running request [q] moves on, its entry possibly committed or gone. *)
Lemma entry_running s q rq p m' fs' w' : EntryInv s -> reqs s !! q = Some rq ->
  qphase rq = Running \/ qphase rq = Recovered -> p <> Running ->
  (forall tag, tag <> qtag rq -> entries m' !! tag = entries (im s) !! tag) ->
  (forall e, entries m' !! qtag rq = Some e -> rctx e = qctx rq /\ owner (committed e) p = true) ->
  (p = Recovered -> exists e, entries m' !! qtag rq = Some e /\ rctx e = qctx rq /\ committed e = false) ->
  EntryInv (mkSys m' (setPhase q rq p s) fs' w').
Proof.
  intros HI Hq Hp Hpr Hoth He Hlive. eapply (entry_moved s HI q rq); cbn; [done|done| |done| | |].
  - left. split; [done|]. by destruct Hp as [-> | ->].
  - intros e Hte. left. by apply He.
  - intros [->| ->]; [done|by apply Hlive].
  - intros q' r e Hne Hr Ht Hh Hte Hx. by destruct (live_alone s q rq q' r e HI Hq Hp Hne Hr Hh Hte).
Qed.

(** A request past its commit moves on: of its tag's entry it only drops its own. *)
Lemma entry_done s q rq p m' fs' w' : EntryInv s -> reqs s !! q = Some rq -> qphase rq <> Received ->
  p <> Running -> p <> Recovered -> (holds p = true -> holds (qphase rq) = true) ->
  (forall tag, tag <> qtag rq -> entries m' !! tag = entries (im s) !! tag) ->
  (forall e, entries m' !! qtag rq = Some e -> entries (im s) !! qtag rq = Some e /\
     (rctx e = qctx rq /\ owner (committed e) p = true \/ rctx e <> qctx rq)) ->
  (forall e, entries (im s) !! qtag rq = Some e -> committed e = false -> entries m' !! qtag rq = Some e) ->
  EntryInv (mkSys m' (setPhase q rq p s) fs' w').
Proof.
  intros HI Hq Hn Hp1 Hp2 Hh Hoth He Hkeep. eapply (entry_moved s HI q rq); cbn; [done|done|by left|done| | |].
  - intros e Hte. destruct (He e Hte) as [Ho [Hl|Hr]]; auto.
  - intros [->| ->]; done.
  - intros q' r e _ _ _ _ Hte _ Hc. by apply Hkeep.
Qed.

Lemma entry_own s q rq e : EntryInv s -> reqs s !! q = Some rq -> holds (qphase rq) = true ->
  entries (im s) !! qtag rq = Some e -> rctx e = qctx rq -> owner (committed e) (qphase rq) = true.
Proof.
  intros HI Hq Hh He Hr. destruct (e_entry _ HI _ _ He) as (q0 & p & Hq0 & Ho).
  assert (q0 = q) as -> by (eapply (e_ctx _ HI q0 q _ rq Hq0 Hq); [by eapply owner_holds|done|done]).
  rewrite Hq in Hq0. injection Hq0 as ->. exact Ho.
Qed.

Lemma entry_step racy s s' : EntryInv s -> step racy s s' -> EntryInv s'.
Proof.
  intros HI Hs.
  destruct Hs as [s q tag Hq _|s q rq r im' Hq Hp Hf Hst|s q rq Hq Hp|s q rq Hq Hp|s q rq ch im' Hq Hp Hc|s q rq Hq Hp
    |s q rq ch im' Hq Hp Hrm|s q rq ch Hq Hp|s f tag a res im' Hf Ha Hrc Hw|s f fl ch Hf Hw Hc|s f fl Hf Hw|s d im' Hd].
  - by apply entry_recv.
  - by eapply entry_start.
  - assert (qphase rq = Running \/ qphase rq = Recovered) as Hlp by by left. destruct (e_live _ HI q rq Hq Hlp) as (e & He & Hr & _).
    eapply entry_running; [done..| | |done]; unfold commit; cbn.
    + intros t Ht. by rewrite lookup_insert_ne.
    + intros e'. rewrite lookup_insert_eq, He. cbn. by intros [= <-].
  - eapply entry_done; [done|done|by rewrite Hp|done|done|by rewrite Hp|done| |done].
    intros e He. split; [done|]. destruct (decide (rctx e = qctx rq)) as [Hr|]; [left|by right]. split; [done|].
    pose proof (entry_own s q rq e HI Hq) as Ho. rewrite Hp in Ho. by apply Ho.
  - unfold completeCommit in Hc. destruct (entries (im s) !! qtag rq) as [e|] eqn:Ee; [destruct (decide (rctx e = qctx rq)) as [Er|Er]|]; simplify_eq.
    + eapply entry_done; [done|done|by rewrite Hp|done|done|by rewrite Hp| | |]; cbn; rewrite ?entries_decCount; cbn.
      * intros t Ht. by rewrite lookup_delete_ne.
      * intros e'. by rewrite lookup_delete_eq.
      * intros e' He' Hc'. assert (e' = e) as -> by congruence. pose proof (entry_own s q rq e HI Hq) as Ho.
        rewrite Hp in Ho. rewrite Hc' in Ho. cbn in Ho. by discriminate Ho.
    + eapply entry_done; [done|done|by rewrite Hp|done|done|by rewrite Hp|done| |done]. intros e' He'. split; [done|]. right. congruence.
    + eapply entry_done; [done|done|by rewrite Hp|done|done|by rewrite Hp|done| |done]. intros e' He'. congruence.
  - assert (qphase rq = Running \/ qphase rq = Recovered) as Hlp by by left.
    eapply entry_running; [done..| |]; [|intros _; by apply (e_live _ HI q)].
    intros e He. destruct (live_entry s q rq e HI Hq Hlp He) as [-> ->]. by split.
  - unfold remove in Hrm. injection Hrm as <- <-. eapply entry_running; [done..| | |done]; cbn; rewrite entries_decCount; cbn.
    + intros t Ht. by rewrite lookup_delete_ne.
    + intros e. by rewrite lookup_delete_eq.
  - eapply entry_done; [done|done|by rewrite Hp|done|done|done| | |]; cbn; rewrite entries_closeOpt; [done| |done].
    intros e He. split; [done|]. right. intros Hr. pose proof (entry_own s q rq e HI Hq) as Ho. rewrite Hp in Ho.
    by discriminate (Ho eq_refl He Hr).
  - eapply entry_same; [done|]. by eapply flushWait_owners.
  - by apply entry_same.
  - by apply entry_same.
  - apply drainChan_entries in Hd as E. apply entry_same; [done|]. intros t. by rewrite E.
Qed.

Lemma entry_reach racy s : reachable racy s -> EntryInv s.
Proof.
  apply Reachable_invariant; [|intros s1 s2 _; apply entry_step].
  split; cbn; intros *; by rewrite lookup_empty.
Qed.

(** C7: no lost wakeup: a flush goroutine waits on a channel that is closed
    once the requests that were read have run to their end, however the entry
    it found was committed, replaced by a reused tag or removed in between,
    and also when flushes are looked up between the read and the registration
    of a request ([racy]). *)
Theorem flush_no_lost_wakeup racy s f fl ch :
  reachable racy s -> flushes s !! f = Some fl -> fph fl = Waiting ch ->
  (forall q rq, reqs s !! q = Some rq -> qphase rq = Finished) -> ch ∈ closed (im s).
Proof.
  intros Hr Hf Hw Hfin. pose proof (entry_reach racy s Hr) as HI.
  destruct (waiting_kept racy s Hr f fl ch Hf Hw) as [H|[(t & e & He & _)|(q & rq & Hq & Hc)]]; [done|..].
  - destruct (e_entry _ HI t e He) as (q & p & Hq & Ho). apply Hfin in Hq. cbn in Hq. by subst p.
  - apply Hfin in Hq. congruence.
Qed.

(** A first flush of tag 5 comes before the request is registered and is
    answered; a second one finds the entry and waits. *)
Definition earlyThenWaiting : list Label :=
  [LRecv 0 5; LFlush 0 5 (Some 0%nat); LAnswer 0; LStart 0 1%nat; LFlush 1 5 None; LCommit 0; LWrite 0;
   LComplete 0; LClose 0].

Lemma flush_no_lost_wakeup_witness :
  exists s, schedule true earlyThenWaiting init = Some s /\ 0%nat ∈ closed (im s).
Proof.
  destruct (schedule true earlyThenWaiting init) as [s|] eqn:E; [|by vm_compute in E].
  assert (reachable true s) as Hr by (by eapply inflight_schedule_reachable; [apply reach_init|]).
  vm_compute in E. injection E as E. exists s. split; [done|].
  apply (flush_no_lost_wakeup true s 1 (mkFlush None (Waiting 0%nat)) 0%nat Hr); [by subst s|done|].
  assert (map_Forall (fun _ r => qphase r = Finished) (reqs s)) as Hn
    by (rewrite <- E; by apply (bool_decide_unpack _); vm_compute).
  apply Hn.
Defined.

(** C11: the receive loop lets an [Rflush] overtake: it registers a request
    only after it has released the receive lock, so a sibling can read the
    [Tflush] of a request that was read and look its tag up before it is
    registered.  The [Rflush] is then written first, the client reuses the
    tag, and the late response of the flushed request carries the tag of the
    new one. *)
Theorem unregistered_request_overtaken :
  exists s rq0 rq1, reachable true s /\ wire s = [Rflush 0; Response 0] /\
    flushes s !! 0%nat = Some (mkFlush (Some 0%nat) Answered) /\
    reqs s !! 0%nat = Some rq0 /\ reqs s !! 1%nat = Some rq1 /\ qtag rq0 = qtag rq1 /\ qphase rq1 = Received.
Proof.
  destruct (schedule true [LRecv 0 5; LFlush 0 5 (Some 0%nat); LAnswer 0; LRecv 1 5; LStart 0 1%nat; LCommit 0; LWrite 0] init)
    as [s|] eqn:E; [|by vm_compute in E].
  assert (reachable true s) as Hr by (by eapply inflight_schedule_reachable; [apply reach_init|]).
  vm_compute in E. injection E as E. eexists s, _, _.
  split; [done|]. subst s. repeat split; try (vm_compute; reflexivity).
Qed.
End System.
