(* ===== verification/RequestCtx.v ===== *)
(** * Request contexts

    [server/requestctx.go]: the pooled context a request runs under.  Its
    [done] channel is made on first use; [flush] cancels.  Handlers call
    [Done], a Tflush (or the teardown) calls [flush], at the same time; when
    the request is over, [putRequestCtx] resets the context for the next.

    Atomic operations and the bodies of the two [sync.Once] are single steps
    ([Do] makes other callers wait); any number of goroutines take them in any
    order.  A channel is a number that is never used again; [closes] lists
    the calls of [close], where a second one for a channel would panic. *)

From S2P Require Import Prelude.

Abbreviation Chan := nat.

Record requestCtx : Type := mkCtx {
  done : option Chan;
  initOnce : bool;
  closeOnce : bool;
  flushed : bool;
  parent : option nat;
  wireSize : Z
}.
Definition zeroCtx : requestCtx := mkCtx None false false false None 0.

Definition Canceled : GoError := Sentinel "context canceled".
Definition ctxErr (r : requestCtx) : option GoError := if flushed r then Some Canceled else None.

(** Values of a context: a key is the private one or one of another package,
    and the parent answers for itself.  [None]: a nil parent is dereferenced. *)
Inductive Key : Type := wireSizeKey | otherKey (k : nat).
Inductive Any : Type := NilAny | Uint32 (n : Z) | OtherAny (v : nat).

Definition Value (parentValue : nat -> Key -> Any) (r : requestCtx) (key : Key) : option Any :=
  match key with
  | wireSizeKey => Some (Uint32 (wireSize r))
  | _ => p ← parent r; Some (parentValue p key)
  end.
Definition requestWireSize (value : Key -> option Any) : option Z :=
  v ← value wireSizeKey; Some match v with Uint32 n => n | _ => 0 end.

Definition getRequestCtx (p : nat) (r : requestCtx) : requestCtx :=
  mkCtx (done r) (initOnce r) (closeOnce r) (flushed r) (Some p) (wireSize r).
Definition putRequestCtx (_ : requestCtx) : requestCtx := zeroCtx.

(** The state of one pooled object over its lives, and of the goroutines that
    use it in the present one. *)
Inductive pc : Type :=
  | DInit | DLoad | DClose | DReturn   (* Done *)
  | DReturned (ch : option Chan)
  | FSwap | FInit | FClose             (* flush *)
  | FReturned.

Record State : Type := mkState {
  ctx : requestCtx;
  next : Chan;
  closes : list Chan;
  callers : gmap nat pc
}.
Definition initial : State := mkState (getRequestCtx 0 zeroCtx) 0 [] ∅.

Definition setCtx (r : requestCtx) (s : State) : State := mkState r (next s) (closes s) (callers s).
Definition goTo (g : nat) (p : pc) (s : State) : State := mkState (ctx s) (next s) (closes s) (<[g := p]> (callers s)).

(** [initOnce.Do(func() { r.done = make(chan struct{}) })] *)
Definition doInit (s : State) : State :=
  let r := ctx s in
  if initOnce r then s
  else mkState (mkCtx (Some (next s)) true (closeOnce r) (flushed r) (parent r) (wireSize r)) (S (next s)) (closes s) (callers s).

(** [closeOnce.Do(func() { close(r.done) })]; a nil channel would panic. *)
Definition doClose (s : State) : option State :=
  let r := ctx s in
  if closeOnce r then Some s
  else
    match done r with
    | None => None
    | Some ch => Some (mkState (mkCtx (done r) (initOnce r) true (flushed r) (parent r) (wireSize r)) (next s) (closes s ++ [ch]) (callers s))
    end.

Definition swap (s : State) : bool * State :=
  let r := ctx s in
  if flushed r then (false, s)
  else (true, setCtx (mkCtx (done r) (initOnce r) (closeOnce r) true (parent r) (wireSize r)) s).

Definition returned (p : pc) : bool := match p with DReturned _ | FReturned => true | _ => false end.

(** One step of goroutine [g]. *)
Definition stepOf (g : nat) (s : State) : option State :=
  match callers s !! g with
  | Some DInit => Some (goTo g DLoad (doInit s))
  | Some DLoad => Some (goTo g (if flushed (ctx s) then DClose else DReturn) s)
  | Some DClose => s ← doClose s; Some (goTo g DReturn s)
  | Some DReturn => Some (goTo g (DReturned (done (ctx s))) s)
  | Some FSwap => let '(won, s) := swap s in Some (goTo g (if won then FInit else FReturned) s)
  | Some FInit => Some (goTo g FClose (doInit s))
  | Some FClose => s ← doClose s; Some (goTo g FReturned s)
  | _ => None
  end.

Inductive step : State -> State -> Prop :=
  | step_Done g s : callers s !! g = None -> step s (goTo g DInit s)
  | step_flush g s : callers s !! g = None -> step s (goTo g FSwap s)
  | step_caller g s s' : stepOf g s = Some s' -> step s s'
  (* the request is over: nobody uses the context any more *)
  | step_recycle p s :
      (forall g q, callers s !! g = Some q -> returned q = true) ->
      step s (mkState (getRequestCtx p (putRequestCtx (ctx s))) (next s) (closes s) ∅).

Abbreviation reachable := (Reachable initial step).

(** ** The invariant *)

Record Inv (s : State) : Prop := {
  inv_init : initOnce (ctx s) = true <-> is_Some (done (ctx s));
  inv_old ch : done (ctx s) = Some ch \/ ch ∈ closes s -> (ch < next s)%nat;
  inv_nodup : NoDup (closes s);
  inv_closed : closeOnce (ctx s) = true -> flushed (ctx s) = true /\ exists ch, done (ctx s) = Some ch /\ ch ∈ closes s;
  inv_open ch : closeOnce (ctx s) = false -> done (ctx s) = Some ch -> ch ∉ closes s;
  (* where a goroutine is, what it has seen *)
  inv_pc g p : callers s !! g = Some p ->
    match p with
    | DInit | FSwap => True
    | DLoad | DReturn => initOnce (ctx s) = true
    | DClose | FClose => initOnce (ctx s) = true /\ flushed (ctx s) = true
    | FInit => flushed (ctx s) = true
    | DReturned r => initOnce (ctx s) = true /\ r = done (ctx s)
    | FReturned => flushed (ctx s) = true
    end;
  (* a flush is under way, or has closed the channel *)
  inv_flush : flushed (ctx s) = true ->
    closeOnce (ctx s) = true \/ exists g p, callers s !! g = Some p /\ (p = FInit \/ p = FClose)
}.

(** A goroutine moves on. *)
Lemma ctx_goTo g q s :
  Inv s ->
  match q with
  | DInit | FSwap => True | DLoad | DReturn => initOnce (ctx s) = true
  | DClose | FClose => initOnce (ctx s) = true /\ flushed (ctx s) = true
  | FInit => flushed (ctx s) = true | DReturned c => initOnce (ctx s) = true /\ c = done (ctx s)
  | FReturned => flushed (ctx s) = true
  end ->
  (forall p, callers s !! g = Some p -> p = FInit \/ p = FClose -> q = FClose \/ closeOnce (ctx s) = true) ->
  Inv (goTo g q s).
Proof.
  intros [Hi Ho Hn Hc Hop Hp Hf] Hq Hmine. split; cbn; try done.
  - intros g0 p0 [[<- <-]|[_ Hp0]]%lookup_insert_Some; [done|]. exact (Hp g0 p0 Hp0).
  - intros Hfl. destruct (Hf Hfl) as [|(g0 & p0 & Hp0 & Hor)]; [by left|].
    destruct (decide (g0 = g)) as [->|Hne]; [|right; exists g0, p0; by rewrite lookup_insert_ne].
    destruct (Hmine p0 Hp0 Hor) as [->|]; [|by left]. right. exists g, FClose. rewrite lookup_insert_eq. auto.
Qed.

Lemma ctx_doInit s : Inv s -> Inv (doInit s) /\ initOnce (ctx (doInit s)) = true /\ callers (doInit s) = callers s /\
  flushed (ctx (doInit s)) = flushed (ctx s).
Proof.
  intros HI. pose proof HI as [Hi Ho Hn Hc Hop Hp Hf]. unfold doInit. destruct (initOnce (ctx s)) eqn:Ei; [done|].
  assert (Hnone : done (ctx s) = None).
  { destruct (done (ctx s)) eqn:E; [|done]. assert (false = true) by (apply Hi; eauto). done. }
  split_and!; [|done..]. split; cbn; try done.
  - intros ch [[= <-]|Hin]; [lia|]. pose proof (Ho ch (or_intror Hin)). lia.
  - intros Hcl. destruct (Hc Hcl) as (_ & ch & Hch & _). congruence.
  - intros ch _ [= <-] Hin. pose proof (Ho _ (or_intror Hin)). lia.
  - intros g p Hg. specialize (Hp g p Hg). destruct p; naive_solver.
Qed.

Lemma ctx_doClose s : Inv s -> initOnce (ctx s) = true -> flushed (ctx s) = true ->
  exists s', doClose s = Some s' /\ Inv s' /\ callers s' = callers s /\ closeOnce (ctx s') = true /\
    initOnce (ctx s') = true /\ flushed (ctx s') = true.
Proof.
  intros HI Hin Hfl. pose proof HI as [Hi Ho Hn Hc Hop Hp Hf]. unfold doClose. destruct (closeOnce (ctx s)) eqn:Ec.
  { exists s. by split_and!. }
  destruct (proj1 Hi Hin) as [ch Hch]. rewrite Hch. eexists. split; [done|]. split_and!; [|done..].
  split; cbn; try done.
  - intros c [Hc'|[Hc'|Hc']%elem_of_app]; [apply Ho; left; congruence|apply Ho; by right|].
    apply list_elem_of_singleton in Hc' as ->. apply Ho. by left.
  - apply NoDup_app. split_and!; [done| |apply NoDup_singleton]. intros c Hc' ->%list_elem_of_singleton. by apply (Hop ch).
  - intros _. split; [done|]. exists ch. split; [done|]. set_solver.
  - intros g p Hg. specialize (Hp g p Hg). rewrite Hch in Hp. destruct p; naive_solver.
  - intros _. by left.
Qed.

Lemma ctx_swap g s won s' : Inv s -> callers s !! g = Some FSwap -> swap s = (won, s') ->
  Inv (goTo g (if won then FInit else FReturned) s').
Proof.
  intros Hi Hg. unfold swap. destruct (flushed (ctx s)) eqn:Ef; intros [= <- <-].
  - apply ctx_goTo; [done|done|]. intros p Hp Hor. rewrite Hg in Hp. injection Hp as <-. naive_solver.
  - destruct Hi as [Hi Ho Hn Hc Hop Hp Hf]. split; cbn; try done.
    + intros Hcl. destruct (Hc Hcl). congruence.
    + intros g0 p0 [[<- <-]|[_ Hp0]]%lookup_insert_Some; [done|]. specialize (Hp g0 p0 Hp0). destruct p0; naive_solver.
    + intros _. right. exists g, FInit. rewrite lookup_insert_eq. auto.
Qed.

(** No goroutine gets stuck or panics, and the invariant is kept. *)
Lemma ctx_stepOf g s p : Inv s -> callers s !! g = Some p -> returned p = false ->
  exists s', stepOf g s = Some s' /\ Inv s'.
Proof.
  intros Hi Hg Hr. pose proof (inv_pc _ Hi g p Hg) as Hp. unfold stepOf. rewrite Hg.
  destruct p; try done.
  - destruct (ctx_doInit s Hi) as (Hi' & Hin & Hcs & _). eexists. split; [done|]. apply ctx_goTo; [done|done|].
    intros p Hp'. rewrite Hcs, Hg in Hp'. injection Hp' as <-. naive_solver.
  - eexists. split; [done|]. apply ctx_goTo; [done|by destruct (flushed (ctx s)) eqn:E|].
    intros p Hp'. rewrite Hg in Hp'. injection Hp' as <-. naive_solver.
  - destruct (ctx_doClose s Hi (proj1 Hp) (proj2 Hp)) as (s' & -> & Hi' & Hcs & _ & Hin & _). eexists. split; [done|].
    apply ctx_goTo; [done|done|]. intros p Hp'. rewrite Hcs, Hg in Hp'. injection Hp' as <-. naive_solver.
  - eexists. split; [done|]. apply ctx_goTo; [done|done|]. intros p Hp'. rewrite Hg in Hp'. injection Hp' as <-. naive_solver.
  - destruct (swap s) as [won s'] eqn:Es. eexists. split; [done|]. by eapply ctx_swap.
  - destruct (ctx_doInit s Hi) as (Hi' & Hin & Hcs & Hfl). eexists. split; [done|]. apply ctx_goTo; [done|by rewrite Hfl|auto].
  - destruct (ctx_doClose s Hi (proj1 Hp) (proj2 Hp)) as (s' & -> & Hi' & Hcs & Hcl & _ & Hfl). eexists. split; [done|].
    apply ctx_goTo; [done|done|auto].
Qed.

Lemma ctx_Inv s : reachable s -> Inv s.
Proof.
  apply Reachable_invariant.
  - split; cbn; try done; try set_solver; first [constructor | by split; [|intros []]].
  - clear s. intros s1 s2 _ Hi. destruct 1 as [g s Hg|g s Hg|g s s' Hs|p s Hq].
    + apply ctx_goTo; [done|done|]. congruence.
    + apply ctx_goTo; [done|done|]. congruence.
    + destruct (callers s !! g) as [p|] eqn:Hg; [|by unfold stepOf in Hs; rewrite Hg in Hs].
      destruct (returned p) eqn:Hr; [unfold stepOf in Hs; rewrite Hg in Hs; by destruct p|].
      destruct (ctx_stepOf g s p Hi Hg Hr) as (s'' & Hs' & Hi'). congruence.
    + destruct Hi as [Hi Ho Hn Hc Hop Hp Hf]. split; cbn; try done; try set_solver; first [by split; [|intros []] | intros ch [|Hin]; [done|]; apply Ho; by right].
Qed.

(** C35: cancellation of a request's context.  For any number of goroutines
    that call Done and flush on it at once, over all the lives of a pooled
    context: no step panics (no close of a nil or a closed channel) and no
    caller is stuck; every Done of one life returns the same channel; that
    channel is closed only if this life was flushed, when Err returns
    context.Canceled; and once the calls have returned it is closed if the
    life was flushed.  A context from the pool starts uncancelled. *)
Theorem requestctx_cancel s :
  reachable s ->
  NoDup (closes s) /\
  (forall g p, callers s !! g = Some p -> returned p = false -> exists s', stepOf g s = Some s') /\
  (forall g r, callers s !! g = Some (DReturned r) -> exists ch, r = Some ch /\ done (ctx s) = Some ch /\
     (ch ∈ closes s -> ctxErr (ctx s) = Some Canceled) /\
     (ctxErr (ctx s) = Some Canceled -> (forall g' p, callers s !! g' = Some p -> returned p = true) -> ch ∈ closes s)) /\
  (forall p, let s' := mkState (getRequestCtx p (putRequestCtx (ctx s))) (next s) (closes s) ∅ in
     ctxErr (ctx s') = None /\ forall ch, done (ctx (doInit s')) = Some ch -> ch ∉ closes s').
Proof.
  intros Hr. pose proof (ctx_Inv s Hr) as Hi. split_and!; [apply (inv_nodup _ Hi)| | |].
  - intros g p Hg Hp. destruct (ctx_stepOf g s p Hi Hg Hp) as (s' & Hs & _). eauto.
  - intros g r Hg. destruct (inv_pc _ Hi g _ Hg) as [Hin ->]. destruct (proj1 (inv_init _ Hi) Hin) as [ch Hch].
    exists ch. unfold ctxErr. split_and!; [done|done| |].
    + intros Hc. destruct (closeOnce (ctx s)) eqn:Ec; [by destruct (inv_closed _ Hi Ec) as [-> _]|by destruct (inv_open _ Hi ch Ec Hch)].
    + intros Hfl Hall. destruct (flushed (ctx s)) eqn:Ef; [|done].
      destruct (inv_flush _ Hi Ef) as [Hc|(g' & p & Hp & Hor)].
      * destruct (inv_closed _ Hi Hc) as (_ & ch' & Hch' & Hin'). congruence.
      * apply Hall in Hp. by destruct Hor as [-> | ->].
  - intros p s'. split; [done|]. cbn. intros ch [= <-] Hin. pose proof (inv_old _ Hi _ (or_intror Hin)). lia.
Qed.

(** Done, then flush, then the pool, then Done again. *)
Module Demo.
Definition run (gs : list nat) (s : State) : State := fold_left (fun s g => default s (stepOf g s)) gs s.
Definition flushedOnce : State := run [0; 1; 1; 0; 1; 0; 0]%nat (goTo 1 FSwap (goTo 0 DInit initial)).
End Demo.

Lemma requestctx_cancel_witness :
  callers Demo.flushedOnce !! 0%nat = Some (DReturned (Some 0%nat)) /\ 0%nat ∈ closes Demo.flushedOnce.
Proof.
  assert (Hr : reachable Demo.flushedOnce).
  { assert (Hrun : forall gs s, reachable s -> reachable (Demo.run gs s)).
    { induction gs as [|g gs IH]; intros s Hs; [done|]. cbn. apply IH. destruct (stepOf g s) as [s'|] eqn:E; [|done].
      eapply reach_step; [done|by eapply step_caller]. }
    apply Hrun. eapply reach_step; [eapply reach_step; [apply reach_init|by apply step_Done]|by apply step_flush]. }
  assert (Hg : callers Demo.flushedOnce !! 0%nat = Some (DReturned (Some 0%nat))) by (by vm_compute).
  split; [done|]. destruct (requestctx_cancel _ Hr) as (_ & _ & Hd & _).
  destruct (Hd 0%nat _ Hg) as (ch & [= <-] & _ & _ & Hclosed). apply Hclosed; [by vm_compute|].
  intros g p Hp. assert (Hc : callers Demo.flushedOnce = <[0%nat := DReturned (Some 0%nat)]> (<[1%nat := FReturned]> ∅)) by (by vm_compute).
  rewrite Hc in Hp. apply lookup_insert_Some in Hp as [[_ <-]|[_ [[_ <-]|[_ ?]]%lookup_insert_Some]]; done.
Defined.
