(* ===== verification/MemFS.v ===== *)
(** * In-memory files

    [server/memfs/memfs.go]: the read-write [MemFile] and the read-only
    [StaticFile].  A file is the record of its fields; each method is one
    critical section under the file's lock.  The theorems give the contents
    after a write as those of a sparse file, and the bound on its size that
    every operation keeps. *)

From S2P Require Import Prelude Types Errno.

Definition maxMemFileSize : Z := MaxDataSize.

Module MemFile.

Record t : Type := mk { data : bytes; mode : Z; uid : Z; gid : Z }.

Definition setData (bs : bytes) (f : t) : t := mk bs (mode f) (uid f) (gid f).

Definition NewFileWithMode (data : bytes) (mode : Z) : t := mk data mode 0 0.
Definition NewFile (data : bytes) : t := NewFileWithMode data 0x1a4.
Definition Snapshot (f : t) : bytes := data f.

Definition Replace (bs : bytes) (f : t) : result unit * t :=
  if maxMemFileSize <? Z.of_nat (length bs) then (Err (ErrnoError EFBIG), f)
  else (Ok tt, setData bs f).

(** [copy(dst, src)]: the destination after the call. *)
Definition copy (dst src : bytes) : bytes := take (length dst) src ++ drop (length src) dst.

(** The count and [buf] after the call.  [data[offset:end]] is in bounds:
    see [read_range]. *)
Definition Read (buf : bytes) (offset : Z) (f : t) : result Z * bytes :=
  let size := Z.of_nat (length (data f)) in
  if size <=? offset then (Ok 0, buf)
  else
    let end_ := Z.min (uint_wrap 64 (offset + Z.of_nat (length buf))) size in
    let src := take (Z.to_nat (end_ - offset)) (drop (Z.to_nat offset) (data f)) in
    (Ok (Z.of_nat (Nat.min (length buf) (length src))), copy buf src).

Definition checkedSize (offset count : Z) : result Z :=
  if (maxMemFileSize <? offset) || (uint_wrap 64 (maxMemFileSize - offset) <? count)
  then Err (ErrnoError EFBIG)
  else Ok (offset + count).

(** [make([]byte, n)] with [data] copied to its start. *)
Definition grow (n : Z) (data : bytes) : bytes :=
  copy (repeat (byte_of_Z 0) (Z.to_nat n)) data.

Definition Write (bs : bytes) (offset : Z) (f : t) : result Z * t :=
  match checkedSize offset (Z.of_nat (length bs)) with
  | Err e => (Err e, f)
  | Ok end_ =>
      let d := if Z.of_nat (length (data f)) <? end_ then grow end_ (data f) else data f in
      (Ok (uint_wrap 32 (Z.of_nat (length bs))),
       setData (take (Z.to_nat offset) d ++ copy (drop (Z.to_nat offset) d) bs) f)
  end.

Definition has (mask flag : Z) : bool := negb (Z.land mask flag =? 0).

Definition Setattr (attr : SetAttr.t) (f : t) : result unit * t :=
  let valid := SetAttr.Valid attr in
  let newSize := SetAttr.Size attr in
  if has valid SetAttrSize && (maxMemFileSize <? newSize) then (Err (ErrnoError EFBIG), f)
  else
    let f := if has valid SetAttrMode then mk (data f) (SetAttr.Mode attr) (uid f) (gid f) else f in
    let f := if has valid SetAttrUID then mk (data f) (mode f) (SetAttr.UID attr) (gid f) else f in
    let f := if has valid SetAttrGID then mk (data f) (mode f) (uid f) (SetAttr.GID attr) else f in
    (Ok tt,
     if has valid SetAttrSize then
       let n := Z.of_nat (length (data f)) in
       if newSize <? n then setData (take (Z.to_nat newSize) (data f)) f
       else if n <? newSize then setData (grow newSize (data f)) f
       else f
     else f).

Definition Getattr (f : t) : Attr.t :=
  let m := if mode f =? 0 then 0x1a4 else mode f in
  Attr.mk 0 QID.zero m (uid f) (gid f) 1 0 (Z.of_nat (length (data f))) 0 0 0 0 0 0 0 0 0 0 0 0.

(** ** Contents as those of a sparse file *)

(** The byte at an offset, 0 past the end. *)
Definition byteAt (d : bytes) (i : nat) : Byte.byte := nth i d (byte_of_Z 0).

Definition size_ok (f : t) : Prop := Z.of_nat (length (data f)) <= maxMemFileSize.

Lemma length_copy dst src : length (copy dst src) = length dst.
Proof. unfold copy. rewrite length_app, length_take, length_drop. lia. Qed.

Lemma copy_fits dst src : (length src <= length dst)%nat -> copy dst src = src ++ drop (length src) dst.
Proof. intros H. unfold copy. by rewrite take_ge. Qed.

Lemma length_grow n d : length (grow n d) = Z.to_nat n.
Proof. unfold grow. by rewrite length_copy, repeat_length. Qed.

Lemma byteAt_repeat n i : byteAt (repeat (byte_of_Z 0) n) i = byte_of_Z 0.
Proof. unfold byteAt. apply nth_repeat. Qed.

Lemma byteAt_app a b i :
  byteAt (a ++ b) i = if (i <? length a)%nat then byteAt a i else byteAt b (i - length a)%nat.
Proof. unfold byteAt. destruct (Nat.ltb_spec i (length a)); [by apply app_nth1|by apply app_nth2]. Qed.

Lemma byteAt_drop n d i : byteAt (drop n d) i = byteAt d (n + i)%nat.
Proof. unfold byteAt. apply nth_skipn. Qed.

Lemma byteAt_take n d i : (i < n)%nat -> byteAt (take n d) i = byteAt d i.
Proof. unfold byteAt. intros H. by apply nth_firstn_lt || (rewrite nth_firstn; by destruct (Nat.ltb_spec i n); [|lia]). Qed.

Lemma byteAt_past d i : (length d <= i)%nat -> byteAt d i = byte_of_Z 0.
Proof. apply nth_overflow. Qed.

Lemma byteAt_grow n d i : (length d <= Z.to_nat n)%nat -> byteAt (grow n d) i = byteAt d i.
Proof.
  intros H. unfold grow. rewrite copy_fits by by rewrite repeat_length. rewrite byteAt_app.
  destruct (Nat.ltb_spec i (length d)); [done|]. rewrite byteAt_drop, byteAt_repeat. by rewrite byteAt_past.
Qed.

(** Reading is the slice of the contents that the buffer takes. *)
Lemma Read_slice buf offset f :
  0 <= offset -> size_ok f -> Z.of_nat (length buf) < 2 ^ 32 ->
  let src := take (length buf) (drop (Z.to_nat offset) (data f)) in
  Read buf offset f = (Ok (Z.of_nat (length src)), src ++ drop (length src) buf).
Proof.
  intros Ho Hs Hb src. unfold Read. unfold size_ok, maxMemFileSize, MaxDataSize in Hs.
  change (Z.shiftl 1 24) with (2 ^ 24) in Hs. destruct (Z.leb_spec (Z.of_nat (length (data f))) offset).
  - assert (src = []) as ->; [|done]. unfold src. rewrite drop_ge by lia. by destruct (length buf).
  - rewrite uint_wrap_id by (unfold is_uint; lia).
    assert (take (Z.to_nat (Z.min (offset + Z.of_nat (length buf)) (Z.of_nat (length (data f))) - offset))
      (drop (Z.to_nat offset) (data f)) = src) as ->.
    { unfold src. destruct (Z.min_spec (offset + Z.of_nat (length buf)) (Z.of_nat (length (data f)))) as [[? ->]|[? ->]].
      - f_equal. lia.
      - rewrite !take_ge; [done|rewrite length_drop; lia..]. }
    assert (length src <= length buf)%nat by (unfold src; rewrite length_take; lia).
    rewrite copy_fits by done. by rewrite Nat.min_r by done.
Qed.

Lemma checkedSize_spec offset count :
  0 <= offset -> 0 <= count ->
  checkedSize offset count = if maxMemFileSize <? offset + count then Err (ErrnoError EFBIG) else Ok (offset + count).
Proof.
  intros Ho Hc. unfold checkedSize, maxMemFileSize, MaxDataSize. change (Z.shiftl 1 24) with (2 ^ 24).
  destruct (Z.ltb_spec (2 ^ 24) offset); cbn [orb].
  - by destruct (Z.ltb_spec (2 ^ 24) (offset + count)); [|lia].
  - rewrite uint_wrap_id by (unfold is_uint; lia).
    destruct (Z.ltb_spec (2 ^ 24 - offset) count), (Z.ltb_spec (2 ^ 24) (offset + count)); done || lia.
Qed.

(** The contents after a write at [o] into contents that reach its end. *)
Lemma splice_spec (d bs : bytes) o :
  (o + length bs <= length d)%nat ->
  let d' := take o d ++ copy (drop o d) bs in
  length d' = length d /\
  forall i, byteAt d' i = if (o <=? i)%nat && (i <? o + length bs)%nat then byteAt bs (i - o) else byteAt d i.
Proof.
  intros H d'. unfold d'. rewrite copy_fits by (rewrite length_drop; lia).
  split; [rewrite !length_app, length_take, !length_drop; lia|]. intros i.
  rewrite !byteAt_app, drop_drop, length_take, Nat.min_l by lia.
  destruct (Nat.ltb_spec i o), (Nat.leb_spec o i); try lia; cbn [andb]; [by apply byteAt_take|].
  destruct (Nat.ltb_spec (i - o) (length bs)), (Nat.ltb_spec i (o + length bs)); try lia; [done|].
  rewrite byteAt_drop. f_equal. lia.
Qed.

Lemma Write_ok bs offset f :
  0 <= offset -> offset + Z.of_nat (length bs) <= maxMemFileSize ->
  let o := Z.to_nat offset in
  exists d', Write bs offset f = (Ok (Z.of_nat (length bs)), setData d' f) /\
    length d' = Nat.max (length (data f)) (o + length bs) /\
    forall i, byteAt d' i = if (o <=? i)%nat && (i <? o + length bs)%nat then byteAt bs (i - o) else byteAt (data f) i.
Proof.
  intros Ho Hm o. unfold Write. rewrite checkedSize_spec by lia.
  assert (Hb : Z.of_nat (length bs) <= 2 ^ 24) by (revert Hm; unfold maxMemFileSize, MaxDataSize; change (Z.shiftl 1 24) with (2 ^ 24); lia).
  destruct (Z.ltb_spec maxMemFileSize (offset + Z.of_nat (length bs))); [lia|].
  rewrite uint_wrap_id by (unfold is_uint; lia). eexists. split; [reflexivity|]. fold o.
  destruct (Z.ltb_spec (Z.of_nat (length (data f))) (offset + Z.of_nat (length bs))).
  - destruct (splice_spec (grow (offset + Z.of_nat (length bs)) (data f)) bs o) as [Hl Hi].
    { rewrite length_grow. lia. }
    rewrite Hl, length_grow. split; [lia|]. intros i. rewrite Hi.
    destruct (_ && _); [done|]. apply byteAt_grow. lia.
  - destruct (splice_spec (data f) bs o) as [Hl Hi]; [lia|]. rewrite Hl. split; [lia|]. exact Hi.
Qed.

Lemma Write_too_big bs offset f :
  0 <= offset -> maxMemFileSize < offset + Z.of_nat (length bs) ->
  Write bs offset f = (Err (ErrnoError EFBIG), f).
Proof.
  intros Ho Hm. unfold Write. rewrite checkedSize_spec by lia.
  by destruct (Z.ltb_spec maxMemFileSize (offset + Z.of_nat (length bs))); [|lia].
Qed.

Lemma Setattr_size attr f r f' :
  Setattr attr f = (r, f') -> 0 <= SetAttr.Size attr -> size_ok f -> size_ok f'.
Proof.
  unfold Setattr. intros E H0 Hs. destruct (has _ SetAttrSize) eqn:Hv; cbn [andb] in E.
  2:{ injection E as <- <-. revert Hs. unfold size_ok. by repeat case_match. }
  destruct (Z.ltb_spec maxMemFileSize (SetAttr.Size attr)); [by injection E as <- <-|]. injection E as <- <-.
  set (g := if has _ SetAttrGID then _ else _).
  assert (data g = data f) as Hg by (unfold g; by repeat case_match).
  unfold size_ok in *. rewrite <- Hg in Hs. clearbody g.
  destruct (Z.ltb_spec (SetAttr.Size attr) (Z.of_nat (length (data g)))); cbn.
  - rewrite length_take. lia.
  - destruct (Z.ltb_spec (Z.of_nat (length (data g))) (SetAttr.Size attr)); cbn; [rewrite length_grow|]; lia.
Qed.

(** Truncation and extension keep the bytes below the new size. *)
Lemma Setattr_data attr f :
  has (SetAttr.Valid attr) SetAttrSize = true -> 0 <= SetAttr.Size attr <= maxMemFileSize ->
  let f' := snd (Setattr attr f) in
  length (data f') = Z.to_nat (SetAttr.Size attr) /\
  forall i, (i < Z.to_nat (SetAttr.Size attr))%nat -> byteAt (data f') i = byteAt (data f) i.
Proof.
  intros Hv Hs. cbv zeta. unfold Setattr. rewrite Hv. cbn [andb].
  destruct (Z.ltb_spec maxMemFileSize (SetAttr.Size attr)); [lia|]. cbn [snd].
  set (g := if has _ SetAttrGID then _ else _).
  assert (data g = data f) as Hg by (unfold g; by repeat case_match). rewrite <- Hg. clearbody g.
  destruct (Z.ltb_spec (SetAttr.Size attr) (Z.of_nat (length (data g)))); cbn.
  - rewrite length_take. split; [lia|]. intros i Hi. by apply byteAt_take.
  - destruct (Z.ltb_spec (Z.of_nat (length (data g))) (SetAttr.Size attr)); cbn.
    + rewrite length_grow. split; [lia|]. intros i Hi. apply byteAt_grow. lia.
    + split; [lia|done].
Qed.

(** ** Operations in any order *)

Inductive Op : Type :=
  | OWrite (bs : bytes) (offset : Z)
  | OSetattr (attr : SetAttr.t)
  | OReplace (bs : bytes).

Definition op_ok (op : Op) : Prop :=
  match op with
  | OWrite _ offset => u64 offset
  | OSetattr attr => SetAttr.wf attr
  | OReplace _ => True
  end.

Definition apply (op : Op) (f : t) : t :=
  match op with
  | OWrite bs offset => snd (Write bs offset f)
  | OSetattr attr => snd (Setattr attr f)
  | OReplace bs => snd (Replace bs f)
  end.

Lemma apply_size op f : op_ok op -> size_ok f -> size_ok (apply op f).
Proof.
  destruct op as [bs offset|attr|bs]; cbn; intros Hop Hs.
  - destruct Hop as [Ho _]. destruct (Z.le_gt_cases (offset + Z.of_nat (length bs)) maxMemFileSize) as [Hm|Hm].
    + destruct (Write_ok bs offset f Ho Hm) as (d' & -> & Hl & _). unfold size_ok in *. cbn. rewrite Hl. lia.
    + by rewrite Write_too_big.
  - destruct (Setattr attr f) as [r f'] eqn:E. eapply Setattr_size; [done| |done].
    destruct Hop as (_ & _ & _ & _ & H & _). apply H.
  - unfold Replace. destruct (Z.ltb_spec maxMemFileSize (Z.of_nat (length bs))); [done|]. unfold size_ok. cbn. lia.
Qed.

(** A memory file is a bounded sparse file: after any sequence of writes,
    truncations, extensions and replacements from an empty file its size is at
    most [maxMemFileSize]; a write that would pass the bound fails with EFBIG
    and changes nothing, any other write at an offset replaces exactly the
    bytes it covers, reads as zero any gap it leaves past the old end and
    never shortens the file. *)
Theorem memfile_writes ops mode bs offset :
  Forall op_ok ops -> u64 offset ->
  let f := fold_left (fun f op => apply op f) ops (NewFileWithMode [] mode) in
  size_ok f /\
  if maxMemFileSize <? offset + Z.of_nat (length bs) then Write bs offset f = (Err (ErrnoError EFBIG), f)
  else
    let o := Z.to_nat offset in
    exists d', Write bs offset f = (Ok (Z.of_nat (length bs)), setData d' f) /\
      length d' = Nat.max (length (data f)) (o + length bs) /\
      forall i, byteAt d' i = if (o <=? i)%nat && (i <? o + length bs)%nat then byteAt bs (i - o) else byteAt (data f) i.
Proof.
  intros Hops [Ho _] f. split.
  - assert (size_ok (NewFileWithMode [] mode)) as H0 by done. unfold f. clear f. revert H0.
    generalize (NewFileWithMode [] mode). induction Hops as [|op ops Hop _ IH]; intros f H0; [done|].
    cbn. by apply IH, apply_size.
  - destruct (Z.ltb_spec maxMemFileSize (offset + Z.of_nat (length bs))); [by apply Write_too_big|by apply Write_ok].
Qed.

Lemma memfile_writes_witness :
  let ops := [OWrite (bytes_of_string "abcdef") 2; OSetattr (SetAttr.mk SetAttrSize 0 0 0 4 0 0 0 0)] in
  let f := fold_left (fun f op => apply op f) ops (NewFileWithMode [] 0) in
  Forall op_ok ops /\ length (data f) = 4%nat /\
  exists d', Write (bytes_of_string "xy") 6 f = (Ok 2, setData d' f) /\ length d' = 8%nat /\
    byteAt d' 5 = byte_of_Z 0 /\ byteAt d' 3 = byte_of_Z 98.
Proof.
  cbv zeta. set (ops := [_; _]).
  assert (Forall op_ok ops) as Hops.
  { apply Forall_cons; split; [cbn; unfold is_uint; lia|]. apply Forall_cons; split; [|by apply Forall_nil].
    repeat split; cbn; unfold SetAttrSize; lia. }
  split; [exact Hops|]. split; [by vm_compute|].
  destruct (memfile_writes ops 0 (bytes_of_string "xy") 6 Hops) as [_ H]; [unfold is_uint; lia|].
  change (maxMemFileSize <? 6 + Z.of_nat (length (bytes_of_string "xy"))) with false in H.
  destruct H as (d' & H1 & H2 & H3). exists d'. split; [exact H1|].
  split; [rewrite H2; by vm_compute|]. split; rewrite H3; by vm_compute.
Defined.
End MemFile.

(** ** Read-only files *)

Module StaticFile.
Record t : Type := mk { content : string; mode : Z }.

Definition NewStaticFileWithMode (content : string) (mode : Z) : t := mk content mode.
Definition NewStaticFile (content : string) : t := NewStaticFileWithMode content 0x124.

Definition Getattr (f : t) : Attr.t :=
  let m := if mode f =? 0 then 0x124 else mode f in
  Attr.mk 0 QID.zero m 0 0 1 0 (Z.of_nat (length (bytes_of_string (content f)))) 0 0 0 0 0 0 0 0 0 0 0 0.

Definition Read (buf : bytes) (offset : Z) (f : t) : result Z * bytes :=
  MemFile.Read buf offset (MemFile.NewFile (bytes_of_string (content f))).
End StaticFile.
