(* ===== verification/Bridge.v ===== *)
(** * Server I/O handlers

    [server/bridge.go]: [handleRead], [handleWrite], [handleReaddir] and what
    they share, on the fid table of [FidTable] and the buffer pool of
    [Bufpool].  The file system a server is built on is the class
    [Capabilities]: for each capability interface, the method of a handle or
    node that implements it.  A handler runs from the table lookup to the
    response without another request in between; what interleaving does to
    the fid is the subject of [FidLife].

    The theorems: a response never exceeds the negotiated msize, whatever the
    file system returns; and no I/O reaches the file system through a fid that
    is not open. *)

From S2P Require Import Prelude GoIO Types Errno Proto Messages P9l P9u Message Dirents Bufpool FidTable.

(** [server/conn.go] *)
Inductive protocol : Type := protocolNone | protocolL | protocolU.

#[export] Instance protocol_eq_dec : EqDecision protocol.
Proof. solve_decision. Defined.

Definition errorMsg (p : protocol) (errno : Errno) : Message :=
  match p with
  | protocolU => MRerror (Rerror.mk (Errno_Error errno) errno)
  | _ => MRlerror (Rlerror.mk errno)
  end.

(** The capability interfaces: [None] when the value does not implement one.
    A method that fills a buffer returns it with its length unchanged. *)
Class Capabilities (W Node Handle XattrWriter : Type) : Type := {
  FileReader : Handle -> option (bytes -> Z -> W -> result Z * bytes * W);
  FileWriter : Handle -> option (bytes -> Z -> W -> result Z * W);
  FileRawReaddirer : Handle -> option (bytes -> Z -> W -> result Z * bytes * W);
  FileReaddirer : Handle -> option (W -> result (list Dirent.t) * W);
  NodeReader : Node -> option (bytes -> Z -> W -> result Z * bytes * W);
  NodeWriter : Node -> option (bytes -> Z -> W -> result Z * W);
  NodeRawReaddirer : Node -> option (bytes -> Z -> W -> result Z * bytes * W);
  NodeReaddirer : Node -> option (W -> result (list Dirent.t) * W);
  XattrWriter_Write : XattrWriter -> bytes -> W -> result Z * W
}.

Definition validReadCount (n size : Z) : bool := (0 <=? n) && (n <=? size).
Definition validWriteCount (count payloadLen : Z) : bool :=
  (0 <=? count) && (uint_wrap 64 count <=? payloadLen).

Section Bridge.
Context {W Node Handle XattrWriter : Type} `{Capabilities W Node Handle XattrWriter} `{BufPool}.
Abbreviation FS := (fidState Node Handle XattrWriter).

(** The connection's negotiated state. *)
Context (msize : Z) (proto : protocol).

(** The fid table, the file system's state, and the calls of [releaseNow]. *)
Record Server : Type := mkServer {
  fids : fidTable Node Handle XattrWriter;
  world : W;
  released : list (@Event Node Handle)
}.

Definition setFs (l : Loc) (fs : FS) (s : Server) : Server :=
  mkServer (modify l (fun _ => fs) (fids s)) (world s) (released s).
Definition setWorld (w : W) (s : Server) : Server := mkServer (fids s) w (released s).
Definition fsAt (l : Loc) (s : Server) : option FS := heap (fids s) !! l.

Definition set_xattrData (bs : bytes) (fs : FS) : FS :=
  mkFidState (node fs) (path fs) (state fs) (handle fs) (dirCache fs) (dirCached fs) (ioRefs fs)
    (closing fs) (closeNode fs) (xattrNode fs) (xattrName fs) bs (xattrSize fs) (xattrFlags fs)
    (xattrWriter fs).
Definition set_dir (ds : list Dirent.t) (cached : bool) (fs : FS) : FS :=
  mkFidState (node fs) (path fs) (state fs) (handle fs) ds cached (ioRefs fs)
    (closing fs) (closeNode fs) (xattrNode fs) (xattrName fs) (xattrData fs) (xattrSize fs) (xattrFlags fs)
    (xattrWriter fs).

Definition clampIOUnit (hint : Z) : Z :=
  let maxIOUnit := uint_wrap 32 (msize - HeaderSize - 4) in
  if (hint =? 0) || (maxIOUnit <? hint) then maxIOUnit else hint.

(** [maxData := c.msize - proto.HeaderSize - 4; if m.Count > maxData {...}] *)
Definition clampCount (count : Z) : Z :=
  let maxData := uint_wrap 32 (msize - HeaderSize - 4) in
  if maxData <? count then maxData else count.

(** The filled prefix, or an error response. *)
Definition fillPooled (count : Z) (read : bytes -> W -> result Z * bytes * W) (w : W)
    : (bytes + Message) * W :=
  let buf := take (Z.to_nat count) (getMsgBuf count) in
  match read buf w with
  | (Err e, _, w) => (inr (errorMsg proto (errnoFromError e)), w)
  | (Ok n, buf', w) =>
      if validReadCount n (Z.of_nat (length buf))
      then (inl (take (Z.to_nat n) buf'), w)
      else (inr (errorMsg proto EIO), w)
  end.

(** [if !fs.beginIO() { return EBADF }; defer fs.endIO(...)] around [k]. *)
Definition withIO (l : Loc) (k : FS -> Server -> Message * Server) (s : Server) : Message * Server :=
  match fsAt l s with
  | None => (errorMsg proto EBADF, s)
  | Some fs =>
      match beginIO fs with
      | (false, _) => (errorMsg proto EBADF, s)
      | (true, fs1) =>
          let '(resp, s2) := k fs1 (setFs l fs1 s) in
          match fsAt l s2 with
          | None => (resp, s2)
          | Some fs2 =>
              let '(r, fs3) := endIO fs2 in
              let s3 := setFs l fs3 s2 in
              (resp, mkServer (fids s3) (world s3)
                 (released s3 ++ match r with Some cn => releaseNow cn fs3 | None => [] end))
          end
      end
  end.

(** A read that fills a pooled buffer, as a response. *)
Definition fillResponse (mk : bytes -> Message) (count offset : Z)
    (read : bytes -> Z -> W -> result Z * bytes * W) (s : Server) : Message * Server :=
  match fillPooled count (fun buf => read buf offset) (world s) with
  | (inl data, w) => (mk data, setWorld w s)
  | (inr resp, w) => (resp, setWorld w s)
  end.

(** The first capability of the open handle, if there is one. *)
Definition onHandle {A} (cap : Handle -> option A) (fs : FS) : option A := handle fs ≫= cap.

Definition mkRread (data : bytes) : Message := MRread (Rread.mk data).
Definition mkRreaddir (data : bytes) : Message := MRreaddir (Rreaddir.mk data).

(** The cached xattr buffer of a [fidXattrRead] fid. *)
Definition readXattr (fs : FS) (m : Tread.t) : Message :=
  let count := clampCount (Tread.Count m) in
  let offset := Tread.Offset m in
  let n := Z.of_nat (length (xattrData fs)) in
  if n <=? offset then mkRread []
  else
    let end_ := Z.min (uint_wrap 64 (offset + count)) n in
    let count := end_ - offset in
    let buf := take (Z.to_nat count) (getMsgBuf count) in
    let src := take (Z.to_nat count) (drop (Z.to_nat offset) (xattrData fs)) in
    mkRread (take (length buf) src ++ drop (length src) buf).

Definition handleRead (m : Tread.t) (s : Server) : Message * Server :=
  match get (fids s) (Tread.Fid m) with
  | None => (errorMsg proto EBADF, s)
  | Some l =>
      match fsAt l s with
      | None => (errorMsg proto EBADF, s)
      | Some fs =>
          if decide (state fs = fidXattrRead) then (readXattr fs m, s)
          else if decide (state fs <> fidOpened) then (errorMsg proto EBADF, s)
          else withIO l (fun fs s =>
            let count := clampCount (Tread.Count m) in
            match onHandle FileReader fs with
            | Some read => fillResponse mkRread count (Tread.Offset m) read s
            | None =>
                match NodeReader (node fs) with
                | Some read => fillResponse mkRread count (Tread.Offset m) read s
                | None => (errorMsg proto ENOSYS, s)
                end
            end) s
      end
  end.

(** [Rwrite], or EIO for a count out of range. *)
Definition writeResponse (write : W -> result Z * W) (payload : bytes) (s : Server) : Message * Server :=
  match write (world s) with
  | (Err e, w) => (errorMsg proto (errnoFromError e), setWorld w s)
  | (Ok count, w) =>
      if validWriteCount count (Z.of_nat (length payload))
      then (MRwrite (Rwrite.mk (uint_wrap 32 count)), setWorld w s)
      else (errorMsg proto EIO, setWorld w s)
  end.

(** A write to a [fidXattrWrite] fid. *)
Definition writeXattr (l : Loc) (fs : FS) (m : Twrite.t) (s : Server) : Message * Server :=
  if closing fs then (errorMsg proto EBADF, s)
  else
    let data := Twrite.Data m in
    match xattrWriter fs with
    | Some xw => writeResponse (XattrWriter_Write xw data) data s
    | None =>
        if xattrSize fs <? uint_wrap 64 (Z.of_nat (length (xattrData fs)) + Z.of_nat (length data))
        then (errorMsg proto ENOSPC, s)
        else (MRwrite (Rwrite.mk (uint_wrap 32 (Z.of_nat (length data)))),
              setFs l (set_xattrData (xattrData fs ++ data) fs) s)
    end.

Definition handleWrite (m : Twrite.t) (s : Server) : Message * Server :=
  match get (fids s) (Twrite.Fid m) with
  | None => (errorMsg proto EBADF, s)
  | Some l =>
      match fsAt l s with
      | None => (errorMsg proto EBADF, s)
      | Some fs =>
          if decide (state fs = fidXattrWrite) then writeXattr l fs m s
          else if decide (state fs <> fidOpened) then (errorMsg proto EBADF, s)
          else withIO l (fun fs s =>
            match onHandle FileWriter fs with
            | Some write => writeResponse (write (Twrite.Data m) (Twrite.Offset m)) (Twrite.Data m) s
            | None =>
                match NodeWriter (node fs) with
                | Some write => writeResponse (write (Twrite.Data m) (Twrite.Offset m)) (Twrite.Data m) s
                | None => (errorMsg proto ENOSYS, s)
                end
            end) s
      end
  end.

(** [for i := range dirents { dirents[i].Offset = uint64(i + 1) }] *)
Definition assignOffsets (ds : list Dirent.t) : list Dirent.t :=
  imap (fun i d => Dirent.mk (Dirent.QID d) (uint_wrap 64 (Z.of_nat i + 1)) (Dirent.Type_ d) (Dirent.Name d)) ds.

(** The packed page of [cache] after cookie [offset]. *)
Definition readdirPage (cache : list Dirent.t) (count offset : Z) : Message :=
  let start := Z.of_nat (length cache) in
  let start := if offset <? start then offset else start in
  let view := drop (Z.to_nat start) cache in
  let buf := take (Z.to_nat count) (getMsgBuf count) in
  let '(buf', (n, _)) := EncodeDirentsInto buf view in
  mkRreaddir (take n buf').

Definition readdirSimple (l : Loc) (count offset : Z) (rd : W -> result (list Dirent.t) * W) (fs : FS)
    (s : Server) : Message * Server :=
  if (offset =? 0) || negb (dirCached fs) then
    let fs := set_dir [] false fs in
    match rd (world s) with
    | (Err e, w) => (errorMsg proto (errnoFromError e), setWorld w (setFs l fs s))
    | (Ok dirents, w) =>
        let cache := assignOffsets dirents in
        (readdirPage cache count offset, setWorld w (setFs l (set_dir cache true fs) s))
    end
  else (readdirPage (dirCache fs) count offset, s).

Definition handleReaddir (m : Treaddir.t) (s : Server) : Message * Server :=
  match get (fids s) (Treaddir.Fid m) with
  | None => (errorMsg proto EBADF, s)
  | Some l =>
      match fsAt l s with
      | None => (errorMsg proto EBADF, s)
      | Some fs =>
          if decide (state fs <> fidOpened) then (errorMsg proto EBADF, s)
          else withIO l (fun fs s =>
            let count := clampCount (Treaddir.Count m) in
            let offset := Treaddir.Offset m in
            match onHandle FileRawReaddirer fs with
            | Some raw => fillResponse mkRreaddir count offset raw s
            | None =>
                match onHandle FileReaddirer fs with
                | Some rd => readdirSimple l count offset rd fs s
                | None =>
                    match NodeRawReaddirer (node fs) with
                    | Some raw => fillResponse mkRreaddir count offset raw s
                    | None =>
                        match NodeReaddirer (node fs) with
                        | Some rd => readdirSimple l count offset rd fs s
                        | None => (errorMsg proto ENOSYS, s)
                        end
                    end
                end
            end) s
      end
  end.

(** ** Responses fit *)

(** What a response may carry when [count] bytes were asked for. *)
Definition fits (count : Z) (resp : Message) : Prop :=
  match resp with
  | MRread r =>
      Z.of_nat (length (Rread.Data r)) <= count /\ HeaderSize + Z.of_nat (length (Rread.wire r)) <= msize
  | MRreaddir r =>
      Z.of_nat (length (Rreaddir.Data r)) <= count /\ HeaderSize + Z.of_nat (length (Rreaddir.wire r)) <= msize
  | MRwrite r => 0 <= Rwrite.Count r <= count
  | MRerror _ | MRlerror _ => True
  | _ => False
  end.

Lemma errorMsg_fits count e : fits count (errorMsg proto e).
Proof. by destruct proto. Qed.

Hypothesis Hmsize : HeaderSize + 4 <= msize < 2 ^ 32.

Lemma clampCount_bounds count : 0 <= count -> 0 <= clampCount count <= count /\ clampCount count <= msize - HeaderSize - 4.
Proof.
  intros Hc. unfold clampCount. rewrite uint_wrap_id by (unfold is_uint, HeaderSize in *; lia).
  destruct (Z.ltb_spec (msize - HeaderSize - 4) count); unfold HeaderSize in *; lia.
Qed.

Lemma length_wire_data (data : bytes) : Z.of_nat (length (wire_data data)) = 4 + Z.of_nat (length data).
Proof. unfold wire_data. rewrite length_app, length_le_bytes. lia. Qed.

Lemma data_fits count (data : bytes) :
  0 <= count -> Z.of_nat (length data) <= clampCount count ->
  fits count (mkRread data) /\ fits count (mkRreaddir data).
Proof.
  intros Hc Hl. destruct (clampCount_bounds count Hc) as [H1 H2]. cbn.
  unfold Rread.wire, Rreaddir.wire. cbn. rewrite length_wire_data. lia.
Qed.

Lemma fillPooled_fits count read w :
  match fillPooled count read w with
  | (inl data, _) => Z.of_nat (length data) <= Z.max 0 count
  | (inr resp, _) => forall c, fits c resp
  end.
Proof.
  unfold fillPooled. destruct (read _ w) as [[[n|e] buf'] w']; [|intros c; apply errorMsg_fits].
  destruct (validReadCount _ _) eqn:E; [|intros c; apply errorMsg_fits].
  unfold validReadCount in E. apply andb_true_iff in E as [_ E%Z.leb_le].
  rewrite length_take in *. lia.
Qed.

Lemma fillResponse_fits mk count offset read s resp s' :
  (mk = mkRread \/ mk = mkRreaddir) -> 0 <= count ->
  fillResponse mk (clampCount count) offset read s = (resp, s') -> fits count resp.
Proof.
  intros Hmk Hc E. unfold fillResponse in E.
  pose proof (fillPooled_fits (clampCount count) (fun buf => read buf offset) (world s)) as Hf.
  destruct (clampCount_bounds count Hc) as [H1 H2].
  destruct (fillPooled _ _ _) as [[data|r] w]; injection E as <- <-; [|apply Hf].
  destruct (data_fits count data Hc) as [Ha Hb]; [lia|]. by destruct Hmk as [-> | ->].
Qed.

Lemma withIO_fits l k s resp s' count :
  (forall fs s1 resp s2, k fs s1 = (resp, s2) -> fits count resp) ->
  withIO l k s = (resp, s') -> fits count resp.
Proof.
  intros Hk E. unfold withIO in E. destruct (fsAt l s) as [fs|]; [|injection E as <- <-; apply errorMsg_fits].
  destruct (beginIO fs) as [[] fs1]; [|injection E as <- <-; apply errorMsg_fits].
  destruct (k fs1 _) as [r s2] eqn:Ek. apply Hk in Ek.
  destruct (fsAt l s2); [|by injection E as <- <-]. destruct (endIO _). by injection E as <- <-.
Qed.

Lemma writeResponse_fits write payload s resp s' count :
  Z.of_nat (length payload) <= count -> writeResponse write payload s = (resp, s') -> fits count resp.
Proof.
  intros Hp E. unfold writeResponse in E. destruct (write (world s)) as [[n|e] w].
  2:{ injection E as <- <-. apply errorMsg_fits. }
  destruct (validWriteCount _ _) eqn:Ev; injection E as <- <-; [|apply errorMsg_fits].
  unfold validWriteCount in Ev. apply andb_true_iff in Ev as [H1%Z.leb_le H2%Z.leb_le]. cbn.
  split; [by apply uint_wrap_range|].
  assert (uint_wrap 32 n <= uint_wrap 64 n); [|lia]. unfold uint_wrap.
  replace (n mod 2 ^ 32) with ((n mod 2 ^ 64) mod 2 ^ 32).
  - apply Z.mod_le; [by apply Z.mod_pos_bound|done].
  - apply Z.mod_mod_divide. by exists (2 ^ 32).
Qed.

Lemma readdirPage_fits cache count offset :
  0 <= count -> fits count (readdirPage cache (clampCount count) offset).
Proof.
  intros Hc. unfold readdirPage. destruct (clampCount_bounds count Hc) as [H1 H2].
  set (buf := take _ _). unfold EncodeDirentsInto.
  rewrite encodeLoop_spec by lia. apply data_fits; [done|]. rewrite length_take. cbn [Nat.add].
  pose proof (length_fitting (length buf - 0) (drop (Z.to_nat (if offset <? Z.of_nat (length cache)
    then offset else Z.of_nat (length cache))) cache)) as Hl.
  assert (length buf <= Z.to_nat (clampCount count))%nat by (unfold buf; rewrite length_take; lia). lia.
Qed.

Lemma readdirSimple_fits l count offset rd fs s resp s' :
  0 <= count -> readdirSimple l (clampCount count) offset rd fs s = (resp, s') -> fits count resp.
Proof.
  intros Hc E. unfold readdirSimple in E. destruct (_ || _); [|injection E as <- <-; by apply readdirPage_fits].
  destruct (rd _) as [[ds|e] w]; injection E as <- <-; [by apply readdirPage_fits|apply errorMsg_fits].
Qed.

Lemma handleRead_fits m s resp s' :
  0 <= Tread.Count m -> 0 <= Tread.Offset m -> handleRead m s = (resp, s') -> fits (Tread.Count m) resp.
Proof.
  intros Hc Ho E. unfold handleRead in E. destruct (get _ _) as [l|]; [|injection E as <- <-; apply errorMsg_fits].
  destruct (fsAt l s) as [fs|]; [|injection E as <- <-; apply errorMsg_fits].
  case_decide.
  { injection E as <- <-. unfold readXattr. destruct (clampCount_bounds _ Hc) as [Hc1 Hc2].
    destruct (Z.leb_spec (Z.of_nat (length (xattrData fs))) (Tread.Offset m)); [apply data_fits; cbn; lia|].
    set (cnt := _ - Tread.Offset m). set (buf := take _ (getMsgBuf cnt)). set (src := take _ (drop _ _)).
    apply data_fits; [done|]. rewrite length_app, length_take, length_drop.
    assert (length buf <= Z.to_nat cnt)%nat by (unfold buf; rewrite length_take; lia).
    assert (uint_wrap 64 (Tread.Offset m + clampCount (Tread.Count m)) <= Tread.Offset m + clampCount (Tread.Count m))
      by (apply Z.mod_le; lia). lia. }
  case_decide; [injection E as <- <-; apply errorMsg_fits|].
  eapply withIO_fits; [|exact E]. cbn. intros fs1 s1 r s2 E1.
  destruct (onHandle _ _); [eapply fillResponse_fits; [by left|done|exact E1]|].
  destruct (NodeReader _); [eapply fillResponse_fits; [by left|done|exact E1]|].
  injection E1 as <- <-. apply errorMsg_fits.
Qed.

Lemma handleWrite_fits m s resp s' :
  handleWrite m s = (resp, s') -> fits (Z.of_nat (length (Twrite.Data m))) resp.
Proof.
  intros E. unfold handleWrite in E. destruct (get _ _) as [l|]; [|injection E as <- <-; apply errorMsg_fits].
  destruct (fsAt l s) as [fs|]; [|injection E as <- <-; apply errorMsg_fits].
  case_decide.
  { unfold writeXattr in E. destruct (closing fs); [injection E as <- <-; apply errorMsg_fits|].
    destruct (xattrWriter fs); [by eapply writeResponse_fits|].
    destruct (_ <? _); injection E as <- <-; [apply errorMsg_fits|]. cbn.
    split; [by apply uint_wrap_range|]. apply Z.mod_le; lia. }
  case_decide; [injection E as <- <-; apply errorMsg_fits|].
  eapply withIO_fits; [|exact E]. cbn. intros fs1 s1 r s2 E1.
  destruct (onHandle _ _); [by eapply writeResponse_fits|].
  destruct (NodeWriter _); [by eapply writeResponse_fits|].
  injection E1 as <- <-. apply errorMsg_fits.
Qed.

Lemma handleReaddir_fits m s resp s' :
  0 <= Treaddir.Count m -> handleReaddir m s = (resp, s') -> fits (Treaddir.Count m) resp.
Proof.
  intros Hc E. unfold handleReaddir in E. destruct (get _ _) as [l|]; [|injection E as <- <-; apply errorMsg_fits].
  destruct (fsAt l s) as [fs|]; [|injection E as <- <-; apply errorMsg_fits].
  case_decide; [injection E as <- <-; apply errorMsg_fits|].
  eapply withIO_fits; [|exact E]. cbn. intros fs1 s1 r s2 E1.
  destruct (onHandle FileRawReaddirer _); [eapply fillResponse_fits; [by right|done|exact E1]|].
  destruct (onHandle FileReaddirer _); [by eapply readdirSimple_fits|].
  destruct (NodeRawReaddirer _); [eapply fillResponse_fits; [by right|done|exact E1]|].
  destruct (NodeReaddirer _); [by eapply readdirSimple_fits|].
  injection E1 as <- <-. apply errorMsg_fits.
Qed.

(** ** The fid after an I/O call *)

(** The same fid, up to its directory cache and xattr buffer. *)
Definition sameFid (fs fs' : FS) : Prop :=
  set_dir [] false (set_xattrData [] fs) = set_dir [] false (set_xattrData [] fs').

(** The same bindings, states up to caches, and nothing released. *)
Definition sameFids (s s' : Server) : Prop :=
  FidTable.fids (fids s') = FidTable.fids (fids s) /\ released s' = released s /\
  forall l, option_Forall2 sameFid (fsAt l s) (fsAt l s').

#[export] Instance sameFid_equiv : Equivalence sameFid.
Proof. unfold sameFid. split; [by intros x|by intros x y ->|intros x y z; congruence]. Qed.

#[export] Instance sameFids_preorder : PreOrder sameFids.
Proof.
  unfold sameFids. split.
  - intros s. repeat split. intros l. by destruct (fsAt l s); constructor.
  - intros s1 s2 s3 (F1 & R1 & E1) (F2 & R2 & E2). split; [congruence|]. split; [congruence|].
    intros l. specialize (E1 l). specialize (E2 l). destruct E1; inversion E2; constructor. by etransitivity.
Qed.

Lemma setFs_same l fs fs' s : fsAt l s = Some fs -> sameFid fs fs' -> sameFids s (setFs l fs' s).
Proof.
  intros Hl Hs. unfold sameFids, setFs, fsAt, modify in *. cbn. split; [done|]. split; [done|].
  intros l'. destruct (decide (l = l')) as [<-|Hne]; [rewrite lookup_alter_eq, Hl; by constructor|].
  rewrite lookup_alter_ne by done. by destruct (heap (fids s) !! l'); constructor.
Qed.

Lemma setFs_fsAt l fs fs' s : fsAt l s = Some fs -> fsAt l (setFs l fs' s) = Some fs'.
Proof. unfold fsAt, setFs, modify. cbn. intros H'. by rewrite lookup_alter_eq, H'. Qed.

Lemma setWorld_same w s : sameFids s (setWorld w s).
Proof. repeat split. intros l. change (option_Forall2 sameFid (fsAt l s) (fsAt l s)). by destruct (fsAt l s); constructor. Qed.

Lemma withIO_same l k s resp s' :
  (forall fs s1, fsAt l s1 = Some fs -> sameFids s1 (snd (k fs s1))) ->
  withIO l k s = (resp, s') -> sameFids s s'.
Proof.
  intros Hk E. unfold withIO in E. destruct (fsAt l s) as [fs|] eqn:Hl; [|by injection E as <- <-].
  unfold beginIO in E. destruct (closing fs) eqn:Hc; [by injection E as <- <-|].
  set (fs1 := set_io _ fs) in *. pose proof (setFs_fsAt l fs fs1 s Hl) as Hl1.
  specialize (Hk fs1 (setFs l fs1 s) Hl1). destruct (k fs1 _) as [r s2]. cbn in Hk.
  destruct Hk as (HF & HR & Hsame). pose proof (Hsame l) as Hsl. rewrite Hl1 in Hsl.
  inversion Hsl as [? fs2 Hfs2 Hx Hl2|]; subst. rewrite <- Hl2 in E.
  assert (ioRefs fs2 = ioRefs fs + 1 /\ closing fs2 = false) as [Hio Hcl].
  { split; [exact (eq_sym (f_equal ioRefs Hfs2))|]. rewrite <- Hc. exact (eq_sym (f_equal closing Hfs2)). }
  unfold endIO in E. cbn [closing set_io] in E. rewrite Hcl in E. cbn [andb] in E. injection E as <- <-.
  unfold sameFids. cbn. split; [exact HF|]. split; [by rewrite app_nil_r|]. intros l'.
  unfold fsAt, modify in *. cbn in *. specialize (Hsame l').
  destruct (decide (l = l')) as [<-|Hne].
  - rewrite Hl, lookup_alter_eq, <- Hl2. constructor.
    apply (f_equal (set_io (ioRefs fs))) in Hfs2. unfold sameFid. rewrite Hio.
    replace (ioRefs fs + 1 - 1) with (ioRefs fs) by lia. etransitivity; [|exact Hfs2]. by destruct fs.
  - rewrite lookup_alter_ne in Hsame by done. by rewrite lookup_alter_ne.
Qed.

Lemma fillResponse_same mk count offset read s : sameFids s (snd (fillResponse mk count offset read s)).
Proof. unfold fillResponse. destruct (fillPooled _ _ _) as [[]]; apply setWorld_same. Qed.

Lemma writeResponse_same write payload s : sameFids s (snd (writeResponse write payload s)).
Proof.
  unfold writeResponse. destruct (write (world s)) as [[n|e] w]; [|apply setWorld_same].
  destruct (validWriteCount _ _); apply setWorld_same.
Qed.

Lemma readdirSimple_same l count offset rd fs s :
  fsAt l s = Some fs -> sameFids s (snd (readdirSimple l count offset rd fs s)).
Proof.
  intros Hl. unfold readdirSimple. destruct (_ || _); [|done].
  destruct (rd (world s)) as [[ds|e] w]; cbn; (etransitivity; [|apply setWorld_same]);
    eapply setFs_same; done.
Qed.

Ltac withIO_same_tac :=
  eapply withIO_same; [|eassumption]; cbn; intros fs1 s1 Hl1;
  repeat first
    [ apply fillResponse_same | apply writeResponse_same | by apply readdirSimple_same | reflexivity
    | case_match ].

Lemma handleRead_same m s resp s' : handleRead m s = (resp, s') -> sameFids s s'.
Proof.
  intros E. unfold handleRead in E. destruct (get _ _) as [l|]; [|by injection E as <- <-].
  destruct (fsAt l s) as [fs|]; [|by injection E as <- <-].
  case_decide; [by injection E as <- <-|]. case_decide; [by injection E as <- <-|]. withIO_same_tac.
Qed.

Lemma handleWrite_same m s resp s' : handleWrite m s = (resp, s') -> sameFids s s'.
Proof.
  intros E. unfold handleWrite in E. destruct (get _ _) as [l|]; [|by injection E as <- <-].
  destruct (fsAt l s) as [fs|] eqn:Hl; [|by injection E as <- <-].
  case_decide.
  { unfold writeXattr in E. destruct (closing fs); [by injection E as <- <-|].
    destruct (xattrWriter fs) as [xw|].
    - pose proof (writeResponse_same (XattrWriter_Write xw (Twrite.Data m)) (Twrite.Data m) s) as Hw.
      by rewrite E in Hw.
    - destruct (_ <? _); injection E as <- <-; [done|].
      apply (setFs_same l fs); [done|]. unfold sameFid. done. }
  case_decide; [by injection E as <- <-|]. withIO_same_tac.
Qed.

Lemma handleReaddir_same m s resp s' : handleReaddir m s = (resp, s') -> sameFids s s'.
Proof.
  intros E. unfold handleReaddir in E. destruct (get _ _) as [l|]; [|by injection E as <- <-].
  destruct (fsAt l s) as [fs|]; [|by injection E as <- <-].
  case_decide; [by injection E as <- <-|]. withIO_same_tac.
Qed.

(** I/O on the fid is refused: unbound, in none of the states [ok], or being
    clunked. *)
Definition refused (fid : Fid) (ok : fidStatus -> Prop) (s : Server) : Prop :=
  match get (fids s) fid ≫= fun l => fsAt l s with
  | None => True
  | Some fs => ~ ok (state fs) \/ (state fs = fidOpened /\ closing fs = true)
  end.

Lemma withIO_refused l k fs s :
  fsAt l s = Some fs -> closing fs = true -> withIO l k s = (errorMsg proto EBADF, s).
Proof. intros Hl Hc. unfold withIO, beginIO. by rewrite Hl, Hc. Qed.

Lemma handleRead_refused m s :
  refused (Tread.Fid m) (fun st => st = fidOpened \/ st = fidXattrRead) s ->
  handleRead m s = (errorMsg proto EBADF, s).
Proof.
  unfold refused, handleRead. destruct (get _ _) as [l|]; [|done]. cbn.
  destruct (fsAt l s) as [fs|] eqn:Hl; [|done]. intros [Hn|[Ho Hc]].
  - case_decide; [by destruct Hn; right|]. case_decide as Hd; [done|]. destruct Hn. by left.
  - rewrite Ho. do 2 (case_decide; [done|]). by eapply withIO_refused.
Qed.

Lemma handleWrite_refused m s :
  refused (Twrite.Fid m) (fun st => st = fidOpened \/ st = fidXattrWrite) s ->
  handleWrite m s = (errorMsg proto EBADF, s).
Proof.
  unfold refused, handleWrite. destruct (get _ _) as [l|]; [|done]. cbn.
  destruct (fsAt l s) as [fs|] eqn:Hl; [|done]. intros [Hn|[Ho Hc]].
  - case_decide; [by destruct Hn; right|]. case_decide as Hd; [done|]. destruct Hn. by left.
  - rewrite Ho. do 2 (case_decide; [done|]). by eapply withIO_refused.
Qed.

Lemma handleReaddir_refused m s :
  refused (Treaddir.Fid m) (fun st => st = fidOpened) s -> handleReaddir m s = (errorMsg proto EBADF, s).
Proof.
  unfold refused, handleReaddir. destruct (get _ _) as [l|]; [|done]. cbn.
  destruct (fsAt l s) as [fs|] eqn:Hl; [|done]. intros [Hn|[Ho Hc]].
  - case_decide as Hd; [done|]. by destruct Hn.
  - rewrite Ho. case_decide; [done|]. by eapply withIO_refused.
Qed.
End Bridge.

(** ** Properties *)

(** C9: whatever a file system implementation returns, a [Tread] or
    [Treaddir] is answered by an error or by at most the bytes it asked for in
    a frame within the negotiated msize, and a [Twrite] by an error or a count
    of at most the bytes it carried: a method that reports an impossible count
    gets EIO. *)
Theorem io_response_bounds {W Node Handle XattrWriter} `{Capabilities W Node Handle XattrWriter} `{BufPool}
    msize proto (s : @Server W Node Handle XattrWriter) :
  HeaderSize + 4 <= msize < 2 ^ 32 ->
  (forall m, Tread.wf m -> fits msize (Tread.Count m) (fst (handleRead msize proto m s))) /\
  (forall m, Twrite.wf m -> fits msize (Z.of_nat (length (Twrite.Data m))) (fst (handleWrite proto m s))) /\
  (forall m, Treaddir.wf m -> fits msize (Treaddir.Count m) (fst (handleReaddir msize proto m s))).
Proof.
  intros Hm. split; [|split]; intros m Hwf.
  - destruct Hwf as (_ & [Ho _] & [Hc _]). destruct (handleRead _ _ _ _) eqn:E. by eapply handleRead_fits.
  - destruct (handleWrite _ _ _) eqn:E. by eapply handleWrite_fits.
  - destruct Hwf as (_ & _ & [Hc _]). destruct (handleReaddir _ _ _ _) eqn:E. by eapply handleReaddir_fits.
Qed.

(** I/O goes only through open fids and leaves them as they were: on a fid
    that is unbound, not opened (nor an xattr fid of the right direction) or
    being clunked, the answer is EBADF and the file system is not called; on
    any other, the registration of the call is undone, so the fid keeps its
    node, handle, state and use count and nothing is released. *)
Theorem io_open_only {W Node Handle XattrWriter} `{Capabilities W Node Handle XattrWriter} `{BufPool}
    msize proto (s : @Server W Node Handle XattrWriter) :
  (forall m, sameFids s (snd (handleRead msize proto m s)) /\
     (refused (Tread.Fid m) (fun st => st = fidOpened \/ st = fidXattrRead) s ->
      handleRead msize proto m s = (errorMsg proto EBADF, s))) /\
  (forall m, sameFids s (snd (handleWrite proto m s)) /\
     (refused (Twrite.Fid m) (fun st => st = fidOpened \/ st = fidXattrWrite) s ->
      handleWrite proto m s = (errorMsg proto EBADF, s))) /\
  (forall m, sameFids s (snd (handleReaddir msize proto m s)) /\
     (refused (Treaddir.Fid m) (fun st => st = fidOpened) s ->
      handleReaddir msize proto m s = (errorMsg proto EBADF, s))).
Proof.
  split; [|split]; intros m; split.
  - destruct (handleRead _ _ _ _) eqn:E. by eapply handleRead_same.
  - apply handleRead_refused.
  - destruct (handleWrite _ _ _) eqn:E. by eapply handleWrite_same.
  - apply handleWrite_refused.
  - destruct (handleReaddir _ _ _ _) eqn:E. by eapply handleReaddir_same.
  - apply handleReaddir_refused.
Qed.

(** *** At a concrete server

    Fid 1 is open on a node that fills any buffer, fid 2 is only walked. *)

Lemma zeros_length n : n <= Z.of_nat (length (repeat (byte_of_Z 0) (Z.to_nat n))).
Proof. rewrite repeat_length. lia. Qed.
Definition zeroPool : BufPool :=
  Build_BufPool (fun n => repeat (byte_of_Z 0) (Z.to_nat n)) zeros_length.

Definition zeroFile : Capabilities unit unit unit unit :=
  Build_Capabilities unit unit unit unit
    (fun _ => None) (fun _ => None) (fun _ => None) (fun _ => None)
    (fun _ => Some (fun buf _ w => (Ok (Z.of_nat (length buf)), buf, w)))
    (fun _ => Some (fun data _ w => (Ok (Z.of_nat (length data) + 1), w)))
    (fun _ => None) (fun _ => None) (fun _ _ w => (Ok 0, w)).

Definition demo : @Server unit unit unit unit :=
  mkServer (mkFidTable (<[0%nat := set_open None (newFidState tt "/a" fidAllocated)]>
                         (<[1%nat := newFidState tt "/b" fidAllocated]> ∅))
              (<[1 := 0%nat]> (<[2 := 1%nat]> ∅))) tt [].

(** A read of 1000 bytes is cut to the 245 that fit, and a writer that claims
    more than it was given gets EIO. *)
Lemma io_response_bounds_witness :
  let read := @handleRead unit unit unit unit zeroFile zeroPool 256 protocolL (Tread.mk 1 0 1000) demo in
  let write := @handleWrite unit unit unit unit zeroFile protocolL (Twrite.mk 1 0 (bytes_of_string "ab")) demo in
  fst read = mkRread (repeat (byte_of_Z 0) 245) /\ fst write = MRlerror (Rlerror.mk EIO) /\
  fits 256 1000 (fst read) /\ fits 256 2 (fst write).
Proof.
  cbv zeta. split; [by vm_compute|]. split; [by vm_compute|].
  destruct (@io_response_bounds unit unit unit unit zeroFile zeroPool 256 protocolL demo) as (Hr & Hw & _);
    [unfold HeaderSize; lia|].
  split; [apply (Hr (Tread.mk 1 0 1000))|apply (Hw (Twrite.mk 1 0 (bytes_of_string "ab")))];
    repeat split; cbn; unfold MaxDataSize; try lia; done.
Defined.

Lemma io_open_only_witness :
  let read := @handleRead unit unit unit unit zeroFile zeroPool 256 protocolL (Tread.mk 2 0 10) demo in
  read = (MRlerror (Rlerror.mk EBADF), demo).
Proof.
  cbv zeta. apply (@io_open_only unit unit unit unit zeroFile zeroPool 256 protocolL demo).
  unfold refused. cbn. left. by intros [|].
Defined.
