(* ===== verification/Inode.v ===== *)
(** * Inode tree

    [server/inode.go]: the state every node embeds - its QID, its place in
    the tree of names, and the count of the fids bound to it.

    A Go [*Inode] is an address; an [Inode] and the node that embeds it are
    one object, so they share the address, and [inited] says that [Init] has
    set the back-reference.  Each method is one critical section.  [range] is
    the order in which Go ranges over a map: some permutation of its entries,
    not the same at each call site. *)

From S2P Require Import Prelude Types Errno.

Abbreviation NodeId := nat.

Record inode : Type := mkInode {
  qid : QID.t;
  parent : option NodeId;
  children : gmap string NodeId;
  refs : Z;
  prunable : bool;
  inited : bool
}.
Definition zeroInode : inode := mkInode QID.zero None ∅ 0 false false.

(** Memory: an object that was never touched is all zeros. *)
Abbreviation Tree := (gmap NodeId inode).
Definition inodeAt (n : NodeId) (t : Tree) : inode := default zeroInode (t !! n).
Definition setInode (n : NodeId) (i : inode) (t : Tree) : Tree := <[n := i]> t.

Definition set_parent (p : option NodeId) (i : inode) : inode :=
  mkInode (qid i) p (children i) (refs i) (prunable i) (inited i).
Definition set_children (c : gmap string NodeId) (i : inode) : inode :=
  mkInode (qid i) (parent i) c (refs i) (prunable i) (inited i).
Definition set_refs (r : Z) (i : inode) : inode :=
  mkInode (qid i) (parent i) (children i) r (prunable i) (inited i).
Definition set_prunable (i : inode) : inode :=
  mkInode (qid i) (parent i) (children i) (refs i) true (inited i).
Definition set_qid (q : QID.t) (i : inode) : inode :=
  mkInode q (parent i) (children i) (refs i) (prunable i) true.

Definition modInode (n : NodeId) (f : inode -> inode) (t : Tree) : Tree := setInode n (f (inodeAt n t)) t.

Definition Init (n : NodeId) (q : QID.t) (t : Tree) : Tree := modInode n (set_qid q) t.
Definition SetPrunable (n : NodeId) (t : Tree) : Tree := modInode n set_prunable t.
Definition QIDof (n : NodeId) (t : Tree) : QID.t := qid (inodeAt n t).
Definition Parent (n : NodeId) (t : Tree) : option NodeId := parent (inodeAt n t).
Definition Children (n : NodeId) (t : Tree) : gmap string NodeId := children (inodeAt n t).

Definition AddChild (n : NodeId) (name : string) (child : NodeId) (t : Tree) : Tree :=
  let t := modInode child (set_parent (Some n)) t in
  modInode n (set_children (<[name := child]> (Children n t))) t.

Definition TryAddChild (n : NodeId) (name : string) (child : NodeId) (t : Tree) : bool * Tree :=
  match Children n t !! name with
  | Some _ => (false, t)
  | None => (true, AddChild n name child t)
  end.

Definition RemoveChild (n : NodeId) (name : string) (t : Tree) : Tree :=
  modInode n (set_children (delete name (Children n t))) t.

(** [check] gets the child and its own number of children. *)
Definition RemoveChildIf (n : NodeId) (name : string) (check : NodeId -> nat -> option GoError) (t : Tree)
    : result unit * Tree :=
  match Children n t !! name with
  | None => (Err (ErrnoError ENOENT), t)
  | Some child =>
      if negb (inited (inodeAt child t)) then (Err (ErrnoError EIO), t)
      else
        match check child (size (Children child t)) with
        | Some e => (Err e, t)
        | None => (Ok tt, modInode child (set_parent None) (RemoveChild n name t))
        end
  end.

Definition Lookup (n : NodeId) (name : string) (t : Tree) : result NodeId :=
  match Children n t !! name with
  | None => Err (ErrnoError ENOENT)
  | Some child => if inited (inodeAt child t) then Ok child else Err (ErrnoError ENOENT)
  end.

(** An [int32] after an addition. *)
Definition int32 (z : Z) : Z := uint_wrap 32 (z + 2 ^ 31) - 2 ^ 31.

Definition incRef (n : NodeId) (t : Tree) : Tree :=
  modInode n (set_refs (int32 (refs (inodeAt n t) + 1))) t.

(** The first name under which a range over the children meets [child]. *)
Fixpoint nameOf (child : NodeId) (entries : list (string * NodeId)) : option string :=
  match entries with
  | [] => None
  | (name, n) :: entries => if decide (n = child) then Some name else nameOf child entries
  end.

Section Range.
Context (range : gmap string NodeId -> list (string * NodeId)).

Definition decRef (n : NodeId) (t : Tree) : bool * Tree :=
  let r := int32 (refs (inodeAt n t) - 1) in
  let t := modInode n (set_refs r) t in
  if negb (r =? 0) then (false, t)
  else
    match prunable (inodeAt n t), Parent n t with
    | true, Some p =>
        match nameOf n (range (Children p t)) with
        | Some name => (true, RemoveChild p name t)
        | None => (true, t)
        end
    | _, _ => (true, t)
    end.

(** [embeds n]: the node implements [InodeEmbedder]. *)
Context (embeds : NodeId -> bool).

Definition incRefNode (n : NodeId) (t : Tree) : Tree := if embeds n then incRef n t else t.
Definition decRefNode (n : NodeId) (t : Tree) : bool * Tree := if embeds n then decRef n t else (true, t).

Definition registerChild (parent child : NodeId) (name : string) (t : Tree) : Tree :=
  if embeds parent && embeds child then AddChild parent name child t else t.
End Range.

(** ** Counts *)

Lemma inodeAt_mod n m f t : inodeAt m (modInode n f t) = if decide (n = m) then f (inodeAt n t) else inodeAt m t.
Proof.
  unfold modInode, setInode, inodeAt. case_decide as E; [by rewrite E, lookup_insert_eq|by rewrite lookup_insert_ne].
Qed.

(** The reference count of a node: what only [incRef] and [decRef] change. *)
Definition refsOf (n : NodeId) (t : Tree) : Z := refs (inodeAt n t).

Lemma refsOf_mod n m f t : (forall i, refs (f i) = refs i) -> refsOf m (modInode n f t) = refsOf m t.
Proof. intros Hf. unfold refsOf. rewrite inodeAt_mod. by case_decide as E; [rewrite Hf, E|]. Qed.

Lemma AddChild_refs n name child m t : refsOf m (AddChild n name child t) = refsOf m t.
Proof. unfold AddChild. by rewrite !refsOf_mod. Qed.

Lemma RemoveChild_refs n name m t : refsOf m (RemoveChild n name t) = refsOf m t.
Proof. unfold RemoveChild. by rewrite refsOf_mod. Qed.

Lemma Init_refs n q m t : refsOf m (Init n q t) = refsOf m t.
Proof. unfold Init. by rewrite refsOf_mod. Qed.

Lemma SetPrunable_refs n m t : refsOf m (SetPrunable n t) = refsOf m t.
Proof. unfold SetPrunable. by rewrite refsOf_mod. Qed.

Lemma TryAddChild_refs n name child m t : refsOf m (snd (TryAddChild n name child t)) = refsOf m t.
Proof. unfold TryAddChild. case_match; [done|apply AddChild_refs]. Qed.

Lemma RemoveChildIf_refs n name check m t : refsOf m (snd (RemoveChildIf n name check t)) = refsOf m t.
Proof.
  unfold RemoveChildIf. repeat case_match; cbn; try done. rewrite refsOf_mod by done. apply RemoveChild_refs.
Qed.

Lemma registerChild_refs embeds p c name m t : refsOf m (registerChild embeds p c name t) = refsOf m t.
Proof. unfold registerChild. case_match; [apply AddChild_refs|done]. Qed.

Create Rewrite HintDb refs.
#[export] Hint Rewrite AddChild_refs RemoveChild_refs Init_refs SetPrunable_refs TryAddChild_refs
  RemoveChildIf_refs registerChild_refs : refs.

Lemma incRef_refs n m t : refsOf m (incRef n t) = if decide (n = m) then int32 (refsOf m t + 1) else refsOf m t.
Proof. unfold incRef, refsOf. rewrite inodeAt_mod. by case_decide as E; [rewrite E|]. Qed.

Lemma decRef_refs range n m t :
  refsOf m (snd (decRef range n t)) = (if decide (n = m) then int32 (refsOf m t - 1) else refsOf m t) /\
  fst (decRef range n t) = (int32 (refsOf n t - 1) =? 0).
Proof.
  unfold decRef. set (t1 := modInode n (set_refs _) t).
  assert (H1 : refsOf m t1 = if decide (n = m) then int32 (refsOf m t - 1) else refsOf m t).
  { unfold t1, refsOf. rewrite inodeAt_mod. by case_decide as E; [rewrite E|]. }
  fold (refsOf n t). destruct (_ =? 0); cbn [negb]; [|by rewrite <- H1].
  rewrite <- H1. repeat case_match; cbn; by autorewrite with refs.
Qed.

Lemma int32_range z : - 2 ^ 31 <= int32 z < 2 ^ 31.
Proof. unfold int32. pose proof (uint_wrap_range 32 (z + 2 ^ 31)). unfold is_uint in *. lia. Qed.

Lemma int32_id z : - 2 ^ 31 <= z < 2 ^ 31 -> int32 z = z.
Proof. intros H. unfold int32. rewrite uint_wrap_id by (unfold is_uint; lia). lia. Qed.

Lemma int32_add a b : int32 (int32 a + b) = int32 (a + b).
Proof.
  unfold int32, uint_wrap. f_equal. replace ((a + 2 ^ 31) mod 2 ^ 32 - 2 ^ 31 + b + 2 ^ 31) with ((a + 2 ^ 31) mod 2 ^ 32 + b) by lia.
  rewrite Zplus_mod_idemp_l. f_equal. lia.
Qed.
