(* ===== verification/Namespace.v ===== *)
(** * Server namespace handlers

    The handlers of [server/dispatch.go] and [server/bridge.go] that bind,
    rebind and release fids and change the tree of names, on the fid table of
    [FidTable], the inode tree of [Inode] and the connection state of
    [Bridge]; and [dispatch], which selects the handler of a request.

    A file system is the class [NodeOps]: for each capability interface the
    method of a node that implements it.  Its methods may change the tree (a
    passthrough [Lookup] adds the child it opened) but not the reference
    counts, which are private to the server.

    A handler runs from its request to its response without another request
    in between.  The interleavings of one fid's critical sections are the
    subject of [FidLife].  An error return of a handler is the error of the
    monad [M]; [respond] makes it the response [c.errorMsg(errnoFromError(err))]. *)

From S2P Require Import Prelude GoIO Types Errno Proto Messages P9l P9u Message Dirents.
From S2P Require Import Bufpool FidTable Bridge Inode.

(** ** Go's [path] package *)

(** The elements of a path, split at slashes. *)
Fixpoint splitSlash (bs acc : bytes) : list bytes :=
  match bs with
  | [] => [rev acc]
  | b :: bs => if decide (b = byte_of_Z 47) then rev acc :: splitSlash bs [] else splitSlash bs (b :: acc)
  end.

Definition dot : bytes := bytes_of_string ".".
Definition dotdot : bytes := bytes_of_string "..".

(** The elements of the cleaned path, last first. *)
Fixpoint cleanElems (rooted : bool) (elems out : list bytes) : list bytes :=
  match elems with
  | [] => out
  | e :: elems =>
      if decide (e = [] \/ e = dot) then cleanElems rooted elems out
      else if decide (e = dotdot) then
        match out with
        | o :: out' => if decide (o = dotdot) then cleanElems rooted elems (dotdot :: out) else cleanElems rooted elems out'
        | [] => cleanElems rooted elems (if rooted then [] else [dotdot])
        end
      else cleanElems rooted elems (e :: out)
  end.

Definition slash : bytes := bytes_of_string "/".
Fixpoint joinSlash (elems : list bytes) : bytes :=
  match elems with
  | [] => []
  | [e] => e
  | e :: elems => e ++ slash ++ joinSlash elems
  end.

(** [path.Clean] *)
Definition pathClean (p : string) : string :=
  let bs := bytes_of_string p in
  let rooted := match bs with b :: _ => bool_decide (b = byte_of_Z 47) | [] => false end in
  let elems := rev (cleanElems rooted (splitSlash bs []) []) in
  if rooted then string_of_bytes (slash ++ joinSlash elems)
  else match elems with [] => "." | _ => string_of_bytes (joinSlash elems) end.

(** [path.Base] *)
Definition pathBase (p : string) : string :=
  match bytes_of_string p with
  | [] => "."
  | bs =>
      match List.filter (fun e => negb (length e =? 0)%nat) (splitSlash bs []) with
      | [] => "/"
      | elems => string_of_bytes (List.last elems [])
      end
  end.

(** ** Names *)

Definition hasSlashOrNul (name : string) : bool :=
  existsb (fun b => (Z_of_byte b =? 47) || (Z_of_byte b =? 0)) (bytes_of_string name).

Definition validatePathElement (name : string) : option GoError :=
  if decide (name = "") then Some (ErrnoError EINVAL)
  else if hasSlashOrNul name then Some (ErrnoError EINVAL)
  else None.

Definition validName (name : string) : bool :=
  if decide (name = "" \/ name = "." \/ name = "..") then false else negb (hasSlashOrNul name).

Definition openFlagsFromUMode (mode : Z) : option Z :=
  if (mode =? 0) || (mode =? 1) || (mode =? 2) then Some mode else None.

Definition validUCreatePerm (perm : FileMode) (extension : string) : bool :=
  let unsupported := Z.lor DMDIR (Z.lor DMSYMLINK (Z.lor DMDEVICE (Z.lor DMNAMEDPIPE DMSOCKET))) in
  bool_decide (extension = "") && (Z.land perm unsupported =? 0).

Definition statFromAttr (fidPath : string) (qid : QID.t) (attr : Attr.t) : Stat.t :=
  let mode := Z.land (Attr.Mode attr) 0xfff in
  let mode :=
    if QID.Type_ qid =? QTDIR then Z.lor mode DMDIR
    else if QID.Type_ qid =? QTSYMLINK then Z.lor mode DMSYMLINK
    else mode in
  let name := pathBase fidPath in
  let name := if decide (fidPath = "" \/ fidPath = "/" \/ name = "." \/ name = "/") then "" else name in
  Stat.mk 0 0 0 qid mode (uint_wrap 32 (Attr.ATimeSec attr)) (uint_wrap 32 (Attr.MTimeSec attr))
    (Attr.Size attr) name "" "" "" "" (Attr.UID attr) (Attr.GID attr) 0.

(** ** The file system *)

(** What requests share: the inode tree, and the state of the user's nodes. *)
Record NS (U : Type) : Type := mkNS { tree : Tree; user : U }.
Arguments mkNS {U}.
Arguments tree {U}.
Arguments user {U}.

Record LockOps (W : Type) : Type := mkLockOps {
  Lock : LockType -> LockFlags -> Z -> Z -> Z -> string -> M W LockStatus;
  GetLock : LockType -> Z -> Z -> Z -> string -> M W Rgetlock.t
}.
Arguments Lock {W}.
Arguments GetLock {W}.

Record RawXattrOps (W XattrWriter : Type) : Type := mkRawXattrOps {
  HandleXattrwalk : string -> M W bytes;
  HandleXattrcreate : string -> Z -> Z -> M W XattrWriter
}.
Arguments HandleXattrwalk {W XattrWriter}.
Arguments HandleXattrcreate {W XattrWriter}.

(** The capability interfaces of [server/node.go] beyond those of
    [Capabilities]; [None] when the node or handle does not implement one. *)
Class NodeOps (U Handle XattrWriter : Type) : Type := {
  embeds : NodeId -> bool;
  nodeQID : NodeId -> NS U -> QID.t;
  NodeLookuper : NodeId -> option (string -> M (NS U) NodeId);
  NodeOpener : NodeId -> option (Z -> M (NS U) (option Handle * Z));
  NodeCreater : NodeId -> option (string -> Z -> FileMode -> Z -> M (NS U) (NodeId * option Handle * Z));
  NodeMkdirer : NodeId -> option (string -> FileMode -> Z -> M (NS U) NodeId);
  NodeSymlinker : NodeId -> option (string -> string -> Z -> M (NS U) NodeId);
  NodeMknoder : NodeId -> option (string -> FileMode -> Z -> Z -> Z -> M (NS U) NodeId);
  NodeLinker : NodeId -> option (NodeId -> string -> M (NS U) unit);
  NodeUnlinker : NodeId -> option (string -> Z -> M (NS U) unit);
  NodeRenamer : NodeId -> option (string -> NodeId -> string -> M (NS U) unit);
  NodeGetattrer : NodeId -> option (Z -> M (NS U) Attr.t);
  NodeSetattrer : NodeId -> option (SetAttr.t -> M (NS U) unit);
  NodeReadlinker : NodeId -> option (M (NS U) string);
  NodeStatFSer : NodeId -> option (M (NS U) FSStat.t);
  FileSyncer : Handle -> option (M (NS U) unit);
  NodeFsyncer : NodeId -> option (M (NS U) unit);
  FileLocker : Handle -> option (LockOps (NS U));
  NodeLocker : NodeId -> option (LockOps (NS U));
  RawXattrer : NodeId -> option (RawXattrOps (NS U) XattrWriter);
  NodeXattrGetter : NodeId -> option (string -> M (NS U) bytes);
  NodeXattrSetter : NodeId -> option (string -> bytes -> Z -> M (NS U) unit);
  NodeXattrLister : NodeId -> option (M (NS U) (list string));
  NodeXattrRemover : NodeId -> option (string -> M (NS U) unit);
  XattrWriter_Commit : XattrWriter -> M (NS U) unit;
  (** [WithAttacher], [WithAnames] and the root of [server.New]. *)
  attacher : option (string -> string -> Z -> M (NS U) NodeId);
  anames : option (gmap string NodeId);
  root : NodeId
}.

Section Namespace.
Context {U Handle XattrWriter : Type} `{NodeOps U Handle XattrWriter}.
Context `{Capabilities (NS U) NodeId Handle XattrWriter} `{BufPool}.
Context (range : gmap string NodeId -> list (string * NodeId)).
(** The connection's negotiated state and its fid limit. *)
Context (msize : Z) (proto : protocol) (maxFids : Z).
Abbreviation Srv := (@Server (NS U) NodeId Handle XattrWriter).
Abbreviation FS := (fidState NodeId Handle XattrWriter).
Abbreviation FT := (fidTable NodeId Handle XattrWriter).

(** ** What the handlers are made of *)

Definition respond (h : M Srv Message) (s : Srv) : Message * Srv :=
  match h s with
  | (Ok m, s) => (m, s)
  | (Err e, s) => (errorMsg proto (errnoFromError e), s)
  end.

Definition fail {A} (e : Errno) : M Srv A := throw (ErrnoError e).
Definition guard_ (b : bool) (e : Errno) : M Srv unit := if b then mret tt else fail e.
Definition attempt {A} (m : M Srv A) : M Srv (result A) := fun s => let '(r, s) := m s in (Ok r, s).
Definition when (b : bool) (m : M Srv unit) : M Srv unit := if b then m else mret tt.

Definition getFid (fid : Fid) : M Srv Loc := fun s =>
  match get (fids s) fid with
  | Some l => (Ok l, s)
  | None => (Err (ErrnoError EBADF), s)
  end.
(** The state a handler holds a pointer to. *)
Definition stateAt (l : Loc) : M Srv FS := fun s =>
  match fsAt l s with
  | Some fs => (Ok fs, s)
  | None => (Err (ErrnoError EBADF), s)
  end.
Definition nodeAt (l : Loc) : M Srv NodeId := fs ← stateAt l; mret (currentNode fs).
(** A type assertion to a capability interface. *)
Definition capability {A} (o : option A) : M Srv A :=
  match o with Some a => mret a | None => fail ENOSYS end.

(** A method of the file system. *)
Definition call {A} (f : M (NS U) A) : M Srv A := fun s =>
  let '(r, w) := f (world s) in (r, setWorld w s).
Definition setTree (t : Tree) (s : Srv) : Srv := setWorld (mkNS t (user (world s))) s.
Definition onTree {A} (f : Tree -> A * Tree) : M Srv A := fun s =>
  let '(a, t) := f (tree (world s)) in (Ok a, setTree t s).
Definition modTree (f : Tree -> Tree) : M Srv unit := onTree (fun t => (tt, f t)).
Definition viewTree {A} (f : Tree -> A) : M Srv A := onTree (fun t => (f t, t)).
Definition qidOf (n : NodeId) : M Srv QID.t := fun s => (Ok (nodeQID n (world s)), s).
Definition onTable {A} (f : FT -> A * FT) : M Srv A := fun s =>
  let '(a, ft) := f (fids s) in (Ok a, mkServer ft (world s) (released s)).
Definition emit (evs : list Event) : M Srv unit := fun s =>
  (Ok tt, mkServer (fids s) (world s) (released s ++ evs)).

(** Bind [fid] to a new state, and count it; the errno if it is refused. *)
Definition addFid (fid : Fid) (fs : FS) : M Srv (option Errno) :=
  r ← onTable (fun ft => let '(l, ft) := alloc fs ft in add fid l maxFids ft);
  match r with
  | Ok _ => modTree (incRefNode embeds (node fs));; mret None
  | Err e => mret (Some (if errors_Is e ErrFidLimitExceeded then EMFILE else EBADF))
  end.

Definition bindFid (fid : Fid) (fs : FS) : M Srv unit :=
  r ← addFid fid fs; match r with None => mret tt | Some e => fail e end.

Definition closeOrphanNode (n : NodeId) : M Srv unit := emit [Close n].
Definition closeUnboundNode (n : NodeId) : M Srv unit :=
  refs ← viewTree (refsOf n);
  if embeds n && negb (refs =? 0) then mret tt else closeOrphanNode n.

(** [finishClunk] with the [releaseNow] it may call. *)
Definition finishClunkNow (l : Loc) (closeNode : bool) : M Srv unit := fun s =>
  match fsAt l s with
  | None => (Ok tt, s)
  | Some fs =>
      let '(r, fs) := finishClunk closeNode fs in
      emit (match r with Some cn => releaseNow cn fs | None => [] end) (setFs l fs s)
  end.

(** ** Attach, walk, clunk, remove *)

Definition attachNode (ta : Tattach.t) : M Srv NodeId :=
  match attacher with
  | Some attach => call (attach (Tattach.Uname ta) (Tattach.Aname ta) (Tattach.NUname ta))
  | None =>
      match anames with
      | Some names =>
          if decide (Tattach.Aname ta = "") then mret root
          else match names !! Tattach.Aname ta with Some n => mret n | None => fail ENOENT end
      | None => mret root
      end
  end.

Definition handleAttach (ta : Tattach.t) : Srv -> Message * Srv := respond (
  guard_ (Tattach.Afid ta =? NoFid) ENOSYS;;
  node ← attachNode ta;
  let attachPath := if decide (Tattach.Aname ta = "") then "/" else "/" +:+ Tattach.Aname ta in
  bindFid (Tattach.Fid ta) (newFidState node attachPath fidAllocated);;
  q ← qidOf node;
  mret (MRattach (Rattach.mk q))).

(** The loop over the names: the deepest node and the QIDs on the way. *)
Fixpoint walkLoop (first : bool) (walkStart current : NodeId) (qids : list QID.t) (names : list string)
    : M Srv (NodeId * list QID.t) :=
  match names with
  | [] => mret (current, qids)
  | name :: names =>
      qid ← qidOf current;
      let partial (e : GoError) : M Srv (NodeId * list QID.t) := if first then throw e else mret (current, qids) in
      if Z.land (QID.Type_ qid) QTDIR =? 0 then partial (ErrnoError ENOTDIR)
      else
        match NodeLookuper current with
        | None => partial (ErrnoError ENOTDIR)
        | Some lookup =>
            r ← attempt (call (lookup name));
            match r with
            | Err e => partial e
            | Ok child =>
                q ← qidOf child;
                when (negb (current =? walkStart)%nat && negb (current =? child)%nat) (closeUnboundNode current);;
                walkLoop false walkStart child (qids ++ [q]) names
            end
        end
  end.

Definition walkClone (l : Loc) (tw : Twalk.t) : M Srv Message :=
  if Twalk.Fid tw =? Twalk.NewFid tw then mret (MRwalk (Rwalk.mk []))
  else
    src ← stateAt l;
    let '(cloneNode, clonePath) := nodeAndPath src in
    bindFid (Twalk.NewFid tw) (newFidState cloneNode clonePath fidAllocated);;
    mret (MRwalk (Rwalk.mk [])).

(** Bind the node of a complete walk. *)
Definition walkBind (l : Loc) (tw : Twalk.t) (walkStart current : NodeId) : M Srv unit :=
  src ← stateAt l;
  let newPath := pathClean (currentPath src +:+ "/" +:+ String.concat "/" (Twalk.Names tw)) in
  let unbound := when (negb (current =? walkStart)%nat) (closeUnboundNode current) in
  if Twalk.Fid tw =? Twalk.NewFid tw then
    prev ← onTable (update (Twalk.Fid tw) current newPath);
    match prev with
    | Some prev => modTree (incRefNode embeds current);; _ ← onTree (decRefNode range embeds prev); mret tt
    | None => unbound
    end
  else
    r ← addFid (Twalk.NewFid tw) (newFidState current newPath fidAllocated);
    match r with
    | None => mret tt
    | Some e => unbound;; fail e
    end.

Definition handleWalk (tw : Twalk.t) : Srv -> Message * Srv := respond (
  l ← getFid (Twalk.Fid tw);
  match Twalk.Names tw with
  | [] => walkClone l tw
  | names =>
      guard_ (forallb (fun name => match validatePathElement name with None => true | Some _ => false end) names) EINVAL;;
      walkStart ← nodeAt l;
      '(current, qids) ← walkLoop true walkStart walkStart [] names;
      (if (length qids =? length names)%nat then walkBind l tw walkStart current
       else when (negb (current =? walkStart)%nat) (closeUnboundNode current));;
      mret (MRwalk (Rwalk.mk qids))
  end).

(** The commit of a [fidXattrWrite] fid. *)
Definition commitXattr (fs : FS) : M Srv Message :=
  match xattrWriter fs with
  | Some writer => call (XattrWriter_Commit writer);; mret (MRclunk Rclunk.mk)
  | None =>
      let node := xattrNode fs in
      if xattrSize fs =? 0 then
        match node ≫= NodeXattrRemover with
        | Some remove => call (remove (xattrName fs));; mret (MRclunk Rclunk.mk)
        | None => mret (MRclunk Rclunk.mk)
        end
      else
        guard_ (uint_wrap 64 (Z.of_nat (length (xattrData fs))) =? xattrSize fs) EIO;;
        set ← capability (node ≫= NodeXattrSetter);
        call (set (xattrName fs) (xattrData fs) (xattrFlags fs));;
        mret (MRclunk Rclunk.mk)
  end.

Definition takeFid (fid : Fid) : M Srv Loc :=
  o ← onTable (clunk fid);
  match o with Some l => mret l | None => fail EBADF end.

Definition handleClunk (tc : Tclunk.t) : Srv -> Message * Srv := respond (
  l ← takeFid (Tclunk.Fid tc);
  fs ← stateAt l;
  lastRef ← onTree (decRefNode range embeds (currentNode fs));
  if decide (state fs = fidXattrWrite) then
    (fun s => (Ok tt, setFs l (set_closing true (closeNode fs) fs) s));;
    commitXattr fs
  else
    finishClunkNow l lastRef;;
    mret (MRclunk Rclunk.mk)).

Definition removeViaInodeTree (node : NodeId) : M Srv unit :=
  guard_ (embeds node) ENOSYS;;
  p ← viewTree (Parent node);
  parent ← capability p;
  cs ← viewTree (Children parent);
  match nameOf node (range cs) with
  | None => fail EINVAL
  | Some name =>
      guard_ (bool_decide (name <> "")) EINVAL;;
      ini ← viewTree (fun t => inited (inodeAt parent t));
      guard_ ini ENOSYS;;
      unlink ← capability (NodeUnlinker parent);
      call (unlink name 0);;
      modTree (RemoveChild parent name)
  end.

Definition handleRemove (tr : Tremove.t) : Srv -> Message * Srv := respond (
  l ← takeFid (Tremove.Fid tr);
  fs ← stateAt l;
  removeErr ← attempt (removeViaInodeTree (currentNode fs));
  lastRef ← onTree (decRefNode range embeds (currentNode fs));
  finishClunkNow l lastRef;;
  match removeErr with
  | Err e => throw e
  | Ok _ => mret (MRremove Rremove.mk)
  end).

(** ** Open and create *)

Definition isAllocated (fs : FS) : bool := bool_decide (currentState fs = fidAllocated).

Definition openFid (fid : Fid) (flags : Z) : M Srv (QID.t * Z) :=
  l ← getFid fid;
  fs ← stateAt l;
  guard_ (isAllocated fs) EBADF;;
  open ← capability (NodeOpener (currentNode fs));
  '(handle, iounitHint) ← call (open flags);
  node ← nodeAt l;
  qid ← qidOf node;
  ok ← onTable (markOpenedWithHandle fid handle);
  if ok : bool then mret (qid, clampIOUnit msize iounitHint)
  else emit (releaseFileHandle handle);; fail EBADF.

Definition handleLopen (m : Tlopen.t) : Srv -> Message * Srv := respond (
  '(qid, iounit) ← openFid (Tlopen.Fid m) (Tlopen.Flags m);
  mret (MRlopen (Rlopen.mk qid iounit))).

Definition handleUOpen (m : Topen.t) : Srv -> Message * Srv := respond (
  flags ← capability (openFlagsFromUMode (Topen.Mode m));
  '(qid, iounit) ← openFid (Topen.Fid m) flags;
  mret (MRopen (Ropen.mk qid iounit))).

(** What [handleLcreate] and [handleUCreate] do with a checked request. *)
Definition createFid (fid : Fid) (name : string) (flags : Z) (mode : FileMode) (gid : Z) : M Srv (QID.t * Z) :=
  l ← getFid fid;
  fs ← stateAt l;
  guard_ (isAllocated fs) EBADF;;
  guard_ (validName name) EINVAL;;
  let parentNode := currentNode fs in
  create ← capability (NodeCreater parentNode);
  '(child, handle, iounitHint) ← call (create name flags mode gid);
  prev ← onTable (updateAndOpen fid child handle);
  match prev with
  | None => emit (releaseFileHandle handle);; closeOrphanNode child;; fail EBADF
  | Some prev =>
      modTree (incRefNode embeds child);;
      _ ← onTree (decRefNode range embeds prev);
      modTree (registerChild embeds parentNode child name);;
      qid ← qidOf child;
      mret (qid, clampIOUnit msize iounitHint)
  end.

Definition handleLcreate (m : Tlcreate.t) : Srv -> Message * Srv := respond (
  '(qid, iounit) ← createFid (Tlcreate.Fid m) (Tlcreate.Name m) (Tlcreate.Flags m) (Tlcreate.Mode m) (Tlcreate.GID m);
  mret (MRlcreate (Rlcreate.mk qid iounit))).

Definition handleUCreate (m : Tcreate.t) : Srv -> Message * Srv := respond (
  flags ← capability (openFlagsFromUMode (Tcreate.Mode m));
  guard_ (validUCreatePerm (Tcreate.Perm m) (Tcreate.Extension m)) ENOSYS;;
  '(qid, iounit) ← createFid (Tcreate.Fid m) (Tcreate.Name m) flags (Tcreate.Perm m) 0;
  mret (MRcreate (Rcreate.mk qid iounit))).

(** ** Requests on a directory *)

(** [mkdir], [symlink], [mknod]: make a child of the fid's node and register
    it. *)
Definition makeChild (dirFid : Fid) (name : string) (make : NodeId -> option (M (NS U) NodeId)) : M Srv QID.t :=
  l ← getFid dirFid;
  guard_ (validName name) EINVAL;;
  node ← nodeAt l;
  mk ← capability (make node);
  child ← call mk;
  node ← nodeAt l;
  modTree (registerChild embeds node child name);;
  qidOf child.

Definition handleMkdir (m : Tmkdir.t) : Srv -> Message * Srv := respond (
  qid ← makeChild (Tmkdir.DirFid m) (Tmkdir.Name m)
    (fun n => (fun f => f (Tmkdir.Name m) (Tmkdir.Mode m) (Tmkdir.GID m)) <$> NodeMkdirer n);
  mret (MRmkdir (Rmkdir.mk qid))).

Definition handleSymlink (m : Tsymlink.t) : Srv -> Message * Srv := respond (
  qid ← makeChild (Tsymlink.DirFid m) (Tsymlink.Name m)
    (fun n => (fun f => f (Tsymlink.Name m) (Tsymlink.Target m) (Tsymlink.GID m)) <$> NodeSymlinker n);
  mret (MRsymlink (Rsymlink.mk qid))).

Definition handleMknod (m : Tmknod.t) : Srv -> Message * Srv := respond (
  qid ← makeChild (Tmknod.DirFid m) (Tmknod.Name m)
    (fun n => (fun f => f (Tmknod.Name m) (Tmknod.Mode m) (Tmknod.Major m) (Tmknod.Minor m) (Tmknod.GID m)) <$> NodeMknoder n);
  mret (MRmknod (Rmknod.mk qid))).

Definition handleLink (m : Tlink.t) : Srv -> Message * Srv := respond (
  dir ← getFid (Tlink.DirFid m);
  target ← getFid (Tlink.Fid m);
  guard_ (validName (Tlink.Name m)) EINVAL;;
  node ← nodeAt dir;
  link ← capability (NodeLinker node);
  child ← nodeAt target;
  call (link child (Tlink.Name m));;
  modTree (registerChild embeds node child (Tlink.Name m));;
  mret (MRlink Rlink.mk)).

Definition handleUnlinkat (m : Tunlinkat.t) : Srv -> Message * Srv := respond (
  l ← getFid (Tunlinkat.DirFid m);
  guard_ (validName (Tunlinkat.Name m)) EINVAL;;
  node ← nodeAt l;
  unlink ← capability (NodeUnlinker node);
  call (unlink (Tunlinkat.Name m) (Tunlinkat.Flags m));;
  when (embeds node) (modTree (RemoveChild node (Tunlinkat.Name m)));;
  mret (MRunlinkat Runlinkat.mk)).

Definition handleRenameat (m : Trenameat.t) : Srv -> Message * Srv := respond (
  oldDir ← getFid (Trenameat.OldDirFid m);
  newDir ← getFid (Trenameat.NewDirFid m);
  guard_ (validName (Trenameat.OldName m)) EINVAL;;
  guard_ (validName (Trenameat.NewName m)) EINVAL;;
  old ← nodeAt oldDir;
  rename ← capability (NodeRenamer old);
  new ← nodeAt newDir;
  call (rename (Trenameat.OldName m) new (Trenameat.NewName m));;
  (if embeds old then
     cs ← viewTree (Children old);
     match cs !! Trenameat.OldName m with
     | None => mret tt
     | Some child =>
         modTree (RemoveChild old (Trenameat.OldName m));;
         when (embeds new) (modTree (AddChild new (Trenameat.NewName m) child))
     end
   else mret tt);;
  mret (MRrenameat Rrenameat.mk)).

Definition handleRename (m : Trename.t) : Srv -> Message * Srv := respond (
  l ← getFid (Trename.Fid m);
  dir ← getFid (Trename.DirFid m);
  guard_ (validName (Trename.Name m)) EINVAL;;
  node ← nodeAt l;
  guard_ (embeds node) ENOSYS;;
  p ← viewTree (Parent node);
  parent ← capability p;
  cs ← viewTree (Children parent);
  match nameOf node (range cs) with
  | None => fail EINVAL
  | Some oldName =>
      guard_ (bool_decide (oldName <> "")) EINVAL;;
      ini ← viewTree (fun t => inited (inodeAt parent t));
      guard_ ini ENOSYS;;
      rename ← capability (NodeRenamer parent);
      target ← nodeAt dir;
      call (rename oldName target (Trename.Name m));;
      modTree (RemoveChild parent oldName);;
      when (embeds target) (modTree (AddChild target (Trename.Name m) node));;
      mret (MRrename Rrename.mk)
  end).

(** ** Requests on a node *)

Definition handleGetattr (m : Tgetattr.t) : Srv -> Message * Srv := respond (
  l ← getFid (Tgetattr.Fid m);
  node ← nodeAt l;
  getattr ← capability (NodeGetattrer node);
  attr ← call (getattr (Tgetattr.RequestMask m));
  node ← nodeAt l;
  qid ← qidOf node;
  mret (MRgetattr (Rgetattr.mk
    (Attr.mk (Attr.Valid attr) qid (Attr.Mode attr) (Attr.UID attr) (Attr.GID attr) (Attr.NLink attr) (Attr.RDev attr)
      (Attr.Size attr) (Attr.BlkSize attr) (Attr.Blocks attr) (Attr.ATimeSec attr) (Attr.ATimeNSec attr)
      (Attr.MTimeSec attr) (Attr.MTimeNSec attr) (Attr.CTimeSec attr) (Attr.CTimeNSec attr) (Attr.BTimeSec attr)
      (Attr.BTimeNSec attr) (Attr.Gen attr) (Attr.DataVersion attr))))).

Definition handleSetattr (m : Tsetattr.t) : Srv -> Message * Srv := respond (
  l ← getFid (Tsetattr.Fid m);
  node ← nodeAt l;
  setattr ← capability (NodeSetattrer node);
  call (setattr (Tsetattr.Attr m));;
  mret (MRsetattr Rsetattr.mk)).

Definition handleUStat (m : Tstat.t) : Srv -> Message * Srv := respond (
  l ← getFid (Tstat.Fid m);
  node ← nodeAt l;
  getattr ← capability (NodeGetattrer node);
  attr ← call (getattr AttrAll);
  node ← nodeAt l;
  qid ← qidOf node;
  p ← onTable (fun ft => (getPath (Tstat.Fid m) ft, ft));
  mret (MRstat (Rstat.mk (statFromAttr p qid attr)))).

Definition handleReadlink (m : Treadlink.t) : Srv -> Message * Srv := respond (
  l ← getFid (Treadlink.Fid m);
  node ← nodeAt l;
  readlink ← capability (NodeReadlinker node);
  target ← call readlink;
  mret (MRreadlink (Rreadlink.mk target))).

Definition handleStatfs (m : Tstatfs.t) : Srv -> Message * Srv := respond (
  l ← getFid (Tstatfs.Fid m);
  node ← nodeAt l;
  statfs ← capability (NodeStatFSer node);
  stat ← call statfs;
  mret (MRstatfs (Rstatfs.mk stat))).

(** ** Requests on an open fid *)

(** The fid must be open; the body runs between [beginIO] and [endIO]. *)
Definition onOpen (fid : Fid) (body : FS -> M Srv Message) (s : Srv) : Message * Srv :=
  match get (fids s) fid with
  | None => (errorMsg proto EBADF, s)
  | Some l =>
      match fsAt l s with
      | None => (errorMsg proto EBADF, s)
      | Some fs =>
          if decide (currentState fs <> fidOpened) then (errorMsg proto EBADF, s)
          else withIO proto l (fun fs => respond (body fs)) s
      end
  end.

Definition handleFsync (m : Tfsync.t) : Srv -> Message * Srv :=
  onOpen (Tfsync.Fid m) (fun fs =>
    match onHandle FileSyncer fs with
    | Some sync => call sync;; mret (MRfsync Rfsync.mk)
    | None => sync ← capability (NodeFsyncer (currentNode fs)); call sync;; mret (MRfsync Rfsync.mk)
    end).

Definition lockerOf (fs : FS) : option (LockOps (NS U)) :=
  match onHandle FileLocker fs with
  | Some locker => Some locker
  | None => NodeLocker (currentNode fs)
  end.

Definition handleLock (m : Tlock.t) : Srv -> Message * Srv :=
  onOpen (Tlock.Fid m) (fun fs =>
    locker ← capability (lockerOf fs);
    status ← call (Lock locker (Tlock.LockType m) (Tlock.Flags m) (Tlock.Start m) (Tlock.Length m) (Tlock.ProcID m) (Tlock.ClientID m));
    mret (MRlock (Rlock.mk status))).

Definition handleGetlock (m : Tgetlock.t) : Srv -> Message * Srv :=
  onOpen (Tgetlock.Fid m) (fun fs =>
    locker ← capability (lockerOf fs);
    r ← call (GetLock locker (Tgetlock.LockType m) (Tgetlock.Start m) (Tgetlock.Length m) (Tgetlock.ProcID m) (Tgetlock.ClientID m));
    mret (MRgetlock r)).

(** ** Extended attributes *)

Definition addXattrReadFid (newFid : Fid) (node : NodeId) (name : string) (data : bytes) : M Srv Message :=
  bindFid newFid (mkFidState node "" fidXattrRead None [] false 0 false false (Some node) name data 0 0 None);;
  mret (MRxattrwalk (Rxattrwalk.mk (Z.of_nat (length data)))).

(** Names one after the other, each with a NUL. *)
Definition joinNul (names : list string) : bytes :=
  concat ((fun name => bytes_of_string name ++ [byte_of_Z 0]) <$> names).

Definition handleXattrwalk (m : Txattrwalk.t) : Srv -> Message * Srv := respond (
  l ← getFid (Txattrwalk.Fid m);
  node ← nodeAt l;
  let name := Txattrwalk.Name m in
  match RawXattrer node with
  | Some raw =>
      data ← call (HandleXattrwalk raw name);
      addXattrReadFid (Txattrwalk.NewFid m) node name data
  | None =>
      if decide (name = "") then
        lister ← capability (NodeXattrLister node);
        names ← call lister;
        addXattrReadFid (Txattrwalk.NewFid m) node "" (joinNul names)
      else
        getter ← capability (NodeXattrGetter node);
        data ← call (getter name);
        addXattrReadFid (Txattrwalk.NewFid m) node name data
  end).

Definition handleXattrcreate (m : Txattrcreate.t) : Srv -> Message * Srv := respond (
  l ← getFid (Txattrcreate.Fid m);
  fs ← stateAt l;
  guard_ (isAllocated fs) EBADF;;
  guard_ (Txattrcreate.AttrSize m <=? msize) EINVAL;;
  let become w : M Srv unit := fun s =>
    match fsAt l s with
    | None => (Ok tt, s)
    | Some fs => (Ok tt, setFs l (set_xattrWrite (Txattrcreate.Name m) (Txattrcreate.AttrSize m) (Txattrcreate.Flags m) w fs) s)
    end in
  node ← nodeAt l;
  match RawXattrer node with
  | Some raw =>
      writer ← call (HandleXattrcreate raw (Txattrcreate.Name m) (Txattrcreate.AttrSize m) (Txattrcreate.Flags m));
      become (Some writer);;
      mret (MRxattrcreate Rxattrcreate.mk)
  | None =>
      (if Txattrcreate.AttrSize m =? 0 then _ ← capability (NodeXattrRemover node); mret tt
       else _ ← capability (NodeXattrSetter node); mret tt);;
      become None;;
      mret (MRxattrcreate Rxattrcreate.mk)
  end).

(** ** Dispatch *)

Definition dispatch (msg : Message) : Srv -> Message * Srv :=
  match msg with
  | MTattach m => handleAttach m
  | MTwalk m => handleWalk m
  | MTclunk m => handleClunk m
  | MTremove m => handleRemove m
  | MTauth _ => respond (fail ENOSYS)
  | MTlopen m => handleLopen m
  | MTopen m => handleUOpen m
  | MTread m => handleRead msize proto m
  | MTwrite m => handleWrite proto m
  | MTgetattr m => handleGetattr m
  | MTsetattr m => handleSetattr m
  | MTreaddir m => handleReaddir msize proto m
  | MTlcreate m => handleLcreate m
  | MTcreate m => handleUCreate m
  | MTmkdir m => handleMkdir m
  | MTsymlink m => handleSymlink m
  | MTlink m => handleLink m
  | MTmknod m => handleMknod m
  | MTreadlink m => handleReadlink m
  | MTstatfs m => handleStatfs m
  | MTfsync m => handleFsync m
  | MTunlinkat m => handleUnlinkat m
  | MTrenameat m => handleRenameat m
  | MTrename m => handleRename m
  | MTlock m => handleLock m
  | MTgetlock m => handleGetlock m
  | MTxattrwalk m => handleXattrwalk m
  | MTxattrcreate m => handleXattrcreate m
  | MTstat m => handleUStat m
  | MTwstat _ => respond (fail ENOSYS)
  | _ => respond (fail ENOSYS)
  end.

(** ** Teardown of a connection

    The last step of [cleanup]: the fids are taken from the table at once;
    their nodes lose a reference, and their handles and nodes are released if
    no handler is stuck. *)
Fixpoint clunkStates (drained : bool) (ls : list Loc) : M Srv unit :=
  match ls with
  | [] => mret tt
  | l :: ls =>
      fs ← stateAt l;
      lastRef ← onTree (decRefNode range embeds (currentNode fs));
      when drained (emit (releaseNow lastRef fs));;
      clunkStates drained ls
  end.

Definition cleanupFids (drained : bool) : M Srv unit :=
  ls ← onTable clunkAll;
  clunkStates drained ls.
End Namespace.
