(* ===== verification/MemTree.v ===== *)
(** * In-memory directories

    [server/memfs/memfs.go] and [builder.go]: a tree of [MemDir]s with
    [MemFile]s, [StaticFile]s and the helper nodes of [server/helpers.go] in
    it, as the instance of [NodeOps] and [Capabilities] that the server's
    handlers run on; with the QIDs of [server/qid.go].

    A node is an address.  What Go knows of a pointer, its type, is read off
    the address: the allocator hands out an address of the type asked for
    ([typeOf]).  The fields a node has beside its [Inode] are in a map per
    type.  All directories of a tree share the generator of its root, so the
    generator is one counter.

    Every node embeds [Inode], whose methods answer ENOSYS for whatever the
    type does not define itself. *)

From S2P Require Import Prelude GoIO Types Errno Proto Messages P9l P9u Message Dirents.
From S2P Require Import FidTable Bridge Inode Namespace MemFS.

(** ** QIDs *)

Module QIDGenerator.
(** [next]: an atomic uint64. *)
Definition Next (t : QIDType) (next : Z) : QID.t * Z :=
  let next := uint_wrap 64 (next + 1) in (QID.mk t 0 next, next).
End QIDGenerator.

(** [hash/fnv]: FNV-1a with 64 bits. *)
Definition fnv64a (bs : bytes) : Z :=
  fold_left (fun h b => uint_wrap 64 (Z.lxor h (Z_of_byte b) * 1099511628211)) bs 14695981039346656037.

Definition PathQID (t : QIDType) (path : string) : QID.t := QID.mk t 0 (fnv64a (bytes_of_string path)).

Example PathQID_values :
  QID.Path (PathQID QTDIR "") = 0xcbf29ce484222325 /\ QID.Path (PathQID QTFILE "a") = 0xaf63dc4c8601ec8c /\
  QID.Path (PathQID QTFILE "foobar") = 0x85944171f73967e8.
Proof. by vm_compute. Qed.

(** ** Objects *)

Inductive nodeType : Type := TMemFile | TMemDir | TStaticFile | TSymlink | TDevice | TStaticFS.

#[export] Instance nodeType_eq_dec : EqDecision nodeType.
Proof. solve_decision. Defined.

Definition code (k : nodeType) : nat :=
  match k with TMemFile => 0 | TMemDir => 1 | TStaticFile => 2 | TSymlink => 3 | TDevice => 4 | TStaticFS => 5 end.

(** The [i]-th object that was allocated, of type [k]. *)
Definition addr (k : nodeType) (i : nat) : NodeId := (6 * i + code k)%nat.
Definition typeOf (n : NodeId) : nodeType :=
  match (n mod 6)%nat with 0 => TMemFile | 1 => TMemDir | 2 => TStaticFile | 3 => TSymlink | 4 => TDevice | _ => TStaticFS end%nat.
Definition index (n : NodeId) : nat := (n / 6)%nat.
#[global] Arguments addr : simpl never.
#[global] Arguments typeOf : simpl never.
#[global] Arguments index : simpl never.

Record dirFields : Type := mkDir { dirMode : Z; dirUid : Z; dirGid : Z }.
Record deviceFields : Type := mkDevice { Major : Z; Minor : Z }.

Record Objects : Type := mkObjects {
  gen : Z;
  allocated : nat;
  files : gmap NodeId MemFile.t;
  dirs : gmap NodeId dirFields;
  statics : gmap NodeId StaticFile.t;
  links : gmap NodeId string;
  devices : gmap NodeId deviceFields;
  stats : gmap NodeId FSStat.t
}.
Definition noObjects : Objects := mkObjects 0 0 ∅ ∅ ∅ ∅ ∅ ∅.
Abbreviation World := (NS Objects).

Definition fileAt (n : NodeId) (w : World) : MemFile.t := default (MemFile.mk [] 0 0 0) (files (user w) !! n).
Definition dirAt (n : NodeId) (w : World) : dirFields := default (mkDir 0 0 0) (dirs (user w) !! n).
Definition staticAt (n : NodeId) (w : World) : StaticFile.t := default (StaticFile.mk "" 0) (statics (user w) !! n).
Definition linkAt (n : NodeId) (w : World) : string := default "" (links (user w) !! n).
Definition statAt (n : NodeId) (w : World) : FSStat.t := default FSStat.zero (stats (user w) !! n).

Definition setFile (n : NodeId) (f : MemFile.t) (w : World) : World :=
  let u := user w in
  mkNS (tree w) (mkObjects (gen u) (allocated u) (<[n := f]> (files u)) (dirs u) (statics u) (links u) (devices u) (stats u)).

(** What a new object of a type holds. *)
Inductive fields : Type :=
  | FMemFile (f : MemFile.t) | FMemDir (d : dirFields) | FStaticFile (f : StaticFile.t)
  | FSymlink (target : string) | FDevice (d : deviceFields) | FStaticFS (s : FSStat.t).

Definition typeOfFields (f : fields) : nodeType :=
  match f with
  | FMemFile _ => TMemFile | FMemDir _ => TMemDir | FStaticFile _ => TStaticFile
  | FSymlink _ => TSymlink | FDevice _ => TDevice | FStaticFS _ => TStaticFS
  end.

(** A composite literal: [&MemFile{...}]. *)
Definition new (f : fields) (w : World) : NodeId * World :=
  let u := user w in
  let n := addr (typeOfFields f) (allocated u) in
  let a := S (allocated u) in
  (n, mkNS (tree w)
    match f with
    | FMemFile x => mkObjects (gen u) a (<[n := x]> (files u)) (dirs u) (statics u) (links u) (devices u) (stats u)
    | FMemDir x => mkObjects (gen u) a (files u) (<[n := x]> (dirs u)) (statics u) (links u) (devices u) (stats u)
    | FStaticFile x => mkObjects (gen u) a (files u) (dirs u) (<[n := x]> (statics u)) (links u) (devices u) (stats u)
    | FSymlink x => mkObjects (gen u) a (files u) (dirs u) (statics u) (<[n := x]> (links u)) (devices u) (stats u)
    | FDevice x => mkObjects (gen u) a (files u) (dirs u) (statics u) (links u) (<[n := x]> (devices u)) (stats u)
    | FStaticFS x => mkObjects (gen u) a (files u) (dirs u) (statics u) (links u) (devices u) (<[n := x]> (stats u))
    end).

Definition qidTypeOf (k : nodeType) : QIDType :=
  match k with TMemDir => QTDIR | TSymlink => QTSYMLINK | _ => QTFILE end.

(** [n.Init(gen.Next(t), n)] *)
Definition initNode (n : NodeId) (t : QIDType) (w : World) : World :=
  let u := user w in
  let '(q, g) := QIDGenerator.Next t (gen u) in
  mkNS (Init n q (tree w))
    (mkObjects g (allocated u) (files u) (dirs u) (statics u) (links u) (devices u) (stats u)).

(** A new object with its inode initialised, as every constructor leaves it. *)
Definition newNode (f : fields) (w : World) : NodeId * World :=
  let '(n, w) := new f w in (n, initNode n (qidTypeOf (typeOfFields f)) w).

Definition addChild (d : NodeId) (name : string) (child : NodeId) (w : World) : World :=
  mkNS (AddChild d name child (tree w)) (user w).

Definition SymlinkTo (target : string) : World -> NodeId * World := newNode (FSymlink target).
Definition DeviceNode (major minor : Z) : World -> NodeId * World := newNode (FDevice (mkDevice major minor)).
Definition StaticStatFS (stat : FSStat.t) : World -> NodeId * World := newNode (FStaticFS stat).

(** ** Directories *)

Module MemDir.
Section MemDir.
(** The order of a range over a map. *)
Context (range : gmap string NodeId -> list (string * NodeId)).

Definition sIFDIR : Z := 0x4000.

Fixpoint entriesFrom (offset : Z) (children : list (string * NodeId)) (t : Tree) : list Dirent.t :=
  match children with
  | [] => []
  | (name, inode) :: children =>
      let qid := QIDof inode t in
      let offset := uint_wrap 64 (offset + 1) in
      Dirent.mk qid offset (QIDTypeToDT (QID.Type_ qid)) name :: entriesFrom offset children t
  end.
Definition Readdir (d : NodeId) (w : World) : result (list Dirent.t) * World :=
  (Ok (entriesFrom 0 (range (Children d (tree w))) (tree w)), w).
End MemDir.

Definition Getattr (d : NodeId) (_ : Z) : M World Attr.t := fun w =>
  let f := dirAt d w in
  let mode := if dirMode f =? 0 then 0x1ed else dirMode f in
  (Ok (Attr.mk 0 QID.zero (Z.lor sIFDIR mode) (dirUid f) (dirGid f)
    (uint_wrap 64 (2 + Z.of_nat (size (Children d (tree w))))) 0 0 0 0 0 0 0 0 0 0 0 0 0 0), w).

(** The new child is added unless the name is taken. *)
Definition tryAdd (d : NodeId) (name : string) (f : fields) : M World NodeId := fun w =>
  let '(child, w) := newNode f w in
  match TryAddChild d name child (tree w) with
  | (true, t) => (Ok child, mkNS t (user w))
  | (false, t) => (Err (ErrnoError EEXIST), mkNS t (user w))
  end.

Definition Create {Handle} (d : NodeId) (name : string) (_ : Z) (mode : FileMode) (_ : Z)
    : M World (NodeId * option Handle * Z) :=
  child ← tryAdd d name (FMemFile (MemFile.NewFileWithMode [] mode));
  mret (child, None, 0).

Definition Mkdir (d : NodeId) (name : string) (mode : FileMode) (_ : Z) : M World NodeId :=
  tryAdd d name (FMemDir (mkDir mode 0 0)).

Definition removeDir : Z := 0x200.

(** The check that [Unlink] passes to [RemoveChildIf]. *)
Definition unlinkCheck (flags : Z) (qidType : QIDType) (childCount : nat) : option GoError :=
  let isDir := qidType =? QTDIR in
  if flags =? removeDir then
    if negb isDir then Some (ErrnoError ENOTDIR)
    else if negb (childCount =? 0)%nat then Some (ErrnoError ENOTEMPTY)
    else None
  else if isDir then Some (ErrnoError EISDIR) else None.

Definition Unlink (d : NodeId) (name : string) (flags : Z) : M World unit := fun w =>
  if negb (flags =? 0) && negb (flags =? removeDir) then (Err (ErrnoError EINVAL), w)
  else
    let '(r, t) := RemoveChildIf d name (fun node => unlinkCheck flags (QID.Type_ (QIDof node (tree w)))) (tree w) in
    (r, mkNS t (user w)).

(** *** The builder *)

Definition NewDir (w : World) : NodeId * World := newNode (FMemDir (mkDir 0 0 0)) w.

Definition add (d : NodeId) (name : string) (f : fields) (w : World) : NodeId * World :=
  let '(child, w) := newNode f w in (child, addChild d name child w).

Definition AddFileWithMode (d : NodeId) (name : string) (data : bytes) (mode : Z) (w : World) : World :=
  (add d name (FMemFile (MemFile.NewFileWithMode data mode)) w).2.
Definition AddFile (d : NodeId) (name : string) (data : bytes) : World -> World := AddFileWithMode d name data 0x1a4.
Definition AddStaticFile (d : NodeId) (name content : string) (w : World) : World :=
  (add d name (FStaticFile (StaticFile.NewStaticFile content)) w).2.
Definition AddDir (d : NodeId) (name : string) (w : World) : World := (add d name (FMemDir (mkDir 0 0 0)) w).2.
(** [None] is the panic. *)
Definition SubDir (d : NodeId) (name : string) (w : World) : option NodeId :=
  match Lookup d name (tree w) with
  | Ok node => if decide (typeOf node = TMemDir) then Some node else None
  | Err _ => None
  end.
Definition WithDir (d : NodeId) (name : string) (fn : NodeId -> World -> World) (w : World) : World :=
  let '(child, w) := add d name (FMemDir (mkDir 0 0 0)) w in fn child w.
Definition AddSymlink (d : NodeId) (name target : string) (w : World) : World :=
  let '(s, w) := SymlinkTo target w in addChild d name s w.
End MemDir.

(** ** The file system of the server *)

Section Instance.
Context (range : gmap string NodeId -> list (string * NodeId)).

(** The methods of [Inode]. *)
Definition enosys {A} : M World A := throw (ErrnoError ENOSYS).
Definition noLock : LockOps World := mkLockOps World (fun _ _ _ _ _ _ => enosys) (fun _ _ _ _ _ => enosys).

(** A node's own method if it is of the type, or that of [Inode]. *)
Definition ifType {A} (k : nodeType) (n : NodeId) (own inherited : A) : option A :=
  Some (if decide (typeOf n = k) then own else inherited).

Definition Open (_ : Z) : M World (option Empty_set * Z) := mret (None, 0).

Definition onFile {A} (n : NodeId) (f : MemFile.t -> result A * MemFile.t) : M World A := fun w =>
  let '(r, f') := f (fileAt n w) in (r, setFile n f' w).

Definition memOps (root : NodeId) : NodeOps Objects Empty_set Empty_set := {|
  embeds _ := true;
  nodeQID n w := QIDof n (tree w);
  NodeLookuper n := Some (fun name w => (Lookup n name (tree w), w));
  NodeOpener n := Some (fun flags =>
    match typeOf n with TMemFile | TMemDir | TStaticFile => Open flags | _ => enosys end);
  NodeCreater n := ifType TMemDir n (MemDir.Create n) (fun _ _ _ _ => enosys);
  NodeMkdirer n := ifType TMemDir n (MemDir.Mkdir n) (fun _ _ _ => enosys);
  NodeSymlinker _ := Some (fun _ _ _ => enosys);
  NodeMknoder _ := Some (fun _ _ _ _ _ => enosys);
  NodeLinker _ := Some (fun _ _ => enosys);
  NodeUnlinker n := ifType TMemDir n (MemDir.Unlink n) (fun _ _ => enosys);
  NodeRenamer _ := Some (fun _ _ _ => enosys);
  NodeGetattrer n := Some (fun mask =>
    match typeOf n with
    | TMemFile => fun w => (Ok (MemFile.Getattr (fileAt n w)), w)
    | TMemDir => MemDir.Getattr n mask
    | TStaticFile => fun w => (Ok (StaticFile.Getattr (staticAt n w)), w)
    | _ => enosys
    end);
  NodeSetattrer n := ifType TMemFile n (fun attr => onFile n (MemFile.Setattr attr)) (fun _ => enosys);
  NodeReadlinker n := ifType TSymlink n (fun w => (Ok (linkAt n w), w)) enosys;
  NodeStatFSer n := ifType TStaticFS n (fun w => (Ok (statAt n w), w)) enosys;
  FileSyncer _ := None;
  NodeFsyncer _ := Some enosys;
  FileLocker _ := None;
  NodeLocker _ := Some noLock;
  RawXattrer _ := None;
  NodeXattrGetter _ := Some (fun _ => enosys);
  NodeXattrSetter _ := Some (fun _ _ _ => enosys);
  NodeXattrLister _ := Some enosys;
  NodeXattrRemover _ := Some (fun _ => enosys);
  XattrWriter_Commit := fun x : Empty_set => match x with end;
  attacher := None; anames := None; Namespace.root := root
|}.

Definition noRead (buf : bytes) (_ : Z) (w : World) : result Z * bytes * World := (Err (ErrnoError ENOSYS), buf, w).

Definition memCaps : Capabilities World NodeId Empty_set Empty_set := {|
  FileReader _ := None; FileWriter _ := None; FileRawReaddirer _ := None; FileReaddirer _ := None;
  NodeReader n := Some (fun buf offset w =>
    match typeOf n with
    | TMemFile => (MemFile.Read buf offset (fileAt n w), w)
    | TStaticFile => (StaticFile.Read buf offset (staticAt n w), w)
    | _ => noRead buf offset w
    end);
  NodeWriter n := ifType TMemFile n (fun data offset => onFile n (MemFile.Write data offset)) (fun _ _ => enosys);
  NodeRawReaddirer _ := None;
  NodeReaddirer n := ifType TMemDir n (MemDir.Readdir range n) enosys;
  XattrWriter_Write := fun x : Empty_set => match x with end
|}.
End Instance.
