(* ===== verification/MemSections.v ===== *)
(** * The critical sections of memory directories

    What goroutines do to a tree of memory nodes, one critical section at a
    time: the methods of [server/memfs/memfs.go] that write, the builder of
    [builder.go], and what the request handlers do to the inodes on their
    own (counting references, registering a child, removing an entry).
    [section] takes these steps in any order, so it covers every interleaving
    of requests of any number of connections; the tree stays well-formed
    under all of them. *)

From S2P Require Import Prelude GoIO Types Errno Proto Messages P9l P9u Message.
From S2P Require Import FidTable Bridge Inode Namespace MemFS MemTree.

(** Where a node was created: the only place it is ever entered. *)
Abbreviation Home := (gmap NodeId (NodeId * string)).
Abbreviation State := (Home * World)%type.

Definition onTreeOf (f : Tree -> Tree) (w : World) : World := mkNS (f (tree w)) (user w).

(** A directory that exists. *)
Definition isDir (d : NodeId) (w : World) : Prop := typeOf d = TMemDir /\ (index d < allocated (user w))%nat.

Inductive section : State -> State -> Prop :=
  | sec_write n data offset h w : section (h, w) (h, (onFile n (MemFile.Write data offset) w).2)
  | sec_setattr n attr h w : section (h, w) (h, (onFile n (MemFile.Setattr attr) w).2)
  | sec_tryAdd d name f child h w w' :
      isDir d w -> MemDir.tryAdd d name f w = (Ok child, w') -> section (h, w) (<[child := (d, name)]> h, w')
  | sec_exists d name f e h w w' : MemDir.tryAdd d name f w = (Err e, w') -> section (h, w) (h, w')
  | sec_unlink d name flags h w : section (h, w) (h, (MemDir.Unlink d name flags w).2)
  | sec_new f child h w w' : newNode f w = (child, w') -> section (h, w) (h, w')
  | sec_add d name f child h w w' :
      isDir d w -> MemDir.add d name f w = (child, w') -> section (h, w) (<[child := (d, name)]> h, w')
  | sec_register d name child h w :
      h !! child = Some (d, name) -> section (h, w) (h, addChild d name child w)
  | sec_remove d name h w : section (h, w) (h, onTreeOf (RemoveChild d name) w)
  | sec_incRef n h w : section (h, w) (h, onTreeOf (incRef n) w)
  | sec_decRef range n h w : section (h, w) (h, onTreeOf (fun t => (decRef range n t).2) w).

Record TreeOk (x : State) : Prop := {
  ok_entry d name c : Children d (tree x.2) !! name = Some c ->
    x.1 !! c = Some (d, name) /\ Parent c (tree x.2) = Some d;
  ok_home c d name : x.1 !! c = Some (d, name) ->
    typeOf d = TMemDir /\ (index d < index c)%nat /\ inited (inodeAt c (tree x.2)) = true;
  ok_inited c : inited (inodeAt c (tree x.2)) = true ->
    (index c < allocated (user x.2))%nat /\
    QIDof c (tree x.2) = QID.mk (qidTypeOf (typeOf c)) 0 (uint_wrap 64 (Z.of_nat (index c) + 1));
  ok_distinct c c' : inited (inodeAt c (tree x.2)) = true -> inited (inodeAt c' (tree x.2)) = true ->
    index c = index c' -> c = c';
  ok_prunable n : prunable (inodeAt n (tree x.2)) = false;
  ok_gen : gen (user x.2) = uint_wrap 64 (Z.of_nat (allocated (user x.2)))
}.

(** ** Addresses *)

Lemma typeOf_addr k i : typeOf (addr k i) = k.
Proof. unfold typeOf, addr. rewrite (Nat.mul_comm 6), Nat.add_comm, Nat.Div0.mod_add. by destruct k. Qed.

Lemma index_addr k i : index (addr k i) = i.
Proof. unfold index, addr. rewrite (Nat.mul_comm 6), Nat.add_comm, Nat.div_add by done. destruct k; cbn; lia. Qed.

Lemma addr_inj n m : typeOf n = typeOf m -> index n = index m -> n = m.
Proof.
  unfold typeOf, index. intros Ht Hi. pose proof (Nat.div_mod_eq n 6). pose proof (Nat.div_mod_eq m 6).
  assert (n mod 6 = m mod 6)%nat; [|lia].
  pose proof (Nat.mod_upper_bound n 6). pose proof (Nat.mod_upper_bound m 6).
  assert (forall a, (a < 6 -> a = 0 \/ a = 1 \/ a = 2 \/ a = 3 \/ a = 4 \/ a = 5)%nat) as Hc by lia.
  destruct (Hc (n mod 6)%nat) as [E|[E|[E|[E|[E|E]]]]]; [lia|..];
  destruct (Hc (m mod 6)%nat) as [F|[F|[F|[F|[F|F]]]]]; rewrite ?E, ?F in *; try done; lia.
Qed.

(** ** What the tree operations do to one inode *)

Lemma Children_mod n m f t :
  Children m (modInode n f t) = if decide (n = m) then children (f (inodeAt n t)) else Children m t.
Proof. unfold Children. rewrite inodeAt_mod. by case_decide. Qed.
Lemma Parent_mod n m f t :
  Parent m (modInode n f t) = if decide (n = m) then parent (f (inodeAt n t)) else Parent m t.
Proof. unfold Parent. rewrite inodeAt_mod. by case_decide. Qed.

Lemma AddChild_Children d name c n t :
  Children n (AddChild d name c t) = if decide (d = n) then <[name := c]> (Children d t) else Children n t.
Proof.
  unfold AddChild. rewrite Children_mod. case_decide as E; cbn.
  - f_equal. rewrite Children_mod. by case_decide as E'; [subst|].
  - rewrite Children_mod. by case_decide as E'; [subst|].
Qed.
Lemma AddChild_Parent d name c n t : Parent n (AddChild d name c t) = if decide (c = n) then Some d else Parent n t.
Proof.
  unfold AddChild. rewrite Parent_mod. case_decide as E; cbn; [subst n|].
  - fold (Parent d (modInode c (set_parent (Some d)) t)). by rewrite Parent_mod.
  - by rewrite Parent_mod.
Qed.
Lemma RemoveChild_Children d name n t :
  Children n (RemoveChild d name t) = if decide (d = n) then delete name (Children d t) else Children n t.
Proof. unfold RemoveChild. rewrite Children_mod. by case_decide. Qed.
Lemma RemoveChild_Parent d name n t : Parent n (RemoveChild d name t) = Parent n t.
Proof. unfold RemoveChild. rewrite Parent_mod. by case_decide; [subst|]. Qed.

(** The rest of an inode. *)
Definition identity (n : NodeId) (t : Tree) : bool * QID.t * bool :=
  (inited (inodeAt n t), QIDof n t, prunable (inodeAt n t)).

Lemma identity_mod n m f t :
  (forall i, inited (f i) = inited i /\ qid (f i) = qid i /\ prunable (f i) = prunable i) -> identity m (modInode n f t) = identity m t.
Proof.
  intros Hf. unfold identity, QIDof. rewrite inodeAt_mod. case_decide as E; [|done].
  destruct (Hf (inodeAt n t)) as (-> & -> & ->). by subst.
Qed.

Lemma AddChild_identity d name c n t : identity n (AddChild d name c t) = identity n t.
Proof. unfold AddChild. by rewrite !identity_mod. Qed.
Lemma AddChild_inited d name c n t : inited (inodeAt n (AddChild d name c t)) = inited (inodeAt n t).
Proof. exact (f_equal (fun x => x.1.1) (AddChild_identity d name c n t)). Qed.
Lemma RemoveChild_identity d name n t : identity n (RemoveChild d name t) = identity n t.
Proof. unfold RemoveChild. by rewrite identity_mod. Qed.

(** A tree whose inodes are what they were, with entries taken out. *)
Definition shrunk (t t' : Tree) : Prop := forall n,
  identity n t' = identity n t /\ Parent n t' = Parent n t /\
  forall name c, Children n t' !! name = Some c -> Children n t !! name = Some c.

Lemma shrunk_trans t1 t2 t3 : shrunk t1 t2 -> shrunk t2 t3 -> shrunk t1 t3.
Proof.
  intros H12 H23 n. destruct (H12 n) as (I1 & P1 & C1), (H23 n) as (I2 & P2 & C2).
  rewrite I2, I1, P2, P1. split_and!; [done..|]. auto.
Qed.

Lemma shrunk_RemoveChild d name t : shrunk t (RemoveChild d name t).
Proof.
  intros n. rewrite RemoveChild_identity, RemoveChild_Parent, RemoveChild_Children. split_and!; [done..|].
  case_decide as E; [subst|done]. by intros name' c [_ Hc]%lookup_delete_Some.
Qed.

Lemma shrunk_refs n r t : shrunk t (modInode n (set_refs r) t).
Proof. intros m. rewrite identity_mod, Parent_mod, Children_mod by done. case_decide as E; [subst|]; by split_and!. Qed.

Lemma shrunk_decRef range n t : shrunk t (decRef range n t).2.
Proof.
  unfold decRef. set (t1 := modInode _ _ t). assert (shrunk t t1) as H1 by apply shrunk_refs.
  destruct (negb _); [done|]. destruct (prunable _); [|done]. destruct (Parent n t1); [|done].
  destruct (nameOf _ _); [|done]. eapply shrunk_trans; [exact H1|apply shrunk_RemoveChild].
Qed.

(** ** Every section keeps the tree well-formed *)

Lemma TreeOk_shrunk h w t : TreeOk (h, w) -> shrunk (tree w) t -> TreeOk (h, mkNS t (user w)).
Proof.
  intros [He Hh Hi Hu Hp' Hg] Hs. assert (forall n, identity n t = identity n (tree w)) as HI by apply Hs.
  unfold identity in HI. split; cbn in *; [..|done].
  - intros d name c Hc. destruct (He d name c) as [? ?]; [by apply Hs|]. destruct (Hs c) as (_ & -> & _). done.
  - intros c d name Hc. specialize (HI c). injection HI as -> _ _. eauto.
  - intros c. specialize (HI c). injection HI as -> -> _. eauto.
  - intros c c'. pose proof (HI c) as [= -> _ _]. pose proof (HI c') as [= -> _ _]. eauto.
  - intros n. pose proof (HI n) as [= _ _ ->]. eauto.
Qed.

Lemma TreeOk_setFile h w n f : TreeOk (h, w) -> TreeOk (h, setFile n f w).
Proof. by intros []; split. Qed.

(** A new object, entered nowhere yet. *)
Lemma newNode_spec h f w child w' :
  TreeOk (h, w) -> newNode f w = (child, w') ->
  TreeOk (h, w') /\ h !! child = None /\ child = addr (typeOfFields f) (allocated (user w)) /\
  inited (inodeAt child (tree w')) = true /\ allocated (user w') = S (allocated (user w)) /\
  (forall n, Children n (tree w') = Children n (tree w)) /\ (forall n, Parent n (tree w') = Parent n (tree w)).
Proof.
  intros [He Hh Hi Hu Hp' Hg]. cbn [fst snd] in *. unfold newNode. destruct (new f w) as [c w1] eqn:En. intros [<- <-]%pair_equal_spec.
  assert (c = addr (typeOfFields f) (allocated (user w)) /\ tree w1 = tree w /\ gen (user w1) = gen (user w) /\
    allocated (user w1) = S (allocated (user w))) as (-> & Ht & Hgen & Ha).
  { unfold new in En. apply pair_equal_spec in En as [<- <-]. by destruct f. }
  set (c := addr (typeOfFields f) (allocated (user w))). assert (Hc : inited (inodeAt c (tree w)) = false).
  { destruct (inited (inodeAt c (tree w))) eqn:E; [|done]. apply Hi in E as [E _]. unfold c in E. rewrite index_addr in E. lia. }
  assert (h !! c = None) as Hhc.
  { destruct (h !! c) as [[d name]|] eqn:E; [|done]. apply Hh in E as (_ & _ & E). congruence. }
  assert (HC : forall n, Children n (Init c (QID.mk (qidTypeOf (typeOfFields f)) 0 (uint_wrap 64 (gen (user w) + 1))) (tree w)) = Children n (tree w)).
  { intros n. unfold Init. rewrite Children_mod. by case_decide; [subst|]. }
  assert (HP : forall n, Parent n (Init c (QID.mk (qidTypeOf (typeOfFields f)) 0 (uint_wrap 64 (gen (user w) + 1))) (tree w)) = Parent n (tree w)).
  { intros n. unfold Init. rewrite Parent_mod. by case_decide; [subst|]. }
  unfold initNode, QIDGenerator.Next. rewrite Ht, Hgen, Ha. cbn -[uint_wrap]. split_and!; try done.
  2:{ unfold Init. rewrite inodeAt_mod. by rewrite decide_True by done. }
  split; cbn.
  - intros d name c'. rewrite HC, HP. apply He.
  - intros c' d name Hh'. destruct (Hh c' d name Hh') as (? & ? & Hin). split_and!; [done..|].
    unfold Init. rewrite inodeAt_mod. case_decide; [congruence|done].
  - intros c'. unfold QIDof, Init. rewrite inodeAt_mod. case_decide as E.
    + subst c'. intros _. unfold c. rewrite index_addr, typeOf_addr. split; [lia|]. cbn. f_equal. rewrite Hg.
      unfold uint_wrap. by rewrite Zplus_mod_idemp_l.
    + intros Hin. destruct (Hi c' Hin) as [? ?]. split; [lia|done].
  - intros c1 c2. unfold Init. rewrite !inodeAt_mod. repeat case_decide; subst; try done; intros Hi1 Hi2; [..|by apply Hu].
    + apply Hi in Hi2 as [? _]. unfold c. rewrite index_addr. lia.
    + apply Hi in Hi1 as [? _]. unfold c. rewrite index_addr. lia.
  - intros n. unfold Init. rewrite inodeAt_mod. by case_decide; [apply (Hp' c)|].
  - rewrite Hg. unfold uint_wrap. rewrite Zplus_mod_idemp_l. f_equal. lia.
Qed.

Lemma TreeOk_add h w d name c :
  TreeOk (h, w) -> h !! c = Some (d, name) -> TreeOk (h, addChild d name c w).
Proof.
  intros [He Hh Hi Hu Hp' Hg] Hc. assert (forall n, identity n (AddChild d name c (tree w)) = identity n (tree w)) as HI.
  { intros n. apply AddChild_identity. }
  unfold identity in HI. split; cbn in *; [..|done].
  - intros d' name' c'. rewrite AddChild_Children, AddChild_Parent. case_decide as E; [subst d'|].
    + intros [[-> ->]|[Hn Hc']]%lookup_insert_Some; [by rewrite decide_True|].
      destruct (He d name' c' Hc') as [Hh' Hp]. case_decide; [subst; congruence|done].
    + intros Hc'. destruct (He d' name' c' Hc') as [Hh' Hp]. case_decide; [subst; congruence|done].
  - intros c' d' name' Hc'. specialize (HI c'). injection HI as -> _ _. eauto.
  - intros c'. specialize (HI c'). injection HI as -> -> _. eauto.
  - intros c1 c2. pose proof (HI c1) as [= -> _ _]. pose proof (HI c2) as [= -> _ _]. eauto.
  - intros n. pose proof (HI n) as [= _ _ ->]. eauto.
Qed.

Lemma TreeOk_home h w d name c :
  TreeOk (h, w) -> h !! c = None -> typeOf d = TMemDir -> (index d < index c)%nat -> inited (inodeAt c (tree w)) = true ->
  TreeOk (<[c := (d, name)]> h, w).
Proof.
  intros [He Hh Hi Hu Hp' Hg] Hc Hd Hlt Hin. split; cbn in *; [..|done|done|done|done].
  - intros d' name' c' Hc'. destruct (He d' name' c' Hc') as [Hh' ?]. split; [|done]. rewrite lookup_insert_ne; [done|congruence].
  - intros c' d' name' [[<- [= <- <-]]|[_ Hc']]%lookup_insert_Some; eauto.
Qed.

Lemma RemoveChildIf_shape d name check t :
  (RemoveChildIf d name check t).2 = t \/
  exists c, Children d t !! name = Some c /\
    RemoveChildIf d name check t = (Ok tt, modInode c (set_parent None) (RemoveChild d name t)).
Proof.
  unfold RemoveChildIf. destruct (Children d t !! name) as [c|]; [|by left]. destruct (negb _); [by left|].
  destruct (check _ _); [by left|right; eauto].
Qed.

Lemma TreeOk_unlink h w d name flags : TreeOk (h, w) -> TreeOk (h, (MemDir.Unlink d name flags w).2).
Proof.
  intros Hok. unfold MemDir.Unlink. destruct (_ && _); [done|].
  set (check := fun node => _). destruct (RemoveChildIf_shape d name check (tree w)) as [Et|(c & Hc & Et)].
  { destruct (RemoveChildIf _ _ _ _) as [r t]. cbn in *. subst t. by destruct w. }
  rewrite Et. cbn. destruct (ok_entry _ Hok d name c Hc) as [Hhc _].
  pose proof (TreeOk_shrunk h w _ Hok (shrunk_RemoveChild d name (tree w))) as Hok'.
  set (t := RemoveChild d name (tree w)) in *.
  assert (HI : forall n, identity n (modInode c (set_parent None) t) = identity n t) by (intros n; by rewrite identity_mod).
  unfold identity in HI. destruct Hok' as [He Hh Hi Hu Hp' Hg]. split; cbn in *; [..|done].
  - intros d' name' c' Hc'. rewrite Children_mod in Hc'.
    assert (Children d' t !! name' = Some c') as Hc2 by (case_decide as E; [by subst|done]).
    clear Hc'. destruct (He d' name' c' Hc2) as [Hh' Hp]. split; [done|]. rewrite Parent_mod. case_decide as E; [|exact Hp].
    (* the removed child has no other entry *)
    subst c'. assert ((d', name') = (d, name)) as [= -> ->] by congruence.
    unfold t in Hc2. rewrite RemoveChild_Children, decide_True, lookup_delete_eq in Hc2 by done. done.
  - intros c' d' name' Hc'. specialize (HI c'). injection HI as -> _ _. eauto.
  - intros c'. specialize (HI c'). injection HI as -> -> _. eauto.
  - intros c1 c2. pose proof (HI c1) as [= -> _ _]. pose proof (HI c2) as [= -> _ _]. eauto.
  - intros n. pose proof (HI n) as [= _ _ ->]. eauto.
Qed.

Lemma tryAdd_shape d name f w :
  let '(child, w1) := newNode f w in
  MemDir.tryAdd d name f w =
    match Children d (tree w1) !! name with
    | Some _ => (Err (ErrnoError EEXIST), w1)
    | None => (Ok child, addChild d name child w1)
    end.
Proof.
  unfold MemDir.tryAdd. destruct (newNode f w) as [child [t u]]. unfold TryAddChild. cbn. by destruct (Children d t !! name).
Qed.

(** A new object entered in a directory that exists. *)
Lemma TreeOk_enter h w d name f child w' :
  TreeOk (h, w) -> isDir d w -> newNode f w = (child, w') ->
  TreeOk (<[child := (d, name)]> h, addChild d name child w').
Proof.
  intros Hok [Hd Hi] En. destruct (newNode_spec h f w child w' Hok En) as (Hok' & Hc & -> & Hin & _).
  apply TreeOk_add; [|by rewrite lookup_insert_eq]. apply TreeOk_home; [done..|by rewrite index_addr|done].
Qed.

Lemma section_TreeOk x y : section x y -> TreeOk x -> TreeOk y.
Proof.
  destruct 1 as [n data offset h w|n attr h w|d name f child h w w' Hd Ht|d name f e h w w' Ht|d name flags h w
    |f child h w w' Ht|d name f child h w w' Hd Ht|d name child h w Hc|d name h w|n h w|range n h w]; intros Hok.
  - unfold onFile. destruct (MemFile.Write _ _ _). by apply TreeOk_setFile.
  - unfold onFile. destruct (MemFile.Setattr _ _). by apply TreeOk_setFile.
  - pose proof (tryAdd_shape d name f w) as Hs. destruct (newNode f w) as [c w1] eqn:En. rewrite Ht in Hs.
    destruct (Children d (tree w1) !! name); [done|]. injection Hs as -> ->. by eapply TreeOk_enter.
  - pose proof (tryAdd_shape d name f w) as Hs. destruct (newNode f w) as [c w1] eqn:En. rewrite Ht in Hs.
    destruct (Children d (tree w1) !! name); [|done]. injection Hs as -> ->. by eapply newNode_spec.
  - by apply TreeOk_unlink.
  - by eapply newNode_spec.
  - unfold MemDir.add in Ht. destruct (newNode f w) as [c w1] eqn:En. injection Ht as <- <-. by eapply TreeOk_enter.
  - by apply TreeOk_add.
  - apply TreeOk_shrunk; [done|apply shrunk_RemoveChild].
  - apply TreeOk_shrunk; [done|apply shrunk_refs].
  - apply TreeOk_shrunk; [done|apply shrunk_decRef].
Qed.

(** ** From an empty memory *)

Definition memory : World := mkNS ∅ noObjects.
Definition start : State := (∅, (MemDir.NewDir memory).2).

Lemma TreeOk_memory : TreeOk (∅, memory).
Proof. by split. Qed.

Lemma TreeOk_start : TreeOk start.
Proof. unfold start. destruct (MemDir.NewDir memory) as [root w] eqn:E. by destruct (newNode_spec _ _ _ _ _ TreeOk_memory E). Qed.

Lemma sections_TreeOk x y : rtc section x y -> TreeOk x -> TreeOk y.
Proof. induction 1 as [|x y z Hxy _ IH]; [done|]. intros Hx. apply IH. by eapply section_TreeOk. Qed.

(** C28: the tree of a memory file system is a tree, whatever the order in
    which goroutines build, create, unlink, register, remove and count.  An
    entry leads from a directory to an initialised node whose parent pointer
    leads back; no node is in two places; a child was created after its
    directory, so there is no cycle; nodes have distinct QIDs as long as fewer
    than [2^64] were made, and the QID type is that of the Go type. *)
Theorem memfs_tree_wf h w :
  rtc section start (h, w) ->
  (forall d name c, Children d (tree w) !! name = Some c ->
     typeOf d = TMemDir /\ Lookup d name (tree w) = Ok c /\ Parent c (tree w) = Some d /\ (index d < index c)%nat) /\
  (forall d1 name1 d2 name2 c, Children d1 (tree w) !! name1 = Some c -> Children d2 (tree w) !! name2 = Some c ->
     d1 = d2 /\ name1 = name2) /\
  (forall c, inited (inodeAt c (tree w)) = true -> QID.Type_ (QIDof c (tree w)) = qidTypeOf (typeOf c)) /\
  (Z.of_nat (allocated (user w)) < 2 ^ 64 -> forall c1 c2,
     inited (inodeAt c1 (tree w)) = true -> inited (inodeAt c2 (tree w)) = true ->
     QID.Path (QIDof c1 (tree w)) = QID.Path (QIDof c2 (tree w)) -> c1 = c2).
Proof.
  intros Hr. destruct (sections_TreeOk _ _ Hr TreeOk_start) as [He Hh Hi Hu Hp' Hg]. cbn in *. split_and!.
  - intros d name c Hc. destruct (He d name c Hc) as [Hhc Hp]. destruct (Hh c d name Hhc) as (Hd & Hlt & Hin).
    split_and!; [done| |done..]. unfold Lookup. by rewrite Hc, Hin.
  - intros d1 name1 d2 name2 c Hc1 Hc2. destruct (He _ _ _ Hc1) as [E1 _], (He _ _ _ Hc2) as [E2 _].
    rewrite E1 in E2. by injection E2.
  - intros c Hc. by destruct (Hi c Hc) as [_ ->].
  - intros Hb c1 c2 Hc1 Hc2. destruct (Hi c1 Hc1) as [? ->], (Hi c2 Hc2) as [? ->]. cbn.
    rewrite !uint_wrap_id by (unfold is_uint; lia). intros E. apply Hu; [done..|lia].
Qed.

(** A tree with a file, a directory, a link and a file created in between. *)
Module Built.
Definition root : NodeId := (MemDir.NewDir memory).1.
Definition w1 : World := MemDir.AddFile root "a" [byte_of_Z 65] start.2.
Definition w2 : World := MemDir.AddDir root "sub" w1.
Definition sub : NodeId := default 0%nat (MemDir.SubDir root "sub" w2).
Definition w3 : World := (MemDir.tryAdd sub "b" (FMemFile (MemFile.NewFileWithMode [] 0x1a4)) w2).2.
Definition home : Home :=
  <[addr TMemFile 3 := (sub, "b")]> (<[addr TMemDir 2 := (root, "sub")]> (<[addr TMemFile 1 := (root, "a")]> ∅)).

Lemma built_reached : rtc section start (home, w3).
Proof.
  eapply rtc_l; [eapply (sec_add root "a" (FMemFile (MemFile.NewFileWithMode [byte_of_Z 65] 0x1a4)) (addr TMemFile 1)); [|by vm_compute]|].
  { split; [by vm_compute|]. vm_compute. lia. }
  eapply rtc_l; [eapply (sec_add root "sub" (FMemDir (mkDir 0 0 0)) (addr TMemDir 2)); [|by vm_compute]|].
  { split; [by vm_compute|]. vm_compute. lia. }
  eapply rtc_l; [eapply (sec_tryAdd sub "b" (FMemFile (MemFile.NewFileWithMode [] 0x1a4)) (addr TMemFile 3)); [|by vm_compute]|].
  { split; [by vm_compute|]. vm_compute. lia. }
  apply reflexive_eq. by vm_compute.
Qed.
End Built.

Lemma memfs_tree_wf_witness :
  Children Built.root (tree Built.w3) !! "sub" = Some Built.sub /\ Parent Built.sub (tree Built.w3) = Some Built.root /\
  Children Built.sub (tree Built.w3) !! "b" = Some (addr TMemFile 3).
Proof.
  destruct (memfs_tree_wf Built.home Built.w3 Built.built_reached) as (Hentry & _).
  assert (Children Built.root (tree Built.w3) !! "sub" = Some Built.sub) as Hs by (by vm_compute).
  split_and!; [done| |by vm_compute]. by destruct (Hentry _ _ _ Hs) as (_ & _ & Hp & _).
Defined.
