(* ===== verification/ClientFile.v ===== *)
(** * Client files

    [client/file.go], [client/readdir.go] and the wire operations they use
    ([client/ops.go]): a [File] splits reads, writes and directory listings
    into requests of at most [maxChunk] bytes.

    The connection is the class [Transport]: one round trip gives a decoded
    response or an error and the connection's next state; nothing is assumed
    about the server behind it.  The loops take fuel.  The theorems show that
    they end whatever the server answers, and that each request carries at
    most what a frame of the negotiated msize holds. *)

From S2P Require Import Prelude GoIO Types Errno Proto Messages P9l P9u Message Dirents Bridge.

Definition ErrClosed : GoError := Sentinel "client: connection closed".
Definition ErrNotSupported : GoError := Sentinel "client: operation not supported by negotiated dialect".
Definition ErrShortWrite : GoError := Sentinel "short write".

(** [roundTripWithFlush]: the flag says whether a request whose context ends
    is flushed. *)
Class Transport (S : Type) : Type := {
  roundTripWithFlush : Message -> bool -> S -> result Message * S;
  signalShutdown : S -> S
}.
Definition roundTrip {S} `{Transport S} (msg : Message) (s : S) : result Message * S := roundTripWithFlush msg true s.

(** [toError]: the server-reported failure of a response. *)
Definition toError (msg : Message) : option GoError :=
  match msg with
  | MRlerror r => Some (RemoteError (Rlerror.Ecode r) "")
  | MRerror r => Some (RemoteError (Rerror.Errno r) (Rerror.Ename r))
  | _ => None
  end.

(** [int64(z)] *)
Definition int64 (z : Z) : Z := uint_wrap 64 (z + 2 ^ 63) - 2 ^ 63.

Record File : Type := mkFile {
  fid : Fid;
  qid : QID.t;
  iounit : Z;
  closed : bool;
  offset : Z;
  cachedSize : Z;
  readdirOffset : Z
}.
Definition newFile (fid : Fid) (qid : QID.t) (iounit : Z) : File := mkFile fid qid iounit false 0 0 0.
Definition setOffset (o : Z) (f : File) : File :=
  mkFile (fid f) (qid f) (iounit f) (closed f) o (cachedSize f) (readdirOffset f).
Definition setReaddirOffset (o : Z) (f : File) : File :=
  mkFile (fid f) (qid f) (iounit f) (closed f) (offset f) (cachedSize f) o.

Definition ioFrameOverhead : Z := 24.

(** [n] is the length of the buffer. *)
Definition chunkLen (n : nat) (m : Z) : Z :=
  if m <? Z.of_nat n then m else uint_wrap 32 (Z.of_nat n).

Inductive Whence : Type := SeekStart | SeekCurrent | SeekEnd | SeekOther (whence : Z).
#[export] Instance Whence_eq_dec : EqDecision Whence.
Proof. solve_decision. Defined.

Definition Seek (off : Z) (whence : Whence) (f : File) : (Z * option GoError) * File :=
  if closed f then ((0, Some ErrClosed), f)
  else
    let go abs :=
      if abs <? 0 then
        let e :=
          if bool_decide (whence = SeekEnd) && (cachedSize f =? 0)
          then Errorf "client: negative position %d; SeekEnd requires File.RefreshSize to populate size" [abs]
          else Errorf "client: negative position %d" [abs] in
        ((offset f, Some e), f)
      else ((abs, None), setOffset abs f) in
    match whence with
    | SeekStart => go off
    | SeekCurrent => go (int64 (offset f + off))
    | SeekEnd => go (int64 (cachedSize f + off))
    | SeekOther w => ((offset f, Some (Errorf "client: invalid whence %d" [w])), f)
    end.

Section ClientFile.
Context {S : Type} `{Transport S} (msize : Z) (dialect : protocol).

Definition maxChunk (f : File) : Z :=
  let msizeLimit := uint_wrap 32 (msize - ioFrameOverhead) in
  let msizeLimit := if negb (iounit f =? 0) && (iounit f <? msizeLimit) then iounit f else msizeLimit in
  Z.min msizeLimit MaxDataSize.

(** The bytes read and [dst] after the call.  An [Rread] longer than [dst]
    shuts the connection down. *)
Definition readAtZeroCopy (fid : Fid) (off count : Z) (dst : bytes) (s : S) : result nat * bytes * S :=
  match roundTrip (MTread (Tread.mk fid off count)) s with
  | (Err e, s) => (Err e, dst, s)
  | (Ok (MRread r), s) =>
      let data := Rread.Data r in
      if (length dst <? length data)%nat then (Err ErrClosed, dst, signalShutdown s)
      else (Ok (length data), data ++ drop (length data) dst, s)
  | (Ok resp, s) =>
      match toError resp with
      | Some e => (Err e, dst, s)
      | None =>
          (Err (Errorf "client: readAtZeroCopy: expected Rread sentinel or Rlerror/Rerror, got %v" [Message_Type resp]), dst, s)
      end
  end.

Definition twrite (fid : Fid) (off : Z) (data : bytes) (s : S) : result Z * S :=
  match roundTrip (MTwrite (Twrite.mk fid off data)) s with
  | (Err e, s) => (Err e, s)
  | (Ok (MRwrite r), s) =>
      let count := Rwrite.Count r in
      if Z.of_nat (length data) <? count
      then (Err (Errorf "client: Rwrite count %d exceeds write size %d" [count; Z.of_nat (length data)]), signalShutdown s)
      else (Ok count, s)
  | (Ok resp, s) =>
      match toError resp with
      | Some e => (Err e, s)
      | None => (Err (Errorf "client: expected %v, got %v" [TypeRwrite; Message_Type resp]), s)
      end
  end.

(** [ReadCtx]: the count, the error, and [p] after the call. *)
Definition Read (p : bytes) (f : File) (s : S) : (nat * option GoError * bytes) * File * S :=
  if closed f then ((0%nat, Some ErrClosed, p), f, s)
  else if (length p =? 0)%nat then ((0%nat, None, p), f, s)
  else if offset f <? 0 then ((0%nat, Some (Errorf "client: negative offset %d" [offset f]), p), f, s)
  else
    let count := chunkLen (length p) (maxChunk f) in
    let k := Z.to_nat count in
    match readAtZeroCopy (fid f) (uint_wrap 64 (offset f)) count (take k p) s with
    | (Err e, dst, s) => ((0%nat, Some e, dst ++ drop k p), f, s)
    | (Ok n, dst, s) =>
        ((n, if (n =? 0)%nat then Some EOF else None, dst ++ drop k p),
         setOffset (int64 (offset f + Z.of_nat n)) f, s)
    end.

(** The loop of [ReadAtCtx] with [total] bytes read; [None] is out of fuel. *)
Fixpoint readAtLoop (fuel : nat) (f : File) (off : Z) (p : bytes) (total : nat) (s : S)
    : option ((nat * option GoError * bytes) * S) :=
  if (total <? length p)%nat then
    match fuel with
    | O => None
    | Datatypes.S fuel =>
        let count := chunkLen (length p - total) (maxChunk f) in
        let k := Z.to_nat count in
        match readAtZeroCopy (fid f) (uint_wrap 64 (off + Z.of_nat total)) count (take k (drop total p)) s with
        | (Err e, dst, s) => Some ((total, Some e, take total p ++ dst ++ drop (total + k) p), s)
        | (Ok n, dst, s) =>
            let p := take total p ++ dst ++ drop (total + k) p in
            if (n =? 0)%nat then Some ((total, Some EOF, p), s)
            else readAtLoop fuel f off p (total + n) s
        end
    end
  else Some ((total, None, p), s).

Definition ReadAt (fuel : nat) (p : bytes) (off : Z) (f : File) (s : S)
    : option ((nat * option GoError * bytes) * S) :=
  if closed f then Some ((0%nat, Some ErrClosed, p), s)
  else if (length p =? 0)%nat then Some ((0%nat, None, p), s)
  else if off <? 0 then Some ((0%nat, Some (Errorf "client: ReadAt negative offset %d" [off]), p), s)
  else readAtLoop fuel f off p 0 s.

Definition chunkOf (f : File) (p : bytes) (total : nat) : bytes :=
  let chunk := drop total p in
  let m := maxChunk f in
  if m <? Z.of_nat (length chunk) then take (Z.to_nat m) chunk else chunk.

Fixpoint writeAtLoop (fuel : nat) (f : File) (off : Z) (p : bytes) (total : nat) (s : S)
    : option ((nat * option GoError) * S) :=
  if (total <? length p)%nat then
    match fuel with
    | O => None
    | Datatypes.S fuel =>
        let chunk := chunkOf f p total in
        match twrite (fid f) (uint_wrap 64 (off + Z.of_nat total)) chunk s with
        | (Err e, s) => Some ((total, Some e), s)
        | (Ok n, s) =>
            let total := (total + Z.to_nat n)%nat in
            if n <? Z.of_nat (length chunk) then Some ((total, Some ErrShortWrite), s)
            else writeAtLoop fuel f off p total s
        end
    end
  else Some ((total, None), s).

Definition WriteAt (fuel : nat) (p : bytes) (off : Z) (f : File) (s : S)
    : option ((nat * option GoError) * S) :=
  if closed f then Some ((0%nat, Some ErrClosed), s)
  else if (length p =? 0)%nat then Some ((0%nat, None), s)
  else if off <? 0 then Some ((0%nat, Some (Errorf "client: WriteAt negative offset %d" [off])), s)
  else writeAtLoop fuel f off p 0 s.

Fixpoint writeLoop (fuel : nat) (p : bytes) (total : nat) (f : File) (s : S)
    : option ((nat * option GoError) * File * S) :=
  if (total <? length p)%nat then
    match fuel with
    | O => None
    | Datatypes.S fuel =>
        let chunk := chunkOf f p total in
        match twrite (fid f) (uint_wrap 64 (offset f)) chunk s with
        | (Err e, s) => Some ((total, Some e), f, s)
        | (Ok n, s) =>
            let total := (total + Z.to_nat n)%nat in
            let f := setOffset (int64 (offset f + n)) f in
            if n <? Z.of_nat (length chunk) then Some ((total, Some ErrShortWrite), f, s)
            else writeLoop fuel p total f s
        end
    end
  else Some ((total, None), f, s).

Definition Write (fuel : nat) (p : bytes) (f : File) (s : S) : option ((nat * option GoError) * File * S) :=
  if closed f then Some ((0%nat, Some ErrClosed), f, s)
  else if (length p =? 0)%nat then Some ((0%nat, None), f, s)
  else if offset f <? 0 then Some ((0%nat, Some (Errorf "client: negative offset %d" [offset f])), f, s)
  else writeLoop fuel p 0 f s.

(** The entries of one page: appended one by one, the cursor following, until
    [n] are there; the flag says that they are. *)
Fixpoint takePage (n : Z) (parsed entries : list Dirent.t) (f : File) : bool * list Dirent.t * File :=
  match parsed with
  | [] => (false, entries, f)
  | d :: parsed =>
      let entries := entries ++ [d] in
      let f := setReaddirOffset (Dirent.Offset d) f in
      if (0 <? n) && (n <=? Z.of_nat (length entries)) then (true, take (Z.to_nat n) entries, f)
      else takePage n parsed entries f
  end.

Fixpoint readDirLoop (fuel : nat) (n : Z) (entries : list Dirent.t) (f : File) (s : S)
    : option ((list Dirent.t * option GoError) * File * S) :=
  if (0 <? n) && (n <=? Z.of_nat (length entries)) then Some ((take (Z.to_nat n) entries, None), f, s)
  else
    match fuel with
    | O => None
    | Datatypes.S fuel =>
        let reqOffset := readdirOffset f in
        match roundTrip (MTreaddir (Treaddir.mk (fid f) reqOffset (maxChunk f))) s with
        | (Err e, s) => Some ((entries, Some e), f, s)
        | (Ok resp, s) =>
            match toError resp with
            | Some e => Some ((entries, Some e), f, s)
            | None =>
                match resp with
                | MRreaddir r =>
                    if (length (Rreaddir.Data r) =? 0)%nat then Some ((entries, None), f, s)
                    else
                      match ParseDirents (Rreaddir.Data r) with
                      | (_, Some e) => Some ((entries, Some e), f, s)
                      | ([], None) => Some ((entries, None), f, s)
                      | (parsed, None) =>
                          let '(full, entries, f) := takePage n parsed entries f in
                          if full : bool then Some ((entries, None), f, s)
                          else if readdirOffset f <=? reqOffset
                          then Some ((entries, Some (Errorf "client: readdir cursor did not advance past offset %d" [reqOffset])), f, s)
                          else readDirLoop fuel n entries f s
                      end
                | _ => Some ((entries, Some (Errorf "client: expected Rreaddir, got %v" [Message_Type resp])), f, s)
                end
            end
        end
    end.

Definition ReadDir (fuel : nat) (n : Z) (f : File) (s : S) : option ((list Dirent.t * option GoError) * File * S) :=
  if closed f then Some (([], Some ErrClosed), f, s)
  else if decide (dialect <> protocolL)
  then Some (([], Some (Wrapf "%w: File.ReadDir requires 9P2000.L" [] ErrNotSupported)), f, s)
  else readDirLoop fuel n [] f s.

(** ** Chunks *)

Hypothesis Hmsize : 256 <= msize < 2 ^ 32.

Lemma maxChunk_bounds f : 0 <= iounit f -> 1 <= maxChunk f <= msize - ioFrameOverhead.
Proof.
  intros Hi. unfold maxChunk, ioFrameOverhead, MaxDataSize. change (Z.shiftl 1 24) with (2 ^ 24).
  rewrite uint_wrap_id by (unfold is_uint; lia).
  destruct (Z.eqb_spec (iounit f) 0); cbn [negb andb]; [lia|].
  destruct (Z.ltb_spec (iounit f) (msize - 24)); lia.
Qed.

Lemma chunkLen_bounds n f :
  0 <= iounit f -> (0 < n)%nat ->
  1 <= chunkLen n (maxChunk f) <= maxChunk f /\ (Z.to_nat (chunkLen n (maxChunk f)) <= n)%nat.
Proof.
  intros Hi Hn. pose proof (maxChunk_bounds f Hi) as Hm. unfold chunkLen, ioFrameOverhead in *.
  destruct (Z.ltb_spec (maxChunk f) (Z.of_nat n)); [lia|]. rewrite uint_wrap_id by (unfold is_uint; lia). lia.
Qed.

Lemma chunkOf_spec f p total :
  0 <= iounit f -> (total < length p)%nat ->
  exists k, chunkOf f p total = take k (drop total p) /\ length (chunkOf f p total) = k /\
    (0 < k)%nat /\ Z.of_nat k <= maxChunk f /\ (total + k <= length p)%nat.
Proof.
  intros Hi Ht. pose proof (maxChunk_bounds f Hi) as Hm. unfold chunkOf. rewrite length_drop.
  destruct (Z.ltb_spec (maxChunk f) (Z.of_nat (length p - total))).
  - exists (Z.to_nat (maxChunk f)). rewrite length_take, length_drop. repeat split; lia.
  - exists (length p - total)%nat. rewrite take_ge by (rewrite length_drop; lia).
    rewrite length_drop. repeat split; lia.
Qed.

Lemma readAtZeroCopy_length fid off count dst s :
  let '(r, dst', _) := readAtZeroCopy fid off count dst s in
  length dst' = length dst /\ match r with Ok n => (n <= length dst)%nat | Err _ => True end.
Proof.
  unfold readAtZeroCopy. destruct (roundTrip _ s) as [[resp|e] s1]; [|done].
  destruct resp; cbn [toError]; try done.
  destruct (Nat.ltb_spec (length dst) (length (Rread.Data m))); [done|].
  rewrite length_app, length_drop. lia.
Qed.

Lemma twrite_count fid off data s n s' : twrite fid off data s = (Ok n, s') -> n <= Z.of_nat (length data).
Proof.
  unfold twrite. destruct (roundTrip _ s) as [[resp|e] s1]; [|done].
  destruct resp; cbn [toError]; try done.
  destruct (Z.ltb_spec (Z.of_nat (length data)) (Rwrite.Count m)); [done|]. by intros [= <- _].
Qed.

Lemma length_fill (p dst : bytes) total k :
  length dst = length (take k (drop total p)) -> (total <= length p)%nat ->
  length (take total p ++ dst ++ drop (total + k) p) = length p.
Proof. intros Hd Ht. rewrite !length_app, Hd, !length_take, !length_drop. lia. Qed.

(** ** The loops end *)

Lemma readAtLoop_ends fuel f off p total s :
  0 <= iounit f -> (length p - total <= fuel)%nat -> readAtLoop fuel f off p total s <> None.
Proof.
  intros Hi. revert p total s. induction fuel as [|fuel IH]; intros p total s Hf; cbn [readAtLoop].
  - by destruct (Nat.ltb_spec total (length p)); [lia|].
  - destruct (Nat.ltb_spec total (length p)); [|done]. set (k := Z.to_nat _).
    pose proof (readAtZeroCopy_length (fid f) (uint_wrap 64 (off + Z.of_nat total))
      (chunkLen (length p - total) (maxChunk f)) (take k (drop total p)) s) as Hz.
    destruct (readAtZeroCopy _ _ _ _ s) as [[[n|e] dst] s1]; [|done]. destruct Hz as [Hl Hn].
    destruct (Nat.eqb_spec n 0); [done|]. apply IH. rewrite length_fill by (done || lia). lia.
Qed.

Lemma writeAtLoop_ends fuel f off p total s :
  0 <= iounit f -> (length p - total <= fuel)%nat -> writeAtLoop fuel f off p total s <> None.
Proof.
  intros Hi. revert total s. induction fuel as [|fuel IH]; intros total s Hf; cbn [writeAtLoop].
  - by destruct (Nat.ltb_spec total (length p)); [lia|].
  - destruct (Nat.ltb_spec total (length p)) as [Ht|]; [|done].
    destruct (chunkOf_spec f p total Hi Ht) as (k & _ & Hk & H0 & _).
    destruct (twrite _ _ _ s) as [[n|e] s1]; [|done]. rewrite Hk.
    destruct (Z.ltb_spec n (Z.of_nat k)); [done|]. apply IH. lia.
Qed.

Lemma writeLoop_ends fuel p total f s :
  0 <= iounit f -> (length p - total <= fuel)%nat -> writeLoop fuel p total f s <> None.
Proof.
  revert total f s. induction fuel as [|fuel IH]; intros total f s Hi Hf; cbn [writeLoop].
  - by destruct (Nat.ltb_spec total (length p)); [lia|].
  - destruct (Nat.ltb_spec total (length p)) as [Ht|]; [|done].
    destruct (chunkOf_spec f p total Hi Ht) as (k & _ & Hk & H0 & _).
    destruct (twrite _ _ _ s) as [[n|e] s1]; [|done]. rewrite Hk.
    destruct (Z.ltb_spec n (Z.of_nat k)); [done|]. apply IH; [done|lia].
Qed.

Lemma takePage_cursor n parsed entries f full entries' f' :
  takePage n parsed entries f = (full, entries', f') -> Forall Dirent.wf parsed ->
  (readdirOffset f' = readdirOffset f \/ u64 (readdirOffset f')) /\
  fid f' = fid f /\ iounit f' = iounit f.
Proof.
  revert entries f. induction parsed as [|d parsed IH]; intros entries f; cbn.
  - intros [= <- <- <-] _. auto.
  - intros E [(_ & Ho & _) Hwf]%Forall_cons. destruct (_ && _); [injection E as <- <- <-; cbn; auto|].
    destruct (IH _ _ E Hwf) as [[H1|H1] H2]; cbn in *; [|auto]. rewrite H1. auto.
Qed.

Lemma ParseDirents_wf data ds : ParseDirents data = (ds, None) -> Forall Dirent.wf ds.
Proof.
  unfold ParseDirents. intros E. eapply parseLoop_sound in E; [|lia|lia].
  by destruct E as (ds' & off' & -> & Hwf & _).
Qed.

Lemma readDirLoop_ends fuel n entries f s :
  0 <= readdirOffset f <= 2 ^ 64 -> 2 ^ 64 - readdirOffset f < Z.of_nat fuel ->
  readDirLoop fuel n entries f s <> None.
Proof.
  revert entries f s. induction fuel as [|fuel IH]; intros entries f s Ho Hf; cbn [readDirLoop]; [lia|].
  destruct (_ && _); [done|]. destruct (roundTrip _ s) as [[resp|e] s1]; [|done].
  destruct (toError resp); [done|]. destruct resp; try done.
  destruct (length _ =? 0)%nat; [done|]. destruct (ParseDirents _) as [parsed [e|]] eqn:Ep; [by destruct parsed|].
  apply ParseDirents_wf in Ep. destruct parsed as [|d parsed]; [done|].
  destruct (takePage _ _ _ _) as [[[] es] f1] eqn:Et; [done|].
  destruct (Z.leb_spec (readdirOffset f1) (readdirOffset f)); [done|].
  destruct (takePage_cursor _ _ _ _ _ _ _ Et Ep) as ([Hc|Hc] & _); [lia|].
  destruct Hc. apply IH; lia.
Qed.

(** ** Requests fit

    [I] is any property of the connection that requests which fit keep. *)

Definition request_ok (m : Message) : Prop :=
  match m with
  | MTread r => 0 < Tread.Count r /\ HeaderSize + 4 + Tread.Count r <= msize
  | MTwrite r => HeaderSize + Z.of_nat (length (Twrite.wire r)) <= msize
  | MTreaddir r => 0 < Treaddir.Count r /\ HeaderSize + 4 + Treaddir.Count r <= msize
  | _ => False
  end.

Section Requests.
Context (I : S -> Prop).
Hypothesis I_roundTrip : forall m s, request_ok m -> I s -> I (snd (roundTrip m s)).
Hypothesis I_shutdown : forall s, I s -> I (signalShutdown s).

Lemma readAtZeroCopy_I fid off n f dst s :
  0 <= iounit f -> (0 < n)%nat -> I s -> I (snd (readAtZeroCopy fid off (chunkLen n (maxChunk f)) dst s)).
Proof.
  intros Hi Hn Hs. unfold readAtZeroCopy. set (m := MTread _).
  assert (request_ok m) as Hm.
  { destruct (chunkLen_bounds n f Hi Hn) as [H1 _]. pose proof (maxChunk_bounds f Hi) as H2.
    unfold m, request_ok, HeaderSize, ioFrameOverhead in *. cbn. lia. }
  pose proof (I_roundTrip m s Hm Hs) as HI. destruct (roundTrip m s) as [[resp|e] s1]; [|done]. cbn in HI.
  destruct resp; cbn [toError]; try done. destruct (_ <? _)%nat; cbn; auto.
Qed.

Lemma twrite_I fid off f p total s :
  0 <= iounit f -> (total < length p)%nat -> I s -> I (snd (twrite fid off (chunkOf f p total) s)).
Proof.
  intros Hi Ht Hs. unfold twrite. set (m := MTwrite _).
  assert (request_ok m) as Hm.
  { destruct (chunkOf_spec f p total Hi Ht) as (k & _ & Hk & _ & Hle & _). pose proof (maxChunk_bounds f Hi) as H2.
    unfold m, request_ok, Twrite.wire, wire_data. cbn [Twrite.Fid Twrite.Offset Twrite.Data].
    rewrite !length_app, !length_le_bytes, Hk. unfold HeaderSize, ioFrameOverhead in *. lia. }
  pose proof (I_roundTrip m s Hm Hs) as HI. destruct (roundTrip m s) as [[resp|e] s1]; [|done]. cbn in HI.
  destruct resp; cbn [toError]; try done. destruct (_ <? _); cbn; auto.
Qed.

Lemma Read_I p f s : 0 <= iounit f -> I s -> I (snd (Read p f s)).
Proof.
  intros Hi Hs. unfold Read. destruct (closed f); [done|]. destruct (Nat.eqb_spec (length p) 0); [done|].
  destruct (offset f <? 0); [done|].
  pose proof (readAtZeroCopy_I (fid f) (uint_wrap 64 (offset f)) (length p) f
    (take (Z.to_nat (chunkLen (length p) (maxChunk f))) p) s Hi) as HI.
  destruct (readAtZeroCopy _ _ _ _ s) as [[[k|e] dst] s1]; apply HI; (done || lia).
Qed.

Lemma readAtLoop_I fuel f off p total s r s' :
  0 <= iounit f -> I s -> readAtLoop fuel f off p total s = Some (r, s') -> I s'.
Proof.
  intros Hi. revert p total s. induction fuel as [|fuel IH]; intros p total s Hs; cbn [readAtLoop].
  - destruct (_ <? _)%nat; [done|]. by intros [= _ <-].
  - destruct (Nat.ltb_spec total (length p)); [|by intros [= _ <-]]. set (k := Z.to_nat _).
    pose proof (readAtZeroCopy_I (fid f) (uint_wrap 64 (off + Z.of_nat total)) (length p - total) f
      (take k (drop total p)) s Hi) as HI.
    destruct (readAtZeroCopy _ _ _ _ s) as [[[j|e] dst] s1]; cbn in HI.
    + destruct (_ =? _)%nat; [intros [= _ <-]|apply IH]; apply HI; (done || lia).
    + intros [= _ <-]. apply HI; (done || lia).
Qed.

Lemma writeAtLoop_I fuel f off p total s r s' :
  0 <= iounit f -> I s -> writeAtLoop fuel f off p total s = Some (r, s') -> I s'.
Proof.
  intros Hi. revert total s. induction fuel as [|fuel IH]; intros total s Hs; cbn [writeAtLoop].
  - destruct (_ <? _)%nat; [done|]. by intros [= _ <-].
  - destruct (Nat.ltb_spec total (length p)) as [Ht|]; [|by intros [= _ <-]].
    pose proof (twrite_I (fid f) (uint_wrap 64 (off + Z.of_nat total)) f p total s Hi Ht Hs) as HI.
    destruct (twrite _ _ _ s) as [[n|e] s1]; cbn in HI; [|by intros [= _ <-]].
    destruct (_ <? _); [by intros [= _ <-]|by apply IH].
Qed.

Lemma writeLoop_I fuel p total f s r f' s' :
  0 <= iounit f -> I s -> writeLoop fuel p total f s = Some (r, f', s') -> I s'.
Proof.
  revert total f s. induction fuel as [|fuel IH]; intros total f s Hi Hs; cbn [writeLoop].
  - destruct (_ <? _)%nat; [done|]. by intros [= _ _ <-].
  - destruct (Nat.ltb_spec total (length p)) as [Ht|]; [|by intros [= _ _ <-]].
    pose proof (twrite_I (fid f) (uint_wrap 64 (offset f)) f p total s Hi Ht Hs) as HI.
    destruct (twrite _ _ _ s) as [[n|e] s1]; cbn in HI; [|by intros [= _ _ <-]].
    destruct (_ <? _); [by intros [= _ _ <-]|by apply IH].
Qed.

Lemma readDirLoop_I fuel n entries f s r f' s' :
  0 <= iounit f -> I s -> readDirLoop fuel n entries f s = Some (r, f', s') -> I s'.
Proof.
  revert entries f s. induction fuel as [|fuel IH]; intros entries f s Hi Hs; cbn [readDirLoop].
  - destruct (_ && _); [|done]. by intros [= _ _ <-].
  - destruct (_ && _); [by intros [= _ _ <-]|]. set (m := MTreaddir _).
    assert (request_ok m) as Hm.
    { pose proof (maxChunk_bounds f Hi) as H2. unfold m, request_ok, HeaderSize, ioFrameOverhead in *. cbn. lia. }
    pose proof (I_roundTrip m s Hm Hs) as HI. destruct (roundTrip m s) as [[resp|e] s1]; [|by intros [= _ _ <-]]. cbn in HI.
    destruct (toError resp); [by intros [= _ _ <-]|]. destruct resp; try (by intros [= _ _ <-]).
    destruct (_ =? _)%nat; [by intros [= _ _ <-]|].
    destruct (ParseDirents _) as [parsed [e|]] eqn:Ep; [destruct parsed; by intros [= _ _ <-]|].
    apply ParseDirents_wf in Ep. destruct parsed as [|d parsed]; [by intros [= _ _ <-]|].
    destruct (takePage _ _ _ _) as [[[] es] f1] eqn:Et; [by intros [= _ _ <-]|].
    destruct (_ <=? _); [by intros [= _ _ <-]|]. apply IH; [|done].
    by destruct (takePage_cursor _ _ _ _ _ _ _ Et Ep) as (_ & _ & ->).
Qed.
End Requests.
End ClientFile.

(** The requests a connection was asked to send. *)
Definition recording {S} (T : Transport S) : Transport (S * list Message) :=
  Build_Transport (S * list Message)
    (fun m flush '(s, log) => let '(r, s) := roundTripWithFlush m flush s in (r, (s, log ++ [m])))
    (fun '(s, log) => (signalShutdown s, log)).

Definition file_ok (f : File) : Prop := 0 <= iounit f /\ 0 <= readdirOffset f <= 2 ^ 64.

(** ** Properties *)

(** C10: client I/O ends whatever the server answers: with the msize that
    dialling guarantees, [ReadAt], [WriteAt] and [Write] of [n] bytes return
    within [n] round trips and [ReadDir] within the number of cookies past its
    cursor, on any sequence of responses and errors. *)
Theorem client_io_terminates {S} (T : Transport S) msize dialect f p off n (s : S) :
  256 <= msize < 2 ^ 32 -> file_ok f ->
  ReadAt msize (length p) p off f s <> None /\
  WriteAt msize (length p) p off f s <> None /\
  Write msize (length p) p f s <> None /\
  ReadDir msize dialect (Z.to_nat (2 ^ 64 - readdirOffset f + 1)) n f s <> None.
Proof.
  intros Hm [Hi Ho]. unfold ReadAt, WriteAt, Write, ReadDir.
  destruct (closed f), (length p =? 0)%nat eqn:Hp; repeat split; try done;
    try (destruct (off <? 0)); try (destruct (offset f <? 0)); try done.
  all: try (apply readAtLoop_ends; (done || lia)).
  all: try (apply writeAtLoop_ends; (done || lia)).
  all: try (apply writeLoop_ends; (done || lia)).
  all: case_decide; [done|apply readDirLoop_ends; lia].
Qed.

(** Every request the client's file operations send fits the negotiated
    msize: a [Twrite] frame is at most msize bytes long, and a [Tread] or
    [Treaddir] asks for a positive count whose response is; this holds for any
    server, any server-chosen iounit and any number of rounds. *)
Theorem client_requests_fit {S} (T : Transport S) msize dialect f p off n fuel (s s' : S) log :
  256 <= msize < 2 ^ 32 -> file_ok f ->
  (exists r, ReadAt (H := recording T) msize fuel p off f (s, []) = Some (r, (s', log))) \/
  (exists r, WriteAt (H := recording T) msize fuel p off f (s, []) = Some (r, (s', log))) \/
  (exists r f', Write (H := recording T) msize fuel p f (s, []) = Some (r, f', (s', log))) \/
  (exists r f', Read (H := recording T) msize p f (s, []) = (r, f', (s', log))) \/
  (exists r f', ReadDir (H := recording T) msize dialect fuel n f (s, []) = Some (r, f', (s', log))) ->
  Forall (request_ok msize) log.
Proof.
  intros Hm [Hi _].
  pose (I := fun sl : S * list Message => Forall (request_ok msize) sl.2).
  assert (forall m sl, request_ok msize m -> I sl -> I (snd (roundTrip (H := recording T) m sl))) as Hr.
  { intros m [s0 l] Hok Hl. cbn. destruct (roundTripWithFlush m true s0). by apply Forall_app_2, Forall_singleton. }
  assert (forall sl, I sl -> I (signalShutdown (Transport := recording T) sl)) as Hs by by intros [s0 l].
  assert (I (s, [])) as H0 by by apply Forall_nil. change (Forall (request_ok msize) log) with (I (s', log)).
  intros [[r E]|[[r E]|[(r & f' & E)|[(r & f' & E)|(r & f' & E)]]]].
  - unfold ReadAt in E. repeat (case_match; [by injection E as <- <- <-|]). by eapply (readAtLoop_I msize Hm I).
  - unfold WriteAt in E. repeat (case_match; [by injection E as <- <- <-|]). by eapply (writeAtLoop_I msize Hm I).
  - unfold Write in E. repeat (case_match; [by injection E as <- <- <- <-|]). by eapply (writeLoop_I msize Hm I).
  - pose proof (Read_I msize Hm I Hr Hs p f (s, []) Hi H0) as HI. by rewrite E in HI.
  - unfold ReadDir in E. repeat (case_match; [by injection E as <- <- <- <-|]). by eapply (readDirLoop_I msize Hm I).
Qed.

(** *** With a server that reads zeros, 100 at a time, and accepts writes *)

Definition zeroServer : Transport unit :=
  Build_Transport unit
    (fun m _ s => (match m with
      | MTread r => Ok (MRread (Rread.mk (repeat (byte_of_Z 0) (Nat.min 100 (Z.to_nat (Tread.Count r))))))
      | MTwrite r => Ok (MRwrite (Rwrite.mk (Z.of_nat (length (Twrite.Data r)))))
      | MTreaddir _ => Ok (MRreaddir (Rreaddir.mk []))
      | _ => Err ErrClosed
      end, s))
    (fun s => s).

Definition ones (n : nat) : bytes := repeat (byte_of_Z 1) n.

Lemma client_io_terminates_witness :
  exists r, ReadAt (H := zeroServer) 256 600 (ones 600) 7 (newFile 1 QID.zero 0) tt = Some (r, tt) /\ r.1.1 = 600%nat.
Proof.
  assert (256 <= 256 < 2 ^ 32) as Hm by lia. assert (file_ok (newFile 1 QID.zero 0)) as Hf by by unfold file_ok.
  pose proof (proj1 (client_io_terminates zeroServer 256 protocolL (newFile 1 QID.zero 0) (ones 600) 7 0 tt Hm Hf)) as Hr.
  change (length (ones 600)) with 600%nat in Hr.
  destruct (ReadAt (H := zeroServer) 256 600 (ones 600) 7 (newFile 1 QID.zero 0) tt) as [[r []]|] eqn:E; [|exact (False_rect _ (Hr eq_refl))].
  exists r. split; [reflexivity|]. vm_compute in E. by injection E as <-.
Defined.

Lemma client_requests_fit_witness :
  exists r log, WriteAt (H := recording zeroServer) 256 600 (ones 600) 7 (newFile 1 QID.zero 0) (tt, []) = Some (r, (tt, log)) /\
    length log = 3%nat /\ Forall (request_ok 256) log.
Proof.
  assert (256 <= 256 < 2 ^ 32) as Hm by lia. assert (file_ok (newFile 1 QID.zero 0)) as Hf by by unfold file_ok.
  destruct (WriteAt (H := recording zeroServer) 256 600 (ones 600) 7 (newFile 1 QID.zero 0) (tt, []))
    as [[r [[] log]]|] eqn:E; [|by vm_compute in E].
  pose proof (client_requests_fit zeroServer 256 protocolL (newFile 1 QID.zero 0) (ones 600) 7 0 600 tt tt log Hm Hf
    (or_intror (or_introl (ex_intro _ r E)))) as Hlog.
  exists r, log. split; [reflexivity|]. split; [|exact Hlog]. clear Hlog. vm_compute in E. by injection E as <- <-.
Defined.
