(* ===== verification/EndToEnd.v ===== *)
(** * Client files against a server

    [ClientFile] and [Bridge] joined by the wire: a request is encoded to a
    9P2000.L frame, decoded, handled, and its response encoded and decoded on
    the way back.  Behind the server is an in-memory file ([MemFS]) or a
    directory that lists its entries at once.

    The theorems say that the split into requests is invisible: a [WriteAt] is
    one write of the file, a [ReadAt] one slice of it, and a [ReadDir] the
    listing, each entry once and in order, whatever the msize and iounit; and
    what happens when a directory entry does not fit a response. *)

From S2P Require Import Prelude GoIO Types Errno Proto Messages P9l P9u Message Frame Codec Dirents.
From S2P Require Import Bufpool FidTable MemFS Bridge ClientFile.

(** ** The wire *)

(** Encoded by one side and decoded by the other. *)
Definition trip (m : Message) : result Message :=
  match encode (Encode DialectL 1 m) with
  | Err e => Err e
  | Ok bs =>
      match Decode DialectL (BytesReader bs) with
      | (Ok (_, m'), _) => Ok m'
      | (Err e, _) => Err e
      end
  end.

Lemma trip_valid m : valid DialectL 1 m -> trip m = Ok m.
Proof.
  intros Hv. unfold trip.
  rewrite (emits_encode _ _ (Encode_emits DialectL 1 m (Message_wf_encodable m (proj1 (proj2 Hv))))).
  destruct (decoder_complete (Decode_decoder DialectL) (1, m) (BytesReader (frame (1, m))) []
    Hv) as (r' & E & _); [by rewrite app_nil_r|].
  change (@pair Z Message 1 m) with (@pair Tag Message 1 m) in E. cbv iota beta. by rewrite E.
Qed.

Section Serve.
Context {W Node Handle XattrWriter : Type} `{Capabilities W Node Handle XattrWriter} `{BufPool}.
Context (msize : Z).
Abbreviation Srv := (@Server W Node Handle XattrWriter).

(** The I/O requests of [dispatch]. *)
Definition dispatchIO (m : Message) (s : Srv) : Message * Srv :=
  match m with
  | MTread m => handleRead msize protocolL m s
  | MTwrite m => handleWrite protocolL m s
  | MTreaddir m => handleReaddir msize protocolL m s
  | _ => (errorMsg protocolL ENOSYS, s)
  end.

(** A connection to the server, [None] once it is shut down. *)
#[export] Instance serve : Transport (option Srv) := {
  roundTripWithFlush m _ s :=
    match s with
    | None => (Err ErrClosed, None)
    | Some srv =>
        match trip m with
        | Err e => (Err e, None)
        | Ok m => let '(resp, srv) := dispatchIO m srv in (trip resp, Some srv)
        end
    end;
  signalShutdown _ := None
}.

(** ** An open fid *)

(** [fid] is open, without a handle, on [n]; [dir] is its directory cache. *)
Definition opened (fid : Fid) (n : Node) (dir : bool * list Dirent.t) (s : Srv) : Prop :=
  exists l fs, get (fids s) fid = Some l /\ fsAt l s = Some fs /\
    node fs = n /\ state fs = fidOpened /\ handle fs = None /\ closing fs = false /\
    (dirCached fs, dirCache fs) = dir.

(** A handler body under [withIO]: it changes the world and the directory
    cache only. *)
Lemma withIO_opened fid n dir s l fs k resp w' dir' :
  get (fids s) fid = Some l -> fsAt l s = Some fs ->
  node fs = n -> state fs = fidOpened -> handle fs = None -> closing fs = false ->
  (dirCached fs, dirCache fs) = dir ->
  (forall s1, let fs1 := set_io (ioRefs fs + 1) fs in
     fsAt l s1 = Some fs1 -> world s1 = world s ->
     exists s2, k fs1 s1 = (resp, s2) /\ world s2 = w' /\ FidTable.fids (fids s2) = FidTable.fids (fids s1) /\
       fsAt l s2 = Some (set_dir dir'.2 dir'.1 fs1)) ->
  exists s', withIO protocolL l k s = (resp, s') /\ world s' = w' /\ opened fid n dir' s'.
Proof.
  intros Hg Hl Hn Hs Hh Hc Hd Hk. set (fs1 := set_io (ioRefs fs + 1) fs).
  destruct (Hk (setFs l fs1 s)) as (s2 & E & Hw & Hf & Hl2); [by eapply setFs_fsAt|done|]. fold fs1 in E, Hl2.
  unfold withIO, beginIO. rewrite Hl, Hc. fold fs1. rewrite E, Hl2.
  unfold endIO. cbn [closing set_io set_dir fs1]. rewrite Hc. cbn [andb]. eexists. split; [reflexivity|].
  split; [done|]. exists l. eexists. split.
  { unfold get in *. cbn. by rewrite Hf. }
  split; [exact (setFs_fsAt l _ _ s2 Hl2)|]. cbn. by destruct dir'.
Qed.

Lemma roundTrip_serve m (s s' : Srv) resp :
  valid DialectL 1 m -> dispatchIO m s = (resp, s') -> valid DialectL 1 resp ->
  roundTrip m (Some s) = (Ok resp, Some s').
Proof. intros Hm E Hr. cbn. by rewrite (trip_valid m Hm), E, (trip_valid resp Hr). Qed.
End Serve.

Lemma valid_Tread fid off count :
  u32 fid -> u64 off -> u32 count -> valid DialectL 1 (MTread (Tread.mk fid off count)).
Proof. intros. split; [by vm_compute|]. split; [done|by eexists]. Qed.
Lemma valid_Rread (data : bytes) : Z.of_nat (length data) <= MaxDataSize -> valid DialectL 1 (MRread (Rread.mk data)).
Proof. intros Hd. split; [by vm_compute|]. split; [exact Hd|by eexists]. Qed.
Lemma valid_Twrite fid off (data : bytes) :
  u32 fid -> u64 off -> Z.of_nat (length data) <= MaxDataSize -> valid DialectL 1 (MTwrite (Twrite.mk fid off data)).
Proof. intros. split; [by vm_compute|]. split; [done|by eexists]. Qed.
Lemma valid_Rwrite count : u32 count -> valid DialectL 1 (MRwrite (Rwrite.mk count)).
Proof. intros. split; [by vm_compute|]. split; [done|by eexists]. Qed.
Lemma valid_Treaddir fid off count :
  u32 fid -> u64 off -> u32 count -> valid DialectL 1 (MTreaddir (Treaddir.mk fid off count)).
Proof. intros. split; [by vm_compute|]. split; [done|by eexists]. Qed.
Lemma valid_Rreaddir (data : bytes) :
  Z.of_nat (length data) <= MaxDataSize -> valid DialectL 1 (MRreaddir (Rreaddir.mk data)).
Proof. intros Hd. split; [by vm_compute|]. split; [exact Hd|by eexists]. Qed.

(** ** Pages of a listing *)

(** The entries before the first that does not fit a response of [k] bytes
    on its own. *)
Fixpoint visible (k : nat) (ds : list Dirent.t) : list Dirent.t :=
  match ds with
  | [] => []
  | d :: ds => if decide (entrySize d <= k)%nat then d :: visible k ds else []
  end.

Lemma visible_all k ds : Forall (fun d => (entrySize d <= k)%nat) ds -> visible k ds = ds.
Proof. induction 1 as [|d ds Hd _ IH]; cbn; [done|]. by rewrite decide_True, IH. Qed.

Lemma visible_short k ds :
  Exists (fun d => (k < entrySize d)%nat) ds -> (length (visible k ds) < length ds)%nat.
Proof.
  induction 1 as [d ds Hd|d ds _ IH]; cbn; [rewrite decide_False by lia; cbn; lia|]. case_decide; cbn; lia.
Qed.

(** A page is a prefix of what is left, empty only if nothing more fits. *)
Lemma fitting_prefix room k ds :
  (room <= k)%nat -> Forall Dirent.wf ds ->
  exists j, fitting room ds = take j ds /\ (j <= length ds)%nat /\
    visible k ds = take j ds ++ visible k (drop j ds) /\ (j = 0%nat -> room = k -> visible k ds = []).
Proof.
  intros Hrk Hwf. revert room Hrk. induction Hwf as [|d ds Hd _ IH]; intros room Hrk; cbn [fitting visible].
  { exists 0%nat. by repeat split. }
  rewrite (decide_True (P := str_ok _)) by apply Hd.
  destruct (decide (entrySize d <= room)%nat) as [Hr|Hr].
  - destruct (IH (room - entrySize d)%nat ltac:(lia)) as (j & -> & Hj & Hv & _). exists (S j).
    rewrite decide_True by lia. cbn. rewrite Hv. by repeat split; [lia|].
  - exists 0%nat. cbn. repeat split; [lia|]. intros _ ->. by rewrite decide_False.
Qed.

(** Entry [i] of a listing has cookie [c + i + 1]. *)
Definition cookies (c : Z) (ds : list Dirent.t) : Prop :=
  forall i d, ds !! i = Some d -> Dirent.Offset d = c + Z.of_nat i + 1.

Lemma cookies_drop c n ds : cookies c ds -> cookies (c + Z.of_nat n) (drop n ds).
Proof. intros Hc i d Hi. rewrite lookup_drop in Hi. rewrite (Hc _ _ Hi). lia. Qed.

Lemma cookies_take c n ds : cookies c ds -> cookies c (take n ds).
Proof. intros Hc i d Hi. apply lookup_take_Some in Hi as [Hi _]. by apply Hc. Qed.

Lemma assignOffsets_cookies ds : Z.of_nat (length ds) < 2 ^ 64 -> cookies 0 (assignOffsets ds).
Proof.
  intros Hl i d Hi. unfold assignOffsets in Hi. rewrite list_lookup_imap in Hi.
  apply fmap_Some in Hi as (d0 & Hi & ->). apply lookup_lt_Some in Hi. cbn.
  rewrite uint_wrap_id by (unfold is_uint; lia). lia.
Qed.

Lemma length_assignOffsets ds : length (assignOffsets ds) = length ds.
Proof. apply length_imap. Qed.

Lemma assignOffsets_wf ds : Forall Dirent.wf ds -> Forall Dirent.wf (assignOffsets ds).
Proof.
  rewrite !Forall_lookup. intros Hwf i d Hi. unfold assignOffsets in Hi. rewrite list_lookup_imap in Hi.
  apply fmap_Some in Hi as (d0 & (Hq & _ & Ht & Hn)%Hwf & ->). split; [done|]. split; [by apply uint_wrap_range|done].
Qed.

(** How many entries [ReadDir n] may still append to [got]. *)
Definition wanted (n : Z) (got left : nat) : nat := if 0 <? n then Z.to_nat n - got else left.

Lemma takePage_spec n parsed entries f :
  cookies (readdirOffset f) parsed -> (0 < n -> Z.of_nat (length entries) < n) ->
  let m := Nat.min (wanted n (length entries) (length parsed)) (length parsed) in
  takePage n parsed entries f =
    ((0 <? n) && (n <=? Z.of_nat (length entries + length parsed)), entries ++ take m parsed,
     setReaddirOffset (readdirOffset f + Z.of_nat m) f).
Proof.
  revert entries f. induction parsed as [|d parsed IH]; intros entries f Hc Hn; cbn [takePage].
  - rewrite Nat.min_0_r, take_nil, app_nil_r. cbn [length]. rewrite Nat.add_0_r, Z.add_0_r.
    assert ((0 <? n) && (n <=? Z.of_nat (length entries)) = false) as ->.
    { destruct (Z.ltb_spec 0 n); [|done]. cbn. apply Z.leb_gt. auto. }
    by destruct f.
  - rewrite length_app. cbn [length].
    assert (Hd : Dirent.Offset d = readdirOffset f + 1) by (rewrite (Hc 0%nat d) by done; lia).
    set (m := Nat.min _ _). destruct ((0 <? n) && (n <=? Z.of_nat (length entries + 1))) eqn:Estop.
    + apply andb_true_iff in Estop as [E0 E1%Z.leb_le]. assert (m = 1%nat) as ->.
      { unfold m, wanted. rewrite E0. apply Z.ltb_lt in E0. specialize (Hn E0). lia. }
      rewrite E0, (proj2 (Z.leb_le n _)) by lia. rewrite take_ge by (rewrite length_app; cbn; lia).
      cbn [take andb]. by rewrite Hd.
    + apply andb_false_iff in Estop.
      rewrite IH; [|intros i d' Hi; cbn; rewrite (Hc (S i) d') by done; lia|].
      2:{ intros H0. rewrite length_app. cbn. destruct Estop as [?%Z.ltb_ge|?%Z.leb_gt]; lia. }
      rewrite length_app. cbn [length]. set (m' := Nat.min _ _).
      assert (m = S m') as ->.
      { unfold m, m', wanted. destruct (Z.ltb_spec 0 n); [|lia].
        destruct Estop as [?|?%Z.leb_gt]; [done|lia]. }
      cbn [take]. rewrite <- app_assoc. unfold setReaddirOffset. cbn. rewrite Hd. f_equal; [|f_equal; lia].
      do 3 f_equal. lia.
Qed.

(** ** The file system behind the server

    A memory file and a directory whose [Readdir] may list anything at each
    call, in any order: [MemDir.Readdir] ranges over a Go map. *)

Inductive Node : Type := theFile | theDir.

Record Mem : Type := mkMem {
  file : MemFile.t;
  listing : nat -> list Dirent.t;
  listed : nat
}.
Definition setFile (f : MemFile.t) (w : Mem) : Mem := mkMem f (listing w) (listed w).

Definition memRead (buf : bytes) (offset : Z) (w : Mem) : result Z * bytes * Mem :=
  let '(r, buf) := MemFile.Read buf offset (file w) in (r, buf, w).
Definition memWrite (data : bytes) (offset : Z) (w : Mem) : result Z * Mem :=
  let '(r, f) := MemFile.Write data offset (file w) in (r, setFile f w).
Definition memReaddir (w : Mem) : result (list Dirent.t) * Mem :=
  (Ok (listing w (listed w)), mkMem (file w) (listing w) (S (listed w))).

Definition memCaps : Capabilities Mem Node unit unit :=
  Build_Capabilities Mem Node unit unit
    (fun _ => None) (fun _ => None) (fun _ => None) (fun _ => None)
    (fun n => match n with theFile => Some memRead | theDir => None end)
    (fun n => match n with theFile => Some memWrite | theDir => None end)
    (fun _ => None)
    (fun n => match n with theFile => None | theDir => Some memReaddir end)
    (fun _ _ w => (Err (ErrnoError ENOSYS), w)).

Section MemServer.
Context `{BufPool} (msize : Z) (Hmsize : 256 <= msize < 2 ^ 32).
#[local] Existing Instance memCaps.
Abbreviation Srv := (@Server Mem Node unit unit).
Abbreviation connected := (option Srv).

(** What the client's chunks satisfy. *)
Definition chunk_ok (k : Z) : Prop := 0 < k <= msize - ioFrameOverhead /\ k <= MaxDataSize.

Lemma clampCount_chunk k : chunk_ok k -> clampCount msize k = k.
Proof.
  unfold chunk_ok, clampCount, ioFrameOverhead, HeaderSize. intros [Hk _].
  rewrite uint_wrap_id by (unfold is_uint; lia). destruct (Z.ltb_spec (msize - 7 - 4) k); lia.
Qed.

Lemma maxChunk_ok f : 0 <= iounit f -> chunk_ok (maxChunk msize f).
Proof.
  intros Hi. pose proof (maxChunk_bounds msize Hmsize f Hi). split; [lia|].
  unfold maxChunk. apply Z.le_min_r.
Qed.

(** The slice a read of [n] bytes returns. *)
Definition slice (n : nat) (off : Z) (w : Mem) : bytes := take n (drop (Z.to_nat off) (MemFile.data (file w))).

Lemma roundTrip_read fid dir s off k :
  opened fid theFile dir s -> MemFile.size_ok (file (world s)) ->
  u32 fid -> u64 off -> chunk_ok k ->
  exists s', roundTrip (H := serve msize) (MTread (Tread.mk fid off k)) (Some s) =
      (Ok (MRread (Rread.mk (slice (Z.to_nat k) off (world s)))), Some s') /\
    world s' = world s /\ opened fid theFile dir s'.
Proof.
  intros (l & fs & Hg & Hl & Hn & Hs & Hh & Hc & Hd) Hsz Hf Ho Hk.
  assert (Hb : length (take (Z.to_nat k) (getMsgBuf k)) = Z.to_nat k).
  { rewrite length_take. pose proof (getMsgBuf_length k). lia. }
  assert (Hk32 : k <= 2 ^ 24) by (destruct Hk as [_ Hk]; unfold MaxDataSize in Hk; exact Hk).
  set (resp := MRread _).
  assert (exists s', handleRead msize protocolL (Tread.mk fid off k) s = (resp, s') /\
    world s' = world s /\ opened fid theFile dir s') as (s' & E & Hw & Hop).
  { unfold handleRead. cbn [Tread.Fid]. rewrite Hg, Hl.
    case_decide; [congruence|]. case_decide; [congruence|].
    apply (withIO_opened fid theFile dir s l fs); try done.
    intros s1 fs1 Hl1 Hw1. unfold onHandle. cbn [handle fs1 set_io node]. rewrite Hh, Hn.
    cbn [mbind option_bind NodeReader memCaps Tread.Count Tread.Offset]. rewrite clampCount_chunk by done.
    unfold fillResponse, fillPooled, memRead. rewrite Hw1.
    rewrite MemFile.Read_slice; [|apply Ho|done|rewrite Hb; destruct Hk; lia].
    rewrite Hb. fold (slice (Z.to_nat k) off (world s)). set (src := slice _ _ _).
    assert (length src <= Z.to_nat k)%nat by (unfold src, slice; rewrite length_take; lia).
    unfold validReadCount. rewrite (proj2 (Z.leb_le _ _)) by lia. rewrite (proj2 (Z.leb_le _ _)) by lia.
    cbn [andb]. rewrite Nat2Z.id, take_app_length. eexists. split; [reflexivity|]. split; [done|].
    split; [done|]. rewrite <- Hd. change (fsAt l s1 = Some (set_dir (dirCache fs) (dirCached fs) fs1)).
    rewrite Hl1. subst fs1. by destruct fs. }
  exists s'. split; [|done]. apply roundTrip_serve; [|exact E|].
  - apply valid_Tread; [done|done|]. unfold chunk_ok, ioFrameOverhead in Hk. unfold is_uint. lia.
  - apply valid_Rread. unfold slice. rewrite length_take. unfold MaxDataSize. change (Z.shiftl 1 24) with (2 ^ 24). lia.
Qed.

Definition efbig : GoError := RemoteError EFBIG "".

(** What the client's [twrite] of a chunk gets back. *)
Lemma twrite_file fid dir s off data :
  opened fid theFile dir s -> u32 fid -> u64 off -> chunk_ok (Z.of_nat (length data)) ->
  let '(r, f') := MemFile.Write data off (file (world s)) in
  exists s', twrite (H := serve msize) fid off data (Some s) =
      (match r with Ok n => Ok n | Err _ => Err efbig end, Some s') /\
    world s' = setFile f' (world s) /\ opened fid theFile dir s'.
Proof.
  intros (l & fs & Hg & Hl & Hn & Hs & Hh & Hc & Hd) Hf Ho [Hk1 Hk2].
  destruct (MemFile.Write data off (file (world s))) as [r f'] eqn:Ew.
  assert (Hlen : Z.of_nat (length data) <= 2 ^ 24) by exact Hk2.
  assert (Hr : r = Ok (Z.of_nat (length data)) \/ r = Err (ErrnoError EFBIG)).
  { destruct Ho as [Ho _]. destruct (Z.le_gt_cases (off + Z.of_nat (length data)) maxMemFileSize) as [Hm|Hm].
    - destruct (MemFile.Write_ok data off (file (world s)) Ho Hm) as (d' & E & _). rewrite E in Ew. left. congruence.
    - rewrite MemFile.Write_too_big in Ew by done. right. congruence. }
  set (resp := match r with Ok n => MRwrite (Rwrite.mk n) | Err _ => MRlerror (Rlerror.mk EFBIG) end).
  assert (exists s', handleWrite protocolL (Twrite.mk fid off data) s = (resp, s') /\
    world s' = setFile f' (world s) /\ opened fid theFile dir s') as (s' & E & Hw & Hop).
  { unfold handleWrite. cbn [Twrite.Fid]. rewrite Hg, Hl.
    case_decide; [congruence|]. case_decide; [congruence|].
    apply (withIO_opened fid theFile dir s l fs); try done.
    intros s1 fs1 Hl1 Hw1. unfold onHandle. cbn [handle fs1 set_io node]. rewrite Hh, Hn.
    cbn [mbind option_bind NodeWriter memCaps Twrite.Data Twrite.Offset].
    unfold writeResponse, memWrite. rewrite Hw1, Ew.
    assert (fsAt l (setWorld (setFile f' (world s)) s1) = Some (set_dir dir.2 dir.1 fs1)) as Hfs.
    { rewrite <- Hd. change (fsAt l s1 = Some (set_dir (dirCache fs) (dirCached fs) fs1)).
      rewrite Hl1. subst fs1. by destruct fs. }
    destruct Hr as [-> | ->].
    - unfold validWriteCount. rewrite (uint_wrap_id 64), (uint_wrap_id 32) by (unfold is_uint; lia).
      rewrite (proj2 (Z.leb_le 0 _)), Z.leb_refl by lia. cbn [andb]. eexists. by split.
    - eexists. by split. }
  exists s'. split; [|done]. unfold twrite. rewrite (roundTrip_serve msize _ s s' resp); [| |exact E|].
  - unfold resp. destruct Hr as [-> | ->]; [|done]. cbn. by rewrite Z.ltb_irrefl.
  - by apply valid_Twrite.
  - unfold resp. destruct Hr as [-> | ->].
    + apply valid_Rwrite. unfold is_uint. lia.
    + split; [by vm_compute|]. split; [by vm_compute|by eexists].
Qed.

(** Writing a list is writing its parts one after the other. *)
Lemma Write_app a b off f :
  0 <= off -> off + Z.of_nat (length (a ++ b)) <= maxMemFileSize ->
  MemFile.Write b (off + Z.of_nat (length a)) (snd (MemFile.Write a off f)) =
    (Ok (Z.of_nat (length b)), snd (MemFile.Write (a ++ b) off f)).
Proof.
  intros Ho Hm. pose proof Hm as Hm'. rewrite length_app, Nat2Z.inj_add in Hm'.
  destruct (MemFile.Write_ok a off f) as (da & Ea & La & Ia); [lia..|].
  destruct (MemFile.Write_ok (a ++ b) off f) as (dc & Ec & Lc & Ic); [lia..|].
  rewrite Ea, Ec. cbn [snd].
  destruct (MemFile.Write_ok b (off + Z.of_nat (length a)) (MemFile.setData da f)) as (db & Eb & Lb & Ib); [lia..|].
  rewrite Eb. f_equal. unfold MemFile.setData. cbn. f_equal. rewrite Z2Nat.inj_add, Nat2Z.id in * by lia.
  cbn [MemFile.data MemFile.setData] in *. rewrite length_app in *.
  apply (nth_ext db dc (byte_of_Z 0) (byte_of_Z 0)); [rewrite Lb, Lc, La; lia|].
  intros i _. change (MemFile.byteAt db i = MemFile.byteAt dc i). rewrite Ib, Ic, Ia, MemFile.byteAt_app.
  destruct (Nat.leb_spec (Z.to_nat off + length a) i), (Nat.leb_spec (Z.to_nat off) i),
    (Nat.ltb_spec i (Z.to_nat off + length a + length b)), (Nat.ltb_spec i (Z.to_nat off + (length a + length b))),
    (Nat.ltb_spec i (Z.to_nat off + length a)), (Nat.ltb_spec (i - Z.to_nat off) (length a)); try lia; try done.
  cbn. f_equal. lia.
Qed.

(** ** Writing

    Of [n] bytes at [off], sent in chunks of [m], those before the first
    chunk that would pass the size bound. *)
Definition accepted (m off n : Z) : Z :=
  if off + n <=? maxMemFileSize then n
  else if off <=? maxMemFileSize then (maxMemFileSize - off) / m * m else 0.

Lemma accepted_step m off k n :
  0 < m -> 0 < k -> k = Z.min m n -> off + k <= maxMemFileSize ->
  accepted m off n = k + accepted m (off + k) (n - k).
Proof.
  intros Hm Hk -> Ho. unfold accepted.
  destruct (Z.leb_spec (off + n) maxMemFileSize), (Z.leb_spec (off + Z.min m n + (n - Z.min m n)) maxMemFileSize); try lia.
  rewrite (proj2 (Z.leb_le off _)), (proj2 (Z.leb_le (off + _) _)) by lia.
  assert (Z.min m n = m) as -> by lia.
  replace (maxMemFileSize - off) with (maxMemFileSize - (off + m) + 1 * m) by lia.
  rewrite Z.div_add by lia. lia.
Qed.

Lemma accepted_stop m off k n :
  0 < m -> 0 < k -> k = Z.min m n -> maxMemFileSize < off + k -> accepted m off n = 0.
Proof.
  intros Hm Hk -> Ho. unfold accepted. rewrite (proj2 (Z.leb_gt _ _)) by lia.
  destruct (Z.leb_spec off maxMemFileSize); [|done]. by rewrite Z.div_small by lia.
Qed.

Lemma accepted_range m off n : 0 < m -> 0 <= n -> 0 <= accepted m off n <= n.
Proof.
  intros Hm Hn. unfold accepted. destruct (Z.leb_spec (off + n) maxMemFileSize); [lia|].
  destruct (Z.leb_spec off maxMemFileSize); [|lia].
  pose proof (Z.mul_div_le (maxMemFileSize - off) m Hm). pose proof (Z.div_pos (maxMemFileSize - off) m). nia.
Qed.

(** The file after [bs] was written, nothing at all for no bytes. *)
Definition written (bs : bytes) (off : Z) (f : MemFile.t) : MemFile.t :=
  if (length bs =? 0)%nat then f else snd (MemFile.Write bs off f).

Lemma written_app a b off f :
  0 <= off -> off + Z.of_nat (length (a ++ b)) <= maxMemFileSize ->
  written b (off + Z.of_nat (length a)) (written a off f) = written (a ++ b) off f.
Proof.
  intros Ho Hm. unfold written. rewrite length_app.
  destruct (Nat.eqb_spec (length a) 0) as [Ha|Ha].
  { apply length_zero_iff_nil in Ha as ->. cbn. by rewrite Z.add_0_r. }
  destruct (Nat.eqb_spec (length a + length b) 0); [lia|].
  destruct (Nat.eqb_spec (length b) 0) as [Hb|Hb].
  { apply length_zero_iff_nil in Hb as ->. by rewrite app_nil_r. }
  by rewrite Write_app.
Qed.

Lemma take_app_drop {A} k n (l : list A) : (k <= n)%nat -> take n l = take k l ++ take (n - k) (drop k l).
Proof.
  intros Hk. rewrite <- (take_drop k (take n l)), take_take, Nat.min_l by lia. by rewrite skipn_firstn_comm.
Qed.

Lemma writeAtLoop_file fuel f off p total dir s :
  0 <= iounit f -> u32 (fid f) -> 0 <= off -> off + Z.of_nat (length p) < 2 ^ 64 ->
  (total <= length p)%nat -> (length p - total <= fuel)%nat -> opened (fid f) theFile dir s ->
  let n := accepted (maxChunk msize f) (off + Z.of_nat total) (Z.of_nat (length p - total)) in
  exists s', writeAtLoop (H := serve msize) msize fuel f off p total (Some s) =
      Some (((total + Z.to_nat n)%nat, if n =? Z.of_nat (length p - total) then None else Some efbig), Some s') /\
    file (world s') = written (take (Z.to_nat n) (drop total p)) (off + Z.of_nat total) (file (world s)) /\
    opened (fid f) theFile dir s'.
Proof.
  intros Hi Hf Ho Hp. pose proof (maxChunk_ok f Hi) as Hm. set (m := maxChunk msize f) in *.
  assert (Hm0 : 0 < m) by apply Hm.
  revert total s. induction fuel as [|fuel IH]; intros total s Ht Hfu Hop n; cbn [writeAtLoop].
  all: destruct (Nat.ltb_spec total (length p)) as [Hlt|Hge];
    [|assert (n = 0) as -> by (pose proof (accepted_range m (off + Z.of_nat total) (Z.of_nat (length p - total))); lia)].
  2,4: rewrite (proj2 (Z.eqb_eq _ _)) by lia; cbn; rewrite Nat.add_0_r; by eexists.
  - lia.
  - destruct (chunkOf_spec msize Hmsize f p total Hi Hlt) as (k & Hck & Hlk & Hk0 & Hkm & Hkl).
    assert (Hmin : Z.of_nat k = Z.min m (Z.of_nat (length p - total))).
    { unfold chunkOf in Hlk. fold m in Hlk, Hkm. rewrite length_drop in Hlk.
      destruct (Z.ltb_spec m (Z.of_nat (length p - total))) in Hlk; [rewrite length_take in Hlk|]; rewrite length_drop in Hlk; lia. }
    rewrite uint_wrap_id by (unfold is_uint; lia).
    pose proof (twrite_file (fid f) dir s (off + Z.of_nat total) (chunkOf msize f p total) Hop Hf) as Hw.
    rewrite Hlk in Hw. destruct Hm as [Hm1 Hm2]. specialize (Hw ltac:(unfold is_uint; lia) ltac:(unfold chunk_ok; fold m in Hkm; lia)).
    rewrite Hck in Hw |- *. set (chunk := take k (drop total p)) in *.
    destruct (Z.le_gt_cases (off + Z.of_nat total + Z.of_nat k) maxMemFileSize) as [Hfit|Hbig].
    + assert (Hcl : length chunk = k) by by rewrite <- Hck.
      destruct (MemFile.Write_ok chunk (off + Z.of_nat total) (file (world s))) as (d & E & _); [lia|by rewrite Hcl|].
      assert (Hwr : MemFile.setData d (file (world s)) = written chunk (off + Z.of_nat total) (file (world s))).
      { unfold written. rewrite Hcl, E. by destruct (Nat.eqb_spec k 0); [lia|]. }
      rewrite E, Hcl in Hw. destruct Hw as (s1 & -> & Hw1 & Hop1). rewrite Hcl, Z.ltb_irrefl, Nat2Z.id.
      destruct (IH (total + k)%nat s1 Hkl ltac:(lia) Hop1) as (s' & -> & Hw' & Hop').
      assert (Hn : n = Z.of_nat k + accepted m (off + Z.of_nat (total + k)) (Z.of_nat (length p - (total + k)))).
      { unfold n. rewrite (accepted_step m _ (Z.of_nat k)) by lia. do 2 f_equal; lia. }
      set (n' := accepted m (off + Z.of_nat (total + k)) (Z.of_nat (length p - (total + k)))) in *.
      assert (Hn' : 0 <= n' <= Z.of_nat (length p - (total + k))) by (apply accepted_range; lia).
      exists s'. split; [|split; [|done]].
      * do 2 f_equal. f_equal; [lia|].
        destruct (Z.eqb_spec n' (Z.of_nat (length p - (total + k)))), (Z.eqb_spec n (Z.of_nat (length p - total))); (done || lia).
      * rewrite Hw', Hw1. cbn [file setFile]. rewrite Hwr.
        rewrite (take_app_drop k (Z.to_nat n)) by lia. fold chunk. rewrite drop_drop.
        replace (Z.to_nat n - k)%nat with (Z.to_nat n') by lia.
        replace (off + Z.of_nat (total + k)) with (off + Z.of_nat total + Z.of_nat (length chunk)) by lia.
        apply written_app; [lia|]. rewrite length_app, Hcl, length_take, length_drop.
        assert (off + Z.of_nat total + n <= maxMemFileSize \/ n' = 0).
        { rewrite Hn. unfold n', accepted. destruct (Z.leb_spec (off + Z.of_nat (total + k) + Z.of_nat (length p - (total + k))) maxMemFileSize); [lia|].
          destruct (Z.leb_spec (off + Z.of_nat (total + k)) maxMemFileSize); [|by right]. left.
          pose proof (Z.mul_div_le (maxMemFileSize - (off + Z.of_nat (total + k))) m Hm0). lia. }
        lia.
    + assert (n = 0) as -> by (apply (accepted_stop m _ (Z.of_nat k)); lia).
      rewrite MemFile.Write_too_big in Hw by (rewrite <- ?Hck, ?Hlk; lia). destruct Hw as (s1 & -> & Hw1 & Hop1).
      exists s1. rewrite (proj2 (Z.eqb_neq 0 _)) by lia. cbn. rewrite Nat.add_0_r, Hw1. by split.
Qed.

(** ** Reading *)

Lemma readAtZeroCopy_file fid dir s off k dst :
  opened fid theFile dir s -> MemFile.size_ok (file (world s)) -> u32 fid -> u64 off -> chunk_ok k ->
  length dst = Z.to_nat k ->
  let data := slice (Z.to_nat k) off (world s) in
  exists s', readAtZeroCopy (H := serve msize) fid off k dst (Some s) =
      (Ok (length data), data ++ drop (length data) dst, Some s') /\
    world s' = world s /\ opened fid theFile dir s'.
Proof.
  intros Hop Hsz Hf Ho Hk Hd data. destruct (roundTrip_read fid dir s off k Hop Hsz Hf Ho Hk) as (s' & E & Hs').
  exists s'. split; [|done]. unfold readAtZeroCopy. rewrite E. cbn [Rread.Data]. fold data.
  assert (length data <= length dst)%nat by (unfold data, slice; rewrite length_take; lia).
  by rewrite (proj2 (Nat.ltb_ge _ _)) by lia.
Qed.

Lemma slice_split n k off w :
  0 <= off -> (k <= n)%nat -> let d := slice k off w in
  slice n off w = d ++ slice (n - length d) (off + Z.of_nat (length d)) w.
Proof.
  intros Ho Hk d. unfold slice in *. rewrite Z2Nat.inj_add, Nat2Z.id by lia. rewrite <- drop_drop.
  set (l := drop (Z.to_nat off) _) in *. subst d. rewrite length_take.
  destruct (Nat.le_gt_cases k (length l)).
  - rewrite Nat.min_l by done. by apply take_app_drop.
  - rewrite Nat.min_r, drop_all, !take_ge, app_nil_r by (cbn; lia). done.
Qed.

Lemma slice_nil n k off w : (0 < k)%nat -> length (slice k off w) = 0%nat -> slice n off w = [].
Proof.
  unfold slice. rewrite length_take, length_drop. intros Hk Hz. rewrite drop_ge by lia. by destruct n.
Qed.

Lemma readAtLoop_file fuel f off p total dir s :
  0 <= iounit f -> u32 (fid f) -> 0 <= off -> off + Z.of_nat (length p) < 2 ^ 64 ->
  (total <= length p)%nat -> (length p - total <= fuel)%nat -> opened (fid f) theFile dir s ->
  MemFile.size_ok (file (world s)) ->
  let data := slice (length p - total) (off + Z.of_nat total) (world s) in
  let n := (total + length data)%nat in
  exists s', readAtLoop (H := serve msize) msize fuel f off p total (Some s) =
      Some ((n, if (n <? length p)%nat then Some EOF else None, take total p ++ data ++ drop n p), Some s') /\
    world s' = world s /\ opened (fid f) theFile dir s'.
Proof.
  intros Hi Hf Ho. pose proof (maxChunk_ok f Hi) as Hm.
  revert p total s. induction fuel as [|fuel IH]; intros p total s Hp Ht Hfu Hop Hsz data n; cbn [readAtLoop].
  all: destruct (Nat.ltb_spec total (length p)) as [Hlt|Hge].
  1: lia.
  1,3: assert (data = []) as -> by (unfold data, slice; by replace (length p - total)%nat with 0%nat by lia).
  1,2: subst n; cbn [length app]; rewrite Nat.add_0_r, (proj2 (Nat.ltb_ge _ _)), take_drop by lia; by exists s.
  destruct (chunkLen_bounds msize Hmsize (length p - total) f Hi ltac:(lia)) as [Hk1 Hk2].
  set (k := chunkLen _ _) in *. rewrite uint_wrap_id by (unfold is_uint; lia).
  assert (Hdst : length (take (Z.to_nat k) (drop total p)) = Z.to_nat k) by (rewrite length_take, length_drop; lia).
  destruct (readAtZeroCopy_file (fid f) dir s (off + Z.of_nat total) k (take (Z.to_nat k) (drop total p)) Hop Hsz Hf)
    as (s1 & -> & Hw1 & Hop1); [unfold is_uint; lia|unfold chunk_ok in *; lia|done|].
  pose proof (slice_split (length p - total) (Z.to_nat k) (off + Z.of_nat total) (world s) ltac:(lia) ltac:(lia)) as Hsp.
  cbv zeta in Hsp. fold data in Hsp. set (d := slice (Z.to_nat k) _ _) in *.
  assert (Hd : (length d <= Z.to_nat k)%nat) by (unfold d, slice; rewrite length_take; lia).
  assert (Hp1 : take total p ++ (d ++ drop (length d) (take (Z.to_nat k) (drop total p))) ++ drop (total + Z.to_nat k) p
    = take total p ++ d ++ drop (total + length d) p).
  { f_equal. rewrite <- app_assoc. f_equal. rewrite <- !drop_drop, <- drop_app_le by lia. by rewrite take_drop. }
  rewrite Hp1. set (p1 := take total p ++ d ++ _).
  assert (Hl1 : length p1 = length p) by (unfold p1; rewrite !length_app, length_take, length_drop; lia).
  destruct (Nat.eqb_spec (length d) 0) as [Hz|Hz].
  - assert (data = []) as Hnil by (apply (slice_nil _ (Z.to_nat k)); [lia|done]).
    subst n. rewrite Hnil. cbn [length app]. rewrite Nat.add_0_r, (proj2 (Nat.ltb_lt _ _)) by lia.
    exists s1. split; [|done]. subst p1. by rewrite Hz, Nat.add_0_r, (proj1 (length_zero_iff_nil d) Hz).
  - pose proof (IH p1 (total + length d)%nat s1) as IH1. rewrite Hl1, Hw1 in IH1.
    destruct IH1 as (s' & -> & Hs'); try (done || lia). exists s'. split; [|done].
    replace (length p - (total + length d))%nat with (length p - total - length d)%nat by lia.
    replace (off + Z.of_nat (total + length d)) with (off + Z.of_nat total + Z.of_nat (length d)) by lia.
    set (d' := slice (length p - total - length d) _ _) in *.
    assert (Hn : n = (total + length d + length d')%nat) by (unfold n; rewrite Hsp, length_app; lia).
    rewrite <- Hn, Hsp. do 3 f_equal. unfold p1. rewrite (app_assoc (take total p)).
    rewrite take_app_length' by (rewrite length_app, length_take; lia). rewrite <- !app_assoc. do 3 f_equal.
    rewrite app_assoc, drop_app_ge by (rewrite length_app, length_take; lia).
    rewrite drop_drop, length_app, length_take. f_equal. lia.
Qed.

(** ** Listing *)

(** The data of the page after cookie [off]. *)
Definition page (k off : Z) (cache : list Dirent.t) : list Dirent.t :=
  fitting (Z.to_nat k) (drop (Z.to_nat off) cache).

Lemma readdirPage_data cache k off :
  0 <= off -> readdirPage cache k off = mkRreaddir (wire_list wire_dirent (page k off cache)).
Proof.
  intros Ho. unfold readdirPage, EncodeDirentsInto.
  assert (Hb : length (take (Z.to_nat k) (getMsgBuf k)) = Z.to_nat k).
  { rewrite length_take. pose proof (getMsgBuf_length k). lia. }
  rewrite encodeLoop_spec, Hb, Nat.sub_0_r by lia. cbn [Nat.add].
  assert (drop (Z.to_nat (if off <? Z.of_nat (length cache) then off else Z.of_nat (length cache))) cache
    = drop (Z.to_nat off) cache) as ->.
  { destruct (Z.ltb_spec off (Z.of_nat (length cache))); [done|]. by rewrite !drop_ge by lia. }
  fold (page k off cache). set (bs := wire_list _ _). unfold mkRreaddir. do 2 f_equal.
  change (length bs) with (0 + length bs)%nat. rewrite take_patch; [done|]. rewrite Hb. apply length_fitting.
Qed.

(** The listing a request at cookie [off] is served from, and what is left. *)
Definition served (off : Z) (dir : bool * list Dirent.t) (w : Mem) : list Dirent.t * Mem :=
  if (off =? 0) || negb dir.1
  then (assignOffsets (listing w (listed w)), mkMem (file w) (listing w) (S (listed w)))
  else (dir.2, w).

Lemma roundTrip_readdir fid dir s off k :
  opened fid theDir dir s -> u32 fid -> u64 off -> chunk_ok k ->
  let '(cache, w') := served off dir (world s) in
  exists s', roundTrip (H := serve msize) (MTreaddir (Treaddir.mk fid off k)) (Some s) =
      (Ok (MRreaddir (Rreaddir.mk (wire_list wire_dirent (page k off cache)))), Some s') /\
    world s' = w' /\ opened fid theDir (true, cache) s'.
Proof.
  intros (l & fs & Hg & Hl & Hn & Hs & Hh & Hc & Hd) Hf Ho Hk.
  destruct (served off dir (world s)) as [cache w'] eqn:Es.
  assert (exists s', handleReaddir msize protocolL (Treaddir.mk fid off k) s =
      (mkRreaddir (wire_list wire_dirent (page k off cache)), s') /\
    world s' = w' /\ opened fid theDir (true, cache) s') as (s' & E & Hs').
  { unfold handleReaddir. cbn [Treaddir.Fid]. rewrite Hg, Hl. case_decide; [congruence|].
    apply (withIO_opened fid theDir dir s l fs); try done.
    intros s1 fs1 Hl1 Hw1. unfold onHandle. cbn [handle fs1 set_io node]. rewrite Hh, Hn.
    cbn [mbind option_bind NodeRawReaddirer NodeReaddirer memCaps Treaddir.Count Treaddir.Offset].
    rewrite clampCount_chunk by done. unfold readdirSimple, served in *.
    assert (dirCached fs1 = dir.1 /\ dirCache fs1 = dir.2) as [-> ->] by by rewrite <- Hd.
    destruct ((off =? 0) || negb dir.1) eqn:Eo; injection Es as <- <-.
    - unfold memReaddir. rewrite Hw1, readdirPage_data by apply Ho. eexists. split; [reflexivity|].
      split; [done|]. split; [done|]. exact (setFs_fsAt l fs1 _ s1 Hl1).
    - rewrite readdirPage_data by apply Ho. eexists. split; [reflexivity|]. split; [done|]. split; [done|].
      rewrite Hl1. apply orb_false_iff in Eo as [_ Eo%negb_false_iff]. subst fs1. rewrite <- Hd in *. cbn in Eo.
      rewrite <- Eo. by destruct fs. }
  exists s'. split; [|done]. apply roundTrip_serve; [|exact E|].
  - apply valid_Treaddir; [done|done|]. unfold chunk_ok, ioFrameOverhead in Hk. unfold is_uint. lia.
  - apply valid_Rreaddir. pose proof (length_fitting (Z.to_nat k) (drop (Z.to_nat off) cache)) as Hlen.
    fold (page k off cache) in Hlen. unfold chunk_ok in Hk. lia.
Qed.

(** The directory listing a cursor goes on with: the next [Readdir] at the
    start, the cached one after it. *)
Definition listsAs (fid : Fid) (cursor : Z) (cache : list Dirent.t) (s : Srv) : Prop :=
  exists dir, opened fid theDir dir s /\
    if cursor =? 0 then assignOffsets (listing (world s) (listed (world s))) = cache else dir = (true, cache).

Lemma roundTrip_listing fid cursor cache s k :
  listsAs fid cursor cache s -> u32 fid -> u64 cursor -> chunk_ok k ->
  exists s', roundTrip (H := serve msize) (MTreaddir (Treaddir.mk fid cursor k)) (Some s) =
      (Ok (MRreaddir (Rreaddir.mk (wire_list wire_dirent (page k cursor cache)))), Some s') /\
    (forall c, c <> 0 -> listsAs fid c cache s') /\
    listed (world s') = (listed (world s) + if (cursor =? 0)%Z then 1 else 0)%nat.
Proof.
  intros (dir & Hop & Hdir) Hf Ho Hk. pose proof (roundTrip_readdir fid dir s cursor k Hop Hf Ho Hk) as Hr.
  assert (served cursor dir (world s) = (cache, (served cursor dir (world s)).2)) as Hc.
  { unfold served. destruct (cursor =? 0); cbn [orb]; [by rewrite Hdir|]. by subst dir. }
  rewrite Hc in Hr. destruct Hr as (s' & E & Hw & Hop'). exists s'. split; [done|]. split.
  - intros c Hc0. exists (true, cache). split; [done|]. by rewrite (proj2 (Z.eqb_neq _ _)).
  - rewrite Hw. unfold served. destruct (cursor =? 0); cbn [orb]; [cbn; lia|]. subst dir. cbn. lia.
Qed.

Lemma ParseDirents_wire ds : Forall Dirent.wf ds -> ParseDirents (wire_list wire_dirent ds) = (ds, None).
Proof. intros Hwf. unfold ParseDirents. by rewrite (parseLoop_ok _ _ _ [] ds) by (rewrite ?drop_0; done || lia). Qed.

Lemma wire_list_nil ds : length (wire_list wire_dirent ds) = 0%nat -> ds = [].
Proof.
  destruct ds as [|d ds]; [done|]. unfold wire_list. cbn. rewrite length_app, length_wire_dirent.
  pose proof (entrySize_pos d). lia.
Qed.

Lemma readDirLoop_listing fuel n entries f (c : nat) cache s :
  0 <= iounit f -> u32 (fid f) -> Forall Dirent.wf cache -> cookies 0 cache -> Z.of_nat (length cache) < 2 ^ 64 ->
  readdirOffset f = Z.of_nat c -> (c <= length cache)%nat -> listsAs (fid f) (Z.of_nat c) cache s ->
  (0 < n -> Z.of_nat (length entries) < n) -> (length cache - c < fuel)%nat ->
  let left := visible (Z.to_nat (maxChunk msize f)) (drop c cache) in
  let m := Nat.min (wanted n (length entries) (length left)) (length left) in
  exists s', readDirLoop (H := serve msize) msize fuel n entries f (Some s) =
      Some ((entries ++ take m left, None), setReaddirOffset (Z.of_nat (c + m)) f, Some s') /\
    ((0 < c + m)%nat -> listsAs (fid f) (Z.of_nat (c + m)) cache s').
Proof.
  intros Hi Hf Hwf Hck Hlen. revert f c entries s Hi Hf.
  induction fuel as [|fuel IH]; intros f c entries s Hi Hf Hc Hcl Hs Hn Hfu left m; cbn [readDirLoop]; [lia|].
  assert ((0 <? n) && (n <=? Z.of_nat (length entries)) = false) as ->.
  { destruct (Z.ltb_spec 0 n); [|done]. apply Z.leb_gt. auto. }
  pose proof (maxChunk_ok f Hi) as Hm. rewrite Hc.
  destruct (roundTrip_listing (fid f) (Z.of_nat c) cache s (maxChunk msize f) Hs Hf) as (s1 & E & Hs1 & _);
    [unfold is_uint; lia|done|].
  rewrite E. cbn [toError Rreaddir.Data]. clear E.
  destruct (fitting_prefix (Z.to_nat (maxChunk msize f)) (Z.to_nat (maxChunk msize f)) (drop c cache))
    as (j & Hj & Hjl & Hv & Hv0); [done|by apply Forall_drop|]. fold left in Hv, Hv0. rewrite length_drop in Hjl.
  assert (page (maxChunk msize f) (Z.of_nat c) cache = take j (drop c cache)) as -> by (unfold page; by rewrite Nat2Z.id).
  set (parsed := take j (drop c cache)) in *.
  assert (Hpw : Forall Dirent.wf parsed) by by apply Forall_take, Forall_drop.
  assert (Hpl : length parsed = j) by (unfold parsed; rewrite length_take, length_drop; lia).
  destruct (Nat.eqb_spec (length (wire_list wire_dirent parsed)) 0) as [Hz|Hz].
  { apply wire_list_nil in Hz. rewrite Hz in Hpl. cbn in Hpl. assert (left = []) as Hl by by apply Hv0.
    exists s1. subst m. rewrite Hl. cbn [length]. rewrite Nat.min_0_r, take_nil, app_nil_r, Nat.add_0_r.
    split; [|intros; apply Hs1; lia]. rewrite <- Hc. by destruct f. }
  rewrite ParseDirents_wire by done.
  destruct parsed as [|d ds] eqn:Ep; [by destruct Hz|]. rewrite <- Ep in *. clear Hz.
  assert (Hj0 : (1 <= j)%nat) by (rewrite <- Hpl, Ep; cbn; lia). clear d ds Ep.
  rewrite takePage_spec; [|rewrite Hc; apply cookies_take|done].
  2:{ pose proof (cookies_drop 0 c cache Hck) as Hcd. by rewrite Z.add_0_l in Hcd. }
  rewrite Hpl. rewrite drop_drop in Hv. set (left' := visible _ (drop (c + j) cache)) in Hv.
  assert (Hll : length left = (j + length left')%nat) by by rewrite Hv, length_app, Hpl.
  destruct ((0 <? n) && (n <=? Z.of_nat (length entries + j))) eqn:Efull.
  - apply andb_true_iff in Efull as [E0 E1%Z.leb_le].
    assert (Nat.min (wanted n (length entries) j) j = m) as ->.
    { unfold m, wanted. rewrite E0. apply Z.ltb_lt in E0. specialize (Hn E0). lia. }
    assert (m <= j)%nat by (unfold m, wanted; rewrite E0; apply Z.ltb_lt in E0; lia).
    exists s1. split; [|intros; apply Hs1; lia]. rewrite Hv, take_app_le by lia. rewrite Hc. do 3 f_equal. f_equal. lia.
  - apply andb_false_iff in Efull.
    assert (Nat.min (wanted n (length entries) j) j = j) as ->.
    { unfold wanted. destruct (Z.ltb_spec 0 n); [|lia]. destruct Efull as [?|?%Z.leb_gt]; [done|lia]. }
    rewrite (take_ge parsed) by lia. rewrite (proj2 (Z.leb_gt _ _)) by (cbn; lia).
    replace (readdirOffset f + Z.of_nat j) with (Z.of_nat (c + j)) by lia.
    destruct (IH (setReaddirOffset (Z.of_nat (c + j)) f) (c + j)%nat (entries ++ parsed) s1) as (s' & E & Hs'); try done.
    + cbn. lia.
    + apply Hs1. lia.
    + intros H0. rewrite length_app. destruct Efull as [?%Z.ltb_ge|?%Z.leb_gt]; lia.
    + lia.
    + rewrite E. clear E. change (maxChunk msize (setReaddirOffset (Z.of_nat (c + j)) f)) with (maxChunk msize f) in *.
      fold left' in Hs' |- *. rewrite length_app, Hpl in *. set (m' := Nat.min (wanted n (length entries + j) _) _) in *.
      assert (m = (j + m')%nat) as Em.
      { unfold m, m', wanted. rewrite Hll. destruct (Z.ltb_spec 0 n); [|lia]. destruct Efull as [?|?%Z.leb_gt]; [done|lia]. }
      exists s'. rewrite Em, Hv, (take_app_ge _ _ (j + m')), Hpl, <- app_assoc by lia.
      replace (j + m' - j)%nat with m' by lia. rewrite <- Nat.add_assoc in Hs' |- *. split; [done|exact Hs'].
Qed.
End MemServer.

(** ** Properties *)

(** The client side of an open file: arguments in the range of their Go types. *)
Definition io_args (f : File) (p : bytes) (off : Z) : Prop :=
  closed f = false /\ 0 <= iounit f /\ u32 (fid f) /\ 0 <= off < 2 ^ 63 /\ Z.of_nat (length p) < 2 ^ 63.

Lemma WriteAt_file `{BufPool} msize f p off dir s :
  256 <= msize < 2 ^ 32 -> io_args f p off -> opened (fid f) theFile dir s ->
  let n := accepted (maxChunk msize f) off (Z.of_nat (length p)) in
  exists s', WriteAt (H := serve (H := memCaps) msize) msize (length p) p off f (Some s) =
      Some ((Z.to_nat n, if n =? Z.of_nat (length p) then None else Some efbig), Some s') /\
    file (world s') = written (take (Z.to_nat n) p) off (file (world s)) /\ opened (fid f) theFile dir s'.
Proof.
  intros Hm (Hcl & Hi & Hf & Ho & Hp) Hop n. pose proof (maxChunk_ok msize Hm f Hi) as [Hk _].
  unfold WriteAt. rewrite Hcl, (proj2 (Z.ltb_ge off 0)) by lia. destruct (Nat.eqb_spec (length p) 0) as [Hz|Hz].
  - pose proof (accepted_range (maxChunk msize f) off (Z.of_nat (length p))) as Hr. fold n in Hr.
    assert (n = 0) as -> by lia. exists s. by rewrite Hz.
  - pose proof (writeAtLoop_file msize Hm (length p) f off p 0 dir s Hi Hf) as Hw.
    rewrite Nat.sub_0_r, Z.add_0_r, drop_0 in Hw. apply Hw; (done || lia).
Qed.

Lemma ReadAt_file `{BufPool} msize f p off dir s :
  256 <= msize < 2 ^ 32 -> io_args f p off -> opened (fid f) theFile dir s ->
  MemFile.size_ok (file (world s)) ->
  let data := slice (length p) off (world s) in
  exists s', ReadAt (H := serve (H := memCaps) msize) msize (length p) p off f (Some s) =
      Some ((length data, if (length data <? length p)%nat then Some EOF else None, data ++ drop (length data) p), Some s') /\
    world s' = world s /\ opened (fid f) theFile dir s'.
Proof.
  intros Hm (Hcl & Hi & Hf & Ho & Hp) Hop Hsz data. unfold ReadAt. rewrite Hcl, (proj2 (Z.ltb_ge off 0)) by lia.
  destruct (Nat.eqb_spec (length p) 0) as [Hz|Hz].
  - assert (data = []) as -> by (unfold data, slice; by rewrite Hz). exists s. rewrite Hz. cbn. by rewrite drop_0.
  - pose proof (readAtLoop_file msize Hm (length p) f off p 0 dir s Hi Hf) as Hr.
    rewrite Nat.sub_0_r, Z.add_0_r, take_0 in Hr. apply Hr; (done || lia).
Qed.

(** C12: client file I/O refines the file behind the server.  Whatever the
    negotiated msize and the iounit, a [WriteAt] of any length over the wire
    is one write of the bytes the file's size bound admits, in whole chunks,
    and reports their number, with EFBIG if some were refused; a [ReadAt] is
    one slice of the file, with EOF exactly when it is short, and leaves the
    rest of the caller's buffer alone. *)
Theorem client_io_refines_file `{BufPool} msize f p off dir s :
  256 <= msize < 2 ^ 32 -> io_args f p off -> opened (fid f) theFile dir s ->
  MemFile.size_ok (file (world s)) ->
  (let n := accepted (maxChunk msize f) off (Z.of_nat (length p)) in
   exists s', WriteAt (H := serve (H := memCaps) msize) msize (length p) p off f (Some s) =
       Some ((Z.to_nat n, if n =? Z.of_nat (length p) then None else Some efbig), Some s') /\
     file (world s') = written (take (Z.to_nat n) p) off (file (world s))) /\
  (let data := take (length p) (drop (Z.to_nat off) (MemFile.data (file (world s)))) in
   exists s', ReadAt (H := serve (H := memCaps) msize) msize (length p) p off f (Some s) =
       Some ((length data, if (length data <? length p)%nat then Some EOF else None, data ++ drop (length data) p), Some s') /\
     world s' = world s).
Proof.
  intros Hm Ha Hop Hsz. split.
  - destruct (WriteAt_file msize f p off dir s Hm Ha Hop) as (s' & ? & ? & _). by exists s'.
  - destruct (ReadAt_file msize f p off dir s Hm Ha Hop Hsz) as (s' & ? & ? & _). by exists s'.
Qed.

(** Read after write.  A write that stays within the size bound succeeds
    in full, and any client file on the fid, whatever its iounit, then reads
    back exactly the bytes written, into a buffer with any contents. *)
Theorem client_read_after_write `{BufPool} msize f g p q off dir s :
  256 <= msize < 2 ^ 32 -> io_args f p off -> io_args g q off -> fid g = fid f -> length q = length p ->
  opened (fid f) theFile dir s -> MemFile.size_ok (file (world s)) ->
  off + Z.of_nat (length p) <= maxMemFileSize ->
  exists s1 s2, WriteAt (H := serve (H := memCaps) msize) msize (length p) p off f (Some s) =
      Some ((length p, None), Some s1) /\
    ReadAt (H := serve (H := memCaps) msize) msize (length q) q off g (Some s1) = Some ((length p, None, p), Some s2).
Proof.
  intros Hm Hf Hg Hfid Hq Hop Hsz Hb. destruct (WriteAt_file msize f p off dir s Hm Hf Hop) as (s1 & Ew & Hw & Hop1).
  unfold accepted in *. rewrite (proj2 (Z.leb_le _ _)) in Ew, Hw by done. rewrite Z.eqb_refl, Nat2Z.id in *.
  rewrite take_ge in Hw by lia. destruct Hf as (_ & _ & _ & Ho & _).
  destruct (MemFile.Write_ok p off (file (world s))) as (d & E & Hl & Hi); [lia|done|].
  assert (Hsl : slice (length q) off (world s1) = p).
  { rewrite Hq. unfold slice. rewrite Hw. unfold written. destruct (Nat.eqb_spec (length p) 0) as [Hz|Hz].
    - apply length_zero_iff_nil in Hz as ->. done.
    - rewrite E. cbn. apply (nth_ext _ _ (byte_of_Z 0) (byte_of_Z 0)); [rewrite length_take, length_drop; lia|].
      intros i. rewrite length_take, length_drop. intros Hlt.
      change (MemFile.byteAt (take (length p) (drop (Z.to_nat off) d)) i = MemFile.byteAt p i).
      rewrite MemFile.byteAt_take, MemFile.byteAt_drop, Hi by lia.
      rewrite (proj2 (Nat.leb_le _ _)), (proj2 (Nat.ltb_lt _ _)) by lia. cbn. f_equal. lia. }
  rewrite <- Hfid in Hop1. destruct (ReadAt_file msize g q off dir s1 Hm Hg Hop1) as (s2 & Er & _).
  { rewrite Hw. unfold written. destruct (_ =? _)%nat; [done|].
    apply (MemFile.apply_size (MemFile.OWrite p off)); [|done]. cbn. unfold is_uint. lia. }
  exists s1, s2. split; [done|]. rewrite Er, Hsl, Hq, Nat.ltb_irrefl, drop_ge, app_nil_r by lia. done.
Qed.

(** [ReadDir ns_1; ReadDir ns_2; ...] *)
Fixpoint readDirs {S} `{Transport S} (msize : Z) (fuel : nat) (ns : list Z) (f : File) (s : S)
    : option (list (list Dirent.t * option GoError)) :=
  match ns with
  | [] => Some []
  | n :: ns =>
      '(r, f, s) ← ReadDir msize protocolL fuel n f s;
      rs ← readDirs msize fuel ns f s; Some (r :: rs)
  end.

(** The same calls on a list of entries. *)
Fixpoint pages (ns : list Z) (left : list Dirent.t) : list (list Dirent.t) :=
  match ns with
  | [] => []
  | n :: ns =>
      let m := if 0 <? n then Z.to_nat n else length left in
      take m left :: pages ns (drop m left)
  end.


Lemma drop_visible k n l : (n <= length (visible k l))%nat -> visible k (drop n l) = drop n (visible k l).
Proof.
  revert l. induction n as [|n IH]; intros l Hn; [by rewrite !drop_0|]. destruct l as [|d l]; [done|].
  cbn in *. case_decide; [|cbn in Hn; lia]. cbn in *. apply IH. lia.
Qed.

Lemma readDirs_pages `{BufPool} msize fuel ns f (c : nat) cache s :
  256 <= msize < 2 ^ 32 -> closed f = false -> 0 <= iounit f -> u32 (fid f) ->
  Forall Dirent.wf cache -> cookies 0 cache -> Z.of_nat (length cache) < 2 ^ 64 -> (length cache < fuel)%nat ->
  readdirOffset f = Z.of_nat c -> (c <= length cache)%nat -> listsAs (fid f) (Z.of_nat c) cache s ->
  let left := visible (Z.to_nat (maxChunk msize f)) (drop c cache) in
  ((0 < c)%nat \/ left <> []) ->
  readDirs (H := serve (H := memCaps) msize) msize fuel ns f (Some s) = Some ((fun ds => (ds, None)) <$> pages ns left).
Proof.
  intros Hm Hcl Hi Hf Hwf Hck Hlen Hfu. revert f c s Hcl Hi Hf. induction ns as [|n ns IH]; intros f c s Hcl Hi Hf Hc Hle Hs left Hne; [done|].
  cbn [readDirs pages]. unfold ReadDir. rewrite Hcl. rewrite decide_False by (intros Hx; by apply Hx).
  destruct (readDirLoop_listing msize Hm fuel n [] f c cache s Hi Hf Hwf Hck Hlen Hc Hle Hs) as (s' & E & Hs'); [by intros|lia|].
  fold left in E, Hs'. rewrite E. cbn [mbind option_bind app length]. clear E.
  set (m := Nat.min _ _) in *. set (m' := if 0 <? n then Z.to_nat n else length left).
  assert (m = Nat.min m' (length left)) as Em by (unfold m, m', wanted; cbn [length]; by rewrite Nat.sub_0_r).
  assert (Hml : (m <= length left)%nat) by lia.
  assert (Hvl : (length left <= length (drop c cache))%nat).
  { unfold left. clear. induction (drop c cache) as [|d l IH]; cbn; [lia|]. case_decide; cbn; lia. }
  rewrite length_drop in Hvl.
  assert (Hpos : (0 < c + m)%nat).
  { destruct Hne as [?|Hne]; [lia|]. destruct left; [done|]. rewrite Em. unfold m'. cbn [length].
    destruct (Z.ltb_spec 0 n); lia. }
  rewrite (IH _ (c + m)%nat); [|done..|lia|by apply Hs'|by left].
  change (maxChunk msize (setReaddirOffset (Z.of_nat (c + m)) f)) with (maxChunk msize f).
  cbn [mbind option_bind]. rewrite <- drop_drop, drop_visible by done. fold left.
  cbn. rewrite Em, take_min_length, drop_min_length. done.
Qed.

(** A directory listing over the wire.  On a directory that may list
    anything in any order at each call, reading it in pages of any sizes gives
    one consistent snapshot, the first listing taken: its entries in order,
    each once, whatever the msize and iounit and wherever a page ends inside a
    response - up to the first entry that does not fit a response on its own,
    where the listing ends without an error. *)
Theorem client_readdir_snapshot `{BufPool} msize f ns dir s :
  256 <= msize < 2 ^ 32 -> closed f = false -> 0 <= iounit f -> u32 (fid f) -> readdirOffset f = 0 ->
  opened (fid f) theDir dir s ->
  let ds := listing (world s) (listed (world s)) in
  Forall Dirent.wf ds -> Z.of_nat (length ds) < 2 ^ 64 ->
  let snapshot := visible (Z.to_nat (maxChunk msize f)) (assignOffsets ds) in
  snapshot <> [] ->
  readDirs (H := serve (H := memCaps) msize) msize (S (length ds)) ns f (Some s) =
    Some ((fun page => (page, None)) <$> pages ns snapshot).
Proof.
  intros Hm Hcl Hi Hf Hc Hop ds Hwf Hlen snapshot Hne.
  apply (readDirs_pages msize _ ns f 0 (assignOffsets ds)); try done; rewrite ?length_assignOffsets; try (done || lia).
  - by apply assignOffsets_wf.
  - by apply assignOffsets_cookies.
  - by exists dir.
  - by right.
Qed.

(** A listing cut short is reported as complete.  When some entry of the
    directory is larger than what a response carries, reading the whole
    directory succeeds with fewer entries than there are. *)
Theorem client_readdir_truncates `{BufPool} msize f dir s :
  256 <= msize < 2 ^ 32 -> closed f = false -> 0 <= iounit f -> u32 (fid f) -> readdirOffset f = 0 ->
  opened (fid f) theDir dir s ->
  let ds := listing (world s) (listed (world s)) in
  Forall Dirent.wf ds -> Z.of_nat (length ds) < 2 ^ 64 ->
  Exists (fun d => maxChunk msize f < Z.of_nat (entrySize d)) ds ->
  exists es f' s', ReadDir (H := serve (H := memCaps) msize) msize protocolL (S (length ds)) (-1) f (Some s) =
      Some ((es, None), f', Some s') /\ (length es < length ds)%nat.
Proof.
  intros Hm Hcl Hi Hf Hc Hop ds Hwf Hlen Hex. unfold ReadDir. rewrite Hcl, decide_False by (intros Hx; by apply Hx).
  destruct (readDirLoop_listing msize Hm (S (length ds)) (-1) [] f 0 (assignOffsets ds) s Hi Hf)
    as (s' & E & _); try done; rewrite ?length_assignOffsets; try lia.
  - by apply assignOffsets_wf.
  - by apply assignOffsets_cookies.
  - by exists dir.
  - do 3 eexists. split; [exact E|]. rewrite drop_0 in *. cbn [app]. rewrite length_take.
    enough (length (visible (Z.to_nat (maxChunk msize f)) (assignOffsets ds)) < length ds)%nat by lia.
    rewrite <- (length_assignOffsets ds). apply visible_short.
    apply Exists_exists in Hex as (d & (i & Hd)%list_elem_of_lookup & Hbig). apply Exists_exists. eexists. split.
    + apply list_elem_of_lookup. exists i. unfold assignOffsets. by rewrite list_lookup_imap, Hd.
    + change (entrySize (Dirent.mk _ _ _ _)) with (entrySize d). pose proof (entrySize_pos d). lia.
Qed.

(** *** At concrete servers

    msize 256; fid 1 is open on an empty file, or on a directory that lists
    [long], an entry too large for a response, last. *)

Definition entry (name : string) : Dirent.t := Dirent.mk (QID.mk 0 0 0) 0 4 name.
Definition long : Dirent.t := entry (string_of_bytes (ones 255)).
Definition listing1 : list Dirent.t := [entry "a"; entry "bc"; entry "d"; long].
Definition server1 (n : Node) : @Server Mem Node unit unit :=
  mkServer (mkFidTable (<[0%nat := set_open None (newFidState n "/x" fidAllocated)]> ∅) (<[1 := 0%nat]> ∅))
    (mkMem (MemFile.NewFile []) (fun _ => listing1) 0) [].

Lemma server1_opened n : opened 1 n (false, []) (server1 n).
Proof. exists 0%nat. eexists. by repeat split. Qed.

Lemma client_io_refines_file_witness :
  exists s', WriteAt (H := serve (H := memCaps) (H0 := zeroPool) 256) 256 600 (ones 600) 7 (newFile 1 QID.zero 0) (Some (server1 theFile)) =
      Some ((600%nat, None), Some s') /\ file (world s') = written (ones 600) 7 (MemFile.NewFile []).
Proof.
  destruct (client_io_refines_file (H := zeroPool) 256 (newFile 1 QID.zero 0) (ones 600) 7 (false, []) (server1 theFile))
    as [(s' & E & Hw) _]; [lia|repeat split; cbn; lia|apply server1_opened|by vm_compute|].
  exists s'. split; [exact E|exact Hw].
Defined.

Lemma client_read_after_write_witness :
  exists s1 s2, WriteAt (H := serve (H := memCaps) (H0 := zeroPool) 256) 256 600 (ones 600) 7 (newFile 1 QID.zero 0) (Some (server1 theFile)) =
      Some ((600%nat, None), Some s1) /\
    ReadAt (H := serve (H := memCaps) (H0 := zeroPool) 256) 256 600 (repeat (byte_of_Z 9) 600) 7 (newFile 1 QID.zero 50) (Some s1) =
      Some ((600%nat, None, ones 600), Some s2).
Proof.
  apply (client_read_after_write (H := zeroPool) 256 (newFile 1 QID.zero 0) (newFile 1 QID.zero 50) (ones 600) (repeat (byte_of_Z 9) 600) 7 (false, []));
    [lia|repeat split; cbn; lia|repeat split; cbn; lia|reflexivity|reflexivity|apply server1_opened|by vm_compute|by vm_compute].
Defined.

Lemma listing1_wf : Forall Dirent.wf listing1.
Proof. repeat constructor; by vm_compute. Qed.

Lemma client_readdir_snapshot_witness :
  let page names := (fun d => Dirent.mk (QID.mk 0 0 0) d.1 4 d.2) <$> names in
  readDirs (H := serve (H := memCaps) (H0 := zeroPool) 256) 256 5 [2; 1; -1] (newFile 1 QID.zero 60) (Some (server1 theDir)) =
    Some [(page [(1, "a"); (2, "bc")], None); (page [(3, "d")], None); ([], None)].
Proof.
  cbv zeta. etransitivity.
  - apply (client_readdir_snapshot (H := zeroPool) 256 (newFile 1 QID.zero 60) [2; 1; -1] (false, []) (server1 theDir));
      [lia|reflexivity|cbn; lia|by vm_compute|reflexivity|apply server1_opened|exact listing1_wf|by vm_compute|by vm_compute].
  - by vm_compute.
Defined.

Lemma client_readdir_truncates_witness :
  exists es f' s', ReadDir (H := serve (H := memCaps) (H0 := zeroPool) 256) 256 protocolL 5 (-1) (newFile 1 QID.zero 0) (Some (server1 theDir)) =
      Some ((es, None), f', Some s') /\ (length es < 4)%nat.
Proof.
  apply (client_readdir_truncates (H := zeroPool) 256 (newFile 1 QID.zero 0) (false, []) (server1 theDir));
    [lia|reflexivity|cbn; lia|by vm_compute|reflexivity|apply server1_opened|exact listing1_wf|by vm_compute|].
  do 3 apply Exists_cons_tl. apply Exists_cons_hd. by vm_compute.
Defined.
