(* ===== verification/RefCount.v ===== *)
(** * Reference counts of nodes

    Every request of [Namespace], on any number of connections that share one
    tree, keeps the counts: a node's [refs] is the number of fids bound to it.
    The invariant is relative, [refs = fids of this connection + b], so that
    the other connections are a frame [b]; [Sharing] sums them up, for requests
    handled one at a time.

    The file system is any [NodeOps] and [Capabilities] whose methods leave
    the reference counts alone: the field is private to the server's package. *)

From S2P Require Import Prelude GoIO Types Errno Proto Messages P9l P9u Message Dirents.
From S2P Require Import Bufpool FidTable Bridge Inode Namespace.

(** ** Counting the fids bound to a node *)

Section Count.
Context {Handle XattrWriter : Type}.
Abbreviation FS := (fidState NodeId Handle XattrWriter).

Definition one (n m : NodeId) : Z := if decide (n = m) then 1 else 0.

Definition cnt (n : NodeId) (m : gmap Fid FS) : Z := Z.of_nat (size (filter (fun kv => node kv.2 = n) m)).

Lemma cnt_empty n : cnt n ∅ = 0.
Proof. unfold cnt. by rewrite map_filter_empty, map_size_empty. Qed.

Lemma cnt_nonneg n m : 0 <= cnt n m.
Proof. unfold cnt. lia. Qed.

Lemma cnt_insert n fid fs m : m !! fid = None -> cnt n (<[fid := fs]> m) = cnt n m + one (node fs) n.
Proof.
  intros Hm. unfold cnt, one. rewrite map_filter_insert. cbn. case_decide as E.
  - rewrite map_size_insert_None; [lia|]. by rewrite map_lookup_filter, Hm.
  - rewrite delete_id by done. lia.
Qed.

Lemma cnt_delete n fid fs m : m !! fid = Some fs -> cnt n (delete fid m) = cnt n m - one (node fs) n.
Proof.
  intros Hm. rewrite <- (insert_delete_id m fid fs Hm) at 2. rewrite cnt_insert by apply lookup_delete_eq. lia.
Qed.

Lemma cnt_update n fid fs fs' m :
  m !! fid = Some fs -> cnt n (<[fid := fs']> m) = cnt n m - one (node fs) n + one (node fs') n.
Proof.
  intros Hm. rewrite <- insert_delete_eq, cnt_insert by apply lookup_delete_eq. by rewrite (cnt_delete _ _ fs).
Qed.

Lemma cnt_pos n fid fs m : m !! fid = Some fs -> node fs = n -> 0 < cnt n m.
Proof.
  intros Hm Hn. pose proof (cnt_delete n fid fs m Hm) as H. pose proof (cnt_nonneg n (delete fid m)).
  unfold one in H. rewrite decide_True in H by done. lia.
Qed.

Lemma cnt_le_size n m : cnt n m <= Z.of_nat (size m).
Proof. unfold cnt. rewrite <- !size_dom. apply inj_le, subseteq_size, subseteq_dom, map_filter_subseteq. Qed.

(** Tables that bind the same fids to the same nodes. *)
Lemma cnt_nodes n m m' : (forall fid, node <$> m !! fid = node <$> m' !! fid) -> cnt n m = cnt n m'.
Proof.
  revert m'. induction m as [|fid fs m Hm IH] using map_ind; intros m' Heq.
  - assert (m' = ∅) as ->; [|done]. apply map_empty. intros fid. specialize (Heq fid). rewrite lookup_empty in Heq.
    by destruct (m' !! fid).
  - pose proof (Heq fid) as Hf. rewrite lookup_insert_eq in Hf. destruct (m' !! fid) as [fs'|] eqn:E; [|done].
    injection Hf as Hf. rewrite cnt_insert, Hf by done.
    rewrite (IH (delete fid m')); [rewrite (cnt_delete _ _ fs') by done; lia|].
    intros i. specialize (Heq i). destruct (decide (fid = i)) as [<-|Hne].
    + by rewrite lookup_delete_eq, Hm.
    + by rewrite lookup_delete_ne, <- Heq, lookup_insert_ne by done.
Qed.


(** Counting in a list of states. *)
Definition boundTo (n : NodeId) (fss : list FS) : Z := Z.of_nat (length (filter (fun fs => node fs = n) fss)).

Lemma boundTo_cons n fs fss : boundTo n (fs :: fss) = one (node fs) n + boundTo n fss.
Proof. unfold boundTo, one. rewrite filter_cons. case_decide; cbn; lia. Qed.

Lemma boundTo_nonneg n fss : 0 <= boundTo n fss.
Proof. unfold boundTo. lia. Qed.

Lemma boundTo_le n fss : boundTo n fss <= Z.of_nat (length fss).
Proof. apply inj_le, length_filter. Qed.

Lemma boundTo_perm n fss fss' : fss ≡ₚ fss' -> boundTo n fss = boundTo n fss'.
Proof. intros Hp. unfold boundTo. by rewrite Hp. Qed.

Lemma cnt_boundTo n m : cnt n m = boundTo n (map_to_list m).*2.
Proof.
  induction m as [|fid fs m Hm IH] using map_ind.
  - by rewrite cnt_empty, map_to_list_empty.
  - rewrite cnt_insert, IH by done. rewrite (boundTo_perm n (map_to_list (<[fid:=fs]> m)).*2 (fs :: (map_to_list m).*2)).
    + rewrite boundTo_cons. lia.
    + by rewrite map_to_list_insert.
Qed.
End Count.

(** The fids a request binds, rebinds or unbinds. *)
Definition ownFids (msg : Message) : list Fid :=
  match msg with
  | MTattach m => [Tattach.Fid m]
  | MTwalk m => [Twalk.NewFid m]
  | MTclunk m => [Tclunk.Fid m]
  | MTremove m => [Tremove.Fid m]
  | MTlcreate m => [Tlcreate.Fid m]
  | MTcreate m => [Tcreate.Fid m]
  | MTxattrwalk m => [Txattrwalk.NewFid m]
  | _ => []
  end.

(** ** What is asked of the file system *)

Section RefCount.
Context {U Handle XattrWriter : Type} `{NodeOps U Handle XattrWriter}.
Context `{Capabilities (NS U) NodeId Handle XattrWriter} `{BufPool}.
Context (range : gmap string NodeId -> list (string * NodeId)).
Abbreviation Srv := (@Server (NS U) NodeId Handle XattrWriter).
Abbreviation FS := (fidState NodeId Handle XattrWriter).
Abbreviation FT := (fidTable NodeId Handle XattrWriter).
Abbreviation W := (NS U).

Definition sameRefs (w w' : W) : Prop := forall n, refsOf n (tree w') = refsOf n (tree w).

#[export] Instance sameRefs_equiv : Equivalence sameRefs.
Proof. split; [done|intros ?? Hs n; by rewrite Hs|intros ??? E1 E2 n; by rewrite E2, E1]. Qed.

Definition keepsRefs {A} (f : M W A) : Prop := forall w, sameRefs w (snd (f w)).

(** Each method that a node, handle or writer has leaves the counts alone. *)
Record NodeOps_ok : Prop := {
  lookuper_ok n f name : NodeLookuper n = Some f -> keepsRefs (f name);
  opener_ok n f flags : NodeOpener n = Some f -> keepsRefs (f flags);
  creater_ok n f name flags mode gid : NodeCreater n = Some f -> keepsRefs (f name flags mode gid);
  mkdirer_ok n f name mode gid : NodeMkdirer n = Some f -> keepsRefs (f name mode gid);
  symlinker_ok n f name target gid : NodeSymlinker n = Some f -> keepsRefs (f name target gid);
  mknoder_ok n f name mode major minor gid : NodeMknoder n = Some f -> keepsRefs (f name mode major minor gid);
  linker_ok n f target name : NodeLinker n = Some f -> keepsRefs (f target name);
  unlinker_ok n f name flags : NodeUnlinker n = Some f -> keepsRefs (f name flags);
  renamer_ok n f name target newName : NodeRenamer n = Some f -> keepsRefs (f name target newName);
  getattrer_ok n f mask : NodeGetattrer n = Some f -> keepsRefs (f mask);
  setattrer_ok n f attr : NodeSetattrer n = Some f -> keepsRefs (f attr);
  readlinker_ok n f : NodeReadlinker n = Some f -> keepsRefs f;
  statfser_ok n f : NodeStatFSer n = Some f -> keepsRefs f;
  fileSyncer_ok h f : FileSyncer h = Some f -> keepsRefs f;
  nodeFsyncer_ok n f : NodeFsyncer n = Some f -> keepsRefs f;
  fileLocker_ok h f : FileLocker h = Some f ->
    (forall lt fl s l p c, keepsRefs (Lock f lt fl s l p c)) /\ (forall lt s l p c, keepsRefs (GetLock f lt s l p c));
  nodeLocker_ok n f : NodeLocker n = Some f ->
    (forall lt fl s l p c, keepsRefs (Lock f lt fl s l p c)) /\ (forall lt s l p c, keepsRefs (GetLock f lt s l p c));
  rawXattrer_ok n f : RawXattrer n = Some f ->
    (forall name, keepsRefs (HandleXattrwalk f name)) /\ (forall name size flags, keepsRefs (HandleXattrcreate f name size flags));
  xattrGetter_ok n f name : NodeXattrGetter n = Some f -> keepsRefs (f name);
  xattrSetter_ok n f name data flags : NodeXattrSetter n = Some f -> keepsRefs (f name data flags);
  xattrLister_ok n f : NodeXattrLister n = Some f -> keepsRefs f;
  xattrRemover_ok n f name : NodeXattrRemover n = Some f -> keepsRefs (f name);
  commit_ok w : keepsRefs (XattrWriter_Commit w);
  attacher_ok f uname aname uid : attacher = Some f -> keepsRefs (f uname aname uid)
}.

Record Capabilities_ok : Prop := {
  fileReader_ok h f buf off w : FileReader h = Some f -> sameRefs w (f buf off w).2;
  fileWriter_ok h f data off w : FileWriter h = Some f -> sameRefs w (f data off w).2;
  fileRawReaddirer_ok h f buf off w : FileRawReaddirer h = Some f -> sameRefs w (f buf off w).2;
  fileReaddirer_ok h f w : FileReaddirer h = Some f -> sameRefs w (f w).2;
  nodeReader_ok (n : NodeId) f buf off w : NodeReader n = Some f -> sameRefs w (f buf off w).2;
  nodeWriter_ok (n : NodeId) f data off w : NodeWriter n = Some f -> sameRefs w (f data off w).2;
  nodeRawReaddirer_ok (n : NodeId) f buf off w : NodeRawReaddirer n = Some f -> sameRefs w (f buf off w).2;
  nodeReaddirer_ok (n : NodeId) f w : NodeReaddirer n = Some f -> sameRefs w (f w).2;
  xattrWriterWrite_ok x data w : sameRefs w (XattrWriter_Write x data w).2
}.

Context (Hops : NodeOps_ok) (Hcaps : Capabilities_ok).

(** ** The balance

    For every node that embeds an inode, [refs] is the number of this
    connection's fids bound to it plus [b], as an [int32]. *)
Definition balanced (b : NodeId -> Z) (t : Tree) (m : gmap Fid FS) : Prop :=
  forall n, embeds n = true ->
    - 2 ^ 31 <= refsOf n t < 2 ^ 31 /\ exists k, refsOf n t = cnt n m + b n + k * 2 ^ 32.

Definition Bal (b : NodeId -> Z) (s : Srv) : Prop :=
  FidTable.wf (fids s) /\ balanced b (tree (world s)) (abs (fids s)).

Definition shift (b : NodeId -> Z) (n : NodeId) (d : Z) : NodeId -> Z := fun m => b m + d * one n m.

Lemma int32_wraps z : exists k, int32 z = z + k * 2 ^ 32.
Proof.
  unfold int32, uint_wrap. exists (- ((z + 2 ^ 31) / 2 ^ 32)).
  pose proof (Z.div_mod (z + 2 ^ 31) (2 ^ 32)). lia.
Qed.

Lemma balanced_same b t t' m : (forall n, refsOf n t' = refsOf n t) -> balanced b t m -> balanced b t' m.
Proof. intros Ht Hb n Hn. rewrite Ht. by apply Hb. Qed.

Lemma balanced_nodes b t m m' : (forall fid, node <$> m !! fid = node <$> m' !! fid) -> balanced b t m -> balanced b t m'.
Proof. intros Hm Hb n Hn. rewrite <- (cnt_nodes n m m' Hm). by apply Hb. Qed.

Lemma balanced_b b b' t m : (forall n, embeds n = true -> b n = b' n) -> balanced b t m -> balanced b' t m.
Proof. intros Hbb Hb n Hn. rewrite <- Hbb by done. by apply Hb. Qed.

(** Adding [d] to a node's count moves the balance by [d]. *)
Lemma balanced_refs b n d t t' m :
  (forall x, refsOf x t' = if decide (n = x) then int32 (refsOf x t + d) else refsOf x t) ->
  balanced b t m -> balanced (shift b n d) t' m.
Proof.
  intros Ht Hb x Hx. rewrite Ht. destruct (Hb x Hx) as [Hr (k & Hk)]. unfold shift, one. case_decide.
  - split; [apply int32_range|]. destruct (int32_wraps (refsOf x t + d)) as [k' ->]. exists (k + k'). lia.
  - split; [done|]. exists k. lia.
Qed.

Lemma balanced_incRefNode b n t m : balanced b t m -> balanced (shift b n 1) (incRefNode embeds n t) m.
Proof.
  intros Hb. unfold incRefNode. destruct (embeds n) eqn:E.
  - apply (balanced_refs b n 1 t); [intros x; apply incRef_refs|done].
  - eapply balanced_b; [|exact Hb]. intros x Hx. unfold shift, one. case_decide; [congruence|lia].
Qed.

Lemma balanced_decRefNode b n t m : balanced b t m -> balanced (shift b n (-1)) (decRefNode range embeds n t).2 m.
Proof.
  intros Hb. unfold decRefNode. destruct (embeds n) eqn:E.
  - apply (balanced_refs b n (-1) t); [|done]. intros x. apply decRef_refs.
  - eapply balanced_b; [|exact Hb]. intros x Hx. unfold shift, one. case_decide; [congruence|lia].
Qed.

(** ** One request

    [base]: the fids of the other connections.  [m0] and [r0]: this
    connection's table and the calls made before the request.  [own]: the
    fids the request is about.  [lim]: how many fids the connection may bind;
    [room] says that a count cannot wrap around with so many. *)
Section Request.
Context (base : NodeId -> Z) (own : list Fid) (m0 : gmap Fid FS) (r0 : list (@Event NodeId Handle)) (lim : Z).
Context (Hbase : forall n, 0 <= base n).

Definition room : Prop := forall n, base n + lim < 2 ^ 32.

(** No fid but the request's own is bound to [n]. *)
Definition unused (n : NodeId) : Prop :=
  base n = 0 /\ forall fid fs, fid ∉ own -> m0 !! fid = Some fs -> node fs <> n.

Definition closes_unused (evs : list (@Event NodeId Handle)) : Prop :=
  room -> forall n, Close n ∈ evs -> embeds n = true -> unused n.

(** During the request: the balance is off by [b - base] at most where the
    request is about to repair it, at most [sz] fids are bound, the fids of
    others are as before, and only unused nodes were closed. *)
Record Good (b : NodeId -> Z) (sz : Z) (s : Srv) : Prop := {
  good_bal : Bal b s;
  good_size : Z.of_nat (size (abs (fids s))) <= sz;
  good_frame fid : fid ∉ own -> node <$> abs (fids s) !! fid = node <$> m0 !! fid;
  good_events : exists evs, released s = r0 ++ evs /\ closes_unused evs
}.

Lemma Good_world b sz s w : Good b sz s -> sameRefs (world s) w -> Good b sz (setWorld w s).
Proof. intros [[Hwf Hb] Hsz Hf He] Hw. split; [split; [done|by eapply balanced_same]|done..]. Qed.

Lemma Good_b b b' sz s : (forall n, embeds n = true -> b n = b' n) -> Good b sz s -> Good b' sz s.
Proof. intros Hbb [[Hwf Hb] Hsz Hf He]. split; [split; [done|by eapply balanced_b]|done..]. Qed.

(** The table rewritten without rebinding any fid to another node. *)
Lemma Good_table b sz s ft :
  Good b sz s -> FidTable.wf ft -> (forall fid, node <$> abs (fids s) !! fid = node <$> abs ft !! fid) ->
  Good b sz (mkServer ft (world s) (released s)).
Proof.
  intros [[Hwf Hb] Hsz Hf He] Hwf' Hn. split; [split; [done|by eapply balanced_nodes]| | |done]; cbn.
  - assert (dom (abs ft) = dom (abs (fids s))) as Hd.
    { apply set_eq. intros fid. rewrite !elem_of_dom, <- !(fmap_is_Some node). by rewrite Hn. }
    rewrite <- size_dom, Hd, size_dom. done.
  - intros fid Hfid. by rewrite <- Hn, Hf.
Qed.

Lemma Good_emit b sz s evs : Good b sz s -> closes_unused evs ->
  Good b sz (mkServer (fids s) (world s) (released s ++ evs)).
Proof.
  intros [Hb Hsz Hf (evs0 & Hr & He)] Hc. split; [done..|]. exists (evs0 ++ evs). rewrite app_assoc, <- Hr. split; [done|].
  intros Hroom n [Hn|Hn]%elem_of_app; auto.
Qed.

Lemma closes_unused_release h : closes_unused (releaseFileHandle h).
Proof. intros _ n. destruct h; cbn; [|by intros ?%not_elem_of_nil]. intros Hn%list_elem_of_singleton. done. Qed.

(** *** Steps that keep the invariant *)

Lemma keeps_getFid I fid : keeps I (getFid fid : M Srv Loc).
Proof. intros s Hs. unfold getFid. by destruct (get _ _). Qed.
Lemma keeps_stateAt I l : keeps I (stateAt l : M Srv FS).
Proof. intros s Hs. unfold stateAt. by destruct (fsAt _ _). Qed.
Lemma keeps_nodeAt I l : keeps I (nodeAt l : M Srv NodeId).
Proof. apply keeps_bind; [apply keeps_stateAt|intros; apply keeps_ret]. Qed.
Lemma keeps_qidOf I n : keeps I (qidOf n : M Srv QID.t).
Proof. intros s Hs. done. Qed.
Lemma keeps_guard I b e : keeps I (guard_ b e : M Srv unit).
Proof. unfold guard_, fail. destruct b; auto with keeps. Qed.
Lemma keeps_fail {A} I e : keeps I (fail e : M Srv A).
Proof. apply keeps_throw. Qed.
Lemma keeps_when I b (m : M Srv unit) : keeps I m -> keeps I (when b m).
Proof. unfold when. destruct b; auto with keeps. Qed.
Lemma keeps_attempt {A} I (m : M Srv A) : keeps I m -> keeps I (attempt m).
Proof. intros Hm s Hs%Hm. unfold attempt. by destruct (m s) as [[a|e] s']. Qed.

Lemma keeps_capability {A B} I (o : option A) (k : A -> M Srv B) :
  (forall a, o = Some a -> keeps I (k a)) -> keeps I (capability o ≫= k).
Proof.
  destruct o as [a|]; intros Hk; [|by intros s Hs].
  intros s Hs. exact (Hk a eq_refl s Hs).
Qed.

Lemma keeps_call {A} b sz (f : M W A) : keepsRefs f -> keeps (Good b sz) (call f).
Proof.
  intros Hf s Hs. unfold call. specialize (Hf (world s)). destruct (f (world s)) as [[a|e] w]; by apply Good_world.
Qed.

Lemma keeps_modTree b sz f : (forall n t, refsOf n (f t) = refsOf n t) -> keeps (Good b sz) (modTree f).
Proof. intros Hf s Hs. cbn. apply Good_world; [done|]. intros n. apply Hf. Qed.

Lemma keeps_viewTree {A} b sz (f : Tree -> A) : keeps (Good b sz) (viewTree f).
Proof. intros s Hs. cbn. apply Good_world; [done|]. by intros n. Qed.

Lemma keeps_emit b sz evs : closes_unused evs -> keeps (Good b sz) (emit evs).
Proof. intros He s Hs. by apply Good_emit. Qed.

(** The balance is within the limit. *)
Definition roomy (b : NodeId -> Z) (sz : Z) : Prop := forall n, base n <= b n /\ b n + sz <= base n + lim.

Lemma Good_zero b sz s n :
  Good b sz s -> roomy b sz -> room -> embeds n = true -> refsOf n (tree (world s)) = 0 -> unused n.
Proof.
  intros [[_ Hb] Hsz Hf _] Hroom Hr En Hz. specialize (Hr n). destruct (Hb n En) as (_ & k & Hk). destruct (Hroom n) as [Hb1 Hb2].
  specialize (Hbase n). pose proof (cnt_nonneg n (abs (fids s))). pose proof (cnt_le_size n (abs (fids s))).
  assert (cnt n (abs (fids s)) + b n = 0) as Hz' by lia. split; [lia|].
  intros fid fs Hfid Hm Hn. specialize (Hf fid Hfid). rewrite Hm in Hf.
  destruct (abs (fids s) !! fid) as [fs'|] eqn:E; [|done]. injection Hf as Hf.
  pose proof (cnt_pos n fid fs' _ E). rewrite Hf in *. lia.
Qed.

Lemma closes_unused_one n : (room -> embeds n = true -> unused n) -> closes_unused [Close n].
Proof. intros Hn Hr x Hx%list_elem_of_singleton Ex. injection Hx as ->. auto. Qed.

Lemma keeps_closeUnboundNode b sz n : roomy b sz -> keeps (Good b sz) (closeUnboundNode n).
Proof.
  intros Hroom s Hs. unfold closeUnboundNode, viewTree, onTree, mbind, M_bind. cbn [fst snd].
  assert (Hs1 : Good b sz (setTree (tree (world s)) s)) by (apply Good_world; [done|]; by intros x).
  destruct (embeds n) eqn:En; cbn [andb]; [destruct (Z.eqb_spec (refsOf n (tree (world s))) 0) as [Hz|]|]; cbn [negb]; [|exact Hs1|].
  all: apply (Good_emit b sz _ [Close n] Hs1), closes_unused_one; intros Hr En'; first [by eapply Good_zero|congruence].
Qed.

(** *** Steps on the table *)

Lemma Good_size b sz sz' s : sz <= sz' -> Good b sz s -> Good b sz' s.
Proof. intros Hle [Hb Hsz Hf He]. split; [done|lia|done..]. Qed.

(** Fids of the request bound, unbound or rebound: [b] takes up what their
    nodes gain or lose. *)
Lemma Good_rebind b b' sz sz' s ft :
  Good b sz s -> FidTable.wf ft -> Z.of_nat (size (abs ft)) <= sz' ->
  (forall fid, fid ∉ own -> abs ft !! fid = abs (fids s) !! fid) ->
  (forall n, cnt n (abs ft) + b' n = cnt n (abs (fids s)) + b n) ->
  Good b' sz' (mkServer ft (world s) (released s)).
Proof.
  intros [[Hwf Hb] Hsz Hf He] Hwf' Hsz' Hown Hcnt. split; [split; [done|]|done| |done].
  - intros n En. destruct (Hb n En) as [Hr (k & Hk)]. split; [done|]. exists k. specialize (Hcnt n). cbn. lia.
  - intros fid Hfid. cbn. by rewrite Hown, Hf.
Qed.

Lemma Good_incRef b sz s n :
  Good b sz s -> Good (shift b n 1) sz (setTree (incRefNode embeds n (tree (world s))) s).
Proof.
  intros [[Hwf Hb] Hsz Hf He]. split; [split; [done|by apply balanced_incRefNode]|done..].
Qed.

Lemma Good_decRef b sz s n :
  Good b sz s -> Good (shift b n (-1)) sz (setTree (decRefNode range embeds n (tree (world s))).2 s).
Proof.
  intros [[Hwf Hb] Hsz Hf He]. split; [split; [done|by apply balanced_decRefNode]|done..].
Qed.

(** After the last reference to a node is gone, the node is unused. *)
Lemma Good_lastRef b sz s n s' :
  Good b sz s' -> roomy b sz -> s' = setTree (decRefNode range embeds n (tree (world s))).2 s ->
  (decRefNode range embeds n (tree (world s))).1 = true -> room -> embeds n = true -> unused n.
Proof.
  intros Hg Hroom -> Hl Hr En. apply (Good_zero b sz _ n Hg Hroom Hr En). cbn. unfold decRefNode in *. rewrite En in *.
  destruct (decRef_refs range n n (tree (world s))) as [-> Hl']. rewrite decide_True by done.
  rewrite Hl in Hl'. symmetry in Hl'. by apply Z.eqb_eq in Hl'.
Qed.

Lemma shift_shift b n m : embeds m = true -> shift (shift b n 1) n (-1) m = b m.
Proof. intros _. unfold shift. lia. Qed.
Lemma shift_shift' b n m : embeds m = true -> shift (shift b n (-1)) n 1 m = b m.
Proof. intros _. unfold shift. lia. Qed.

Lemma addFid_good b sz fid fs maxFids :
  fid ∈ own -> hoare (Good b sz) (addFid maxFids fid fs) (fun _ => Good b (sz + 1)) (Good b (sz + 1)).
Proof.
  intros Hown s Hs. pose proof (good_bal _ _ _ Hs) as [Hwf _].
  pose proof (run_simulates (OpAdd fid fs maxFids) (fids s) Hwf) as Hsim. unfold simulates, run, spec in Hsim.
  unfold addFid, onTable, mbind, M_bind. destruct (alloc fs (fids s)) as [l ft1].
  destruct (add fid l maxFids ft1) as [r ft2].
  assert (Hsame : abs ft2 = abs (fids s) -> Good b (sz + 1) (mkServer ft2 (world s) (released s))).
  { intros Ha. apply (Good_size b sz); [lia|]. apply Good_table; [done| |intros fid'; by rewrite Ha].
    destruct (_ && _) in Hsim; [apply Hsim|]. destruct (abs (fids s) !! fid) in Hsim; apply Hsim. }
  destruct ((0 <? maxFids) && (maxFids <=? Z.of_nat (size (abs (fids s))))).
  { destruct Hsim as (Hr & Ha & _). destruct r; [by inversion Hr|]. by apply Hsame. }
  destruct (abs (fids s) !! fid) as [fs'|] eqn:E; destruct Hsim as (Hr & Ha & Hwf').
  { destruct r; [by inversion Hr|]. by apply Hsame. }
  destruct r as [[]|]; [|by inversion Hr]. unfold modTree, onTree. cbn.
  apply (Good_b (shift (shift b (node fs) (-1)) (node fs) 1)); [apply shift_shift'|].
  apply (Good_incRef _ _ (mkServer ft2 (world s) (released s))).
  apply (Good_rebind b _ sz); [done|done| | |].
  - rewrite <- Ha, map_size_insert_None by done. pose proof (good_size _ _ _ Hs). lia.
  - intros fid' Hf. rewrite <- Ha. apply lookup_insert_ne. by intros ->.
  - intros n. rewrite <- Ha, cnt_insert by done. unfold shift. lia.
Qed.

Lemma bindFid_good b sz fid fs maxFids :
  fid ∈ own -> hoare (Good b sz) (bindFid maxFids fid fs) (fun _ => Good b (sz + 1)) (Good b (sz + 1)).
Proof.
  intros Hown. eapply hoare_bind; [by apply addFid_good|]. intros [e|]; [apply keeps_fail|apply keeps_ret].
Qed.

(** *** Steps that leave the table alone *)

Definition tableIs (ft : FT) (s : Srv) : Prop := fids s = ft.

Lemma tableIs_call {A} ft (f : M W A) : keeps (tableIs ft) (call f).
Proof. intros s Hs. unfold call. by destruct (f (world s)) as [[a|e] w]. Qed.
Lemma tableIs_modTree ft f : keeps (tableIs ft) (modTree f).
Proof. by intros s Hs. Qed.
Lemma tableIs_viewTree {A} ft (f : Tree -> A) : keeps (tableIs ft) (viewTree f).
Proof. by intros s Hs. Qed.

Lemma keeps_and {A} (I J : Srv -> Prop) (m : M Srv A) : keeps I m -> keeps J m -> keeps (fun s => I s /\ J s) m.
Proof.
  intros HI HJ s [Hi Hj]. specialize (HI s Hi). specialize (HJ s Hj). by destruct (m s) as [[a|e] s'].
Qed.

(** The body of a handler, rule by rule. *)
Ltac keeps_step :=
  lazymatch goal with
  | |- keeps _ (mret _) => apply keeps_ret
  | |- keeps _ (throw _) => apply keeps_throw
  | |- keeps _ (fail _) => apply keeps_fail
  | |- keeps _ (guard_ _ _) => apply keeps_guard
  | |- keeps _ (getFid _) => apply keeps_getFid
  | |- keeps _ (stateAt _) => apply keeps_stateAt
  | |- keeps _ (nodeAt _) => apply keeps_nodeAt
  | |- keeps _ (qidOf _) => apply keeps_qidOf
  | |- keeps (tableIs _) (viewTree _) => apply tableIs_viewTree
  | |- keeps (tableIs _) (modTree _) => apply tableIs_modTree
  | |- keeps (tableIs _) (call _) => apply tableIs_call
  | |- keeps _ (viewTree _) => apply keeps_viewTree
  | |- keeps _ (modTree _) => apply keeps_modTree; intros ? ?; by autorewrite with refs
  | |- keeps _ (mbind _ (capability _)) => apply keeps_capability; intros ? ?
  | |- keeps _ (mbind _ _) => apply keeps_bind; [|intros ?]
  | |- keeps _ (attempt _) => apply keeps_attempt
  | |- keeps _ (when _ _) => apply keeps_when
  | |- keeps _ (match ?x with _ => _ end) => destruct x eqn:?
  | |- keeps _ (let x := _ in _) => cbv zeta
  end.
Ltac keeps_steps := repeat keeps_step.

Lemma removeViaInodeTree_table ft node : keeps (tableIs ft) (removeViaInodeTree range node).
Proof. unfold removeViaInodeTree. keeps_steps. Qed.

Lemma removeViaInodeTree_good b sz node : keeps (Good b sz) (removeViaInodeTree range node).
Proof. unfold removeViaInodeTree. keeps_steps. apply keeps_call. by eapply unlinker_ok. Qed.

(** *** Taking a fid *)

(** The request holds the only pointer into the table's heap at [l]. *)
Definition holds (l : Loc) (fs : FS) (ft : FT) : Prop := heap ft !! l = Some fs /\ unbound ft l.

Definition Held (l : Loc) (fs : FS) (b : NodeId -> Z) (sz : Z) (s : Srv) : Prop :=
  Good b sz s /\ holds l fs (fids s).

Lemma takeFid_held b sz fid :
  fid ∈ own ->
  hoare (Good b sz) (takeFid fid) (fun l s => exists fs, Held l fs (shift b (node fs) 1) sz s) (Good b sz).
Proof.
  intros Hown s Hs. pose proof (good_bal _ _ _ Hs) as [Hwf _].
  unfold takeFid, onTable, mbind, M_bind, clunk. destruct (FidTable.fids (fids s) !! fid) as [l|] eqn:El; [|by destruct s].
  destruct (wf_alloc _ Hwf _ _ El) as [fs Hfs]. pose proof (abs_bound _ _ _ _ El Hfs) as Ha. cbn.
  set (ft := mkFidTable _ _). assert (Hc : clunk fid (fids s) = (Some l, ft)) by (unfold clunk; by rewrite El).
  exists fs. split; [|split; [done|by eapply clunk_unbound]].
  assert (Hab : abs ft = delete fid (abs (fids s))) by apply abs_delete.
  apply (Good_rebind b _ sz); [done| | | |].
  - pose proof (clunk_wf fid _ Hwf) as Hw. by rewrite Hc in Hw.
  - rewrite Hab. pose proof (good_size _ _ _ Hs). rewrite map_size_delete, Ha. lia.
  - intros fid' Hf. rewrite Hab. apply lookup_delete_ne. by intros ->.
  - intros n. rewrite Hab, (cnt_delete n fid fs) by done. unfold shift. lia.
Qed.

Lemma Held_stateAt {B} l fs b sz (k : FS -> M Srv B) Q R :
  hoare (Held l fs b sz) (k fs) Q R -> hoare (Held l fs b sz) (stateAt l ≫= k) Q R.
Proof. intros Hk s Hs. unfold stateAt, fsAt, mbind, M_bind. rewrite (proj1 (proj2 Hs)). by apply Hk. Qed.

(** A state no fid is bound to may be rewritten at will. *)
Lemma abs_modify_unbound l f (ft : FT) : unbound ft l -> abs (modify l f ft) = abs ft.
Proof.
  intros Hu. apply map_eq. intros fid. rewrite !lookup_abs. cbn. destruct (FidTable.fids ft !! fid) as [l'|] eqn:E; [|done].
  cbn. apply lookup_alter_ne. intros ->. by apply Hu in E.
Qed.

Lemma Held_setFs l fs fs' b sz s : Held l fs b sz s -> Held l fs' b sz (setFs l fs' s).
Proof.
  intros [Hg [Hl Hu]]. pose proof (good_bal _ _ _ Hg) as [Hwf _]. split; [|split; [|done]].
  - apply Good_table; [done|by apply modify_wf|]. intros fid. by rewrite abs_modify_unbound.
  - cbn. by rewrite lookup_alter_eq, Hl.
Qed.

Lemma Held_decRef l fs b sz n :
  roomy b sz ->
  hoare (Held l fs (shift b n 1) sz) (onTree (decRefNode range embeds n))
    (fun last s => (last = true -> room -> embeds n = true -> unused n) /\ Held l fs b sz s) (Good b sz).
Proof.
  intros Hroom s [Hg Hh]. apply Good_decRef with (n := n) in Hg.
  apply (Good_b _ b) in Hg; [|apply shift_shift]. unfold onTree.
  pose proof (Good_lastRef b sz s n _ Hg Hroom eq_refl) as Hlast.
  destruct (decRefNode range embeds n (tree (world s))) as [last t]. cbn in *. split; [done|]. by split.
Qed.

Lemma Held_finishClunkNow l fs b sz last :
  (last = true -> room -> embeds (node fs) = true -> unused (node fs)) ->
  hoare (Held l fs b sz) (finishClunkNow l last) (fun _ => Good b sz) (Good b sz).
Proof.
  intros Hlast s Hs. unfold finishClunkNow, fsAt. rewrite (proj1 (proj2 Hs)). unfold finishClunk.
  apply (Held_setFs l fs (set_closing true last fs)) in Hs as [Hg _]. cbn.
  apply (Good_emit b sz _ _ Hg). destruct (_ =? 0); [|by intros Hr n ?%not_elem_of_nil].
  unfold releaseNow. cbn. intros Hr n [Hn|Hn]%elem_of_app; [by apply (closes_unused_release _ Hr _ Hn)|].
  destruct last; [|by apply not_elem_of_nil in Hn]. apply list_elem_of_singleton in Hn. injection Hn as ->. by apply Hlast.
Qed.

(** *** Rules for handlers *)

Lemma hoare_table {A} P (m : M Srv A) Q R :
  (forall ft, hoare (fun s => P s /\ tableIs ft s) m Q R) -> hoare P m Q R.
Proof. intros Hm s Hs. exact (Hm (fids s) s (conj Hs eq_refl)). Qed.

Lemma hoare_keep {A B} (P R : Srv -> Prop) (m : M Srv A) (k : A -> M Srv B) Q :
  keeps P m -> (forall s, P s -> R s) -> (forall a, hoare P (k a) Q R) -> hoare P (m ≫= k) Q R.
Proof. intros Hm HR Hk. apply (hoare_bind _ _ _ (fun _ => P)); [by eapply hoare_conseq|done]. Qed.

Lemma hoare_guard {B} (P R : Srv -> Prop) b e (k : M Srv B) Q :
  (b = true -> hoare P k Q R) -> (forall s, P s -> R s) -> hoare P (guard_ b e;; k) Q R.
Proof. intros Hk HR s Hs. unfold guard_. destruct b; [exact (Hk eq_refl s Hs)|exact (HR s Hs)]. Qed.

Lemma hoare_capability {A B} (P R : Srv -> Prop) (o : option A) (k : A -> M Srv B) Q :
  (forall a, o = Some a -> hoare P (k a) Q R) -> (forall s, P s -> R s) -> hoare P (capability o ≫= k) Q R.
Proof. intros Hk HR s Hs. destruct o as [a|]; [exact (Hk a eq_refl s Hs)|exact (HR s Hs)]. Qed.

Lemma hoare_getFid {B} P ft fid (k : Loc -> M Srv B) Q (R : Srv -> Prop) :
  (forall l, get ft fid = Some l -> hoare (fun s => P s /\ tableIs ft s) (k l) Q R) -> (forall s, P s -> R s) ->
  hoare (fun s => P s /\ tableIs ft s) (getFid fid ≫= k) Q R.
Proof.
  intros Hk HR s [Hs Ht]. unfold getFid, mbind, M_bind. rewrite Ht.
  destruct (get ft fid) as [l|]; [by apply Hk|by apply HR].
Qed.

Lemma hoare_stateAt {B} P ft l (k : FS -> M Srv B) Q (R : Srv -> Prop) :
  (forall fs, heap ft !! l = Some fs -> hoare (fun s => P s /\ tableIs ft s) (k fs) Q R) -> (forall s, P s -> R s) ->
  hoare (fun s => P s /\ tableIs ft s) (stateAt l ≫= k) Q R.
Proof.
  intros Hk HR s [Hs Ht]. unfold stateAt, fsAt, mbind, M_bind. rewrite Ht.
  destruct (heap ft !! l) as [fs|]; [by apply Hk|by apply HR].
Qed.

Lemma hoare_grow {A} b sz (m : M Srv A) :
  keeps (Good b sz) m -> hoare (Good b sz) m (fun _ => Good b (sz + 1)) (Good b (sz + 1)).
Proof. intros Hm. eapply hoare_conseq; [exact Hm|done|intros ? ?|intros ?]; apply Good_size; lia. Qed.

Lemma respond_good P (h : M Srv Message) (I : Srv -> Prop) proto s :
  hoare P h (fun _ => I) I -> P s -> I (respond proto h s).2.
Proof. intros Hh Hs. specialize (Hh s Hs). unfold respond. by destruct (h s) as [[m|e] s']. Qed.

(** *** A fid moves to another node

    Between the table's update and the counts', the balance is off by one at
    both nodes. *)
Definition moved (b : NodeId -> Z) (prev n : NodeId) : NodeId -> Z := shift (shift b prev 1) n (-1).

Lemma Good_move b sz s fid fs fs' ft :
  Good b sz s -> fid ∈ own -> FidTable.wf ft -> abs (fids s) !! fid = Some fs ->
  abs ft = <[fid := fs']> (abs (fids s)) ->
  Good (moved b (node fs) (node fs')) sz (mkServer ft (world s) (released s)).
Proof.
  intros Hs Hown Hwf Hfs Hft. apply (Good_rebind b _ sz); [done|done| | |].
  - rewrite Hft, map_size_insert_Some by eauto. apply Hs.
  - intros fid' Hf. rewrite Hft. apply lookup_insert_ne. by intros ->.
  - intros n. rewrite Hft, (cnt_update n fid fs fs') by done. unfold moved, shift. lia.
Qed.

Lemma settle_good {A} b sz n prev (m : M Srv A) Q R :
  hoare (Good b sz) m Q R ->
  hoare (Good (moved b prev n) sz)
    (modTree (incRefNode embeds n);; _ ← onTree (decRefNode range embeds prev); m) Q R.
Proof.
  intros Hm s Hs. apply (Good_incRef _ _ _ n) in Hs. apply (Good_decRef _ _ _ prev) in Hs.
  apply (Good_b _ b) in Hs; [|intros x _; unfold moved, shift; lia].
  unfold modTree, onTree, mbind, M_bind. cbn in *. destruct (decRefNode _ _ _ _) as [last t]. by apply Hm.
Qed.

Lemma update_good b sz fid n p :
  fid ∈ own ->
  hoare (Good b sz) (onTable (update fid n p))
    (fun prev => match prev with Some prev => Good (moved b prev n) sz | None => Good b sz end) (Good b sz).
Proof.
  intros Hown s Hs. pose proof (good_bal _ _ _ Hs) as [Hwf _].
  pose proof (run_simulates (OpUpdate fid n p) (fids s) Hwf) as Hsim. unfold simulates, run, spec in Hsim.
  unfold onTable. destruct (update fid n p (fids s)) as [prev ft]. destruct Hsim as (Hr & Ha & Hw).
  destruct (abs (fids s) !! fid) as [fs|] eqn:E.
  - rewrite (alter_insert _ _ fs) in Ha by done. inversion Hr; subst.
    by apply (Good_move b sz s fid fs (set_node n p fs)).
  - rewrite alter_None in Ha by done. inversion Hr; subst. apply Good_table; [done..|]. intros fid'. by rewrite Ha.
Qed.

Lemma keeps_markOpened b sz fid h : keeps (Good b sz) (onTable (markOpenedWithHandle fid h)).
Proof.
  intros s Hs. pose proof (good_bal _ _ _ Hs) as [Hwf _].
  pose proof (run_simulates (OpMarkOpened fid h) (fids s) Hwf) as Hsim. unfold simulates, run, spec in Hsim.
  unfold onTable. destruct (markOpenedWithHandle fid h (fids s)) as [ok ft].
  assert (FidTable.wf ft /\ forall fid', node <$> abs (fids s) !! fid' = node <$> abs ft !! fid') as [Hw Hn];
    [|by apply Good_table].
  destruct (abs (fids s) !! fid) as [fs|] eqn:E; [case_decide|]; destruct Hsim as (_ & Ha & Hw);
    (split; [done|]); intros fid'; rewrite <- Ha; try done.
  rewrite lookup_insert. case_decide as Ef; [subst fid'; by rewrite E|done].
Qed.

(** A state rewritten in place, at the same node. *)
Lemma Good_setFs b sz s l fs fs' :
  Good b sz s -> fsAt l s = Some fs -> node fs' = node fs -> Good b sz (setFs l fs' s).
Proof.
  intros Hs Hl Hn. pose proof (good_bal _ _ _ Hs) as [Hwf _]. apply Good_table; [done|by apply modify_wf|].
  intros fid. rewrite !lookup_abs. cbn. destruct (FidTable.fids (fids s) !! fid) as [l'|]; [|done]. cbn.
  destruct (decide (l = l')) as [<-|]; [|by rewrite lookup_alter_ne].
  unfold fsAt in Hl. rewrite lookup_alter_eq, Hl. cbn. by rewrite Hn.
Qed.

(** *** The handlers that bind or release a fid *)

Ltac method_ok := destruct Hops; first [by eauto | by repeat case_match; eauto].
Ltac to_keeps := cbn beta; lazymatch goal with |- hoare ?P ?m (fun _ => ?P) ?P => change (keeps P m) | |- _ => idtac end.
Ltac keeps_all := to_keeps; repeat first [keeps_step | apply keeps_call; method_ok].

Lemma attachNode_good b sz ta : keeps (Good b sz) (attachNode ta).
Proof. unfold attachNode. keeps_all. Qed.

Lemma handleAttach_good sz proto maxFids ta s :
  Tattach.Fid ta ∈ own -> Good base sz s -> Good base (sz + 1) (handleAttach proto maxFids ta s).2.
Proof.
  intros Hown. apply respond_good.
  apply hoare_guard; [intros _|intros s0; apply Good_size; lia].
  apply hoare_keep; [apply attachNode_good|intros s0; apply Good_size; lia|intros n].
  eapply hoare_bind; [by apply bindFid_good|intros []]. keeps_all.
Qed.

Lemma walkLoop_good b sz first walkStart current qids names :
  roomy b sz -> keeps (Good b sz) (walkLoop first walkStart current qids names).
Proof.
  intros Hroom. revert first current qids. induction names as [|name names IH]; intros; cbn [walkLoop]; keeps_all.
  - by apply keeps_closeUnboundNode.
  - apply IH.
Qed.

Lemma walkClone_good b sz maxFids l tw :
  Twalk.NewFid tw ∈ own -> hoare (Good b sz) (walkClone maxFids l tw) (fun _ => Good b (sz + 1)) (Good b (sz + 1)).
Proof.
  intros Hown. unfold walkClone. destruct (_ =? _); [apply hoare_grow; keeps_all|].
  apply hoare_keep; [keeps_all|intros s0; apply Good_size; lia|intros src]. destruct (nodeAndPath src) as [n p].
  eapply hoare_bind; [by apply bindFid_good|intros []]. keeps_all.
Qed.

Lemma walkBind_good sz maxFids l tw walkStart current :
  Twalk.NewFid tw ∈ own -> sz + 1 <= lim ->
  hoare (Good base sz) (walkBind range maxFids l tw walkStart current) (fun _ => Good base (sz + 1)) (Good base (sz + 1)).
Proof.
  intros Hown Hsz. unfold walkBind.
  assert (Hclose : forall sz', sz' <= lim ->
    keeps (Good base sz') (when (negb (current =? walkStart)%nat) (closeUnboundNode current))).
  { intros sz' Hsz'. apply keeps_when, keeps_closeUnboundNode. intros n. lia. }
  apply hoare_keep; [keeps_all|intros s0; apply Good_size; lia|intros src]. case_match eqn:E.
  - apply Z.eqb_eq in E. apply hoare_grow. rewrite E. eapply hoare_bind; [by apply update_good|].
    intros [prev|]; [|apply Hclose; lia]. apply settle_good. keeps_all.
  - eapply hoare_bind; [by apply addFid_good|]. intros [e|]; [|keeps_all].
    apply keeps_bind; [by apply Hclose|intros; keeps_all].
Qed.

Lemma handleWalk_good sz proto maxFids tw s :
  Twalk.NewFid tw ∈ own -> sz + 1 <= lim -> Good base sz s -> Good base (sz + 1) (handleWalk range proto maxFids tw s).2.
Proof.
  intros Hown Hsz. apply respond_good.
  apply hoare_keep; [keeps_all|intros s0; apply Good_size; lia|intros l]. destruct (Twalk.Names tw) as [|name names].
  { by apply walkClone_good. }
  apply hoare_guard; [intros _|intros s0; apply Good_size; lia].
  apply hoare_keep; [keeps_all|intros s0; apply Good_size; lia|intros walkStart].
  apply hoare_keep; [apply walkLoop_good; intros n; lia|intros s0; apply Good_size; lia|intros [current qids]].
  apply (hoare_bind _ _ _ (fun _ => Good base (sz + 1))); [|intros []; keeps_all]. case_match.
  - by apply walkBind_good.
  - apply hoare_grow, keeps_when, keeps_closeUnboundNode. intros n. lia.
Qed.

Lemma commitXattr_good b sz fs : keeps (Good b sz) (commitXattr fs).
Proof.
  unfold commitXattr. keeps_all.
  all: match goal with E : xattrNode _ ≫= _ = Some _ |- _ => apply bind_Some in E as (? & _ & ?) end;
    apply keeps_call; method_ok.
Qed.

Lemma handleClunk_good sz proto tc s :
  Tclunk.Fid tc ∈ own -> sz <= lim -> Good base sz s -> Good base sz (handleClunk range proto tc s).2.
Proof.
  intros Hown Hsz. apply respond_good.
  eapply hoare_bind; [by apply takeFid_held|intros l]. apply hoare_exists. intros fs. apply Held_stateAt.
  eapply hoare_bind; [apply Held_decRef; intros n; lia|]. intros last. apply hoare_pure. intros Hlast. case_decide.
  - eapply (hoare_bind _ _ _ (fun _ => Good base sz)); [|intros _; apply commitXattr_good].
    intros s0 Hs0. by apply (Held_setFs l fs (set_closing true (closeNode fs) fs)) in Hs0 as [Hg _].
  - eapply hoare_bind; [by apply Held_finishClunkNow|intros []]. keeps_all.
Qed.

Lemma keeps_Held {A} l fs b sz (m : M Srv A) :
  keeps (Good b sz) m -> (forall ft, keeps (tableIs ft) m) -> keeps (Held l fs b sz) m.
Proof.
  intros Hg Ht s [Hs Hh]. specialize (Hg s Hs). specialize (Ht (fids s) s eq_refl).
  destruct (m s) as [[a|e] s']; (split; [done|by rewrite Ht]).
Qed.

Lemma hoare_attempt {A} I (m : M Srv A) R : keeps I m -> hoare I (attempt m) (fun _ => I) R.
Proof. intros Hm s Hs%Hm. unfold attempt. by destruct (m s) as [[a|e] s']. Qed.

Lemma handleRemove_good sz proto tr s :
  Tremove.Fid tr ∈ own -> sz <= lim -> Good base sz s -> Good base sz (handleRemove range proto tr s).2.
Proof.
  intros Hown Hsz. apply respond_good.
  eapply hoare_bind; [by apply takeFid_held|intros l]. apply hoare_exists. intros fs. apply Held_stateAt.
  eapply hoare_bind; [apply hoare_attempt, keeps_Held; [apply removeViaInodeTree_good|intros ft; apply removeViaInodeTree_table]|].
  intros removeErr. eapply hoare_bind; [apply Held_decRef; intros n; lia|]. intros last. apply hoare_pure. intros Hlast.
  eapply hoare_bind; [by apply Held_finishClunkNow|intros []]. keeps_all.
Qed.

(** *** Open and create *)

Lemma keeps_emit_release b sz h : keeps (Good b sz) (emit (releaseFileHandle h)).
Proof. apply keeps_emit, closes_unused_release. Qed.

Lemma openFid_good b sz msize fid flags : keeps (Good b sz) (openFid msize fid flags).
Proof.
  unfold openFid. keeps_all; [apply keeps_markOpened|apply keeps_emit_release].
Qed.

(** Nothing comes between the check of the fid's state and its rebinding, so
    the child is bound. *)
Lemma createFid_good b sz msize fid name flags mode gid :
  fid ∈ own -> keeps (Good b sz) (createFid range msize fid name flags mode gid).
Proof.
  intros Hown. apply hoare_table. intros ft. apply hoare_getFid; [intros l Hl|done].
  apply hoare_stateAt; [intros fs Hfs|done].
  apply hoare_guard; [intros Halloc|by intros s []]. apply bool_decide_eq_true in Halloc.
  apply hoare_guard; [intros _|by intros s []]. apply hoare_capability; [intros create Hc|by intros s []].
  apply hoare_keep; [apply keeps_and; [apply keeps_call; method_ok|apply tableIs_call]|by intros s []|].
  intros [[child handle] hint]. apply (hoare_bind _ _ _ (fun prev s => prev = Some (node fs) /\ Good (moved b (node fs) child) sz s)).
  - intros s [Hs Ht]. unfold tableIs in Ht. subst ft. unfold onTable, updateAndOpen, get in *.
    rewrite Hl, Hfs, decide_True by done. split; [done|]. pose proof (good_bal _ _ _ Hs) as [Hwf _].
    apply (Good_move b sz s fid fs (set_open handle (set_node child (path fs) fs))); [done|done|by apply modify_wf| |].
    + by eapply abs_bound.
    + rewrite (abs_modify fid) by done. rewrite (alter_insert _ fid fs); [done|by eapply abs_bound].
  - intros prev. apply hoare_pure. intros ->. apply settle_good. keeps_all.
Qed.

Lemma handleLcreate_good b sz msize proto m s :
  Tlcreate.Fid m ∈ own -> Good b sz s -> Good b sz (handleLcreate range msize proto m s).2.
Proof.
  intros Hown. apply respond_good. apply keeps_bind; [by apply createFid_good|intros [qid iounit]; keeps_all].
Qed.

Lemma handleUCreate_good b sz msize proto m s :
  Tcreate.Fid m ∈ own -> Good b sz s -> Good b sz (handleUCreate range msize proto m s).2.
Proof.
  intros Hown. apply respond_good. apply keeps_capability. intros flags _. apply keeps_bind; [keeps_all|intros _].
  apply keeps_bind; [by apply createFid_good|intros [qid iounit]; keeps_all].
Qed.

(** *** Requests that bind no fid *)

Lemma makeChild_good b sz fid name make :
  (forall n mk, make n = Some mk -> keepsRefs mk) -> keeps (Good b sz) (makeChild fid name make).
Proof. intros Hmake. unfold makeChild. keeps_all. Qed.

Ltac child_ok :=
  apply respond_good, keeps_bind; [apply makeChild_good|intros ?; keeps_all];
  intros ? ? (? & ? & ->)%fmap_Some; method_ok.

Lemma handleMkdir_good b sz proto m s : Good b sz s -> Good b sz (handleMkdir proto m s).2.
Proof. child_ok. Qed.
Lemma handleSymlink_good b sz proto m s : Good b sz s -> Good b sz (handleSymlink proto m s).2.
Proof. child_ok. Qed.
Lemma handleMknod_good b sz proto m s : Good b sz s -> Good b sz (handleMknod proto m s).2.
Proof. child_ok. Qed.

Ltac handler_ok := apply respond_good; keeps_all.

Lemma handleLink_good b sz proto m s : Good b sz s -> Good b sz (handleLink proto m s).2.
Proof. handler_ok. Qed.
Lemma handleUnlinkat_good b sz proto m s : Good b sz s -> Good b sz (handleUnlinkat proto m s).2.
Proof. handler_ok. Qed.
Lemma handleRenameat_good b sz proto m s : Good b sz s -> Good b sz (handleRenameat proto m s).2.
Proof. handler_ok. Qed.
Lemma handleRename_good b sz proto m s : Good b sz s -> Good b sz (handleRename range proto m s).2.
Proof. handler_ok. Qed.
Lemma handleGetattr_good b sz proto m s : Good b sz s -> Good b sz (handleGetattr proto m s).2.
Proof. handler_ok. Qed.
Lemma handleSetattr_good b sz proto m s : Good b sz s -> Good b sz (handleSetattr proto m s).2.
Proof. handler_ok. Qed.
Lemma handleReadlink_good b sz proto m s : Good b sz s -> Good b sz (handleReadlink proto m s).2.
Proof. handler_ok. Qed.
Lemma handleStatfs_good b sz proto m s : Good b sz s -> Good b sz (handleStatfs proto m s).2.
Proof. handler_ok. Qed.

Lemma handleUStat_good b sz proto m s : Good b sz s -> Good b sz (handleUStat proto m s).2.
Proof. handler_ok. intros s0 Hs0. by destruct s0. Qed.

(** *** Requests on an open fid *)

(** A step that only touches caches and the file system. *)
Lemma Good_sameFids b sz s s' : sameFids s s' -> sameRefs (world s) (world s') -> Good b sz s -> Good b sz s'.
Proof.
  intros (HF & HR & Hfs) Hw Hs. pose proof (good_bal _ _ _ Hs) as [Hwf _]. destruct s' as [ft w rel]. cbn in *. subst rel.
  apply (Good_world _ _ (mkServer ft (world s) (released s))); [|done]. apply Good_table; [done| |].
  - destruct Hwf as [Ha Hi]. split; rewrite HF; [|done]. intros fid l Hl. destruct (Ha fid l Hl) as [fs E].
    specialize (Hfs l). unfold fsAt in Hfs. rewrite E in Hfs. inversion Hfs; subst; eauto.
  - intros fid. rewrite !lookup_abs, HF. destruct (FidTable.fids (fids s) !! fid) as [l|]; [|done]. cbn.
    specialize (Hfs l). unfold fsAt in Hfs. cbn in Hfs. destruct Hfs as [fs1 fs2 E|]; [|done].
    cbn. f_equal. exact (f_equal node E).
Qed.

Lemma withIO_refs proto l k (s : Srv) :
  (forall fs s1, sameRefs (world s1) (world (k fs s1).2)) -> sameRefs (world s) (world (withIO proto l k s).2).
Proof.
  intros Hk. unfold withIO. destruct (fsAt l s) as [fs|]; [|done]. destruct (beginIO fs) as [[] fs1]; [|done].
  specialize (Hk fs1 (setFs l fs1 s)). destruct (k _ _) as [r s2]. destruct (fsAt l s2) as [fs2|]; [|done].
  by destruct (endIO fs2).
Qed.

Lemma fillResponse_refs proto mk count offset read (s : Srv) :
  (forall buf w, sameRefs w (read buf offset w).2) -> sameRefs (world s) (world (fillResponse proto mk count offset read s).2).
Proof.
  intros Hr. unfold fillResponse, fillPooled. set (buf := take _ _). specialize (Hr buf (world s)).
  destruct (read _ _ _) as [[[n|e] buf'] w]; [destruct (validReadCount _ _)|]; exact Hr.
Qed.

Lemma writeResponse_refs proto write payload (s : Srv) :
  (forall w, sameRefs w (write w).2) -> sameRefs (world s) (world (writeResponse proto write payload s).2).
Proof.
  intros Hw. unfold writeResponse. specialize (Hw (world s)).
  destruct (write _) as [[n|e] w]; [destruct (validWriteCount _ _)|]; exact Hw.
Qed.

Lemma readdirSimple_refs proto l count offset rd fs (s : Srv) :
  (forall w, sameRefs w (rd w).2) -> sameRefs (world s) (world (readdirSimple proto l count offset rd fs s).2).
Proof.
  intros Hr. unfold readdirSimple. destruct (_ || _); [|done]. specialize (Hr (world s)). by destruct (rd _) as [[ds|e] w].
Qed.

Ltac cap_ok :=
  repeat case_match; try reflexivity;
  match goal with
  | E : onHandle _ ?fs = Some _ |- _ => apply bind_Some in E as (? & _ & ?)
  | _ => idtac
  end;
  first [apply fillResponse_refs | apply writeResponse_refs | apply readdirSimple_refs]; intros;
  destruct Hcaps; eauto.

Lemma handleRead_refs msize proto m (s : Srv) : sameRefs (world s) (world (handleRead msize proto m s).2).
Proof.
  unfold handleRead. repeat case_match; try reflexivity. apply withIO_refs. intros fs1 s1. cap_ok.
Qed.
Lemma handleWrite_refs proto m (s : Srv) : sameRefs (world s) (world (handleWrite proto m s).2).
Proof.
  unfold handleWrite, writeXattr. repeat case_match; try reflexivity.
  - apply writeResponse_refs. intros w. by apply xattrWriterWrite_ok.
  - apply withIO_refs. intros fs1 s1. cap_ok.
Qed.
Lemma handleReaddir_refs msize proto m (s : Srv) : sameRefs (world s) (world (handleReaddir msize proto m s).2).
Proof.
  unfold handleReaddir. repeat case_match; try reflexivity. apply withIO_refs. intros fs1 s1. cap_ok.
Qed.

Lemma handleRead_good b sz msize proto m s : Good b sz s -> Good b sz (handleRead msize proto m s).2.
Proof.
  apply Good_sameFids; [|apply handleRead_refs]. destruct (handleRead msize proto m s) as [r s'] eqn:E.
  by apply handleRead_same in E.
Qed.
Lemma handleWrite_good b sz proto m s : Good b sz s -> Good b sz (handleWrite proto m s).2.
Proof.
  apply Good_sameFids; [|apply handleWrite_refs]. destruct (handleWrite proto m s) as [r s'] eqn:E.
  by apply handleWrite_same in E.
Qed.
Lemma handleReaddir_good b sz msize proto m s : Good b sz s -> Good b sz (handleReaddir msize proto m s).2.
Proof.
  apply Good_sameFids; [|apply handleReaddir_refs]. destruct (handleReaddir msize proto m s) as [r s'] eqn:E.
  by apply handleReaddir_same in E.
Qed.

Lemma onOpen_good b sz proto fid (body : FS -> M Srv Message) s :
  (forall fs, keeps (Good b sz) (body fs)) -> (forall fs ft, keeps (tableIs ft) (body fs)) ->
  Good b sz s -> Good b sz (onOpen proto fid body s).2.
Proof.
  intros Hg Ht Hs. unfold onOpen. destruct (get (fids s) fid) as [l|]; [|done].
  destruct (fsAt l s) as [fs|] eqn:Hl; [|done]. case_decide; [done|].
  unfold withIO, beginIO. rewrite Hl. destruct (closing fs) eqn:Hc; [done|].
  set (fs1 := set_io _ fs). set (s1 := setFs l fs1 s).
  assert (Hs1 : Good b sz s1) by (by eapply Good_setFs).
  pose proof (respond_good _ _ _ proto s1 (Hg fs1) Hs1) as Hs2.
  pose proof (respond_good _ _ _ proto s1 (Ht fs1 (fids s1)) eq_refl) as Ht2. unfold tableIs in Ht2.
  destruct (respond proto (body fs1) s1) as [r s2]. cbn [snd] in *.
  assert (Hl2 : fsAt l s2 = Some fs1) by (unfold fsAt; rewrite Ht2; by eapply setFs_fsAt).
  rewrite Hl2. unfold endIO. cbn [closing set_io]. assert (closing fs1 = false) as -> by done. cbn [andb].
  rewrite app_nil_r. by apply (Good_setFs b sz s2 l fs1).
Qed.

Lemma lockerOf_ok fs k : lockerOf fs = Some k ->
  (forall lt fl s l p c, keepsRefs (Lock k lt fl s l p c)) /\ (forall lt s l p c, keepsRefs (GetLock k lt s l p c)).
Proof.
  unfold lockerOf. destruct (onHandle FileLocker fs) as [k'|] eqn:E; intros Hk.
  - apply bind_Some in E as (h & _ & E). injection Hk as <-. by eapply fileLocker_ok.
  - by eapply nodeLocker_ok.
Qed.

Ltac locker_ok :=
  match goal with E : lockerOf _ = Some _ |- _ => apply lockerOf_ok in E as [? ?] end; apply keeps_call; eauto.

Lemma handleFsync_good b sz proto m s : Good b sz s -> Good b sz (handleFsync proto m s).2.
Proof.
  apply onOpen_good; intros fs; [|intros ft]; keeps_all.
  match goal with E : onHandle _ _ = Some _ |- _ => apply bind_Some in E as (? & _ & ?) end. apply keeps_call. method_ok.
Qed.
Lemma handleLock_good b sz proto m s : Good b sz s -> Good b sz (handleLock proto m s).2.
Proof. apply onOpen_good; intros fs; [|intros ft]; keeps_all. locker_ok. Qed.
Lemma handleGetlock_good b sz proto m s : Good b sz s -> Good b sz (handleGetlock proto m s).2.
Proof. apply onOpen_good; intros fs; [|intros ft]; keeps_all. locker_ok. Qed.

(** *** Extended attributes *)

Lemma addXattrReadFid_good b sz maxFids newFid node name data :
  newFid ∈ own ->
  hoare (Good b sz) (addXattrReadFid maxFids newFid node name data) (fun _ => Good b (sz + 1)) (Good b (sz + 1)).
Proof. intros Hown. eapply hoare_bind; [by apply bindFid_good|intros []]. keeps_all. Qed.

Ltac raw_ok :=
  match goal with E : RawXattrer _ = Some _ |- _ => apply (rawXattrer_ok Hops) in E as [? ?] end; apply keeps_call; eauto.

Lemma handleXattrwalk_good b sz proto maxFids m s :
  Txattrwalk.NewFid m ∈ own -> Good b sz s -> Good b (sz + 1) (handleXattrwalk proto maxFids m s).2.
Proof.
  intros Hown. apply respond_good.
  assert (Hgrow : forall s0, Good b sz s0 -> Good b (sz + 1) s0) by (intros s0; apply Good_size; lia).
  apply hoare_keep; [keeps_all|done|intros l]. apply hoare_keep; [keeps_all|done|intros node].
  cbv zeta. destruct (RawXattrer node) as [raw|] eqn:E; [|case_decide].
  - apply hoare_keep; [raw_ok|done|intros data]. by apply addXattrReadFid_good.
  - apply hoare_capability; [intros lister Hl|done]. apply hoare_keep; [keeps_all|done|intros names].
    by apply addXattrReadFid_good.
  - apply hoare_capability; [intros getter Hl|done]. apply hoare_keep; [keeps_all|done|intros data].
    by apply addXattrReadFid_good.
Qed.

Lemma keeps_rewriteFs b sz l f :
  (forall fs, node (f fs) = node fs) ->
  keeps (Good b sz) (fun s : Srv => match fsAt l s with
                              | None => (Ok tt, s)
                              | Some fs => (Ok tt, setFs l (f fs) s)
                              end).
Proof. intros Hf s Hs. destruct (fsAt l s) as [fs|] eqn:E; [|done]. by eapply Good_setFs. Qed.

Lemma handleXattrcreate_good b sz msize proto m s : Good b sz s -> Good b sz (handleXattrcreate msize proto m s).2.
Proof.
  apply respond_good. keeps_all.
  - raw_ok.
  - by apply keeps_rewriteFs.
  - by apply keeps_rewriteFs.
Qed.

(** *** Every request *)

Lemma handleLopen_good b sz msize proto m s : Good b sz s -> Good b sz (handleLopen msize proto m s).2.
Proof. apply respond_good, keeps_bind; [apply openFid_good|intros ?; keeps_all]. Qed.
Lemma handleUOpen_good b sz msize proto m s : Good b sz s -> Good b sz (handleUOpen msize proto m s).2.
Proof.
  apply respond_good, keeps_capability. intros flags _. apply keeps_bind; [apply openFid_good|intros ?; keeps_all].
Qed.

Create HintDb handlers.
#[local] Hint Resolve handleAttach_good handleWalk_good handleClunk_good handleRemove_good handleLopen_good
  handleUOpen_good handleLcreate_good handleUCreate_good handleRead_good handleWrite_good handleReaddir_good
  handleGetattr_good handleSetattr_good handleMkdir_good handleSymlink_good handleLink_good handleMknod_good
  handleReadlink_good handleStatfs_good handleFsync_good handleUnlinkat_good handleRenameat_good
  handleRename_good handleLock_good handleGetlock_good handleXattrwalk_good handleXattrcreate_good
  handleUStat_good : handlers.

Lemma dispatch_good msize proto maxFids sz msg s :
  (forall fid, fid ∈ ownFids msg -> fid ∈ own) ->
  sz + 1 <= lim -> Good base sz s -> Good base (sz + 1) (dispatch range msize proto maxFids msg s).2.
Proof.
  intros Hown Hsz Hs. assert (Hgrow : forall s0, Good base sz s0 -> Good base (sz + 1) s0) by (intros s0; apply Good_size; lia).
  assert (Hle : sz <= lim) by lia.
  destruct msg; cbn [ownFids dispatch] in *; try specialize (Hown _ (list_elem_of_here _ _)); auto with handlers.
  all: apply Hgrow, (respond_good (Good base sz)); [apply keeps_fail|done].
Qed.

(** ** Teardown *)

(** The nodes of states already unbound, their counts still to be taken. *)
Definition pending (fss : list FS) (b : NodeId -> Z) : NodeId -> Z := fun n => b n + boundTo n fss.

Lemma clunkStates_good drained fss ls s :
  Forall2 (fun l fs => fsAt l s = Some fs) ls fss -> Z.of_nat (length fss) <= lim ->
  Good (pending fss base) 0 s -> Good base 0 (clunkStates range drained ls s).2.
Proof.
  intros Hls. revert s Hls. revert fss. induction ls as [|l ls IH]; intros fss s Hls Hlim Hs; inversion Hls as [|? fs ? fss' Hl Hls']; subst.
  { cbn. eapply Good_b; [|exact Hs]. intros n _. unfold pending, boundTo. cbn. lia. }
  cbn [clunkStates]. unfold stateAt, onTree, mbind, M_bind. rewrite Hl.
  pose proof (Good_decRef _ _ _ (currentNode fs) Hs) as Hs1.
  apply (Good_b _ (pending fss' base)) in Hs1.
  2: { intros n _. unfold pending, shift. rewrite boundTo_cons. unfold currentNode. lia. }
  cbn [length] in Hlim.
  assert (roomy (pending fss' base) 0) as Hroom.
  { intros n. unfold pending. pose proof (boundTo_le n fss'). pose proof (boundTo_nonneg n fss'). lia. }
  pose proof (Good_lastRef _ 0 s (currentNode fs) _ Hs1 Hroom eq_refl) as Hlast.
  destruct (decRefNode range embeds (currentNode fs) (tree (world s))) as [last t]. cbn [fst snd] in *.
  unfold when. destruct drained; cbn; apply (IH fss'); try done; [lia| |lia].
  apply (Good_emit _ _ (setTree t s) _ Hs1). unfold releaseNow. intros Hr n [Hn|Hn]%elem_of_app.
  - by apply (closes_unused_release _ Hr _ Hn).
  - destruct last; [|by apply not_elem_of_nil in Hn]. apply list_elem_of_singleton in Hn. injection Hn as ->. auto.
Qed.

Lemma cleanupFids_good drained sz s :
  (forall fid, is_Some (m0 !! fid) -> fid ∈ own) -> sz <= lim -> Good base sz s ->
  Good base 0 (cleanupFids range drained s).2.
Proof.
  intros Hown Hsz Hs. pose proof (good_bal _ _ _ Hs) as [Hwf _]. unfold cleanupFids, onTable, mbind, M_bind, clunkAll.
  set (ft := mkFidTable (heap (fids s)) ∅). set (ls := (map_to_list (FidTable.fids (fids s))).*2).
  assert (exists fss, Forall2 (fun l fs => heap (fids s) !! l = Some fs) ls fss) as [fss Hfss].
  { apply Forall_exists_Forall2_l, Forall_forall. intros l Hl. subst ls. apply list_elem_of_fmap in Hl as ([fid l'] & -> & Hl).
    apply elem_of_map_to_list in Hl. by apply (wf_alloc _ Hwf fid). }
  assert (Hperm : fss ≡ₚ (map_to_list (abs (fids s))).*2).
  { rewrite <- snd_map_to_list_abs by done. fold ls. clear Hs Hwf. induction Hfss as [|l fs ls' fss' Hl Hf IH]; [done|].
    cbn. rewrite Hl. by rewrite <- IH. }
  assert (Habs : abs ft = ∅) by (unfold abs; apply omap_empty).
  apply (clunkStates_good drained fss); [done| |].
  - rewrite Hperm, length_fmap, length_map_to_list. pose proof (good_size _ _ _ Hs). lia.
  - apply (Good_rebind base _ sz); [done| | | |].
    + split; intros *; cbn; by rewrite lookup_empty.
    + by rewrite Habs, map_size_empty.
    + intros fid Hf. rewrite Habs, lookup_empty. pose proof (good_frame _ _ _ Hs fid Hf) as Hn.
      destruct (m0 !! fid) eqn:E; [destruct Hf; eauto|]. by destruct (abs (fids s) !! fid).
    + intros n. rewrite Habs, cnt_empty. unfold pending. rewrite cnt_boundTo, (boundTo_perm n _ _ Hperm). lia.
Qed.
End Request.
End RefCount.
