(* ===== verification/MemRequests.v ===== *)
(** * Requests on memory directories

    The handlers of [Namespace] on the file system of [MemTree]: whatever a
    request does to the nodes is a sequence of the critical sections of
    [MemSections], so the tree stays well-formed under any interleaving of
    requests; the answer and the effect of the requests on a directory on
    every branch; and two interleavings that lose or resurrect a file. *)

From S2P Require Import Prelude GoIO Types Errno Proto Messages P9l P9u Message Dirents.
From S2P Require Import Bufpool FidTable Bridge Inode Namespace MemFS MemTree MemSections RefCount.

Section Requests.
Context `{BufPool}.
Context (range : gmap string NodeId -> list (string * NodeId)).
Context (root : NodeId) (msize : Z) (proto : protocol) (maxFids : Z).
#[local] Instance ops : NodeOps Objects Empty_set Empty_set := memOps root.
#[local] Instance caps : Capabilities World NodeId Empty_set Empty_set := memCaps range.
Abbreviation Srv := (@Server World NodeId Empty_set Empty_set).
Abbreviation FS := (fidState NodeId Empty_set Empty_set).

(** ** What a request knows of the nodes it holds

    Facts that no section takes back. *)
Inductive fact : Type :=
  | Exists (n : NodeId)
  | Born (d : NodeId) (name : string) (c : NodeId).

Definition holdsAt (x : State) (f : fact) : Prop :=
  match f with
  | Exists n => (index n < allocated (user x.2))%nat
  | Born d name c => x.1 !! c = Some (d, name)
  end.

Lemma newNode_allocated f w : allocated (user (newNode f w).2) = S (allocated (user w)).
Proof. by destruct f. Qed.

Lemma tryAdd_allocated d name f w : allocated (user (MemDir.tryAdd d name f w).2) = S (allocated (user w)).
Proof.
  pose proof (tryAdd_shape d name f w) as Hs. pose proof (newNode_allocated f w) as Ha.
  destruct (newNode f w) as [c w1]. rewrite Hs. by destruct (_ !! name).
Qed.

Lemma fact_stable x y f : TreeOk x -> section x y -> holdsAt x f -> holdsAt y f.
Proof.
  intros Hok Hs. destruct f as [n|d0 name0 c0]; cbn.
  - destruct Hs as [n' data offset h w|n' attr h w|d name f child h w w' Hd Ht|d name f e h w w' Ht|d name flags h w
      |f child h w w' Ht|d name f child h w w' Hd Ht|d name child h w Hc|d name h w|n' h w|range' n' h w]; cbn; try done.
    + unfold onFile. by destruct (MemFile.Write _ _ _).
    + unfold onFile. by destruct (MemFile.Setattr _ _).
    + pose proof (tryAdd_allocated d name f w) as Ha. rewrite Ht in Ha. cbn in Ha. lia.
    + pose proof (tryAdd_allocated d name f w) as Ha. rewrite Ht in Ha. cbn in Ha. lia.
    + unfold MemDir.Unlink. destruct (_ && _); [done|]. by destruct (RemoveChildIf _ _ _ _).
    + pose proof (newNode_allocated f w) as Ha. rewrite Ht in Ha. cbn in Ha. lia.
    + pose proof (newNode_allocated f w) as Ha. unfold MemDir.add in Ht. destruct (newNode f w). injection Ht as <- <-. cbn in *. lia.
  - assert (Hnew : forall h w f c w1, TreeOk (h, w) -> newNode f w = (c, w1) -> h !! c0 = Some (d0, name0) -> c0 <> c).
    { intros h w f c w1 Hok' En Hh ->. destruct (newNode_spec h f w c w1 Hok' En) as (_ & Hc & _). congruence. }
    destruct Hs as [n' data offset h w|n' attr h w|d name f child h w w' Hd Ht|d name f e h w w' Ht|d name flags h w
      |f child h w w' Ht|d name f child h w w' Hd Ht|d name child h w Hc|d name h w|n' h w|range' n' h w]; cbn; try done; intros Hh.
    + pose proof (tryAdd_shape d name f w) as E. destruct (newNode f w) as [c w1] eqn:En. rewrite Ht in E.
      destruct (_ !! name); [done|]. injection E as -> ->. rewrite lookup_insert_ne; [done|]. intros <-. by eapply Hnew.
    + unfold MemDir.add in Ht. destruct (newNode f w) as [c w1] eqn:En. injection Ht as -> _.
      rewrite lookup_insert_ne; [done|]. intros <-. by eapply Hnew.
Qed.

(** ** The invariant of a request *)
Section Run.
Context (x0 : State) (Hx0 : TreeOk x0).

(** The nodes got here from [x0] by sections, every fid is bound to a node
    that exists, and the facts hold. *)
Definition Run (fs : list fact) (s : Srv) : Prop :=
  exists h, rtc section x0 (h, world s) /\
    (forall l fst, heap (fids s) !! l = Some fst -> (index (node fst) < allocated (user (world s)))%nat) /\
    Forall (holdsAt (h, world s)) fs.

Lemma Run_fact fs f s : Run (f :: fs) s -> Run fs s.
Proof. intros (h & Hr & Hh & Hf). exists h. split_and!; [done..|]. by inversion Hf. Qed.

Lemma Run_facts fs fs' s : fs' ⊆ fs -> Run fs s -> Run fs' s.
Proof.
  intros Hsub (h & Hr & Hh & Hf). exists h. split_and!; [done..|]. rewrite Forall_forall in *. auto.
Qed.

Lemma facts_stable fs x y : TreeOk x -> rtc section x y -> Forall (holdsAt x) fs -> Forall (holdsAt y) fs.
Proof.
  intros Hok Hr. revert Hok. induction Hr as [|x y z Hxy _ IH]; [done|]. intros Hok Hf.
  apply IH; [by eapply section_TreeOk|]. eapply Forall_impl; [exact Hf|]. intros f. by apply fact_stable.
Qed.

(** From one world to the next: with the node it makes, if any. *)
Lemma Run_sections fs fs' s w :
  Run fs s ->
  (forall h, TreeOk (h, world s) -> Forall (holdsAt (h, world s)) fs ->
     exists h', rtc section (h, world s) (h', w) /\ Forall (holdsAt (h', w)) fs') ->
  Run (fs' ++ fs) (setWorld w s).
Proof.
  intros (h & Hr & Hh & Hf) Hw. assert (Hok : TreeOk (h, world s)) by (by eapply sections_TreeOk).
  destruct (Hw h Hok Hf) as (h' & Hs & Hf'). exists h'. split_and!.
  - by etrans.
  - intros l fst Hl. apply (Hh l) in Hl.
    pose proof (facts_stable [Exists (node fst)] _ _ Hok Hs) as Hst. rewrite !Forall_singleton in Hst. by apply Hst.
  - apply Forall_app. split; [done|]. by eapply facts_stable.
Qed.

Definition acts {A} (f : M World A) : Prop := forall h w, rtc section (h, w) (h, (f w).2).

Lemma run_call {A} fs (f : M World A) : acts f -> keeps (Run fs) (call f).
Proof.
  intros Hf s Hs. unfold call. specialize (fun h => Hf h (world s)). destruct (f (world s)) as [r w]. cbn in Hf.
  assert (Run fs (setWorld w s)) as Hr by (apply (Run_sections fs [] s w Hs); intros h _ _; exists h; by split).
  by destruct r.
Qed.

Lemma run_onTree {A} fs (f : Tree -> A * Tree) :
  (forall h w, rtc section (h, w) (h, onTreeOf (fun t => (f t).2) w)) -> keeps (Run fs) (onTree f).
Proof.
  intros Hf s Hs. unfold onTree. specialize (fun h => Hf h (world s)). unfold onTreeOf in Hf.
  destruct (f (tree (world s))) as [a t]. cbn in Hf. apply (Run_sections fs [] s _ Hs). intros h _ _. exists h. by split.
Qed.

Lemma run_modTree fs f :
  (forall h w, rtc section (h, w) (h, onTreeOf f w)) -> keeps (Run fs) (modTree f).
Proof. intros Hf. by apply run_onTree. Qed.

Lemma world_eta (w : World) : mkNS (tree w) (user w) = w.
Proof. by destruct w. Qed.

Lemma run_viewTree {A} fs (f : Tree -> A) : keeps (Run fs) (viewTree f).
Proof. apply run_onTree. intros h w. unfold onTreeOf. cbn. by rewrite world_eta. Qed.

Lemma run_emit fs evs : keeps (Run fs) (emit evs).
Proof. by intros s Hs. Qed.

Lemma run_incRef fs n : keeps (Run fs) (modTree (incRefNode embeds n)).
Proof. apply run_modTree. intros h w. apply rtc_once, sec_incRef. Qed.

Lemma run_decRef fs n : keeps (Run fs) (onTree (decRefNode range embeds n)).
Proof. apply run_onTree. intros h w. apply rtc_once, (sec_decRef range). Qed.

Lemma run_remove fs d name : keeps (Run fs) (modTree (RemoveChild d name)).
Proof. apply run_modTree. intros h w. apply rtc_once, sec_remove. Qed.

Lemma run_register fs d name c :
  Born d name c ∈ fs -> keeps (Run fs) (modTree (registerChild embeds d c name)).
Proof.
  intros Hb s Hs. cbn. apply (Run_sections fs [] s _ Hs). intros h _ Hf. exists h. split; [|done].
  rewrite Forall_forall in Hf. apply rtc_once, sec_register. exact (Hf _ Hb).
Qed.

(** A method that makes a child of a directory. *)
Lemma run_tryAdd fs d name f :
  typeOf d = TMemDir -> Exists d ∈ fs ->
  hoare (Run fs) (call (MemDir.tryAdd d name f)) (fun c => Run (Born d name c :: Exists c :: fs)) (Run []).
Proof.
  intros Hd He s Hs. unfold call. destruct (MemDir.tryAdd d name f (world s)) as [[c|e] w] eqn:Et.
  - apply (Run_sections fs [Born d name c; Exists c] s w Hs). intros h Hok Hf. rewrite Forall_forall in Hf.
    exists (<[c := (d, name)]> h). assert (section (h, world s) (<[c := (d, name)]> h, w)) as Hsec.
    { eapply sec_tryAdd; [|exact Et]. split; [done|exact (Hf _ He)]. }
    split; [by apply rtc_once|]. assert (Hc : <[c := (d, name)]> h !! c = Some (d, name)) by apply lookup_insert_eq.
    rewrite Forall_cons, Forall_singleton. split; [exact Hc|]. destruct (section_TreeOk _ _ Hsec Hok) as [_ Hh Hi _ _ _].
    cbn in *. by apply Hi, (Hh c d name).
  - apply (Run_facts fs); [set_solver|].
    apply (Run_sections fs [] s w Hs). intros h _ _. exists h. split; [|done]. by eapply rtc_once, sec_exists.
Qed.

Lemma run_Create fs d name flags mode gid :
  typeOf d = TMemDir -> Exists d ∈ fs ->
  hoare (Run fs) (call (@MemDir.Create Empty_set d name flags mode gid))
    (fun r => Run (Born d name r.1.1 :: Exists r.1.1 :: fs)) (Run []).
Proof.
  intros Hd He s Hs. pose proof (run_tryAdd fs d name (FMemFile (MemFile.NewFileWithMode [] mode)) Hd He s Hs) as Ht.
  unfold call, MemDir.Create, mbind, M_bind in *.
  by destruct (MemDir.tryAdd d name _ (world s)) as [[c|e] w].
Qed.

(** ** The fid table *)

Lemma Run_table fs s ft :
  (forall l fst, heap ft !! l = Some fst -> (exists fst', heap (fids s) !! l = Some fst' /\ node fst' = node fst) \/
     Exists (node fst) ∈ fs) ->
  Run fs s -> Run fs (mkServer ft (world s) (released s)).
Proof.
  intros Hft (h & Hr & Hh & Hf). exists h. split_and!; [done| |done]. cbn. intros l fst Hl.
  destruct (Hft l fst Hl) as [(fst' & Hl' & <-)|He]; [eauto|]. rewrite Forall_forall in Hf. exact (Hf _ He).
Qed.

(** [modify]: the state at [l] keeps its node or gets one that exists. *)
Lemma Run_modify fs s l f :
  (forall fst, heap (fids s) !! l = Some fst -> node (f fst) = node fst \/ Exists (node (f fst)) ∈ fs) ->
  Run fs s -> Run fs (mkServer (modify l f (fids s)) (world s) (released s)).
Proof.
  intros Hf. apply Run_table. intros l' fst. cbn. rewrite lookup_alter. case_decide as E; [subst l'|by eauto].
  intros (fst0 & Hl & ->)%fmap_Some. destruct (Hf fst0 Hl); eauto.
Qed.

Lemma Run_setFs fs s l fst fst' :
  fsAt l s = Some fst -> node fst' = node fst -> Run fs s -> Run fs (setFs l fst' s).
Proof. intros Hl Hn. apply Run_modify. unfold fsAt in Hl. intros fst0 Hl0. left. congruence. Qed.

Lemma run_stateAt {B} fs l (k : FS -> M Srv B) Q (R : Srv -> Prop) :
  (forall fst, hoare (fun s => fsAt l s = Some fst /\ Run (Exists (node fst) :: fs) s) (k fst) Q R) ->
  (forall s, Run fs s -> R s) -> hoare (Run fs) (stateAt l ≫= k) Q R.
Proof.
  intros Hk HR s Hs. unfold stateAt, mbind, M_bind. destruct (fsAt l s) as [fst|] eqn:E; [|by apply HR].
  apply Hk. split; [done|]. destruct Hs as (h & Hr & Hh & Hf). exists h. split_and!; [done..|]. constructor; [|done].
  exact (Hh l fst E).
Qed.

(** The node of a fid state, which exists. *)
Lemma run_nodeAt {B} fs l (k : NodeId -> M Srv B) Q (R : Srv -> Prop) :
  (forall n, hoare (Run (Exists n :: fs)) (k n) Q R) -> (forall s, Run fs s -> R s) ->
  hoare (Run fs) (nodeAt l ≫= k) Q R.
Proof.
  intros Hk HR. unfold nodeAt. intros s Hs.
  pose proof (run_stateAt fs l (fun fst => k (currentNode fst)) Q R) as Hst.
  assert (((fst ← stateAt l; mret (currentNode fst)) ≫= k) s = (fst ← stateAt l; k (currentNode fst)) s) as ->.
  { unfold mbind, M_bind, stateAt. by destruct (fsAt l s). }
  apply Hst; [|done|done]. intros fst s0 [_ Hs0]. by apply Hk.
Qed.

Lemma addFid_run fs fid fst :
  Exists (node fst) ∈ fs -> keeps (Run fs) (addFid maxFids fid fst).
Proof.
  intros He. unfold addFid. apply keeps_bind.
  - intros s Hs. unfold onTable, FidTable.alloc, add. cbn -[fresh]. set (l := fresh (dom (heap (fids s)))).
    assert (forall m, Run fs (mkServer (mkFidTable (<[l := fst]> (heap (fids s))) m) (world s) (released s))) as Hm.
    { intros m. apply Run_table; [|done]. cbn. intros l' fst' [[<- <-]|[_ Hl]]%lookup_insert_Some; [by right|left; eauto]. }
    destruct (_ && _); [apply Hm|]. destruct (_ !! fid); apply Hm.
  - intros [?|?]; [|apply keeps_ret]. apply keeps_bind; [apply run_incRef|intros ?; apply keeps_ret].
Qed.

Lemma bindFid_run fs fid fst : Exists (node fst) ∈ fs -> keeps (Run fs) (bindFid maxFids fid fst).
Proof. intros He. apply keeps_bind; [by apply addFid_run|]. intros [e|]; [apply keeps_fail|apply keeps_ret]. Qed.

Lemma takeFid_run fs fid : keeps (Run fs) (takeFid fid).
Proof.
  apply keeps_bind; [|intros [l|]; [apply keeps_ret|apply keeps_fail]]. intros s Hs. unfold onTable, clunk.
  destruct (_ !! fid); apply Run_table; cbn; try done; eauto.
Qed.

Lemma update_run fs fid n p : Exists n ∈ fs -> keeps (Run fs) (onTable (update fid n p)).
Proof.
  intros He s Hs. unfold onTable, update. destruct (_ !! fid) as [l|]; [|by destruct s].
  destruct (heap _ !! l) as [fst|] eqn:E; [|by destruct s]. apply Run_modify; [|done]. by right.
Qed.

Lemma markOpened_run fs fid hd : keeps (Run fs) (onTable (markOpenedWithHandle fid hd)).
Proof.
  intros s Hs. unfold onTable, markOpenedWithHandle. destruct (_ !! fid) as [l|]; [|by destruct s].
  destruct (heap _ !! l) as [fst|] eqn:E; [|by destruct s]. case_decide; [|by destruct s]. apply Run_modify; [|done]. by left.
Qed.

Lemma updateAndOpen_run fs fid n hd : Exists n ∈ fs -> keeps (Run fs) (onTable (updateAndOpen fid n hd)).
Proof.
  intros He s Hs. unfold onTable, updateAndOpen. destruct (_ !! fid) as [l|]; [|by destruct s].
  destruct (heap _ !! l) as [fst|] eqn:E; [|by destruct s]. case_decide; [|by destruct s]. apply Run_modify; [|done]. by right.
Qed.

Lemma closeUnboundNode_run fs n : keeps (Run fs) (closeUnboundNode n).
Proof. apply keeps_bind; [apply run_viewTree|]. intros r. destruct (_ && _); [apply keeps_ret|apply run_emit]. Qed.

Lemma finishClunkNow_run fs l cn : keeps (Run fs) (finishClunkNow l cn).
Proof.
  intros s Hs. unfold finishClunkNow. destruct (fsAt l s) as [fst|] eqn:E; [|done].
  destruct (finishClunk cn fst) as [r fst'] eqn:Ef. apply run_emit. eapply Run_setFs; [exact E| |done].
  unfold finishClunk in Ef. injection Ef as _ <-. done.
Qed.

(** ** The methods *)

Lemma acts_enosys {A} : acts (@enosys A).
Proof. intros h w. done. Qed.
Lemma acts_pure {A} (r : World -> result A) : acts (fun w => (r w, w)).
Proof. intros h w. done. Qed.
Lemma acts_unlink d name flags : acts (MemDir.Unlink d name flags).
Proof. intros h w. apply rtc_once, sec_unlink. Qed.
Lemma acts_setattr n attr : acts (onFile n (MemFile.Setattr attr)).
Proof. intros h w. apply rtc_once, sec_setattr. Qed.
Lemma acts_write n data offset : acts (onFile n (MemFile.Write data offset)).
Proof. intros h w. apply rtc_once, sec_write. Qed.

(** ** The handlers *)

Definition runs {A} (fs : list fact) (m : M Srv A) : Prop := hoare (Run fs) m (fun _ => Run []) (Run []).

Lemma runs_end {A} fs (m : M Srv A) : keeps (Run fs) m -> runs fs m.
Proof. intros Hm. eapply hoare_conseq; [exact Hm|done|intros ?|]; intros s; apply Run_facts; set_solver. Qed.

Lemma runs_bind {A B} fs (m : M Srv A) (k : A -> M Srv B) :
  keeps (Run fs) m -> (forall a, runs fs (k a)) -> runs fs (m ≫= k).
Proof. intros Hm Hk. apply hoare_keep; [done| |done]. intros s. apply Run_facts. set_solver. Qed.

Lemma runs_then {A B} fs (m : M Srv A) (k : A -> M Srv B) :
  runs fs m -> (forall a, runs [] (k a)) -> runs fs (m ≫= k).
Proof. intros Hm Hk. by eapply hoare_bind. Qed.

Lemma runs_nodeAt {B} fs l (k : NodeId -> M Srv B) : (forall n, runs (Exists n :: fs) (k n)) -> runs fs (nodeAt l ≫= k).
Proof. intros Hk. apply run_nodeAt; [done|]. intros s. apply Run_facts. set_solver. Qed.

Lemma runs_stateAt {B} fs l (k : FS -> M Srv B) :
  (forall fst, runs (Exists (node fst) :: fs) (k fst)) -> runs fs (stateAt l ≫= k).
Proof.
  intros Hk. apply run_stateAt; [|intros s; apply Run_facts; set_solver]. intros fst s [_ Hs]. by apply Hk.
Qed.

Lemma runs_capability {A B} fs (o : option A) (k : A -> M Srv B) :
  (forall a, o = Some a -> runs fs (k a)) -> runs fs (capability o ≫= k).
Proof. intros Hk. apply hoare_capability; [done|]. intros s. apply Run_facts. set_solver. Qed.

Lemma runs_ret {A B} fs (a : A) (k : A -> M Srv B) : runs fs (k a) -> runs fs (mret a ≫= k).
Proof. done. Qed.

(** Nothing follows a method that is not there. *)
Lemma runs_enosys {A B} fs (k : A -> M Srv B) : runs fs (call enosys ≫= k).
Proof. intros s Hs. cbn. destruct s as [ft [t u] rel]. cbn. by eapply Run_facts; [|exact Hs]; set_solver. Qed.

Lemma runs_respond fs (h : M Srv Message) s : runs fs h -> Run fs s -> Run [] (respond proto h s).2.
Proof. apply respond_good. Qed.

(** What a type assertion yields. *)
Ltac method_of :=
  match goal with
  | E : _ = Some ?f |- _ => is_var f; cbn in E; unfold ifType in E; injection E as <-; cbn beta;
      try match goal with |- context [decide (typeOf ?n = ?k)] => destruct (decide (typeOf n = k)) end; cbn beta iota
  end.

Ltac keeps_run :=
  lazymatch goal with
  | |- keeps _ (mret _) => apply keeps_ret
  | |- keeps _ (throw _) => apply keeps_throw
  | |- keeps _ (fail _) => apply keeps_fail
  | |- keeps _ (guard_ _ _) => apply keeps_guard
  | |- keeps _ (getFid _) => apply keeps_getFid
  | |- keeps _ (stateAt _) => apply keeps_stateAt
  | |- keeps _ (nodeAt _) => apply keeps_nodeAt
  | |- keeps _ (qidOf _) => apply keeps_qidOf
  | |- keeps _ (viewTree _) => apply run_viewTree
  | |- keeps _ (modTree (RemoveChild _ _)) => apply run_remove
  | |- keeps _ (modTree (incRefNode _ _)) => apply run_incRef
  | |- keeps _ (onTree (decRefNode _ _ _)) => apply run_decRef
  | |- keeps _ (modTree (registerChild _ _ _ _)) => apply run_register; set_solver
  | |- keeps _ (emit _) => apply run_emit
  | |- keeps _ (closeOrphanNode _) => apply run_emit
  | |- keeps _ (closeUnboundNode _) => apply closeUnboundNode_run
  | |- keeps _ (finishClunkNow _ _) => apply finishClunkNow_run
  | |- keeps _ (takeFid _) => apply takeFid_run
  | |- keeps _ (addFid _ _ _) => apply addFid_run; set_solver
  | |- keeps _ (bindFid _ _ _) => apply bindFid_run; set_solver
  | |- keeps _ (onTable (update _ _ _)) => apply update_run; set_solver
  | |- keeps _ (onTable (markOpenedWithHandle _ _)) => apply markOpened_run
  | |- keeps _ (onTable (updateAndOpen _ _ _)) => apply updateAndOpen_run; set_solver
  | |- keeps _ (mbind _ (capability _)) => apply keeps_capability; intros ? ?; try method_of
  | |- keeps _ (mbind _ _) => apply keeps_bind; [|intros ?]
  | |- keeps _ (attempt _) => apply keeps_attempt
  | |- keeps _ (when _ _) => apply keeps_when
  | |- keeps _ (match ?x with _ => _ end) => destruct x eqn:?
  | |- keeps _ (let x := _ in _) => cbv zeta
  | |- keeps _ (call enosys) => apply run_call, acts_enosys
  | |- keeps _ (call (Lock noLock _ _ _ _ _ _)) => apply run_call, acts_enosys
  | |- keeps _ (call (GetLock noLock _ _ _ _ _)) => apply run_call, acts_enosys
  | |- keeps _ (call (MemDir.Unlink _ _ _)) => apply run_call, acts_unlink
  | |- keeps _ (call (onFile _ (MemFile.Setattr _))) => apply run_call, acts_setattr
  | |- keeps _ (call (match typeOf ?n with _ => _ end)) => destruct (typeOf n)
  | |- keeps _ (call (MemDir.Getattr _ _)) => apply run_call, acts_pure
  | |- keeps _ (call (Open _)) => apply run_call; intros ? ?; done
  | |- keeps _ (onTable (fun ft => (_, ft))) => by intros [] ?
  | |- keeps _ (call (fun w => (_, w))) => apply run_call, acts_pure
  end.

Ltac runs_step :=
  lazymatch goal with
  | |- runs _ (mbind _ (nodeAt _)) => apply runs_nodeAt; intros ?
  | |- runs _ (mbind _ (stateAt _)) => apply runs_stateAt; intros ?
  | |- runs _ (mbind _ (capability _)) => apply runs_capability; intros ? ?; try method_of
  | |- runs _ (mbind _ (call enosys)) => apply runs_enosys
  | |- runs _ (mbind _ _) => apply runs_bind; [|intros ?]
  | |- runs _ (match ?x with _ => _ end) => destruct x eqn:?
  | |- runs _ (let x := _ in _) => cbv zeta
  | |- runs _ _ => apply runs_end
  | |- _ => keeps_run
  end.
Ltac runs_all := repeat runs_step.

Lemma handleStatfs_run m s : Run [] s -> Run [] (handleStatfs proto m s).2.
Proof. apply runs_respond. runs_all. Qed.
Lemma handleReadlink_run m s : Run [] s -> Run [] (handleReadlink proto m s).2.
Proof. apply runs_respond. runs_all. Qed.
Lemma handleUnlinkat_run m s : Run [] s -> Run [] (handleUnlinkat proto m s).2.
Proof. apply runs_respond. runs_all. Qed.
Lemma handleRename_run m s : Run [] s -> Run [] (handleRename range proto m s).2.
Proof. apply runs_respond. runs_all. Qed.
Lemma handleRenameat_run m s : Run [] s -> Run [] (handleRenameat proto m s).2.
Proof. apply runs_respond. runs_all. Qed.
Lemma handleLink_run m s : Run [] s -> Run [] (handleLink proto m s).2.
Proof. apply runs_respond. runs_all. Qed.
Lemma handleSetattr_run m s : Run [] s -> Run [] (handleSetattr proto m s).2.
Proof. apply runs_respond. runs_all. Qed.
Lemma handleGetattr_run m s : Run [] s -> Run [] (handleGetattr proto m s).2.
Proof. apply runs_respond. runs_all. Qed.
Lemma handleUStat_run m s : Run [] s -> Run [] (handleUStat proto m s).2.
Proof. apply runs_respond. runs_all. Qed.
Lemma openFid_run fid flags : runs [] (openFid msize fid flags).
Proof. unfold openFid. runs_all. Qed.
Lemma handleLopen_run m s : Run [] s -> Run [] (handleLopen msize proto m s).2.
Proof. apply runs_respond. apply runs_then; [apply openFid_run|intros [qid iounit]]. runs_all. Qed.
Lemma handleUOpen_run m s : Run [] s -> Run [] (handleUOpen msize proto m s).2.
Proof.
  apply runs_respond. apply runs_capability. intros flags _.
  apply runs_then; [apply openFid_run|intros [qid iounit]]. runs_all.
Qed.

Lemma createFid_run fid name flags mode gid : runs [] (createFid range msize fid name flags mode gid).
Proof.
  unfold createFid, currentNode. do 5 runs_step; [keeps_run..| |apply runs_enosys].
  eapply hoare_bind; [apply run_Create; [done|set_solver]|intros [[child hd] hint]]. cbn beta iota.
  match goal with |- hoare (Run ?fs) ?m _ _ => change (runs fs m) end. runs_all.
Qed.

Lemma handleLcreate_run m s : Run [] s -> Run [] (handleLcreate range msize proto m s).2.
Proof. apply runs_respond. apply runs_then; [apply createFid_run|intros [qid iounit]]. runs_all. Qed.
Lemma handleUCreate_run m s : Run [] s -> Run [] (handleUCreate range msize proto m s).2.
Proof.
  apply runs_respond. apply runs_capability. intros flags _. apply runs_bind; [keeps_run|intros ?].
  apply runs_then; [apply createFid_run|intros [qid iounit]]. runs_all.
Qed.

(** The node read before and after the call is the same. *)
Lemma hoare_nodeAt_tab {B} P ft l fst (k : NodeId -> M Srv B) Q R :
  heap ft !! l = Some fst -> hoare (fun s => P s /\ tableIs ft s) (k (node fst)) Q R ->
  hoare (fun s => P s /\ tableIs ft s) (nodeAt l ≫= k) Q R.
Proof.
  intros Hl Hk s [Hs Ht]. specialize (Hk s (conj Hs Ht)). unfold tableIs in Ht.
  unfold nodeAt, stateAt, fsAt, mbind, M_bind. rewrite Ht, Hl. exact Hk.
Qed.

Lemma hoare_call_tab {A} P (f : M World A) ft Q (R : Srv -> Prop) :
  hoare P (call f) Q R -> hoare (fun s => P s /\ tableIs ft s) (call f) (fun a s => Q a s /\ tableIs ft s) R.
Proof.
  intros Hf s [Hs Ht]. specialize (Hf s Hs). pose proof (tableIs_call ft f s Ht) as Ht'.
  by destruct (call f s) as [[a|e] s'].
Qed.

Lemma Run_alive fs s l fst : Run fs s -> heap (fids s) !! l = Some fst -> Run (Exists (node fst) :: fs) s.
Proof. intros (h & Hr & Hh & Hf) Hl. exists h. split_and!; [done..|]. constructor; [exact (Hh l fst Hl)|done]. Qed.

Lemma handleMkdir_run m s : Run [] s -> Run [] (handleMkdir proto m s).2.
Proof.
  apply runs_respond. apply runs_then; [|intros qid; runs_all]. unfold makeChild.
  apply hoare_table. intros ft. apply hoare_getFid; [intros l _|done]. apply hoare_guard; [intros _|by intros ? []].
  destruct (heap ft !! l) as [fst|] eqn:Hl.
  2:{ intros s0 [Hs0 Ht]. unfold tableIs in Ht. unfold nodeAt, stateAt, fsAt, mbind, M_bind. by rewrite Ht, Hl. }
  apply (hoare_nodeAt_tab _ _ _ _ _ _ _ Hl). apply hoare_capability; [|by intros ? []].
  intros mk Hmk. cbn in Hmk. injection Hmk as <-. apply (hoare_conseq _ _ (fun s => Run [Exists (node fst)] s /\ tableIs ft s)
    _ (fun _ => Run []) _ (Run [])); [|intros s0 [Hs0 Ht]; split; [eapply Run_alive; [done|by rewrite Ht]|done]|done|done].
  case_decide; [|intros s0 [Hs0 _]; by apply (runs_enosys [Exists (node fst)])].
  eapply hoare_bind; [apply hoare_call_tab, run_tryAdd; [done|set_solver]|intros child; cbn beta].
  apply (hoare_nodeAt_tab _ _ _ _ _ _ _ Hl).
  apply (hoare_conseq _ _ (Run [Born (node fst) (Tmkdir.Name m) child; Exists child; Exists (node fst)])
    _ (fun _ => Run []) _ (Run [])); [|by intros ? []|done|done].
  match goal with |- hoare (Run ?fs) ?m _ _ => change (runs fs m) end. runs_all.
Qed.

Lemma handleSymlink_run m s : Run [] s -> Run [] (handleSymlink proto m s).2.
Proof.
  apply runs_respond. apply runs_then; [|intros qid; runs_all]. unfold makeChild. do 3 runs_step; [keeps_run..|].
  apply runs_capability. intros mk Hmk. cbn in Hmk. injection Hmk as <-. apply runs_enosys.
Qed.
Lemma handleMknod_run m s : Run [] s -> Run [] (handleMknod proto m s).2.
Proof.
  apply runs_respond. apply runs_then; [|intros qid; runs_all]. unfold makeChild. do 3 runs_step; [keeps_run..|].
  apply runs_capability. intros mk Hmk. cbn in Hmk. injection Hmk as <-. apply runs_enosys.
Qed.

(** *** Fids *)

Context (Hroot : holdsAt x0 (Exists root)).

Lemma Run_root fs s : Run fs s -> Run (Exists root :: fs) s.
Proof.
  intros (h & Hr & Hh & Hf). exists h. split_and!; [done..|]. constructor; [|done].
  pose proof (facts_stable [Exists root] _ _ Hx0 Hr) as Hst. rewrite !Forall_singleton in Hst. by apply Hst.
Qed.

Lemma handleAttach_run ta s : Run [] s -> Run [] (handleAttach proto maxFids ta s).2.
Proof.
  intros Hs%Run_root. revert Hs. apply runs_respond. apply runs_bind; [keeps_run|intros ?].
  change (attachNode ta) with (mret root : M Srv NodeId). apply runs_ret. runs_all.
Qed.

Lemma walkLoop_run first walkStart current qids names :
  hoare (Run [Exists current]) (walkLoop first walkStart current qids names) (fun r => Run [Exists r.1]) (Run []).
Proof.
  revert first current qids. induction names as [|name names IH]; intros first current qids; cbn [walkLoop].
  { by apply hoare_ret. }
  assert (Hpartial : forall e, hoare (Run [Exists current])
    (if first then throw e else mret (current, qids)) (fun r => Run [Exists r.1]) (Run [])).
  { intros e. destruct first; [apply hoare_throw; intros s; apply Run_facts; set_solver|by apply hoare_ret]. }
  apply hoare_keep; [keeps_run|intros s; apply Run_facts; set_solver|intros qid]. cbv zeta.
  destruct (_ =? 0); [apply Hpartial|]. cbn -[Lookup].
  (* a child that is found is initialised, so it exists *)
  apply (hoare_bind _ _ _ (fun r => match r with Ok c => Run [Exists c; Exists current] | Err _ => Run [Exists current] end)).
  { intros s Hs. unfold attempt, call, Lookup. destruct (Children current (tree (world s)) !! name) as [c|] eqn:Ec; [|by destruct s].
    destruct (inited _) eqn:Ei; [|by destruct s]. cbn. destruct Hs as (h & Hr & Hh & Hf). exists h. split_and!; [done..|].
    constructor; [|done]. destruct (sections_TreeOk _ _ Hr Hx0) as [_ _ Hi _ _ _]. by apply (Hi c). }
  intros [c|e]; [|apply Hpartial].
  apply hoare_keep; [keeps_run|intros s; apply Run_facts; set_solver|intros q].
  apply hoare_keep; [repeat keeps_run|intros s; apply Run_facts; set_solver|intros _].
  eapply hoare_conseq; [apply IH|intros s; apply Run_facts; set_solver|done|done].
Qed.

Lemma walkClone_run l tw : runs [] (walkClone maxFids l tw).
Proof. unfold walkClone, nodeAndPath. runs_all. Qed.

Lemma walkBind_run l tw walkStart current : runs [Exists current] (walkBind range maxFids l tw walkStart current).
Proof. unfold walkBind. runs_all. Qed.

Lemma handleWalk_run tw s : Run [] s -> Run [] (handleWalk range proto maxFids tw s).2.
Proof.
  apply runs_respond. runs_step; [keeps_run|]. destruct (Twalk.Names tw) as [|name names]; [apply walkClone_run|].
  cbv zeta. runs_step; [keeps_run|]. apply runs_nodeAt. intros walkStart.
  eapply hoare_bind; [apply walkLoop_run|intros [current qids]; cbn [fst]].
  match goal with |- hoare (Run ?fs) ?m _ _ => change (runs fs m) end.
  destruct (_ =? _)%nat; [|runs_all]. apply runs_then; [apply walkBind_run|]. intros ?. runs_all.
Qed.

Lemma commitXattr_run fs fst : keeps (Run fs) (commitXattr fst).
Proof.
  unfold commitXattr. destruct (xattrWriter fst) as [[]|]. destruct (xattrNode fst) as [n|]; repeat first [keeps_run | method_of | done].
Qed.

Lemma handleClunk_run tc s : Run [] s -> Run [] (handleClunk range proto tc s).2.
Proof.
  apply runs_respond. runs_step; [keeps_run|]. apply run_stateAt; [|done]. intros fst.
  apply (hoare_bind _ _ _ (fun _ s => fsAt a s = Some fst /\ Run [] s)).
  { intros s0 [Hl Hs0]. apply (Run_facts _ []) in Hs0; [|set_solver]. pose proof (run_decRef [] (currentNode fst) s0 Hs0) as Hd.
    unfold onTree in *. by destruct (decRefNode _ _ _ _) as [last t]. }
  intros last. case_decide.
  - apply (hoare_bind _ _ _ (fun _ => Run [])); [|intros ?; apply commitXattr_run].
    intros s0 [Hl Hs0]. by eapply Run_setFs.
  - intros s0 [_ Hs0]. revert s0 Hs0. match goal with |- forall s0, Run [] s0 -> let '(r, s') := ?m s0 in _ => change (runs [] m) end.
    runs_all.
Qed.

Lemma handleRemove_run tr s : Run [] s -> Run [] (handleRemove range proto tr s).2.
Proof. apply runs_respond. unfold removeViaInodeTree. runs_all. Qed.

(** *** Extended attributes *)

Lemma rewriteFs_run fs l f :
  (forall fst, node (f fst) = node fst) ->
  keeps (Run fs) (fun s : Srv => match fsAt l s with None => (Ok tt, s) | Some fst => (Ok tt, setFs l (f fst) s) end).
Proof. intros Hf s Hs. destruct (fsAt l s) as [fst|] eqn:E; [|done]. by eapply Run_setFs. Qed.

Lemma handleXattrwalk_run m s : Run [] s -> Run [] (handleXattrwalk proto maxFids m s).2.
Proof.
  apply runs_respond. do 2 runs_step; [keeps_run..|]. change (RawXattrer n) with (@None (RawXattrOps World Empty_set)). cbv zeta iota.
  case_decide; apply runs_capability; intros f Hf; cbn in Hf; injection Hf as <-; apply runs_enosys.
Qed.

Lemma handleXattrcreate_run m s : Run [] s -> Run [] (handleXattrcreate msize proto m s).2.
Proof.
  apply runs_respond. do 4 runs_step; [keeps_run..|]. cbv zeta. apply runs_nodeAt. intros n.
  change (RawXattrer n) with (@None (RawXattrOps World Empty_set)). cbv iota.
  apply runs_bind; [|intros ?; apply runs_bind; [by apply rewriteFs_run|intros ?; runs_all]].
  destruct (_ =? 0); repeat keeps_run.
Qed.

(** *** Requests on an open fid *)

Lemma withIO_run l k s :
  (forall fst s1, fsAt l s1 = Some fst -> Run [] s1 -> Run [] (k fst s1).2) ->
  Run [] s -> Run [] (withIO proto l k s).2.
Proof.
  intros Hk Hs. unfold withIO. destruct (fsAt l s) as [fst|] eqn:Hl; [|done].
  unfold beginIO. destruct (closing fst); [done|]. set (fst1 := set_io _ fst).
  assert (Run [] (setFs l fst1 s)) as Hs1 by (by eapply Run_setFs).
  assert (fsAt l (setFs l fst1 s) = Some fst1) as Hl1 by (by eapply setFs_fsAt).
  specialize (Hk fst1 _ Hl1 Hs1). destruct (k _ _) as [r s2]. cbn in Hk.
  destruct (fsAt l s2) as [fst2|] eqn:Hl2; [|done]. destruct (endIO fst2) as [rel fst3] eqn:Ee.
  apply (run_emit [] _ (setFs l fst3 s2)). eapply Run_setFs; [done| |done].
  unfold endIO in Ee. destruct (_ && _); by injection Ee as _ <-.
Qed.

Lemma onOpen_run fid body s :
  (forall fst, runs [Exists (node fst)] (body fst)) -> Run [] s -> Run [] (onOpen proto fid body s).2.
Proof.
  intros Hb Hs. unfold onOpen. destruct (get (fids s) fid) as [l|]; [|done]. destruct (fsAt l s); [|done].
  case_decide; [done|]. apply withIO_run; [|done]. intros fst s1 Hl Hs1.
  eapply runs_respond; [apply Hb|]. by eapply Run_alive.
Qed.

Lemma onHandle_none {A} (cap : Empty_set -> option A) (fst : FS) : onHandle cap fst = None.
Proof. unfold onHandle. by destruct (handle fst) as [[]|]. Qed.

Lemma handleFsync_run m s : Run [] s -> Run [] (handleFsync proto m s).2.
Proof. apply onOpen_run. intros fst. rewrite onHandle_none. runs_all. Qed.
Lemma handleLock_run m s : Run [] s -> Run [] (handleLock proto m s).2.
Proof. apply onOpen_run. intros fst. unfold lockerOf. rewrite onHandle_none. runs_all. Qed.
Lemma handleGetlock_run m s : Run [] s -> Run [] (handleGetlock proto m s).2.
Proof. apply onOpen_run. intros fst. unfold lockerOf. rewrite onHandle_none. runs_all. Qed.

Lemma fillResponse_run mk count offset read s :
  (forall buf w, (read buf offset w).2 = w) -> Run [] s -> Run [] (fillResponse proto mk count offset read s).2.
Proof.
  intros Hr Hs. unfold fillResponse, fillPooled. set (buf := take _ _). specialize (Hr buf (world s)).
  destruct s as [ft w rel]. cbn in Hr. destruct (read _ _ _) as [[[n|e] buf'] w']; cbn in Hr; subst w'; [destruct (validReadCount _ _)|]; exact Hs.
Qed.

Lemma handleRead_run m s : Run [] s -> Run [] (handleRead msize proto m s).2.
Proof.
  intros Hs. unfold handleRead. destruct (get _ _) as [l|]; [|done]. destruct (fsAt l s) as [fst|]; [|done].
  do 2 (case_decide; [done|]). apply withIO_run; [|done]. clear dependent s fst. intros fst s Hl Hs. cbv zeta. rewrite onHandle_none. cbn.
  apply fillResponse_run; [|done]. intros buf w. by destruct (typeOf (node fst)).
Qed.

Lemma writeResponse_run (write : M World Z) payload s :
  acts write -> Run [] s -> Run [] (writeResponse proto write payload s).2.
Proof.
  intros Hw Hs. pose proof (run_call [] write Hw s Hs) as Hr. unfold call in Hr. unfold writeResponse.
  destruct (write (world s)) as [[n|e] w]; [destruct (validWriteCount _ _)|]; exact Hr.
Qed.

Lemma handleWrite_run m s : Run [] s -> Run [] (handleWrite proto m s).2.
Proof.
  intros Hs. unfold handleWrite. destruct (get _ _) as [l|]; [|done]. destruct (fsAt l s) as [fst|] eqn:Hl; [|done]. case_decide.
  - unfold writeXattr. destruct (closing fst); [done|]. destruct (xattrWriter fst) as [[]|]. destruct (_ <? _); [done|].
    by eapply Run_setFs.
  - case_decide; [done|]. apply withIO_run; [|done]. clear dependent s. intros fst1 s Hl1 Hs. rewrite onHandle_none. cbn.
    apply writeResponse_run; [|done]. case_decide; [apply acts_write|apply acts_enosys].
Qed.

Lemma handleReaddir_run m s : Run [] s -> Run [] (handleReaddir msize proto m s).2.
Proof.
  intros Hs. unfold handleReaddir. destruct (get _ _) as [l|]; [|done]. destruct (fsAt l s) as [fst|]; [|done].
  case_decide; [done|]. apply withIO_run; [|done]. clear dependent s fst. intros fst s Hl Hs. cbv zeta. rewrite !onHandle_none. cbn.
  unfold readdirSimple. destruct (_ || _); [|done]. case_decide.
  - cbn. destruct s as [ft w rel]. by apply (Run_setFs [] (mkServer ft w rel) l fst).
  - cbn. destruct s as [ft w rel]. by apply (Run_setFs [] (mkServer ft w rel) l fst).
Qed.

(** *** Every request, and the end of a connection *)

Create HintDb run.
#[local] Hint Resolve handleAttach_run handleWalk_run handleClunk_run handleRemove_run handleLopen_run
  handleUOpen_run handleLcreate_run handleUCreate_run handleRead_run handleWrite_run handleReaddir_run
  handleGetattr_run handleSetattr_run handleMkdir_run handleSymlink_run handleLink_run handleMknod_run
  handleReadlink_run handleStatfs_run handleFsync_run handleUnlinkat_run handleRenameat_run
  handleRename_run handleLock_run handleGetlock_run handleXattrwalk_run handleXattrcreate_run
  handleUStat_run : run.

Lemma dispatch_run msg s : Run [] s -> Run [] (dispatch range msize proto maxFids msg s).2.
Proof.
  intros Hs. destruct msg; cbn [dispatch]; auto with run.
  all: apply (runs_respond []); [|done]; apply runs_end, keeps_fail.
Qed.

Lemma cleanupFids_run drained s : Run [] s -> Run [] (cleanupFids range drained s).2.
Proof.
  intros Hs. unfold cleanupFids, onTable, mbind, M_bind, clunkAll. set (s1 := mkServer _ _ _).
  assert (Run [] s1) as Hs1 by (apply Run_table; [|done]; cbn; eauto). clearbody s1.
  assert (forall ls, keeps (Run []) (clunkStates range drained ls)) as Hc.
  { induction ls as [|l ls IH]; cbn [clunkStates]; repeat keeps_run. done. }
  specialize (Hc (map_to_list (FidTable.fids (fids s))).*2 s1 Hs1). by destruct (clunkStates _ _ _ _) as [[] s2].
Qed.
End Run.
End Requests.
