(* ===== verification/MemDirs.v ===== *)
(** * Directory requests on memory file systems

    Over [MemRequests]: every request is a run of critical sections; what
    Tmkdir, Tlcreate and Tunlinkat answer and do when no other request comes
    in between; and what happens when one does. *)

From S2P Require Import Prelude GoIO Types Errno Proto Messages P9l P9u Message Dirents.
From S2P Require Import Bufpool FidTable Bridge Inode Namespace MemFS MemTree MemSections RefCount MemRequests.

(** Every fid of a connection is bound to a node that exists. *)
Definition fidsExist (s : @Server World NodeId Empty_set Empty_set) : Prop :=
  forall l fs, heap (fids s) !! l = Some fs -> (index (node fs) < allocated (user (world s)))%nat.

Section Dirs.
Context `{BufPool}.
Context (range : gmap string NodeId -> list (string * NodeId)).
Context (root : NodeId) (msize : Z) (proto : protocol) (maxFids : Z).
#[local] Instance ops : NodeOps Objects Empty_set Empty_set := memOps root.
#[local] Instance caps : Capabilities World NodeId Empty_set Empty_set := memCaps range.
Abbreviation Srv := (@Server World NodeId Empty_set Empty_set).

Lemma dispatch_sections h s msg :
  TreeOk (h, world s) -> (index root < allocated (user (world s)))%nat -> fidsExist s ->
  let s' := (dispatch range msize proto maxFids msg s).2 in
  exists h', rtc section (h, world s) (h', world s') /\ fidsExist s' /\
    (index root < allocated (user (world s')))%nat.
Proof.
  intros Hok Hroot Hf. cbv zeta.
  destruct (dispatch_run range root msize proto maxFids (h, world s) Hok Hroot msg s) as (h' & Hr & Hh & _).
  { exists h. by split_and!. }
  exists h'. split_and!; [done..|]. pose proof (facts_stable [Exists root] _ _ Hok Hr) as Hst.
  rewrite !Forall_singleton in Hst. by apply Hst.
Qed.

(** ** One request at a time *)

(** A fid bound to directory [d]. *)
Definition onDir (fid : Fid) (d : NodeId) (fs : fidState NodeId Empty_set Empty_set) (s : Srv) : Prop :=
  typeOf d = TMemDir /\ node fs = d /\ exists l, get (fids s) fid = Some l /\ fsAt l s = Some fs.

(** The entries of all directories; only those of [d] change, to [es]. *)
Definition entries (s : Srv) (n : NodeId) : gmap string NodeId := Children n (tree (world s)).
Definition entered (d : NodeId) (es : gmap string NodeId) (s s' : Srv) : Prop :=
  forall n, entries s' n = if decide (n = d) then es else entries s n.

(** The second section of a handler does nothing if nothing came between. *)
Lemma AddChild_present d name c t n :
  Children d t !! name = Some c -> Children n (AddChild d name c t) = Children n t.
Proof. intros Hc. rewrite AddChild_Children. case_decide; [subst|done]. by apply insert_id. Qed.
Lemma RemoveChild_absent d name t n : Children d t !! name = None -> Children n (RemoveChild d name t) = Children n t.
Proof. intros Hc. rewrite RemoveChild_Children. case_decide; [subst|done]. by apply delete_id. Qed.

(** *** The handlers as their critical sections *)

Lemma nodeAt_onDir fid d fs s l w :
  onDir fid d fs s -> get (fids s) fid = Some l -> nodeAt l (setWorld w s) = (Ok d, setWorld w s).
Proof.
  intros (_ & <- & l' & Hl' & Hfs) Hl. assert (l' = l) as -> by congruence.
  unfold nodeAt, stateAt, mbind, M_bind. change (fsAt l (setWorld w s)) with (fsAt l s). by rewrite Hfs.
Qed.

Lemma mem_setWorld_same (s : Srv) : setWorld (world s) s = s.
Proof. by destruct s. Qed.

Lemma mkdir_sections fid d fs m s :
  onDir fid d fs s -> Tmkdir.DirFid m = fid -> validName (Tmkdir.Name m) = true ->
  handleMkdir proto m s =
    match MemDir.Mkdir d (Tmkdir.Name m) (Tmkdir.Mode m) (Tmkdir.GID m) (world s) with
    | (Err e, w) => (errorMsg proto (errnoFromError e), setWorld w s)
    | (Ok c, w) =>
        let w := addChild d (Tmkdir.Name m) c w in (MRmkdir (Rmkdir.mk (QIDof c (tree w))), setWorld w s)
    end.
Proof.
  intros Hon <- Hv. pose proof Hon as (Hd & Hn & l & Hl & Hfs).
  unfold handleMkdir, respond, makeChild, getFid, guard_, mbind, M_bind. rewrite Hl, Hv. cbn [mret M_ret].
  pose proof (fun w => nodeAt_onDir _ _ _ _ _ w Hon Hl) as Hnode.
  pose proof (Hnode (world s)) as Hn0. rewrite mem_setWorld_same in Hn0. rewrite Hn0.
  cbn -[nodeAt setWorld MemDir.Mkdir AddChild]. rewrite decide_True by done. unfold call.
  destruct (MemDir.Mkdir d _ _ _ (world s)) as [[c|e] w]; [|done]. rewrite Hnode. done.
Qed.

Lemma unlink_sections fid d fs m s :
  onDir fid d fs s -> Tunlinkat.DirFid m = fid -> validName (Tunlinkat.Name m) = true ->
  handleUnlinkat proto m s =
    match MemDir.Unlink d (Tunlinkat.Name m) (Tunlinkat.Flags m) (world s) with
    | (Err e, w) => (errorMsg proto (errnoFromError e), setWorld w s)
    | (Ok _, w) => (MRunlinkat Runlinkat.mk, setWorld (onTreeOf (RemoveChild d (Tunlinkat.Name m)) w) s)
    end.
Proof.
  intros Hon <- Hv. pose proof Hon as (Hd & Hn & l & Hl & Hfs).
  unfold handleUnlinkat, respond, getFid, guard_, mbind, M_bind. rewrite Hl, Hv. cbn [mret M_ret].
  pose proof (nodeAt_onDir _ _ _ _ _ (world s) Hon Hl) as Hn0. rewrite mem_setWorld_same in Hn0. rewrite Hn0.
  cbn -[nodeAt setWorld MemDir.Unlink RemoveChild]. rewrite decide_True by done. unfold call.
  by destruct (MemDir.Unlink d _ _ (world s)) as [[c|e] w].
Qed.

(** The counts move from the directory to the file between the two. *)
Lemma lcreate_sections fid d fs m s :
  onDir fid d fs s -> Tlcreate.Fid m = fid -> validName (Tlcreate.Name m) = true -> state fs = fidAllocated ->
  handleLcreate range msize proto m s =
    match @MemDir.Create Empty_set d (Tlcreate.Name m) (Tlcreate.Flags m) (Tlcreate.Mode m) (Tlcreate.GID m) (world s) with
    | (Err e, w) => (errorMsg proto (errnoFromError e), setWorld w s)
    | (Ok (c, hd, hint), w) =>
        let w := onTreeOf (fun t => (decRef range d t).2) (onTreeOf (incRef c) w) in
        let w := addChild d (Tlcreate.Name m) c w in
        (MRlcreate (Rlcreate.mk (QIDof c (tree w)) (clampIOUnit msize hint)),
         mkServer (updateAndOpen fid c hd (fids s)).2 w (released s))
    end.
Proof.
  intros Hon <- Hv Hst. pose proof Hon as (Hd & Hn & l & Hl & Hfs).
  unfold handleLcreate, createFid, respond, getFid, guard_, mbind, M_bind. rewrite Hl. unfold stateAt. rewrite Hfs.
  unfold isAllocated, currentState. rewrite bool_decide_true by done. rewrite Hv. cbn [mret M_ret]. unfold currentNode. rewrite Hn.
  cbn -[setWorld MemDir.Create AddChild decRef incRef updateAndOpen clampIOUnit]. rewrite decide_True by done. unfold call.
  destruct (MemDir.Create d _ _ _ _ (world s)) as [[[[c hd] hint]|e] w]; [|done]. unfold onTable. cbn [fids setWorld].
  assert (updateAndOpen (Tlcreate.Fid m) c hd (fids s) = (Some d, (updateAndOpen (Tlcreate.Fid m) c hd (fids s)).2)) as ->.
  { unfold updateAndOpen, get, fsAt in *. rewrite Hl, Hfs, decide_True by done. by rewrite Hn. }
  unfold modTree, onTree, decRefNode, incRefNode. cbn -[decRef incRef AddChild updateAndOpen clampIOUnit].
  unfold onTreeOf. cbn [tree user]. by destruct (decRef range d (incRef c (tree w))) as [last t].
Qed.

(** *** What they answer and do *)

(** The new child of a directory. *)
Lemma tryAdd_effect h d name f w :
  TreeOk (h, w) ->
  match Children d (tree w) !! name with
  | Some _ => exists w', MemDir.tryAdd d name f w = (Err (ErrnoError EEXIST), w') /\
      forall n, Children n (tree w') = Children n (tree w)
  | None => exists c w', MemDir.tryAdd d name f w = (Ok c, w') /\ typeOf c = typeOfFields f /\ index c = allocated (user w) /\
      inited (inodeAt c (tree w)) = false /\ inited (inodeAt c (tree w')) = true /\ Children c (tree w) = ∅ /\
      forall n, Children n (tree w') = if decide (n = d) then <[name := c]> (Children d (tree w)) else Children n (tree w)
  end.
Proof.
  intros Hok. pose proof (tryAdd_shape d name f w) as Hs. destruct (newNode f w) as [c w1] eqn:En.
  destruct (newNode_spec h f w c w1 Hok En) as (Hok1 & _ & Hc & Hin & _ & HC & _). rewrite HC in Hs.
  destruct (Children d (tree w) !! name); [by eauto|].
  assert (inited (inodeAt c (tree w)) = false) as Hn.
  { destruct (inited (inodeAt c (tree w))) eqn:E; [|done]. apply (ok_inited _ Hok c) in E as [E _]. cbn in E.
    rewrite Hc, index_addr in E. lia. }
  exists c, (addChild d name c w1). split_and!; [done|by rewrite Hc, typeOf_addr|by rewrite Hc, index_addr|done| | |].
  - unfold addChild. cbn [tree]. by rewrite AddChild_inited.
  - apply map_empty. intros name'. destruct (Children c (tree w) !! name') as [c'|] eqn:E; [|done].
    apply (ok_entry _ Hok c name' c') in E as [E _]. apply (ok_home _ Hok c') in E as (_ & Hlt & Hc').
    apply (ok_inited _ Hok c') in Hc' as [Hc' _]. cbn in *. rewrite Hc, index_addr in Hlt. lia.
  - intros n. cbn. rewrite AddChild_Children, !HC. repeat case_decide; congruence.
Qed.

(** A new file is empty. *)
Lemma tryAdd_file d name f w c w' :
  MemDir.tryAdd d name (FMemFile f) w = (Ok c, w') -> MemFile.data (fileAt c w') = MemFile.data f.
Proof.
  intros Et. pose proof (tryAdd_shape d name (FMemFile f) w) as Hs. rewrite Et in Hs. cbn -[AddChild Children] in Hs.
  destruct (Children d _ !! name); [done|]. injection Hs as -> ->. unfold fileAt. cbn. by rewrite lookup_insert_eq.
Qed.

Definition isDirQID (t : QIDType) : bool := t =? QTDIR.

(** The error of an unlink, from the entry's type and number of children. *)
Definition unlinkErrno (flags : Z) (entry : option (QIDType * nat)) : option Errno :=
  if negb (flags =? 0) && negb (flags =? 0x200) then Some EINVAL
  else
    match entry with
    | None => Some ENOENT
    | Some (t, count) =>
        if flags =? 0 then (if isDirQID t then Some EISDIR else None)
        else if negb (isDirQID t) then Some ENOTDIR
        else if (count =? 0)%nat then None else Some ENOTEMPTY
    end.

Definition entryOf (d : NodeId) (name : string) (w : World) : option (QIDType * nat) :=
  c ← Children d (tree w) !! name; Some (QID.Type_ (QIDof c (tree w)), size (Children c (tree w))).

Lemma Unlink_effect h d name flags w :
  TreeOk (h, w) ->
  match unlinkErrno flags (entryOf d name w) with
  | Some e => MemDir.Unlink d name flags w = (Err (ErrnoError e), w)
  | None => exists w', MemDir.Unlink d name flags w = (Ok tt, w') /\
      forall n, Children n (tree w') = if decide (n = d) then delete name (Children d (tree w)) else Children n (tree w)
  end.
Proof.
  intros Hok. unfold unlinkErrno, MemDir.Unlink. change MemDir.removeDir with 0x200.
  destruct (_ && _) eqn:Ef; [done|]. unfold entryOf, RemoveChildIf.
  destruct (Children d (tree w) !! name) as [c|] eqn:Ec; cbn -[MemDir.unlinkCheck]; [|by rewrite world_eta].
  pose proof (ok_entry _ Hok d name c Ec) as [Hh _]. apply (ok_home _ Hok c) in Hh as (_ & _ & Hin). cbn in Hin. rewrite Hin.
  cbn -[MemDir.unlinkCheck]. unfold MemDir.unlinkCheck, isDirQID. change MemDir.removeDir with 0x200.
  assert (HC : forall n, Children n (modInode c (set_parent None) (RemoveChild d name (tree w))) =
    if decide (n = d) then delete name (Children d (tree w)) else Children n (tree w)).
  { intros n. rewrite Children_mod. rewrite !RemoveChild_Children. cbn [set_parent children].
    fold (Children c (RemoveChild d name (tree w))). rewrite RemoveChild_Children. repeat case_decide; congruence. }
  destruct (Z.eqb_spec flags 0) as [->|Hz]; [|destruct (Z.eqb_spec flags 0x200) as [->|]; [|done]].
  - cbn. destruct (_ =? QTDIR); [by rewrite world_eta|eauto].
  - cbn -[Children]. destruct (_ =? QTDIR); cbn -[Children]; [|by rewrite world_eta].
    destruct (_ =? 0)%nat; cbn -[Children]; [eauto|by rewrite world_eta].
Qed.

(** Counting does not change the entries: nothing here is prunable. *)
Lemma decRef_Children h w n m :
  TreeOk (h, w) -> Children m (decRef range n (tree w)).2 = Children m (tree w).
Proof.
  intros Hok. unfold decRef. set (t1 := modInode _ _ (tree w)).
  assert (HC : Children m t1 = Children m (tree w)) by (unfold t1; rewrite Children_mod; by case_decide; [subst|]).
  destruct (negb _); [done|]. assert (prunable (inodeAt n t1) = false) as ->; [|done].
  unfold t1. rewrite inodeAt_mod, decide_True by done. apply (ok_prunable _ Hok).
Qed.

Lemma mkdir_effect h fid d fs m s :
  TreeOk (h, world s) -> fidsExist s -> onDir fid d fs s -> Tmkdir.DirFid m = fid -> validName (Tmkdir.Name m) = true ->
  let '(resp, s') := handleMkdir proto m s in
  match entries s d !! Tmkdir.Name m with
  | Some _ => resp = errorMsg proto EEXIST /\ entered d (entries s d) s s'
  | None => exists c, resp = MRmkdir (Rmkdir.mk (QIDof c (tree (world s')))) /\ typeOf c = TMemDir /\
      inited (inodeAt c (tree (world s))) = false /\ inited (inodeAt c (tree (world s'))) = true /\
      entries s' c = ∅ /\ entered d (<[Tmkdir.Name m := c]> (entries s d)) s s'
  end.
Proof.
  intros Hok Hfids Hon Hf Hv. rewrite (mkdir_sections fid d fs) by done. unfold MemDir.Mkdir, entries, entered.
  pose proof (tryAdd_effect h d (Tmkdir.Name m) (FMemDir (mkDir (Tmkdir.Mode m) 0 0)) (world s) Hok) as He.
  destruct (Children d (tree (world s)) !! Tmkdir.Name m) as [c0|] eqn:Ec.
  - destruct He as (w' & -> & HC). split; [done|]. intros n. unfold entries. cbn [world setWorld]. rewrite HC. by case_decide; [subst|].
  - destruct He as (c & w' & -> & Ht & Hx & Hn & Hi & Hc & HC). cbn zeta.
    assert (HC' : forall n, Children n (tree (addChild d (Tmkdir.Name m) c w')) = if decide (n = d) then <[Tmkdir.Name m := c]> (Children d (tree (world s))) else Children n (tree (world s))).
    { intros n. unfold addChild. cbn [tree]. rewrite AddChild_present; [apply HC|].
      rewrite HC, decide_True by done. apply lookup_insert_eq. }
    exists c. split_and!; [done..| | |intros n; unfold entries; cbn -[addChild]; apply HC'].
    + unfold addChild. cbn [world setWorld tree]. by rewrite AddChild_inited.
    + cbn -[addChild]. rewrite HC'. rewrite decide_False; [done|]. intros ->.
      destruct Hon as (_ & <- & l & _ & Hfs). apply Hfids in Hfs. lia.
Qed.

(** What an update of the table leaves at the fid it is about. *)
Lemma updateAndOpen_at fid (n : NodeId) hd (s : Srv) l fs :
  get (fids s) fid = Some l -> fsAt l s = Some fs -> state fs = fidAllocated ->
  abs (updateAndOpen fid n hd (fids s)).2 !! fid = Some (set_open hd (set_node n (path fs) fs)).
Proof.
  intros Hl Hfs Hst. unfold get, fsAt in *. unfold updateAndOpen. rewrite Hl, Hfs, decide_True by done.
  cbn [snd]. rewrite (lookup_abs _ fid). cbn. rewrite Hl. cbn. rewrite lookup_alter_eq, Hfs. done.
Qed.

Lemma lcreate_effect h fid d fs m s :
  TreeOk (h, world s) -> fidsExist s -> onDir fid d fs s -> Tlcreate.Fid m = fid -> validName (Tlcreate.Name m) = true ->
  state fs = fidAllocated ->
  let '(resp, s') := handleLcreate range msize proto m s in
  match entries s d !! Tlcreate.Name m with
  | Some _ => resp = errorMsg proto EEXIST /\ entered d (entries s d) s s' /\ fids s' = fids s
  | None => exists c iounit, resp = MRlcreate (Rlcreate.mk (QIDof c (tree (world s'))) iounit) /\ typeOf c = TMemFile /\
      inited (inodeAt c (tree (world s))) = false /\ inited (inodeAt c (tree (world s'))) = true /\
      MemFile.Snapshot (fileAt c (world s')) = [] /\
      abs (fids s') !! fid = Some (set_open None (set_node c (path fs) fs)) /\
      entered d (<[Tlcreate.Name m := c]> (entries s d)) s s'
  end.
Proof.
  intros Hok Hfids Hon Hf Hv Hst. rewrite (lcreate_sections fid d fs) by done. unfold MemDir.Create, entries, entered, mbind, M_bind.
  set (file := FMemFile _).
  pose proof (tryAdd_effect h d (Tlcreate.Name m) file (world s) Hok) as He.
  destruct (Children d (tree (world s)) !! Tlcreate.Name m) as [c0|] eqn:Ec.
  - destruct He as (w' & -> & HC). split_and!; [done| |done]. intros n. unfold entries. cbn [world setWorld]. rewrite HC. by case_decide; [subst|].
  - destruct He as (c & w' & Et & Ht & Hx & Hn & Hi & Hc & HC). rewrite Et. cbn [mret M_ret]. cbv zeta.
    set (w1 := onTreeOf (incRef c) w').
    pose proof Hon as (Hd & Hnode & l & Hl & Hfs). pose proof (Hfids l fs Hfs) as Hex. rewrite Hnode in Hex.
    assert (TreeOk (<[c := (d, Tlcreate.Name m)]> h, w')) as Hok' by (by eapply section_TreeOk; [eapply sec_tryAdd|]).
    assert (TreeOk (<[c := (d, Tlcreate.Name m)]> h, w1)) as Hok1 by (by eapply section_TreeOk; [apply sec_incRef|]).
    assert (HC1 : forall n, Children n (decRef range d (tree w1)).2 = Children n (tree w')).
    { intros n. rewrite (decRef_Children _ _ _ _ Hok1). unfold w1, onTreeOf, incRef. cbn [tree]. rewrite Children_mod. by case_decide; [subst|]. }
    assert (HI1 : inited (inodeAt c (decRef range d (tree w1)).2) = true).
    { pose proof (f_equal (fun x => x.1.1) (proj1 (shrunk_decRef range d (tree w1) c))) as HI. cbn [fst identity] in HI. rewrite HI.
      unfold w1, onTreeOf, incRef. cbn [tree]. rewrite inodeAt_mod, decide_True by done. done. }
    exists c, (clampIOUnit msize 0). split_and!; [done..| | | |].
    + unfold addChild, onTreeOf. cbn [world tree]. by rewrite AddChild_inited.
    + exact (tryAdd_file _ _ _ _ _ _ Et).
    + cbn [fids]. by eapply updateAndOpen_at.
    + intros n. unfold entries, addChild, onTreeOf. cbn [world tree]. rewrite AddChild_present; [by rewrite HC1, HC|].
      rewrite HC1, HC, decide_True by done. apply lookup_insert_eq.
Qed.

Lemma unlink_effect h fid d fs m s :
  TreeOk (h, world s) -> onDir fid d fs s -> Tunlinkat.DirFid m = fid -> validName (Tunlinkat.Name m) = true ->
  let '(resp, s') := handleUnlinkat proto m s in
  match unlinkErrno (Tunlinkat.Flags m) (entryOf d (Tunlinkat.Name m) (world s)) with
  | Some e => resp = errorMsg proto e /\ s' = s
  | None => resp = MRunlinkat Runlinkat.mk /\ entered d (delete (Tunlinkat.Name m) (entries s d)) s s'
  end.
Proof.
  intros Hok Hon Hf Hv. rewrite (unlink_sections fid d fs) by done.
  pose proof (Unlink_effect h d (Tunlinkat.Name m) (Tunlinkat.Flags m) (world s) Hok) as He.
  destruct (unlinkErrno _ _) as [e|].
  - rewrite He. split; [|apply mem_setWorld_same]. unfold errnoFromError. done.
  - destruct He as (w' & -> & HC). split; [done|]. intros n. unfold entries, onTreeOf. cbn [world setWorld tree].
    rewrite RemoveChild_absent; [apply HC|]. rewrite HC, decide_True by done. apply lookup_delete_eq.
Qed.
End Dirs.

(** ** Requests and trees *)

(** The request handlers change a memory file system only by its critical
    sections.  From a state reached by any interleaving of sections, with
    every fid bound to a node that exists, a request of any kind takes the
    nodes to a state reached by further sections, whatever it answers, and
    leaves every fid bound to a node that exists.  So the tree is well-formed
    after any requests of any number of connections. *)
Theorem memfs_requests_sections `{BufPool} range root msize proto maxFids h s msg :
  rtc section start (h, world s) -> (index root < allocated (user (world s)))%nat -> fidsExist s ->
  let s' := (@dispatch _ _ _ (memOps root) (memCaps range) _ range msize proto maxFids msg s).2 in
  exists h', rtc section start (h', world s') /\ fidsExist s' /\ (index root < allocated (user (world s')))%nat.
Proof.
  intros Hr Hroot Hf. destruct (dispatch_sections range root msize proto maxFids h s msg) as (h' & Hr' & Hf' & Hroot');
    [by eapply sections_TreeOk; [|apply TreeOk_start]|done..|].
  exists h'. split_and!; [by etrans|done..].
Qed.

(** C27: directory requests, on every branch.  On a fid bound to a memory
    directory and not opened (on an opened one Tlcreate answers EBADF), with a
    valid name and no other request in between: Tmkdir and
    Tlcreate answer EEXIST and change no directory when the name is taken;
    otherwise the directory gets exactly the new entry, which leads to a new,
    empty directory or file whose QID is answered, and Tlcreate leaves its fid
    open on it.  Tunlinkat answers EINVAL for unknown flags, ENOENT for a name
    that is not there, EISDIR and ENOTDIR when the flag does not fit the
    entry, ENOTEMPTY for a directory with entries, each time changing nothing;
    otherwise exactly that entry is gone. *)
Theorem memdir_requests `{BufPool} range root msize proto maxFids h s fid d fs name mode gid flags :
  let request msg := @dispatch _ _ _ (memOps root) (memCaps range) _ range msize proto maxFids msg s in
  rtc section start (h, world s) -> fidsExist s -> onDir fid d fs s -> validName name = true -> state fs = fidAllocated ->
  (let '(resp, s') := request (MTmkdir (Tmkdir.mk fid name mode gid)) in
   match entries s d !! name with
   | Some _ => resp = errorMsg proto EEXIST /\ entered d (entries s d) s s'
   | None => exists c, resp = MRmkdir (Rmkdir.mk (QIDof c (tree (world s')))) /\ typeOf c = TMemDir /\
       inited (inodeAt c (tree (world s))) = false /\ inited (inodeAt c (tree (world s'))) = true /\
       entries s' c = ∅ /\ entered d (<[name := c]> (entries s d)) s s'
   end) /\
  (let '(resp, s') := request (MTlcreate (Tlcreate.mk fid name flags mode gid)) in
   match entries s d !! name with
   | Some _ => resp = errorMsg proto EEXIST /\ entered d (entries s d) s s' /\ fids s' = fids s
   | None => exists c iounit, resp = MRlcreate (Rlcreate.mk (QIDof c (tree (world s'))) iounit) /\ typeOf c = TMemFile /\
       inited (inodeAt c (tree (world s))) = false /\ inited (inodeAt c (tree (world s'))) = true /\
       MemFile.Snapshot (fileAt c (world s')) = [] /\
       abs (fids s') !! fid = Some (set_open None (set_node c (path fs) fs)) /\
       entered d (<[name := c]> (entries s d)) s s'
   end) /\
  (let '(resp, s') := request (MTunlinkat (Tunlinkat.mk fid name flags)) in
   match unlinkErrno flags (entryOf d name (world s)) with
   | Some e => resp = errorMsg proto e /\ s' = s
   | None => resp = MRunlinkat Runlinkat.mk /\ entered d (delete name (entries s d)) s s'
   end).
Proof.
  intros request Hr Hf Hon Hv Hst. pose proof (sections_TreeOk _ _ Hr TreeOk_start) as Hok. split_and!.
  - exact (mkdir_effect root proto h fid d fs (Tmkdir.mk fid name mode gid) s Hok Hf Hon eq_refl Hv).
  - exact (lcreate_effect range root msize proto h fid d fs (Tlcreate.mk fid name flags mode gid) s Hok Hf Hon eq_refl Hv Hst).
  - exact (unlink_effect root proto h fid d fs (Tunlinkat.mk fid name flags) s Hok Hon eq_refl Hv).
Qed.

(** ** Requests in between *)

Lemma fidsExist_sections h w h' w' s :
  TreeOk (h, w) -> rtc section (h, w) (h', w') -> fidsExist (setWorld w s) -> fidsExist (setWorld w' s).
Proof.
  intros Hok Hr Hf l fs Hl. pose proof (facts_stable [Exists (node fs)] _ _ Hok Hr) as Hst.
  rewrite !Forall_singleton in Hst. apply Hst. exact (Hf l fs Hl).
Qed.

Lemma onDir_world fid d fs w s : onDir fid d fs s -> onDir fid d fs (setWorld w s).
Proof. done. Qed.

Lemma Lookup_gone d name t : Lookup d name (RemoveChild d name t) = Err (ErrnoError ENOENT).
Proof. unfold Lookup. by rewrite RemoveChild_Children, decide_True, lookup_delete_eq by done. Qed.

Lemma Lookup_found d name t c : Children d t !! name = Some c -> inited (inodeAt c t) = true -> Lookup d name t = Ok c.
Proof. intros Hc Hi. unfold Lookup. by rewrite Hc, Hi. Qed.

Section Races.
Context `{BufPool}.
Context (range : gmap string NodeId -> list (string * NodeId)).
Context (root : NodeId) (msize : Z) (proto : protocol) (maxFids : Z).
Context (h : Home) (sA sB : @Server World NodeId Empty_set Empty_set) (fidA fidB : Fid) (d : NodeId).
Context (fsA fsB : fidState NodeId Empty_set Empty_set) (name : string) (flags : Z) (mode : FileMode) (gid : Z).
Let request msg s := @dispatch _ _ _ (memOps root) (memCaps range) _ range msize proto maxFids msg s.
Context (Hok : TreeOk (h, world sA)) (HfA : fidsExist sA) (HfB' : fidsExist (setWorld (world sA) sB)).
Context (HonA : onDir fidA d fsA sA) (HonB : onDir fidB d fsB sB).
Context (HstA : state fsA = fidAllocated) (HstB : state fsB = fidAllocated) (Hv : validName name = true).

Lemma unlink_race c :
  entries sA d !! name = Some c -> QID.Type_ (QIDof c (tree (world sA))) <> QTDIR ->
  exists w1, MemDir.Unlink d name 0 (world sA) = (Ok tt, w1) /\
    request (MTunlinkat (Tunlinkat.mk fidA name 0)) sA =
      (MRunlinkat Runlinkat.mk, setWorld (onTreeOf (RemoveChild d name) w1) sA) /\
    let '(resp, s') := request (MTlcreate (Tlcreate.mk fidB name flags mode gid)) (setWorld w1 sB) in
    exists c' iounit, resp = MRlcreate (Rlcreate.mk (QIDof c' (tree (world s'))) iounit) /\
      Lookup d name (tree (world s')) = Ok c' /\
      Lookup d name (tree (onTreeOf (RemoveChild d name) (world s'))) = Err (ErrnoError ENOENT).
Proof.
  intros Ec Hdir. pose proof (Unlink_effect h d name 0 (world sA) Hok) as Hu. unfold entryOf, entries in *. rewrite Ec in Hu.
  cbn -[Children QTDIR MemDir.Unlink] in Hu. unfold isDirQID in Hu. destruct (Z.eqb_spec (QID.Type_ (QIDof c (tree (world sA)))) QTDIR); [done|].
  destruct Hu as (w1 & Hu & HC). exists w1. split; [done|]. split.
  { change (handleUnlinkat (H := memOps root) proto (Tunlinkat.mk fidA name 0) sA = (MRunlinkat Runlinkat.mk, setWorld (onTreeOf (RemoveChild d name) w1) sA)).
    rewrite (unlink_sections root proto fidA d fsA) by done. cbn [Tunlinkat.Name Tunlinkat.Flags]. by rewrite Hu. }
  assert (section (h, world sA) (h, w1)) as Hs by (pose proof (sec_unlink d name 0 h (world sA)) as Hs; by rewrite Hu in Hs).
  pose proof (lcreate_effect range root msize proto h fidB d fsB (Tlcreate.mk fidB name flags mode gid) (setWorld w1 sB)
    (section_TreeOk _ _ Hs Hok) (fidsExist_sections _ _ _ _ _ Hok (rtc_once _ _ Hs) HfB') (onDir_world _ _ _ _ _ HonB) eq_refl Hv HstB) as He.
  change (request (MTlcreate ?m)) with (handleLcreate (H := memOps root) range msize proto m).
  destruct (handleLcreate _ _ _ _ _) as [resp s']. unfold entries in He. cbn [world setWorld Tlcreate.Name] in He.
  rewrite HC, decide_True, lookup_delete_eq in He by done. destruct He as (c' & iounit & Hresp & _ & _ & Hi & _ & _ & He).
  exists c', iounit. split; [done|]. split; [|apply Lookup_gone]. apply Lookup_found; [|done].
  specialize (He d). unfold entries in He. rewrite He, decide_True by done. apply lookup_insert_eq.
Qed.

Lemma create_race :
  entries sA d !! name = None ->
  exists c w1, @MemDir.Create Empty_set d name flags mode gid (world sA) = (Ok (c, None, 0), w1) /\
    request (MTlcreate (Tlcreate.mk fidA name flags mode gid)) sA =
      (let w := addChild d name c (onTreeOf (fun t => (decRef range d t).2) (onTreeOf (incRef c) w1)) in
       (MRlcreate (Rlcreate.mk (QIDof c (tree w)) (clampIOUnit msize 0)),
        mkServer (updateAndOpen fidA c None (fids sA)).2 w (released sA))) /\
    let '(resp, s') := request (MTunlinkat (Tunlinkat.mk fidB name 0)) (setWorld w1 sB) in
    resp = MRunlinkat Runlinkat.mk /\
    Lookup d name (tree (world s')) = Err (ErrnoError ENOENT) /\
    Lookup d name (tree (addChild d name c (world s'))) = Ok c.
Proof.
  intros Ec. pose proof (tryAdd_effect h d name (FMemFile (MemFile.NewFileWithMode [] mode)) (world sA) Hok) as Ha.
  unfold entries in Ec. rewrite Ec in Ha. destruct Ha as (c & w1 & Ha & Ht & _ & _ & Hi & _ & HC). exists c, w1.
  assert (Hcr : @MemDir.Create Empty_set d name flags mode gid (world sA) = (Ok (c, None, 0), w1)).
  { unfold MemDir.Create, mbind, M_bind. by rewrite Ha. }
  split; [done|]. split.
  { change (request (MTlcreate ?m)) with (handleLcreate (H := memOps root) range msize proto m).
    rewrite (lcreate_sections range root msize proto fidA d fsA) by done.
    cbn [Tlcreate.Name Tlcreate.Flags Tlcreate.Mode Tlcreate.GID]. by rewrite Hcr. }
  assert (isDir d (world sA)) as Hd. { destruct HonA as (Hd & <- & l & _ & Hl). split; [done|]. exact (HfA l fsA Hl). }
  assert (section (h, world sA) (<[c := (d, name)]> h, w1)) as Hs by (by eapply sec_tryAdd).
  pose proof (section_TreeOk _ _ Hs Hok) as Hok1.
  pose proof (unlink_effect root proto _ fidB d fsB (Tunlinkat.mk fidB name 0) (setWorld w1 sB) Hok1 HonB eq_refl Hv) as He.
  change (request (MTunlinkat ?m)) with (handleUnlinkat (H := memOps root) proto m).
  pose proof (unlink_sections root proto fidB d fsB (Tunlinkat.mk fidB name 0) (setWorld w1 sB) HonB eq_refl Hv) as Hsec.
  pose proof (Unlink_effect _ d name 0 w1 Hok1) as Hu.
  assert (entryOf d name w1 = Some (QTFILE, size (Children c (tree w1)))) as Hent.
  { unfold entryOf. rewrite HC, decide_True, lookup_insert_eq by done. cbn -[Children QIDof QTFILE].
    destruct (ok_inited _ Hok1 c Hi) as [_ Hq]. cbn in Hq. by rewrite Hq, Ht. }
  cbn [Tunlinkat.Name Tunlinkat.Flags world setWorld] in He, Hsec. rewrite Hent in He, Hu. cbn -[handleUnlinkat Children MemDir.Unlink] in He, Hu.
  destruct Hu as (w2 & Hu & HC2). rewrite Hu in Hsec.
  destruct (handleUnlinkat _ _ _) as [resp s']. destruct He as [Hresp He]. split; [done|].
  specialize (He d). unfold entries in He. rewrite decide_True in He by done. split.
  + unfold Lookup. rewrite He. by rewrite lookup_delete_eq.
  + apply Lookup_found; [unfold addChild; cbn [tree]; rewrite AddChild_Children, decide_True by done; apply lookup_insert_eq|].
    unfold addChild. cbn [tree]. rewrite AddChild_inited. injection Hsec as -> ->. cbn [world setWorld].
    assert (TreeOk (<[c := (d, name)]> h, w2)) as Hok2.
    { pose proof (section_TreeOk _ _ (sec_unlink d name 0 _ w1) Hok1) as Hok2. by rewrite Hu in Hok2. }
    apply (ok_home _ (section_TreeOk _ _ (sec_remove d name _ w2) Hok2) c d name). apply lookup_insert_eq.
Qed.
End Races.

(** C30: two interleavings of the handlers' own tree updates with another
    connection's request.  Unlinking a file removes its entry in [Unlink] and
    once more in the handler; when another connection creates a file of that
    name in between, its Tlcreate succeeds and the new file is found, until
    the handler removes its entry.  Creating a file enters it in [Create] and
    once more in the handler; when another connection unlinks it in between,
    its Tunlinkat succeeds and the file is gone, until the handler enters it
    again. *)
Theorem memfs_handler_races `{BufPool} range root msize proto maxFids h sA sB fidA fidB d fsA fsB name flags mode gid :
  let request msg s := @dispatch _ _ _ (memOps root) (memCaps range) _ range msize proto maxFids msg s in
  rtc section start (h, world sA) -> world sB = world sA -> fidsExist sA -> fidsExist sB ->
  onDir fidA d fsA sA -> onDir fidB d fsB sB -> state fsA = fidAllocated -> state fsB = fidAllocated ->
  validName name = true ->
  match entries sA d !! name with
  | Some c =>
      QID.Type_ (QIDof c (tree (world sA))) <> QTDIR ->
      exists w1, MemDir.Unlink d name 0 (world sA) = (Ok tt, w1) /\
        request (MTunlinkat (Tunlinkat.mk fidA name 0)) sA =
          (MRunlinkat Runlinkat.mk, setWorld (onTreeOf (RemoveChild d name) w1) sA) /\
        let '(resp, s') := request (MTlcreate (Tlcreate.mk fidB name flags mode gid)) (setWorld w1 sB) in
        exists c' iounit, resp = MRlcreate (Rlcreate.mk (QIDof c' (tree (world s'))) iounit) /\
          Lookup d name (tree (world s')) = Ok c' /\
          Lookup d name (tree (onTreeOf (RemoveChild d name) (world s'))) = Err (ErrnoError ENOENT)
  | None =>
      exists c w1, @MemDir.Create Empty_set d name flags mode gid (world sA) = (Ok (c, None, 0), w1) /\
        request (MTlcreate (Tlcreate.mk fidA name flags mode gid)) sA =
          (let w := addChild d name c (onTreeOf (fun t => (decRef range d t).2) (onTreeOf (incRef c) w1)) in
           (MRlcreate (Rlcreate.mk (QIDof c (tree w)) (clampIOUnit msize 0)),
            mkServer (updateAndOpen fidA c None (fids sA)).2 w (released sA))) /\
        let '(resp, s') := request (MTunlinkat (Tunlinkat.mk fidB name 0)) (setWorld w1 sB) in
        resp = MRunlinkat Runlinkat.mk /\
        Lookup d name (tree (world s')) = Err (ErrnoError ENOENT) /\
        Lookup d name (tree (addChild d name c (world s'))) = Ok c
  end.
Proof.
  intros request Hr Hw HfA HfB HonA HonB HstA HstB Hv. pose proof (sections_TreeOk _ _ Hr TreeOk_start) as Hok.
  assert (HfB' : fidsExist (setWorld (world sA) sB)) by (rewrite <- Hw, mem_setWorld_same; done).
  destruct (entries sA d !! name) as [c|] eqn:Ec; [intros Hdir; by eapply unlink_race|by eapply create_race].
Qed.

(** ** On the tree of [Built] *)

Module Demo.
Definition fs : fidState NodeId Empty_set Empty_set := newFidState Built.root "/" fidAllocated.
Definition server : @Server World NodeId Empty_set Empty_set :=
  mkServer (mkFidTable {[0%nat := fs]} {[1 := 0%nat]}) Built.w3 [].

Lemma fids_exist : fidsExist server.
Proof. intros l fs'. cbn. intros [_ <-]%lookup_singleton_Some. vm_compute. lia. Qed.

Lemma on_root : onDir 1 Built.root fs server.
Proof. split_and!; [by vm_compute|done|]. exists 0%nat. by split. Qed.

Definition request (msg : Message) : Message * @Server World NodeId Empty_set Empty_set :=
  @dispatch _ _ _ (memOps Built.root) (memCaps map_to_list) zeroPool map_to_list 8192 protocolL 0 msg server.
End Demo.

Lemma memfs_requests_sections_witness :
  exists h', rtc section start (h', world (Demo.request (MTmkdir (Tmkdir.mk 1 "new" 0 0))).2).
Proof.
  destruct (@memfs_requests_sections zeroPool map_to_list Built.root 8192 protocolL 0 Built.home Demo.server
    (MTmkdir (Tmkdir.mk 1 "new" 0 0)) Built.built_reached) as (h' & Hr & _); [vm_compute; lia|exact Demo.fids_exist|].
  exists h'. exact Hr.
Defined.

Lemma memdir_requests_witness :
  (Demo.request (MTlcreate (Tlcreate.mk 1 "a" 0 0 0))).1 = MRlerror (Rlerror.mk EEXIST) /\
  (Demo.request (MTunlinkat (Tunlinkat.mk 1 "sub" 0x200))).1 = MRlerror (Rlerror.mk ENOTEMPTY) /\
  entered Built.root (delete "a" (entries Demo.server Built.root)) Demo.server
    (Demo.request (MTunlinkat (Tunlinkat.mk 1 "a" 0))).2.
Proof.
  split; [by vm_compute|]. split; [by vm_compute|].
  destruct (@memdir_requests zeroPool map_to_list Built.root 8192 protocolL 0 Built.home Demo.server 1 Built.root Demo.fs
    "a" 0 0 0 Built.built_reached Demo.fids_exist Demo.on_root eq_refl eq_refl) as (_ & _ & Hu).
  change (@dispatch _ _ _ _ _ _ _ _ _ _ ?msg _) with (Demo.request msg) in Hu.
  assert (unlinkErrno 0 (entryOf Built.root "a" (world Demo.server)) = None) as E by (by vm_compute). rewrite E in Hu.
  destruct (Demo.request (MTunlinkat (Tunlinkat.mk 1 "a" 0))) as [resp s']. exact (proj2 Hu).
Defined.

Lemma memfs_handler_races_witness :
  exists w1, MemDir.Unlink Built.root "a" 0 Built.w3 = (Ok tt, w1) /\
    Lookup Built.root "a" (tree w1) = Err (ErrnoError ENOENT).
Proof.
  pose proof (@memfs_handler_races zeroPool map_to_list Built.root 8192 protocolL 0 Built.home Demo.server Demo.server 1 1
    Built.root Demo.fs Demo.fs "a" 0 0 0 Built.built_reached eq_refl Demo.fids_exist Demo.fids_exist Demo.on_root Demo.on_root
    eq_refl eq_refl eq_refl) as Hrace. cbv zeta in Hrace.
  assert (entries Demo.server Built.root !! "a" = Some (addr TMemFile 1)) as E by (by vm_compute). rewrite E in Hrace.
  destruct Hrace as (w1 & Hu & _); [by vm_compute|]. exists w1. split; [exact Hu|].
  assert (w1 = (MemDir.Unlink Built.root "a" 0 Built.w3).2) as -> by (change (world Demo.server) with Built.w3 in Hu; by rewrite Hu).
  by vm_compute.
Defined.

(** ** The laws of a file system

    What [RefCount] and [Sharing] ask of a file system: its methods leave the
    reference counts alone. *)

Lemma newNode_refs f w n : refsOf n (tree (newNode f w).2) = refsOf n (tree w).
Proof. destruct f; cbn -[refsOf Init]; by autorewrite with refs. Qed.

Lemma tryAdd_refs d name f : keepsRefs (MemDir.tryAdd d name f).
Proof.
  intros w n. pose proof (tryAdd_shape d name f w) as Hs. pose proof (newNode_refs f w n) as Hr.
  destruct (newNode f w) as [c w1]. rewrite Hs. cbn in Hr. destruct (_ !! name); cbn; [done|]. by autorewrite with refs.
Qed.

Lemma Create_refs d name flags mode gid : keepsRefs (@MemDir.Create Empty_set d name flags mode gid).
Proof.
  intros w n. pose proof (tryAdd_refs d name (FMemFile (MemFile.NewFileWithMode [] mode)) w n) as Hr.
  unfold MemDir.Create, mbind, M_bind. by destruct (MemDir.tryAdd _ _ _ w) as [[c|e] w1].
Qed.

Lemma Unlink_refs d name flags : keepsRefs (MemDir.Unlink d name flags).
Proof.
  intros w n. unfold MemDir.Unlink. destruct (_ && _); [done|].
  pose proof (RemoveChildIf_refs d name (fun node => MemDir.unlinkCheck flags (QID.Type_ (QIDof node (tree w)))) n (tree w)) as Hr.
  by destruct (RemoveChildIf _ _ _ _).
Qed.

Lemma onFile_refs {A} n (f : MemFile.t -> result A * MemFile.t) : keepsRefs (onFile n f).
Proof. intros w m. unfold onFile. by destruct (f _). Qed.

Lemma memfs_NodeOps_ok root : @NodeOps_ok _ _ _ (memOps root).
Proof.
  split; cbn; intros *; unfold ifType; try by destruct w.
  all: try (intros [= <-]; try case_decide; first [done | apply Create_refs | apply tryAdd_refs | apply Unlink_refs | apply onFile_refs]).
  all: try (intros [= <-]; by destruct (typeOf n)).
  all: intros ?; intros *; first [done | intros [= <-]; first [done | by split]].
Qed.

Lemma memfs_Capabilities_ok range : @Capabilities_ok _ _ _ (memCaps range).
Proof.
  split; cbn; intros *; unfold ifType; try by destruct x.
  all: try (intros [= <-]; try case_decide; first [done | apply onFile_refs]).
  all: try (intros [= <-]; by destruct (typeOf n)).
  all: intros ?; intros *; first [done | intros [= <-]; done].
Qed.
