(* ===== verification/Sharing.v ===== *)
(** * Connections that share a tree

    A server serves any number of connections; each has its fid table, all
    work on the same nodes.  Here requests are handled one at a time: [step] is
    one whole request on one connection, a new connection, the end of one, or
    the file system's own doing.  The server interleaves the critical sections
    of requests; [SharedRefs] models that, and shows what is left of the
    statements below and where they fail.

    One request at a time, a node's reference count is the number of fids
    bound to it, over all connections; so a node is closed only when no other
    fid is bound to it, and the clunk of the last fid does close it.  Two
    requests lose a node even so: an in-place walk the one it leaves, a
    [Tmkdir] the child it made. *)

From S2P Require Import Prelude GoIO Types Errno Proto Messages P9l P9u Message Dirents.
From S2P Require Import Bufpool FidTable Bridge Inode Namespace RefCount.

Section Sharing.
Context {U Handle XattrWriter : Type} `{NodeOps U Handle XattrWriter}.
Context `{Capabilities (NS U) NodeId Handle XattrWriter} `{BufPool}.
Abbreviation FS := (fidState NodeId Handle XattrWriter).
Abbreviation FT := (fidTable NodeId Handle XattrWriter).
Abbreviation Srv := (@Server (NS U) NodeId Handle XattrWriter).
Abbreviation Ranger := (gmap string NodeId -> list (string * NodeId)).

(** [log]: the calls of [FileReleaser.Release] and [NodeCloser.Close]. *)
Record Config : Type := mkConfig {
  conns : gmap nat FT;
  ns : NS U;
  log : list (@Event NodeId Handle)
}.

Definition serverOf (ft : FT) (c : Config) : Srv := mkServer ft (ns c) (log c).

Inductive label : Type :=
  | LConnect (i : nat)
  | LRequest (i : nat) (msg : Message)
  | LTeardown (i : nat) (drained : bool)
  | LSystem.

(** One request at a time: no other goroutine runs during the handler. *)
Inductive step : Config -> label -> Config -> Prop :=
  | step_connect i c :
      conns c !! i = None ->
      step c (LConnect i) (mkConfig (<[i := newFidTable]> (conns c)) (ns c) (log c))
  | step_request (range : Ranger) msize proto maxFids i ft msg c s :
      conns c !! i = Some ft ->
      s = (dispatch range msize proto maxFids msg (serverOf ft c)).2 ->
      step c (LRequest i msg) (mkConfig (<[i := fids s]> (conns c)) (world s) (released s))
  | step_teardown (range : Ranger) drained i ft c s :
      conns c !! i = Some ft ->
      s = (cleanupFids range drained (serverOf ft c)).2 ->
      step c (LTeardown i drained) (mkConfig (delete i (conns c)) (world s) (released s))
  | step_system c w :
      sameRefs (ns c) w -> step c LSystem (mkConfig (conns c) w (log c)).

Definition initial (c : Config) : Prop :=
  conns c = ∅ /\ log c = [] /\ forall n, refsOf n (tree (ns c)) = 0.

Inductive reachable : Config -> Prop :=
  | reach_initial c : initial c -> reachable c
  | reach_step c l c' : reachable c -> step c l c' -> reachable c'.

(** ** Sums over connections *)

Definition sumOver (f : FT -> Z) (cs : gmap nat FT) : Z := map_fold (fun _ ft acc => f ft + acc) 0 cs.
(** The fids bound to [n], and all fids. *)
Definition total (n : NodeId) : gmap nat FT -> Z := sumOver (fun ft => cnt n (abs ft)).
Definition allFids : gmap nat FT -> Z := sumOver (fun ft => Z.of_nat (size (abs ft))).

Lemma sumOver_insert f i ft cs : cs !! i = None -> sumOver f (<[i := ft]> cs) = f ft + sumOver f cs.
Proof. intros Hi. unfold sumOver. rewrite map_fold_insert_L; [done| |done]. intros. lia. Qed.

Lemma sumOver_lookup f i ft cs : cs !! i = Some ft -> sumOver f cs = f ft + sumOver f (delete i cs).
Proof. intros Hi. rewrite <- (sumOver_insert f i) by apply lookup_delete_eq. by rewrite insert_delete_id. Qed.

Lemma sumOver_update f i ft ft' cs : cs !! i = Some ft -> sumOver f (<[i := ft']> cs) = f ft' + sumOver f (delete i cs).
Proof. intros Hi. by rewrite <- insert_delete_eq, sumOver_insert by apply lookup_delete_eq. Qed.

Lemma sumOver_le f g cs : (forall ft, f ft <= g ft) -> sumOver f cs <= sumOver g cs.
Proof.
  intros Hfg. induction cs as [|i ft cs Hi IH] using map_ind; [done|].
  rewrite !sumOver_insert by done. specialize (Hfg ft). lia.
Qed.

Lemma sumOver_nonneg f cs : (forall ft, 0 <= f ft) -> 0 <= sumOver f cs.
Proof.
  intros Hf. induction cs as [|i ft cs Hi IH] using map_ind; [done|].
  rewrite sumOver_insert by done. specialize (Hf ft). lia.
Qed.

Lemma total_nonneg n cs : 0 <= total n cs.
Proof. apply sumOver_nonneg. intros ft. apply cnt_nonneg. Qed.

Lemma total_le n cs : total n cs <= allFids cs.
Proof. apply sumOver_le. intros ft. apply cnt_le_size. Qed.

Lemma total_zero n cs i ft fid fs :
  total n cs = 0 -> cs !! i = Some ft -> abs ft !! fid = Some fs -> node fs <> n.
Proof.
  intros Hz Hi Hfs Hn. unfold total in Hz. rewrite (sumOver_lookup _ _ _ _ Hi) in Hz.
  fold (total n (delete i cs)) in Hz. pose proof (total_nonneg n (delete i cs)). pose proof (cnt_pos n fid fs _ Hfs Hn). lia.
Qed.

(** ** The invariant *)

Definition Inv (c : Config) : Prop :=
  (forall i ft, conns c !! i = Some ft -> FidTable.wf ft) /\
  forall n, embeds n = true -> refsOf n (tree (ns c)) = int32 (total n (conns c)).

Lemma balanced_int32 (b : NodeId -> Z) t (m : gmap Fid FS) :
  balanced b t m <-> forall n, embeds n = true -> refsOf n t = int32 (cnt n m + b n).
Proof.
  split; intros Hb n En; specialize (Hb n En).
  - destruct Hb as [Hr (k & Hk)]. rewrite <- (int32_id (refsOf n t)), Hk by done. unfold int32, uint_wrap.
    replace (cnt n m + b n + k * 2 ^ 32 + 2 ^ 31) with (cnt n m + b n + 2 ^ 31 + k * 2 ^ 32) by lia. by rewrite Z.mod_add.
  - split; [rewrite Hb; apply int32_range|]. rewrite Hb. apply int32_wraps.
Qed.

Lemma Inv_initial c : initial c -> Inv c.
Proof.
  intros (Hc & _ & Hr). split; rewrite Hc; [intros i ft; by rewrite lookup_empty|]. intros n _. by rewrite Hr.
Qed.

Context (Hops : NodeOps_ok) (Hcaps : Capabilities_ok).

(** The other connections, as the frame of a request on connection [i]. *)
Definition others (i : nat) (c : Config) : NodeId -> Z := fun n => total n (delete i (conns c)).
Definition limit (ft : FT) : Z := Z.of_nat (size (abs ft)) + 1.

Lemma Good_start i ft own c :
  Inv c -> conns c !! i = Some ft ->
  Good (others i c) own (abs ft) (log c) (limit ft) (others i c) (Z.of_nat (size (abs ft))) (serverOf ft c).
Proof.
  intros [Hwf Hr] Hi. split; cbn.
  - split; [by eapply Hwf|]. apply balanced_int32. intros n En. cbn. rewrite Hr by done.
    unfold total. by rewrite (sumOver_lookup _ _ _ _ Hi).
  - done.
  - done.
  - exists []. split; [by rewrite app_nil_r|]. by intros _ n ?%not_elem_of_nil.
Qed.

Lemma room_start i ft c : conns c !! i = Some ft -> allFids (conns c) < 2 ^ 32 - 1 -> room (others i c) (limit ft).
Proof.
  intros Hi Hall n. unfold others, limit. unfold allFids in Hall. rewrite (sumOver_lookup _ _ _ _ Hi) in Hall.
  pose proof (total_le n (delete i (conns c))). unfold allFids in *. lia.
Qed.

Lemma request_good range msize proto maxFids i ft msg c :
  Inv c -> conns c !! i = Some ft ->
  Good (others i c) (ownFids msg) (abs ft) (log c) (limit ft) (others i c) (limit ft)
    (dispatch range msize proto maxFids msg (serverOf ft c)).2.
Proof.
  intros Hc Hi. apply dispatch_good; [done|done|intros n; apply total_nonneg|done|unfold limit; lia|]. by apply Good_start.
Qed.

Lemma teardown_good range drained i ft c :
  Inv c -> conns c !! i = Some ft ->
  Good (others i c) (map_to_list (abs ft)).*1 (abs ft) (log c) (limit ft) (others i c) 0
    (cleanupFids range drained (serverOf ft c)).2.
Proof.
  intros Hc Hi. eapply cleanupFids_good; [intros n; apply total_nonneg| |reflexivity|].
  - intros fid [fs Hfs]. apply list_elem_of_fmap. exists (fid, fs). split; [done|]. by apply elem_of_map_to_list.
  - eapply Good_size; [|by apply Good_start]. unfold limit. lia.
Qed.

Lemma Inv_step c l c' : Inv c -> step c l c' -> Inv c'.
Proof.
  intros Hc Hstep. pose proof Hc as [Hwf Hr]. destruct Hstep as [i c Hi|range msize proto maxFids i ft msg c s Hi Hs|range drained i ft c s Hi Hs|c w Hw].
  - split; cbn.
    + intros j ft. rewrite lookup_insert. case_decide; [intros [= <-]; apply newFidTable_wf|apply Hwf].
    + intros n En. unfold total. rewrite sumOver_insert, abs_new, cnt_empty by done. by apply Hr.
  - pose proof (request_good range msize proto maxFids i ft msg c Hc Hi) as [[Hw Hb] _ _ _]. rewrite <- Hs in *. split; cbn.
    + intros j ft'. rewrite lookup_insert. case_decide; [by intros [= <-]|apply Hwf].
    + intros n En. rewrite balanced_int32 in Hb. rewrite Hb by done. unfold total. by rewrite (sumOver_update _ _ ft).
  - pose proof (teardown_good range drained i ft c Hc Hi) as [[Hw Hb] Hsz _ _]. rewrite <- Hs in *. split; cbn.
    + intros j ft'. rewrite lookup_delete_Some. intros [_ Hj]. by eapply Hwf.
    + intros n En. rewrite balanced_int32 in Hb. rewrite Hb by done.
      pose proof (cnt_le_size n (abs (fids s))). pose proof (cnt_nonneg n (abs (fids s))). unfold others. f_equal. lia.
  - split; [done|]. cbn. intros n En. rewrite Hw. by apply Hr.
Qed.

Lemma reachable_Inv c : reachable c -> Inv c.
Proof. induction 1 as [c Hc|c l c' _ IH Hs]; [by apply Inv_initial|by eapply Inv_step]. Qed.

(** ** The clunk of a fid *)

(** The node part of a clunk: the count loses one, and whether it was the last. *)
Lemma decRefNode_last range n t k :
  refsOf n t = k -> 0 < k < 2 ^ 31 ->
  (decRefNode range embeds n t).1 = negb (embeds n && negb (k =? 1)).
Proof.
  intros Hk Hr. unfold decRefNode. destruct (embeds n); cbn [andb]; [|done].
  destruct (decRef_refs range n n t) as [_ ->]. rewrite Hk, int32_id by lia. rewrite negb_involutive.
  apply Bool.eq_true_iff_eq. rewrite !Z.eqb_eq. lia.
Qed.

Lemma clunk_events range proto ft fid fs l s :
  fids s = ft -> FidTable.fids ft !! fid = Some l -> heap ft !! l = Some fs -> state fs <> fidXattrWrite ->
  ioRefs fs = 0 ->
  let '(resp, s') := handleClunk range proto (Tclunk.mk fid) s in
  resp = MRclunk Rclunk.mk /\ fids s' = modify l (fun _ => set_closing true (decRefNode range embeds (node fs) (tree (world s))).1 fs)
    (clunk fid ft).2 /\
  released s' = released s ++ releaseNow (decRefNode range embeds (node fs) (tree (world s))).1 fs.
Proof.
  intros <- Hl Hfs Hst Hio. unfold handleClunk, respond, takeFid, onTable, clunk, mbind, M_bind.
  cbn [Tclunk.Fid]. rewrite Hl. unfold stateAt, fsAt. cbn. rewrite Hfs. unfold onTree, currentNode. cbn.
  destruct (decRefNode range embeds (node fs) (tree (world s))) as [last t]. rewrite decide_False by done.
  unfold finishClunkNow, fsAt. cbn. rewrite Hfs. unfold finishClunk. cbn. rewrite Hio. cbn. done.
Qed.
End Sharing.

(** ** Counts, closing and releasing *)

(** Reference counts are exact between requests handled one at a time.  In
    every state such a server can reach, on any file system whose methods leave
    the counts alone, a node's count is the number of fids bound to it over all
    connections (as the [int32] it is stored in, so exactly as long as there
    are fewer than [2^31] fids).  No sequence of attach, walk, clone, clunk,
    remove, create, xattrwalk and teardown, successful or refused, makes them
    drift apart. *)
Theorem refs_count_fids {U Handle XattrWriter} `{NodeOps U Handle XattrWriter}
    `{Capabilities (NS U) NodeId Handle XattrWriter} `{BufPool} (Hops : NodeOps_ok) (Hcaps : Capabilities_ok) c n :
  reachable c -> embeds n = true ->
  refsOf n (tree (ns c)) = int32 (total n (conns c)) /\
  (allFids (conns c) < 2 ^ 31 -> refsOf n (tree (ns c)) = total n (conns c)).
Proof.
  intros Hc En. destruct (reachable_Inv Hops Hcaps c Hc) as [_ Hr]. split; [by apply Hr|]. intros Hall.
  rewrite Hr by done. apply int32_id. pose proof (total_le n (conns c)). pose proof (total_nonneg n (conns c)). lia.
Qed.

(** No request, handled alone, closes a node under a live fid.  When a step
    closes a node that embeds an [Inode] (with fewer than [2^32 - 1] fids), no
    fid of any connection is bound to it except fids the step is itself about:
    the fid a request clunks, removes or rebinds, or the fids of the connection
    being torn down. *)
Theorem close_safe {U Handle XattrWriter} `{NodeOps U Handle XattrWriter}
    `{Capabilities (NS U) NodeId Handle XattrWriter} `{BufPool} (Hops : NodeOps_ok) (Hcaps : Capabilities_ok) c l c' :
  reachable c -> step c l c' -> allFids (conns c) < 2 ^ 32 - 1 ->
  exists evs, log c' = log c ++ evs /\
    forall n, Close n ∈ evs -> embeds n = true ->
    forall i ft fid fs, conns c !! i = Some ft -> abs ft !! fid = Some fs -> node fs = n ->
    match l with
    | LRequest j msg => i = j /\ fid ∈ ownFids msg
    | LTeardown j _ => i = j
    | _ => False
    end.
Proof.
  intros Hc%(reachable_Inv Hops Hcaps) Hstep Hall.
  assert (Hfree : forall i j n ft fid fs, others j c n = 0 -> conns c !! i = Some ft -> abs ft !! fid = Some fs -> node fs = n -> i = j).
  { intros i j n ft fid fs Hz Hi Hfs Hn. destruct (decide (i = j)) as [|Hne]; [done|]. exfalso.
    apply (total_zero n (delete j (conns c)) i ft fid fs); [done|by rewrite lookup_delete_ne by done|done..]. }
  destruct Hstep as [i c Hi|range msize proto maxFids i ft msg c s Hi Hs|range drained i ft c s Hi Hs|c w Hw]; cbn.
  - exists []. rewrite app_nil_r. split; [done|]. by intros n ?%not_elem_of_nil.
  - pose proof (request_good Hops Hcaps range msize proto maxFids i ft msg c Hc Hi) as [_ _ _ (evs & Hr & He)].
    rewrite <- Hs in Hr. exists evs. split; [done|]. intros n Hn En j ft' fid fs Hj Hfs Hnode.
    destruct (He (room_start i ft c Hi Hall) n Hn En) as [Hz Hu]. pose proof (Hfree j i n ft' fid fs Hz Hj Hfs Hnode) as ->.
    split; [done|]. assert (ft' = ft) as -> by congruence.
    destruct (decide (fid ∈ ownFids msg)) as [|Hown]; [done|]. by destruct (Hu fid fs Hown Hfs).
  - pose proof (teardown_good range drained i ft c Hc Hi) as [_ _ _ (evs & Hr & He)].
    rewrite <- Hs in Hr. exists evs. split; [done|]. intros n Hn En j ft' fid fs Hj Hfs Hnode.
    destruct (He (room_start i ft c Hi Hall) n Hn En) as [Hz _]. by apply (Hfree j i n ft' fid fs).
  - exists []. rewrite app_nil_r. split; [done|]. by intros n ?%not_elem_of_nil.
Qed.

(** A clunk handled alone releases what the fid held.  In a reachable state, Tclunk of a
    fid that is not writing an attribute and has no I/O running answers
    Rclunk, unbinds exactly that fid, releases its file handle if it has one,
    and then closes its node exactly when no other fid of any connection is
    bound to it (or the node carries no count). *)
Theorem clunk_releases {U Handle XattrWriter} `{NodeOps U Handle XattrWriter}
    `{Capabilities (NS U) NodeId Handle XattrWriter} `{BufPool} (Hops : NodeOps_ok) (Hcaps : Capabilities_ok)
    range msize proto maxFids c i ft fid fs :
  reachable c -> conns c !! i = Some ft -> abs ft !! fid = Some fs -> state fs <> fidXattrWrite -> ioRefs fs = 0 ->
  allFids (conns c) < 2 ^ 31 ->
  let '(resp, s) := dispatch range msize proto maxFids (MTclunk (Tclunk.mk fid)) (serverOf ft c) in
  resp = MRclunk Rclunk.mk /\ abs (fids s) = delete fid (abs ft) /\
  released s = log c ++ releaseFileHandle (handle fs) ++
    (if embeds (node fs) && negb (total (node fs) (conns c) =? 1) then [] else [Close (node fs)]).
Proof.
  intros Hc Hi Hfs Hst Hio Hall. destruct (reachable_Inv Hops Hcaps c Hc) as [Hwf Hr]. specialize (Hwf i ft Hi).
  pose proof Hfs as Hl. rewrite lookup_abs in Hl. apply bind_Some in Hl as (l & Hl & Hh).
  pose proof (clunk_events range proto ft fid fs l (serverOf ft c) eq_refl Hl Hh Hst Hio) as Hev.
  change (dispatch _ _ _ _ _ _) with (handleClunk range proto (Tclunk.mk fid) (serverOf ft c)).
  destruct (handleClunk _ _ _ _) as [resp s]. destruct Hev as (-> & Hft & Hrel). split; [done|]. split.
  - rewrite Hft. rewrite abs_modify_unbound.
    + unfold clunk. rewrite Hl. apply abs_delete.
    + destruct (clunk fid ft) as [o ft'] eqn:E. unfold clunk in E. rewrite Hl in E. injection E as <- <-. eapply clunk_unbound; [done|].
      unfold clunk. by rewrite Hl.
  - rewrite Hrel. unfold releaseNow. cbn [serverOf released world]. do 2 f_equal.
    destruct (embeds (node fs)) eqn:En; [|by unfold decRefNode; rewrite En].
    pose proof (total_le (node fs) (conns c)).
    assert (0 < total (node fs) (conns c)).
    { unfold total. rewrite (sumOver_lookup _ _ _ _ Hi). fold (total (node fs) (delete i (conns c))).
      pose proof (total_nonneg (node fs) (delete i (conns c))). pose proof (cnt_pos (node fs) fid fs _ Hfs eq_refl). lia. }
    rewrite (decRefNode_last range _ _ (total (node fs) (conns c))); [|rewrite Hr by done; apply int32_id; lia|lia].
    rewrite En. by destruct (_ =? 1).
Qed.

(** ** A file system that opens a node per lookup

    The pattern of [server/passthrough]: [Lookup] and [Mkdir] return a new
    node each time, with a resource that only [Close] releases; [Lookup] puts
    it in the tree as prunable.  The state is the address of the next node. *)
Module PerLookup.
Definition newNode (parent : NodeId) (name : string) (w : NS nat) : result NodeId * NS nat :=
  let n := user w in
  let t := SetPrunable n (Init n (QID.mk QTDIR 0 (Z.of_nat n)) (tree w)) in
  (Ok n, mkNS (AddChild parent name n t) (S n)).

Definition mkdirNode (w : NS nat) : result NodeId * NS nat :=
  let n := user w in (Ok n, mkNS (Init n (QID.mk QTDIR 0 (Z.of_nat n)) (tree w)) (S n)).

#[export] Instance ops : NodeOps nat unit unit := {
  embeds _ := true;
  nodeQID n w := QIDof n (tree w);
  NodeLookuper n := Some (newNode n);
  NodeOpener _ := None; NodeCreater _ := None;
  NodeMkdirer _ := Some (fun _ _ _ => mkdirNode);
  NodeSymlinker _ := None; NodeMknoder _ := None; NodeLinker _ := None; NodeUnlinker _ := None;
  NodeRenamer _ := None; NodeGetattrer _ := None; NodeSetattrer _ := None; NodeReadlinker _ := None;
  NodeStatFSer _ := None; FileSyncer _ := None; NodeFsyncer _ := None; FileLocker _ := None;
  NodeLocker _ := None; RawXattrer _ := None; NodeXattrGetter _ := None; NodeXattrSetter _ := None;
  NodeXattrLister _ := None; NodeXattrRemover _ := None;
  XattrWriter_Commit _ w := (Ok tt, w);
  attacher := None; anames := None; root := 0%nat
}.

#[export] Instance caps : Capabilities (NS nat) NodeId unit unit := {
  FileReader _ := None; FileWriter _ := None; FileRawReaddirer _ := None; FileReaddirer _ := None;
  NodeReader _ := None; NodeWriter _ := None; NodeRawReaddirer _ := None; NodeReaddirer _ := None;
  XattrWriter_Write _ _ w := (Ok 0, w)
}.
#[export] Existing Instance zeroPool.

Lemma ops_ok : NodeOps_ok.
Proof.
  split; cbn; intros; simplify_eq; intros w0; try done; intros n0; cbn; by autorewrite with refs.
Qed.
Lemma caps_ok : Capabilities_ok.
Proof. split; cbn; intros; simplify_eq; done. Qed.

Abbreviation Conf := (@Config nat unit unit).
Definition init : Conf := mkConfig ∅ (mkNS (Init 0 (QID.mk QTDIR 0 0) ∅) 1%nat) [].
Definition connected : Conf := mkConfig {[0%nat := newFidTable]} (ns init) [].

(** Requests of connection 0, one after the other, with their responses. *)
Definition request (msg : Message) (c : Conf) : Message * Conf :=
  let '(r, s) := dispatch map_to_list 8192 protocolL 0 msg (serverOf (default newFidTable (conns c !! 0%nat)) c) in
  (r, mkConfig (<[0%nat := fids s]> (conns c)) (world s) (released s)).
Fixpoint requests (msgs : list Message) (c : Conf) : list Message * Conf :=
  match msgs with
  | [] => ([], c)
  | msg :: msgs => let '(r, c) := request msg c in let '(rs, c) := requests msgs c in (r :: rs, c)
  end.
Definition run (msgs : list Message) : Conf := (requests msgs connected).2.

Lemma requests_reachable msgs c :
  reachable c -> is_Some (conns c !! 0%nat) -> reachable (requests msgs c).2.
Proof.
  revert c. induction msgs as [|msg msgs IH]; intros c Hc [ft Hi]; [done|]. cbn [requests]. unfold request.
  rewrite Hi. change (default newFidTable (Some ft)) with ft.
  destruct (dispatch map_to_list 8192 protocolL 0 msg (serverOf ft c)) as [r s] eqn:E.
  set (c' := mkConfig (<[0%nat := fids s]> (conns c)) (world s) (released s)).
  assert (Hr : reachable c').
  { eapply reach_step; [done|]. eapply (step_request map_to_list 8192 protocolL 0); [done|by rewrite E]. }
  specialize (IH c' Hr). fold c'. destruct (requests msgs c') as [rs c2]. apply IH. cbn. rewrite lookup_insert_eq. eauto.
Qed.

Lemma run_reachable msgs : reachable (run msgs).
Proof.
  apply requests_reachable; [|done]. eapply reach_step; [apply reach_initial|by apply (step_connect 0 init)].
  split; [done|]. split; [done|]. intros n. unfold init. cbn. by rewrite Init_refs.
Qed.

(** The node at [n] was handed to the server, no fid is bound to it, its count
    is zero, and it was not closed. *)
Definition leaked (n : NodeId) (c : Conf) : Prop :=
  (n < user (ns c))%nat /\ allFids (conns c) = 0 /\ refsOf n (tree (ns c)) = 0 /\ Close n ∉ log c.

Definition attach (fid : Fid) : Message := MTattach (Tattach.mk fid NoFid "u" "" 0).
Definition walk (fid newFid : Fid) (names : list string) : Message := MTwalk (Twalk.mk fid newFid names).
Definition mkdir (fid : Fid) (name : string) : Message := MTmkdir (Tmkdir.mk fid name 0 0).
Definition clunkOf (fid : Fid) : Message := MTclunk (Tclunk.mk fid).
Definition isError (m : Message) : bool := match m with MRlerror _ | MRerror _ => true | _ => false end.
End PerLookup.

(** C15: nodes that are never closed.  On a file system that opens a resource
    for every node it returns, a client that walks fid 2 to [a], walks it in
    place to [b], and clunks everything it holds, leaves [a]'s node open: the
    in-place walk takes its count to zero and drops the result.  A client that
    makes a directory and clunks everything leaves the new directory's node
    open: it is never bound to a fid.  Every request succeeded. *)
Theorem node_close_missed :
  let walked := [PerLookup.attach 1; PerLookup.walk 1 2 ["a"]; PerLookup.walk 2 2 ["b"];
                 PerLookup.clunkOf 2; PerLookup.clunkOf 1] in
  let made := [PerLookup.attach 1; PerLookup.mkdir 1 "d"; PerLookup.clunkOf 1] in
  forallb (fun m => negb (PerLookup.isError m)) (PerLookup.requests walked PerLookup.connected).1 = true /\
  PerLookup.leaked 1 (PerLookup.run walked) /\ log (PerLookup.run walked) = [Close 2%nat; Close 0%nat] /\
  forallb (fun m => negb (PerLookup.isError m)) (PerLookup.requests made PerLookup.connected).1 = true /\
  PerLookup.leaked 1 (PerLookup.run made) /\ log (PerLookup.run made) = [Close 0%nat].
Proof.
  cbv zeta. unfold PerLookup.leaked.
  match goal with |- _ /\ (_ /\ _ /\ _ /\ _) /\ ?E1 /\ _ /\ (_ /\ _ /\ _ /\ _) /\ ?E2 =>
    assert (H1 : E1) by (by vm_compute); assert (H2 : E2) by (by vm_compute) end.
  rewrite H1, H2, !not_elem_of_cons. clear.
  split_and!; try apply not_elem_of_nil; try discriminate; try reflexivity; first [apply Nat.ltb_lt; by vm_compute | by vm_compute].
Qed.

(** *** At a concrete server *)

#[local] Existing Instances PerLookup.ops PerLookup.caps zeroPool.

Lemma refs_count_fids_witness :
  let c := PerLookup.run [PerLookup.attach 1; PerLookup.walk 1 2 ["a"]; PerLookup.walk 2 3 []] in
  total 1 (conns c) = 2 /\ refsOf 1 (tree (ns c)) = 2.
Proof.
  cbv zeta. split; [by vm_compute|].
  destruct (refs_count_fids PerLookup.ops_ok PerLookup.caps_ok _ 1 (PerLookup.run_reachable
    [PerLookup.attach 1; PerLookup.walk 1 2 ["a"]; PerLookup.walk 2 3 []]) eq_refl) as [Hr _].
  rewrite Hr. by vm_compute.
Defined.

(** Fid 2 is the last fid on node 1: its clunk closes it. *)
Lemma close_safe_witness :
  let c := PerLookup.run [PerLookup.attach 1; PerLookup.walk 1 2 ["a"]] in
  let c' := (PerLookup.request (PerLookup.clunkOf 2) c).2 in
  log c' = [Close 1%nat] /\
  exists evs, log c' = log c ++ evs /\
    forall n, Close n ∈ evs -> @embeds nat unit unit PerLookup.ops n = true ->
    forall i ft fid fs, conns c !! i = Some ft -> abs ft !! fid = Some fs -> node fs = n -> i = 0%nat /\ fid ∈ [2].
Proof.
  cbv zeta. split; [by vm_compute|].
  set (c := PerLookup.run _). set (ft := default newFidTable (conns c !! 0%nat)).
  apply (close_safe PerLookup.ops_ok PerLookup.caps_ok _ (LRequest 0 (PerLookup.clunkOf 2)) _ (PerLookup.run_reachable _)).
  - unfold PerLookup.request. destruct (dispatch _ _ _ _ _ _) as [r s] eqn:E. cbn [snd].
    apply (step_request map_to_list 8192 protocolL 0 0 ft); [by vm_compute|exact (eq_sym (f_equal snd E))].
  - by vm_compute.
Defined.

Lemma clunk_releases_witness :
  let c := PerLookup.run [PerLookup.attach 1; PerLookup.walk 1 2 ["a"]; PerLookup.walk 2 3 []] in
  let ft := default newFidTable (conns c !! 0%nat) in
  released (dispatch map_to_list 8192 protocolL 0 (PerLookup.clunkOf 2) (serverOf ft c)).2 = [].
Proof.
  cbv zeta. set (c := PerLookup.run _). set (ft := default newFidTable (conns c !! 0%nat)).
  pose proof (clunk_releases PerLookup.ops_ok PerLookup.caps_ok map_to_list 8192 protocolL 0 c 0 ft 2
    (newFidState 1%nat "/a" fidAllocated) (PerLookup.run_reachable _)) as Hc.
  change (PerLookup.clunkOf 2) with (MTclunk (Tclunk.mk 2)).
  fold c ft. destruct (dispatch map_to_list 8192 protocolL 0 (MTclunk (Tclunk.mk 2)) (serverOf ft c)) as [r s]. cbn [snd].
  destruct Hc as (_ & _ & ->); [by vm_compute|by vm_compute|done|done|by vm_compute|by vm_compute].
Defined.
