(* ===== verification/SharedRefs.v ===== *)
(** * Reference counts under concurrent requests

    [Sharing] runs a request as one step.  The server does not: every
    connection has many goroutines, and a handler of [server/dispatch.go] or
    [server/bridge.go] binds a fid in one critical section ([fidTable.add],
    [update], [updateAndOpen]) and counts it in another ([incRefNode]), just
    as [handleClunk] unbinds in one and counts in another ([decRefNode]).
    This file interleaves those sections, over all connections that share the
    tree.

    A goroutine is the list of the sections its handler still has to run
    ([act]); [perform] is one of them on the connection's table and the tree.
    The count of a node is the number of fids bound to it, less the goroutines
    that have bound one and not counted it, plus those that have unbound one
    and not counted that.  So a node found without references may have been
    bound a moment ago: the last theorem closes it under a live fid. *)

From S2P Require Import Prelude GoIO Types Errno Proto Messages P9l P9u Message Dirents.
From S2P Require Import Bufpool FidTable Bridge Inode Namespace RefCount Sharing.

Section SharedRefs.
Context {Handle XattrWriter : Type}.
Abbreviation FS := (fidState NodeId Handle XattrWriter).
Abbreviation FT := (fidTable NodeId Handle XattrWriter).
Abbreviation Event := (@Event NodeId Handle).

(** What a handler does with the state it got from the table. *)
Inductive use : Type :=
  | UClone (newFid : Fid)
  | UWalk (fid newFid : Fid) (names : list string)
  | UXattrwalk (newFid : Fid) (name : string) (data : bytes).

(** The sections of the handlers.  [walkStart] is the node a walk began from,
    if the handler closes the node it could not bind; [more] the names still to
    look up. *)
Inductive act : Type :=
  | ASource (l : Loc) (k : use)
  | AWalk (l : Loc) (fid newFid : Fid) (names : list string) (walkStart current : NodeId) (more : nat)
  | AAdd (fid : Fid) (fs : FS) (walkStart : option NodeId)
  | AUpdate (fid : Fid) (n : NodeId) (p : string) (walkStart : NodeId)
  | ACreate (fid : Fid)
  | AUpdateAndOpen (fid : Fid) (n : NodeId) (h : option Handle)
  | AInc (n : NodeId)
  | ADec (n : NodeId)
  | AClunk (fid : Fid) (remove : bool)
  (** The state has left the table; [n] is its node, which no one rewrites
      any more. *)
  | AClunked (l : Loc) (remove : bool) (n : NodeId)
  | AState (l : Loc) (lastRef : bool)
  | AFinish (l : Loc) (lastRef : bool)
  | ARelease (l : Loc) (closeNode : bool)
  | ABeginIO (l : Loc)
  | AEndIO (l : Loc)
  | AClunkAll (drained : bool)
  | AStates (drained : bool) (ls : list (Loc * NodeId))
  | AUnbound (n : NodeId)
  | AOrphan (n : NodeId).

(** What the file system answers. *)
Inductive choice : Type :=
  | Found (child : NodeId)
  | Made (child : NodeId) (h : option Handle)
  | Fails.

(** Why the server goes on to close a node: [decRefNode] said it was the last
    reference, [closeUnboundNode] saw none, or [Create] made it for a fid that
    is gone. *)
Inductive verdict : Type :=
  | LastRef (n : NodeId)
  | NoRefs (n : NodeId)
  | Orphaned (n : NodeId).
Definition vnode (v : verdict) : NodeId := match v with LastRef n | NoRefs n | Orphaned n => n end.

Record Out : Type := mkOut {
  next : list act;
  tab : FT;
  tre : Tree;
  judged : list verdict;
  events : list Event
}.

Section Perform.
Context (range : gmap string NodeId -> list (string * NodeId)) (embeds : NodeId -> bool) (maxFids : Z).

(** [if current != walkStart { closeUnboundNode(current) }]. *)
Definition dropNode (walkStart current : NodeId) : list act :=
  if decide (current = walkStart) then [] else [AUnbound current].

Definition deferred (l : Loc) (r : option bool) : list act :=
  match r with Some cn => [ARelease l cn] | None => [] end.

(** [decRefNode] on the node of a state that left the table. *)
Definition dropState (n : NodeId) (acts : bool -> list act) (ft : FT) (t : Tree) : Out :=
  let '(last, t) := decRefNode range embeds n t in
  mkOut (acts last) ft t (if last then [LastRef n] else []) [].

(** [xfs] of [addXattrReadFid]. *)
Definition xattrRead (n : NodeId) (name : string) (data : bytes) : FS :=
  mkFidState n "" fidXattrRead None [] false 0 false false (Some n) name data 0 0 None.

Definition perform (a : act) (c : choice) (ft : FT) (t : Tree) : option Out :=
  let go acts := Some (mkOut acts ft t [] []) in
  match a with
  | ASource l k =>
      fs ← heap ft !! l;
      match k with
      | UClone newFid =>
          let '(cloneNode, clonePath) := nodeAndPath fs in
          go [AAdd newFid (newFidState cloneNode clonePath fidAllocated) None]
      | UWalk fid newFid names =>
          go [AWalk l fid newFid names (currentNode fs) (currentNode fs) (length names)]
      | UXattrwalk newFid name data => go [AAdd newFid (xattrRead (currentNode fs) name data) None]
      end
  | AWalk l fid newFid names walkStart current more =>
      match more with
      | S more =>
          match c with
          | Found child =>
              go ((if decide (current = child) then [] else dropNode walkStart current) ++
                  [AWalk l fid newFid names walkStart child more])
          | _ => go (dropNode walkStart current)
          end
      | O =>
          src ← heap ft !! l;
          let newPath := pathClean (currentPath src +:+ "/" +:+ String.concat "/" names) in
          if fid =? newFid then go [AUpdate fid current newPath walkStart]
          else go [AAdd newFid (newFidState current newPath fidAllocated) (Some walkStart)]
      end
  | AAdd fid fs walkStart =>
      let '(l, ft1) := alloc fs ft in
      let '(r, ft1) := add fid l maxFids ft1 in
      match r with
      | Ok _ => Some (mkOut [AInc (node fs)] ft1 t [] [])
      | Err _ =>
          Some (mkOut (match walkStart with Some start => dropNode start (node fs) | None => [] end) ft1 t [] [])
      end
  | AUpdate fid n p walkStart =>
      let '(prev, ft1) := update fid n p ft in
      Some (mkOut (match prev with Some prev => [AInc n; ADec prev] | None => dropNode walkStart n end) ft1 t [] [])
  | ACreate fid => match c with Made child h => go [AUpdateAndOpen fid child h] | _ => go [] end
  | AUpdateAndOpen fid n h =>
      let '(prev, ft1) := updateAndOpen fid n h ft in
      match prev with
      | Some prev => Some (mkOut [AInc n; ADec prev] ft1 t [] [])
      | None => Some (mkOut [AOrphan n] ft1 t [Orphaned n] (releaseFileHandle h))
      end
  | AInc n => Some (mkOut [] ft (incRefNode embeds n t) [] [])
  | ADec n => Some (mkOut [] ft (decRefNode range embeds n t).2 [] [])
  | AClunk fid remove =>
      let '(o, ft1) := clunk fid ft in
      match o with
      | Some l => fs ← heap ft !! l; Some (mkOut [AClunked l remove (node fs)] ft1 t [] [])
      | None => go []
      end
  | AClunked l remove _ =>
      fs ← heap ft !! l;
      Some (dropState (currentNode fs) (fun last => [if remove : bool then AFinish l last else AState l last]) ft t)
  | AState l last =>
      fs ← heap ft !! l;
      if decide (state fs = fidXattrWrite)
      then Some (mkOut [] (modify l (fun _ => set_closing true (closeNode fs) fs) ft) t [] [])
      else go [AFinish l last]
  | AFinish l last =>
      fs ← heap ft !! l;
      let '(r, fs) := finishClunk last fs in
      Some (mkOut (deferred l r) (modify l (fun _ => fs) ft) t [] [])
  | ARelease l cn => fs ← heap ft !! l; Some (mkOut [] ft t [] (releaseNow cn fs))
  | ABeginIO l =>
      fs ← heap ft !! l;
      let '(ok, fs) := beginIO fs in
      Some (mkOut (if ok : bool then [AEndIO l] else []) (modify l (fun _ => fs) ft) t [] [])
  | AEndIO l =>
      fs ← heap ft !! l;
      let '(r, fs) := endIO fs in
      Some (mkOut (deferred l r) (modify l (fun _ => fs) ft) t [] [])
  | AClunkAll drained =>
      let '(ls, ft1) := clunkAll ft in
      Some (mkOut [AStates drained (omap (fun l => fs ← heap ft !! l; Some (l, node fs)) ls)] ft1 t [] [])
  | AStates drained ls =>
      match ls with
      | [] => go []
      | (l, _) :: ls =>
          fs ← heap ft !! l;
          Some (dropState (currentNode fs)
            (fun last => (if drained : bool then [ARelease l last] else []) ++ [AStates drained ls]) ft t)
      end
  | AUnbound n =>
      if embeds n && negb (refsOf n t =? 0) then go [] else Some (mkOut [AOrphan n] ft t [NoRefs n] [])
  | AOrphan n => Some (mkOut [] ft t [] [Close n])
  end.

(** ** The server *)

(** The requests that touch bindings or counts, after the checks that come
    first; [n] is the node the attach resolved to.  [QTeardown] is [cleanup],
    and with [drained] also [handleReVersion]. *)
Inductive request : Type :=
  | QAttach (fid : Fid) (n : NodeId) (p : string)
  | QWalk (fid newFid : Fid) (names : list string)
  | QXattrwalk (fid newFid : Fid) (name : string) (data : bytes)
  | QCreate (fid : Fid)
  | QClunk (fid : Fid)
  | QRemove (fid : Fid)
  | QIO (fid : Fid)
  | QTeardown (drained : bool).

Definition begin (q : request) (ft : FT) : list act :=
  let source fid (acts : Loc -> list act) := match get ft fid with Some l => acts l | None => [] end in
  match q with
  | QAttach fid n p => [AAdd fid (newFidState n p fidAllocated) None]
  | QWalk fid newFid [] => source fid (fun l => if fid =? newFid then [] else [ASource l (UClone newFid)])
  | QWalk fid newFid names => source fid (fun l => [ASource l (UWalk fid newFid names)])
  | QXattrwalk fid newFid name data => source fid (fun l => [ASource l (UXattrwalk newFid name data)])
  | QCreate fid => [ACreate fid]
  | QClunk fid => [AClunk fid false]
  | QRemove fid => [AClunk fid true]
  | QIO fid => source fid (fun l => [ABeginIO l])
  | QTeardown drained => [AClunkAll drained]
  end.

Record goroutine : Type := mkGo { conn : nat; todo : list act }.

Record Sys : Type := mkSys {
  conns : gmap nat FT;
  gos : gmap nat goroutine;
  tree : Tree;
  verdicts : list verdict;
  log : list Event
}.

Inductive Label : Type :=
  | LConnect (i : nat)
  | LBegin (g i : nat) (q : request)
  | LRun (g : nat) (c : choice)
  (** A section that changes neither bindings nor nodes: [markOpenedWithHandle],
      the transition of [handleXattrcreate], a write to an attribute, the
      directory cache, [setPath]. *)
  | LEdit (i : nat) (l : Loc) (fs : FS).

Definition edits (fs fs' : FS) : Prop :=
  node fs' = node fs /\ ioRefs fs' = ioRefs fs /\ closing fs' = closing fs /\ closeNode fs' = closeNode fs.
#[global] Instance edits_dec fs fs' : Decision (edits fs fs') := ltac:(unfold edits; apply _).

Definition exec (lab : Label) (s : Sys) : option Sys :=
  match lab with
  | LConnect i =>
      match conns s !! i with
      | None => Some (mkSys (<[i := newFidTable]> (conns s)) (gos s) (tree s) (verdicts s) (log s))
      | Some _ => None
      end
  | LBegin g i q =>
      ft ← conns s !! i;
      match gos s !! g with
      | None => Some (mkSys (conns s) (<[g := mkGo i (begin q ft)]> (gos s)) (tree s) (verdicts s) (log s))
      | Some _ => None
      end
  | LRun g c =>
      go ← gos s !! g;
      ft ← conns s !! conn go;
      match todo go with
      | [] => None
      | a :: rest =>
          o ← perform a c ft (tree s);
          Some (mkSys (<[conn go := tab o]> (conns s)) (<[g := mkGo (conn go) (next o ++ rest)]> (gos s)) (tre o)
            (verdicts s ++ judged o) (log s ++ events o))
      end
  | LEdit i l fs' =>
      ft ← conns s !! i;
      fs ← heap ft !! l;
      if decide (edits fs fs')
      then Some (mkSys (<[i := modify l (fun _ => fs') ft]> (conns s)) (gos s) (tree s) (verdicts s) (log s))
      else None
  end.

(** One section of a goroutine, or the file system's own doing, which leaves
    the counts alone. *)
Inductive step : Sys -> Sys -> Prop :=
  | step_exec lab s s' : exec lab s = Some s' -> step s s'
  | step_system t s : (forall n, refsOf n t = refsOf n (tree s)) ->
      step s (mkSys (conns s) (gos s) t (verdicts s) (log s)).

Definition initial (t : Tree) : Sys := mkSys ∅ ∅ t [] [].

(** From a tree nobody has bound yet. *)
Definition reachable (s : Sys) : Prop := exists t, (forall n, refsOf n t = 0) /\ Reachable (initial t) step s.

(** ** Between binding and counting *)

Definition same (m n : NodeId) : nat := if decide (m = n) then 1%nat else 0%nat.

(** The fids of [n] the section will still count, and those it will discount. *)
Definition actInc (n : NodeId) (a : act) : nat := match a with AInc m => same m n | _ => 0 end%nat.
Definition actDec (n : NodeId) (a : act) : nat :=
  match a with
  | ADec m | AClunked _ _ m => same m n
  | AStates _ ls => sum_list_with (same n) ls.*2
  | _ => 0
  end%nat.

Definition entering (n : NodeId) (s : Sys) : Z := Z.of_nat (weigh (fun go => sum_list_with (actInc n) (todo go)) (gos s)).
Definition leaving (n : NodeId) (s : Sys) : Z := Z.of_nat (weigh (fun go => sum_list_with (actDec n) (todo go)) (gos s)).

(** ** Invariant *)

(** [l] has left the table, with node [n]. *)
Definition held (ft : FT) (l : Loc) (n : NodeId) : Prop :=
  exists fs, heap ft !! l = Some fs /\ node fs = n /\ unbound ft l.

Record tabOk (vs : list NodeId) (ft : FT) : Prop := {
  t_wf : FidTable.wf ft;
  t_gone l fs : heap ft !! l = Some fs -> closing fs = true \/ closeNode fs = true -> unbound ft l;
  t_close l fs : heap ft !! l = Some fs -> closeNode fs = true -> node fs ∈ vs
}.

Definition actOk (ft : FT) (vs : list NodeId) (a : act) : Prop :=
  match a with
  | AAdd _ fs _ => closing fs = false /\ closeNode fs = false
  | AClunked l _ n => held ft l n
  | AState l last | AFinish l last => exists n, held ft l n /\ (last = true -> n ∈ vs)
  | ARelease l cn => cn = true -> exists n, held ft l n /\ n ∈ vs
  | AStates _ ls => Forall (fun ln => held ft ln.1 ln.2) ls
  | AOrphan n => n ∈ vs
  | _ => True
  end.

(** States that left the table stay out of it. *)
Definition keepsHeld (ft ft' : FT) : Prop := forall l n, held ft l n -> held ft' l n.

Lemma actOk_keeps ft ft' vs vs' a : keepsHeld ft ft' -> vs ⊆ vs' -> actOk ft vs a -> actOk ft' vs' a.
Proof.
  intros Hk Hv. destruct a; cbn; try done; try (by eauto); try (intros (n & Hh & Hn); exists n; by auto).
  - intros Hr Hc. destruct (Hr Hc) as (n & Hh & Hn). exists n. auto.
  - intros Hls. eapply Forall_impl; [exact Hls|]. intros [l n]. apply Hk.
Qed.

Lemma tabOk_more vs vs' ft : vs ⊆ vs' -> tabOk vs ft -> tabOk vs' ft.
Proof. intros Hv [Hw Hg Hc]. split; eauto. Qed.

Lemma newFidTable_ok vs : tabOk vs newFidTable.
Proof. split; [apply newFidTable_wf|intros l fs; cbn; by rewrite lookup_empty..]. Qed.

(** A state is rewritten: in place with its node, or bound with another. *)
Lemma keepsHeld_modify l f ft :
  (forall fs, heap ft !! l = Some fs -> node (f fs) = node fs \/ ~ unbound ft l) -> keepsHeld ft (modify l f ft).
Proof.
  intros Hf l' n (fs & Hl & Hn & Hu). destruct (decide (l = l')) as [->|Hne].
  - exists (f fs). cbn. rewrite lookup_alter_eq, Hl. destruct (Hf fs Hl) as [Hnode|]; [|done]. by rewrite Hnode.
  - exists fs. cbn. by rewrite lookup_alter_ne.
Qed.

Lemma tabOk_modify vs l f fs ft : heap ft !! l = Some fs ->
  (closing (f fs) = true \/ closeNode (f fs) = true -> unbound ft l) ->
  (closeNode (f fs) = true -> node (f fs) ∈ vs) -> tabOk vs ft -> tabOk vs (modify l f ft).
Proof.
  intros Hl Hu Hv [Hw Hg Hc]. split; [by apply modify_wf|intros l' fs'..]; cbn;
    (destruct (decide (l = l')) as [<-|Hne];
      [rewrite lookup_alter_eq, Hl; cbn; intros [= <-]|rewrite lookup_alter_ne by done]); try done.
  - by apply Hg.
  - by apply Hc.
Qed.

Lemma bound_not_unbound (ft : FT) fid l : FidTable.fids ft !! fid = Some l -> ~ unbound ft l.
Proof. intros Hl Hu. by apply (Hu fid). Qed.

(** ** The methods of the table *)

Lemma alloc_ok vs fs ft l ft1 : closing fs = false -> closeNode fs = false -> alloc fs ft = (l, ft1) -> tabOk vs ft ->
  tabOk vs ft1 /\ keepsHeld ft ft1 /\ unbound ft1 l /\ heap ft1 !! l = Some fs.
Proof.
  intros Hc1 Hc2 E [Hw Hg Hc]. pose proof (alloc_fresh _ _ _ _ E) as Hf. destruct (alloc_wf _ _ _ _ E Hw) as [Hw1 Hu].
  injection E as El <-. rewrite El in *. split; [|split; [|split; [done|by cbn; rewrite lookup_insert_eq]]].
  - split; [done|intros l' fs'..]; cbn; intros [[<- <-]|[_ H]]%lookup_insert_Some.
    + intros [?|?]; congruence.
    + by apply Hg.
    + congruence.
    + by apply (Hc l').
  - intros l' n (fs' & Hl & Hn & Hul). exists fs'. cbn. rewrite lookup_insert_ne by congruence. done.
Qed.

Lemma add_ok vs fid fs ft l ft1 r ft2 : closing fs = false -> closeNode fs = false ->
  alloc fs ft = (l, ft1) -> add fid l maxFids ft1 = (r, ft2) -> tabOk vs ft ->
  tabOk vs ft2 /\ keepsHeld ft ft2 /\
  forall n, cnt n (abs ft2) = cnt n (abs ft) + match r with Ok _ => one (node fs) n | Err _ => 0 end.
Proof.
  intros Hc1 Hc2 E1 E2 Hok. destruct (alloc_ok vs fs ft l ft1 Hc1 Hc2 E1 Hok) as ([Hw Hg Hc] & Hk & Hu & Hl).
  pose proof (add_wf fid l maxFids ft1 Hw Hu (ex_intro _ fs Hl)) as Hw2. rewrite E2 in Hw2. cbn in Hw2.
  pose proof (abs_alloc _ _ _ _ (t_wf _ _ Hok) E1) as Ea. unfold add in E2. destruct (_ && _).
  { injection E2 as <- <-. split; [done|]. split; [done|]. intros n. rewrite Ea. lia. }
  destruct (FidTable.fids ft1 !! fid) eqn:Ef; injection E2 as <- <-.
  { split; [done|]. split; [done|]. intros n. rewrite Ea. lia. }
  assert (Hun : forall l', unbound ft1 l' -> l' <> l -> unbound (mkFidTable (heap ft1) (<[fid := l]> (FidTable.fids ft1))) l').
  { intros l' Hu' Hne fid'. cbn. rewrite lookup_insert_Some. intros [[_ ?]|[_ ?]]; [congruence|by apply (Hu' fid')]. }
  split; [split; [done| |by apply Hc]|split].
  - intros l' fs' Hl' Hcl. apply Hun; [by eapply Hg|]. intros ->. cbn in Hl'. destruct Hcl; congruence.
  - intros l' n Hh. destruct (Hk l' n Hh) as (fs' & Hl' & Hn & Hu'). exists fs'. split; [done|]. split; [done|].
    apply Hun; [done|]. intros ->. destruct Hh as (fs0 & Hl0 & _). pose proof (alloc_fresh _ _ _ _ E1). congruence.
  - intros n. rewrite (abs_add fid l fs) by done. rewrite Ea. apply cnt_insert. rewrite <- Ea. by apply abs_None.
Qed.

Lemma clunk_ok vs fid ft l ft1 : clunk fid ft = (Some l, ft1) -> tabOk vs ft ->
  exists fs, heap ft !! l = Some fs /\ tabOk vs ft1 /\ keepsHeld ft ft1 /\ held ft1 l (node fs) /\
    forall n, cnt n (abs ft1) = cnt n (abs ft) - one (node fs) n.
Proof.
  intros E [Hw Hg Hc]. pose proof (clunk_unbound _ _ _ _ Hw E) as Hu. unfold clunk in E.
  destruct (FidTable.fids ft !! fid) as [l'|] eqn:El; [|done]. injection E as -> <-.
  destruct (wf_alloc _ Hw _ _ El) as [fs Hfs]. exists fs.
  assert (Hun : forall l', unbound ft l' -> unbound (mkFidTable (heap ft) (delete fid (FidTable.fids ft))) l').
  { intros l' Hu' fid'. cbn. rewrite lookup_delete_Some. intros [_ ?]. by apply (Hu' fid'). }
  split; [done|]. split; [split; [|by eauto|done]|split; [|split; [by exists fs|]]].
  - pose proof (clunk_wf fid ft Hw) as H. unfold clunk in H. by rewrite El in H.
  - intros l' n (fs' & Hl' & Hn & Hu'). exists fs'. auto.
  - intros n. rewrite abs_delete. apply cnt_delete. by apply (abs_bound _ _ l).
Qed.

Lemma update_ok vs fid n p ft prev ft1 : update fid n p ft = (prev, ft1) -> tabOk vs ft ->
  tabOk vs ft1 /\ keepsHeld ft ft1 /\
  forall m, cnt m (abs ft1) = cnt m (abs ft) + match prev with Some prev => one n m - one prev m | None => 0 end.
Proof.
  intros E Hok. pose proof Hok as [Hw Hg Hc]. unfold update in E.
  destruct (FidTable.fids ft !! fid) as [l|] eqn:El; [|injection E as <- <-; split; [done|]; split; [by intros ?|intros; lia]].
  destruct (heap ft !! l) as [fs|] eqn:Efs; [|injection E as <- <-; split; [done|]; split; [by intros ?|intros; lia]].
  injection E as <- <-. pose proof (bound_not_unbound _ _ _ El) as Hb.
  assert (Hn : ~ (closing fs = true \/ closeNode fs = true)) by (intros H; by apply Hb, (Hg l fs)). split; [|split].
  - eapply tabOk_modify; [exact Efs| | |done]; cbn; intros H; exfalso; apply Hn; auto.
  - apply keepsHeld_modify. by right.
  - intros m. rewrite (abs_modify fid) by done. pose proof (abs_bound _ _ _ _ El Efs) as Ha.
    rewrite (alter_insert _ _ fs), (cnt_update m fid fs) by done. cbn. lia.
Qed.

Lemma updateAndOpen_ok vs fid n h ft prev ft1 : updateAndOpen fid n h ft = (prev, ft1) -> tabOk vs ft ->
  tabOk vs ft1 /\ keepsHeld ft ft1 /\
  forall m, cnt m (abs ft1) = cnt m (abs ft) + match prev with Some prev => one n m - one prev m | None => 0 end.
Proof.
  intros E Hok. pose proof Hok as [Hw Hg Hc]. unfold updateAndOpen in E.
  destruct (FidTable.fids ft !! fid) as [l|] eqn:El; [|injection E as <- <-; split; [done|]; split; [by intros ?|intros; lia]].
  destruct (heap ft !! l) as [fs|] eqn:Efs; [|injection E as <- <-; split; [done|]; split; [by intros ?|intros; lia]].
  destruct (decide _); injection E as <- <-; [|split; [done|]; split; [by intros ?|intros; lia]].
  pose proof (bound_not_unbound _ _ _ El) as Hb.
  assert (Hn : ~ (closing fs = true \/ closeNode fs = true)) by (intros H; by apply Hb, (Hg l fs)). split; [|split].
  - eapply tabOk_modify; [exact Efs| | |done]; cbn; intros H; exfalso; apply Hn; auto.
  - apply keepsHeld_modify. by right.
  - intros m. rewrite (abs_modify fid) by done. pose proof (abs_bound _ _ _ _ El Efs) as Ha.
    rewrite (alter_insert _ _ fs), (cnt_update m fid fs) by done. cbn. lia.
Qed.

Lemma one_sym m n : one m n = one n m.
Proof. unfold one. repeat case_decide; congruence. Qed.
Lemma same_one m n : Z.of_nat (same m n) = one m n.
Proof. unfold same, one. by case_decide. Qed.

Lemma states_bound n (h : gmap Loc FS) ls :
  Z.of_nat (sum_list_with (same n) (omap (fun l => fs ← h !! l; Some (l, node fs)) ls).*2) = boundTo n (omap (fun l => h !! l) ls).
Proof.
  induction ls as [|l ls IH]; [done|]. cbn. destruct (h !! l) as [fs|]; cbn; [|done].
  rewrite boundTo_cons, <- IH, Nat2Z.inj_add, same_one. unfold one. repeat case_decide; congruence.
Qed.

Lemma clunkAll_ok vs ft ls ft1 : clunkAll ft = (ls, ft1) -> tabOk vs ft ->
  let states := omap (fun l => fs ← heap ft !! l; Some (l, node fs)) ls in
  tabOk vs ft1 /\ keepsHeld ft ft1 /\ Forall (fun ln => held ft1 ln.1 ln.2) states /\
  forall n, cnt n (abs ft1) = cnt n (abs ft) - Z.of_nat (sum_list_with (same n) states.*2).
Proof.
  intros E [Hw Hg Hc]. injection E as <- <-. cbv zeta. set (ft1 := mkFidTable _ _).
  assert (Hun : forall l, unbound ft1 l) by (intros l fid; cbn; by rewrite lookup_empty).
  split; [split; [|by intros|done]|split; [|split]].
  - split; intros *; cbn; by rewrite lookup_empty.
  - intros l n (fs & Hl & Hn & _). by exists fs.
  - apply Forall_forall. intros [l n] (l' & _ & Hl)%list_elem_of_omap. apply bind_Some in Hl as (fs & Hfs & [= <- <-]).
    by exists fs.
  - intros n. rewrite states_bound. assert (abs ft1 = ∅) as -> by (unfold abs; cbn; apply omap_empty).
    rewrite cnt_empty, (cnt_boundTo n (abs ft)), (boundTo_perm n _ _ (snd_map_to_list_abs ft Hw)). lia.
Qed.

(** ** Counts *)

(** [n]'s count is [z], as far as an [int32] goes. *)
Definition counts (n : NodeId) (z : Z) (t : Tree) : Prop := refsOf n t = int32 z.

Lemma counts_inc m n z t : embeds n = true -> counts n z t -> counts n (z + one m n) (incRefNode embeds m t).
Proof.
  unfold counts, incRefNode, one. intros En Hz. destruct (embeds m) eqn:Em.
  - rewrite incRef_refs, Hz. case_decide; [by rewrite int32_add|]. by rewrite Z.add_0_r.
  - rewrite decide_False by congruence. by rewrite Z.add_0_r.
Qed.

Lemma counts_dec m n z t : embeds n = true -> counts n z t -> counts n (z - one m n) (decRefNode range embeds m t).2.
Proof.
  unfold counts, decRefNode, one. intros En Hz. destruct (embeds m) eqn:Em; cbn.
  - rewrite (proj1 (decRef_refs range m n t)), Hz. case_decide; [by apply (int32_add _ (-1))|]. by rewrite Z.sub_0_r.
  - rewrite decide_False by congruence. by rewrite Z.sub_0_r.
Qed.

(** ** One section *)

(** What a goroutine owes a count. *)
Definition owed (n : NodeId) (acts : list act) : Z :=
  Z.of_nat (sum_list_with (actDec n) acts) - Z.of_nat (sum_list_with (actInc n) acts).

Lemma owed_app n l k : owed n (l ++ k) = owed n l + owed n k.
Proof. unfold owed. rewrite !sum_list_with_app. lia. Qed.
Lemma owed_drop n start cur : owed n (dropNode start cur) = 0.
Proof. unfold dropNode. by case_decide. Qed.
Lemma drop_ok ft vs start cur : Forall (actOk ft vs) (dropNode start cur).
Proof. unfold dropNode. case_decide; by repeat constructor. Qed.

Record performed (vs : list NodeId) (a : act) (ft : FT) (t : Tree) (o : Out) : Prop := {
  p_tab : tabOk (vs ++ (vnode <$> judged o)) (tab o);
  p_held : keepsHeld ft (tab o);
  p_next : Forall (actOk (tab o) (vs ++ (vnode <$> judged o))) (next o);
  p_close n : Close n ∈ events o -> n ∈ vs;
  p_count n z : embeds n = true -> counts n z t ->
    counts n (z + (cnt n (abs (tab o)) - cnt n (abs ft)) + (owed n (next o) - owed n [a])) (tre o)
}.

(** A section that only reads. *)
Lemma performed_read vs a ft t acts evs : tabOk vs ft -> Forall (actOk ft vs) acts ->
  (forall n, owed n acts = owed n [a]) -> (forall n, Close n ∈ evs -> n ∈ vs) ->
  performed vs a ft t (mkOut acts ft t [] evs).
Proof.
  intros Hok Ha Ho He. split; cbn [judged events tab tre next]; rewrite ?app_nil_r; try done; [by intros ?|]. intros n z _. rewrite Ho.
  by replace (z + _ + _) with z by lia.
Qed.

(** A section on the table. *)
Lemma performed_table vs a ft t acts ft1 : tabOk vs ft1 -> keepsHeld ft ft1 -> Forall (actOk ft1 vs) acts ->
  (forall n, cnt n (abs ft1) - cnt n (abs ft) + owed n acts = owed n [a]) ->
  performed vs a ft t (mkOut acts ft1 t [] []).
Proof.
  intros Hok Hk Ha Ho. split; cbn [judged events tab tre next]; rewrite ?app_nil_r; try done.
  - by intros n ?%not_elem_of_nil.
  - intros n z _. specialize (Ho n). by replace (z + _ + _) with z by lia.
Qed.

(** A state that left the table is rewritten, or a bound one keeps its node. *)
Lemma performed_modify vs a ft t acts l fs fs' : tabOk vs ft -> heap ft !! l = Some fs -> node fs' = node fs ->
  (closing fs' = true \/ closeNode fs' = true -> unbound ft l) -> (closeNode fs' = true -> node fs ∈ vs) ->
  Forall (actOk (modify l (fun _ => fs') ft) vs) acts -> (forall n, owed n acts = owed n [a]) ->
  performed vs a ft t (mkOut acts (modify l (fun _ => fs') ft) t [] []).
Proof.
  intros Hok Hl Hn Hu Hv Ha Ho. apply performed_table; [|by apply keepsHeld_modify; intros fs0 ?; left; congruence|done|].
  - eapply tabOk_modify; [done..| |done]. rewrite Hn. done.
  - intros n. rewrite Ho. enough (cnt n (abs (modify l (fun _ => fs') ft)) = cnt n (abs ft)) as -> by lia.
    apply cnt_nodes. intros fid. rewrite !lookup_abs. cbn. destruct (FidTable.fids ft !! fid) as [l'|]; [|done]. cbn.
    rewrite lookup_alter. case_decide as E; [|done]. subst l'. rewrite Hl. cbn. by rewrite Hn.
Qed.

Lemma dropState_ok vs a ft t m acts : tabOk vs ft ->
  (forall last, Forall (actOk ft (vs ++ (if last : bool then [m] else []))) (acts last)) ->
  (forall n last, owed n (acts last) = owed n [a] - one m n) -> performed vs a ft t (dropState m acts ft t).
Proof.
  intros Hok Ha Ho. unfold dropState. pose proof (fun n z => counts_dec m n z t) as Hcd.
  destruct (decRefNode range embeds m t) as [last t1] eqn:E. cbn [snd] in Hcd. specialize (Ha last).
  split; cbn [judged events tab tre next].
  - eapply tabOk_more; [|exact Hok]. apply list_subseteq_app_l. done.
  - by intros ?.
  - by destruct last.
  - by intros n ?%not_elem_of_nil.
  - intros n z En Hz. specialize (Hcd n z En Hz). rewrite Ho. by replace (z + _ + _) with (z - one m n) by lia.
Qed.

Lemma source_ok vs l k c ft t o : tabOk vs ft -> perform (ASource l k) c ft t = Some o -> performed vs (ASource l k) ft t o.
Proof.
  intros Hok (fs & Hfs & E)%bind_Some. destruct k; injection E as <-; apply performed_read; try done;
    try (by intros n ?%not_elem_of_nil); by repeat constructor.
Qed.

Lemma walk_ok vs l fid newFid names st cur more c ft t o : tabOk vs ft ->
  perform (AWalk l fid newFid names st cur more) c ft t = Some o -> performed vs (AWalk l fid newFid names st cur more) ft t o.
Proof.
  intros Hok E. cbn in E. destruct more as [|more].
  - apply bind_Some in E as (src & Hsrc & E). destruct (_ =? _); injection E as <-; apply performed_read; try done;
      try (by intros n ?%not_elem_of_nil); by repeat constructor.
  - destruct c as [child| |]; injection E as <-; apply performed_read; try done; try (by intros n ?%not_elem_of_nil).
    + apply Forall_app. split; [case_decide; [constructor|apply drop_ok]|by repeat constructor].
    + intros n. rewrite owed_app. case_decide; [done|]. by rewrite owed_drop.
    + apply drop_ok.
    + intros n. by rewrite owed_drop.
    + apply drop_ok.
    + intros n. by rewrite owed_drop.
Qed.

Lemma addAct_ok vs fid fs st c ft t o : tabOk vs ft -> actOk ft vs (AAdd fid fs st) ->
  perform (AAdd fid fs st) c ft t = Some o -> performed vs (AAdd fid fs st) ft t o.
Proof.
  intros Hok [Hc1 Hc2] E. cbn [perform] in E. destruct (alloc fs ft) as [l ft1] eqn:E1. destruct (add fid l maxFids ft1) as [r ft2] eqn:E2.
  destruct (add_ok vs fid fs ft l ft1 r ft2 Hc1 Hc2 E1 E2 Hok) as (Hok2 & Hk & Hcnt).
  destruct r; injection E as <-; apply performed_table; try done.
  - by repeat constructor.
  - intros n. rewrite Hcnt. unfold owed. cbn [sum_list_with actInc actDec]. rewrite ?Nat2Z.inj_add, same_one. lia.
  - destruct st; [apply drop_ok|constructor].
  - intros n. rewrite Hcnt. change (owed n [AAdd fid fs st]) with 0. destruct st; [rewrite owed_drop; lia|].
    change (owed n []) with 0. lia.
Qed.

(** The two handlers that rebind a fid. *)
Lemma rebound_ok vs a n prev ft ft1 t : tabOk vs ft1 -> keepsHeld ft ft1 ->
  (forall m, cnt m (abs ft1) = cnt m (abs ft) + (one n m - one prev m)) -> (forall m, owed m [a] = 0) ->
  performed vs a ft t (mkOut [AInc n; ADec prev] ft1 t [] []).
Proof.
  intros Hok Hk Hcnt Ha. apply performed_table; [done|done|by repeat constructor|].
  intros m. rewrite Hcnt, Ha. unfold owed. cbn [sum_list_with actInc actDec]. rewrite ?Nat2Z.inj_add, !same_one. lia.
Qed.

Lemma updateAct_ok vs fid n p st c ft t o : tabOk vs ft ->
  perform (AUpdate fid n p st) c ft t = Some o -> performed vs (AUpdate fid n p st) ft t o.
Proof.
  intros Hok E. cbn [perform] in E. destruct (update fid n p ft) as [prev ft1] eqn:E1.
  destruct (update_ok vs fid n p ft prev ft1 E1 Hok) as (Hok1 & Hk & Hcnt). injection E as <-.
  destruct prev as [prev|]; [by apply rebound_ok|]. apply performed_table; [done|done|apply drop_ok|].
  intros m. rewrite Hcnt, owed_drop. change (owed m [AUpdate fid n p st]) with 0. lia.
Qed.

Lemma createAct_ok vs fid n h c ft t o : tabOk vs ft ->
  perform (AUpdateAndOpen fid n h) c ft t = Some o -> performed vs (AUpdateAndOpen fid n h) ft t o.
Proof.
  intros Hok E. cbn [perform] in E. destruct (updateAndOpen fid n h ft) as [prev ft1] eqn:E1.
  destruct (updateAndOpen_ok vs fid n h ft prev ft1 E1 Hok) as (Hok1 & Hk & Hcnt). destruct prev as [prev|]; injection E as <-.
  { by apply rebound_ok. }
  split; cbn [judged events tab tre next].
  - eapply tabOk_more; [|exact Hok1]. by apply list_subseteq_app_l.
  - done.
  - repeat constructor. apply elem_of_app. right. by left.
  - intros m. destruct h; cbn; [by intros [[=]|?%not_elem_of_nil]%elem_of_cons|by intros ?%not_elem_of_nil].
  - intros m z _ Hz. rewrite Hcnt. change (owed m [AOrphan n]) with 0.
    change (owed m [AUpdateAndOpen fid n h]) with 0. by replace (z + _ + _) with z by lia.
Qed.

(** The node of a state that left the table. *)
Lemma held_node ft l n fs : held ft l n -> heap ft !! l = Some fs -> node fs = n /\ unbound ft l.
Proof. intros (fs' & Hl & Hn & Hu) Hfs. by simplify_eq. Qed.

Lemma finishAct_ok vs l last c ft t o : tabOk vs ft -> actOk ft vs (AFinish l last) ->
  perform (AFinish l last) c ft t = Some o -> performed vs (AFinish l last) ft t o.
Proof.
  intros Hok (n & Hh & Hn) (fs & Hfs & E)%bind_Some. destruct (held_node ft l n fs Hh Hfs) as [Hnode Hu].
  cbn in E. set (fs' := set_closing true last fs) in E.
  assert (Hk : keepsHeld ft (modify l (fun _ => fs') ft)) by (apply keepsHeld_modify; intros fs0 ?; left; by simplify_eq).
  injection E as <-. apply (performed_modify _ _ _ _ _ l fs); cbn; try done.
  - intros ->. rewrite Hnode. by apply Hn.
  - destruct (_ =? 0); cbn; [|by constructor]. repeat constructor. cbn. intros ->. exists n. auto.
  - intros m. by destruct (_ =? 0).
Qed.

Lemma endIO_ok vs l c ft t o : tabOk vs ft ->
  perform (AEndIO l) c ft t = Some o -> performed vs (AEndIO l) ft t o.
Proof.
  intros Hok (fs & Hfs & E)%bind_Some. cbn in E. set (fs' := set_io _ fs) in E. pose proof Hok as [_ Hg Hc].
  assert (Hk : keepsHeld ft (modify l (fun _ => fs') ft)) by (apply keepsHeld_modify; intros fs0 ?; left; by simplify_eq).
  injection E as <-. apply (performed_modify _ _ _ _ _ l fs); cbn; try done.
  - intros H. by apply (Hg l fs).
  - intros H. by apply (Hc l fs).
  - destruct (_ && _); cbn; [|by constructor]. repeat constructor. cbn. intros Hcn. exists (node fs).
    split; [|by apply (Hc l fs)]. apply Hk. exists fs. split; [done|]. split; [done|]. apply (Hg l fs); auto.
  - intros m. by destruct (_ && _).
Qed.

Lemma clunkAct_ok vs fid remove c ft t o : tabOk vs ft ->
  perform (AClunk fid remove) c ft t = Some o -> performed vs (AClunk fid remove) ft t o.
Proof.
  intros Hok E. cbn [perform] in E. destruct (clunk fid ft) as [[l|] ft1] eqn:E1.
  - destruct (clunk_ok vs fid ft l ft1 E1 Hok) as (fs & Hfs & Hok1 & Hk & Hh & Hcnt). rewrite Hfs in E. cbn in E.
    injection E as <-. apply performed_table; [done|done|by repeat constructor|].
    intros n. rewrite Hcnt. unfold owed. cbn [sum_list_with actInc actDec]. rewrite ?Nat2Z.inj_add, same_one. lia.
  - injection E as <-. apply performed_read; try done. by intros n ?%not_elem_of_nil.
Qed.

Lemma clunkedAct_ok vs l remove n c ft t o : tabOk vs ft -> actOk ft vs (AClunked l remove n) ->
  perform (AClunked l remove n) c ft t = Some o -> performed vs (AClunked l remove n) ft t o.
Proof.
  intros Hok Hh (fs & Hfs & E)%bind_Some. destruct (held_node ft l n fs Hh Hfs) as [Hn Hu]. unfold currentNode in E. rewrite Hn in E.
  injection E as <-. apply dropState_ok; [done| |].
  - intros last. assert (Hl : exists m, held ft l m /\ (last = true -> m ∈ vs ++ (if last then [n] else []))).
    { exists n. split; [done|]. intros ->. apply elem_of_app. right. by left. }
    destruct remove; by repeat constructor.
  - intros m last. unfold owed. destruct remove; cbn [sum_list_with actInc actDec]; rewrite ?Nat2Z.inj_add, same_one; lia.
Qed.

Lemma stateAct_ok vs l last c ft t o : tabOk vs ft -> actOk ft vs (AState l last) ->
  perform (AState l last) c ft t = Some o -> performed vs (AState l last) ft t o.
Proof.
  intros Hok (n & Hh & Hn) (fs & Hfs & E)%bind_Some. destruct (held_node ft l n fs Hh Hfs) as [Hnode Hu].
  destruct (decide _); injection E as <-.
  - apply (performed_modify _ _ _ _ _ l fs); cbn; try done.
    intros Hc. by apply (t_close _ _ Hok l fs).
  - apply performed_read; try done; [repeat constructor; exists n; by split|by intros m ?%not_elem_of_nil].
Qed.

Lemma beginAct_ok vs l c ft t o : tabOk vs ft -> perform (ABeginIO l) c ft t = Some o -> performed vs (ABeginIO l) ft t o.
Proof.
  intros Hok (fs & Hfs & E)%bind_Some. destruct (beginIO fs) as [b fs'] eqn:Eb. cbn in E. injection E as <-.
  assert (node fs' = node fs /\ closing fs' = closing fs /\ closeNode fs' = closeNode fs) as (E1 & E2 & E3)
    by (unfold beginIO in Eb; destruct (closing fs) eqn:Ec; injection Eb as <- <-; done).
  apply (performed_modify _ _ _ _ _ l fs); rewrite ?E1, ?E2, ?E3; try done.
  - by apply (t_gone _ _ Hok l fs).
  - by apply (t_close _ _ Hok l fs).
  - destruct b; by repeat constructor.
  - intros n. by destruct b.
Qed.

Lemma releaseNow_close cn fs n : Close n ∈ releaseNow (Node := NodeId) (Handle := Handle) (XattrWriter := XattrWriter) cn fs -> cn = true /\ node fs = n.
Proof.
  unfold releaseNow. intros [H|H]%elem_of_app.
  - destruct (handle fs); cbn in H; [|by apply not_elem_of_nil in H]. by apply list_elem_of_singleton in H.
  - destruct cn; [|by apply not_elem_of_nil in H]. apply list_elem_of_singleton in H. by injection H as ->.
Qed.

Lemma releaseAct_ok vs l cn c ft t o : tabOk vs ft -> actOk ft vs (ARelease l cn) ->
  perform (ARelease l cn) c ft t = Some o -> performed vs (ARelease l cn) ft t o.
Proof.
  intros Hok Ha (fs & Hfs & E)%bind_Some. injection E as <-. apply performed_read; try done.
  intros n [-> <-]%releaseNow_close. destruct (Ha eq_refl) as (n & Hh & Hn). by destruct (held_node ft l n fs Hh Hfs) as [<- _].
Qed.

Lemma clunkAllAct_ok vs drained c ft t o : tabOk vs ft ->
  perform (AClunkAll drained) c ft t = Some o -> performed vs (AClunkAll drained) ft t o.
Proof.
  intros Hok E. cbn [perform] in E. destruct (clunkAll ft) as [ls ft1] eqn:E1.
  destruct (clunkAll_ok vs ft ls ft1 E1 Hok) as (Hok1 & Hk & Hh & Hcnt). injection E as <-.
  apply performed_table; [done|done|by repeat constructor|].
  intros n. rewrite Hcnt. unfold owed. cbn [sum_list_with actInc actDec]. rewrite ?Nat2Z.inj_add. lia.
Qed.

Lemma statesAct_ok vs drained ls c ft t o : tabOk vs ft -> actOk ft vs (AStates drained ls) ->
  perform (AStates drained ls) c ft t = Some o -> performed vs (AStates drained ls) ft t o.
Proof.
  intros Hok Ha E. cbn [perform] in E. destruct ls as [|[l n] ls].
  { injection E as <-. apply performed_read; try done. by intros n ?%not_elem_of_nil. }
  apply bind_Some in E as (fs & Hfs & E). apply Forall_cons in Ha as [Hh Hls].
  destruct (held_node ft l n fs Hh Hfs) as [Hn Hu]. unfold currentNode in E. rewrite Hn in E. injection E as <-.
  apply dropState_ok; [done| |].
  - intros last. apply Forall_app. split; [|by repeat constructor]. destruct drained; [|by constructor].
    repeat constructor. cbn. intros ->. exists n. split; [done|]. apply elem_of_app. right. by left.
  - intros m last. rewrite owed_app. unfold owed.
    destruct drained; cbn [app sum_list_with actInc actDec]; rewrite fmap_cons; cbn [sum_list_with snd]; rewrite ?Nat2Z.inj_add, ?same_one, ?(one_sym m n); lia.
Qed.

Lemma unboundAct_ok vs n c ft t o : tabOk vs ft -> perform (AUnbound n) c ft t = Some o -> performed vs (AUnbound n) ft t o.
Proof.
  intros Hok E. cbn [perform] in E. destruct (_ && _); injection E as <-.
  - apply performed_read; try done. by intros m ?%not_elem_of_nil.
  - split; cbn [judged events tab tre next].
    + eapply tabOk_more; [|exact Hok]. by apply list_subseteq_app_l.
    + by intros ?.
    + repeat constructor. apply elem_of_app. right. by left.
    + by intros m ?%not_elem_of_nil.
    + intros m z _ Hz. change (owed m [AOrphan n]) with 0. change (owed m [AUnbound n]) with 0. by replace (z + _ + _) with z by lia.
Qed.

Lemma perform_ok vs a c ft t o : tabOk vs ft -> actOk ft vs a -> perform a c ft t = Some o -> performed vs a ft t o.
Proof.
  intros Hok Ha E. destruct a.
  - by eapply source_ok.
  - by eapply walk_ok.
  - by eapply addAct_ok.
  - by eapply updateAct_ok.
  - destruct c; injection E as <-; apply performed_read; try done; try (by repeat constructor); by intros m ?%not_elem_of_nil.
  - by eapply createAct_ok.
  - injection E as <-. split; cbn [judged events tab tre next]; rewrite ?app_nil_r; try done; [by intros ?|by intros m ?%not_elem_of_nil|].
    intros m z En Hz. replace (z + _ + _) with (z + one n m); [by apply counts_inc|].
    unfold owed. cbn [sum_list_with actInc actDec]. rewrite ?Nat2Z.inj_add, same_one. lia.
  - injection E as <-. split; cbn [judged events tab tre next]; rewrite ?app_nil_r; try done; [by intros ?|by intros m ?%not_elem_of_nil|].
    intros m z En Hz. replace (z + _ + _) with (z - one n m); [by apply counts_dec|].
    unfold owed. cbn [sum_list_with actInc actDec]. rewrite ?Nat2Z.inj_add, same_one. lia.
  - by eapply clunkAct_ok.
  - by eapply clunkedAct_ok.
  - by eapply stateAct_ok.
  - by eapply finishAct_ok.
  - by eapply releaseAct_ok.
  - by eapply beginAct_ok.
  - by eapply endIO_ok.
  - by eapply clunkAllAct_ok.
  - by eapply statesAct_ok.
  - by eapply unboundAct_ok.
  - injection E as <-. apply performed_read; try done. by intros m [= ->]%list_elem_of_singleton.
Qed.

(** ** Every reachable state *)

Record Inv (s : Sys) : Prop := {
  i_tab i ft : conns s !! i = Some ft -> tabOk (vnode <$> verdicts s) ft;
  i_go g go : gos s !! g = Some go ->
    exists ft, conns s !! conn go = Some ft /\ Forall (actOk ft (vnode <$> verdicts s)) (todo go);
  i_close n : Close n ∈ log s -> n ∈ vnode <$> verdicts s;
  i_count n : embeds n = true -> counts n (total n (conns s) + leaving n s - entering n s) (tree s)
}.

Lemma initial_Inv t : (forall n, refsOf n t = 0) -> Inv (initial t).
Proof.
  intros Ht. split; cbn; try (intros *; by rewrite lookup_empty).
  - by intros n ?%not_elem_of_nil.
  - intros n _. unfold counts, entering, leaving. cbn. rewrite !weigh_empty. by rewrite Ht.
Qed.

Lemma begin_ok q ft vs : Forall (actOk ft vs) (begin q ft).
Proof.
  destruct q as [| ? ? [|? ?] | | | | | |]; cbn; repeat case_match; by repeat constructor.
Qed.

Lemma begin_owed q ft n : sum_list_with (actInc n) (begin q ft) = 0%nat /\ sum_list_with (actDec n) (begin q ft) = 0%nat.
Proof. destruct q as [| ? ? [|? ?] | | | | | |]; cbn; repeat case_match; done. Qed.

(** The table of connection [i] moves; the goroutines on it keep what they hold. *)
Lemma gos_keep (cs : gmap nat FT) i ft ft' vs vs' go : cs !! i = Some ft -> keepsHeld ft ft' -> vs ⊆ vs' ->
  (exists ft0, cs !! conn go = Some ft0 /\ Forall (actOk ft0 vs) (todo go)) ->
  exists ft0, <[i := ft']> cs !! conn go = Some ft0 /\ Forall (actOk ft0 vs') (todo go).
Proof.
  intros Hi Hk Hv (ft0 & Hft0 & Ha). destruct (decide (i = conn go)) as [->|Hne].
  - exists ft'. split; [by rewrite lookup_insert_eq|]. eapply Forall_impl; [exact Ha|]. intros a. simplify_eq. by apply actOk_keeps.
  - exists ft0. split; [by rewrite lookup_insert_ne|]. eapply Forall_impl; [exact Ha|]. intros a. by apply actOk_keeps; [intros ?|].
Qed.

Lemma run_Inv g c go ft a rest o s : Inv s -> gos s !! g = Some go -> conns s !! conn go = Some ft -> todo go = a :: rest ->
  perform a c ft (tree s) = Some o ->
  Inv (mkSys (<[conn go := tab o]> (conns s)) (<[g := mkGo (conn go) (next o ++ rest)]> (gos s)) (tre o)
         (verdicts s ++ judged o) (log s ++ events o)).
Proof.
  intros [Ht Hg Hc Hn] Hgo Hft Htodo E. set (vs := vnode <$> verdicts s) in *.
  destruct (Hg g go Hgo) as (ft0 & Hft0 & Ha). assert (ft0 = ft) as -> by congruence. rewrite Htodo in Ha.
  apply Forall_cons in Ha as [Ha Hrest]. destruct (perform_ok vs a c ft (tree s) o (Ht _ _ Hft) Ha E) as [P1 P2 P3 P4 P5].
  assert (Hv : vs ⊆ vs ++ (vnode <$> judged o)) by (by apply list_subseteq_app_l).
  split; cbn; rewrite ?fmap_app; fold vs.
  - intros i ft' [[<- <-]|[_ Hi]]%lookup_insert_Some; [done|]. eapply tabOk_more; [done|by eapply Ht].
  - intros g' go' [[<- <-]|[_ Hg']]%lookup_insert_Some; [|by eapply gos_keep; [..|by eapply Hg]].
    cbn. exists (tab o). split; [by rewrite lookup_insert_eq|]. apply Forall_app. split; [done|].
    eapply Forall_impl; [exact Hrest|]. intros b. by apply actOk_keeps.
  - intros n [H|H]%elem_of_app; [by apply Hv, Hc|by apply Hv, P4].
  - intros n En. specialize (P5 n _ En (Hn n En)). unfold total in *. rewrite (sumOver_update _ _ ft _ _ Hft).
    rewrite (sumOver_lookup _ _ _ _ Hft) in P5. unfold leaving, entering in *. cbn [gos] in *.
    pose proof (weigh_move (fun go => sum_list_with (actDec n) (todo go)) g go (mkGo (conn go) (next o ++ rest)) (gos s) Hgo) as Hd.
    pose proof (weigh_move (fun go => sum_list_with (actInc n) (todo go)) g go (mkGo (conn go) (next o ++ rest)) (gos s) Hgo) as Hi.
    cbn [todo] in Hd, Hi. rewrite Htodo, !sum_list_with_app in Hd, Hi. cbn [sum_list_with] in Hd, Hi.
    unfold owed in P5. cbn [sum_list_with] in P5. revert P5. match goal with |- counts _ ?x _ -> counts _ ?y _ => replace x with y by lia end. done.
Qed.

Lemma exec_Inv lab s s' : Inv s -> exec lab s = Some s' -> Inv s'.
Proof.
  intros HI E. pose proof HI as [Ht Hg Hc Hn]. destruct lab as [i|g i q|g c|i l fs']; cbn [exec] in E.
  - destruct (conns s !! i) eqn:Hi; [done|]. injection E as <-. split; cbn; try done.
    + intros j ft [[<- <-]|[_ Hj]]%lookup_insert_Some; [apply newFidTable_ok|by eapply Ht].
    + intros g go Hgo. destruct (Hg g go Hgo) as (ft & Hft & Ha). exists ft. rewrite lookup_insert_ne; [done|congruence].
    + intros n En. unfold total. rewrite sumOver_insert, abs_new, cnt_empty by done. by apply Hn.
  - apply bind_Some in E as (ft & Hi & E). destruct (gos s !! g) eqn:Hgo; [done|]. injection E as <-. split; cbn; try done.
    + intros h go [[<- <-]|[_ Hh]]%lookup_insert_Some; [|by eapply Hg]. exists ft. split; [done|apply begin_ok].
    + intros n En. unfold leaving, entering. cbn. rewrite !weigh_insert by done. cbn. destruct (begin_owed q ft n) as [-> ->]. by apply Hn.
  - apply bind_Some in E as (go & Hgo & (ft & Hft & E)%bind_Some). destruct (todo go) as [|a rest] eqn:Htodo; [done|].
    apply bind_Some in E as (o & Ho & [= <-]). by eapply run_Inv.
  - apply bind_Some in E as (ft & Hi & (fs & Hfs & E)%bind_Some). destruct (decide _) as [(E1 & E2 & E3 & E4)|]; [|done]. injection E as <-.
    assert (P : performed (vnode <$> verdicts s) (AOrphan 0%nat) ft (tree s) (mkOut [] (modify l (fun _ => fs') ft) (tree s) [] [])).
    { apply (performed_modify _ _ _ _ _ l fs); rewrite ?E3, ?E4; try done; [by eapply Ht|by apply (t_gone _ _ (Ht i ft Hi) l fs)|by apply (t_close _ _ (Ht i ft Hi) l fs)]. }
    destruct P as [P1 P2 _ _ P5]. cbn in P1, P2. cbn [tab tre next] in P5. rewrite ?app_nil_r in P1. split; cbn; try done.
    + intros j ft' [[<- <-]|[_ Hj]]%lookup_insert_Some; [done|by eapply Ht].
    + intros g go Hgo. eapply gos_keep; [done|done|reflexivity|by eapply Hg].
    + intros n En. specialize (P5 n _ En (Hn n En)). unfold total in *. rewrite (sumOver_update _ _ ft _ _ Hi).
      rewrite (sumOver_lookup _ _ _ _ Hi) in P5. revert P5. unfold leaving, entering. cbn [gos].
      match goal with |- counts _ ?x _ -> counts _ ?y _ => replace x with y by (unfold owed; cbn [sum_list_with actInc actDec]; lia) end. done.
Qed.

Lemma shared_Inv s : reachable s -> Inv s.
Proof.
  intros (t & Ht & Hr). revert s Hr.
  apply Reachable_invariant; [by apply initial_Inv|].
  intros s1 s2 _ HI Hst. destruct Hst as [lab s1 s2 E|t1 s1 Hs]; [by apply (exec_Inv lab s1)|]. destruct HI as [H1 H2 H3 H4]. split; try done.
  intros n En. unfold counts in *. cbn. rewrite Hs. by apply H4.
Qed.

(** ** When a node is found without references *)

Lemma dropState_judged m acts ft t n : embeds n = true ->
  LastRef n ∈ judged (dropState m acts ft t) \/ NoRefs n ∈ judged (dropState m acts ft t) ->
  refsOf n (tre (dropState m acts ft t)) = 0.
Proof.
  intros En. unfold dropState, decRefNode. destruct (embeds m) eqn:Em.
  - pose proof (decRef_refs range m n t) as [Hr Hl]. destruct (decRef range m t) as [last t1]. cbn in *. subst last.
    destruct (_ =? 0) eqn:Hz; cbn; [|by intros [?%not_elem_of_nil|?%not_elem_of_nil]].
    apply Z.eqb_eq in Hz. intros [[= ->]%list_elem_of_singleton|?%list_elem_of_singleton]; [|done]. by rewrite Hr, decide_True.
  - cbn. intros [[= ->]%list_elem_of_singleton|?%list_elem_of_singleton]; congruence.
Qed.

Lemma judged_zero a c ft t o n : embeds n = true -> perform a c ft t = Some o ->
  LastRef n ∈ judged o \/ NoRefs n ∈ judged o -> refsOf n (tre o) = 0.
Proof.
  intros En E Hv.
  assert (Hnil : judged o = [] -> refsOf n (tre o) = 0).
  { intros Hj. rewrite Hj in Hv. by destruct Hv as [?%not_elem_of_nil|?%not_elem_of_nil]. }
  destruct a; cbn [perform] in E;
    repeat first [apply bind_Some in E as (? & ? & E) | match type of E with context [match ?x with _ => _ end] => destruct x eqn:? end];
    try discriminate E; injection E as <-; try (by apply Hnil); try (by apply dropState_judged).
  - cbn in Hv. by destruct Hv as [?%list_elem_of_singleton|?%list_elem_of_singleton].
  - cbn in Hv. destruct Hv as [?%list_elem_of_singleton|[= ->]%list_elem_of_singleton]; [done|]. cbn.
    rewrite En in *. destruct (refsOf n0 t =? 0) eqn:Hz; [|done]. by apply Z.eqb_eq.
Qed.

Definition judgedZero (s s' : Sys) : Prop :=
  exists vs, verdicts s' = verdicts s ++ vs /\
    forall n, embeds n = true -> LastRef n ∈ vs \/ NoRefs n ∈ vs -> refsOf n (tree s') = 0.

Lemma judgedZero_same s s' : verdicts s' = verdicts s -> judgedZero s s'.
Proof. intros Hv. exists []. rewrite app_nil_r. split; [done|]. by intros n _ [?%not_elem_of_nil|?%not_elem_of_nil]. Qed.

Lemma step_judged s s' : step s s' -> judgedZero s s'.
Proof.
  intros [lab s1 s2 E|t s1 _]; [|by apply judgedZero_same]. rename s1 into s0.
  destruct lab as [i|g i q|g c|i l fs']; cbn [exec] in E.
  - destruct (conns s0 !! i); [done|]. injection E as <-. by apply judgedZero_same.
  - apply bind_Some in E as (ft & Hi & E). destruct (gos s0 !! g); [done|]. injection E as <-. by apply judgedZero_same.
  - apply bind_Some in E as (go & Hgo & (ft & Hft & E)%bind_Some). destruct (todo go) as [|a rest]; [done|].
    apply bind_Some in E as (o & Ho & [= <-]). exists (judged o). split; [done|]. cbn. intros n En. by apply (judged_zero a c ft (tree s0) o n).
  - apply bind_Some in E as (ft & Hi & (fs & Hfs & E)%bind_Some). destruct (decide _); [|done]. injection E as <-. by apply judgedZero_same.
Qed.

Lemma int32_zero z : - 2 ^ 32 < z < 2 ^ 32 -> int32 z = 0 -> z = 0.
Proof. intros Hz. destruct (int32_wraps z) as [k ->]. lia. Qed.
End Perform.
End SharedRefs.

(** ** Properties *)

Section Properties.
Context {Handle XattrWriter : Type}.
Abbreviation Sys := (@Sys Handle XattrWriter).
Context (range : gmap string NodeId -> list (string * NodeId)) (embeds : NodeId -> bool) (maxFids : Z).
Abbreviation reachable := (@reachable Handle XattrWriter range embeds maxFids).
Abbreviation step := (@step Handle XattrWriter range embeds maxFids).

Lemma count_exact (s : Sys) n :
  reachable s -> embeds n = true ->
  let k := total n (conns s) + leaving n s - entering n s in
  refsOf n (tree s) = int32 k /\ (- 2 ^ 31 <= k < 2 ^ 31 -> refsOf n (tree s) = k) /\
  ((forall g go, gos s !! g = Some go -> todo go = []) -> k = total n (conns s)).
Proof.
  intros HI%shared_Inv En k. pose proof (i_count _ _ HI n En) as Hc. split; [exact Hc|]. split.
  - intros Hk. rewrite Hc. by apply int32_id.
  - intros Hd. unfold k, leaving, entering.
    rewrite (weigh_eq _ (fun _ => 0%nat)) by (intros g go Hgo; by rewrite (Hd g go Hgo)).
    rewrite (weigh_eq (fun go => sum_list_with (actInc n) (todo go)) (fun _ => 0%nat)) by (intros g go Hgo; by rewrite (Hd g go Hgo)). lia.
Qed.

Lemma verdict_counted (s s' : Sys) :
  reachable s -> step s s' ->
  (forall n, Close n ∈ log s' -> n ∈ vnode <$> verdicts s') /\
  exists vs, verdicts s' = verdicts s ++ vs /\
    forall n, LastRef n ∈ vs \/ NoRefs n ∈ vs -> embeds n = true ->
    total n (conns s') + leaving n s' < 2 ^ 32 -> entering n s' < 2 ^ 32 ->
    total n (conns s') <= entering n s' /\
    (entering n s' = 0 -> forall i ft fid fs, conns s' !! i = Some ft -> abs ft !! fid = Some fs -> node fs <> n).
Proof.
  intros Hr Hs. assert (reachable s') as HI%shared_Inv by (destruct Hr as (t & Ht & Hr); exists t; split; [done|by eapply Prelude.reach_step]).
  split; [exact (i_close _ _ HI)|].
  destruct (step_judged range embeds maxFids s s' Hs) as (vs & Hvs & Hz).
  exists vs. split; [done|]. intros n Hn En H1 H2. pose proof (i_count _ _ HI n En) as Hc. unfold counts in Hc.
  rewrite (Hz n En Hn) in Hc. symmetry in Hc. pose proof (total_nonneg n (conns s')).
  assert (0 <= leaving n s' /\ 0 <= entering n s') as [? ?] by (unfold leaving, entering; lia).
  apply int32_zero in Hc; [|lia]. split; [lia|]. intros He i ft fid fs. apply total_zero. lia.
Qed.

End Properties.

(** ** At concrete runs *)

Module Demo.
Abbreviation Sys := (@Sys unit unit).
Abbreviation Label := (@Label unit unit).
(** All nodes embed an [Inode]; no limit on fids. *)
Definition all : NodeId -> bool := fun _ => true.
Definition run (labs : list Label) (s : Sys) : option Sys := runLabels (exec map_to_list all 0) labs s.
Definition start : Sys := initial ∅.

Lemma demo_run_reachable labs s s' : reachable map_to_list all 0 s -> run labs s = Some s' -> reachable map_to_list all 0 s'.
Proof.
  intros (t & Ht & Hr) E. exists t. split; [done|].
  eapply runLabels_Reachable; [|exact Hr|exact E]. intros lab s1 s2. apply step_exec.
Qed.

Lemma demo_start_reachable : reachable map_to_list all 0 start.
Proof. exists ∅. split; [done|constructor]. Qed.

(** Goroutine [g] runs [k] sections. *)
Fixpoint runs (g k : nat) : list Label := match k with O => [] | S k => LRun g Fails :: runs g k end.

(** Fid 1 of connection 0 is bound to node 0. *)
Definition attached : list Label := LConnect 0 :: LBegin 0 0 (QAttach 1 0 "/") :: runs 0 2.
(** A clone of fid 1 to fid 2 has bound it and not counted it... *)
Definition cloning : list Label := attached ++ LBegin 1 0 (QWalk 1 2 []) :: runs 1 2.
(** ...when fid 1 is clunked... *)
Definition clunking : list Label := cloning ++ LBegin 2 0 (QClunk 1) :: runs 2 2.
(** ...which closes the node; then the clone goes on. *)
Definition cloned : list Label := clunking ++ runs 2 3 ++ runs 1 1.
(** Fid 2 is clunked in the end. *)
Definition clunkedTwice : list Label := LBegin 3 0 (QClunk 2) :: runs 3 5.

Definition settled (s : Sys) : bool := forallb (fun go => match todo go.2 with [] => true | _ => false end) (map_to_list (gos s)).
Definition boundTo (i : nat) (fid : Fid) (s : Sys) : option NodeId := ft ← conns s !! i; node <$> abs ft !! fid.
End Demo.


