(* ===== verification/Names.v ===== *)
(** * Names that reach the file system

    [validatePathElement] ([server/dispatch.go]) and [validName]
    ([server/bridge.go]) are the only defence of a file system that hands
    names to the operating system.  [guarded] is a file system whose methods
    may do anything at all on a name with a slash or a NUL byte, on an empty
    name and, where a name is created or removed, on [.] and [..], except that
    a name a directory's child already has may be removed whatever it is
    ([present]); no request can tell it from the file system it guards. *)

From S2P Require Import Prelude GoIO Types Errno Proto Messages P9l P9u Message Dirents.
From S2P Require Import Bufpool FidTable Bridge Inode Namespace Sharing.

(** A path element, and a name a directory entry can have. *)
Definition element (name : string) : Prop :=
  name <> "" /\ Forall (fun b => Z_of_byte b <> 47 /\ Z_of_byte b <> 0) (bytes_of_string name).
Definition childName (name : string) : Prop := element name /\ name <> "." /\ name <> "..".

#[export] Instance element_dec name : Decision (element name).
Proof. unfold element. apply _. Defined.
#[export] Instance childName_dec name : Decision (childName name).
Proof. unfold childName. apply _. Defined.

Lemma hasSlashOrNul_spec name :
  hasSlashOrNul name = false <-> Forall (fun b => Z_of_byte b <> 47 /\ Z_of_byte b <> 0) (bytes_of_string name).
Proof.
  unfold hasSlashOrNul. induction (bytes_of_string name) as [|b bs IH]; cbn; [done|].
  rewrite Forall_cons, !orb_false_iff, IH, !Z.eqb_neq. done.
Qed.

Lemma validatePathElement_spec name : validatePathElement name = None <-> element name.
Proof.
  unfold validatePathElement, element. rewrite <- hasSlashOrNul_spec. case_decide; [naive_solver|].
  destruct (hasSlashOrNul name); naive_solver.
Qed.

Lemma validName_spec name : validName name = true <-> childName name.
Proof.
  unfold validName, childName, element. rewrite <- hasSlashOrNul_spec. case_decide; [naive_solver|].
  destruct (hasSlashOrNul name); naive_solver.
Qed.

Section Guard.
Context {U Handle XattrWriter : Type} (N : NodeOps U Handle XattrWriter).
Context `{Capabilities (NS U) NodeId Handle XattrWriter} `{BufPool}.
Context (range : gmap string NodeId -> list (string * NodeId)).
Context (Hrange : forall m name n, (name, n) ∈ range m -> m !! name = Some n).
(** What a method does on a name it must not be given. *)
Context (bad : forall A, M (NS U) A).
Abbreviation Srv := (@Server (NS U) NodeId Handle XattrWriter).

Definition only {A} (P : NS U -> Prop) `{forall w, Decision (P w)} (m : M (NS U) A) : M (NS U) A :=
  fun w => if decide (P w) then m w else bad A w.

(** A name a request may remove or rename: checked, or the name of a child in
    the inode tree. *)
Definition present (n : NodeId) (name : string) (w : NS U) : Prop :=
  childName name \/ is_Some (Children n (tree w) !! name).

Definition guarded : NodeOps U Handle XattrWriter := {|
  embeds := embeds;
  nodeQID := nodeQID;
  NodeLookuper n := (fun f name => only (fun _ => element name) (f name)) <$> NodeLookuper n;
  NodeOpener := NodeOpener;
  NodeCreater n :=
    (fun f name flags mode gid => only (fun _ => childName name) (f name flags mode gid)) <$> NodeCreater n;
  NodeMkdirer n := (fun f name mode gid => only (fun _ => childName name) (f name mode gid)) <$> NodeMkdirer n;
  NodeSymlinker n := (fun f name target gid => only (fun _ => childName name) (f name target gid)) <$> NodeSymlinker n;
  NodeMknoder n :=
    (fun f name mode major minor gid => only (fun _ => childName name) (f name mode major minor gid)) <$> NodeMknoder n;
  NodeLinker n := (fun f target name => only (fun _ => childName name) (f target name)) <$> NodeLinker n;
  NodeUnlinker n := (fun f name flags => only (present n name) (f name flags)) <$> NodeUnlinker n;
  NodeRenamer n :=
    (fun f name target newName => only (fun w => present n name w /\ childName newName) (f name target newName)) <$>
      NodeRenamer n;
  NodeGetattrer := NodeGetattrer; NodeSetattrer := NodeSetattrer; NodeReadlinker := NodeReadlinker;
  NodeStatFSer := NodeStatFSer; FileSyncer := FileSyncer; NodeFsyncer := NodeFsyncer; FileLocker := FileLocker;
  NodeLocker := NodeLocker; RawXattrer := RawXattrer; NodeXattrGetter := NodeXattrGetter;
  NodeXattrSetter := NodeXattrSetter; NodeXattrLister := NodeXattrLister; NodeXattrRemover := NodeXattrRemover;
  XattrWriter_Commit := XattrWriter_Commit;
  attacher := attacher; anames := anames; root := root
|}.

(** ** The same computation *)

Definition same {A} (m m' : M Srv A) : Prop := forall s, m s = m' s.

Lemma same_bind {A B} (m m' : M Srv A) (k k' : A -> M Srv B) :
  same m m' -> (forall a, same (k a) (k' a)) -> same (m ≫= k) (m' ≫= k').
Proof. intros Hm Hk s. unfold mbind, M_bind. rewrite Hm. destruct (m' s) as [[a|e] s']; [apply Hk|done]. Qed.

Lemma same_guard {B} b e (k k' : M Srv B) :
  (b = true -> same k k') -> same (guard_ b e;; k) (guard_ b e;; k').
Proof. intros Hk s. unfold guard_. destruct b; [exact (Hk eq_refl s)|done]. Qed.

Lemma same_capability {A B} (f : A -> A) (o : option A) (k k' : A -> M Srv B) :
  (forall a, o = Some a -> same (k (f a)) (k' a)) -> same (capability (f <$> o) ≫= k) (capability o ≫= k').
Proof. intros Hk s. destruct o as [a|]; [exact (Hk a eq_refl s)|done]. Qed.

Lemma same_refl {A} (m : M Srv A) : same m m.
Proof. done. Qed.

Lemma same_only {A} P `{forall w, Decision (P w)} (m : M (NS U) A) :
  (forall w, P w) -> same (call (only P m)) (call m).
Proof. intros HP s. unfold call, only. by rewrite decide_True by apply HP. Qed.

Lemma same_respond proto (m m' : M Srv Message) s : same m m' -> respond proto m s = respond proto m' s.
Proof. intros Hm. unfold respond. by rewrite Hm. Qed.

(** ** The handlers that pass names on *)

Lemma walkLoop_same names first walkStart current qids :
  Forall element names ->
  same (@walkLoop U Handle XattrWriter guarded first walkStart current qids names)
    (@walkLoop U Handle XattrWriter N first walkStart current qids names).
Proof.
  intros Hn. revert first current qids. induction Hn as [|name names Hname _ IH]; intros; cbn [walkLoop]; [done|].
  apply same_bind; [done|]. intros qid. destruct (_ =? 0); [done|].
  cbn [NodeLookuper guarded]. destruct (NodeLookuper current) as [lookup|]; [|done]. cbn.
  apply same_bind; [|intros [child|e]; [|done]].
  - intros s. unfold attempt. by rewrite (same_only (fun _ => element name) (lookup name) (fun _ => Hname) s).
  - apply same_bind; [done|]. intros q. apply same_bind; [done|]. intros _. apply IH.
Qed.

Lemma validNames_spec names :
  forallb (fun name => match validatePathElement name with None => true | Some _ => false end) names = true <->
  Forall element names.
Proof.
  induction names as [|name names IH]; cbn; [done|]. rewrite andb_true_iff, Forall_cons, IH, <- validatePathElement_spec.
  destruct (validatePathElement name); naive_solver.
Qed.

Lemma handleWalk_same proto maxFids tw s :
  @handleWalk U Handle XattrWriter guarded range proto maxFids tw s = @handleWalk U Handle XattrWriter N range proto maxFids tw s.
Proof.
  apply same_respond, same_bind; [done|]. intros l. destruct (Twalk.Names tw) as [|name names]; [done|].
  apply same_guard. intros Hv%validNames_spec. apply same_bind; [done|]. intros walkStart.
  apply same_bind; [by apply walkLoop_same|]. by intros [current qids].
Qed.

Lemma createFid_same msize fid name flags mode gid :
  same (@createFid U Handle XattrWriter guarded range msize fid name flags mode gid)
    (@createFid U Handle XattrWriter N range msize fid name flags mode gid).
Proof.
  apply same_bind; [done|]. intros l. apply same_bind; [done|]. intros fs. apply same_bind; [done|]. intros _.
  apply same_guard. intros Hv%validName_spec. cbv zeta. apply same_capability. intros create _.
  apply same_bind; [|by intros [[child handle] hint]]. by apply same_only.
Qed.

Lemma makeChild_same fid name (make : forall N : NodeOps U Handle XattrWriter, NodeId -> option (M (NS U) NodeId)) :
  (forall n, make guarded n = only (fun _ => childName name) <$> make N n) ->
  same (@makeChild U Handle XattrWriter guarded fid name (make guarded))
    (@makeChild U Handle XattrWriter N fid name (make N)).
Proof.
  intros Hmake. apply same_bind; [done|]. intros l. apply same_guard. intros Hv%validName_spec.
  apply same_bind; [done|]. intros node. rewrite Hmake. apply same_capability. intros mk _.
  apply same_bind; [by apply same_only|done].
Qed.

Lemma handleMkdir_same proto m s :
  @handleMkdir U Handle XattrWriter guarded proto m s = @handleMkdir U Handle XattrWriter N proto m s.
Proof.
  apply same_respond, same_bind; [|done].
  apply (makeChild_same _ _ (fun N' n => (fun f => f (Tmkdir.Name m) (Tmkdir.Mode m) (Tmkdir.GID m)) <$> @NodeMkdirer _ _ _ N' n)).
  intros n. cbn. by destruct (NodeMkdirer n).
Qed.

Lemma handleSymlink_same proto m s :
  @handleSymlink U Handle XattrWriter guarded proto m s = @handleSymlink U Handle XattrWriter N proto m s.
Proof.
  apply same_respond, same_bind; [|done].
  apply (makeChild_same _ _ (fun N' n => (fun f => f (Tsymlink.Name m) (Tsymlink.Target m) (Tsymlink.GID m)) <$> @NodeSymlinker _ _ _ N' n)).
  intros n. cbn. by destruct (NodeSymlinker n).
Qed.

Lemma handleMknod_same proto m s :
  @handleMknod U Handle XattrWriter guarded proto m s = @handleMknod U Handle XattrWriter N proto m s.
Proof.
  apply same_respond, same_bind; [|done].
  apply (makeChild_same _ _ (fun N' n =>
    (fun f => f (Tmknod.Name m) (Tmknod.Mode m) (Tmknod.Major m) (Tmknod.Minor m) (Tmknod.GID m)) <$> @NodeMknoder _ _ _ N' n)).
  intros n. cbn. by destruct (NodeMknoder n).
Qed.

Lemma handleLink_same proto m s :
  @handleLink U Handle XattrWriter guarded proto m s = @handleLink U Handle XattrWriter N proto m s.
Proof.
  apply same_respond, same_bind; [done|]. intros dir. apply same_bind; [done|]. intros target.
  apply same_guard. intros Hv%validName_spec. apply same_bind; [done|]. intros node.
  apply same_capability. intros link _. apply same_bind; [done|]. intros child.
  apply same_bind; [by apply same_only|done].
Qed.

Lemma handleUnlinkat_same proto m s :
  @handleUnlinkat U Handle XattrWriter guarded proto m s = @handleUnlinkat U Handle XattrWriter N proto m s.
Proof.
  apply same_respond, same_bind; [done|]. intros l. apply same_guard. intros Hv%validName_spec.
  apply same_bind; [done|]. intros node. apply same_capability. intros unlink _.
  apply same_bind; [|done]. apply same_only. intros w. by left.
Qed.

Lemma handleRenameat_same proto m s :
  @handleRenameat U Handle XattrWriter guarded proto m s = @handleRenameat U Handle XattrWriter N proto m s.
Proof.
  apply same_respond, same_bind; [done|]. intros oldDir. apply same_bind; [done|]. intros newDir.
  apply same_guard. intros Hold%validName_spec. apply same_guard. intros Hnew%validName_spec.
  apply same_bind; [done|]. intros old. apply same_capability. intros rename _. apply same_bind; [done|]. intros new.
  apply same_bind; [|done]. apply same_only. intros w. split; [by left|done].
Qed.

(** *** Names from the inode tree *)

Lemma nameOf_present child cs name : nameOf child (range cs) = Some name -> cs !! name = Some child.
Proof.
  intros Hn. apply Hrange. revert Hn. induction (range cs) as [|[name' n] es IH]; cbn; [done|].
  case_decide as E; [intros [= ->]; rewrite E; apply list_elem_of_here|]. intros Hn. by apply list_elem_of_further, IH.
Qed.

(** A computation at states whose tree is [t]. *)
Definition sameOn {A} (t : Tree) (m m' : M Srv A) : Prop := forall s, tree (world s) = t -> m s = m' s.

Lemma viewTree_eq {A B} (f : Tree -> A) (k : A -> M Srv B) s : (viewTree f ≫= k) s = k (f (tree (world s))) s.
Proof. by destruct s as [ft [t u] rel]. Qed.

Lemma sameOn_same {A} (m m' : M Srv A) : (forall t, sameOn t m m') -> same m m'.
Proof. intros Hm s. by apply (Hm (tree (world s))). Qed.

Lemma sameOn_view {A B} t (f : Tree -> A) (k k' : A -> M Srv B) :
  sameOn t (k (f t)) (k' (f t)) -> sameOn t (viewTree f ≫= k) (viewTree f ≫= k').
Proof. intros Hk s Ht. rewrite !viewTree_eq, Ht. by apply Hk. Qed.

Lemma sameOn_guard {B} t b e (k k' : M Srv B) :
  (b = true -> sameOn t k k') -> sameOn t (guard_ b e;; k) (guard_ b e;; k').
Proof. intros Hk s Ht. unfold guard_. destruct b; [exact (Hk eq_refl s Ht)|done]. Qed.

Lemma sameOn_capability {A B} t (o : option A) (k k' : A -> M Srv B) :
  (forall a, o = Some a -> sameOn t (k a) (k' a)) -> sameOn t (capability o ≫= k) (capability o ≫= k').
Proof. intros Hk s Ht. destruct o as [a|]; [exact (Hk a eq_refl s Ht)|done]. Qed.

Lemma sameOn_only {A B} t P `{forall w, Decision (P w)} (m : M (NS U) A) (k : A -> M Srv B) :
  (forall w, tree w = t -> P w) -> sameOn t (call (only P m) ≫= k) (call m ≫= k).
Proof. intros HP s Ht. unfold mbind, M_bind, call, only. by rewrite decide_True by by apply HP. Qed.

Lemma removeViaInodeTree_same node :
  same (@removeViaInodeTree U Handle XattrWriter guarded range node) (@removeViaInodeTree U Handle XattrWriter N range node).
Proof.
  apply sameOn_same. intros t. apply sameOn_guard. intros _. apply sameOn_view.
  apply sameOn_capability. intros parent _. apply sameOn_view.
  destruct (nameOf node (range (Children parent t))) as [name|] eqn:E; [|done]. apply nameOf_present in E.
  apply sameOn_guard. intros _. apply sameOn_view. apply sameOn_guard. intros _.
  intros s Ht. cbn [NodeUnlinker guarded]. destruct (NodeUnlinker parent) as [unlink|]; [|done]. revert s Ht.
  apply sameOn_only. intros w <-. right. eauto.
Qed.

Lemma handleRemove_same proto m s :
  @handleRemove U Handle XattrWriter guarded range proto m s = @handleRemove U Handle XattrWriter N range proto m s.
Proof.
  apply same_respond, same_bind; [done|]. intros l. apply same_bind; [done|]. intros fs. apply same_bind; [|done].
  intros s0. unfold attempt. by rewrite removeViaInodeTree_same.
Qed.

Lemma sameOn_nodeAt {B} t l (k k' : NodeId -> M Srv B) :
  (forall n, sameOn t (k n) (k' n)) -> sameOn t (nodeAt l ≫= k) (nodeAt l ≫= k').
Proof.
  intros Hk s Ht. unfold nodeAt, stateAt, mbind, M_bind. destruct (fsAt l s) as [fs|]; [|done]. cbn. by apply Hk.
Qed.

Lemma handleRename_same proto m s :
  @handleRename U Handle XattrWriter guarded range proto m s = @handleRename U Handle XattrWriter N range proto m s.
Proof.
  apply same_respond, same_bind; [done|]. intros l. apply same_bind; [done|]. intros dir.
  apply same_guard. intros Hv%validName_spec. apply same_bind; [done|]. intros node.
  apply sameOn_same. intros t. apply sameOn_guard. intros _. apply sameOn_view.
  apply sameOn_capability. intros parent _. apply sameOn_view.
  destruct (nameOf node (range (Children parent t))) as [name|] eqn:E; [|done]. apply nameOf_present in E.
  apply sameOn_guard. intros _. apply sameOn_view. apply sameOn_guard. intros _.
  intros s0 Ht. cbn [NodeRenamer guarded]. destruct (NodeRenamer parent) as [rename|]; [|done]. revert s0 Ht.
  apply sameOn_nodeAt. intros target. apply sameOn_only. intros w <-. split; [right; eauto|done].
Qed.

Lemma dispatch_same msize proto maxFids msg s :
  @dispatch U Handle XattrWriter guarded _ _ range msize proto maxFids msg s =
  @dispatch U Handle XattrWriter N _ _ range msize proto maxFids msg s.
Proof.
  destruct msg; cbn [dispatch]; try reflexivity.
  all: first
    [ apply handleWalk_same | apply handleMkdir_same | apply handleSymlink_same | apply handleMknod_same
    | apply handleLink_same | apply handleUnlinkat_same | apply handleRenameat_same | apply handleRename_same
    | apply handleRemove_same | idtac ].
  - apply same_respond, same_bind; [apply createFid_same|done].
  - apply same_respond. apply sameOn_same. intros t. apply sameOn_capability. intros flags _ s0 _.
    apply same_guard. intros _. apply same_bind; [apply createFid_same|done].
Qed.
End Guard.

(** C16: only valid names reach the file system.  Replace a file system by one
    that does anything at all when it is asked to look up a name that is empty
    or holds a slash or a NUL byte; when it is asked to create, link or rename
    to such a name, or to [.] or [..]; or when it is asked to remove or rename
    away a name that is neither free of all these nor the name of a child the
    directory already has in the inode tree (Trename and Tremove find the name
    there) - and no request of any connection behaves differently.  [range] is
    any order in which Go may range over the children. *)
Theorem names_validated {U Handle XattrWriter} (N : NodeOps U Handle XattrWriter)
    `{Capabilities (NS U) NodeId Handle XattrWriter} `{BufPool}
    (range : gmap string NodeId -> list (string * NodeId)) (bad : forall A, M (NS U) A) msize proto maxFids msg s :
  (forall m name n, (name, n) ∈ range m -> m !! name = Some n) ->
  @dispatch U Handle XattrWriter (guarded N bad) _ _ range msize proto maxFids msg s =
  @dispatch U Handle XattrWriter N _ _ range msize proto maxFids msg s.
Proof. intros Hrange. by apply dispatch_same. Qed.

#[local] Existing Instances PerLookup.ops PerLookup.caps zeroPool.

(** A walk to [..] and [a/b] is refused before [Lookup] sees either name. *)
Lemma names_validated_witness :
  let bad A (w : NS nat) : result A * NS nat := (Err (Sentinel "escaped"), mkNS (tree w) 0%nat) in
  let s := serverOf (default newFidTable (conns (PerLookup.run [PerLookup.attach 1]) !! 0%nat)) (PerLookup.run [PerLookup.attach 1]) in
  let d N msg := @dispatch nat unit unit N _ _ map_to_list 8192 protocolL 0 msg s in
  (d PerLookup.ops (PerLookup.walk 1 2 [".."; "a/b"])).1 = MRlerror (Rlerror.mk EINVAL) /\
  d (guarded PerLookup.ops bad) (PerLookup.walk 1 2 [".."; "a/b"]) = d PerLookup.ops (PerLookup.walk 1 2 [".."; "a/b"]).
Proof.
  cbv zeta. split; [by vm_compute|]. apply (names_validated PerLookup.ops map_to_list).
  intros m name n Hn. by apply elem_of_map_to_list.
Defined.
