(* ===== verification/Walk.v ===== *)
(** * Walks resolve paths

    What [Twalk] means on a file system of nodes that embed [Inode] and keep
    its [Lookup] ([server/memfs] is one): the request's names are looked up
    one by one from the fid's node; [walkSpec] is that meaning, a function
    from the fid map and the tree to the response and the fid map, and
    [handleWalk] computes it in every case: clone, partial walk, errors, limit,
    a new fid or the same one. *)

From S2P Require Import Prelude GoIO Types Errno Proto Messages P9l P9u Message Dirents.
From S2P Require Import Bufpool FidTable Bridge Inode Namespace RefCount.

(** ** Reference *)

Definition isDir (n : NodeId) (t : Tree) : bool := negb (Z.land (QID.Type_ (QIDof n t)) QTDIR =? 0).

(** The nodes that the longest resolvable prefix of [names] leads through. *)
Fixpoint resolve (t : Tree) (n : NodeId) (names : list string) : list NodeId :=
  match names with
  | [] => []
  | name :: names =>
      if isDir n t then
        match Inode.Lookup n name t with
        | Ok child => child :: resolve t child names
        | Err _ => []
        end
      else []
  end.

Definition arrival (n : NodeId) (nodes : list NodeId) : NodeId := List.last nodes n.

Section Walk.
Context {U Handle XattrWriter : Type} `{NodeOps U Handle XattrWriter}.
Context `{Capabilities (NS U) NodeId Handle XattrWriter} `{BufPool}.
Context (range : gmap string NodeId -> list (string * NodeId)).
Context (proto : protocol) (maxFids : Z).
Abbreviation Srv := (@Server (NS U) NodeId Handle XattrWriter).
Abbreviation FS := (fidState NodeId Handle XattrWriter).
Abbreviation FM := (gmap Fid FS).

(** A new fid, unless there are too many or it is in use. *)
Definition bindSpec (fid : Fid) (fs : FS) (m : FM) : option Errno * FM :=
  if (0 <? maxFids) && (maxFids <=? Z.of_nat (size m)) then (Some EMFILE, m)
  else match m !! fid with
       | Some _ => (Some EBADF, m)
       | None => (None, <[fid := fs]> m)
       end.
Definition answer (resp : Message) (r : option Errno * FM) : Message * FM :=
  (match r.1 with None => resp | Some e => errorMsg proto e end, r.2).

Definition walkSpec (tw : Twalk.t) (m : FM) (t : Tree) : Message * FM :=
  let names := Twalk.Names tw in
  match m !! Twalk.Fid tw with
  | None => (errorMsg proto EBADF, m)
  | Some src =>
      if decide (names = []) then
        if decide (Twalk.Fid tw = Twalk.NewFid tw) then (MRwalk (Rwalk.mk []), m)
        else answer (MRwalk (Rwalk.mk [])) (bindSpec (Twalk.NewFid tw) (newFidState (node src) (path src) fidAllocated) m)
      else if existsb (fun name => match validatePathElement name with None => false | Some _ => true end) names
      then (errorMsg proto EINVAL, m)
      else
        let nodes := resolve t (node src) names in
        let resp := MRwalk (Rwalk.mk ((fun n => QIDof n t) <$> nodes)) in
        if decide (nodes = []) then (errorMsg proto (if isDir (node src) t then ENOENT else ENOTDIR), m)
        else if (length nodes <? length names)%nat then (resp, m)
        else
          let dest := arrival (node src) nodes in
          let newPath := pathClean (path src +:+ "/" +:+ String.concat "/" names) in
          if decide (Twalk.Fid tw = Twalk.NewFid tw) then (resp, <[Twalk.Fid tw := set_node dest newPath src]> m)
          else answer resp (bindSpec (Twalk.NewFid tw) (newFidState dest newPath fidAllocated) m)
  end.

(** ** The handler *)

(** The nodes embed [Inode] and none overrides its [Lookup] or [QID]. *)
Context (Hlookup : forall n, NodeLookuper n = Some (fun name w => (Inode.Lookup n name (tree w), w))).
Context (Hqid : forall n w, nodeQID n w = QIDof n (tree w)).

(** The fids and the file system as before; nodes may have been closed. *)
Definition quiet (s s' : Srv) : Prop := fids s' = fids s /\ world s' = world s.

#[local] Instance quiet_preorder : PreOrder quiet.
Proof. split; [done|]. intros s1 s2 s3 [F1 W1] [F2 W2]. split; congruence. Qed.

Lemma closeUnboundNode_quiet n (s : Srv) : exists s', closeUnboundNode n s = (Ok tt, s') /\ quiet s s'.
Proof.
  unfold closeUnboundNode. rewrite (surjective_pairing ((viewTree _ ≫= _) s)).
  destruct s as [ft [t u] rel]. unfold viewTree, onTree, mbind, M_bind. cbn.
  destruct (embeds n && negb (refsOf n t =? 0)); eexists; cbn; done.
Qed.

Lemma when_close_quiet b n (s : Srv) : exists s', when b (closeUnboundNode n) s = (Ok tt, s') /\ quiet s s'.
Proof. destruct b; [apply closeUnboundNode_quiet|]. by exists s. Qed.

Lemma last_cons (n child : NodeId) nodes : arrival n (child :: nodes) = arrival child nodes.
Proof. unfold arrival. revert child. induction nodes as [|x xs IH]; intros child; [done|]. cbn in *. by destruct xs. Qed.

Lemma bind_Ok {A B} (m : M Srv A) (k : A -> M Srv B) s a s1 : m s = (Ok a, s1) -> (m ≫= k) s = k a s1.
Proof. intros Hm. unfold mbind, M_bind. by rewrite Hm. Qed.

Lemma Lookup_err n name t e : Inode.Lookup n name t = Err e -> e = ErrnoError ENOENT.
Proof. unfold Inode.Lookup. repeat case_match; congruence. Qed.

Lemma call_lookup n name (s : Srv) :
  attempt (call (fun w : NS U => (Inode.Lookup n name (tree w), w))) s = (Ok (Inode.Lookup n name (tree (world s))), s).
Proof. unfold attempt, call. by destruct s. Qed.

Lemma walkLoop_spec names first walkStart current qids (s : Srv) :
  let t := tree (world s) in
  let nodes := resolve t current names in
  exists s', quiet s s' /\
    walkLoop first walkStart current qids names s =
      (if first && bool_decide (names <> [] /\ nodes = []) then
         Err (ErrnoError (if isDir current t then ENOENT else ENOTDIR))
       else Ok (arrival current nodes, qids ++ ((fun n => QIDof n t) <$> nodes)), s').
Proof.
  cbv zeta. revert first current qids s. induction names as [|name names IH]; intros; cbn [walkLoop].
  { exists s. split; [done|]. rewrite bool_decide_eq_false_2 by naive_solver. rewrite andb_false_r. cbn. by rewrite app_nil_r. }
  assert (Hstop : resolve (tree (world s)) current (name :: names) = [] ->
    exists s', quiet s s' /\
    (if first then throw (ErrnoError (if isDir current (tree (world s)) then ENOENT else ENOTDIR)) else mret (current, qids)) s =
      (if first && bool_decide (name :: names <> [] /\ resolve (tree (world s)) current (name :: names) = []) then
         Err (ErrnoError (if isDir current (tree (world s)) then ENOENT else ENOTDIR))
       else Ok (arrival current (resolve (tree (world s)) current (name :: names)),
                qids ++ ((fun n => QIDof n (tree (world s))) <$> resolve (tree (world s)) current (name :: names))), s')).
  { intros Hn. exists s. split; [done|]. rewrite bool_decide_eq_true_2 by done. rewrite andb_true_r, Hn. cbn. rewrite app_nil_r.
    by destruct first. }
  rewrite (bind_Ok _ _ s (nodeQID current (world s)) s) by done. rewrite Hqid.
  assert (Hdir : isDir current (tree (world s)) = negb (Z.land (QID.Type_ (QIDof current (tree (world s)))) QTDIR =? 0)) by done.
  cbn [resolve] in *. destruct (_ =? 0); cbn [negb] in Hdir; rewrite Hdir in *; [by apply Hstop|].
  rewrite Hlookup, (bind_Ok _ _ s _ _ (call_lookup current name s)).
  destruct (Inode.Lookup current name (tree (world s))) as [child|e] eqn:E.
  2: { apply Lookup_err in E as ->. by apply Hstop. }
  rewrite (bind_Ok _ _ s (nodeQID child (world s)) s) by done. rewrite Hqid.
  destruct (when_close_quiet (negb (current =? walkStart)%nat && negb (current =? child)%nat) current s) as (s1 & Hs1 & Hq1).
  rewrite (bind_Ok _ _ s tt s1 Hs1). destruct (IH false child (qids ++ [QIDof child (tree (world s))]) s1) as (s2 & Hq2 & ->).
  destruct Hq1 as [HF HW]. rewrite HW in *. exists s2. split; [by transitivity s1|]. cbn [andb].
  rewrite bool_decide_eq_false_2 by naive_solver. rewrite andb_false_r, last_cons. by rewrite <- app_assoc.
Qed.

(** *** Binding *)

Lemma addFid_spec fid fs (s : Srv) :
  FidTable.wf (fids s) ->
  let r := bindSpec fid fs (abs (fids s)) in
  exists s', abs (fids s') = r.2 /\ addFid maxFids fid fs s = (Ok r.1, s').
Proof.
  intros Hwf. pose proof (run_simulates (OpAdd fid fs maxFids) (fids s) Hwf) as Hsim. unfold simulates, run, spec in Hsim.
  unfold addFid, onTable, mbind, M_bind, bindSpec. destruct (alloc fs (fids s)) as [l ft1].
  destruct (add fid l maxFids ft1) as [r ft2].
  destruct ((0 <? maxFids) && _); [|destruct (abs (fids s) !! fid)]; destruct Hsim as (Hr & Ha & _); inversion Hr; subst r;
    (eexists; split; [|done]; by rewrite Ha).
Qed.

(** What the client and the fid map see of a handler. *)
Definition outcome (h : M Srv Message) (s : Srv) : Message * FM :=
  let '(resp, s') := respond proto h s in (resp, abs (fids s')).

Lemma outcome_eq h h' s s' : h s = h' s' -> outcome h s = outcome h' s'.
Proof. intros Hh. unfold outcome, respond. by rewrite Hh. Qed.

Lemma outcome_bind {A} (m : M Srv A) (k : A -> M Srv Message) s a s1 :
  m s = (Ok a, s1) -> outcome (m ≫= k) s = outcome (k a) s1.
Proof. intros Hm. by apply outcome_eq, bind_Ok. Qed.

Lemma outcome_fail {A} (m : M Srv A) (k : A -> M Srv Message) s e s1 :
  m s = (Err (ErrnoError e), s1) -> outcome (m ≫= k) s = (errorMsg proto e, abs (fids s1)).
Proof. intros Hm. unfold outcome, respond, mbind, M_bind. by rewrite Hm. Qed.

Lemma outcome_ret resp s : outcome (mret resp) s = (resp, abs (fids s)).
Proof. done. Qed.

Lemma outcome_bindFid fid fs resp s :
  FidTable.wf (fids s) ->
  outcome (bindFid maxFids fid fs;; mret resp) s = answer resp (bindSpec fid fs (abs (fids s))).
Proof.
  intros Hwf. destruct (addFid_spec fid fs s Hwf) as (s' & Ha & Hadd). unfold answer.
  destruct (bindSpec fid fs (abs (fids s))) as [[e|] m]; cbn in *; subst m.
  - apply outcome_fail. unfold bindFid. by rewrite (bind_Ok _ _ _ _ _ Hadd).
  - rewrite (outcome_bind _ _ s tt s'); [done|]. unfold bindFid. by rewrite (bind_Ok _ _ _ _ _ Hadd).
Qed.

Lemma resolve_length t n names : (length (resolve t n names) <= length names)%nat.
Proof.
  revert n. induction names as [|name names IH]; intros n; [done|]. cbn. repeat case_match; cbn; try lia.
  specialize (IH a). lia.
Qed.

(** The end of a complete walk. *)
Lemma outcome_walkBind l tw src walkStart current resp s :
  FidTable.wf (fids s) -> FidTable.fids (fids s) !! Twalk.Fid tw = Some l -> fsAt l s = Some src ->
  let newPath := pathClean (path src +:+ "/" +:+ String.concat "/" (Twalk.Names tw)) in
  outcome (walkBind range maxFids l tw walkStart current;; mret resp) s =
    (if decide (Twalk.Fid tw = Twalk.NewFid tw)
     then (resp, <[Twalk.Fid tw := set_node current newPath src]> (abs (fids s)))
     else answer resp (bindSpec (Twalk.NewFid tw) (newFidState current newPath fidAllocated) (abs (fids s)))).
Proof.
  intros Hwf Hl Hfs. cbv zeta. set (newPath := pathClean _).
  assert (Ha : abs (fids s) !! Twalk.Fid tw = Some src) by (by eapply abs_bound).
  assert (Hst : stateAt l s = (Ok src, s)) by (unfold stateAt; by rewrite Hfs).
  case_decide as E.
  - pose proof (run_simulates (OpUpdate (Twalk.Fid tw) current newPath) (fids s) Hwf) as Hsim.
    unfold simulates, run, spec in Hsim. destruct (update _ _ _ _) as [prev ft] eqn:Eu. destruct Hsim as (Hr & Hab & _).
    rewrite Ha in Hr. inversion Hr; subst prev. rewrite (alter_insert _ _ src) in Hab by done. rewrite Hab.
    assert (exists s2, walkBind range maxFids l tw walkStart current s = (Ok tt, s2) /\ fids s2 = ft) as (s2 & Hs2 & <-);
      [|by rewrite (outcome_bind _ _ s tt s2)].
    unfold walkBind. rewrite (bind_Ok _ _ s src s Hst). change (currentPath src) with (path src). fold newPath. rewrite E, Z.eqb_refl, <- E.
    unfold onTable, mbind, M_bind. rewrite Eu. unfold modTree, onTree. cbn.
    destruct (decRefNode _ _ _ _) as [last t]. by eexists.
  - destruct (addFid_spec (Twalk.NewFid tw) (newFidState current newPath fidAllocated) s Hwf) as (s1 & Hab & Hadd).
    destruct (bindSpec _ _ _) as [[e|] m]; cbn in *; subst m; unfold answer; cbn.
    + destruct (when_close_quiet (negb (current =? walkStart)%nat) current s1) as (s2 & Hs2 & [HF _]).
      rewrite <- HF. apply outcome_fail. unfold walkBind. rewrite (bind_Ok _ _ s src s Hst). change (currentPath src) with (path src). fold newPath.
      rewrite (proj2 (Z.eqb_neq _ _) E), (bind_Ok _ _ s _ _ Hadd), (bind_Ok _ _ s1 _ _ Hs2). done.
    + rewrite (outcome_bind _ _ s tt s1); [done|]. unfold walkBind. rewrite (bind_Ok _ _ s src s Hst). change (currentPath src) with (path src). fold newPath.
      by rewrite (proj2 (Z.eqb_neq _ _) E), (bind_Ok _ _ s _ _ Hadd).
Qed.

Lemma validNames_cases names :
  forallb (fun name => match validatePathElement name with None => true | Some _ => false end) names =
  negb (existsb (fun name => match validatePathElement name with None => false | Some _ => true end) names).
Proof. induction names as [|name names IH]; [done|]. cbn. rewrite IH. by destruct (validatePathElement name). Qed.

Lemma handleWalk_outcome tw s :
  FidTable.wf (fids s) ->
  let '(resp, s') := handleWalk range proto maxFids tw s in
  (resp, abs (fids s')) = walkSpec tw (abs (fids s)) (tree (world s)).
Proof.
  intros Hwf. unfold handleWalk. set (h := getFid _ ≫= _). enough (outcome h s = walkSpec tw (abs (fids s)) (tree (world s))) as Ho by (unfold outcome in Ho; by destruct (respond proto h s)).
  subst h. unfold walkSpec. destruct (lookup_cases (fids s) (Twalk.Fid tw) Hwf) as [[Hl Ha]|(l & src & Hl & Hfs & Ha)]; rewrite Ha.
  { apply outcome_fail. unfold getFid, get. by rewrite Hl. }
  assert (Hst : stateAt l s = (Ok src, s)) by (unfold stateAt, fsAt; by rewrite Hfs).
  rewrite (outcome_bind _ _ s l s) by (unfold getFid, get; by rewrite Hl).
  destruct (Twalk.Names tw) as [|name names] eqn:En; [rewrite decide_True by done|rewrite decide_False by done].
  { unfold walkClone. case_decide as E; [by rewrite E, Z.eqb_refl|]. rewrite (proj2 (Z.eqb_neq _ _) E).
    rewrite (outcome_bind _ _ s src s Hst). by apply outcome_bindFid. }
  rewrite validNames_cases. destruct (existsb _ _); [by apply outcome_fail|]. cbn [negb].
  rewrite (outcome_bind _ _ s tt s) by done.
  rewrite (outcome_bind _ _ s (node src) s) by (unfold nodeAt; by rewrite (bind_Ok _ _ s src s Hst)).
  destruct (walkLoop_spec (name :: names) true (node src) (node src) [] s) as (s1 & [HF HW] & Hloop).
  pose proof (resolve_length (tree (world s)) (node src) (name :: names)) as Hlen.
  set (nodes := resolve _ _ _) in *. cbn [andb] in Hloop.
  case_decide as Hn.
  { rewrite bool_decide_eq_true_2 in Hloop by done. rewrite <- HF. by apply outcome_fail. }
  rewrite bool_decide_eq_false_2 in Hloop by naive_solver. rewrite (outcome_bind _ _ s _ s1 Hloop). cbn [app].
  rewrite length_fmap. destruct (Nat.ltb_spec (length nodes) (length (name :: names))) as [Hlt|Hge].
  - rewrite (proj2 (Nat.eqb_neq _ _)) by lia.
    destruct (when_close_quiet (negb (arrival (node src) nodes =? node src)%nat) (arrival (node src) nodes) s1) as (s2 & Hs2 & [HF2 _]).
    rewrite (outcome_bind _ _ s1 tt s2 Hs2), outcome_ret. by rewrite HF2, HF.
  - rewrite (proj2 (Nat.eqb_eq _ _)) by lia.
    rewrite (outcome_walkBind l tw src); [by rewrite HF, En|by rewrite HF|by rewrite HF|unfold fsAt; by rewrite HF].
Qed.
End Walk.

(** C17: a walk resolves its path.  On a file system of nodes that keep the
    [Lookup] of the [Inode] they embed, the response of Twalk and the fids
    after it are those of [walkSpec], in every case: an unknown fid, a clone,
    an invalid name, a first name that does not resolve or a fid that is no
    directory (an error), a later one (the QIDs so far, and no fid), and a
    complete walk, which binds the new fid to the node the names lead to, or
    moves the fid there, unless the limit or a fid in use forbids it. *)
Theorem walk_resolves {U Handle XattrWriter} `{NodeOps U Handle XattrWriter}
    `{Capabilities (NS U) NodeId Handle XattrWriter} `{BufPool} range proto maxFids tw s :
  (forall n, NodeLookuper n = Some (fun name w => (Inode.Lookup n name (tree w), w))) ->
  (forall n w, nodeQID n w = QIDof n (tree w)) ->
  FidTable.wf (fids s) ->
  let '(resp, s') := handleWalk range proto maxFids tw s in
  (resp, abs (fids s')) = walkSpec proto maxFids tw (abs (fids s)) (tree (world s)).
Proof. intros Hlookup Hqid Hwf. by apply handleWalk_outcome. Qed.

(** *** At a concrete server

    A directory [a] with a file [f]. *)
Module TreeFS.
#[export] Instance ops : NodeOps unit unit unit := {
  embeds _ := true;
  nodeQID n w := QIDof n (tree w);
  NodeLookuper n := Some (fun name w => (Inode.Lookup n name (tree w), w));
  NodeOpener _ := None; NodeCreater _ := None; NodeMkdirer _ := None;
  NodeSymlinker _ := None; NodeMknoder _ := None; NodeLinker _ := None; NodeUnlinker _ := None;
  NodeRenamer _ := None; NodeGetattrer _ := None; NodeSetattrer _ := None; NodeReadlinker _ := None;
  NodeStatFSer _ := None; FileSyncer _ := None; NodeFsyncer _ := None; FileLocker _ := None;
  NodeLocker _ := None; RawXattrer _ := None; NodeXattrGetter _ := None; NodeXattrSetter _ := None;
  NodeXattrLister _ := None; NodeXattrRemover _ := None;
  XattrWriter_Commit _ w := (Ok tt, w);
  attacher := None; anames := None; root := 0%nat
}.
#[export] Instance caps : Capabilities (NS unit) NodeId unit unit := {
  FileReader _ := None; FileWriter _ := None; FileRawReaddirer _ := None; FileReaddirer _ := None;
  NodeReader _ := None; NodeWriter _ := None; NodeRawReaddirer _ := None; NodeReaddirer _ := None;
  XattrWriter_Write _ _ w := (Ok 0, w)
}.
Definition theTree : Tree :=
  AddChild 1 "f" 2 (AddChild 0 "a" 1
    (Init 2 (QID.mk QTFILE 0 2) (Init 1 (QID.mk QTDIR 0 1) (Init 0 (QID.mk QTDIR 0 0) ∅)))).
Definition server : @Server (NS unit) NodeId unit unit :=
  mkServer (mkFidTable {[0%nat := newFidState 0%nat "/" fidAllocated]} {[1 := 0%nat]}) (mkNS theTree tt) [].
Definition walk (names : list string) : Message * @Server (NS unit) NodeId unit unit :=
  @handleWalk unit unit unit ops map_to_list protocolL 0 (Twalk.mk 1 2 names) server.
End TreeFS.

Lemma walk_resolves_witness :
  (TreeFS.walk ["a"; "f"]).1 = MRwalk (Rwalk.mk [QID.mk QTDIR 0 1; QID.mk QTFILE 0 2]) /\
  (TreeFS.walk ["a"; "g"]).1 = MRwalk (Rwalk.mk [QID.mk QTDIR 0 1]) /\
  (TreeFS.walk ["f"]).1 = MRlerror (Rlerror.mk ENOENT) /\
  abs (fids (TreeFS.walk ["a"; "f"]).2) !! 2 = Some (newFidState 2%nat "/a/f" fidAllocated).
Proof.
  split_and!; [by vm_compute..|].
  assert (Hwf : FidTable.wf (fids TreeFS.server)).
  { split; cbn.
    - intros fid l [_ <-]%lookup_singleton_Some. by rewrite lookup_singleton_eq.
    - by intros fid1 fid2 l [<- _]%lookup_singleton_Some [<- _]%lookup_singleton_Some. }
  pose proof (@walk_resolves unit unit unit TreeFS.ops TreeFS.caps zeroPool map_to_list protocolL 0
    (Twalk.mk 1 2 ["a"; "f"]) TreeFS.server (fun _ => eq_refl) (fun _ _ => eq_refl) Hwf) as Hw.
  unfold TreeFS.walk. destruct (handleWalk _ _ _ _ _) as [resp s'].
  apply (f_equal snd) in Hw. cbn [snd] in *. rewrite Hw. by vm_compute.
Defined.
