(* ===== verification/ClientConn.v ===== *)
(** * Client connection

    [client/tags.go], [client/fidalloc.go], [client/inflight.go],
    [client/flush.go] and the exchange of a request for its response
    ([client/ops.go], [exchangeWithFlush]).

    A response channel has room for one message; an entry of the in-flight map
    is the address of one.  [System] interleaves the critical sections of any
    number of callers, the read loop, the shutdown and a server that answers
    each request at most once, in any order, and a Tflush as flush(5) demands:
    requests with the old tag that it received before are answered first or
    never.

    The theorems: a tag has one owner, nothing is registered over another
    request, and no tag is lost; without Tflush every caller gets the response
    to its own request; and with it, a caller can get another's.  Fids are
    handed out once. *)

From S2P Require Import Prelude Types.

(** ** Tags *)

Module Tags.
(** The free list is a channel of capacity [cap]. *)
Record t : Type := mk { cap : nat; free : list Tag }.

Definition newTagAllocator (n : nat) : t := mk n (Z.of_nat <$> seq 1 n).

(** [None]: it blocks. *)
Definition acquire (ta : t) : option (Tag * t) :=
  match free ta with
  | [] => None
  | tag :: rest => Some (tag, mk (cap ta) rest)
  end.

Definition release (tag : Tag) (ta : t) : t :=
  if (length (free ta) <? cap ta)%nat then mk (cap ta) (free ta ++ [tag]) else ta.
End Tags.

Definition maxMaxInflight : Z := 32766.
Definition flushTagBit : Z := 0x8000.
Definition flushTagFor (oldTag : Tag) : Tag := Z.lor oldTag flushTagBit.

(** ** Fids *)

Module Fids.
Definition fidStart : Fid := 1.
Definition reuseCacheSize : nat := 1024.
Definition ErrFidExhausted : GoError := Sentinel "client: fid space exhausted".

(** The last element of the Go slice [reuse] is the head of the list. *)
Record t : Type := mk { next : Fid; reuse : list Fid }.

Definition newFidAllocator : t := mk fidStart [].

Definition acquire (fa : t) : result Fid * t :=
  match reuse fa with
  | f :: rest => (Ok f, mk (next fa) rest)
  | [] =>
      if NoFid <=? next fa then (Err ErrFidExhausted, fa)
      else (Ok (next fa), mk (uint_wrap 32 (next fa + 1)) [])
  end.

Definition release (fid : Fid) (fa : t) : t :=
  if (length (reuse fa) <? reuseCacheSize)%nat then mk (next fa) (fid :: reuse fa) else fa.

Definition len (fa : t) : Z := Z.of_nat (length (reuse fa)).

(** *** Users

    A user releases a fid it holds, once; some fids are never released. *)
Inductive Act : Type := Acquire | Release (f : Fid) | Forget (f : Fid).

Inductive step : t * list Fid -> Act -> t * list Fid -> Prop :=
  | step_acquire fa held f fa' : acquire fa = (Ok f, fa') -> step (fa, held) Acquire (fa', f :: held)
  | step_refused fa held e : acquire fa = (Err e, fa) -> step (fa, held) Acquire (fa, held)
  | step_release fa h1 h2 f : step (fa, h1 ++ f :: h2) (Release f) (release f fa, h1 ++ h2)
  | step_forget fa h1 h2 f : step (fa, h1 ++ f :: h2) (Forget f) (fa, h1 ++ h2).

Inductive reachable : t * list Fid -> Prop :=
  | reach_start : reachable (newFidAllocator, [])
  | reach_step c a c' : reachable c -> step c a c' -> reachable c'.

Definition Inv (c : t * list Fid) : Prop :=
  let '(fa, held) := c in
  fidStart <= next fa <= NoFid /\ NoDup (reuse fa ++ held) /\ (length (reuse fa) <= reuseCacheSize)%nat /\
  Forall (fun f => fidStart <= f < next fa) (reuse fa ++ held).

Lemma alloc_Inv_step c a c' : Inv c -> step c a c' -> Inv c'.
Proof.
  intros Hc Hs. destruct Hs as [fa held f fa' E|fa held e E|fa h1 h2 f|fa h1 h2 f]; destruct Hc as (Hn & Hd & Hl & Hf).
  - unfold acquire in E. destruct fa as [n [|g rest]]; cbn in *.
    + destruct (Z.leb_spec NoFid n); [done|]. injection E as <- <-. unfold fidStart, NoFid in *.
      rewrite uint_wrap_id by (unfold is_uint; lia). cbn. split; [lia|]. split.
      * apply NoDup_cons. split; [|done]. intros Hin. rewrite Forall_forall in Hf. specialize (Hf n Hin). lia.
      * split; [done|]. apply Forall_cons. split; [lia|]. eapply Forall_impl; [done|]. cbn. lia.
    + injection E as <- <-. cbn. split; [done|]. rewrite <- Permutation_middle. by split_and!; [|lia|].
  - done.
  - unfold release. destruct (Nat.ltb_spec (length (reuse fa)) reuseCacheSize); cbn; (split; [done|]).
    + assert (f :: reuse fa ++ h1 ++ h2 ≡ₚ reuse fa ++ h1 ++ f :: h2) as Hp.
      { rewrite (app_assoc _ h1), (app_assoc _ h1 (f :: h2)). apply Permutation_middle. }
      rewrite <- Hp in Hd, Hf. split; [done|]. split; [lia|done].
    + revert Hd Hf. rewrite !app_assoc, <- Permutation_middle. intros [_ Hd]%NoDup_cons [_ Hf]%Forall_cons. done.
  - split; [done|]. revert Hd Hf. rewrite !app_assoc, <- Permutation_middle. intros [_ Hd]%NoDup_cons [_ Hf]%Forall_cons. done.
Qed.

Lemma reachable_alloc c : reachable c -> Inv c.
Proof.
  induction 1 as [|c a c' _ IH Hs]; [|by eapply alloc_Inv_step]. cbn. unfold fidStart, NoFid.
  split; [lia|]. split; [constructor|]. split; [unfold reuseCacheSize; lia|constructor].
Qed.
End Fids.

(** Fids are unique.  However callers acquire, release and lose fids, the
    fids they hold are different from each other and from those that wait for
    reuse, are at least 1 and never [NoFid], and the reuse list stays within
    its capacity; a fid is refused only when the 32-bit counter is used up and
    nothing waits for reuse. *)
Theorem fids_unique fa held :
  Fids.reachable (fa, held) ->
  NoDup (Fids.reuse fa ++ held) /\ Forall (fun f => 1 <= f < NoFid) held /\
  (length (Fids.reuse fa) <= Fids.reuseCacheSize)%nat /\
  forall e, fst (Fids.acquire fa) = Err e -> e = Fids.ErrFidExhausted /\ Fids.next fa = NoFid /\ Fids.reuse fa = [].
Proof.
  intros (Hn & Hd & Hl & Hf)%Fids.reachable_alloc. split; [done|]. split.
  { apply Forall_app in Hf as [_ Hf]. eapply Forall_impl; [exact Hf|]. unfold Fids.fidStart in *. cbn. lia. }
  split; [done|]. intros e. unfold Fids.acquire. destruct (Fids.reuse fa); [|done].
  destruct (Z.leb_spec NoFid (Fids.next fa)); [|done]. cbn. intros [= <-]. split; [done|]. split; [lia|done].
Qed.

Lemma fids_unique_witness :
  let s := Fids.release 1 (Fids.mk 3 []) in
  Fids.reachable (s, [2]) /\ NoDup (Fids.reuse s ++ [2]).
Proof.
  cbv zeta. assert (Hr : Fids.reachable (Fids.release 1 (Fids.mk 3 []), [2])).
  { eapply Fids.reach_step; [|exact (Fids.step_release _ [2] [] 1)].
    eapply Fids.reach_step; [|by apply (Fids.step_acquire (Fids.mk 2 []))].
    eapply Fids.reach_step; [apply Fids.reach_start|by apply Fids.step_acquire]. }
  split; [done|]. by apply (fids_unique _ _ Hr).
Defined.

(** ** The in-flight map *)

Abbreviation Addr := nat.

Section Inflight.
Context {R : Type}.

(** [dst] is set on a zero-copy read; [n] is then the bytes copied. *)
Record requestEntry : Type := mkEntry {
  ch : option R;
  chClosed : bool;
  dst : option bytes;
  n : Z
}.

Record inflightMap : Type := mkMap {
  heap : gmap Addr requestEntry;
  entries : gmap Tag Addr
}.
Definition newInflightMap : inflightMap := mkMap ∅ ∅.

Definition registerEntry (tag : Tag) (d : option bytes) (im : inflightMap) : Addr * inflightMap :=
  let a := fresh (dom (heap im)) in
  (a, mkMap (<[a := mkEntry None false d 0]> (heap im)) (<[tag := a]> (entries im))).
Definition register (tag : Tag) : inflightMap -> Addr * inflightMap := registerEntry tag None.
Definition registerZC (tag : Tag) (d : bytes) : inflightMap -> Addr * inflightMap := registerEntry tag (Some d).

(** A non-blocking send. *)
Definition send (r : R) (e : requestEntry) : requestEntry :=
  match ch e with
  | None => mkEntry (Some r) (chClosed e) (dst e) (n e)
  | Some _ => e
  end.
Definition at_ (a : Addr) (f : requestEntry -> requestEntry) (im : inflightMap) : inflightMap :=
  mkMap (alter f a (heap im)) (entries im).

Definition deliver (tag : Tag) (r : R) (im : inflightMap) : inflightMap :=
  match entries im !! tag with
  | None => im
  | Some a => at_ a (send r) im
  end.

(** A receive that does not block: a message or, with nothing left in a closed
    channel, the end. *)
Definition recv (a : Addr) (im : inflightMap) : option (option R * inflightMap) :=
  match heap im !! a with
  | None => None
  | Some e =>
      match ch e with
      | Some r => Some (Some r, at_ a (fun e => mkEntry None (chClosed e) (dst e) (n e)) im)
      | None => if chClosed e then Some (None, im) else None
      end
  end.

Definition unregister (tag : Tag) (im : inflightMap) : inflightMap := mkMap (heap im) (delete tag (entries im)).

Definition closeEntry (e : requestEntry) : requestEntry := mkEntry (ch e) true (dst e) (n e).
Definition cancelAll (im : inflightMap) : inflightMap :=
  mkMap (foldr (alter closeEntry) (heap im) (map_to_list (entries im)).*2) ∅.

Definition len (im : inflightMap) : Z := Z.of_nat (size (entries im)).

Lemma register_fresh tag d im a im' : registerEntry tag d im = (a, im') -> heap im !! a = None.
Proof. intros [= <- <-]. apply not_elem_of_dom, is_fresh. Qed.

Lemma cancelAll_ch im a e :
  heap (cancelAll im) !! a = Some e -> exists e0, heap im !! a = Some e0 /\ ch e = ch e0.
Proof.
  unfold cancelAll. cbn. revert e. induction (map_to_list (entries im)).*2 as [|x xs IH]; cbn; intros e; [eauto|].
  destruct (decide (x = a)) as [->|Hne]; [|rewrite lookup_alter_ne by done; apply IH].
  rewrite lookup_alter_eq. intros (e1 & E & ->)%fmap_Some. destruct (IH e1 E) as (e0 & E0 & Hch). exists e0. by split.
Qed.
End Inflight.
Arguments requestEntry : clear implicits.
Arguments inflightMap : clear implicits.

(** ** Callers, read loop and server *)

Module System.

(** What a caller sends, and what the server says. *)
Inductive Sent : Type := Req (i : nat) | Flush (oldTag : Tag).
Inductive Reply : Type := Response (i : nat) | Rflush.

Inductive Outcome : Type :=
  | Answered (r : Reply)
  | Closed
  | WriteFailed
  | FlushedLate    (** the response came before the Rflush *)
  | Flushed
  | FlushFailed.

(** Where [exchangeWithFlush] and [flushAndWait] are. *)
Inductive Phase : Type :=
  | Entered
  | Acquired (tag : Tag)
  | Registered (tag : Tag) (a : Addr)
  | Waiting (tag : Tag) (a : Addr)
  | Got (tag : Tag) (a : Addr) (o : Outcome)
  | Unregistered (tag : Tag) (o : Outcome)
  | FlushRegistered (tag : Tag) (a fa : Addr)
  | FlushWaiting (tag : Tag) (a fa : Addr)
  | FlushGot (tag : Tag) (a fa : Addr) (o : Outcome)
  | Cancelled (tag : Tag)    (** no Tflush: the tag is kept forever *)
  | Done (o : option Outcome).

Record Conn : Type := mkConn {
  tags : Tags.t;
  inflight : inflightMap Reply;
  closing : bool;
  closed : bool;
  callers : gmap nat Phase;
  sent : list (Tag * Sent);      (** sent and not yet answered *)
  inbox : list (Tag * Reply)     (** answered and not yet read *)
}.
Definition newConn (maxInflight : nat) : Conn :=
  mkConn (Tags.newTagAllocator maxInflight) newInflightMap false false ∅ [] [].

Definition setPhase (i : nat) (p : Phase) (c : Conn) : Conn :=
  mkConn (tags c) (inflight c) (closing c) (closed c) (<[i := p]> (callers c)) (sent c) (inbox c).
Definition setTags (t : Tags.t) (c : Conn) : Conn :=
  mkConn t (inflight c) (closing c) (closed c) (callers c) (sent c) (inbox c).
Definition setInflight (im : inflightMap Reply) (c : Conn) : Conn :=
  mkConn (tags c) im (closing c) (closed c) (callers c) (sent c) (inbox c).
Definition setWire (s : list (Tag * Sent)) (r : list (Tag * Reply)) (c : Conn) : Conn :=
  mkConn (tags c) (inflight c) (closing c) (closed c) (callers c) s r.

(** A request with the old tag that the server has when it gets the Tflush. *)
Definition flushable (oldTag : Tag) (x : Tag * Sent) : Prop := x.1 = oldTag /\ exists i, x.2 = Req i.
#[export] Instance flushable_dec oldTag x : Decision (flushable oldTag x).
Proof.
  unfold flushable. destruct x as [t [i|o]]; cbn.
  - destruct (decide (t = oldTag)); [left; eauto|right; naive_solver].
  - right. naive_solver.
Defined.

(** [flush]: whether a cancelled caller sends a Tflush ([flushOnCancel]). *)
Inductive step (flush : bool) : Conn -> Conn -> Prop :=
  | step_admit i c : callers c !! i = None -> closing c = false -> step flush c (setPhase i Entered c)
  | step_acquire i tag t c :
      callers c !! i = Some Entered -> Tags.acquire (tags c) = Some (tag, t) ->
      step flush c (setPhase i (Acquired tag) (setTags t c))
  | step_noTag i c : callers c !! i = Some Entered -> step flush c (setPhase i (Done None) c)
  | step_register i tag d a im c :
      callers c !! i = Some (Acquired tag) -> registerEntry tag d (inflight c) = (a, im) ->
      step flush c (setPhase i (Registered tag a) (setInflight im c))
  | step_write i tag a c :
      callers c !! i = Some (Registered tag a) -> closed c = false ->
      step flush c (setPhase i (Waiting tag a) (setWire (sent c ++ [(tag, Req i)]) (inbox c) c))
  | step_writeFails i tag a c :
      callers c !! i = Some (Registered tag a) ->
      step flush c (setPhase i (Unregistered tag WriteFailed) (setInflight (unregister tag (inflight c)) c))
  | step_receive i tag a r im c :
      callers c !! i = Some (Waiting tag a) -> recv a (inflight c) = Some (r, im) ->
      step flush c (setPhase i (Got tag a (match r with Some r => Answered r | None => Closed end)) (setInflight im c))
  | step_seesClose i tag a c :
      callers c !! i = Some (Waiting tag a) -> closed c = true ->
      step flush c (setPhase i (Got tag a Closed) c)
  | step_unregister i tag a o c :
      callers c !! i = Some (Got tag a o) ->
      step flush c (setPhase i (Unregistered tag o) (setInflight (unregister tag (inflight c)) c))
  | step_release i tag o c :
      callers c !! i = Some (Unregistered tag o) ->
      step flush c (setPhase i (Done (Some o)) (setTags (Tags.release tag (tags c)) c))
  | step_cancelNoFlush i tag a c :
      callers c !! i = Some (Waiting tag a) ->
      step flush c (setPhase i (Cancelled tag) (setInflight (unregister tag (inflight c)) c))
  | step_cancel i tag a fa im c :
      flush = true -> callers c !! i = Some (Waiting tag a) ->
      register (flushTagFor tag) (inflight c) = (fa, im) ->
      step flush c (setPhase i (FlushRegistered tag a fa) (setInflight im c))
  | step_writeFlush i tag a fa c :
      callers c !! i = Some (FlushRegistered tag a fa) -> closed c = false ->
      step flush c (setPhase i (FlushWaiting tag a fa) (setWire (sent c ++ [(flushTagFor tag, Flush tag)]) (inbox c) c))
  | step_writeFlushFails i tag a fa c :
      callers c !! i = Some (FlushRegistered tag a fa) ->
      step flush c (setPhase i (FlushGot tag a fa FlushFailed) c)
  | step_responseFirst i tag a fa r im c :
      callers c !! i = Some (FlushWaiting tag a fa) -> recv a (inflight c) = Some (r, im) ->
      step flush c (setPhase i (FlushGot tag a fa (match r with Some _ => FlushedLate | None => Closed end)) (setInflight im c))
  | step_rflushFirst i tag a fa r im c :
      callers c !! i = Some (FlushWaiting tag a fa) -> recv fa (inflight c) = Some (r, im) ->
      step flush c (setPhase i (FlushGot tag a fa (match r with Some _ => Flushed | None => Closed end)) (setInflight im c))
  | step_flushGivesUp i tag a fa o c :
      callers c !! i = Some (FlushWaiting tag a fa) -> closed c = true -> o = Closed \/ o = FlushFailed ->
      step flush c (setPhase i (FlushGot tag a fa o) c)
  | step_flushUnregister i tag a fa o c :
      callers c !! i = Some (FlushGot tag a fa o) ->
      step flush c (setPhase i (Got tag a o) (setInflight (unregister (flushTagFor tag) (inflight c)) c))
  | step_deliver tag r rest c :
      inbox c = (tag, r) :: rest ->
      step flush c (setInflight (deliver tag r (inflight c)) (setWire (sent c) rest c))
  | step_closeAdmission c :
      step flush c (mkConn (tags c) (inflight c) true (closed c) (callers c) (sent c) (inbox c))
  | step_close c :
      closing c = true -> step flush c (mkConn (tags c) (inflight c) true true (callers c) (sent c) (inbox c))
  | step_cancelAll c :
      closed c = true -> step flush c (setInflight (cancelAll (inflight c)) c)
  | step_serverAnswers tag i s1 s2 c :
      sent c = s1 ++ (tag, Req i) :: s2 ->
      step flush c (setWire (s1 ++ s2) (inbox c ++ [(tag, Response i)]) c)
  | step_serverFlushes ftag tag s1 s2 c :
      sent c = s1 ++ (ftag, Flush tag) :: s2 ->
      step flush c (setWire (filter (fun x => ~ flushable tag x) s1 ++ s2) (inbox c ++ [(ftag, Rflush)]) c).

Inductive reachable (flush : bool) (maxInflight : nat) : Conn -> Prop :=
  | reach_start : reachable flush maxInflight (newConn maxInflight)
  | reach_step c c' : reachable flush maxInflight c -> step flush c c' -> reachable flush maxInflight c'.

(** *** Ownership of tags *)

Definition ownTag (p : Phase) : option Tag :=
  match p with
  | Entered | Done _ => None
  | Acquired t | Registered t _ | Waiting t _ | Got t _ _ | Unregistered t _ | Cancelled t
  | FlushRegistered t _ _ | FlushWaiting t _ _ | FlushGot t _ _ _ => Some t
  end.

(** What a caller has registered and not unregistered. *)
Definition regs (p : Phase) : list (Tag * Addr) :=
  match p with
  | Registered t a | Waiting t a | Got t a _ => [(t, a)]
  | FlushRegistered t a fa | FlushWaiting t a fa | FlushGot t a fa _ => [(t, a); (flushTagFor t, fa)]
  | _ => []
  end.

Definition owned (cs : gmap nat Phase) : list Tag := omap ownTag (map_to_list cs).*2.

Lemma owned_insert i p cs : cs !! i = None -> owned (<[i := p]> cs) ≡ₚ option_list (ownTag p) ++ owned cs.
Proof. intros Hi. unfold owned. rewrite map_to_list_insert by done. cbn. by destruct (ownTag p). Qed.

Lemma owned_update i p cs : owned (<[i := p]> cs) ≡ₚ option_list (ownTag p) ++ owned (delete i cs).
Proof. rewrite <- insert_delete_eq. apply owned_insert, lookup_delete_eq. Qed.

Lemma owned_lookup i p cs : cs !! i = Some p -> owned cs ≡ₚ option_list (ownTag p) ++ owned (delete i cs).
Proof. intros Hi. rewrite <- owned_update. by rewrite insert_id. Qed.

Lemma owned_same i p p' cs : cs !! i = Some p -> ownTag p' = ownTag p -> owned (<[i := p']> cs) ≡ₚ owned cs.
Proof. intros Hi Ho. by rewrite owned_update, Ho, <- owned_lookup. Qed.

Lemma elem_of_owned i p t cs : cs !! i = Some p -> ownTag p = Some t -> t ∈ owned cs.
Proof. intros Hi Ho. rewrite (owned_lookup i p cs Hi), Ho. cbn. apply list_elem_of_here. Qed.

Lemma owned_exclusive i j p q t cs :
  NoDup (owned cs) -> cs !! i = Some p -> cs !! j = Some q -> ownTag p = Some t -> ownTag q = Some t -> i = j.
Proof.
  intros Hd Hi Hj Hp Hq. destruct (decide (i = j)) as [|Hne]; [done|]. exfalso.
  rewrite (owned_lookup i p cs Hi), Hp in Hd. cbn in Hd. apply NoDup_cons in Hd as [Hn _]. apply Hn.
  apply (elem_of_owned j q t); [by rewrite lookup_delete_ne|done].
Qed.

(** *** The mirror range *)

Lemma flushTagFor_add t : 0 <= t < flushTagBit -> flushTagFor t = t + flushTagBit.
Proof.
  intros Ht. unfold flushTagFor. rewrite <- Z.add_lor_land. assert (Z.land t flushTagBit = 0) as ->; [|lia].
  apply Z.bits_inj'. intros k Hk. rewrite Z.land_spec, Z.bits_0. change flushTagBit with (2 ^ 15) in *.
  rewrite Z.pow2_bits_eqb by lia. destruct (Z.eqb_spec 15 k) as [<-|]; [|apply andb_false_r].
  rewrite andb_true_r. apply Z.testbit_false; [lia|]. by rewrite Z.div_small by lia.
Qed.

Section Ownership.
Context (N : nat) (HN : 1 <= Z.of_nat N <= maxMaxInflight).

Definition allTags : list Tag := Z.of_nat <$> seq 1 N.

Lemma allTags_NoDup : NoDup allTags.
Proof. apply NoDup_fmap; [intros ??; lia|apply NoDup_seq]. Qed.

Lemma allTags_range t : t ∈ allTags -> 1 <= t <= maxMaxInflight.
Proof. intros (k & -> & Hk%elem_of_seq)%list_elem_of_fmap. lia. Qed.

Record Inv (c : Conn) : Prop := {
  inv_cap : Tags.cap (tags c) = N;
  inv_perm : Tags.free (tags c) ++ owned (callers c) ≡ₚ allTags;
  inv_entries x a : entries (inflight c) !! x = Some a -> exists i p, callers c !! i = Some p /\ (x, a) ∈ regs p;
  inv_heap i p x a : callers c !! i = Some p -> (x, a) ∈ regs p -> is_Some (heap (inflight c) !! a);
  inv_addr i j p q x y a :
    callers c !! i = Some p -> callers c !! j = Some q -> (x, a) ∈ regs p -> (y, a) ∈ regs q -> i = j /\ x = y;
  inv_open x a e : entries (inflight c) !! x = Some a -> heap (inflight c) !! a = Some e -> chClosed e = false
}.

Lemma Inv_owned_NoDup c : Inv c -> NoDup (owned (callers c)).
Proof.
  intros Hc. pose proof allTags_NoDup as Hd. rewrite <- (inv_perm c Hc) in Hd. by apply NoDup_app in Hd as (_ & _ & ?).
Qed.

Lemma Inv_range c i p t : Inv c -> callers c !! i = Some p -> ownTag p = Some t -> 1 <= t <= maxMaxInflight.
Proof.
  intros Hc Hi Ho. apply allTags_range. rewrite <- (inv_perm c Hc). apply elem_of_app. right. by eapply elem_of_owned.
Qed.

Lemma regs_tag p x a : (x, a) ∈ regs p -> exists t, ownTag p = Some t /\ (x = t \/ x = flushTagFor t).
Proof.
  destruct p; cbn; rewrite ?elem_of_cons, ?elem_of_nil; intros Hx; try done; eexists; (split; [done|]); naive_solver.
Qed.

(** A key belongs to one caller. *)
Lemma key_owner c i j p q t x a :
  Inv c -> callers c !! i = Some p -> callers c !! j = Some q -> ownTag p = Some t -> x = t \/ x = flushTagFor t ->
  (x, a) ∈ regs q -> i = j.
Proof.
  intros Hc Hi Hj Hp Hx Hq. destruct (regs_tag q x a Hq) as (t' & Hq' & Hx').
  pose proof (Inv_range c i p t Hc Hi Hp). pose proof (Inv_range c j q t' Hc Hj Hq').
  assert (t = t') as <-; [|by eapply owned_exclusive; [apply Inv_owned_NoDup| | | |]].
  unfold maxMaxInflight, flushTagBit in *.
  destruct Hx as [->| ->], Hx' as [Hx'|Hx']; rewrite ?flushTagFor_add in Hx' by (unfold flushTagBit; lia);
    unfold flushTagBit in *; lia.
Qed.

(** *** One caller moves on *)

Record evolves (im im' : inflightMap Reply) (p p' : Phase) : Prop := {
  ev_own : ownTag p' = ownTag p;
  ev_heap a : is_Some (heap im !! a) -> is_Some (heap im' !! a);
  ev_entries x a : entries im' !! x = Some a ->
    (x, a) ∈ regs p' \/ (entries im !! x = Some a /\ (x, a) ∉ regs p);
  ev_regs x a : (x, a) ∈ regs p' ->
    (x, a) ∈ regs p \/ (heap im !! a = None /\ is_Some (heap im' !! a) /\ forall y, (y, a) ∈ regs p' -> y = x);
  ev_open x a e' : entries im' !! x = Some a -> heap im' !! a = Some e' ->
    chClosed e' = false \/ exists e, entries im !! x = Some a /\ heap im !! a = Some e /\ chClosed e' = chClosed e
}.

Lemma Inv_evolves c i p p' im' cl cd s r :
  Inv c -> callers c !! i = Some p -> evolves (inflight c) im' p p' ->
  Inv (mkConn (tags c) im' cl cd (<[i := p']> (callers c)) s r).
Proof.
  intros Hc Hi Hev. pose proof Hc as [Hcap Hperm Hent Hheap Haddr Hopen]. destruct Hev as [Ho Hh He Hr Hop]. split; cbn.
  - done.
  - by rewrite (owned_same i p p').
  - intros x a Hx. destruct (He x a Hx) as [Hp'|[Hx' Hn]].
    + exists i, p'. by rewrite lookup_insert_eq.
    + destruct (Hent x a Hx') as (j & q & Hj & Hq). exists j, q. split; [|done]. rewrite lookup_insert_ne; [done|].
      intros ->. congruence.
  - intros j q x a Hj Hq. apply lookup_insert_Some in Hj as [[<- <-]|[Hne Hj]].
    + destruct (Hr x a Hq) as [Hp|(_ & Hs & _)]; [|done]. apply Hh. by eapply Hheap.
    + apply Hh. by eapply Hheap.
  - intros j k q q' x y a Hj Hk Hq Hq'.
    assert (Hold : forall m u z, callers c !! m = Some u -> (z, a) ∈ regs u -> heap (inflight c) !! a <> None).
    { intros m u z Hm Hu Hn. destruct (Hheap m u z a Hm Hu) as [? ?]. congruence. }
    apply lookup_insert_Some in Hj, Hk. destruct Hj as [[<- <-]|[Hnj Hj]], Hk as [[<- <-]|[Hnk Hk]].
    + destruct (Hr x a Hq) as [Hp|(_ & _ & Hy)]; [|split; [done|symmetry; by apply Hy]].
      destruct (Hr y a Hq') as [Hp'|(Hn & _ & _)]; [by eapply Haddr|]. by destruct (Hold i p x Hi Hp).
    + destruct (Hr x a Hq) as [Hp|(Hn & _ & _)]; [by eapply Haddr|]. by destruct (Hold k q' y Hk Hq').
    + destruct (Hr y a Hq') as [Hp|(Hn & _ & _)]; [by eapply Haddr|]. by destruct (Hold j q x Hj Hq).
    + by eapply Haddr.
  - intros x a e Hx Ha. destruct (Hop x a e Hx Ha) as [|(e0 & Hx0 & Ha0 & ->)]; [done|]. by eapply Hopen.
Qed.

Lemma evolves_same im p p' : ownTag p' = ownTag p -> regs p' = regs p -> evolves im im p p'.
Proof.
  intros Ho Hr. split; rewrite ?Hr; [done|done| |by left|].
  - intros x a Hx. destruct (decide ((x, a) ∈ regs p)); [by left|by right].
  - intros x a e Hx Ha. right. by exists e.
Qed.

Lemma evolves_recv im im' a r p p' :
  recv a im = Some (r, im') -> ownTag p' = ownTag p -> regs p' = regs p -> evolves im im' p p'.
Proof.
  intros Hrecv Ho Hr. unfold recv in Hrecv. destruct (heap im !! a) as [e|] eqn:Ea; [|done].
  destruct (ch e) as [m|]; [|destruct (chClosed e); [|done]; injection Hrecv as _ <-; by apply evolves_same].
  injection Hrecv as _ <-. split; rewrite ?Hr; cbn; [done| | |by left|].
  - intros b Hb. destruct (decide (a = b)) as [<-|Hne]; [by rewrite lookup_alter_eq, Ea|by rewrite lookup_alter_ne].
  - intros x b Hx. destruct (decide ((x, b) ∈ regs p)); [by left|by right].
  - intros x b e' Hx Hb. right. destruct (decide (a = b)) as [<-|Hne].
    + rewrite lookup_alter_eq, Ea in Hb. injection Hb as <-. by exists e.
    + rewrite lookup_alter_ne in Hb by done. by exists e'.
Qed.

Lemma evolves_unregister im t p p' :
  ownTag p' = ownTag p ->
  (forall x a, (x, a) ∈ regs p' -> (x, a) ∈ regs p) ->
  (forall x a, (x, a) ∈ regs p -> x = t \/ (x, a) ∈ regs p') -> evolves im (unregister t im) p p'.
Proof.
  intros Ho Hsub Hrest. split; cbn; [done|done| |by left; auto|].
  - intros x a [Hne Hx]%lookup_delete_Some. destruct (decide ((x, a) ∈ regs p)) as [Hp|Hn]; [|by right].
    left. by destruct (Hrest x a Hp) as [->|].
  - intros x a e [Hne Hx]%lookup_delete_Some Ha. right. by exists e.
Qed.

Lemma evolves_register im im' t d a p p' :
  registerEntry t d im = (a, im') -> ownTag p' = ownTag p -> regs p' ≡ₚ regs p ++ [(t, a)] ->
  (forall x b, (x, b) ∈ regs p -> is_Some (heap im !! b)) -> evolves im im' p p'.
Proof.
  intros Hreg Ho Hr Hheap. pose proof (register_fresh t d im a im' Hreg) as Hf. injection Hreg as Ea Him.
  assert (Hin : forall x b, (x, b) ∈ regs p' <-> (x, b) ∈ regs p \/ (x, b) = (t, a)).
  { intros x b. by rewrite Hr, elem_of_app, list_elem_of_singleton. }
  rewrite Ea in Him. subst im'. split; cbn; [done| | | |].
  - intros b [e Hb]. rewrite lookup_insert. case_decide; [done|]. by exists e.
  - intros x b. rewrite lookup_insert. setoid_rewrite Hin. case_decide as Hx.
    + intros [= <-]. left. right. by subst.
    + intros Hb. destruct (decide ((x, b) ∈ regs p)); [left; by left|by right].
  - intros x b [Hp|Hp]%Hin; [by left|]. injection Hp as -> ->. right. split; [done|]. rewrite lookup_insert_eq.
    split; [done|]. intros y [Hp|Hp]%Hin; [|by injection Hp]. destruct (Hheap y a Hp) as [? ?]. congruence.
  - intros x b e'. rewrite !lookup_insert. case_decide as Hx.
    + intros [= <-]. rewrite decide_True by done. intros [= <-]. by left.
    + intros Hb. case_decide as Hab; [intros [= <-]; by left|]. intros Hb'. right. by exists e'.
Qed.

(** *** Every step *)

Lemma Inv_deliver c tag r cl cd s rs :
  Inv c -> Inv (mkConn (tags c) (deliver tag r (inflight c)) cl cd (callers c) s rs).
Proof.
  intros [Hcap Hperm Hent Hheap Haddr Hopen]. unfold deliver. destruct (entries (inflight c) !! tag) as [b|] eqn:Eb.
  2: by split. split; cbn; try done.
  - intros i p x a Hi Hp. destruct (Hheap i p x a Hi Hp) as [e He].
    destruct (decide (b = a)) as [<-|Hne]; [rewrite lookup_alter_eq, He; by eexists|rewrite lookup_alter_ne by done; by exists e].
  - intros x a e Hx He. destruct (decide (b = a)) as [<-|Hne].
    + rewrite lookup_alter_eq in He. apply fmap_Some in He as (e0 & He0 & ->). unfold send.
      destruct (ch e0); cbn; by eapply Hopen.
    + rewrite lookup_alter_ne in He by done. by eapply Hopen.
Qed.

Lemma heap_cancelAll (im : inflightMap Reply) a : is_Some (heap im !! a) -> is_Some (heap (cancelAll im) !! a).
Proof.
  unfold cancelAll. cbn. induction (map_to_list (entries im)).*2 as [|b bs IH]; cbn; [done|]. intros Ha%IH.
  destruct (decide (b = a)) as [<-|Hne]; [rewrite lookup_alter_eq; by apply fmap_is_Some|by rewrite lookup_alter_ne].
Qed.

Lemma Inv_cancelAll c : Inv c -> Inv (setInflight (cancelAll (inflight c)) c).
Proof.
  intros [Hcap Hperm Hent Hheap Haddr Hopen]. split; cbn; try done.
  intros i p x a Hi Hp. apply heap_cancelAll. by eapply Hheap.
Qed.

Lemma Inv_wire c cl cd s r : Inv c -> Inv (mkConn (tags c) (inflight c) cl cd (callers c) s r).
Proof. by intros []. Qed.

Lemma Inv_tags c i p p' t :
  Inv c -> callers c !! i = p -> from_option regs [] p = [] -> regs p' = [] ->
  Tags.cap t = Tags.cap (tags c) -> 
  Tags.free t ++ option_list (ownTag p') ≡ₚ Tags.free (tags c) ++ option_list (p ≫= ownTag) ->
  Inv (setPhase i p' (setTags t c)).
Proof.
  intros [Hcap Hperm Hent Hheap Haddr Hopen] Hi Hr Hr' Hc Hp.
  assert (Hmove : forall j q x a, <[i := p']> (callers c) !! j = Some q -> (x, a) ∈ regs q -> callers c !! j = Some q).
  { intros j q x a [[<- <-]|[_ ?]]%lookup_insert_Some Hq; [|done]. rewrite Hr' in Hq. by apply elem_of_nil in Hq. }
  split; cbn; eauto.
  - congruence.
  - rewrite owned_update, app_assoc, Hp, <- app_assoc, <- Hperm. f_equiv. destruct p as [q|]; cbn.
    + by rewrite <- owned_lookup.
    + by rewrite delete_id.
  - intros x a Hx. destruct (Hent x a Hx) as (j & q & Hj & Hq). exists j, q. split; [|done]. rewrite lookup_insert_ne; [done|].
    intros ->. assert (p = Some q) as -> by congruence. cbn in Hr. rewrite Hr in Hq. by apply elem_of_nil in Hq.
Qed.

Lemma release_room c i t o : Inv c -> callers c !! i = Some (Unregistered t o) -> (length (Tags.free (tags c)) < N)%nat.
Proof.
  intros Hc Hi. pose proof (Permutation_length (inv_perm c Hc)) as Hl. rewrite length_app in Hl.
  rewrite (owned_lookup i _ _ Hi) in Hl. cbn in Hl. unfold allTags in Hl. rewrite length_fmap, length_seq in Hl. lia.
Qed.

Ltac moves ev := match goal with Hc : Inv ?c, Hi : callers ?c !! ?i = Some ?p |- _ => apply (Inv_evolves c i p); [done|done|ev] end.
Ltac inRegs := cbn; intros ? ?; rewrite ?elem_of_cons, ?elem_of_nil; naive_solver.

Lemma caller_Inv_step flush c c' : Inv c -> step flush c c' -> Inv c'.
Proof.
  intros Hc Hs. destruct Hs; unfold setPhase, setTags, setInflight, setWire; cbn.
  - apply (Inv_tags c i None Entered (tags c)); auto.
  - unfold Tags.acquire in *. destruct (Tags.free (tags c)) as [|tag' rest] eqn:E; [done|]. simplify_eq.
    apply (Inv_tags c i (Some Entered) (Acquired tag)); auto. cbn. rewrite E, app_nil_r. by rewrite Permutation_app_comm.
  - apply (Inv_tags c i (Some Entered) (Done None) (tags c)); auto.
  - moves ltac:(eapply evolves_register; [done|done|done|]). inRegs.
  - moves ltac:(by apply evolves_same).
  - moves ltac:(apply evolves_unregister; [done|inRegs|inRegs]).
  - moves ltac:(by eapply evolves_recv).
  - moves ltac:(by apply evolves_same).
  - moves ltac:(apply evolves_unregister; [done|inRegs|inRegs]).
  - apply (Inv_tags c i (Some (Unregistered tag o)) (Done (Some o))); auto.
    + unfold Tags.release. by destruct (_ <? _)%nat.
    + pose proof (release_room c i tag o Hc ltac:(done)). unfold Tags.release. rewrite (inv_cap c Hc).
      rewrite (proj2 (Nat.ltb_lt _ _)) by done. cbn. by rewrite app_nil_r.
  - moves ltac:(apply evolves_unregister; [done|inRegs|inRegs]).
  - moves ltac:(eapply evolves_register; [done|done|done|]).
    intros x b Hx. by eapply inv_heap.
  - moves ltac:(by apply evolves_same).
  - moves ltac:(by apply evolves_same).
  - moves ltac:(by eapply evolves_recv).
  - moves ltac:(by eapply evolves_recv).
  - moves ltac:(by apply evolves_same).
  - moves ltac:(apply evolves_unregister; [done|inRegs|inRegs]).
  - by apply Inv_deliver.
  - by apply Inv_wire.
  - by apply Inv_wire.
  - by apply Inv_cancelAll.
  - by apply Inv_wire.
  - by apply Inv_wire.
Qed.

Lemma reachable_caller_Inv flush c : reachable flush N c -> Inv c.
Proof.
  induction 1 as [|c c' _ IH Hs]; [|by eapply caller_Inv_step]. split; cbn; try done.
  unfold owned. rewrite map_to_list_empty. cbn. by rewrite app_nil_r.
Qed.
End Ownership.

(** *** Responses, when nobody flushes *)

(** The requests the server or the read loop still has, with their tags. *)
Definition pend (c : Conn) : list (Tag * nat) :=
  omap (fun x => match x.2 with Req i => Some (x.1, i) | Flush _ => None end) (sent c) ++
  omap (fun x => match x.2 with Response i => Some (x.1, i) | Rflush => None end) (inbox c).

Definition awaits (t : Tag) (p : Phase) : Prop := p = Cancelled t \/ exists a, p = Waiting t a.
Definition answer (p : Phase) : option Reply :=
  match p with
  | Got _ _ (Answered r) | Unregistered _ (Answered r) | Done (Some (Answered r)) => Some r
  | _ => None
  end.
Definition flushing (p : Phase) : bool :=
  match p with FlushRegistered _ _ _ | FlushWaiting _ _ _ | FlushGot _ _ _ _ => true | _ => false end.

Record Own (c : Conn) : Prop := {
  o_pend t j : (t, j) ∈ pend c -> closed c = true \/ exists p, callers c !! j = Some p /\ awaits t p;
  o_wait t j i a : (t, j) ∈ pend c -> callers c !! i = Some (Waiting t a) -> i = j;
  o_nodup : NoDup (pend c).*2;
  o_buf i t a e r : callers c !! i = Some (Waiting t a) -> heap (inflight c) !! a = Some e -> ch e = Some r ->
    r = Response i /\ i ∉ (pend c).*2;
  o_reg i t a e : closed c = false -> callers c !! i = Some (Registered t a) -> heap (inflight c) !! a = Some e -> ch e = None;
  o_ent i p x a : closed c = false -> callers c !! i = Some p -> (x, a) ∈ regs p -> entries (inflight c) !! x = Some a;
  o_got i p r : callers c !! i = Some p -> answer p = Some r -> r = Response i;
  o_chan a e : heap (inflight c) !! a = Some e -> chClosed e = true -> closed c = true;
  o_sent x : x ∈ sent c -> exists i, x.2 = Req i;
  o_inbox x : x ∈ inbox c -> exists i, x.2 = Response i;
  o_phase i p : callers c !! i = Some p -> flushing p = false
}.

(** Entries keep their message or lose it; new ones are empty. *)
Definition drains (im im' : inflightMap Reply) : Prop := forall a e',
  heap im' !! a = Some e' ->
  (ch e' = None /\ chClosed e' = false) \/
  exists e, heap im !! a = Some e /\ (ch e' = ch e \/ ch e' = None) /\ chClosed e' = chClosed e.

Lemma drains_same im : drains im im.
Proof. intros a e Ha. right. eauto. Qed.

Lemma drains_unregister t im : drains im (unregister t im).
Proof. intros a e Ha. right. eauto. Qed.

Lemma drains_register t d im a im' : registerEntry t d im = (a, im') -> drains im im'.
Proof.
  intros [= _ <-] b e'. cbn. rewrite lookup_insert. case_decide; [intros [= <-]; by left|]. right. eauto.
Qed.

Lemma drains_recv a im r im' : recv a im = Some (r, im') -> drains im im'.
Proof.
  unfold recv. destruct (heap im !! a) as [e|] eqn:Ea; [|done].
  destruct (ch e) as [m|]; [|destruct (chClosed e); [|done]; intros [= _ <-]; apply drains_same].
  intros [= _ <-] b e' Hb. cbn in Hb. destruct (decide (a = b)) as [<-|Hne].
  - rewrite lookup_alter_eq, Ea in Hb. injection Hb as <-. right. eauto.
  - rewrite lookup_alter_ne in Hb by done. right. eauto.
Qed.

Lemma Own_phase c i (p : option Phase) p' tg im' cl :
  Own c -> callers c !! i = p -> drains (inflight c) im' ->
  (forall t, (t, i) ∈ pend c -> closed c = true \/ awaits t p') ->
  (forall t a, p' = Waiting t a -> p = Some p') ->
  (forall t a e, p' = Registered t a -> heap im' !! a = Some e -> ch e = None) ->
  (forall j q x a, closed c = false -> <[i := p']> (callers c) !! j = Some q -> (x, a) ∈ regs q -> entries im' !! x = Some a) ->
  (forall r, answer p' = Some r -> r = Response i) -> flushing p' = false ->
  Own (mkConn tg im' cl (closed c) (<[i := p']> (callers c)) (sent c) (inbox c)).
Proof.
  intros [Hpend Hwait Hnd Hbuf Hreg Hent Hgot Hchan Hsent Hinbox Hphase] Hi Hd HA HB HC HE HF HG.
  assert (Hw : forall j t a, <[i := p']> (callers c) !! j = Some (Waiting t a) -> callers c !! j = Some (Waiting t a)).
  { intros j t a [[<- Hp]|[_ ?]]%lookup_insert_Some; [|done]. specialize (HB t a Hp). congruence. }
  split; cbn; try done.
  - intros t j Hj. destruct (decide (i = j)) as [<-|Hne].
    + rewrite lookup_insert_eq. destruct (HA t Hj); [by left|right; eauto].
    + rewrite lookup_insert_ne by done. by apply Hpend.
  - intros t j k a Hj Hk%Hw. by eapply Hwait.
  - intros k t a e' r Hk%Hw He' Hr. destruct (Hd a e' He') as [[? _]|(e & He & [Hch|Hch] & _)]; [congruence| |congruence].
    rewrite Hch in Hr. by eapply Hbuf.
  - intros k t a e' Hcl [[<- Hp]|[_ Hk]]%lookup_insert_Some He'; [by eapply HC|].
    destruct (Hd a e' He') as [[? _]|(e & He & [Hch|Hch] & _)]; [done| |done]. rewrite Hch. by eapply Hreg.
  - intros k q r [[<- <-]|[_ Hk]]%lookup_insert_Some Hr; [by apply HF|by eapply Hgot].
  - intros a e' He' Hcl. destruct (Hd a e' He') as [[_ ?]|(e & He & _ & Hch)]; [congruence|]. rewrite Hch in Hcl. by eapply Hchan.
  - intros k q [[<- <-]|[_ Hk]]%lookup_insert_Some; [done|by eapply Hphase].
Qed.

(** Callers that await nothing have no request on the way. *)
Lemma not_pending c i p t :
  Own c -> callers c !! i = p -> from_option (fun p => ~ awaits t p) True p -> (t, i) ∈ pend c -> closed c = true.
Proof.
  intros Hc Hi Hn Hp. destruct (o_pend c Hc t i Hp) as [|(q & Hq & Ha)]; [done|]. assert (p = Some q) as -> by congruence. by destruct Hn.
Qed.

Section Delivery.
Context (N : nat) (HN : 1 <= Z.of_nat N <= maxMaxInflight).

(** Where the entries are after a step of caller [i]. *)
Lemma ent_same c i p p' :
  Own c -> callers c !! i = p -> (forall x a, (x, a) ∈ regs p' -> (x, a) ∈ from_option regs [] p) ->
  forall j q x a, closed c = false -> <[i := p']> (callers c) !! j = Some q -> (x, a) ∈ regs q ->
  entries (inflight c) !! x = Some a.
Proof.
  intros Hc Hi Hsub j q x a Hcl [[<- <-]|[_ Hj]]%lookup_insert_Some Hq; [|by eapply o_ent].
  apply Hsub in Hq. destruct p as [p|]; [|by apply elem_of_nil in Hq]. by eapply o_ent.
Qed.

Lemma ent_unregister c i p p' t :
  Inv N c -> Own c -> callers c !! i = Some p -> ownTag p = Some t -> regs p' = [] ->
  forall j q x a, closed c = false -> <[i := p']> (callers c) !! j = Some q -> (x, a) ∈ regs q ->
  entries (unregister t (inflight c)) !! x = Some a.
Proof.
  intros HI Hc Hi Ho Hr j q x a Hcl [[<- <-]|[Hne Hj]]%lookup_insert_Some Hq; [rewrite Hr in Hq; by apply elem_of_nil in Hq|].
  cbn. rewrite lookup_delete_ne; [by eapply o_ent|]. intros ->.
  by apply Hne, (key_owner N HN c i j p q x x a HI Hi Hj Ho (or_introl eq_refl) Hq).
Qed.

Lemma ent_register c i t d a im :
  Inv N c -> Own c -> callers c !! i = Some (Acquired t) -> registerEntry t d (inflight c) = (a, im) ->
  forall j q x b, closed c = false -> <[i := Registered t a]> (callers c) !! j = Some q -> (x, b) ∈ regs q ->
  entries im !! x = Some b.
Proof.
  intros HI Hc Hi [= Ha <-] j q x b Hcl [[<- <-]|[Hne Hj]]%lookup_insert_Some Hq; cbn.
  - apply list_elem_of_singleton in Hq. injection Hq as -> ->. rewrite Ha. apply lookup_insert_eq.
  - rewrite lookup_insert_ne; [by eapply o_ent|]. intros ->.
    by apply Hne, (key_owner N HN c i j _ q x x b HI Hi Hj eq_refl (or_introl eq_refl) Hq).
Qed.

Lemma pend_write c t i : pend (setWire (sent c ++ [(t, Req i)]) (inbox c) c) ≡ₚ (t, i) :: pend c.
Proof. unfold pend. cbn. rewrite omap_app. cbn. rewrite <- app_assoc. cbn. by rewrite Permutation_middle. Qed.

(** The write is the one step that makes a caller wait. *)
Lemma Own_write c i t a :
  Inv N c -> Own c -> callers c !! i = Some (Registered t a) -> closed c = false ->
  Own (setPhase i (Waiting t a) (setWire (sent c ++ [(t, Req i)]) (inbox c) c)).
Proof.
  intros HI Hc Hi Hcl. pose proof Hc as [Hpend Hwait Hnd Hbuf Hreg Hent Hgot Hchan Hsent Hinbox Hphase].
  pose proof (pend_write c t i) as Hp. set (c1 := setWire _ _ c) in *.
  assert (Hin : forall x, x ∈ pend c1 <-> x = (t, i) \/ x ∈ pend c) by (intros x; by rewrite Hp, elem_of_cons).
  assert (Hi0 : i ∉ (pend c).*2).
  { intros ([t' i'] & -> & Hx)%list_elem_of_fmap. cbn in *.
    assert (closed c = true); [|congruence]. apply (not_pending c i' _ t' Hc Hi); [|done]. by intros [|[? ?]]. }
  assert (Hold : forall x j, (x, j) ∈ pend c -> exists p, callers c !! j = Some p /\ awaits x p /\ ownTag p = Some x).
  { intros x j Hx. destruct (Hpend x j Hx) as [|(p & Hj & Ha)]; [congruence|]. exists p. split; [done|]. split; [done|].
    by destruct Ha as [->|[b ->]]. }
  change (setPhase i (Waiting t a) c1) with (mkConn (tags c) (inflight c) (closing c) (closed c) (<[i := Waiting t a]> (callers c)) (sent c1) (inbox c1)).
  assert (Hpe : forall tg im cl cd cs, pend (mkConn tg im cl cd cs (sent c1) (inbox c1)) = pend c1) by done.
  split; cbn [callers inflight closed sent inbox]; rewrite ?Hpe; try done.
  - intros x j [[= -> ->]|Hx]%Hin; right.
    + rewrite lookup_insert_eq. eexists. split; [done|]. right. eauto.
    + destruct (Hold x j Hx) as (p & Hj & Ha & _). exists p. split; [|done]. rewrite lookup_insert_ne; [done|].
      intros ->. rewrite Hi in Hj. injection Hj as <-. by destruct Ha as [|[? ?]].
  - intros x j k b [[= -> ->]|Hx]%Hin [[<- Hk]|[Hne Hk]]%lookup_insert_Some; [done| | |by eapply Hwait].
    + by eapply owned_exclusive; [by eapply Inv_owned_NoDup| | | |].
    + injection Hk as <- <-. destruct (Hold t j Hx) as (p & Hj & _ & Ho).
      by eapply owned_exclusive; [by eapply Inv_owned_NoDup|exact Hi|exact Hj|done|done].
  - rewrite Hp. cbn. by apply NoDup_cons.
  - intros k x b e r [[<- Hk]|[Hne Hk]]%lookup_insert_Some He Hr.
    + injection Hk as <- <-. specialize (Hreg i t a e Hcl Hi He). congruence.
    + destruct (Hbuf k x b e r Hk He Hr) as [-> Hn]. split; [done|]. rewrite Hp. cbn. rewrite elem_of_cons. naive_solver.
  - intros k x b e Hcl' [[<- Hk]|[Hne Hk]]%lookup_insert_Some; [done|by eapply Hreg].
  - intros k q x b Hcl'. by apply (ent_same c i (Some (Registered t a)) (Waiting t a) Hc Hi).
  - intros k q r [[<- <-]|[Hne Hk]]%lookup_insert_Some; [done|by eapply Hgot].
  - intros x [Hx|Hx]%elem_of_app; [by apply Hsent|]. apply list_elem_of_singleton in Hx as ->. by exists i.
  - intros k q [[<- <-]|[Hne Hk]]%lookup_insert_Some; [done|by eapply Hphase].
Qed.

(** The read loop takes the response to [j] from the wire. *)
Lemma Own_deliver c t j rest :
  Inv N c -> Own c -> inbox c = (t, Response j) :: rest ->
  Own (setInflight (deliver t (Response j) (inflight c)) (setWire (sent c) rest c)).
Proof.
  intros HI Hc Hin. pose proof Hc as [Hpend Hwait Hnd Hbuf Hreg Hent Hgot Hchan Hsent Hinbox Hphase].
  set (c' := setInflight _ _).
  assert (Hp : pend c ≡ₚ (t, j) :: pend c') by (unfold pend; rewrite Hin; cbn; by rewrite Permutation_middle).
  assert (Hsub : forall x, x ∈ pend c' -> x ∈ pend c) by (intros x; rewrite Hp, elem_of_cons; by right).
  assert (Htj : (t, j) ∈ pend c) by (rewrite Hp; apply list_elem_of_here).
  rewrite Hp in Hnd. cbn in Hnd. apply NoDup_cons in Hnd as [Hj Hnd].
  (* the entry that changes is the one registered under [t] *)
  assert (Hheap : forall a e', heap (inflight c') !! a = Some e' -> exists e, heap (inflight c) !! a = Some e /\
    chClosed e' = chClosed e /\ (ch e' = ch e \/ (ch e = None /\ ch e' = Some (Response j) /\
      exists i p, callers c !! i = Some p /\ (t, a) ∈ regs p))).
  { intros a e'. unfold c', deliver. cbn. destruct (entries (inflight c) !! t) as [b|] eqn:Eb; [|eauto]. cbn.
    destruct (decide (b = a)) as [<-|Hne]; [|rewrite lookup_alter_ne by done; eauto].
    rewrite lookup_alter_eq. intros (e & He & ->)%fmap_Some. exists e. split; [done|]. unfold send.
    destruct (ch e) eqn:Ech; cbn; (split; [done|]); [by left|right]. split; [done|]. split; [done|]. by apply (inv_entries N c HI). }
  split; cbn [callers closed sent inbox c' setInflight setWire]; try done.
  - intros x k Hx%Hsub. by apply Hpend.
  - intros x k i a Hx%Hsub. by apply Hwait.
  - intros i x a e' r Hi He' Hr. destruct (Hheap a e' He') as (e & He & _ & [Hch|(_ & Hch & k & p & Hk & Hpk)]).
    + rewrite Hch in Hr. destruct (Hbuf i x a e r Hi He Hr) as [-> Hn]. split; [done|]. intros Hi'. apply Hn.
      rewrite Hp. cbn. rewrite elem_of_cons. by right.
    + destruct (inv_addr N c HI i k _ p x t a Hi Hk (list_elem_of_here _ _) Hpk) as [<- <-].
      rewrite Hch in Hr. injection Hr as <-. pose proof (Hwait x j i a Htj Hi) as ->. done.
  - intros i x a e' Hcl Hi He'. destruct (Hheap a e' He') as (e & He & _ & [Hch|(_ & Hch & k & p & Hk & Hpk)]).
    + rewrite Hch. by eapply Hreg.
    + exfalso. destruct (inv_addr N c HI i k _ p x t a Hi Hk (list_elem_of_here _ _) Hpk) as [<- <-].
      destruct (Hpend x j Htj) as [|(q & Hq & Ha)]; [congruence|].
      assert (ownTag q = Some x) as Ho by (by destruct Ha as [->|[? ->]]).
      pose proof (owned_exclusive i j _ q x _ (Inv_owned_NoDup N c HI) Hi Hq eq_refl Ho) as <-.
      rewrite Hi in Hq. injection Hq as <-. by destruct Ha as [|[? ?]].
  - intros i p x a Hcl Hi Hpa. specialize (Hent i p x a Hcl Hi Hpa). unfold c', deliver. cbn. by destruct (entries (inflight c) !! t).
  - intros a e' He' Hcl. destruct (Hheap a e' He') as (e & He & Hch & _). rewrite Hch in Hcl. by eapply Hchan.
  - intros x Hx. apply Hinbox. rewrite Hin. by apply list_elem_of_further.
Qed.

Lemma Own_answers c t i s1 s2 :
  Own c -> sent c = s1 ++ (t, Req i) :: s2 -> Own (setWire (s1 ++ s2) (inbox c ++ [(t, Response i)]) c).
Proof.
  intros [Hpend Hwait Hnd Hbuf Hreg Hent Hgot Hchan Hsent Hinbox Hphase] Hs. set (c' := setWire _ _ c).
  assert (Hp : pend c' ≡ₚ pend c).
  { unfold pend. cbn. rewrite Hs, !omap_app. cbn. rewrite app_assoc, <- Permutation_cons_append. by rewrite <- Permutation_middle. }
  split; try done.
  - intros x j. rewrite Hp. by apply Hpend.
  - intros x j k a. rewrite Hp. by apply Hwait.
  - by rewrite Hp.
  - intros k x a e r. rewrite Hp. by apply Hbuf.
  - intros x. cbn. intros Hx. apply Hsent. rewrite Hs. revert Hx. rewrite !elem_of_app, elem_of_cons. naive_solver.
  - intros x. cbn. intros [Hx|Hx]%elem_of_app; [by apply Hinbox|]. apply list_elem_of_singleton in Hx as ->. by exists i.
Qed.

Lemma Own_closing c cl : Own c -> Own (mkConn (tags c) (inflight c) cl (closed c) (callers c) (sent c) (inbox c)).
Proof. by intros []. Qed.

Lemma Own_close c cl : Own c -> Own (mkConn (tags c) (inflight c) cl true (callers c) (sent c) (inbox c)).
Proof.
  intros [Hpend Hwait Hnd Hbuf Hreg Hent Hgot Hchan Hsent Hinbox Hphase]. split; cbn; try done. by left.
Qed.

Lemma Own_cancelAll c : Own c -> closed c = true -> Own (setInflight (cancelAll (inflight c)) c).
Proof.
  intros [Hpend Hwait Hnd Hbuf Hreg Hent Hgot Hchan Hsent Hinbox Hphase] Hcl. split; cbn; try done; try congruence.
  intros i t a e r Hi (e0 & He0 & Hch)%cancelAll_ch Hr. rewrite Hch in Hr. by eapply Hbuf.
Qed.

Lemma recv_entries a (im : inflightMap Reply) r im' : recv a im = Some (r, im') -> entries im' = entries im.
Proof.
  unfold recv. destruct (heap im !! a) as [e|]; [|done].
  destruct (ch e); [by intros [= _ <-]|]. destruct (chClosed e); [by intros [= _ <-]|done].
Qed.

Lemma recv_spec a (im : inflightMap Reply) r im' :
  recv a im = Some (r, im') -> exists e, heap im !! a = Some e /\ ch e = r /\ (r = None -> chClosed e = true).
Proof.
  unfold recv. destruct (heap im !! a) as [e|]; [|done]. intros Hr. exists e. split; [done|].
  destruct (ch e) as [m|]; [by injection Hr as <- _|]. destruct (chClosed e); [by injection Hr as <- _|done].
Qed.

Lemma Own_receive c i t a r im :
  Inv N c -> Own c -> callers c !! i = Some (Waiting t a) -> recv a (inflight c) = Some (r, im) ->
  Own (setPhase i (Got t a (match r with Some r => Answered r | None => Closed end)) (setInflight im c)).
Proof.
  intros HI Hc Hi Hr. destruct (recv_spec a _ r im Hr) as (e & He & Hch & Hcl).
  apply (Own_phase c i (Some (Waiting t a)) _ (tags c) im (closing c)); [done|done|by eapply drains_recv| |by destruct r|by destruct r| | |done].
  - intros x Hx. left. destruct r as [r|]; [|by eapply (o_chan c Hc a e He), Hcl].
    destruct (o_buf c Hc i t a e r Hi He Hch) as [_ Hn]. destruct Hn. apply list_elem_of_fmap. by exists (x, i).
  - rewrite (recv_entries _ _ _ _ Hr). by apply (ent_same c i (Some (Waiting t a))).
  - intros x Hx. destruct r as [r|]; [|done]. injection Hx as <-. by eapply (o_buf c Hc i t a e r).
Qed.

(** A caller that neither awaited nor awaits a response, with the entries kept. *)
Ltac quiet p :=
  cbn [tags inflight closing closed callers sent inbox];
  match goal with |- Own (mkConn ?tg ?im ?cl _ (<[?i := ?p']> _) _ _) =>
    apply (Own_phase _ i p p' tg im cl);
      [done|done|first [apply drains_same|apply drains_unregister]|intros ? ?; left; eapply not_pending; [done|done| |done]; first [exact I|by intros [|[? ?]]]
      |done|done| | |done]
  end.

Lemma Own_step c c' : Inv N c -> Own c -> step false c c' -> Own c'.
Proof.
  intros HI Hc Hs. pose proof (o_phase c Hc) as Hph.
  destruct Hs as [i c Hi Hcl|i tag t c Hi Ht|i c Hi|i tag d a im c Hi Hreg|i tag a c Hi Hcl|i tag a c Hi|i tag a r im c Hi Hr
    |i tag a c Hi Hcl|i tag a o c Hi|i tag o c Hi|i tag a c Hi|i tag a fa im c Hf|i tag a fa c Hi Hcl|i tag a fa c Hi
    |i tag a fa r im c Hi Hr|i tag a fa r im c Hi Hr|i tag a fa o c Hi Hcl Ho|i tag a fa o c Hi|tag r rest c Hin|c|c Hcl|c Hcl
    |tag i s1 s2 c Hs|ftag tag s1 s2 c Hs]; try (by specialize (Hph _ _ Hi)).
  - unfold setPhase. quiet (@None Phase); [|done]. by apply (ent_same c i None).
  - unfold setPhase, setTags. quiet (Some Entered); [|done]. by apply (ent_same c i (Some Entered)).
  - unfold setPhase. quiet (Some Entered); [|done]. by apply (ent_same c i (Some Entered)).
  - unfold setPhase, setInflight. cbn.
    apply (Own_phase c i (Some (Acquired tag)) _ (tags c) im (closing c)); [done|done|by eapply drains_register| |done| | |done|done].
    + intros x Hx. left. eapply not_pending; [done|done| |done]. by intros [|[? ?]].
    + intros x b e [= <- <-] He. injection Hreg as <- <-. cbn in He. rewrite lookup_insert_eq in He. by injection He as <-.
    + by apply (ent_register c i tag d a).
  - by apply Own_write.
  - unfold setPhase, setInflight. cbn. quiet (Some (Registered tag a)); [|done]. by apply (ent_unregister c i (Registered tag a)).
  - by eapply Own_receive.
  - unfold setPhase. apply (Own_phase c i (Some (Waiting tag a)) _ (tags c) (inflight c) (closing c)); try done.
    + apply drains_same.
    + by left.
    + by apply (ent_same c i (Some (Waiting tag a))).
  - unfold setPhase, setInflight. cbn. quiet (Some (Got tag a o)); [by apply (ent_unregister c i (Got tag a o))|].
    intros r. apply (o_got c Hc i _ r Hi).
  - unfold setPhase, setTags. quiet (Some (Unregistered tag o)); [by apply (ent_same c i (Some (Unregistered tag o)))|].
    intros r. apply (o_got c Hc i _ r Hi).
  - unfold setPhase, setInflight. cbn.
    apply (Own_phase c i (Some (Waiting tag a)) _ (tags c) (unregister tag (inflight c)) (closing c)); try done.
    + apply drains_unregister.
    + intros t Ht. destruct (o_pend c Hc t i Ht) as [|(p & Hp & Ha)]; [by left|right]. rewrite Hi in Hp. injection Hp as <-.
      destruct Ha as [|[b Hb]]; [done|]. injection Hb as <- _. by left.
    + by apply (ent_unregister c i (Waiting tag a)).
  - done.
  - destruct (o_inbox c Hc (tag, r)) as [j Hj]; [rewrite Hin; apply list_elem_of_here|]. cbn in Hj. subst r. by apply Own_deliver.
  - by apply Own_closing.
  - by apply Own_close.
  - by apply Own_cancelAll.
  - by apply Own_answers.
  - destruct (o_sent c Hc (ftag, Flush tag)) as [j Hj]; [rewrite Hs, elem_of_app, elem_of_cons; auto|done].
Qed.

Lemma reachable_Own c : reachable false N c -> Own c.
Proof.
  induction 1 as [|c c' Hr IH Hs]; [|by eapply Own_step; [by eapply reachable_caller_Inv| |]].
  split; cbn; try done; try (intros *; rewrite lookup_empty; done); [|constructor| |]; intros *; by rewrite elem_of_nil.
Qed.
End Delivery.
(** A tag belongs to one request.  With at most [maxMaxInflight] tags, in
    every state that callers, cancellations, read loop, shutdown and server
    can reach together: the free tags and the callers' tags are the tags
    [1..N], none lost and none twice, so a release never finds the free list
    full; two callers never own the same tag; nothing is registered under the
    tag a caller is about to register, nor under the mirror tag of a request
    that is about to be flushed, which is not [NoTag]; and no message is sent
    on a closed channel. *)
Theorem tag_exclusive flush N c :
  1 <= Z.of_nat N <= maxMaxInflight -> reachable flush N c ->
  Tags.free (tags c) ++ owned (callers c) ≡ₚ (Z.of_nat <$> seq 1 N) /\
  (forall i j p q t, callers c !! i = Some p -> callers c !! j = Some q -> ownTag p = Some t -> ownTag q = Some t -> i = j) /\
  (forall i t, callers c !! i = Some (Acquired t) -> entries (inflight c) !! t = None) /\
  (forall i t a, callers c !! i = Some (Waiting t a) ->
     entries (inflight c) !! flushTagFor t = None /\ flushTagFor t < NoTag) /\
  (forall i t o, callers c !! i = Some (Unregistered t o) -> (length (Tags.free (tags c)) < Tags.cap (tags c))%nat) /\
  (forall x a e, entries (inflight c) !! x = Some a -> heap (inflight c) !! a = Some e -> chClosed e = false).
Proof.
  intros HN Hc%(reachable_caller_Inv N HN). pose proof Hc as [Hcap Hperm Hent Hheap Haddr Hopen].
  assert (Hfree : forall i p t x, callers c !! i = Some p -> ownTag p = Some t -> x = t \/ x = flushTagFor t ->
    (forall a, (x, a) ∉ regs p) -> entries (inflight c) !! x = None).
  { intros i p t x Hi Hp Hx Hn. destruct (entries (inflight c) !! x) as [a|] eqn:Ex; [|done].
    destruct (Hent x a Ex) as (j & q & Hj & Hq). pose proof (key_owner N HN c i j p q t x a Hc Hi Hj Hp Hx Hq) as <-.
    assert (p = q) as <- by congruence. by destruct (Hn a). }
  split; [done|]. split; [intros *; apply owned_exclusive; by eapply Inv_owned_NoDup|]. split_and!; [| | |done].
  - intros i t Hi. apply (Hfree i (Acquired t) t); auto. intros a. apply not_elem_of_nil.
  - intros i t a Hi. pose proof (Inv_range N HN c i _ t Hc Hi eq_refl) as Ht. unfold maxMaxInflight in Ht.
    rewrite flushTagFor_add by (unfold flushTagBit; lia). split; [|unfold flushTagBit, NoTag; lia].
    apply (Hfree i (Waiting t a) t); auto; [right; symmetry; apply flushTagFor_add; unfold flushTagBit; lia|].
    intros b. cbn. intros Hb%list_elem_of_singleton. injection Hb as Hb _. unfold flushTagBit in Hb. lia.
  - intros i t o Hi. rewrite Hcap. by eapply release_room.
Qed.

(** The next step of a concrete execution. *)
Ltac goes Hr s := eapply reach_step in Hr; [|eapply s; vm_compute; reflexivity]; vm_compute in Hr.

(** Two callers, one cancelled and flushing. *)
Lemma tag_exclusive_witness :
  exists c, reachable true 2 c /\ callers c !! 0%nat = Some (FlushRegistered 1 0 1) /\
    (forall i p, callers c !! i = Some p -> ownTag p = Some 1 -> i = 0%nat).
Proof.
  assert (exists c, reachable true 2 c /\ callers c !! 0%nat = Some (FlushRegistered 1 0 1)) as (c & Hc & Hi).
  { pose proof (reach_start true 2) as Hr.
    goes Hr (step_admit true 0). goes Hr (step_acquire true 0 1 (Tags.mk 2 [2])).
    goes Hr (step_register true 0 1 None 0). goes Hr (step_write true 0 1 0). goes Hr (step_cancel true 0 1 0 1).
    eexists. split; [exact Hr|by vm_compute]. }
  exists c. split; [done|]. split; [done|]. intros i p Hp Ho.
  assert (HN : 1 <= Z.of_nat 2 <= maxMaxInflight) by (unfold maxMaxInflight; lia).
  destruct (tag_exclusive true 2 c HN Hc) as (_ & Hex & _).
  by apply (Hex i 0%nat p (FlushRegistered 1 0 1) 1).
Defined.

(** C19: a response can reach the wrong request.  When the response to a
    cancelled request arrives before its Rflush, the tag is reused with the
    Rflush still to come.  Caller 0 leaves that way; caller 1 reuses the tag,
    is cancelled, and takes the Rflush meant for caller 0 as the answer to its
    own Tflush, so the tag is reused again while the server is still working on
    caller 1's request; caller 2 gets caller 1's response.  The server answers
    every request once and every Tflush in order. *)
Theorem flush_reuses_early :
  exists c, reachable true 1 c /\ callers c !! 0%nat = Some (Done (Some FlushedLate)) /\
    callers c !! 1%nat = Some (Done (Some Flushed)) /\ callers c !! 2%nat = Some (Got 1 4 (Answered (Response 1))).
Proof.
  pose proof (reach_start true 1) as Hr. set (F := flushTagFor 1).
  (* caller 0 *)
  goes Hr (step_admit true 0). goes Hr (step_acquire true 0 1 (Tags.mk 1 [])). goes Hr (step_register true 0 1 None 0).
  goes Hr (step_write true 0 1 0). goes Hr (step_cancel true 0 1 0 1). goes Hr (step_writeFlush true 0 1 0 1).
  goes Hr (step_serverAnswers true 1 0 [] [(F, Flush 1)]). goes Hr (step_deliver true 1 (Response 0) []).
  goes Hr (step_responseFirst true 0 1 0 1 (Some (Response 0))). goes Hr (step_flushUnregister true 0 1 0 1 FlushedLate).
  goes Hr (step_unregister true 0 1 0 FlushedLate). goes Hr (step_release true 0 1 FlushedLate).
  (* caller 1 *)
  goes Hr (step_admit true 1). goes Hr (step_acquire true 1 1 (Tags.mk 1 [])). goes Hr (step_register true 1 1 None 2).
  goes Hr (step_write true 1 1 2). goes Hr (step_cancel true 1 1 2 3). goes Hr (step_writeFlush true 1 1 2 3).
  goes Hr (step_serverFlushes true F 1 [] [(1, Req 1); (F, Flush 1)]). goes Hr (step_deliver true F Rflush []).
  goes Hr (step_rflushFirst true 1 1 2 3 (Some Rflush)). goes Hr (step_flushUnregister true 1 1 2 3 Flushed).
  goes Hr (step_unregister true 1 1 2 Flushed). goes Hr (step_release true 1 1 Flushed).
  (* caller 2 *)
  goes Hr (step_admit true 2). goes Hr (step_acquire true 2 1 (Tags.mk 1 [])). goes Hr (step_register true 2 1 None 4).
  goes Hr (step_write true 2 1 4). goes Hr (step_serverAnswers true 1 1 [] [(F, Flush 1); (1, Req 2)]).
  goes Hr (step_deliver true 1 (Response 1) []). goes Hr (step_receive true 2 1 4 (Some (Response 1))).
  eexists. split; [exact Hr|]. split_and!; by vm_compute.
Qed.

(** C18: without Tflush, every caller gets the response to its own request.  In
    every state reachable when no caller sends a Tflush (cancelled callers just
    leave, keeping their tag), with any interleaving of callers, read loop,
    shutdown and a server that answers in any order: what a caller received
    answers its own request; a response on the wire bears the tag of no other
    waiting caller; and as long as the connection is open the read loop puts
    the response it takes from the wire into the channel of the caller that
    waits for it. *)
Theorem responses_delivered N c :
  1 <= Z.of_nat N <= maxMaxInflight -> reachable false N c ->
  (forall i p r, callers c !! i = Some p -> answer p = Some r -> r = Response i) /\
  (forall i j t a, callers c !! i = Some (Waiting t a) -> (t, Response j) ∈ inbox c -> i = j) /\
  (closed c = false -> forall i t a rest, callers c !! i = Some (Waiting t a) -> inbox c = (t, Response i) :: rest ->
   exists e, heap (deliver t (Response i) (inflight c)) !! a = Some e /\ ch e = Some (Response i)).
Proof.
  intros HN Hr. pose proof (reachable_Own N HN c Hr) as Hc. pose proof (reachable_caller_Inv N HN false c Hr) as HI.
  assert (Hpend : forall t i, (t, Response i) ∈ inbox c -> (t, i) ∈ pend c).
  { intros t i Hin. apply elem_of_app. right. apply list_elem_of_omap. by exists (t, Response i). }
  split; [apply (o_got c Hc)|]. split.
  - intros i j t a Hi Hin. by eapply (o_wait c Hc), Hi; apply Hpend.
  - intros Hcl i t a rest Hi Hin. assert (Hti : (t, i) ∈ pend c) by (apply Hpend; rewrite Hin; apply list_elem_of_here).
    unfold deliver. rewrite (o_ent c Hc i _ t a Hcl Hi (list_elem_of_here _ _)). cbn. rewrite lookup_alter_eq.
    destruct (inv_heap N c HI i _ t a Hi (list_elem_of_here _ _)) as [e He]. rewrite He. eexists. split; [done|].
    unfold send. destruct (ch e) as [r|] eqn:Ech; [|done]. destruct (o_buf c Hc i t a e r Hi He Ech) as [_ Hn].
    destruct Hn. apply list_elem_of_fmap. by exists (t, i).
Qed.

(** Two callers; the server answers the second first. *)
Lemma responses_delivered_witness :
  exists c, reachable false 2 c /\ inbox c = [(2, Response 1); (1, Response 0)] /\
    exists e, heap (deliver 2 (Response 1) (inflight c)) !! 1%nat = Some e /\ ch e = Some (Response 1).
Proof.
  pose proof (reach_start false 2) as Hr.
  goes Hr (step_admit false 0). goes Hr (step_acquire false 0 1 (Tags.mk 2 [2])). goes Hr (step_register false 0 1 None 0).
  goes Hr (step_write false 0 1 0). goes Hr (step_admit false 1). goes Hr (step_acquire false 1 2 (Tags.mk 2 [])).
  goes Hr (step_register false 1 2 None 1). goes Hr (step_write false 1 2 1).
  goes Hr (step_serverAnswers false 2 1 [(1, Req 0)] []). goes Hr (step_serverAnswers false 1 0 [] []).
  eexists. split; [exact Hr|]. split; [done|].
  assert (HN : 1 <= Z.of_nat 2 <= maxMaxInflight) by (unfold maxMaxInflight; lia).
  destruct (responses_delivered 2 _ HN Hr) as (_ & _ & Hd). by apply (Hd eq_refl 1%nat 2 1%nat [(1, Response 0)]).
Defined.
End System.
