(* ===== verification/ClientOps.v ===== *)
(** * Client operations

    The operations of [client/ops.go], [client/raw_advanced.go],
    [client/session.go], [client/walknew.go], [client/file.go] and the
    [client/advanced_*.go] files: one round trip each at the bottom, and on
    top of it the calls that walk a path, take a fid, and give it back.

    The connection is a [Transport] ([ClientFile]).  [Conn] adds what the
    operations keep on the client's side: the fid allocator ([ClientConn.Fids]),
    the [File] objects, which are shared and closed in place and so live in a
    heap, and the pointer to the attach root.  The lifecycle lock of a [File]
    makes [Close] wait for the operations under way on it, so operations run
    one after another. *)

From S2P Require Import Prelude GoIO Types Errno Proto Messages P9l P9u Message Bridge Inode Namespace ClientFile ClientConn.

Definition ErrDialectInvariant : GoError := Sentinel "client: dialect invariant violated (programmer error)".
(** The panic of a method called on a pointer to no [File]. *)
Definition nilPointer : GoError := Sentinel "invalid memory address or nil pointer dereference".

Notation "'is' p => e" := (fun msg => match msg with p => Some e | _ => None end)
  (at level 10, p pattern at level 99, e at level 200, only parsing).

(** The response is the server's error: [errors.As] to [*Error]. *)
Fixpoint isServerError (e : GoError) : bool :=
  match e with
  | RemoteError _ _ => true
  | Wrapf _ _ e => isServerError e
  | _ => false
  end.

(** ** Paths *)

Definition splitPath (p : string) : list string :=
  let p := pathClean p in
  if decide (p = "." \/ p = "/") then []
  else
    let bs := bytes_of_string p in
    let bs := match bs with b :: bs' => if decide (b = byte_of_Z 47) then bs' else bs | [] => [] end in
    string_of_bytes <$> List.filter (fun e => negb (length e =? 0)%nat) (splitSlash bs []).

(** The parent's elements and the last one. *)
Definition parentAndName (full : list string) : list string * string := (removelast full, List.last full "").

Definition posixToNinepMode (flags : Z) : Z :=
  let acc := Z.land flags 3 in
  if acc =? 1 then 1 else if acc =? 2 then 2 else 0.

(** ** One round trip *)

Section Wire.
Context {S : Type} `{Transport S} (dialect : protocol).

Definition requireDialect {T} (want : protocol) (op : string) : M T unit :=
  if decide (dialect = want) then mret tt
  else throw (Wrapf ("%w: " +:+ op +:+ " requires %s, Conn negotiated %s") [] ErrNotSupported).

(** [rtrip[T]]: [want] is the type of the response, [project] its type assertion. *)
Definition rtrip {A} (want : MessageType) (project : Message -> option A) (req : Message) : M S A := fun s =>
  match roundTrip req s with
  | (Err e, s) => (Err e, s)
  | (Ok resp, s) =>
      match toError resp with
      | Some e => (Err e, s)
      | None =>
          match project resp with
          | Some r => (Ok r, s)
          | None => (Err (Errorf "client: expected %v, got %v" [want; Message_Type resp]), s)
          end
      end
  end.

Definition tattach (fid : Fid) (uname aname : string) (uid : Z) : M S QID.t :=
  rtrip TypeRattach (is MRattach r => Rattach.QID r) (MTattach (Tattach.mk fid NoFid uname aname uid)).

Definition twalk (fid newFid : Fid) (names : list string) : M S (list QID.t) :=
  rtrip TypeRwalk (is MRwalk r => Rwalk.QIDs r) (MTwalk (Twalk.mk fid newFid names)).

Definition tclunk (fid : Fid) : M S unit := rtrip TypeRclunk (is MRclunk _ => tt) (MTclunk (Tclunk.mk fid)).

Definition tflush (oldTag : Tag) : M S unit := rtrip TypeRflush (is MRflush _ => tt) (MTflush (Tflush.mk oldTag)).

Definition tread (fid : Fid) (offset count : Z) : M S bytes := fun s =>
  match rtrip TypeRread (is MRread r => Rread.Data r) (MTread (Tread.mk fid offset count)) s with
  | (Err e, s) => (Err e, s)
  | (Ok data, s) =>
      if count <? Z.of_nat (length data)
      then (Err (Errorf "client: Rread count %d exceeds requested count %d" [Z.of_nat (length data); count]), signalShutdown s)
      else (Ok data, s)
  end.

Definition tlopen (fid : Fid) (flags : Z) : M S (QID.t * Z) :=
  requireDialect protocolL "Lopen";;
  rtrip TypeRlopen (is MRlopen r => (Rlopen.QID r, Rlopen.IOUnit r)) (MTlopen (Tlopen.mk fid flags)).

Definition tlcreate (fid : Fid) (name : string) (flags : Z) (mode : FileMode) (gid : Z) : M S (QID.t * Z) :=
  requireDialect protocolL "Lcreate";;
  rtrip TypeRlcreate (is MRlcreate r => (Rlcreate.QID r, Rlcreate.IOUnit r)) (MTlcreate (Tlcreate.mk fid name flags mode gid)).

Definition topen (fid : Fid) (mode : Z) : M S (QID.t * Z) :=
  requireDialect protocolU "Open";;
  rtrip TypeRopen (is MRopen r => (Ropen.QID r, Ropen.IOUnit r)) (MTopen (Topen.mk fid mode)).

Definition tcreate (fid : Fid) (name : string) (perm : FileMode) (mode : Z) (extension : string) : M S (QID.t * Z) :=
  requireDialect protocolU "Create";;
  rtrip TypeRcreate (is MRcreate r => (Rcreate.QID r, Rcreate.IOUnit r)) (MTcreate (Tcreate.mk fid name perm mode extension)).

Definition Tsymlink (dfid : Fid) (name target : string) (gid : Z) : M S QID.t :=
  requireDialect protocolL "Tsymlink";;
  rtrip TypeRsymlink (is MRsymlink r => Rsymlink.QID r) (MTsymlink (Tsymlink.mk dfid name target gid)).

Definition Treadlink (fid : Fid) : M S string :=
  requireDialect protocolL "Treadlink";;
  rtrip TypeRreadlink (is MRreadlink r => Rreadlink.Target r) (MTreadlink (Treadlink.mk fid)).

Definition Txattrwalk (fid newFid : Fid) (name : string) : M S Z :=
  requireDialect protocolL "Txattrwalk";;
  rtrip TypeRxattrwalk (is MRxattrwalk r => Rxattrwalk.Size r) (MTxattrwalk (Txattrwalk.mk fid newFid name)).

Definition Txattrcreate (fid : Fid) (name : string) (attrSize flags : Z) : M S unit :=
  requireDialect protocolL "Txattrcreate";;
  rtrip TypeRxattrcreate (is MRxattrcreate _ => tt) (MTxattrcreate (Txattrcreate.mk fid name attrSize flags)).

Definition Tlock (fid : Fid) (lt : LockType) (flags : LockFlags) (start len procID : Z) (clientID : string) : M S LockStatus :=
  requireDialect protocolL "Tlock";;
  rtrip TypeRlock (is MRlock r => Rlock.Status r) (MTlock (Tlock.mk fid lt flags start len procID clientID)).

Definition Tgetlock (fid : Fid) (lt : LockType) (start len procID : Z) (clientID : string) : M S Rgetlock.t :=
  requireDialect protocolL "Tgetlock";;
  rtrip TypeRgetlock (is MRgetlock r => r) (MTgetlock (Tgetlock.mk fid lt start len procID clientID)).

Definition Tstatfs (fid : Fid) : M S FSStat.t :=
  requireDialect protocolL "Tstatfs";;
  rtrip TypeRstatfs (is MRstatfs r => Rstatfs.Stat r) (MTstatfs (Tstatfs.mk fid)).

Definition Tfsync (fid : Fid) (dataSync : bool) : M S unit :=
  requireDialect protocolL "Tfsync";;
  rtrip TypeRfsync (is MRfsync _ => tt) (MTfsync (Tfsync.mk fid (if dataSync then 1 else 0))).

Definition Tgetattr (fid : Fid) (mask : AttrMask) : M S Attr.t :=
  requireDialect protocolL "Tgetattr";;
  rtrip TypeRgetattr (is MRgetattr r => Rgetattr.Attr r) (MTgetattr (Tgetattr.mk fid mask)).

Definition Tsetattr (fid : Fid) (attr : SetAttr.t) : M S unit :=
  requireDialect protocolL "Tsetattr";;
  rtrip TypeRsetattr (is MRsetattr _ => tt) (MTsetattr (Tsetattr.mk fid attr)).

Definition Trename (fid dfid : Fid) (name : string) : M S unit :=
  requireDialect protocolL "Trename";;
  rtrip TypeRrename (is MRrename _ => tt) (MTrename (Trename.mk fid dfid name)).

Definition Trenameat (oldDirFid : Fid) (oldName : string) (newDirFid : Fid) (newName : string) : M S unit :=
  requireDialect protocolL "Trenameat";;
  rtrip TypeRrenameat (is MRrenameat _ => tt) (MTrenameat (Trenameat.mk oldDirFid oldName newDirFid newName)).

Definition Tunlinkat (dirFid : Fid) (name : string) (flags : Z) : M S unit :=
  requireDialect protocolL "Tunlinkat";;
  rtrip TypeRunlinkat (is MRunlinkat _ => tt) (MTunlinkat (Tunlinkat.mk dirFid name flags)).

Definition Tlink (dfid fid : Fid) (name : string) : M S unit :=
  requireDialect protocolL "Tlink";;
  rtrip TypeRlink (is MRlink _ => tt) (MTlink (Tlink.mk dfid fid name)).

Definition Tmknod (dfid : Fid) (name : string) (mode major minor gid : Z) : M S QID.t :=
  requireDialect protocolL "Tmknod";;
  rtrip TypeRmknod (is MRmknod r => Rmknod.QID r) (MTmknod (Tmknod.mk dfid name mode major minor gid)).

Definition Tmkdir (dfid : Fid) (name : string) (mode : FileMode) (gid : Z) : M S QID.t :=
  requireDialect protocolL "Tmkdir";;
  rtrip TypeRmkdir (is MRmkdir r => Rmkdir.QID r) (MTmkdir (Tmkdir.mk dfid name mode gid)).

Definition Tremove (fid : Fid) : M S unit := rtrip TypeRremove (is MRremove _ => tt) (MTremove (Tremove.mk fid)).

Definition Tstat (fid : Fid) : M S Stat.t :=
  requireDialect protocolU "Tstat";;
  rtrip TypeRstat (is MRstat r => Rstat.Stat r) (MTstat (Tstat.mk fid)).
End Wire.

(** ** The connection's state *)

Record Conn (S : Type) : Type := mkConn {
  wire : S;
  alloc : Fids.t;
  files : list File;
  rootFile : option nat
}.
Arguments mkConn {S}.
Arguments wire {S}.
Arguments alloc {S}.
Arguments files {S}.
Arguments rootFile {S}.

(** A [*File]: an index of [files]. *)
Abbreviation FileRef := nat (only parsing).

Definition setClosed (f : File) : File :=
  mkFile (fid f) (qid f) (iounit f) true (offset f) (cachedSize f) (readdirOffset f).
Definition setCachedSize (size : Z) (f : File) : File :=
  mkFile (fid f) (qid f) (iounit f) (closed f) (offset f) size (readdirOffset f).

Section Ops.
Context {S : Type} `{Transport S} (msize : Z) (dialect : protocol).
Abbreviation C := (Conn S).

Definition onWire {A} (m : M S A) : M C A := fun c =>
  let '(r, s) := m (wire c) in (r, mkConn s (alloc c) (files c) (rootFile c)).

Definition acquire : M C Fid := fun c =>
  let '(r, fa) := Fids.acquire (alloc c) in (r, mkConn (wire c) fa (files c) (rootFile c)).
Definition release (fid : Fid) : M C unit := fun c =>
  (Ok tt, mkConn (wire c) (Fids.release fid (alloc c)) (files c) (rootFile c)).

(** [newFile], allocated. *)
Definition allocFile (f : File) : M C FileRef := fun c =>
  (Ok (length (files c)), mkConn (wire c) (alloc c) (files c ++ [f]) (rootFile c)).
Definition setFile (p : FileRef) (g : File -> File) : M C unit := fun c =>
  (Ok tt, mkConn (wire c) (alloc c) (alter g p (files c)) (rootFile c)).
Definition setRoot (p : FileRef) : M C unit := fun c =>
  (Ok tt, mkConn (wire c) (alloc c) (files c) (Some p)).

(** [m], and on an error [h], whose own error is dropped. *)
Definition onError {A} (m : M C A) (h : M C unit) : M C A := fun c =>
  match m c with
  | (Ok a, c) => (Ok a, c)
  | (Err e, c) => (Err e, (h c).2)
  end.
(** [m], then [h], whose error is dropped. *)
Definition finally {A} (m : M C A) (h : M C unit) : M C A := fun c => let '(r, c) := m c in (r, (h c).2).

(** [beginOp], and the fields the operation reads. *)
Definition beginOp (p : FileRef) : M C File := fun c =>
  match files c !! p with
  | None => (Err nilPointer, c)
  | Some f => if closed f then (Err ErrClosed, c) else (Ok f, c)
  end.

(** [Root] and its [beginOp]. *)
Definition beginRoot (op : string) : M C File := fun c =>
  match rootFile c with
  | None => (Err (Errorf ("client: " +:+ op +:+ " requires a prior Attach") []), c)
  | Some p => beginOp p c
  end.

(** ** Fids *)

(** [cleanupFid]: the fid is reused when the server is known to have dropped
    it or the connection is down, and never again otherwise. *)
Definition cleanupFid (fid : Fid) : M C unit := fun c =>
  let '(r, s) := roundTripWithFlush (MTclunk (Tclunk.mk fid)) false (wire c) in
  let err :=
    match r with
    | Err e => Err e
    | Ok resp =>
        match toError resp with
        | Some e => Err e
        | None =>
            match resp with
            | MRclunk _ => Ok tt
            | _ => Err (Errorf "client: expected Rclunk, got %v" [Message_Type resp])
            end
        end
    end in
  let released := match err with Ok _ => true | Err e => isServerError e || errors_Is e ErrClosed end in
  (err, mkConn s (if released then Fids.release fid (alloc c) else alloc c) (files c) (rootFile c)).

(** The walk of [base] along [names] onto [fid], which is released unless the
    server bound it.  [complete] is the caller's test of the QIDs. *)
Definition walkOnto (base fid : Fid) (names : list string) (complete : list QID.t -> bool) (partial : list QID.t -> GoError)
    : M C (list QID.t) :=
  onError
    (onWire (qids ← twalk base fid names; if complete qids then mret qids else throw (partial qids)))
    (release fid).

Definition allSteps (names : list string) (qids : list QID.t) : bool :=
  (length names =? 0)%nat || (length qids =? length names)%nat.
Definition steps (names : list string) (qids : list QID.t) : list Z := [Z.of_nat (length qids); Z.of_nat (length names)].

Definition walkNew (base : Fid) (names : list string) (what : string) : M C Fid :=
  fid ← acquire;
  _ ← walkOnto base fid names (allSteps names)
        (fun qids => Errorf ("client: partial walk to " +:+ what +:+ " (%d of %d steps)") (steps names qids));
  mret fid.

(** ** Sessions *)

Definition Attach (uname aname : string) (uid : Z) : M C FileRef :=
  fid ← acquire;
  qid ← onError (onWire (tattach fid uname aname uid)) (release fid);
  f ← allocFile (newFile fid qid 0);
  setRoot f;;
  mret f.

(** [switch c.dialect] *)
Definition byDialect {T A} (onL onU : M T A) : M T A :=
  match dialect with
  | protocolL => onL
  | protocolU => onU
  | protocolNone => throw (Wrapf "%w: %v" [] ErrDialectInvariant)
  end.

Definition OpenFile (p : string) (flags : Z) : M C FileRef :=
  root ← beginRoot "OpenFile";
  let names := splitPath p in
  fileFid ← acquire;
  _ ← walkOnto (fid root) fileFid names (allSteps names)
        (fun qids => Errorf "client: partial walk (%d of %d steps)" (steps names qids));
  '(qid, iounit) ← onError
    (onWire (byDialect (tlopen dialect fileFid (uint_wrap 32 flags)) (topen dialect fileFid (posixToNinepMode flags))))
    (cleanupFid fileFid);
  allocFile (newFile fileFid qid iounit).

Definition Create (p : string) (flags mode : Z) : M C FileRef :=
  root ← beginRoot "Create";
  let full := splitPath p in
  match full with
  | [] => throw (Errorf "client: Create requires a non-root path" [])
  | _ =>
      let '(parents, name) := parentAndName full in
      dirFid ← walkNew (fid root) parents "parent";
      let perm := Z.land (uint_wrap 32 mode) 0xfff in
      '(qid, iounit) ← onError
        (onWire (byDialect (tlcreate dialect dirFid name (uint_wrap 32 flags) perm NoUID)
                           (tcreate dialect dirFid name perm (posixToNinepMode flags) "")))
        (cleanupFid dirFid);
      allocFile (newFile dirFid qid iounit)
  end.

Definition OpenDir (p : string) : M C FileRef := OpenFile p 0.

(** ** Files *)

Definition Close (p : FileRef) : M C unit := fun c =>
  match files c !! p with
  | None => (Err nilPointer, c)
  | Some f => if closed f then (Ok tt, c) else (setFile p setClosed;; cleanupFid (fid f)) c
  end.

Definition Walk (p : FileRef) (names : list string) : M C FileRef :=
  f ← beginOp p;
  match names with
  | [] => throw (Errorf "client: File.Walk requires at least one name (use File.Clone for 0-step walk)" [])
  | _ =>
      newFid ← acquire;
      qids ← walkOnto (fid f) newFid names (fun qids => (length qids =? length names)%nat)
               (fun qids => Errorf "client: partial walk (%d of %d steps)" (steps names qids));
      allocFile (newFile newFid (List.last qids QID.zero) 0)
  end.

(** What [Clone] returns a pointer to. *)
Definition cloneFile (p : FileRef) : M C File :=
  f ← beginOp p;
  newFid ← acquire;
  _ ← walkOnto (fid f) newFid [] (fun _ => true) (fun _ => nilPointer);
  mret (setCachedSize (cachedSize f) (newFile newFid (qid f) (iounit f))).

Definition Clone (p : FileRef) : M C FileRef := f ← cloneFile p; allocFile f.
End Ops.
