(* ===== verification/ClientAdvanced.v ===== *)
(** * Client operations on names, attributes, locks and extended attributes

    [client/advanced_*.go] and [client/refresh_size.go], on the operations of
    [ClientOps].  The lock loop polls until it gets an answer or its context
    ends; the extended-attribute calls move a value in chunks through a fid of
    their own. *)

From S2P Require Import Prelude GoIO Types Errno Proto Messages P9l P9u Message Bridge Inode Namespace ClientFile ClientConn ClientOps.

(** [time.Unix(sec, nsec)], as seconds and the nanoseconds below one. *)
Definition timeUnix (sec nsec : Z) : Z * Z := (int64 (sec + nsec / 10 ^ 9), nsec mod 10 ^ 9).

Module FileInfo.
Record t : Type := mk {
  QID : QID.t; Mode : FileMode; Size : Z; Atime : Z * Z; Mtime : Z * Z; UID : Z; GID : Z; Name : string
}.
End FileInfo.

Definition attrToFileInfo (a : Attr.t) : FileInfo.t :=
  FileInfo.mk (Attr.QID a) (Attr.Mode a) (Attr.Size a)
    (timeUnix (int64 (Attr.ATimeSec a)) (int64 (Attr.ATimeNSec a)))
    (timeUnix (int64 (Attr.MTimeSec a)) (int64 (Attr.MTimeNSec a)))
    (Attr.UID a) (Attr.GID a) "".

Definition statToFileInfo (st : Stat.t) : FileInfo.t :=
  FileInfo.mk (Stat.QID st) (Stat.Mode st) (Stat.Length st) (timeUnix (Stat.Atime st) 0) (timeUnix (Stat.Mtime st) 0)
    (Stat.NUid st) (Stat.NGid st) (Stat.Name st).

Definition atRemoveDir : Z := 0x200.

(** ** Lock schedules *)

Definition millisecond : Z := 10 ^ 6.
Definition defaultLockBackoff : list Z := (fun ms => ms * millisecond) <$> [10; 20; 40; 80; 160; 320; 500].

(** An empty schedule panics; [lockSchedule] returns none. *)
Definition backoffFor (schedule : list Z) (i : nat) : Z :=
  if (length schedule <=? i)%nat then List.last schedule 0 else nth i schedule 0.

Definition lockSchedule (lockPollSchedule : list Z) : list Z :=
  match lockPollSchedule with [] => defaultLockBackoff | _ => lockPollSchedule end.

Module Lock.
Record t : Type := mk { Type_ : LockType; Start : Z; Length : Z; ProcID : Z; ClientID : string }.
End Lock.

Section Advanced.
Context {S : Type} `{Transport S} (msize : Z) (dialect : protocol).
Abbreviation C := (Conn S).

(** ** Attributes *)

Definition RefreshSize (p : FileRef) : M C unit :=
  f ← beginOp p;
  size ← onWire (byDialect dialect
    (attr ← Tgetattr dialect (fid f) AttrSize; mret (int64 (Attr.Size attr)))
    (stat ← Tstat dialect (fid f); mret (int64 (Stat.Length stat))));
  setFile p (setCachedSize size).

Definition FileStat (p : FileRef) : M C FileInfo.t :=
  f ← beginOp p;
  onWire (byDialect dialect
    (attr ← Tgetattr dialect (fid f) AttrBasic; mret (attrToFileInfo attr))
    (st ← Tstat dialect (fid f); mret (statToFileInfo st))).

Definition Getattr (p : FileRef) (mask : AttrMask) : M C Attr.t :=
  f ← beginOp p;
  requireDialect dialect protocolL "Getattr";;
  onWire (Tgetattr dialect (fid f) mask).

Definition Setattr (p : FileRef) (attr : SetAttr.t) : M C unit :=
  f ← beginOp p;
  requireDialect dialect protocolL "Setattr";;
  onWire (Tsetattr dialect (fid f) attr).

Definition Chmod (p : FileRef) (mode : Z) : M C unit :=
  Setattr p (SetAttr.mk SetAttrMode (Z.land (uint_wrap 32 mode) 0xfff) 0 0 0 0 0 0 0).
Definition Chown (p : FileRef) (uid gid : Z) : M C unit :=
  Setattr p (SetAttr.mk (Z.lor SetAttrUID SetAttrGID) 0 uid gid 0 0 0 0 0).
Definition Truncate (p : FileRef) (size : Z) : M C unit :=
  Setattr p (SetAttr.mk SetAttrSize 0 0 0 size 0 0 0 0).

Definition Statfs (p : FileRef) : M C FSStat.t :=
  f ← beginOp p;
  requireDialect dialect protocolL "Statfs";;
  onWire (Tstatfs dialect (fid f)).

Definition Fsync (p : FileRef) (dataSync : bool) : M C unit :=
  f ← beginOp p;
  onWire (Tfsync dialect (fid f) dataSync).

Definition Readlink (p : FileRef) : M C string :=
  f ← beginOp p;
  requireDialect dialect protocolL "Readlink";;
  onWire (Treadlink dialect (fid f)).

(** ** Names *)

(** The head of the path-rooted calls: the dialect, the root, the elements of
    a path that is not the root's. *)
Definition rooted (op paths : string) (ps : list string) : M C (File * list (list string)) :=
  requireDialect dialect protocolL op;;
  root ← beginRoot op;
  let fulls := splitPath <$> ps in
  if existsb (fun full => (length full =? 0)%nat) fulls
  then throw (Errorf ("client: " +:+ op +:+ " requires " +:+ paths) [])
  else mret (root, fulls).

Definition Link (existingPath newPath : string) : M C unit :=
  '(root, fulls) ← rooted "Link" "non-root paths" [existingPath; newPath];
  match fulls with
  | [srcFull; dstFull] =>
      let '(dstParents, dstName) := parentAndName dstFull in
      srcFid ← walkNew (fid root) srcFull "source";
      dstDirFid ← onError (walkNew (fid root) dstParents "dest-parent") (cleanupFid srcFid);
      finally (finally (onWire (Tlink dialect dstDirFid srcFid dstName)) (cleanupFid dstDirFid)) (cleanupFid srcFid)
  | _ => throw nilPointer
  end.

Definition Rename (fromPath toPath : string) : M C unit :=
  '(root, fulls) ← rooted "Rename" "non-root paths" [fromPath; toPath];
  match fulls with
  | [fromFull; toFull] =>
      let '(fromParents, fromName) := parentAndName fromFull in
      let '(toParents, toName) := parentAndName toFull in
      oldDirFid ← walkNew (fid root) fromParents "from-parent";
      newDirFid ← onError (walkNew (fid root) toParents "to-parent") (cleanupFid oldDirFid);
      finally (finally (onWire (Trenameat dialect oldDirFid fromName newDirFid toName)) (cleanupFid newDirFid)) (cleanupFid oldDirFid)
  | _ => throw nilPointer
  end.

Definition Remove (p : string) : M C unit :=
  '(root, fulls) ← rooted "Remove" "a non-root path" [p];
  match fulls with
  | [full] =>
      let '(parents, name) := parentAndName full in
      dirFid ← walkNew (fid root) parents "parent";
      finally
        (fun c =>
           match onWire (Tunlinkat dialect dirFid name 0) c with
           | (Err e, c) =>
               if errors_Is e (ErrnoError EISDIR) then onWire (Tunlinkat dialect dirFid name atRemoveDir) c else (Err e, c)
           | r => r
           end)
        (cleanupFid dirFid)
  | _ => throw nilPointer
  end.

(** What [Mkdir], [Mknod] and [Symlink] share: [make] an entry in the parent,
    then walk to it for the caller's handle. *)
Definition makeEntry (op what : string) (path : string) (make : Fid -> string -> M S QID.t) : M C FileRef :=
  '(root, fulls) ← rooted op "a non-root path" [path];
  match fulls with
  | [full] =>
      let '(parents, name) := parentAndName full in
      dirFid ← walkNew (fid root) parents "parent";
      qid ← onError (onWire (make dirFid name)) (cleanupFid dirFid);
      newFid ← finally (walkNew dirFid [name] what) (cleanupFid dirFid);
      allocFile (newFile newFid qid 0)
  | _ => throw nilPointer
  end.

Definition Mkdir (path : string) (mode gid : Z) : M C FileRef :=
  makeEntry "Mkdir" "new directory" path (fun dirFid name => Tmkdir dialect dirFid name mode gid).
Definition Mknod (path : string) (mode major minor gid : Z) : M C FileRef :=
  makeEntry "Mknod" "new node" path (fun dirFid name => Tmknod dialect dirFid name mode major minor gid).
Definition Symlink (linkPath target : string) : M C FileRef :=
  makeEntry "Symlink" "new symlink" linkPath (fun dirFid name => Tsymlink dialect dirFid name target NoUID).

(** ** Locks

    [ctxErr k] is what the [k]-th look at the caller's context finds: looks
    [2i] follow a failed request, looks [2i + 1] race the timer of sleep [i].
    [pid] is the process.  The answer comes with the sleeps that were begun. *)

Definition unlockCleanup (f : File) (procID : Z) : M C unit := fun c =>
  (Ok tt, (onWire (Tlock dialect (fid f) LockTypeUnlck 0 0 0 procID "") c).2).

Fixpoint lockLoop (fuel : nat) (i : nat) (schedule : list Z) (ctxErr : nat -> option GoError) (procID : Z) (f : File)
    (lt : LockType) (slept : list Z) (c : C) : option (result unit * list Z * C) :=
  match fuel with
  | O => None
  | Datatypes.S fuel =>
      match onWire (Tlock dialect (fid f) lt LockFlagBlock 0 0 procID "") c with
      | (Err e, c) =>
          match ctxErr (2 * i)%nat with
          | Some ce => Some (Err ce, slept, (unlockCleanup f procID c).2)
          | None => Some (Err e, slept, c)
          end
      | (Ok status, c) =>
          if status =? LockStatusOK then Some (Ok tt, slept, c)
          else if (status =? LockStatusBlocked) || (status =? LockStatusGrace) then
            let slept := slept ++ [backoffFor schedule i] in
            match ctxErr (2 * i + 1)%nat with
            | Some ce => Some (Err ce, slept, (unlockCleanup f procID c).2)
            | None => lockLoop fuel (Datatypes.S i) schedule ctxErr procID f lt slept c
            end
          else if status =? LockStatusError then Some (Err (RemoteError EACCES ""), slept, c)
          else Some (Err (Errorf "client: unknown Rlock.Status %d" [status]), slept, c)
      end
  end.

Definition FileLock (fuel : nat) (lockPollSchedule : list Z) (ctxErr : nat -> option GoError) (pid : Z) (p : FileRef)
    (lt : LockType) (c : C) : option (result unit * list Z * C) :=
  match beginOp p c with
  | (Err e, c) => Some (Err e, [], c)
  | (Ok f, c) => lockLoop fuel 0 (lockSchedule lockPollSchedule) ctxErr (uint_wrap 32 pid) f lt [] c
  end.

Definition Unlock (pid : Z) (p : FileRef) : M C unit :=
  f ← beginOp p;
  _ ← onWire (Tlock dialect (fid f) LockTypeUnlck 0 0 0 (uint_wrap 32 pid) "");
  mret tt.

Definition TryLock (pid : Z) (p : FileRef) (lt : LockType) : M C bool :=
  f ← beginOp p;
  status ← onWire (Tlock dialect (fid f) lt 0 0 0 (uint_wrap 32 pid) "");
  if status =? LockStatusOK then mret true
  else if (status =? LockStatusBlocked) || (status =? LockStatusGrace) then mret false
  else if status =? LockStatusError then throw (RemoteError EACCES "")
  else throw (Errorf "client: unknown Rlock.Status %d" [status]).

(** [None]: the region is free. *)
Definition FileGetLock (pid : Z) (p : FileRef) (lt : LockType) : M C (option Lock.t) :=
  f ← beginOp p;
  rr ← onWire (Tgetlock dialect (fid f) lt 0 0 (uint_wrap 32 pid) "");
  mret (if Rgetlock.LockType rr =? LockTypeUnlck then None
        else Some (Lock.mk (Rgetlock.LockType rr) (Rgetlock.Start rr) (Rgetlock.Length rr) (Rgetlock.ProcID rr) (Rgetlock.ClientID rr))).

(** ** Extended attributes *)

Definition xattrChunk : Z := if msize <=? ioFrameOverhead then 0 else msize - ioFrameOverhead.

Definition zeroChunk : GoError :=
  Errorf "client: xattr chunk is 0 (msize %d <= ioFrameOverhead %d)" [msize; ioFrameOverhead].

(** The read loop, [buf] the bytes it has; the fid is the caller's to clean up.
    [None] is out of fuel. *)
Fixpoint xattrReadLoop (fuel : nat) (newFid : Fid) (size : Z) (buf : bytes) (c : C) : option (result bytes * C) :=
  let off := Z.of_nat (length buf) in
  if off <? size then
    match fuel with
    | O => None
    | Datatypes.S fuel =>
        let remaining := size - off in
        let want := if remaining <? xattrChunk then uint_wrap 32 remaining else xattrChunk in
        match onWire (tread newFid off want) c with
        | (Err e, c) => Some (Err e, c)
        | (Ok data, c) =>
            if (length data =? 0)%nat then Some (Err (Errorf "client: xattr short read at offset %d/%d" [off; size]), c)
            else if remaining <? Z.of_nat (length data)
            then Some (Err (Errorf "client: xattr over-read: server returned %d bytes at offset %d, only %d remaining"
                              [Z.of_nat (length data); off; remaining]), c)
            else xattrReadLoop fuel newFid size (buf ++ data) c
        end
    end
  else Some (Ok buf, c).

Definition twoPhaseXattrRead (fuel : nat) (p : FileRef) (name : string) (c : C) : option (result bytes * C) :=
  let start : M C (Fid * Z) :=
    f ← beginOp p;
    requireDialect dialect protocolL "XattrGet";;
    newFid ← acquire;
    size ← onError (onWire (Txattrwalk dialect (fid f) newFid name)) (release newFid);
    mret (newFid, size) in
  match start c with
  | (Err e, c) => Some (Err e, c)
  | (Ok (newFid, size), c) =>
      if MaxDataSize <? size
      then Some (finally (throw (Errorf "client: xattr size %d exceeds MaxDataSize %d" [size; MaxDataSize])) (cleanupFid newFid) c)
      else if size =? 0 then Some ((cleanupFid newFid;; mret []) c)
      else if xattrChunk =? 0 then Some (finally (throw zeroChunk) (cleanupFid newFid) c)
      else
        match xattrReadLoop fuel newFid size [] c with
        | None => None
        | Some (Err e, c) => Some (finally (throw e) (cleanupFid newFid) c)
        | Some (Ok buf, c) => Some ((cleanupFid newFid;; mret buf) c)
        end
  end.

Definition XattrGet (fuel : nat) (p : FileRef) (name : string) (c : C) : option (result bytes * C) :=
  twoPhaseXattrRead fuel p name c.

Definition XattrList (fuel : nat) (p : FileRef) (c : C) : option (result (list string) * C) :=
  match twoPhaseXattrRead fuel p "" c with
  | None => None
  | Some (Err e, c) => Some (Err e, c)
  | Some (Ok data, c) =>
      if (length data =? 0)%nat then Some (Ok [], c)
      else Some (Ok (string_of_bytes <$> List.filter (fun part => negb (length part =? 0)%nat) (splitNul data [])), c)
  end.

Fixpoint xattrWriteLoop (fuel : nat) (fid : Fid) (data : bytes) (off : nat) (c : C) : option (result unit * C) :=
  if (off <? length data)%nat then
    match fuel with
    | O => None
    | Datatypes.S fuel =>
        let chunk := take (Z.to_nat xattrChunk) (drop off data) in
        match onWire (twrite fid (Z.of_nat off) chunk) c with
        | (Err e, c) => Some (Err e, c)
        | (Ok n, c) =>
            if n =? 0
            then Some (Err (Errorf "client: xattr short write at offset %d/%d" [Z.of_nat off; Z.of_nat (length data)]), c)
            else xattrWriteLoop fuel fid data (off + Z.to_nat n) c
        end
    end
  else Some (Ok tt, c).

Definition XattrSet (fuel : nat) (p : FileRef) (name : string) (data : bytes) (flags : Z) (c : C) : option (result unit * C) :=
  let start : M C File :=
    requireDialect dialect protocolL "XattrSet";;
    f ← cloneFile p;
    onError (onWire (Txattrcreate dialect (fid f) name (Z.of_nat (length data)) flags)) (cleanupFid (fid f));;
    mret f in
  match start c with
  | (Err e, c) => Some (Err e, c)
  | (Ok clone, c) =>
      if (xattrChunk =? 0) && (0 <? Z.of_nat (length data)) then Some (finally (throw zeroChunk) (cleanupFid (fid clone)) c)
      else
        match xattrWriteLoop fuel (fid clone) data 0 c with
        | None => None
        | Some (Err e, c) => Some (finally (throw e) (cleanupFid (fid clone)) c)
        | Some (Ok _, c) => Some (cleanupFid (fid clone) c)
        end
  end.

Definition XattrRemove (fuel : nat) (p : FileRef) (name : string) (c : C) : option (result unit * C) :=
  XattrSet fuel p name [] 0 c.
End Advanced.
