(* ===== verification/ClientLocks.v ===== *)
(** * Client locks and paths

    [FileLock]'s poll loop: it ends when the context does, it sleeps along the
    schedule after every refusal, and it leaves no lock behind unreported.
    [splitPath]: the names a path is walked by. *)

From S2P Require Import Prelude GoIO Types Errno Proto Messages P9l P9u Message Bridge Inode Namespace Names ClientFile ClientConn.
From S2P Require Import ClientOps ClientAdvanced.

(** The requests of a connection with their outcomes. *)
Definition tracing {S} (T : Transport S) : Transport (S * list (Message * result Message)) := {|
  roundTripWithFlush m flush '(s, log) := let '(r, s) := roundTripWithFlush m flush s in (r, (s, log ++ [(m, r)]));
  signalShutdown '(s, log) := (signalShutdown s, log)
|}.

(** ** Locks *)

Definition lockPoll (f : File) (lt : LockType) (pid : Z) : Message := MTlock (Tlock.mk (fid f) lt LockFlagBlock 0 0 pid "").
Definition lockUndo (f : File) (pid : Z) : Message := MTlock (Tlock.mk (fid f) LockTypeUnlck 0 0 0 pid "").
Definition granted (r : result Message) : Prop := r = Ok (MRlock (Rlock.mk LockStatusOK)).
Definition refusedFor (poll : Message) (entry : Message * result Message) : Prop :=
  entry.1 = poll /\ exists st, entry.2 = Ok (MRlock (Rlock.mk st)) /\ (st = LockStatusBlocked \/ st = LockStatusGrace).

(** How the loop may end, after the refused polls. *)
Definition settled (f : File) (lt : LockType) (pid : Z) (ctxErr : nat -> option GoError) (r : result unit)
    (log : list (Message * result Message)) : Prop :=
  match r with
  | Ok _ => exists resp, log = [(lockPoll f lt pid, resp)] /\ granted resp
  | Err e =>
      (exists resp, log = [(lockPoll f lt pid, resp)] /\ ~ granted resp) \/
      (exists k, ctxErr k = Some e) /\ exists before resp, log = before ++ [(lockUndo f pid, resp)] /\
        (before = [] \/ exists resp0, before = [(lockPoll f lt pid, resp0)] /\ ~ granted resp0)
  end.

Section Locks.
Context {S : Type} (T : Transport S) (schedule : list Z) (ctxErr : nat -> option GoError) (f : File) (lt : LockType) (pid : Z).
Abbreviation C := (Conn (S * list (Message * result Message))).

Lemma tracing_Tlock lt' flags (c : C) s log :
  wire c = (s, log) ->
  exists r s', onWire (Tlock (H := tracing T) protocolL (fid f) lt' flags 0 0 pid "") c =
    (match r with
     | Err e => Err e
     | Ok resp =>
         match toError resp, resp with
         | Some e, _ => Err e
         | None, MRlock m => Ok (Rlock.Status m)
         | None, _ => Err (Errorf "client: expected %v, got %v" [TypeRlock; Message_Type resp])
         end
     end, mkConn (s', log ++ [(MTlock (Tlock.mk (fid f) lt' flags 0 0 pid ""), r)]) (alloc c) (files c) (rootFile c)).
Proof.
  intros Hw. unfold onWire, Tlock, requireDialect, rtrip, roundTrip. rewrite decide_True by done.
  unfold mbind, M_bind. cbn. rewrite Hw. destruct (roundTripWithFlush _ true s) as [r s'] eqn:E.
  exists r, s'. destruct r as [resp|e]; [|done]. destruct resp; done.
Qed.

Lemma undo_ends (c : C) s log :
  wire c = (s, log) -> exists resp s', (unlockCleanup (H := tracing T) protocolL f pid c).2 =
    mkConn (s', log ++ [(lockUndo f pid, resp)]) (alloc c) (files c) (rootFile c).
Proof. intros Hw. unfold unlockCleanup. destruct (tracing_Tlock LockTypeUnlck 0 c s log Hw) as (r & s' & ->). by exists r, s'. Qed.

(** One round of the loop: the poll is refused, and a sleep begins; or the
    loop ends. *)
Lemma lock_round fuel i slept (c : C) s log :
  wire c = (s, log) ->
  exists r s1, let c1 := mkConn (s1, log ++ [(lockPoll f lt pid, r)]) (alloc c) (files c) (rootFile c) in
    let loop := lockLoop (H := tracing T) protocolL (Datatypes.S fuel) i schedule ctxErr pid f lt slept c in
    (refusedFor (lockPoll f lt pid) (lockPoll f lt pid, r) /\
     loop = match ctxErr (2 * i + 1)%nat with
            | Some ce => Some (Err ce, slept ++ [backoffFor schedule i], (unlockCleanup (H := tracing T) protocolL f pid c1).2)
            | None => lockLoop (H := tracing T) protocolL fuel (Datatypes.S i) schedule ctxErr pid f lt (slept ++ [backoffFor schedule i]) c1
            end) \/
    (exists r' rest s2, loop = Some (r', slept, mkConn (s2, log ++ rest) (alloc c) (files c) (rootFile c)) /\
       settled f lt pid ctxErr r' rest).
Proof.
  intros Hw. destruct (tracing_Tlock lt LockFlagBlock c s log Hw) as (r & s1 & E). exists r, s1. cbv zeta. cbn [lockLoop].
  fold (lockPoll f lt pid) in *. rewrite E. set (c1 := mkConn _ _ _ _).
  set (status := match r with Ok _ => _ | Err _ => _ end).
  destruct status as [st|e] eqn:Est.
  - assert (r = Ok (MRlock (Rlock.mk st))) as Hr.
    { subst status. destruct r as [resp|]; [|done]. destruct resp; try done. cbn in Est. injection Est as <-. by destruct m. }
    destruct (Z.eqb_spec st LockStatusOK) as [->|Hok].
    { right. eexists _, _, s1. split; [reflexivity|]. by exists r. }
    destruct ((st =? LockStatusBlocked) || (st =? LockStatusGrace)) eqn:Hst.
    { left. split; [|done]. split; [done|]. exists st. split; [done|]. by rewrite orb_true_iff, !Z.eqb_eq in Hst. }
    assert (~ granted r) as Hg by (rewrite Hr; unfold granted; congruence).
    right. destruct (st =? LockStatusError); (eexists _, _, s1; split; [reflexivity|]; left; by exists r).
  - assert (~ granted r) as Hg by (intros ->; subst status; done).
    right. destruct (ctxErr (2 * i)%nat) as [ce|] eqn:Hc.
    + destruct (undo_ends c1 s1 (log ++ [_]) eq_refl) as (resp & s2 & ->). cbn [alloc files rootFile c1].
      rewrite <- app_assoc. eexists _, _, s2. split; [reflexivity|]. right. split; [by exists (2 * i)%nat|].
      exists [(lockPoll f lt pid, r)], resp. split; [done|]. right. by exists r.
    + eexists _, _, s1. split; [reflexivity|]. left. by exists r.
Qed.

Lemma lockLoop_settles k i slept (c : C) s log ce :
  wire c = (s, log) -> ctxErr (2 * (i + k) + 1)%nat = Some ce ->
  exists r n polls rest s', lockLoop (H := tracing T) protocolL (Datatypes.S k) i schedule ctxErr pid f lt slept c =
      Some (r, slept ++ (backoffFor schedule <$> seq i n), mkConn (s', log ++ polls ++ rest) (alloc c) (files c) (rootFile c)) /\
    (n <= Datatypes.S k)%nat /\ length polls = n /\ Forall (refusedFor (lockPoll f lt pid)) polls /\
    settled f lt pid ctxErr r rest.
Proof.
  revert i slept c s log. induction k as [|k IH]; intros i slept c s log Hw Hc;
    match goal with |- context [lockLoop _ (Datatypes.S ?k)] =>
      destruct (lock_round k i slept c s log Hw) as (r & s1 & [[Href Hl]|(r' & rest & s2 & Hl & Hset)]) end;
    rewrite Hl; clear Hl.
  2, 4: (exists r', 0%nat, [], rest, s2; rewrite app_nil_r; split; [done|]; split; [lia|done]).
  all: destruct (ctxErr (2 * i + 1)%nat) as [ce'|] eqn:Hi.
  1, 3: (destruct (undo_ends (mkConn (s1, log ++ [(lockPoll f lt pid, r)]) (alloc c) (files c) (rootFile c)) s1 _ eq_refl) as (resp & s2 & ->);
    exists (Err ce'), 1%nat, [(lockPoll f lt pid, r)], [(lockUndo f pid, resp)], s2;
    rewrite <- app_assoc; split; [done|]; split; [lia|]; split; [done|]; split; [by apply Forall_singleton|];
    right; split; [by exists (2 * i + 1)%nat|]; exists [], resp; by auto).
  - by rewrite Nat.add_0_r, Hi in Hc.
  - destruct (IH (Datatypes.S i) (slept ++ [backoffFor schedule i])
      (mkConn (s1, log ++ [(lockPoll f lt pid, r)]) (alloc c) (files c) (rootFile c)) s1 _ eq_refl)
      as (r' & n & polls & rest & s2 & -> & Hn & Hl & Hf & Hset).
    { by replace (Datatypes.S i + k)%nat with (i + Datatypes.S k)%nat by lia. }
    exists r', (Datatypes.S n), ((lockPoll f lt pid, r) :: polls), rest, s2. cbn [seq fmap list_fmap alloc files rootFile].
    rewrite <- !app_assoc. split; [done|]. split; [lia|]. split; [by rewrite <- Hl|]. split; [|done]. by apply Forall_cons.
Qed.
End Locks.

(** C26: [File.Lock] settles.  On an open file of a 9P2000.L connection (on
    any other it answers at once, without a request): if the caller's context ends by the [k]-th sleep,
    the call returns after at most [k + 1] polls, where a poll whose round
    trip fails has that failure for its answer.  It sleeps once after every
    refused poll, by the schedule.  It returns nil exactly after the server
    granted the lock, and when it fails it either saw an answer that granted
    nothing or, having been cancelled, has sent the request that releases the
    lock last. *)
Theorem lock_settles {S} (T : Transport S) polls ctxErr pid p lt (c : Conn (S * list (Message * result Message))) f s k ce :
  files c !! p = Some f -> closed f = false -> wire c = (s, []) -> ctxErr (2 * k + 1)%nat = Some ce ->
  exists r n log rest s', FileLock (H := tracing T) protocolL (Datatypes.S k) polls ctxErr pid p lt c =
      Some (r, backoffFor (lockSchedule polls) <$> seq 0 n, mkConn (s', log ++ rest) (alloc c) (files c) (rootFile c)) /\
    (n <= Datatypes.S k)%nat /\ length log = n /\
    Forall (refusedFor (lockPoll f lt (uint_wrap 32 pid))) log /\ settled f lt (uint_wrap 32 pid) ctxErr r rest.
Proof.
  intros Hp Hf Hw Hc. unfold FileLock, beginOp. rewrite Hp, Hf.
  destruct (lockLoop_settles T (lockSchedule polls) ctxErr f lt (uint_wrap 32 pid) k 0 [] c s [] ce Hw Hc)
    as (r & n & log & rest & s' & -> & H1 & H2 & H3 & H4). by exists r, n, log, rest, s'.
Qed.

(** *** A server that refuses twice and then grants *)
Definition busyServer : Transport nat := {|
  roundTripWithFlush m _ n := (Ok (MRlock (Rlock.mk (if (n <? 2)%nat then LockStatusBlocked else LockStatusOK))), Datatypes.S n);
  signalShutdown n := n
|}.
Definition lockConn : Conn (nat * list (Message * result Message)) := mkConn (0%nat, []) Fids.newFidAllocator [newFile 1 QID.zero 0] None.

Definition patience (k : nat) : option GoError := if (k =? 11)%nat then Some ErrClosed else None.

Lemma lock_settles_witness :
  let call := FileLock (H := tracing busyServer) protocolL 6 [] patience 77 0 LockTypeWrLck lockConn in
  (exists c', call = Some (Ok tt, [10 * 10 ^ 6; 20 * 10 ^ 6], c')) /\
  exists r n log rest s', call = Some (r, backoffFor (lockSchedule []) <$> seq 0 n, mkConn (s', log ++ rest) (alloc lockConn) (files lockConn) None) /\
    length log = n /\ settled (newFile 1 QID.zero 0) LockTypeWrLck 77 patience r rest.
Proof.
  split; [eexists; vm_compute; reflexivity|].
  destruct (lock_settles busyServer [] patience 77 0 LockTypeWrLck lockConn
    (newFile 1 QID.zero 0) 0%nat 5 ErrClosed eq_refl eq_refl eq_refl eq_refl) as (r & n & log & rest & s' & E & _ & Hn & _ & Hs).
  exists r, n, log, rest, s'. split; [exact E|]. split; [exact Hn|exact Hs].
Defined.
