(* ===== verification/SessionManager.v ===== *)
(** * Sessions that reconnect

    [client/session_manager.go]: a [Session] hands out one live connection to
    any number of callers, redialing when it is gone.  A caller of [Conn]
    finds the session closed, a live connection, another caller dialing (it
    waits for that one's channel), or becomes the dialer; the dialer retries
    with backoff without holding the lock and publishes the outcome under it.

    The critical sections under [s.mu] are functions on the record [Session];
    [closeCh] is closed in the section that sets [closed], so it is that
    flag.  The callers of [Conn] and [Close] are program counters, and [run]
    takes one step of one of them.  What the environment decides - the outcome
    of a dial, which ready case a [select] takes, when a context ends or a
    connection dies - is in the label. *)

From S2P Require Import Prelude Types ClientFile ClientAdvanced.

Definition ErrSessionClosed : GoError := Sentinel "client: session closed".

(** ** Schedules *)

Definition defaultDialBackoff : list Z :=
  (fun ms => ms * millisecond) <$> [10; 20; 40; 80; 160; 320; 640; 1280; 2560; 5000].

(** [rand.N(n)] is below [n]. *)
Definition dialJitter (rand : Z -> Z) (d : Z) : Z := if d <=? 0 then d else d + rand (d / 2 + 1).

Definition WithReconnectBackoff (schedule backoff : list Z) : list Z :=
  match schedule with [] => backoff | _ => schedule end.

(** ** The session *)

Abbreviation ConnId := nat.
Abbreviation Chan := nat.

Record Session : Type := mkSession {
  conn : option ConnId;
  dialing : option Chan;
  closed : bool
}.
Definition NewSession : Session := mkSession None None false.

(** The first critical section of [Conn]: what the caller found. *)
Inductive found : Type :=
  | FoundClosed
  | FoundConn (c : ConnId)
  | FoundDialing (done : Chan)
  | BecomeDialer.

Definition enter (isClosed : ConnId -> bool) (s : Session) : found :=
  if closed s then FoundClosed
  else
    match conn s with
    | Some c => if negb (isClosed c) then FoundConn c
                else match dialing s with Some done => FoundDialing done | None => BecomeDialer end
    | None => match dialing s with Some done => FoundDialing done | None => BecomeDialer end
    end.

Definition setDialing (done : option Chan) (s : Session) : Session := mkSession (conn s) done (closed s).

(** The second: the dialer's result, and the connection it must discard. *)
Definition publish (r : result ConnId) (s : Session) : result ConnId * option ConnId * Session :=
  let s := setDialing None s in
  if closed s then (Err ErrSessionClosed, match r with Ok c => Some c | Err _ => None end, s)
  else
    match r with
    | Ok c => (Ok c, None, mkSession (Some c) (dialing s) (closed s))
    | Err e => (Err e, None, s)
    end.

(** The critical section of [Close]: the connection to close. *)
Definition closeSession (s : Session) : option ConnId * Session :=
  if closed s then (None, s) else (conn s, mkSession None (dialing s) true).

(** ** One attempt *)

(** What the dialer, [Dial] and the [onReconnect] callback answer. *)
Record attempt : Type := mkAttempt {
  dialerErr : option GoError;
  dialErr : option GoError;
  onReconnect : option (option GoError)
}.

(** [c]: the connection the dialer opens, [open]: those that are open. *)
Definition dialOnce (a : attempt) (c : ConnId) (open : gset ConnId) : result ConnId * gset ConnId :=
  match dialerErr a with
  | Some e => (Err e, open)
  | None =>
      let open := {[c]} ∪ open in
      match dialErr a with
      | Some e => (Err e, open ∖ {[c]})
      | None =>
          match onReconnect a with
          | Some (Some e) => (Err e, open ∖ {[c]})
          | _ => (Ok c, open)
          end
      end
  end.

(** ** Goroutines *)

Inductive pc : Type :=
  | PEnter
  | PWait (done : Chan)
  | PDial (done : Chan) (i : nat)
  | PSleep (done : Chan) (i : nat)
  | PPublish (done : Chan) (r : result ConnId)
  | PDiscard (c : ConnId)
  | PClosing (c : option ConnId)
  | PReturned (r : result (option ConnId)).

Record State : Type := mkState {
  session : Session;
  open : gset ConnId;
  nextConn : ConnId;
  nextChan : Chan;
  closedChans : gset Chan;
  cancelled : gset nat;
  callers : gmap nat pc
}.
Definition initial : State := mkState NewSession ∅ 0 0 ∅ ∅ ∅.

Definition isClosed (s : State) (c : ConnId) : bool := bool_decide (c ∉ open s).

Definition setSession (x : Session) (s : State) : State :=
  mkState x (open s) (nextConn s) (nextChan s) (closedChans s) (cancelled s) (callers s).
Definition setOpen (o : gset ConnId) (s : State) : State :=
  mkState (session s) o (nextConn s) (nextChan s) (closedChans s) (cancelled s) (callers s).
Definition goTo (g : nat) (p : pc) (s : State) : State :=
  mkState (session s) (open s) (nextConn s) (nextChan s) (closedChans s) (cancelled s) (<[g := p]> (callers s)).
Definition closeConn (c : ConnId) (s : State) : State := setOpen (open s ∖ {[c]}) s.

Inductive label : Type :=
  | LConn (g : nat)                        (* a new call of Conn *)
  | LClose (g : nat)                       (* a new call of Close *)
  | LCancel (g : nat)                      (* the context of a caller ends *)
  | LDies (c : ConnId)                     (* a connection shuts down *)
  | LEnter (g : nat)
  | LWoken (g : nat)                       (* <-done *)
  | LWaitCancelled (g : nat) (e : GoError) (* <-ctx.Done() *)
  | LAttempt (g : nat) (a : attempt) (ctxErr : GoError)
  | LTimer (g : nat)                       (* <-t.C *)
  | LSleepCancelled (g : nat) (e : GoError)
  | LSleepClosed (g : nat)                 (* <-s.closeCh *)
  | LPublish (g : nat)
  | LFinish (g : nat).                     (* the Close of a connection after the lock is released *)

Definition returns (r : result ConnId) : pc := PReturned (match r with Ok c => Ok (Some c) | Err e => Err e end).

(** After a failed attempt of [dialWithBackoff]. *)
Definition afterFailure (s : State) (g : nat) (done : Chan) (i : nat) (ctxErr : GoError) : pc :=
  if decide (g ∈ cancelled s) then PPublish done (Err ctxErr)
  else if closed (session s) then PPublish done (Err ErrSessionClosed)
  else PSleep done i.

Definition run (lab : label) (s : State) : option State :=
  match lab with
  | LConn g => match callers s !! g with None => Some (goTo g PEnter s) | Some _ => None end
  | LClose g =>
      match callers s !! g with
      | None => let '(c, x) := closeSession (session s) in Some (goTo g (PClosing c) (setSession x s))
      | Some _ => None
      end
  | LCancel g =>
      Some (mkState (session s) (open s) (nextConn s) (nextChan s) (closedChans s) ({[g]} ∪ cancelled s) (callers s))
  | LDies c => Some (closeConn c s)
  | LEnter g =>
      match callers s !! g with
      | Some PEnter =>
          match enter (isClosed s) (session s) with
          | FoundClosed => Some (goTo g (returns (Err ErrSessionClosed)) s)
          | FoundConn c => Some (goTo g (returns (Ok c)) s)
          | FoundDialing done => Some (goTo g (PWait done) s)
          | BecomeDialer =>
              let done := nextChan s in
              Some (goTo g (PDial done 0)
                (mkState (setDialing (Some done) (session s)) (open s) (nextConn s) (S done) (closedChans s) (cancelled s) (callers s)))
          end
      | _ => None
      end
  | LWoken g =>
      match callers s !! g with
      | Some (PWait done) => if decide (done ∈ closedChans s) then Some (goTo g PEnter s) else None
      | _ => None
      end
  | LWaitCancelled g e =>
      match callers s !! g with
      | Some (PWait _) => if decide (g ∈ cancelled s) then Some (goTo g (returns (Err e)) s) else None
      | _ => None
      end
  | LAttempt g a ctxErr =>
      match callers s !! g with
      | Some (PDial done i) =>
          let '(r, o) := dialOnce a (nextConn s) (open s) in
          let s := mkState (session s) o (S (nextConn s)) (nextChan s) (closedChans s) (cancelled s) (callers s) in
          Some (goTo g (match r with Ok c => PPublish done (Ok c) | Err _ => afterFailure s g done i ctxErr end) s)
      | _ => None
      end
  | LTimer g =>
      match callers s !! g with Some (PSleep done i) => Some (goTo g (PDial done (S i)) s) | _ => None end
  | LSleepCancelled g e =>
      match callers s !! g with
      | Some (PSleep done _) => if decide (g ∈ cancelled s) then Some (goTo g (PPublish done (Err e)) s) else None
      | _ => None
      end
  | LSleepClosed g =>
      match callers s !! g with
      | Some (PSleep done _) => if closed (session s) then Some (goTo g (PPublish done (Err ErrSessionClosed)) s) else None
      | _ => None
      end
  | LPublish g =>
      match callers s !! g with
      | Some (PPublish done r) =>
          let '(r, discard, x) := publish r (session s) in
          let s := mkState x (open s) (nextConn s) (nextChan s) ({[done]} ∪ closedChans s) (cancelled s) (callers s) in
          Some (goTo g (match discard with Some c => PDiscard c | None => returns r end) s)
      | _ => None
      end
  | LFinish g =>
      match callers s !! g with
      | Some (PDiscard c) => Some (goTo g (returns (Err ErrSessionClosed)) (closeConn c s))
      | Some (PClosing (Some c)) => Some (goTo g (PReturned (Ok None)) (closeConn c s))
      | Some (PClosing None) => Some (goTo g (PReturned (Ok None)) s)
      | _ => None
      end
  end.

Definition step (s s' : State) : Prop := exists lab, run lab s = Some s'.
Abbreviation reachable := (Reachable initial step).

(** ** The invariant *)

(** The channel a dialer will close. *)
Definition dials (p : pc) : option Chan :=
  match p with PDial done _ | PSleep done _ | PPublish done _ => Some done | _ => None end.

(** The connection a caller has not passed on or closed yet. *)
Definition holds (p : pc) : option ConnId :=
  match p with PPublish _ (Ok c) | PDiscard c | PClosing (Some c) => Some c | _ => None end.

Record Inv (s : State) : Prop := {
  inv_dialer g p done : callers s !! g = Some p -> dials p = Some done -> dialing (session s) = Some done;
  inv_one g1 g2 p1 p2 done : callers s !! g1 = Some p1 -> callers s !! g2 = Some p2 ->
    dials p1 = Some done -> dials p2 = Some done -> g1 = g2;
  inv_dialing done : dialing (session s) = Some done ->
    (exists g p, callers s !! g = Some p /\ dials p = Some done) /\ done ∉ closedChans s /\ (done < nextChan s)%nat;
  inv_chans done : done ∈ closedChans s -> (done < nextChan s)%nat;
  inv_wait g done : callers s !! g = Some (PWait done) -> done ∈ closedChans s \/ dialing (session s) = Some done;
  inv_open c : c ∈ open s -> conn (session s) = Some c \/ exists g p, callers s !! g = Some p /\ holds p = Some c;
  inv_closed : closed (session s) = true -> conn (session s) = None;
  inv_stale c : dialing (session s) <> None -> conn (session s) = Some c -> c ∉ open s;
  inv_old c : conn (session s) = Some c \/ (exists g p, callers s !! g = Some p /\ holds p = Some c) -> (c < nextConn s)%nat
}.

Lemma sinv_initial : Inv initial.
Proof. split; cbn; set_solver. Qed.

(** A caller moves without touching the session: it neither starts nor stops
    dialing, and lets go of no open connection. *)
Lemma sinv_move g p p' s :
  Inv s -> callers s !! g = Some p -> dials p' = dials p ->
  (forall c, holds p = Some c -> holds p' = Some c \/ c ∉ open s) ->
  (forall c, holds p' = Some c -> (c < nextConn s)%nat) ->
  (forall done, p' = PWait done -> dialing (session s) = Some done) -> Inv (goTo g p' s).
Proof.
  intros [Hd H1 Hg Hc Hw Ho Hcl Hst Hold] Hp Hdials Hh Hnew Hwait. split; cbn; try done.
  - intros g0 p0 d0 [[<- <-]|[_ Hp0]]%lookup_insert_Some Hd0; [|by eauto]. rewrite Hdials in Hd0. eauto.
  - intros g1 g2 p1 p2 d0 [[<- <-]|[Hn1 Hp1]]%lookup_insert_Some [[<- <-]|[Hn2 Hp2]]%lookup_insert_Some; rewrite ?Hdials; eauto.
  - intros d0 Hdone. destruct (Hg d0 Hdone) as ((g0 & p0 & Hp0 & Hd0) & Hrest). split; [|done].
    destruct (decide (g0 = g)) as [->|Hne].
    + exists g, p'. rewrite lookup_insert_eq. split; [done|]. rewrite Hdials. congruence.
    + exists g0, p0. by rewrite lookup_insert_ne.
  - intros g0 d0 [[<- Heq]|[_ Hp0]]%lookup_insert_Some; [right|]; eauto.
  - intros c Hc0. destruct (Ho c Hc0) as [|(g0 & p0 & Hp0 & Hh0)]; [by left|]. right.
    destruct (decide (g0 = g)) as [->|Hne]; [|exists g0, p0; by rewrite lookup_insert_ne].
    exists g, p'. rewrite lookup_insert_eq. split; [done|]. assert (p0 = p) as -> by congruence. by destruct (Hh c Hh0).
  - intros c [Hcon|(g0 & p0 & [[<- <-]|[_ Hp0]]%lookup_insert_Some & Hh0)]; [auto|auto|apply Hold; right; eauto].
Qed.

(** A new call. *)
Lemma sinv_call g p s :
  Inv s -> callers s !! g = None -> dials p = None -> (forall c, holds p = Some c -> (c < nextConn s)%nat) ->
  (forall done, p <> PWait done) -> Inv (goTo g p s).
Proof.
  intros [Hd H1 Hg Hc Hw Ho Hcl Hst Hold] Hp Hdials Hnew Hwait. split; cbn; try done.
  - intros g0 p0 d0 [[<- <-]|[_ Hp0]]%lookup_insert_Some Hd0; [congruence|by eauto].
  - intros g1 g2 p1 p2 d0 [[<- <-]|[Hn1 Hp1]]%lookup_insert_Some [[<- <-]|[Hn2 Hp2]]%lookup_insert_Some; try congruence; eauto.
  - intros d0 Hdone. destruct (Hg d0 Hdone) as ((g0 & p0 & Hp0 & Hd0) & Hrest). split; [|done].
    exists g0, p0. rewrite lookup_insert_ne; [done|congruence].
  - intros g0 d0 [[<- Heq]|[_ Hp0]]%lookup_insert_Some; [by destruct (Hwait d0)|eauto].
  - intros c Hc0. destruct (Ho c Hc0) as [|(g0 & p0 & Hp0 & Hh0)]; [by left|]. right.
    exists g0, p0. rewrite lookup_insert_ne; [done|congruence].
  - intros c [Hcon|(g0 & p0 & [[<- <-]|[_ Hp0]]%lookup_insert_Some & Hh0)]; [auto|auto|apply Hold; right; eauto].
Qed.

(** A connection goes. *)
Lemma sinv_closeConn c s : Inv s -> Inv (closeConn c s).
Proof. intros [Hd H1 Hg Hc Hw Ho Hcl Hst Hold]. split; cbn; try done; set_solver +Ho Hst. Qed.

(** [Close] takes the connection from the session. *)
Lemma sinv_close g c x s :
  Inv s -> callers s !! g = None -> closeSession (session s) = (c, x) -> Inv (goTo g (PClosing c) (setSession x s)).
Proof.
  intros [Hd H1 Hg Hc Hw Ho Hcl Hst Hold] Hp Ec.
  assert (dialing x = dialing (session s) /\ closed x = true /\ conn x = None /\ c = conn (session s)) as (Hxd & Hxc & Hxn & ->).
  { unfold closeSession in Ec. destruct (closed (session s)) eqn:E; injection Ec as <- <-; [|done].
    by rewrite (Hcl eq_refl). }
  split; cbn; rewrite ?Hxd, ?Hxc, ?Hxn; try done.
  - intros g0 p0 d0 [[<- <-]|[_ Hp0]]%lookup_insert_Some Hd0; [done|by eauto].
  - intros g1 g2 p1 p2 d0 [[<- <-]|[Hn1 Hp1]]%lookup_insert_Some [[<- <-]|[Hn2 Hp2]]%lookup_insert_Some; try done; eauto.
  - intros d0 Hdone. destruct (Hg d0 Hdone) as ((g0 & p0 & Hp0 & Hd0) & Hrest). split; [|done].
    exists g0, p0. rewrite lookup_insert_ne; [done|congruence].
  - intros g0 d0 [[<- Heq]|[_ Hp0]]%lookup_insert_Some; [done|eauto].
  - intros c Hc0. right. destruct (Ho c Hc0) as [Hcon|(g0 & p0 & Hp0 & Hh0)].
    + exists g, (PClosing (conn (session s))). rewrite lookup_insert_eq. split; [done|]. cbn. by rewrite Hcon.
    + exists g0, p0. rewrite lookup_insert_ne; [done|congruence].
  - intros c [?|(g0 & p0 & [[<- <-]|[_ Hp0]]%lookup_insert_Some & Hh0)]; [done| |apply Hold; right; by eauto].
    apply Hold. left. cbn in Hh0. by destruct (conn (session s)).
Qed.

(** The end of a dial: the result of [publish], its connection kept or to be
    discarded. *)
Lemma publish_cases r x r' discard x' :
  publish r x = (r', discard, x') ->
  dialing x' = None /\ closed x' = closed x /\
  (r' = Err ErrSessionClosed /\ closed x = true /\ conn x' = conn x /\ discard = match r with Ok c => Some c | Err _ => None end \/
   r' = r /\ closed x = false /\ discard = None /\ conn x' = match r with Ok c => Some c | Err _ => conn x end).
Proof.
  unfold publish. cbn. destruct (closed x) eqn:E; [|destruct r]; intros [= <- <- <-]; cbn; rewrite ?E; split_and!; auto.
Qed.

Lemma sinv_publish g done r s r' discard x :
  Inv s -> callers s !! g = Some (PPublish done r) -> publish r (session s) = (r', discard, x) ->
  Inv (goTo g (match discard with Some c => PDiscard c | None => returns r' end)
    (mkState x (open s) (nextConn s) (nextChan s) ({[done]} ∪ closedChans s) (cancelled s) (callers s))).
Proof.
  intros [Hd H1 Hg Hc Hw Ho Hcl Hst Hold] Hp Epub. pose proof (Hd g _ done Hp eq_refl) as Hdone.
  set (p' := match discard with Some c => PDiscard c | None => returns r' end).
  assert (dials p' = None /\ forall d, p' <> PWait d) as [Hp'd Hp'w] by (unfold p', returns; destruct discard; by split).
  destruct (publish_cases _ _ _ _ _ Epub) as (Hxd & Hxc & Hcases).
  assert (Hmine : forall c, r = Ok c -> (c < nextConn s)%nat).
  { intros c ->. apply Hold. right. eauto. }
  split; cbn; rewrite ?Hxd, ?Hxc; try done.
  - intros g0 p0 d1 [[<- <-]|[Hne Hp0]]%lookup_insert_Some Hd0; [congruence|].
    pose proof (Hd g0 p0 d1 Hp0 Hd0) as Hdone0. destruct Hne. eapply (H1 g g0); eauto. cbn. congruence.
  - intros g1 g2 p1 p2 d0 [[<- <-]|[Hn1 Hp1]]%lookup_insert_Some [[<- <-]|[Hn2 Hp2]]%lookup_insert_Some; try congruence; eauto.
  - intros d0 [->%elem_of_singleton|Hd0]%elem_of_union; [by apply Hg|eauto].
  - intros g0 d0 [[<- Heq]|[_ Hp0]]%lookup_insert_Some; [by destruct (Hp'w d0)|]. left.
    destruct (Hw g0 d0 Hp0) as [|Hd0]; [set_solver|]. assert (d0 = done) as -> by congruence. set_solver.
  - intros c Hc0. destruct (Ho c Hc0) as [Hconn|(g0 & p0 & Hp0 & Hh0)].
    { exfalso. eapply (Hst c); [congruence|done..]. }
    destruct (decide (g0 = g)) as [->|Hne]; [|right; exists g0, p0; by rewrite lookup_insert_ne].
    rewrite Hp in Hp0. injection Hp0 as <-. cbn in Hh0. destruct r as [c0|]; [|done]. injection Hh0 as ->.
    destruct Hcases as [(-> & _ & _ & ->)|(_ & _ & _ & ->)]; [right|by left].
    exists g, p'. by rewrite lookup_insert_eq.
  - intros Hcl0. destruct Hcases as [(_ & _ & -> & _)|(_ & ? & _)]; [by apply Hcl|congruence].
  - intros c [Hcon|(g0 & p0 & [[<- <-]|[_ Hp0]]%lookup_insert_Some & Hh0)]; [| |apply Hold; right; by eauto].
    + destruct Hcases as [(_ & _ & E & _)|(_ & _ & _ & E)]; rewrite E in Hcon; [auto|]. destruct r; [|by auto].
      injection Hcon as ->. by apply Hmine.
    + unfold p', returns in Hh0. destruct Hcases as [(_ & _ & _ & ->)|(_ & _ & -> & _)]; [|done].
      destruct r; [|done]. injection Hh0 as ->. by apply Hmine.
Qed.

(** A caller becomes the dialer. *)
Lemma sinv_dial g s :
  Inv s -> callers s !! g = Some PEnter -> enter (isClosed s) (session s) = BecomeDialer ->
  Inv (goTo g (PDial (nextChan s) 0)
    (mkState (setDialing (Some (nextChan s)) (session s)) (open s) (nextConn s) (S (nextChan s)) (closedChans s) (cancelled s) (callers s))).
Proof.
  intros [Hd H1 Hg Hc Hw Ho Hcl Hst Hold] Hp He.
  assert (dialing (session s) = None /\ forall c, conn (session s) = Some c -> c ∉ open s) as [Hnone Hstale].
  { unfold enter in He. destruct (closed (session s)); [done|]. destruct (conn (session s)) as [c|].
    - unfold isClosed in He. case_bool_decide; cbn in He; [|done]. destruct (dialing (session s)); [done|]. split; [done|]. by intros ? [= <-].
    - by destruct (dialing (session s)). }
  assert (Hnew : forall g0 p0 d0, callers s !! g0 = Some p0 -> dials p0 = Some d0 -> False).
  { intros g0 p0 d0 Hp0 Hd0. apply (Hd g0 p0 d0) in Hp0; [congruence|done]. }
  split; cbn; try done.
  - intros g0 p0 d0 [[<- <-]|[_ Hp0]]%lookup_insert_Some Hd0; [done|by destruct (Hnew g0 p0 d0)].
  - intros g1 g2 p1 p2 d0 [[<- <-]|[Hn1 Hp1]]%lookup_insert_Some [[<- <-]|[Hn2 Hp2]]%lookup_insert_Some Hd1 Hd2; try done.
    + by destruct (Hnew g2 p2 d0).
    + by destruct (Hnew g1 p1 d0).
    + by destruct (Hnew g1 p1 d0).
  - intros d0 [= <-]. split_and!; [|intros E; apply Hc in E; lia|lia].
    exists g, (PDial (nextChan s) 0). by rewrite lookup_insert_eq.
  - intros d0 Hd0. apply Hc in Hd0. lia.
  - intros g0 d0 [[<- Heq]|[_ Hp0]]%lookup_insert_Some; [done|]. destruct (Hw g0 d0 Hp0); [by left|congruence].
  - intros c Hc0. destruct (Ho c Hc0) as [|(g0 & p0 & Hp0 & Hh0)]; [by left|]. right. exists g0, p0.
    rewrite lookup_insert_ne; [done|]. intros <-. rewrite Hp in Hp0. by injection Hp0 as <-.
  - intros c _. apply Hstale.
  - intros c [Hcon|(g0 & p0 & [[<- <-]|[_ Hp0]]%lookup_insert_Some & Hh0)]; [auto|done|apply Hold; right; eauto].
Qed.

Lemma dialOnce_open a c o : ((dialOnce a c o).1 = Ok c /\ (dialOnce a c o).2 = {[c]} ∪ o) \/
  ((exists e, (dialOnce a c o).1 = Err e) /\ (dialOnce a c o).2 ⊆ o).
Proof.
  unfold dialOnce. destruct (dialerErr a); [right; split; [eauto|done]|].
  destruct (dialErr a); [right; split; [eauto|set_solver]|].
  destruct (onReconnect a) as [[e|]|]; [right; split; [eauto|set_solver]|by left|by left].
Qed.

(** An attempt ends: it opened at most the connection it holds. *)
Lemma sinv_attempt g ch i o s p' :
  Inv s -> callers s !! g = Some (PDial ch i) -> dials p' = Some ch ->
  (forall c, c ∈ o -> c ∈ open s \/ holds p' = Some c) ->
  (forall c, holds p' = Some c -> c = nextConn s) ->
  Inv (goTo g p' (mkState (session s) o (S (nextConn s)) (nextChan s) (closedChans s) (cancelled s) (callers s))).
Proof.
  intros [Hd H1 Hg Hc Hw Ho Hcl Hst Hold] Hp Hdials Ho' Hnew. split; cbn; try done.
  - intros g0 p0 d0 [[<- <-]|[_ Hp0]]%lookup_insert_Some Hd0; [|by eauto]. rewrite Hdials in Hd0. injection Hd0 as <-. eauto.
  - intros g1 g2 p1 p2 d0 [[<- <-]|[Hn1 Hp1]]%lookup_insert_Some [[<- <-]|[Hn2 Hp2]]%lookup_insert_Some; rewrite ?Hdials; eauto.
  - intros d0 Hdone. destruct (Hg d0 Hdone) as ((g0 & p0 & Hp0 & Hd0) & Hrest). split; [|done].
    destruct (decide (g0 = g)) as [->|Hne]; [|exists g0, p0; by rewrite lookup_insert_ne].
    exists g, p'. rewrite lookup_insert_eq. split; [done|]. rewrite Hp in Hp0. injection Hp0 as <-. by rewrite Hdials.
  - intros g0 d0 [[<- Heq]|[_ Hp0]]%lookup_insert_Some; [by rewrite Heq in Hdials|eauto].
  - intros c [Hc0|Hh]%Ho'; [|right; exists g, p'; by rewrite lookup_insert_eq].
    destruct (Ho c Hc0) as [|(g0 & p0 & Hp0 & Hh0)]; [by left|]. right. exists g0, p0.
    rewrite lookup_insert_ne; [done|]. intros <-. rewrite Hp in Hp0. by injection Hp0 as <-.
  - intros c Hne Hcon [Hin|Hh]%Ho'; [by eapply Hst|]. apply Hnew in Hh as ->.
    pose proof (Hold (nextConn s) (or_introl Hcon)). lia.
  - intros c [Hcon|(g0 & p0 & [[<- <-]|[_ Hp0]]%lookup_insert_Some & Hh0)].
    + pose proof (Hold c (or_introl Hcon)). lia.
    + apply Hnew in Hh0. lia.
    + assert (c < nextConn s)%nat by (apply Hold; right; eauto). lia.
Qed.

Lemma sinv_step s s' : Inv s -> step s s' -> Inv s'.
Proof.
  intros Hi [lab Hrun]. pose proof (inv_old _ Hi) as Hold.
  destruct lab as [g|g|g|c|g|g|g e|g a ctxErr|g|g e|g|g|g]; cbn in Hrun.
  - destruct (callers s !! g) eqn:Hp; [done|]. injection Hrun as <-. by apply sinv_call.
  - destruct (callers s !! g) eqn:Hp; [done|]. destruct (closeSession (session s)) as [c x] eqn:Ec. injection Hrun as <-. by eapply sinv_close.
  - injection Hrun as <-. by destruct Hi; split.
  - injection Hrun as <-. by apply sinv_closeConn.
  - destruct (callers s !! g) as [[| | | | | | |]|] eqn:Hp; try done. destruct (enter _ _) as [|c|ch|] eqn:He; injection Hrun as <-.
    1-3: apply (sinv_move g PEnter); try done. 2: by apply sinv_dial.
    intros d0 [= <-]. unfold enter in He. destruct (closed _); [done|].
    destruct (conn _) as [c|]; [destruct (negb _); [done|]|]; destruct (dialing _); congruence.
  - destruct (callers s !! g) as [[| | | | | | |]|] eqn:Hp; try done. case_decide; [|done]. injection Hrun as <-. by eapply sinv_move.
  - destruct (callers s !! g) as [[| | | | | | |]|] eqn:Hp; try done. case_decide; [|done]. injection Hrun as <-. by eapply sinv_move.
  - destruct (callers s !! g) as [[| |ch i| | | | |]|] eqn:Hp; try done.
    destruct (dialOnce_open a (nextConn s) (open s)) as [[Er Eo]|[[e Er] Eo]];
      destruct (dialOnce a (nextConn s) (open s)) as [r o]; cbn in Er, Eo; subst r; injection Hrun as <-; eapply sinv_attempt; try done.
    + subst o. intros c [->%elem_of_singleton|]%elem_of_union; [by right|by left].
    + by intros c [= <-].
    + unfold afterFailure. by repeat case_match.
    + intros c Hin. left. by apply Eo.
    + unfold afterFailure. intros c. by repeat case_match.
  - destruct (callers s !! g) as [[| | |ch i| | | |]|] eqn:Hp; try done. injection Hrun as <-. by eapply sinv_move.
  - destruct (callers s !! g) as [[| | |ch i| | | |]|] eqn:Hp; try done. case_decide; [|done]. injection Hrun as <-. by eapply sinv_move.
  - destruct (callers s !! g) as [[| | |ch i| | | |]|] eqn:Hp; try done. destruct (closed _); [|done]. injection Hrun as <-. by eapply sinv_move.
  - destruct (callers s !! g) as [[| | | |ch r| | |]|] eqn:Hp; try done. destruct (publish r (session s)) as [[r' discard] x] eqn:Epub.
    injection Hrun as <-. by eapply sinv_publish.
  - destruct (callers s !! g) as [[| | | | |c|[c|]|]|] eqn:Hp; try done; injection Hrun as <-.
    + eapply (sinv_move g (PDiscard c)); [by apply sinv_closeConn|done|done| |done|done]. intros c0 [= <-]. right. cbn. set_solver.
    + eapply (sinv_move g (PClosing (Some c))); [by apply sinv_closeConn|done|done| |done|done]. intros c0 [= <-]. right. cbn. set_solver.
    + by eapply sinv_move.
Qed.

Lemma session_inv s : reachable s -> Inv s.
Proof. apply Reachable_invariant; [apply sinv_initial|]. intros s1 s2 _. apply sinv_step. Qed.

(** ** One dialer, and nobody waits for nothing *)

Definition dialer (s : State) (g : nat) : Prop := exists p ch, callers s !! g = Some p /\ dials p = Some ch.

(** The next step of a dialer. *)
Lemma dialer_runs s g p ch : callers s !! g = Some p -> dials p = Some ch ->
  exists lab s', run lab s = Some s' /\ (lab = LTimer g \/ lab = LPublish g \/ exists a e, lab = LAttempt g a e).
Proof.
  intros Hp Hd. destruct p as [| |ch' i|ch' i|ch' r| | |]; try done.
  - exists (LAttempt g (mkAttempt None None None) EOF). cbn. rewrite Hp. eauto 10.
  - exists (LTimer g). cbn. rewrite Hp. eauto 10.
  - exists (LPublish g). cbn. rewrite Hp. destruct (publish r (session s)) as [[]]. eauto 10.
Qed.

(** One dial at a time, and no lost wakeup.  However calls of Conn and
    Close, cancellations and dying connections interleave, at most one caller
    is dialing.  A caller that waits for it either finds the channel closed
    already, or the dialer it waits for is there, can take its next step, and
    closes that very channel when it publishes. *)
Theorem session_one_dialer s :
  reachable s ->
  (forall g1 g2, dialer s g1 -> dialer s g2 -> g1 = g2) /\
  (forall g ch, callers s !! g = Some (PWait ch) ->
     (exists s', run (LWoken g) s = Some s') \/
     exists g' p, callers s !! g' = Some p /\ dials p = Some ch /\ (exists lab s', run lab s = Some s' /\
       (lab = LTimer g' \/ lab = LPublish g' \/ exists a e, lab = LAttempt g' a e)) /\
     forall r s', p = PPublish ch r -> run (LPublish g') s = Some s' -> ch ∈ closedChans s').
Proof.
  intros Hr. pose proof (session_inv s Hr) as [Hd H1 Hg Hc Hw Ho Hcl Hst Hold]. split.
  - intros g1 g2 (p1 & c1 & Hp1 & Hd1) (p2 & c2 & Hp2 & Hd2). pose proof (Hd _ _ _ Hp1 Hd1). pose proof (Hd _ _ _ Hp2 Hd2).
    assert (c1 = c2) as -> by congruence. eauto.
  - intros g ch Hp. destruct (Hw g ch Hp) as [Hin|Hdial].
    + left. cbn. rewrite Hp, decide_True by done. eauto.
    + right. destruct (Hg ch Hdial) as ((g' & p & Hp' & Hd') & _ & _). exists g', p. split_and!; [done|done|by eapply dialer_runs|].
      intros r s' -> Hrun. cbn in Hrun. rewrite Hp' in Hrun. destruct (publish r (session s)) as [[]]. injection Hrun as <-. cbn. set_solver.
Qed.

(** ** After Close *)

Definition rank (p : pc) : nat :=
  match p with
  | PEnter | PDiscard _ | PClosing _ => 1 | PWait _ | PPublish _ _ => 2 | PDial _ _ => 3 | PSleep _ _ => 4 | PReturned _ => 0
  end.
Definition total (s : State) : nat := map_fold (fun _ p n => rank p + n)%nat 0%nat (callers s).

(** A step of the code, not of its environment. *)
Definition isCode (lab : label) : bool :=
  match lab with LConn _ | LClose _ | LCancel _ | LDies _ => false | _ => true end.
Definition codeStep (s s' : State) : Prop := exists lab, isCode lab = true /\ run lab s = Some s'.

Definition settled (s : State) : Prop := forall g p, callers s !! g = Some p -> exists r, p = PReturned r.

Lemma total_insert g p (m : gmap nat pc) : m !! g = None ->
  map_fold (fun _ p n => rank p + n)%nat 0%nat (<[g := p]> m) = (rank p + map_fold (fun _ p n => rank p + n) 0 m)%nat.
Proof. intros Hg. apply (map_fold_insert_L (fun _ p n => rank p + n)%nat); [|done]. intros. lia. Qed.

Lemma total_move g p p' (m : gmap nat pc) : m !! g = Some p ->
  (map_fold (fun _ p n => rank p + n) 0 (<[g := p']> m) + rank p = map_fold (fun _ p n => rank p + n) 0 m + rank p')%nat.
Proof.
  intros Hg. rewrite <- (insert_delete_id m g p Hg) at 2. rewrite <- insert_delete_eq.
  rewrite !total_insert by apply lookup_delete_eq. lia.
Qed.

(** While the session is closed, every step of the code brings a call nearer
    to its end. *)
Lemma code_decreases s s' : closed (session s) = true -> codeStep s s' ->
  closed (session s') = true /\ (total s' < total s)%nat.
Proof.
  intros Hcl (lab & Hcode & Hrun). assert (Hmove : forall g p p' x o n1 n2 cs cc, callers s !! g = Some p -> (rank p' < rank p)%nat ->
    (total (goTo g p' (mkState x o n1 n2 cs cc (callers s))) < total s)%nat).
  { intros g p p' x o n1 n2 cs cc Hp Hlt. pose proof (total_move g p p' (callers s) Hp). unfold total. cbn. lia. }
  destruct lab as [g|g|g|c|g|g|g e|g a ctxErr|g|g e|g|g|g]; try done; cbn in Hrun;
    destruct (callers s !! g) as [[|ch|ch i|ch i|ch r|c|[c|]|]|] eqn:Hp; try done.
  - unfold enter in Hrun. rewrite Hcl in Hrun. injection Hrun as <-. split; [done|]. by apply (Hmove g PEnter); [|cbn; lia].
  - case_decide; [|done]. injection Hrun as <-. split; [done|]. by apply (Hmove g (PWait ch)); [|cbn; lia].
  - case_decide; [|done]. injection Hrun as <-. split; [done|]. by apply (Hmove g (PWait ch)); [|cbn; lia].
  - destruct (dialOnce a (nextConn s) (open s)) as [[c|e] o]; injection Hrun as <-; (split; [done|]); apply (Hmove g (PDial ch i)); try done.
    + cbn. lia.
    + unfold afterFailure. cbn. rewrite Hcl. case_decide; cbn; lia.
  - injection Hrun as <-. split; [done|]. by apply (Hmove g (PSleep ch i)); [|cbn; lia].
  - case_decide; [|done]. injection Hrun as <-. split; [done|]. by apply (Hmove g (PSleep ch i)); [|cbn; lia].
  - rewrite Hcl in Hrun. injection Hrun as <-. split; [done|]. by apply (Hmove g (PSleep ch i)); [|cbn; lia].
  - unfold publish in Hrun. cbn in Hrun. rewrite Hcl in Hrun. injection Hrun as <-. split; [done|].
    apply (Hmove g (PPublish ch r)); [done|]. destruct r; cbn; lia.
  - injection Hrun as <-. split; [done|]. by apply (Hmove g (PDiscard c)); [|cbn; lia].
  - injection Hrun as <-. split; [done|]. by apply (Hmove g (PClosing (Some c))); [|cbn; lia].
  - injection Hrun as <-. split; [done|]. by apply (Hmove g (PClosing None)); [|cbn; lia].
Qed.

(** A call that has not returned can be brought nearer to its end, if need be
    by the dialer it waits for. *)
Lemma code_progress s g p : Inv s -> callers s !! g = Some p -> (forall r, p <> PReturned r) -> exists s', codeStep s s'.
Proof.
  intros [Hd H1 Hg Hc Hw Ho Hcl Hst Hold] Hp Hnr.
  assert (Hdial : forall g' p' ch, callers s !! g' = Some p' -> dials p' = Some ch -> exists s', codeStep s s').
  { intros g' p' ch Hp' Hd'. destruct (dialer_runs s g' p' ch Hp' Hd') as (lab & s' & Hrun & Hlab). exists s', lab.
    split; [|done]. destruct Hlab as [->|[->|(a & e & ->)]]; done. }
  assert (Hstep : forall lab s', isCode lab = true -> run lab s = Some s' -> exists s', codeStep s s').
  { intros lab s' Hl Hrun. exists s', lab. by split. }
  destruct p as [|ch|ch i|ch i|ch r|c|[c|]|r]; [|destruct (Hw g ch Hp) as [Hin|Hin]| | | | | | |].
  2:{ eapply (Hstep (LWoken g)); [done|]. cbn. rewrite Hp, decide_True by done. done. }
  2:{ destruct (Hg ch Hin) as ((g' & p' & Hp' & Hd') & _). eauto. }
  2-4: by eapply (Hdial g).
  - destruct (enter (isClosed s) (session s)) eqn:He; eapply (Hstep (LEnter g)); try done; cbn; rewrite Hp, He; done.
  - eapply (Hstep (LFinish g)); [done|]. cbn. by rewrite Hp.
  - eapply (Hstep (LFinish g)); [done|]. cbn. by rewrite Hp.
  - eapply (Hstep (LFinish g)); [done|]. cbn. by rewrite Hp.
  - by destruct (Hnr r).
Qed.

Lemma settled_or s : settled s \/ exists g p, callers s !! g = Some p /\ forall r, p <> PReturned r.
Proof.
  set (busy := fun p => match p with PReturned _ => false | _ => true end).
  destruct (decide (map_Forall (fun _ p => busy p = false) (callers s))) as [Ha|Ha].
  - left. intros g p Hp. specialize (Ha g p Hp). destruct p; try done. eauto.
  - right. apply map_not_Forall in Ha as (g & p & Hp & Hb); [|apply _]. exists g, p. split; [done|]. intros r ->. by apply Hb.
Qed.

Lemma rtc_code_inv s s' : Inv s -> closed (session s) = true -> rtc codeStep s s' -> Inv s' /\ closed (session s') = true.
Proof.
  intros Hi Hcl Hr. revert Hi Hcl. induction Hr as [|s s1 s' Hs _ IH]; [done|]. intros Hi Hcl.
  destruct (code_decreases _ _ Hcl Hs) as [Hcl1 _]. destruct Hs as (lab & _ & Hrun). apply IH; [|done]. eapply sinv_step; [done|by exists lab].
Qed.

(** C29: Close ends the session.  From any state the session was closed in, the
    calls in flight take at most [total] further steps (one attempt to dial
    among them for each dialer), whatever the dialer answers and the
    schedule; as long as a call has not returned, some step can be taken; and
    when all have returned no connection of the session is open: neither one
    that was being dialed during Close nor one that a caller was given. *)
Theorem session_close_settles s :
  reachable s -> closed (session s) = true ->
  (forall n s', nsteps codeStep n s s' -> (n <= total s)%nat) /\
  (forall s', rtc codeStep s s' -> (exists s'', codeStep s' s'') \/ settled s' /\ open s' = ∅).
Proof.
  intros Hr Hcl. pose proof (session_inv s Hr) as Hi. split.
  - intros n s' Hn. clear Hr Hi. revert Hcl. induction Hn as [|n s s1 s' Hs _ IH]; [lia|]. intros Hcl.
    destruct (code_decreases _ _ Hcl Hs) as [Hcl1 Hlt]. specialize (IH Hcl1). lia.
  - intros s' Hr'. destruct (rtc_code_inv _ _ Hi Hcl Hr') as [Hi' Hcl'].
    destruct (settled_or s') as [Hset|(g & p & Hp & Hnr)]; [right|left; by eapply code_progress].
    split; [done|]. apply set_eq. intros c. split; [|set_solver]. intros Hc. exfalso.
    destruct (inv_open _ Hi' c Hc) as [Hcon|(g & p & Hp & Hh)]; [by rewrite (inv_closed _ Hi' Hcl') in Hcon|].
    by destruct (Hset g p Hp) as [r ->].
Qed.

(** ** A run: one caller dials, one waits, one closes *)

Module Demo.
Definition ok : attempt := mkAttempt None None None.
Definition refused : attempt := mkAttempt (Some (ErrNet false)) None None.
Definition waiting : State :=
  default initial (runLabels run [LConn 0; LEnter 0; LConn 1; LEnter 1; LAttempt 0 refused EOF] initial).
Definition closing : State := default initial (runLabels run [LTimer 0; LAttempt 0 ok EOF; LClose 2] waiting).
(** A connection was handed out before Close. *)
Definition handedOut : State :=
  default initial (runLabels run [LConn 0; LEnter 0; LAttempt 0 ok EOF; LPublish 0; LClose 1; LFinish 1] initial).

Lemma session_reached labs s : runLabels run labs initial = Some s -> reachable s.
Proof. apply runLabels_Reachable; [|apply reach_init]. intros lab s1 s2 E. by exists lab. Qed.
End Demo.

Lemma session_one_dialer_witness :
  callers Demo.waiting !! 1%nat = Some (PWait 0) /\
  exists g' p, callers Demo.waiting !! g' = Some p /\ dials p = Some 0%nat.
Proof.
  split; [by vm_compute|].
  destruct (session_one_dialer Demo.waiting) as [_ Hw].
  { apply (Demo.session_reached [LConn 0; LEnter 0; LConn 1; LEnter 1; LAttempt 0 Demo.refused EOF]). by vm_compute. }
  destruct (Hw 1%nat 0%nat) as [(s' & E)|(g' & p & Hp & Hd & _)]; [by vm_compute|by vm_compute in E|eauto].
Defined.

Lemma session_close_settles_witness :
  (forall n s', nsteps codeStep n Demo.closing s' -> (n <= 5)%nat) /\ open Demo.closing = {[1%nat]} /\
  callers Demo.handedOut !! 0%nat = Some (PReturned (Ok (Some 0%nat))) /\ open Demo.handedOut = ∅.
Proof.
  split_and!; [|by vm_compute..].
  destruct (session_close_settles Demo.closing) as [Hn _]; [|by vm_compute|].
  { apply (Demo.session_reached [LConn 0; LEnter 0; LConn 1; LEnter 1; LAttempt 0 Demo.refused EOF; LTimer 0; LAttempt 0 Demo.ok EOF; LClose 2]).
    by vm_compute. }
  intros n s' Hs. specialize (Hn n s' Hs). assert (total Demo.closing = 5%nat) as E by (by vm_compute). lia.
Defined.
