(* ===== verification/Workers.v ===== *)
(** * The goroutines of a server connection

    [handleRequest], [readFrameLocked] and the shutdown of [server/conn.go]:
    goroutines that take turns to read from the connection under [recvMu],
    start a successor when nobody waits for the lock and the limit allows it,
    and then handle what they read outside the lock.  Each atomic operation
    and each section under the lock is a step; what is read, how a request
    ends and who gets a free lock are open. *)

From S2P Require Import Prelude.

(** What [readFrameLocked] returns: a Tversion, a frame that does not decode,
    or one to be handled outside the lock (a request, a Tflush, an unknown
    type).  A request may end the connection (duplicate tag). *)
Inductive frame : Type := FVersion | FBad | FRequest | FOther.

Inductive phase : Type :=
  | PTop                          (* before recvIdle.Add(1) *)
  | PWait                         (* in recvMu.Lock() *)
  | PLocked                       (* before recvIdle.Add(-1) *)
  | PCheck                        (* if c.recvShutdown *)
  | PRead                         (* readFrameLocked *)
  | PLoaded (f : frame) (none : bool)  (* recvIdle.Load() == 0 *)
  | PFrame (f : frame) (spawnReplacement : bool)
  | PGot (f : frame)              (* the successor is started *)
  | PBusy (f : frame)             (* outside recvMu *)
  | PShut | PShutLocked           (* shutdownRecv *)
  | PSignal                       (* signalRecvShutdown *)
  | PExit                         (* defer c.workerCount.Add(-1) *)
  | PDone.                        (* defer c.recvWG.Done() *)

#[export] Instance frame_eq_dec : EqDecision frame.
Proof. solve_decision. Defined.
#[export] Instance phase_eq_dec : EqDecision phase.
Proof. solve_decision. Defined.

Definition holding (p : phase) : bool :=
  match p with PLocked | PCheck | PRead | PLoaded _ _ | PFrame _ _ | PGot _ | PShutLocked => true | _ => false end.
(** On the way to the next frame. *)
Definition receptive (p : phase) : bool :=
  match p with PTop | PWait | PLocked | PCheck | PRead | PLoaded _ _ | PFrame _ _ | PGot FVersion => true | _ => false end.
Definition counted (p : phase) : nat := match p with PWait | PLocked => 1 | _ => 0 end.
Definition pending (p : phase) : nat := match p with PFrame _ true => 1 | _ => 0 end.

Record conn : Type := mkConn {
  recvMu : option nat;
  recvIdle : nat;
  recvShutdown : bool;
  recvShutdownCh : bool;   (* closed *)
  recvWG : nat;
  workerCount : nat;
  workers : gmap nat phase
}.

Section Workers.
Context (maxInflight : nat).

Definition goTo (g : nat) (p : phase) (s : conn) : conn :=
  mkConn (recvMu s) (recvIdle s) (recvShutdown s) (recvShutdownCh s) (recvWG s) (workerCount s) (<[g := p]> (workers s)).
Definition setMu (m : option nat) (s : conn) : conn :=
  mkConn m (recvIdle s) (recvShutdown s) (recvShutdownCh s) (recvWG s) (workerCount s) (workers s).
Definition setIdle (n : nat) (s : conn) : conn :=
  mkConn (recvMu s) n (recvShutdown s) (recvShutdownCh s) (recvWG s) (workerCount s) (workers s).
(** [c.recvShutdown = true; c.recvMu.Unlock()] *)
Definition shutUnlock (s : conn) : conn :=
  mkConn None (recvIdle s) true (recvShutdownCh s) (recvWG s) (workerCount s) (workers s).
Definition signalRecvShutdown (s : conn) : conn :=
  mkConn (recvMu s) (recvIdle s) (recvShutdown s) true (recvWG s) (workerCount s) (workers s).
Definition addWorker (s : conn) : conn :=
  mkConn (recvMu s) (recvIdle s) (recvShutdown s) (recvShutdownCh s) (S (recvWG s)) (S (workerCount s)) (workers s).

(** The decision under the lock; [workerCount] grows only there. *)
Definition spawns (f : frame) (none : bool) (s : conn) : bool :=
  match f with FVersion => false | _ => none && (workerCount s <? maxInflight)%nat end.

Inductive step : conn -> conn -> Prop :=
  | step_top g s : workers s !! g = Some PTop -> step s (goTo g PWait (setIdle (S (recvIdle s)) s))
  | step_lock g s : workers s !! g = Some PWait -> recvMu s = None -> step s (goTo g PLocked (setMu (Some g) s))
  | step_idle g s : workers s !! g = Some PLocked -> step s (goTo g PCheck (setIdle (pred (recvIdle s)) s))
  | step_leave g s : workers s !! g = Some PCheck -> recvShutdown s = true -> step s (goTo g PExit (setMu None s))
  | step_read g s : workers s !! g = Some PCheck -> recvShutdown s = false -> step s (goTo g PRead s)
  | step_fail g s : workers s !! g = Some PRead -> step s (goTo g PSignal (shutUnlock s))
  | step_frame g f s : workers s !! g = Some PRead -> step s (goTo g (PLoaded f (recvIdle s =? 0)%nat) s)
  | step_decide g f none s : workers s !! g = Some (PLoaded f none) ->
      step s (goTo g (PFrame f (spawns f none s)) (if spawns f none s then addWorker s else s))
  | step_spawn g g' f s : workers s !! g = Some (PFrame f true) -> workers s !! g' = None ->
      step s (goTo g (PGot f) (goTo g' PTop s))
  | step_alone g f s : workers s !! g = Some (PFrame f false) -> step s (goTo g (PGot f) s)
  | step_version g s : workers s !! g = Some (PGot FVersion) -> step s (goTo g PTop (setMu None s))
  | step_unlock g f s : workers s !! g = Some (PGot f) -> f <> FVersion -> step s (goTo g (PBusy f) (setMu None s))
  | step_handled g f s : workers s !! g = Some (PBusy f) -> f <> FBad -> step s (goTo g PTop s)
  | step_abort g f s : workers s !! g = Some (PBusy f) -> f = FBad \/ f = FRequest -> step s (goTo g PShut s)
  | step_shutLock g s : workers s !! g = Some PShut -> recvMu s = None -> step s (goTo g PShutLocked (setMu (Some g) s))
  | step_shut g s : workers s !! g = Some PShutLocked -> step s (goTo g PSignal (shutUnlock s))
  | step_signal g s : workers s !! g = Some PSignal -> step s (goTo g PExit (signalRecvShutdown s))
  | step_count g s : workers s !! g = Some PExit ->
      step s (goTo g PDone (mkConn (recvMu s) (recvIdle s) (recvShutdown s) (recvShutdownCh s) (recvWG s) (pred (workerCount s)) (workers s)))
  | step_done g s : workers s !! g = Some PDone ->
      step s (mkConn (recvMu s) (recvIdle s) (recvShutdown s) (recvShutdownCh s) (pred (recvWG s)) (workerCount s) (delete g (workers s)))
  (* serve, when its context ends *)
  | step_ctx s : step s (signalRecvShutdown s).

(** [serve] starts the first. *)
Definition serveStart : conn := mkConn None 0 false false 1 1 {[0%nat := PTop]}.
Definition reachable : conn -> Prop := Reachable serveStart step.
End Workers.

(** ** The invariant *)

Definition alive (p : phase) : nat := match p with PDone => 0 | _ => 1 end.
Definition one (p : phase) : nat := 1.
Lemma one_1 p : one p = 1%nat.
Proof. done. Qed.
Definition leaving (p : phase) : bool := match p with PSignal | PExit | PDone => true | _ => false end.
Definition reading (p : phase) : bool := match p with PRead | PLoaded _ _ | PFrame _ _ | PGot _ => true | _ => false end.
Definition queued (p : phase) : bool := match p with PTop | PWait => true | _ => false end.
(** Read a frame, will let the lock go, and starts no successor any more. *)
Definition parting (p : phase) : bool :=
  match p with PLoaded FVersion _ | PFrame FVersion _ | PGot FVersion => false | PLoaded _ false | PFrame _ false | PGot _ => true | _ => false end.

Section Invariant.
Context (maxInflight : nat).

Definition another (P : phase -> bool) (g : nat) (s : conn) : Prop :=
  exists g' p, g' <> g /\ workers s !! g' = Some p /\ P p = true.

Record Inv (s : conn) : Prop := {
  i_mu g : recvMu s = Some g <-> exists p, workers s !! g = Some p /\ holding p = true;
  i_idle : recvIdle s = weigh counted (workers s);
  i_count : workerCount s = (weigh alive (workers s) + weigh pending (workers s))%nat;
  i_wg : recvWG s = (weigh one (workers s) + weigh pending (workers s))%nat;
  i_max : (workerCount s <= maxInflight)%nat;
  i_stay g p : recvShutdown s = false -> workers s !! g = Some p -> leaving p = false;
  i_stop g p : recvShutdown s = true -> workers s !! g = Some p -> reading p = false;
  i_next g p : recvShutdown s = false -> workers s !! g = Some p -> parting p = true ->
    another queued g s \/ workerCount s = maxInflight;
  i_recv : recvShutdown s = false -> (exists g p, workers s !! g = Some p /\ receptive p = true) \/ workerCount s = maxInflight
}.

Section Move.
Context (s : conn) (Hi : Inv s) (g : nat) (p p' : phase) (Hg : workers s !! g = Some p).
Context (mu' : option nat) (idle' : nat) (sh' ch' : bool) (wg' wc' : nat).
Context (Hmu : (mu' = recvMu s /\ holding p' = holding p) \/ (recvMu s = None /\ mu' = Some g /\ holding p' = true) \/
  (holding p = true /\ mu' = None /\ holding p' = false)).
Context (Hidle : (idle' + counted p = recvIdle s + counted p')%nat).
Context (Hcount : (wc' + alive p + pending p = workerCount s + alive p' + pending p')%nat) (Hmax : (wc' <= maxInflight)%nat).
Context (Hwg : (wg' + pending p = recvWG s + pending p')%nat).
Context (Hsh : recvShutdown s = true -> sh' = true).
Context (Hstay : sh' = false -> leaving p' = false /\ (workerCount s <= wc')%nat).
Context (Hstop : sh' = true -> reading p' = false /\ (recvShutdown s = true \/ holding p = true)).
Context (Hnext : sh' = false -> parting p' = true -> parting p = true \/ another queued g s \/ wc' = maxInflight).
Context (Hqueue : sh' = false -> queued p = true -> queued p' = true \/ recvMu s = None).
Context (Hrecv : sh' = false -> receptive p' = true \/ wc' = maxInflight \/ parting p = true \/ receptive p = false).

Lemma inv_move : Inv (mkConn mu' idle' sh' ch' wg' wc' (<[g := p']> (workers s))).
Proof.
  pose proof Hi as [Imu Iidle Icount Iwg Imax Istay Istop Inext Irecv].
  assert (Hmax' : sh' = false -> workerCount s = maxInflight -> wc' = maxInflight) by (intros Hf ?; destruct (Hstay Hf); lia).
  assert (Hother : forall P : phase -> bool, another P g s -> exists g' q, g' <> g /\ <[g := p']> (workers s) !! g' = Some q /\ P q = true).
  { intros P (g' & q & Hne & Hq & HP). exists g', q. by rewrite lookup_insert_ne. }
  assert (Hsf : sh' = false -> recvShutdown s = false) by (destruct (recvShutdown s); [intros ->; by rewrite Hsh|done]).
  split; cbn.
  - intros h. destruct (decide (h = g)) as [->|Hne].
    + rewrite lookup_insert_eq. specialize (Imu g). destruct Hmu as [[-> Hh]|[(Hn & -> & Hh)|(Hh & -> & Hh')]]; [rewrite Imu| |].
      * split; intros (q & Hq & Hhq).
        -- exists p'. split; [done|]. rewrite Hg in Hq. injection Hq as <-. by rewrite Hh.
        -- exists p. split; [done|]. injection Hq as <-. by rewrite <- Hh.
      * split; [eauto|done].
      * split; [done|]. intros (q & Hq & Hhq). congruence.
    + rewrite lookup_insert_ne by done. pose proof (Imu h) as Imh. pose proof (Imu g) as Img.
      destruct Hmu as [[-> _]|[(Hn & -> & _)|(Hh & -> & _)]]; [done| |].
      { split; [congruence|]. intros Hp. apply Imh in Hp. congruence. }
      split; [done|]. intros Hp. apply Imh in Hp. pose proof (proj2 Img (ex_intro _ p (conj Hg Hh))). congruence.
  - pose proof (weigh_move counted g p p' _ Hg). lia.
  - pose proof (weigh_move alive g p p' _ Hg). pose proof (weigh_move pending g p p' _ Hg). lia.
  - pose proof (weigh_move one g p p' _ Hg) as H1. rewrite !one_1 in H1. pose proof (weigh_move pending g p p' _ Hg). lia.
  - done.
  - intros h q Hf [[<- <-]|[_ Hq]]%lookup_insert_Some; [by apply Hstay|]. by apply (Istay h); auto.
  - intros h q Ht [[<- <-]|[Hne Hq]]%lookup_insert_Some; [by apply Hstop|].
    destruct (proj2 (Hstop Ht)) as [Hs|Hs]; [by apply (Istop h)|]. destruct (reading q) eqn:Er; [|done].
    assert (Hh : holding q = true) by (by destruct q). pose proof (proj2 (Imu h) (ex_intro _ q (conj Hq Hh))).
    pose proof (proj2 (Imu g) (ex_intro _ p (conj Hg Hs))). congruence.
  - intros h q Hf [[<- <-]|[Hne Hq]]%lookup_insert_Some Hpart.
    + destruct (Hnext Hf Hpart) as [Hp|[Ha|Hm]]; [|left; by apply Hother|by right].
      destruct (Inext g p (Hsf Hf) Hg Hp) as [Ha|Hm]; [left; by apply Hother|right; auto].
    + destruct (Inext h q (Hsf Hf) Hq Hpart) as [(g' & q' & Hne' & Hq' & HP)|Hm]; [left|right; auto].
      destruct (decide (g' = g)) as [->|]; [|exists g', q'; cbn; by rewrite lookup_insert_ne].
      exists g, p'. cbn. rewrite lookup_insert_eq. split_and!; [done|done|]. rewrite Hg in Hq'. injection Hq' as <-.
      destruct (Hqueue Hf HP) as [|Hmn]; [done|]. assert (Hh : holding q = true) by (by destruct q as [| | | | |[]|[]|[]| | | | | |]).
      pose proof (proj2 (Imu h) (ex_intro _ q (conj Hq Hh))). congruence.
  - intros Hf. destruct (Hrecv Hf) as [Hp|[Hm|[Hp|Hp]]]; [left; exists g, p'; by rewrite lookup_insert_eq|by right| |].
    + destruct (Inext g p (Hsf Hf) Hg Hp) as [(g' & q & Hne & Hq & HP)|Hm]; [left|right; auto].
      exists g', q. rewrite lookup_insert_ne by done. split; [done|]. by destruct q.
    + destruct (Irecv (Hsf Hf)) as [(g' & q & Hq & HP)|Hm]; [left|right; auto].
      destruct (decide (g' = g)) as [->|]; [congruence|]. exists g', q. by rewrite lookup_insert_ne.
Qed.
End Move.

Lemma counted_lock s g : Inv s -> workers s !! g = Some PLocked -> (0 < recvIdle s)%nat.
Proof. intros Hi Hg. rewrite (i_idle _ Hi). pose proof (weigh_le counted g _ _ Hg). cbn in *. lia. Qed.
Lemma counted_alive s g p : Inv s -> workers s !! g = Some p -> alive p = 1%nat -> (0 < workerCount s)%nat.
Proof. intros Hi Hg Hp. rewrite (i_count _ Hi). pose proof (weigh_le alive g _ _ Hg). lia. Qed.
Lemma held_by s g h p q : Inv s -> workers s !! g = Some p -> holding p = true ->
  workers s !! h = Some q -> holding q = true -> h = g.
Proof.
  intros Hi Hg Hp Hh Hq. pose proof (proj2 (i_mu _ Hi g) (ex_intro _ p (conj Hg Hp))).
  pose proof (proj2 (i_mu _ Hi h) (ex_intro _ q (conj Hh Hq))). congruence.
Qed.

(** Under the lock, a positive [recvIdle] is somebody waiting for it. *)
Lemma idle_waits s g p : Inv s -> workers s !! g = Some p -> holding p = true -> counted p = 0%nat -> recvIdle s <> 0%nat ->
  another queued g s.
Proof.
  intros Hi Hg Hp Hc Hn. destruct (weigh_some counted (workers s)) as (h & q & Hh & Hq); [rewrite <- (i_idle _ Hi); lia|].
  exists h, q. destruct q; cbn in Hq; try lia.
  - split_and!; [|done|done]. intros ->. rewrite Hg in Hh. by injection Hh as ->.
  - pose proof (held_by s g h p _ Hi Hg Hp Hh eq_refl) as ->. rewrite Hg in Hh. injection Hh as ->. cbn in Hc. lia.
Qed.

Lemma inv_spawn s g g' f : Inv s -> workers s !! g = Some (PFrame f true) -> workers s !! g' = None ->
  Inv (goTo g (PGot f) (goTo g' PTop s)).
Proof.
  intros Hi Hg Hg'. assert (Hne : g <> g') by congruence.
  assert (Hg1 : <[g' := PTop]> (workers s) !! g = Some (PFrame f true)) by (by rewrite lookup_insert_ne).
  assert (HW : forall w, (weigh w (<[g := PGot f]> (<[g' := PTop]> (workers s))) + w (PFrame f true) = weigh w (workers s) + w PTop + w (PGot f))%nat).
  { intros w. rewrite (weigh_move w g _ _ _ Hg1), weigh_insert by done. lia. }
  assert (Hnew : <[g := PGot f]> (<[g' := PTop]> (workers s)) !! g' = Some PTop) by (by rewrite lookup_insert_ne, lookup_insert_eq).
  pose proof Hi as [Imu Iidle Icount Iwg Imax Istay Istop Inext Irecv].
  split; cbn.
  - intros h. rewrite Imu. destruct (decide (h = g)) as [->|]; [|destruct (decide (h = g')) as [->|]].
    + rewrite lookup_insert_eq, Hg. split; intros _; eauto.
    + rewrite Hnew, Hg'. split; intros (q & Hq & Hh); [done|]. injection Hq as <-. done.
    + by rewrite !lookup_insert_ne.
  - specialize (HW counted). cbn in HW. lia.
  - pose proof (HW alive) as H1. pose proof (HW pending) as H2. cbn in H1, H2. lia.
  - pose proof (HW one) as H1. pose proof (HW pending) as H2. rewrite !one_1 in H1. cbn in H2. lia.
  - done.
  - intros h q Hf [[<- <-]|[_ [[<- <-]|[_ Hq]]%lookup_insert_Some]]%lookup_insert_Some; [done|done|by apply (Istay h)].
  - intros h q Ht [[<- <-]|[_ [[<- <-]|[_ Hq]]%lookup_insert_Some]]%lookup_insert_Some; [|done|by apply (Istop h)].
    pose proof (Istop g _ Ht Hg). done.
  - intros h q Hf [[<- <-]|[Hn [[<- <-]|[_ Hq]]%lookup_insert_Some]]%lookup_insert_Some Hpart; [|done|].
    + left. by exists g', PTop.
    + exfalso. apply Hn. symmetry. apply (held_by s g h _ q Hi Hg eq_refl Hq). by destruct q as [| | | | |[]|[]|[]| | | | | |].
  - intros _. left. by exists g', PTop.
Qed.

Lemma inv_done s g : Inv s -> workers s !! g = Some PDone ->
  Inv (mkConn (recvMu s) (recvIdle s) (recvShutdown s) (recvShutdownCh s) (pred (recvWG s)) (workerCount s) (delete g (workers s))).
Proof.
  intros Hi Hg. pose proof Hi as [Imu Iidle Icount Iwg Imax Istay Istop Inext Irecv].
  assert (HW : forall w, (weigh w (delete g (workers s)) + w PDone = weigh w (workers s))%nat) by (intros w; by apply weigh_delete).
  assert (Hs : recvShutdown s = true) by (destruct (recvShutdown s) eqn:E; [done|]; by pose proof (Istay g _ eq_refl Hg)).
  split; cbn; try congruence.
  - intros h. rewrite Imu. destruct (decide (h = g)) as [->|]; [rewrite lookup_delete_eq, Hg|by rewrite lookup_delete_ne].
    split; intros (q & Hq & Hh); [by injection Hq as <-|done].
  - specialize (HW counted). cbn in HW. lia.
  - pose proof (HW alive) as H1. pose proof (HW pending) as H2. cbn in H1, H2. lia.
  - pose proof (HW one) as H1. pose proof (HW pending) as H2. rewrite !one_1 in H1. cbn in H2. lia.
  - intros h q _ [_ Hq]%lookup_delete_Some. by apply (Istop h).
Qed.
Lemma spawns_max f s : Inv s -> spawns maxInflight f true s = false -> f = FVersion \/ workerCount s = maxInflight.
Proof.
  intros Hi. pose proof (i_max _ Hi) as Hm. unfold spawns. destruct f; [by intros _; left|..]; rewrite andb_true_l;
    (destruct (Nat.ltb_spec (workerCount s) maxInflight); [discriminate|intros _; right; lia]).
Qed.

Lemma spawns_below f none s : spawns maxInflight f none s = true -> (S (workerCount s) <= maxInflight)%nat.
Proof. unfold spawns. destruct f; [done|..]; intros [_ H%Nat.ltb_lt]%andb_prop; lia. Qed.

(** The side conditions of [inv_move] that computation settles. *)
Ltac settle_move :=
  cbn; intros; repeat match goal with
  | H : recvShutdown ?s = _, H' : recvShutdown ?s = _ -> _ |- _ => specialize (H' H); cbn in H'
  end; try discriminate; try congruence; split_and?;
  first [done | lia | by left | by right; left | by right; right; left | by right; right; right | left; split_and!; done
    | right; left; split_and!; done | right; right; split_and!; done | right; done].
Ltac moved Hi g Hg :=
  pose proof (i_max _ Hi); pose proof (fun H => i_stop _ Hi g _ H Hg);
  pose proof (fun H => i_stay _ Hi g _ H Hg);
  unfold goTo, setMu, setIdle, shutUnlock, signalRecvShutdown, addWorker; cbn;
  eapply (inv_move _ Hi g _ _ Hg); try solve [settle_move];
  try solve [match goal with f : frame |- _ => destruct f; settle_move end].

Lemma workers_step_inv s s' : Inv s -> step maxInflight s s' -> Inv s'.
Proof.
  intros Hi Hst. destruct Hst as [g s Hg|g s Hg Hm|g s Hg|g s Hg Hs|g s Hg Hs|g s Hg|g f s Hg|g f none s Hg|g g' f s Hg Hg'
    |g f s Hg|g s Hg|g f s Hg Hf|g f s Hg Hf|g f s Hg Hf|g s Hg Hm|g s Hg|g s Hg|g s Hg|g s Hg|s].
  - moved Hi g Hg.
  - moved Hi g Hg.
  - pose proof (counted_lock s g Hi Hg). moved Hi g Hg.
  - moved Hi g Hg.
  - moved Hi g Hg.
  - moved Hi g Hg.
  - moved Hi g Hg. cbn. intros _ Hp. destruct (Nat.eqb_spec (recvIdle s) 0) as [_|Hn]; [by destruct f|].
    right. left. by apply (idle_waits s g _ Hi Hg).
  - destruct (spawns maxInflight f none s) eqn:Es; moved Hi g Hg; cbn.
    + by apply (spawns_below f none).
    + intros _ Hp. destruct none; [|left; by destruct f].
      destruct (spawns_max f s Hi Es) as [->|]; [done|by right; right].
  - by apply inv_spawn.
  - moved Hi g Hg.
  - moved Hi g Hg.
  - moved Hi g Hg.
  - moved Hi g Hg.
  - moved Hi g Hg.
  - moved Hi g Hg.
  - moved Hi g Hg.
  - moved Hi g Hg.
  - pose proof (counted_alive s g _ Hi Hg eq_refl). moved Hi g Hg.
  - by apply inv_done.
  - by destruct Hi.
Qed.

Lemma inv_reach s : (1 <= maxInflight)%nat -> reachable maxInflight s -> Inv s.
Proof.
  intros Hm. unfold reachable. induction 1 as [|s s' _ IH Hst]; [|by apply (workers_step_inv s)]. unfold serveStart.
  assert (HW : forall w, weigh w {[0%nat := PTop]} = w PTop) by (intros w; apply weigh_singleton).
  split; cbn; rewrite ?HW; try done.
  - intros g. split; [done|]. intros (p & [<- <-]%lookup_singleton_Some & Hh). done.
  - by intros g p _ [<- <-]%lookup_singleton_Some.
  - by intros g p _ [<- <-]%lookup_singleton_Some.
  - intros _. left. by exists 0%nat, PTop.
Qed.

(** ** Progress and draining *)

(** A step of a goroutine. *)
Definition worker_step (s s' : conn) : Prop := step maxInflight s s' /\ workers s' <> workers s.

Lemma took_step s s' g p : workers s !! g = Some p -> workers s' !! g <> Some p -> step maxInflight s s' -> exists s', worker_step s s'.
Proof. intros Hg Hn Hst. exists s'. split; [done|]. intros He. rewrite He in Hn. done. Qed.

Ltac took Hg step := eapply (took_step _ _ _ _ Hg); [|apply step]; cbn; rewrite ?lookup_insert_eq, ?lookup_delete_eq; done.

(** A goroutine that holds the lock, or any when the lock is free, can go on. *)
Lemma enabled s g p : workers s !! g = Some p -> holding p = true \/ recvMu s = None -> exists s', worker_step s s'.
Proof.
  intros Hg Hl. assert (Hfree : holding p = false -> recvMu s = None) by (intros Hp; destruct Hl; [congruence|done]).
  destruct p as [| | | | |f none|f [|]|f|f| | | | |].
  - took Hg (step_top maxInflight g s Hg).
  - took Hg (step_lock maxInflight g s Hg (Hfree eq_refl)).
  - took Hg (step_idle maxInflight g s Hg).
  - destruct (recvShutdown s) eqn:E; [took Hg (step_leave maxInflight g s Hg E)|took Hg (step_read maxInflight g s Hg E)].
  - took Hg (step_fail maxInflight g s Hg).
  - took Hg (step_decide maxInflight g f none s Hg).
  - took Hg (step_spawn maxInflight g _ f s Hg (proj1 (not_elem_of_dom (workers s) _) (is_fresh (dom (workers s))))).
  - took Hg (step_alone maxInflight g f s Hg).
  - destruct f; [took Hg (step_version maxInflight g s Hg)|..]; by took Hg (step_unlock maxInflight g _ s Hg).
  - destruct f; [| |..]; first [by took Hg (step_handled maxInflight g _ s Hg)|took Hg (step_abort maxInflight g _ s Hg (or_introl eq_refl))].
  - took Hg (step_shutLock maxInflight g s Hg (Hfree eq_refl)).
  - took Hg (step_shut maxInflight g s Hg).
  - took Hg (step_signal maxInflight g s Hg).
  - took Hg (step_count maxInflight g s Hg).
  - took Hg (step_done maxInflight g s Hg).
Qed.

Lemma progress s : Inv s -> workers s <> ∅ -> exists s', worker_step s s'.
Proof.
  intros Hi Hne. destruct (recvMu s) as [g|] eqn:Em.
  - destruct (proj1 (i_mu _ Hi g) Em) as (p & Hg & Hp). apply (enabled s g p Hg). by left.
  - destruct (map_choose _ Hne) as (g & p & Hg). apply (enabled s g p Hg). by right.
Qed.

(** How far a goroutine is from its end once [recvShutdown] is set. *)
Definition rank (p : phase) : nat :=
  match p with
  | PBusy _ => 8 | PTop | PShut => 7 | PWait | PShutLocked => 6 | PLocked | PSignal => 5 | PCheck => 4
  | PExit => 2 | PDone => 1 | _ => 0
  end.

Lemma workers_drain_step s s' : Inv s -> recvShutdown s = true -> worker_step s s' ->
  recvShutdown s' = true /\ (weigh rank (workers s') < weigh rank (workers s))%nat.
Proof.
  intros Hi Hs [Hst Hw]. pose proof (i_stop _ Hi) as Hno.
  destruct Hst as [g s Hg|g s Hg Hm|g s Hg|g s Hg Hs'|g s Hg Hs'|g s Hg|g f s Hg|g f none s Hg|g g' f s Hg Hg'
    |g f s Hg|g s Hg|g f s Hg Hf|g f s Hg Hf|g f s Hg Hf|g s Hg Hm|g s Hg|g s Hg|g s Hg|g s Hg|s]; [..|done];
    pose proof (Hno g _ Hs Hg) as Hr; try discriminate Hr; try congruence; cbn; split; try done;
    try (match goal with |- (weigh rank (<[_ := ?p']> _) < _)%nat => pose proof (weigh_move rank g _ p' _ Hg) as HW end; cbn in HW; lia).
  pose proof (weigh_delete rank g _ _ Hg) as HW. cbn in HW. lia.
Qed.

Lemma weigh_one m : weigh one m = size m.
Proof.
  induction m as [|g p m Hg IH] using map_ind; [done|]. rewrite weigh_insert by done. rewrite IH. by rewrite map_size_insert_None.
Qed.

Lemma all_busy s : Inv s -> recvShutdown s = false -> (forall g p, workers s !! g = Some p -> receptive p = false) ->
  size (workers s) = workerCount s.
Proof.
  intros Hi Hs Hall. rewrite (i_count _ Hi), <- weigh_one, <- (weigh_eq alive one).
  - destruct (decide (weigh pending (workers s) = 0%nat)) as [->|Hp]; [lia|].
    destruct (weigh_some pending (workers s)) as (g & p & Hg & Hpos); [lia|]. pose proof (Hall g p Hg). by destruct p as [| | | | | | |[]| | | | | |]; cbn in *; try lia.
  - intros g p Hg. pose proof (i_stay _ Hi g p Hs Hg). by destruct p.
Qed.

(** C31: In every reachable state of a connection's goroutines: no more than
    [maxInflight] are counted; the wait group covers every one that runs; at
    most one holds the receive lock; until the receive side is shut down, some
    goroutine is on its way to the next frame, or all [maxInflight] of them
    are handling what they read; and no set of goroutines is stuck on the
    lock: as long as one is left, some goroutine can go on. *)
Theorem workers_receive s (Hmax : (1 <= maxInflight)%nat) (Hreach : reachable maxInflight s) :
  (workerCount s <= maxInflight)%nat /\ (size (workers s) <= recvWG s)%nat /\
  (forall g h p q, workers s !! g = Some p -> workers s !! h = Some q -> holding p = true -> holding q = true -> g = h) /\
  (recvShutdown s = false ->
    (exists g p, workers s !! g = Some p /\ receptive p = true) \/
    (size (workers s) = maxInflight /\ forall g p, workers s !! g = Some p -> receptive p = false)) /\
  (workers s <> ∅ -> exists s', worker_step s s').
Proof.
  pose proof (inv_reach s Hmax Hreach) as Hi. split_and!.
  - by apply i_max.
  - rewrite (i_wg _ Hi), weigh_one. lia.
  - intros g h p q Hg Hh Hp Hq. by apply (held_by s h g q p).
  - intros Hs. destruct (decide (map_Exists (fun _ p => receptive p = true) (workers s))) as [Hex|Hno]; [by left|].
    assert (Hall : forall g p, workers s !! g = Some p -> receptive p = false)
      by (intros g p Hg; destruct (receptive p) eqn:E; [destruct Hno; by exists g, p|done]).
    right. split; [|done]. rewrite all_busy by done. destruct (i_recv _ Hi Hs) as [Hr|]; [by destruct Hno|done].
  - by apply progress.
Qed.

(** Once [recvShutdown] is set the goroutines drain: none reads or starts
    another, every run of their steps is at most as long as their ranks add up
    to, and a run that cannot go on has ended all of them: [recvWG.Wait] then
    returns, the count is back at zero and the lock is free. *)
Theorem workers_drain s n s' (Hmax : (1 <= maxInflight)%nat) (Hreach : reachable maxInflight s) (Hshut : recvShutdown s = true)
    (Hrun : nsteps worker_step n s s') :
  (n <= weigh rank (workers s))%nat /\
  ((forall s'', ~ worker_step s' s'') -> workers s' = ∅ /\ recvWG s' = 0%nat /\ workerCount s' = 0%nat /\ recvMu s' = None).
Proof.
  pose proof (inv_reach s Hmax Hreach) as Hi. clear Hreach.
  induction Hrun as [s|n s s1 s' Hst Hrun IH].
  - split; [lia|]. intros Hend.
    assert (He : workers s = ∅) by (destruct (decide (workers s = ∅)); [done|]; destruct (progress s Hi) as [s2 H2]; [done|]; by destruct (Hend s2)).
    pose proof (i_wg _ Hi) as Hwg. pose proof (i_count _ Hi) as Hc. rewrite He in Hwg, Hc. cbn in Hwg, Hc. split_and!; try done.
    destruct (recvMu s) as [g|] eqn:Em; [|done]. apply (i_mu _ Hi) in Em as (p & Hp & _). by rewrite He in Hp.
  - destruct (workers_drain_step s s1 Hi Hshut Hst) as [Hs1 Hlt]. destruct (IH Hs1 (workers_step_inv s s1 Hi (proj1 Hst))) as [Hn Hend].
    split; [lia|done].
Qed.
End Invariant.

(** With [WithMaxInflight(1)] the connection has one goroutine: it reads a
    frame, handles it and comes back for the next. *)
Theorem workers_single s : reachable 1 s -> (size (workers s) <= 1)%nat.
Proof.
  revert s. apply Reachable_invariant; [by vm_compute|]. intros s s' Hr Hle Hst.
  pose proof (inv_reach 1 s ltac:(lia) Hr) as Hi.
  assert (Hsame : forall g p p', workers s !! g = Some p -> (size (<[g := p']> (workers s)) <= 1)%nat)
    by (intros g p p' Hg; by rewrite map_size_insert_Some by (by eexists)).
  destruct Hst as [g s Hg|g s Hg Hm|g s Hg|g s Hg Hs'|g s Hg Hs'|g s Hg|g f s Hg|g f none s Hg|g g' f s Hg Hg'
    |g f s Hg|g s Hg|g f s Hg Hf|g f s Hg Hf|g f s Hg Hf|g s Hg Hm|g s Hg|g s Hg|g s Hg|g s Hg|s];
    cbn; try (by eapply Hsame); try done.
  - destruct (spawns 1 f none s); cbn; by eapply Hsame.
  - pose proof (i_max _ _ Hi) as Hmax. rewrite (i_count _ _ Hi) in Hmax.
    pose proof (weigh_le alive g _ _ Hg). pose proof (weigh_le pending g _ _ Hg). cbn in *. lia.
  - rewrite map_size_delete_Some by (by eexists). lia.
Qed.

Tactic Notation "walk" ident(R) uconstr(st) :=
  let R' := fresh in unshelve epose proof (reach_step _ _ _ _ R st) as R'; [done..|clear R; rename R' into R].

(** The first goroutine starts a second on its first request and handles it. *)
Lemma workers_receive_witness :
  let s := mkConn None 0 false false 2 2 {[0%nat := PBusy FRequest; 1%nat := PTop]} in
  reachable 2 s /\ (workerCount s <= 2)%nat /\ exists s', worker_step 2 s s'.
Proof.
  intros s. assert (Hr : reachable 2 s).
  { pose proof (reach_init serveStart (step 2)) as R.
    walk R (step_top 2 0 _ _).
    walk R (step_lock 2 0 _ _ _).
    walk R (step_idle 2 0 _ _).
    walk R (step_read 2 0 _ _ _).
    walk R (step_frame 2 0 FRequest _ _).
    walk R (step_decide 2 0 FRequest true _ _).
    walk R (step_spawn 2 0 1 FRequest _ _ _).
    walk R (step_unlock 2 0 FRequest _ _ _).
    exact R. }
  split; [done|]. destruct (workers_receive 2 s ltac:(lia) Hr) as (Hc & _ & _ & _ & Hp). split; [done|]. by apply Hp.
Defined.

(** The read fails: the only goroutine leaves. *)
Lemma workers_drain_witness :
  let s := mkConn None 0 true false 1 1 {[0%nat := PSignal]} in
  let s' := mkConn None 0 true true 0 0 ∅ in
  nsteps (worker_step 1) 3 s s' /\ (3 <= weigh rank (workers s))%nat /\ recvWG s' = 0%nat.
Proof.
  intros s s'. assert (Hr : reachable 1 s).
  { pose proof (reach_init serveStart (step 1)) as R.
    walk R (step_top 1 0 _ _).
    walk R (step_lock 1 0 _ _ _).
    walk R (step_idle 1 0 _ _).
    walk R (step_read 1 0 _ _ _).
    walk R (step_fail 1 0 _ _).
    exact R. }
  assert (Hn : nsteps (worker_step 1) 3 s s').
  { eapply nsteps_l; [split; [by eapply (step_signal 1 0)|done]|]. eapply nsteps_l; [split; [by eapply (step_count 1 0)|done]|].
    eapply nsteps_l; [split; [by eapply (step_done 1 0)|done]|]. apply nsteps_O. }
  split; [done|]. destruct (workers_drain 1 s 3 s' ltac:(lia) Hr eq_refl Hn) as [Hle Hend]. split; [done|].
  apply Hend. intros s'' [Hst Hw]. inversion Hst; subst; done.
Defined.
