(* ===== verification/Teardown.v ===== *)
(** * The end of a server connection

    [serve] after its select and [cleanup] ([server/conn.go],
    [server/cleanup.go]) beside the goroutines of [Workers]: the contexts of
    the registered requests are cancelled, the in-flight count is waited for,
    the connection closed, the goroutines waited for, and the fids released
    ([Namespace.cleanupFids]).  A goroutine that has read a request registers
    it in the in-flight map only later, so the steps in between are explicit.
    When a deadline fires is open. *)

From S2P Require Import Prelude.
From S2P Require Import FidTable.
From S2P Require Import Bridge.
From S2P Require Import Inode.
From S2P Require Import Namespace.
From S2P Require Import Workers.

(** A request after [inflight.start]: its handler runs ([flushed]: its context
    is cancelled), or its entry is gone again. *)
Inductive request : Type := RRunning (flushed : bool) | RDone.
#[export] Instance request_eq_dec : EqDecision request.
Proof. solve_decision. Defined.
Definition running (r : request) : bool := match r with RRunning _ => true | RDone => false end.

Inductive cleanupPhase : Type :=
  | CServe                              (* the select of serve *)
  | CCancel                             (* step 1 *)
  | CDrain                              (* step 2: waitWithDeadline *)
  | CWait                               (* parked on the drain channel *)
  | CClose (drained : bool)             (* step 3 *)
  | CRecv (drained : bool)              (* step 4 *)
  | CClunk (drained waited : bool)      (* step 5 *)
  | CDone (drained waited : bool).

Record teardown : Type := mkT {
  core : conn;
  requests : gmap nat request;
  cleanup : cleanupPhase
}.

Section Teardown.
Context (maxInflight : nat).

(** A goroutine leaves its request handled, or refused as a duplicate. *)
Definition paced (rs : gmap nat request) (c c' : conn) : Prop := map_Forall (fun g p => p = PBusy FRequest ->
  workers c' !! g = Some (PBusy FRequest) \/
  (workers c' !! g = Some PTop /\ rs !! g = Some RDone) \/
  (workers c' !! g = Some PShut /\ rs !! g = None)) (workers c).
(** The requests of the goroutines that are still busy with one. *)
Definition keep (c : conn) (rs : gmap nat request) : gmap nat request :=
  filter (fun gr => workers c !! gr.1 = Some (PBusy FRequest)) rs.
(** [cancelAll] *)
Definition cancelAll (rs : gmap nat request) : gmap nat request :=
  (fun r => match r with RRunning _ => RRunning true | RDone => RDone end) <$> rs.
Definition drainedNow (rs : gmap nat request) : Prop := map_Forall (fun _ r => running r = false) rs.

Inductive tstep : teardown -> teardown -> Prop :=
  | t_worker c c' rs p : step maxInflight c c' -> paced rs c c' -> tstep (mkT c rs p) (mkT c' (keep c' rs) p)
  | t_start g c rs p : workers c !! g = Some (PBusy FRequest) -> rs !! g = None ->
      tstep (mkT c rs p) (mkT c (<[g := RRunning false]> rs) p)
  | t_finish g f c rs p : rs !! g = Some (RRunning f) -> tstep (mkT c rs p) (mkT c (<[g := RDone]> rs) p)
  | t_shutdown c rs : recvShutdownCh c = true -> tstep (mkT c rs CServe) (mkT c rs CCancel)
  | t_cancel c rs : tstep (mkT c rs CCancel) (mkT c (cancelAll rs) CDrain)
  | t_none c rs : drainedNow rs -> tstep (mkT c rs CDrain) (mkT c rs (CClose true))
  | t_park c rs : ~ drainedNow rs -> tstep (mkT c rs CDrain) (mkT c rs CWait)
  | t_drained c rs : drainedNow rs -> tstep (mkT c rs CWait) (mkT c rs (CClose true))
  | t_expired c rs : tstep (mkT c rs CWait) (mkT c rs (CClose false))
  | t_close d c rs : tstep (mkT c rs (CClose d)) (mkT c rs (CRecv d))
  | t_recv c rs : recvWG c = 0%nat -> tstep (mkT c rs (CRecv true)) (mkT c rs (CClunk true true))
  | t_timeout c rs : tstep (mkT c rs (CRecv true)) (mkT c rs (CClunk true false))
  | t_skip c rs : tstep (mkT c rs (CRecv false)) (mkT c rs (CClunk false false))
  | t_clunk d w c rs : tstep (mkT c rs (CClunk d w)) (mkT c rs (CDone d w)).

Definition treachable : teardown -> Prop := Reachable (mkT serveStart ∅ CServe) tstep.

(** ** The invariant *)

Definition pastDrain (p : cleanupPhase) : bool :=
  match p with CClose true | CRecv true | CClunk true _ | CDone true _ => true | _ => false end.
Definition awaited (p : cleanupPhase) : bool := match p with CClunk _ true | CDone _ true => true | _ => false end.

Record TInv (s : teardown) : Prop := {
  t_inv : Inv maxInflight (core s);
  t_busy g r : requests s !! g = Some r -> workers (core s) !! g = Some (PBusy FRequest);
  t_late g f : pastDrain (cleanup s) = true -> requests s !! g = Some (RRunning f) -> f = false;
  t_gone : awaited (cleanup s) = true -> workers (core s) = ∅
}.

Lemma keep_some c rs g r : keep c rs !! g = Some r -> rs !! g = Some r /\ workers c !! g = Some (PBusy FRequest).
Proof. unfold keep. by intros [H1 H2]%map_lookup_filter_Some. Qed.

Lemma empty_stays c c' : Inv maxInflight c -> workers c = ∅ -> step maxInflight c c' -> workers c' = ∅.
Proof. intros Hi He Hst. destruct Hst as [| | | | | | | | | | | | | | | | | | |]; try done; rewrite He in *; discriminate. Qed.

Lemma all_ended c : Inv maxInflight c -> recvWG c = 0%nat -> workers c = ∅.
Proof.
  intros Hi Hw. rewrite (i_wg _ _ Hi), weigh_one in Hw. apply map_size_empty_inv. lia.
Qed.

Lemma tinv_step s s' : TInv s -> tstep s s' -> TInv s'.
Proof.
  intros [Hi Hb Hl Hg] Hst.
  destruct Hst as [c c' rs p Hst Hp|g c rs p Hw Hr|g f c rs p Hr|c rs Hch|c rs|c rs Hd|c rs Hd|c rs Hd|c rs|d c rs|c rs Hw|c rs|c rs|d w c rs];
    cbn in *; split; cbn; try done.
  - by apply (workers_step_inv _ c).
  - intros g r Hr. by apply keep_some in Hr as [_ Hr].
  - intros g f Hd Hr. apply keep_some in Hr as [Hr _]. by apply (Hl g).
  - intros Ha. by apply (empty_stays c); auto.
  - intros h r [[<- <-]|[_ Hh]]%lookup_insert_Some; [done|by apply (Hb h r)].
  - intros h f Hd [[_ [= <-]]|[_ Hh]]%lookup_insert_Some; [done|by apply (Hl h)].
  - intros h r [[<- <-]|[_ Hh]]%lookup_insert_Some; [by apply (Hb g (RRunning f))|by apply (Hb h r)].
  - intros h f' Hd [[_ [=]]|[_ Hh]]%lookup_insert_Some. by apply (Hl h).
  - intros g r Hr. unfold cancelAll in Hr. rewrite lookup_fmap_Some in Hr. destruct Hr as (r' & _ & Hr). by apply (Hb g r').
  - intros g f _ Hr. apply Hd in Hr. done.
  - intros g f _ Hr. apply Hd in Hr. done.
  - intros _. by apply all_ended.
Qed.

Lemma tinv_reach s : (1 <= maxInflight)%nat -> treachable s -> TInv s.
Proof.
  intros Hm. unfold treachable. induction 1 as [|s s' _ IH Hst]; [|by apply (tinv_step s)].
  split; cbn; try done. apply inv_reach; [done|]. apply reach_init.
Qed.

(** When [cleanup] comes to release the fids with the in-flight count
    drained, and its wait for the goroutines has ended too, no goroutine of
    the connection is left, so none can be inside a handler.  When that wait
    has timed out, a handler that still runs has a context that [cancelAll]
    did not reach: its request was registered after the count had drained. *)
Theorem teardown_releases s w (Hmax : (1 <= maxInflight)%nat) (Hreach : treachable s) (Hclunk : cleanup s = CClunk true w) :
  (w = true -> workers (core s) = ∅ /\ requests s = ∅) /\
  (forall g f, requests s !! g = Some (RRunning f) -> workers (core s) !! g = Some (PBusy FRequest) /\ f = false).
Proof.
  pose proof (tinv_reach s Hmax Hreach) as [Hi Hb Hl Hg]. rewrite Hclunk in Hl, Hg. cbn in Hl, Hg. split.
  - intros ->. pose proof (Hg eq_refl) as He. split; [done|]. apply map_empty. intros g.
    destruct (requests s !! g) as [r|] eqn:Hr; [|done]. apply Hb in Hr. by rewrite He in Hr.
  - intros g f Hr. split; [by apply (Hb g (RRunning f))|by apply (Hl g)].
Qed.
End Teardown.

Ltac computes := first [done | by apply (bool_decide_unpack _); vm_compute].
Tactic Notation "twalk" ident(R) uconstr(st) :=
  let R' := fresh in unshelve epose proof (reach_step _ _ _ _ R st) as R'; [computes..|clear R; rename R' into R].

(** The run: goroutine 0 reads a request and starts goroutine 1, which finds
    the connection closed; [cleanup] sees an empty in-flight map; only then
    goroutine 0 registers its request. *)
Definition lateRun : teardown :=
  mkT (mkConn None 0 true true 2 2 {[0%nat := PBusy FRequest; 1%nat := PExit]}) {[0%nat := RRunning false]} (CClunk true false).

(** C32: The release of the fids can meet a running handler, although [cleanup]
    means to release only when the handlers have drained: a request that was
    read before the shutdown and registered after the in-flight count was
    found to be zero is neither cancelled nor waited for by count, and when it
    outlasts the deadline the fids are released under it. *)
Theorem teardown_late_request : treachable 2 lateRun /\ cleanup lateRun = CClunk true false /\
  requests lateRun !! 0%nat = Some (RRunning false) /\ workers (core lateRun) !! 0%nat = Some (PBusy FRequest).
Proof.
  split_and!; [|done..].
  pose proof (reach_init (mkT serveStart ∅ CServe) (tstep 2)) as R.
  twalk R (t_worker 2 _ _ _ _ (step_top 2 0 _ _) _).
  twalk R (t_worker 2 _ _ _ _ (step_lock 2 0 _ _ _) _).
  twalk R (t_worker 2 _ _ _ _ (step_idle 2 0 _ _) _).
  twalk R (t_worker 2 _ _ _ _ (step_read 2 0 _ _ _) _).
  twalk R (t_worker 2 _ _ _ _ (step_frame 2 0 FRequest _ _) _).
  twalk R (t_worker 2 _ _ _ _ (step_decide 2 0 FRequest true _ _) _).
  twalk R (t_worker 2 _ _ _ _ (step_spawn 2 0 1 FRequest _ _ _) _).
  twalk R (t_worker 2 _ _ _ _ (step_unlock 2 0 FRequest _ _ _) _).
  twalk R (t_worker 2 _ _ _ _ (step_top 2 1 _ _) _).
  twalk R (t_worker 2 _ _ _ _ (step_lock 2 1 _ _ _) _).
  twalk R (t_worker 2 _ _ _ _ (step_idle 2 1 _ _) _).
  twalk R (t_worker 2 _ _ _ _ (step_read 2 1 _ _ _) _).
  twalk R (t_worker 2 _ _ _ _ (step_fail 2 1 _ _) _).
  twalk R (t_worker 2 _ _ _ _ (step_signal 2 1 _ _) _).
  twalk R (t_shutdown 2 _ _ _).
  twalk R (t_cancel 2 _ _).
  twalk R (t_none 2 _ _ _).
  twalk R (t_close 2 true _ _).
  twalk R (t_start 2 0 _ _ _ _ _).
  twalk R (t_timeout 2 _ _).
  exact R.
Qed.

(** A connection whose only goroutine finds it closed. *)
Lemma teardown_releases_witness :
  let s := mkT (mkConn None 0 true true 0 0 ∅) ∅ (CClunk true true) in treachable 1 s /\ requests s = ∅.
Proof.
  intros s. assert (Hr : treachable 1 s).
  { pose proof (reach_init (mkT serveStart ∅ CServe) (tstep 1)) as R.
    twalk R (t_worker 1 _ _ _ _ (step_top 1 0 _ _) _).
    twalk R (t_worker 1 _ _ _ _ (step_lock 1 0 _ _ _) _).
    twalk R (t_worker 1 _ _ _ _ (step_idle 1 0 _ _) _).
    twalk R (t_worker 1 _ _ _ _ (step_read 1 0 _ _ _) _).
    twalk R (t_worker 1 _ _ _ _ (step_fail 1 0 _ _) _).
    twalk R (t_worker 1 _ _ _ _ (step_signal 1 0 _ _) _).
    twalk R (t_shutdown 1 _ _ _).
    twalk R (t_cancel 1 _ _).
    twalk R (t_none 1 _ _ _).
    twalk R (t_close 1 true _ _).
    twalk R (t_worker 1 _ _ _ _ (step_count 1 0 _ _) _).
    twalk R (t_worker 1 _ _ _ _ (step_done 1 0 _ _) _).
    twalk R (t_recv 1 _ _ _).
    exact R. }
  split; [done|]. by apply (teardown_releases 1 s true ltac:(lia) Hr eq_refl).
Defined.

(** ** Step 5 *)

Section Release.
Context {U Handle XattrWriter : Type} `{NodeOps U Handle XattrWriter}.
Context `{Capabilities (NS U) NodeId Handle XattrWriter} `{BufPool}.
Context (range : gmap string NodeId -> list (string * NodeId)).

(** With handlers that did not drain, nothing is released. *)
Lemma undrained_releases_nothing s : released (cleanupFids range false s).2 = released s.
Proof.
  assert (Hc : forall ls s, released (clunkStates range false ls s).2 = released s).
  { clear s. induction ls as [|l ls IH]; intros s; [done|]. cbn [clunkStates]. unfold stateAt, onTree, mbind, M_bind.
    destruct (fsAt l s) as [fs|]; [|done]. cbn. destruct (decRefNode _ _ _ _) as [b t]. cbn. by rewrite IH. }
  unfold cleanupFids, onTable, mbind, M_bind. destruct (clunkAll _) as [ls ft]. by rewrite Hc.
Qed.
End Release.
