(* ===== verification/ClientPaths.v ===== *)
(** * The names of a client's path

    [splitPath] cleans a path lexically and splits it into the names a walk
    sends. *)

From S2P Require Import Prelude GoIO Types Errno Proto Messages P9l P9u Message Bridge Inode Namespace Names ClientFile ClientConn ClientOps.

Abbreviation sl := (byte_of_Z 47).

(** ** Splitting and joining *)

Definition noSlash (e : bytes) : Prop := sl ∉ e.

Lemma elem_of_rev {A} (x : A) l : x ∈ rev l <-> x ∈ l.
Proof. rewrite List.rev_alt. apply elem_of_reverse. Qed.

Lemma splitSlash_noSlash bs acc : noSlash acc -> Forall noSlash (splitSlash bs acc).
Proof.
  revert acc. induction bs as [|b bs IH]; intros acc Ha; cbn.
  - apply Forall_singleton. unfold noSlash. by rewrite elem_of_rev.
  - case_decide as E.
    + apply Forall_cons. split; [unfold noSlash; by rewrite elem_of_rev|]. apply IH. apply not_elem_of_nil.
    + apply IH. unfold noSlash. rewrite elem_of_cons. intros [?|?]; [congruence|done].
Qed.

Lemma splitSlash_app e bs acc : noSlash e -> splitSlash (e ++ sl :: bs) acc = (rev acc ++ e) :: splitSlash bs [].
Proof.
  revert acc. induction e as [|b e IH]; intros acc He; cbn.
  - rewrite decide_True by done. by rewrite app_nil_r.
  - unfold noSlash in He. rewrite elem_of_cons in He. rewrite decide_False by naive_solver. rewrite IH by (unfold noSlash; naive_solver).
    cbn. by rewrite <- app_assoc.
Qed.

Lemma splitSlash_last e acc : noSlash e -> splitSlash e acc = [rev acc ++ e].
Proof.
  revert acc. induction e as [|b e IH]; intros acc He; cbn; [by rewrite app_nil_r|].
  unfold noSlash in He. rewrite elem_of_cons in He. rewrite decide_False by naive_solver. rewrite IH by (unfold noSlash; naive_solver).
  cbn. by rewrite <- app_assoc.
Qed.

Lemma split_join elems : elems <> [] -> Forall noSlash elems -> splitSlash (joinSlash elems) [] = elems.
Proof.
  intros Hne Hf. induction Hf as [|e elems He Hf IH]; [done|]. destruct elems as [|e' elems]; [by rewrite splitSlash_last|].
  change (joinSlash (e :: e' :: elems)) with (e ++ slash ++ joinSlash (e' :: elems)). change slash with [sl]. cbn [app].
  rewrite splitSlash_app by done. cbn [rev app]. by rewrite IH.
Qed.

(** ** Cleaning *)

(** What is left of the elements of a path. *)
Definition kept (rooted : bool) (e : bytes) : Prop := noSlash e /\ e <> [] /\ e <> dot /\ (rooted = true -> e <> dotdot).

Lemma kept_dotdot : kept false dotdot.
Proof. split; [vm_compute; set_solver|]. by vm_compute. Qed.

Lemma cleanElems_kept rooted elems out :
  Forall noSlash elems -> Forall (kept rooted) out -> Forall (kept rooted) (cleanElems rooted elems out).
Proof.
  intros Hf. revert out. induction Hf as [|e elems He Hf IH]; intros out Ho; cbn [cleanElems]; [done|].
  case_decide as H1; [by apply IH|]. case_decide as H2.
  - destruct out as [|o out]; [apply IH; destruct rooted; [done|]; apply Forall_singleton, kept_dotdot|].
    case_decide as H3; [|apply IH; by inversion Ho]. apply IH. subst o. inversion Ho as [|? ? Hk Ho']; subst. by apply Forall_cons.
  - apply IH, Forall_cons. split; [|done]. unfold kept. naive_solver.
Qed.

Lemma cleanElems_names elems out : Forall (kept true) elems -> cleanElems true elems out = rev elems ++ out.
Proof.
  intros Hf. revert out. induction Hf as [|e elems (He & H1 & H2 & H3) Hf IH]; intros out; cbn [cleanElems rev]; [done|].
  rewrite decide_False by naive_solver. rewrite decide_False by auto. by rewrite IH, <- app_assoc.
Qed.

Definition isRooted (p : string) : bool :=
  match bytes_of_string p with b :: _ => bool_decide (b = sl) | [] => false end.
Definition cleaned (p : string) : list bytes := rev (cleanElems (isRooted p) (splitSlash (bytes_of_string p) []) []).

Lemma cleaned_kept p : Forall (kept (isRooted p)) (cleaned p).
Proof. apply Forall_rev, cleanElems_kept; [|constructor]. apply splitSlash_noSlash, not_elem_of_nil. Qed.

Lemma filter_kept rooted elems : Forall (kept rooted) elems -> List.filter (fun e => negb (length e =? 0)%nat) elems = elems.
Proof.
  induction 1 as [|e elems (_ & He & _) _ IH]; cbn; [done|]. destruct e; [done|]. cbn. by rewrite IH.
Qed.

Lemma joinSlash_head rooted e elems : Forall (kept rooted) (e :: elems) -> exists b bs, joinSlash (e :: elems) = b :: bs /\ b <> sl.
Proof.
  intros [(He & H1 & _) _]%Forall_cons. destruct e as [|b e]; [done|].
  assert (b <> sl) as Hb by (intros ->; apply He; by left).
  destruct elems; [by exists b, e|]. eexists b, _. by split.
Qed.

Lemma joinSlash_not_dot rooted elems : Forall (kept rooted) elems -> joinSlash elems <> dot.
Proof.
  intros Hf. destruct elems as [|e elems]; [done|]. apply Forall_cons in Hf as [(He & H1 & H2 & _) Hf].
  destruct elems as [|e' elems]; [done|]. change (joinSlash (e :: e' :: elems)) with (e ++ slash ++ joinSlash (e' :: elems)).
  intros E. apply (f_equal length) in E. rewrite !length_app in E. destruct e as [|b e]; [done|].
  apply Forall_cons in Hf as [(_ & H3 & _) _]. destruct e' as [|b' e']; [done|]. destruct elems; cbn in E; lia.
Qed.

(** The names are the cleaned elements. *)
Lemma splitPath_eq p : splitPath p = string_of_bytes <$> cleaned p.
Proof.
  pose proof (cleaned_kept p) as Hk. unfold splitPath, pathClean. fold (isRooted p). fold (cleaned p).
  assert (forall es, Forall (kept (isRooted p)) es -> es <> [] ->
    List.filter (fun e => negb (length e =? 0)%nat) (splitSlash (joinSlash es) []) = es) as Hs.
  { intros es Hes Hne. rewrite split_join; [by eapply filter_kept|done|]. eapply Forall_impl; [exact Hes|]. by intros ? []. }
  destruct (cleaned p) as [|e es] eqn:Ec; [by destruct (isRooted p)|].
  destruct (joinSlash_head _ _ _ Hk) as (b & bs & Ej & Hb). pose proof (joinSlash_not_dot _ _ Hk) as Hd.
  specialize (Hs _ Hk ltac:(done)). destruct (isRooted p).
  - rewrite decide_False.
    + rewrite bytes_of_string_of_bytes. change slash with [sl]. cbn [app]. rewrite decide_True by done. by rewrite Hs.
    + intros [E|E]; apply (f_equal bytes_of_string) in E; rewrite bytes_of_string_of_bytes in E; [done|].
      change slash with [sl] in E. rewrite Ej in E. done.
  - rewrite decide_False.
    + rewrite bytes_of_string_of_bytes. rewrite Ej at 1. rewrite decide_False by done. by rewrite Hs.
    + intros [E|E]; apply (f_equal bytes_of_string) in E; rewrite bytes_of_string_of_bytes in E; [done|].
      rewrite Ej in E. by injection E.
Qed.

(** ** The bytes of the names are the path's *)

Lemma splitSlash_Forall (P : byte -> Prop) bs acc :
  Forall P bs -> Forall P acc -> Forall (Forall P) (splitSlash bs acc).
Proof.
  intros Hf. revert acc. induction Hf as [|b bs Hb Hf IH]; intros acc Ha; cbn.
  - by apply Forall_singleton, Forall_rev.
  - case_decide; [apply Forall_cons; split; [by apply Forall_rev|by apply IH]|]. by apply IH, Forall_cons.
Qed.

Lemma cleanElems_Forall (P : bytes -> Prop) rooted elems out :
  P dotdot -> Forall P elems -> Forall P out -> Forall P (cleanElems rooted elems out).
Proof.
  intros Hd Hf. revert out. induction Hf as [|e elems He Hf IH]; intros out Ho; cbn [cleanElems]; [done|].
  case_decide; [by apply IH|]. case_decide; [|by apply IH, Forall_cons].
  destruct out as [|o out]; [apply IH; destruct rooted; [done|by apply Forall_singleton]|].
  case_decide; [by apply IH, Forall_cons|]. apply IH. by inversion Ho.
Qed.

Lemma Z_of_sl b : Z_of_byte b = 47 -> b = sl.
Proof. intros E. rewrite <- (byte_of_Z_of_byte b). by rewrite E. Qed.

Lemma element_of_kept rooted e :
  kept rooted e -> Forall (fun b => Z_of_byte b <> 0) e -> element (string_of_bytes e).
Proof.
  intros (Hs & He & _) Hn. unfold element. rewrite bytes_of_string_of_bytes. split.
  - intros E. apply He. by rewrite <- (bytes_of_string_of_bytes e), E.
  - rewrite Forall_forall in *. intros b Hb. split; [|by apply Hn]. intros E%Z_of_sl. by subst.
Qed.

Lemma kept_of_child name : childName name -> kept true (bytes_of_string name).
Proof.
  intros ((Hne & Hf) & Hd & Hdd). rewrite <- (string_of_bytes_of_string name) in Hne, Hd, Hdd. split_and!.
  - intros Hin. rewrite Forall_forall in Hf. destruct (Hf _ Hin) as [Hs _]. by apply Hs.
  - intros E. by rewrite E in Hne.
  - intros E. by rewrite E in Hd.
  - intros _ E. by rewrite E in Hdd.
Qed.

Lemma bytes_app s1 s2 : bytes_of_string (s1 +:+ s2) = bytes_of_string s1 ++ bytes_of_string s2.
Proof. unfold bytes_of_string, String.list_byte_of_string. induction s1 as [|a s1 IH]; [done|]. exact (f_equal (cons (Ascii.byte_of_ascii a)) IH). Qed.

Lemma bytes_concat names : bytes_of_string (String.concat "/" names) = joinSlash (bytes_of_string <$> names).
Proof.
  induction names as [|name names IH]; [done|]. destruct names as [|name' names]; [done|].
  change (String.concat "/" (name :: name' :: names)) with (name +:+ "/" +:+ String.concat "/" (name' :: names)).
  by rewrite !bytes_app, IH.
Qed.

(** The names of a path.  [splitPath] sends no empty name, no [.] and no
    name with a slash; it sends no [..] if the path is rooted; each name passes
    the check of the server's walk unless the path has a NUL byte.  A rooted
    path made of valid names is walked by those names. *)
Theorem splitPath_names p names :
  Forall (fun name => name <> "" /\ name <> "." /\ sl ∉ bytes_of_string name /\ (isRooted p = true -> name <> "..") /\
    (Forall (fun b => Z_of_byte b <> 0) (bytes_of_string p) -> validatePathElement name = None)) (splitPath p) /\
  (Forall childName names -> splitPath ("/" +:+ String.concat "/" names) = names).
Proof.
  split.
  - rewrite splitPath_eq. apply Forall_fmap. pose proof (cleaned_kept p) as Hk.
    assert (Forall (fun b => Z_of_byte b <> 0) (bytes_of_string p) -> Forall (Forall (fun b => Z_of_byte b <> 0)) (cleaned p)) as Hn.
    { intros Hp. apply Forall_rev, cleanElems_Forall; [apply (bool_decide_unpack _); by vm_compute|by apply splitSlash_Forall|done]. }
    rewrite Forall_forall in Hk. apply Forall_forall. intros e He. pose proof (Hk e He) as (H1 & H2 & H3 & H4). cbn.
    assert (forall x, string_of_bytes e = x -> e = bytes_of_string x) as Hinv by (intros x; intros <-; by rewrite bytes_of_string_of_bytes).
    split_and!.
    + intros E. by apply Hinv in E.
    + intros E. by apply Hinv in E.
    + by rewrite bytes_of_string_of_bytes.
    + intros Hr E. apply Hinv in E. by apply H4.
    + intros Hp%Hn. apply validatePathElement_spec. eapply element_of_kept; [by apply Hk|]. rewrite Forall_forall in Hp. by apply Hp.
  - intros Hf. rewrite splitPath_eq. unfold cleaned, isRooted. rewrite bytes_app, bytes_concat. cbn [bytes_of_string].
    change (bytes_of_string "/") with [sl]. cbn [app]. rewrite bool_decide_true by done.
    assert (Forall (kept true) (bytes_of_string <$> names)) as Hk by (apply Forall_fmap; eapply Forall_impl; [exact Hf|apply kept_of_child]).
    assert (rev (cleanElems true (splitSlash (sl :: joinSlash (bytes_of_string <$> names)) []) []) = bytes_of_string <$> names) as ->.
    { cbn [splitSlash]. rewrite decide_True by done. cbn [rev cleanElems]. rewrite decide_True by by left.
      destruct names as [|name names]; [done|]. rewrite split_join; [|done|eapply Forall_impl; [exact Hk|by intros ? []]].
      rewrite cleanElems_names, app_nil_r by done. by rewrite rev_involutive. }
    rewrite <- list_fmap_compose. rewrite <- (list_fmap_id names) at 2. apply list_fmap_ext. intros _ name _. cbn. apply string_of_bytes_of_string.
Qed.

Lemma splitPath_names_witness :
  splitPath "/usr/./bin//../lib" = ["usr"; "lib"] /\ splitPath ("/" +:+ String.concat "/" ["a"; "b.c"]) = ["a"; "b.c"].
Proof.
  split; [by vm_compute|]. apply (splitPath_names "/usr/./bin//../lib" ["a"; "b.c"]). apply (bool_decide_unpack _). by vm_compute.
Defined.

(** A relative path keeps its leading [..], and the client sends it. *)
Lemma splitPath_relative : splitPath "../etc" = [".."; "etc"] /\ splitPath "a/../../b" = [".."; "b"].
Proof. by vm_compute. Qed.
