(* ===== verification/ClientFids.v ===== *)
(** * The fids of a client and of its server

    [FidServer] is what the client's operations rely on: which fids a server
    has bound, and how a request changes that.  Against any server with those
    laws, whatever calls are made, a fid the allocator may hand out is not
    bound at the server, the open [File]s have fids of their own, which are
    bound, and nothing else is bound but fids whose clunk got no answer
    ([client_fids_exact]).

    The laws demand that a request which fails binds nothing.  A connection
    whose requests are cancelled does not have them: when such a walk was
    carried out all the same, its fid goes back to the allocator bound, and
    until a [File] is closed every call that needs a fid fails
    ([bound_fid_blocks]). *)

From S2P Require Import Prelude GoIO Types Errno Proto Messages P9l P9u Message Bridge Inode Namespace ClientFile ClientConn.
From S2P Require Import ClientOps ClientAdvanced.

(** ** The server's side *)

(** The fid a response of the server binds. *)
Definition binds (m resp : Message) : option Fid :=
  match m, resp with
  | MTattach m, MRattach _ => Some (Tattach.Fid m)
  | MTwalk m, MRwalk r =>
      if decide (Twalk.Names m = [] \/ length (Rwalk.QIDs r) = length (Twalk.Names m)) then Some (Twalk.NewFid m) else None
  | MTxattrwalk m, MRxattrwalk _ => Some (Txattrwalk.NewFid m)
  | _, _ => None
  end.

(** The fid a request gives up, whatever the response. *)
Definition unbinds (m : Message) : option Fid :=
  match m with
  | MTclunk m => Some (Tclunk.Fid m)
  | MTremove m => Some (Tremove.Fid m)
  | _ => None
  end.

(** A walk of a fid onto itself moves it. *)
Definition inPlace (m : Message) : bool :=
  match m with MTwalk m => Twalk.Fid m =? Twalk.NewFid m | _ => false end.

Definition ofid (o : option Fid) : gset Fid := match o with Some f => {[f]} | None => ∅ end.

(** The fids a server has bound; those whose clunk got no answer; whether the
    connection is up. *)
Class FidServer (S : Type) : Type := {
  bound : S -> gset Fid;
  lost : S -> gset Fid;
  alive : S -> bool
}.

Record FidServer_ok {S} (T : Transport S) (F : FidServer S) : Prop := {
  dead_stays m flush s : alive s = false -> alive (roundTripWithFlush m flush s).2 = false;
  shutdown_dead s : alive (signalShutdown s) = false;
  reply_alive m flush s resp s' : roundTripWithFlush m flush s = (Ok resp, s') -> alive s' = true;
  reply_fids m flush s resp s' :
    roundTripWithFlush m flush s = (Ok resp, s') -> alive s' = true ->
    bound s' = (bound s ∪ ofid (binds m resp)) ∖ ofid (unbinds m) /\ lost s' = lost s;
  reply_fresh m flush s resp s' f :
    roundTripWithFlush m flush s = (Ok resp, s') -> alive s' = true ->
    binds m resp = Some f -> inPlace m = false -> f ∉ bound s;
  error_fids m flush s e s' :
    roundTripWithFlush m flush s = (Err e, s') -> alive s' = true ->
    bound s' ⊆ bound s /\ bound s ∖ ofid (unbinds m) ⊆ bound s' /\ lost s' = lost s ∪ ofid (unbinds m);
  error_local m flush s e s' :
    roundTripWithFlush m flush s = (Err e, s') ->
    isServerError e = false /\ (errors_Is e ErrClosed = true -> alive s' = false)
}.

(** ** Lists of fids *)

Definition openFids (fs : list File) : list Fid := fid <$> List.filter (fun f => negb (closed f)) fs.

Lemma openFids_app fs f : openFids (fs ++ [f]) = openFids fs ++ (if closed f then [] else [fid f]).
Proof. unfold openFids. rewrite List.filter_app, fmap_app. cbn. by destruct (closed f). Qed.

Lemma openFids_alter g p fs :
  (forall f, fid (g f) = fid f) -> (forall f, closed (g f) = closed f) -> openFids (alter g p fs) = openFids fs.
Proof.
  intros Hf Hc. revert p. induction fs as [|f fs IH]; intros [|p]; try done; unfold openFids in *; cbn.
  - rewrite Hc. destruct (closed f); cbn; [done|]. by rewrite Hf.
  - destruct (closed f); cbn; by rewrite IH.
Qed.

Lemma openFids_close p fs f :
  fs !! p = Some f -> closed f = false -> openFids fs ≡ₚ fid f :: openFids (alter setClosed p fs).
Proof.
  revert p. induction fs as [|f0 fs IH]; intros [|p] Hp Hc; try done; unfold openFids in *; cbn in *.
  - injection Hp as ->. by rewrite Hc.
  - destruct (closed f0); cbn; rewrite (IH p Hp Hc); [done|]. apply Permutation_swap.
Qed.

Lemma Fids_Inv_perm fa h h' : h ≡ₚ h' -> Fids.Inv (fa, h) -> Fids.Inv (fa, h').
Proof. intros Hp (Hn & Hd & Hl & Hf). unfold Fids.Inv. rewrite <- Hp. done. Qed.

Lemma Fids_Inv_acquire fa h f fa' : Fids.Inv (fa, h) -> Fids.acquire fa = (Ok f, fa') -> Fids.Inv (fa', f :: h).
Proof. intros Hi E. eapply Fids.alloc_Inv_step; [exact Hi|]. by apply Fids.step_acquire. Qed.

Lemma Fids_Inv_release fa h f : Fids.Inv (fa, f :: h) -> Fids.Inv (Fids.release f fa, h).
Proof. intros Hi. eapply Fids.alloc_Inv_step; [exact Hi|]. apply (Fids.step_release fa [] h f). Qed.

Lemma Fids_acquire_err fa e fa' : Fids.acquire fa = (Err e, fa') -> fa' = fa.
Proof. unfold Fids.acquire. destruct (Fids.reuse fa); [|done]. case_match; [|done]. by intros [= _ <-]. Qed.

(** What the allocator may hand out. *)
Definition free (fa : Fids.t) (f : Fid) : Prop := f ∈ Fids.reuse fa \/ Fids.next fa <= f.

(** ** The invariant

    [u]: fids taken and not bound; [b]: bound fids an operation holds. *)
Section Fids.
Context {S : Type} (T : Transport S) (F : FidServer S) (Hok : FidServer_ok T F) (dialect : protocol).
Abbreviation C := (Conn S).

Definition agrees (b q : list Fid) (fs : list File) (s : S) : Prop :=
  (forall f, f ∈ b ++ openFids fs -> f ∈ bound s) /\
  (forall f, f ∈ bound s -> f ∈ b ++ openFids fs \/ f ∈ q /\ f ∈ lost s).

Definition FidInv (u b : list Fid) (c : C) : Prop :=
  exists q, Fids.Inv (alloc c, u ++ b ++ openFids (files c) ++ q) /\
    (alive (wire c) = true -> agrees b q (files c) (wire c)).

Lemma dead_FidInv u b c s r : FidInv u b c -> alive s = false -> FidInv u b (mkConn s (alloc c) (files c) r).
Proof. intros (q & Hi & _) Hd. exists q. split; [done|]. cbn. by rewrite Hd. Qed.

Lemma FidInv_root u b s fa fs r r' : FidInv u b (mkConn s fa fs r) -> FidInv u b (mkConn s fa fs r').
Proof. done. Qed.

Lemma FidInv_perm u u' b b' c : u ≡ₚ u' -> b ≡ₚ b' -> FidInv u b c -> FidInv u' b' c.
Proof.
  intros Hu Hb (q & Hi & Ha). exists q. split; [eapply Fids_Inv_perm; [|exact Hi]; by rewrite Hu, Hb|].
  intros Hl. destruct (Ha Hl) as [H1 H2]. split; intros f Hf.
  - apply H1. by rewrite Hb.
  - destruct (H2 f Hf); [left; by rewrite <- Hb|by right].
Qed.

(** A request that binds and gives up nothing. *)
Lemma alive_before m flush s : alive (roundTripWithFlush m flush s).2 = true -> alive s = true.
Proof. intros Ha. destruct (alive s) eqn:E; [done|]. by rewrite (dead_stays T F Hok m flush s E) in Ha. Qed.

Lemma neutral_FidInv u b c m flush r s' :
  (forall resp, binds m resp = None) -> unbinds m = None ->
  roundTripWithFlush m flush (wire c) = (r, s') ->
  FidInv u b c -> FidInv u b (mkConn s' (alloc c) (files c) (rootFile c)).
Proof.
  intros Hb Hu E (q & Hi & Ha). exists q. split; [done|]. cbn. intros Hl.
  assert (alive (wire c) = true) as Hl0 by (eapply (alive_before m flush); by rewrite E).
  destruct (Ha Hl0) as [H1 H2].
  assert (bound s' = bound (wire c) /\ lost s' = lost (wire c)) as [Eb El]; [|by unfold agrees; rewrite Eb, El].
  destruct r as [resp|e].
  - destruct (reply_fids T F Hok _ _ _ _ _ E Hl) as [-> ->]. rewrite Hb, Hu. cbn. split; [set_solver|done].
  - destruct (error_fids T F Hok _ _ _ _ _ E Hl) as (Hs1 & Hs2 & ->). rewrite Hu in *. cbn in *. split; set_solver.
Qed.

Lemma rtrip_spec {A} want (project : Message -> option A) req s r s' :
  rtrip want project req s = (r, s') ->
  exists r0, roundTripWithFlush req true s = (r0, s') /\
    match r with
    | Ok a => exists resp, r0 = Ok resp /\ project resp = Some a
    | Err e => (exists e0, r0 = Err e0) \/ exists resp, r0 = Ok resp /\ (toError resp <> None \/ project resp = None)
    end.
Proof.
  unfold rtrip, roundTrip. destruct (roundTripWithFlush req true s) as [[resp|e] s1]; [|intros [= <- <-]; eauto].
  intros E. exists (Ok resp). destruct (toError resp) eqn:Et; [injection E as <- <-; split; [done|]; right; exists resp; split; [done|left; by rewrite Et]|].
  destruct (project resp) eqn:Ep; injection E as <- <-; (split; [done|]); [eauto|]. right. exists resp. eauto.
Qed.

Lemma keeps_rtrip {A} u b want (project : Message -> option A) req :
  (forall resp, binds req resp = None) -> unbinds req = None -> keeps (FidInv u b) (onWire (rtrip want project req)).
Proof.
  intros Hb Hu c Hc. unfold onWire. destruct (rtrip want project req (wire c)) as [r s'] eqn:E.
  apply rtrip_spec in E as (r0 & E & _). pose proof (neutral_FidInv u b c req true r0 s' Hb Hu E Hc). by destruct r.
Qed.

Lemma keeps_require {A} u b want op (m : M S A) :
  keeps (FidInv u b) (onWire m) -> keeps (FidInv u b) (onWire (requireDialect dialect want op;; m)).
Proof. intros Hm c Hc. unfold requireDialect. case_decide; [exact (Hm c Hc)|by destruct c]. Qed.

Lemma keeps_wireBind {A B} u b (m : M S A) (g : A -> B) :
  keeps (FidInv u b) (onWire m) -> keeps (FidInv u b) (onWire (a ← m; mret (g a))).
Proof.
  intros Hm c Hc. specialize (Hm c Hc). unfold onWire in *. unfold mbind, M_bind. by destruct (m (wire c)) as [[]].
Qed.

Lemma keeps_byDialect {A} u b (m1 m2 : M S A) :
  keeps (FidInv u b) (onWire m1) -> keeps (FidInv u b) (onWire m2) -> keeps (FidInv u b) (onWire (byDialect dialect m1 m2)).
Proof. intros H1 H2 c Hc. unfold byDialect. destruct dialect; [by destruct c|by apply H1|by apply H2]. Qed.

Lemma keeps_tread u b f off count : keeps (FidInv u b) (onWire (tread f off count)).
Proof.
  intros c Hc. unfold onWire, tread.
  pose proof (keeps_rtrip u b TypeRread (is MRread r => Rread.Data r) (MTread (Tread.mk f off count)) (fun _ => eq_refl) eq_refl c Hc) as Hk.
  unfold onWire in Hk. destruct (rtrip _ _ _ (wire c)) as [[data|e] s1]; [|done].
  destruct (_ <? _); [|done]. apply dead_FidInv; [done|]. apply (shutdown_dead T F Hok).
Qed.

Lemma keeps_twrite u b f off data : keeps (FidInv u b) (onWire (twrite f off data)).
Proof.
  intros c Hc. unfold onWire, twrite, roundTrip.
  destruct (roundTripWithFlush (MTwrite _) true (wire c)) as [r s1] eqn:E.
  pose proof (neutral_FidInv u b c (MTwrite _) true r s1 (fun _ => eq_refl) eq_refl E Hc) as Hk.
  destruct r as [resp|e]; [|done]. destruct resp; cbn [toError]; try done.
  destruct (_ <? _); [|done]. apply dead_FidInv; [done|]. apply (shutdown_dead T F Hok).
Qed.

(** ** Taking and giving back *)

Lemma acquire_FidInv b : hoare (FidInv [] b) acquire (fun f => FidInv [f] b) (FidInv [] b).
Proof.
  intros [s fa fs r] (q & Hi & Ha). unfold acquire. cbn in *. destruct (Fids.acquire fa) as [[f|e] fa'] eqn:E.
  - exists q. split; [|done]. cbn. by eapply Fids_Inv_acquire.
  - apply Fids_acquire_err in E as ->. by exists q.
Qed.

Lemma release_FidInv f b : hoare (FidInv [f] b) (release f) (fun _ => FidInv [] b) (FidInv [] b).
Proof. intros [s fa fs r] (q & Hi & Ha). exists q. split; [|done]. cbn. by apply Fids_Inv_release. Qed.

Lemma fresh_unbound f b q c :
  Fids.Inv (alloc c, f :: b ++ openFids (files c) ++ q) -> agrees b q (files c) (wire c) -> f ∉ bound (wire c).
Proof.
  intros (_ & Hd & _) [_ H2] Hf%H2. apply NoDup_app in Hd as (_ & _ & Hd). apply NoDup_cons in Hd as [Hn _].
  apply Hn. rewrite app_assoc, elem_of_app. destruct Hf as [Hf|[Hf _]]; auto.
Qed.

(** A request that binds [f] when it succeeds, with [f] given back if not. *)
Lemma bind_FidInv {A} f b (m : M S A) :
  (forall s r s', m s = (r, s') ->
     (s' = s /\ exists e, r = Err e) \/
     exists req r0, roundTripWithFlush req true s = (r0, s') /\ unbinds req = None /\
       match r with
       | Ok _ => exists resp, r0 = Ok resp /\ binds req resp = Some f
       | Err _ => (exists e0, r0 = Err e0) \/ exists resp, r0 = Ok resp /\ binds req resp = None
       end) ->
  hoare (FidInv [f] b) (onError (onWire m) (release f)) (fun _ => FidInv [] (f :: b)) (FidInv [] b).
Proof.
  intros Hm c Hc. pose proof Hc as (q & Hi & Ha). unfold onError, onWire. destruct (m (wire c)) as [r s'] eqn:E.
  apply Hm in E as [[-> [e ->]]|(req & r0 & E & Hu & Hr)]; [apply (release_FidInv f b); by destruct c|].
  assert (alive s' = true -> alive (wire c) = true) as Hl0 by (intros; eapply (alive_before req true); by rewrite E).
  destruct r as [a|e].
  - exists q. split; [exact Hi|]. cbn. intros Hl. destruct Hr as (resp & -> & Hb).
    destruct (reply_fids T F Hok _ _ _ _ _ E Hl) as [Eb El]. destruct (Ha (Hl0 Hl)) as [H1 H2].
    unfold agrees. rewrite Eb, El, Hb, Hu. cbn. split; intros g.
    + rewrite elem_of_cons. intros [->|Hg]; [set_solver|]. apply H1 in Hg. set_solver.
    + intros Hg. assert (g = f \/ g ∈ bound (wire c)) as [->|Hg'] by set_solver; [left; by left|].
      destruct (H2 g Hg') as [|]; [left; by right|by right].
  - refine (release_FidInv f b (mkConn s' (alloc c) (files c) (rootFile c)) _). exists q. split; [exact Hi|].
    cbn. intros Hl. destruct (Ha (Hl0 Hl)) as [H1 H2].
    assert (bound s' = bound (wire c) /\ lost s' = lost (wire c)) as [Eb El]; [|by unfold agrees; rewrite Eb, El].
    destruct Hr as [[e0 ->]|(resp & -> & Hb)].
    + destruct (error_fids T F Hok _ _ _ _ _ E Hl) as (Hs1 & Hs2 & ->). rewrite Hu in *. cbn in *. split; set_solver.
    + destruct (reply_fids T F Hok _ _ _ _ _ E Hl) as [-> ->]. rewrite Hb, Hu. cbn. split; [set_solver|done].
Qed.

(** The fid is reused, or kept out of use for good. *)
Lemma cleanup_FidInv u f b c : FidInv u (f :: b) c -> FidInv u b (cleanupFid f c).2.
Proof.
  intros (q & Hi & Ha). unfold cleanupFid. destruct (roundTripWithFlush _ false (wire c)) as [r s'] eqn:E.
  set (err := match r with Ok _ => _ | Err _ => _ end).
  assert (alive s' = true -> alive (wire c) = true) as Hl0 by (intros; eapply (alive_before _ false); by rewrite E).
  assert (f :: u ++ b ++ openFids (files c) ++ q ≡ₚ u ++ f :: b ++ openFids (files c) ++ q) as Hp by apply Permutation_middle.
  pose proof (Fids_Inv_perm _ _ _ (symmetry Hp) Hi) as Hi1.
  assert (forall g, g ∈ b ++ openFids (files c) -> g <> f) as Hne.
  { intros g Hg ->. destruct Hi1 as (_ & Hd & _). apply NoDup_app in Hd as (_ & _ & [Hn _]%NoDup_cons).
    apply Hn. rewrite !elem_of_app in *. naive_solver. }
  assert (alive s' = true -> (forall g, g ∈ b ++ openFids (files c) -> g ∈ bound s') /\
    (forall g, g ∈ bound s' -> g ∈ b ++ openFids (files c) \/ g ∈ q /\ g ∈ lost s' \/ g = f /\ exists e, r = Err e /\ f ∈ lost s')) as Hb.
  { intros Hl. destruct (Ha (Hl0 Hl)) as [H1 H2]. destruct r as [resp|e].
    - destruct (reply_fids T F Hok _ _ _ _ _ E Hl) as [Eb El]. rewrite Eb, El. cbn. split.
      + intros g Hg. pose proof (Hne g Hg). assert (g ∈ bound (wire c)) by (apply H1; by right). set_solver.
      + intros g Hg. destruct (H2 g) as [Hg'|]; [set_solver| |by eauto]. cbn in Hg'. apply elem_of_cons in Hg' as [->|]; [set_solver|eauto].
    - destruct (error_fids T F Hok _ _ _ _ _ E Hl) as (Hs1 & Hs2 & El). rewrite El. cbn in *. split.
      + intros g Hg. pose proof (Hne g Hg). assert (g ∈ bound (wire c)) by (apply H1; by right). set_solver.
      + intros g Hg. destruct (H2 g) as [Hg'|[??]]; [set_solver| |set_solver]. apply elem_of_cons in Hg' as [->|]; [|eauto].
        right. right. split; [done|]. exists e. split; [done|set_solver]. }
  destruct (match err with Ok _ => true | Err e => isServerError e || errors_Is e ErrClosed end) eqn:Er; cbn.
  - exists q. split; [by apply Fids_Inv_release|]. cbn. intros Hl. destruct (Hb Hl) as [H1 H2]. split; [done|].
    intros g Hg. destruct (H2 g Hg) as [?|[?|(-> & e & -> & _)]]; [auto|auto|]. cbn in Er.
    destruct (error_local T F Hok _ _ _ _ _ E) as [He1 He2]. rewrite He1 in Er. cbn in Er. by rewrite (He2 Er) in Hl.
  - exists (f :: q). split.
    + eapply Fids_Inv_perm; [|exact Hi1]. rewrite !app_assoc. apply Permutation_middle.
    + cbn. intros Hl. destruct (Hb Hl) as [H1 H2]. split; [done|]. intros g Hg.
      destruct (H2 g Hg) as [?|[[??]|(-> & e & _ & ?)]]; [auto|right; split; [by right|done]|right; split; [by left|done]].
Qed.

Lemma hoare_cleanup u f b : hoare (FidInv u (f :: b)) (cleanupFid f) (fun _ => FidInv u b) (FidInv u b).
Proof. intros c Hc%cleanup_FidInv. by destruct (cleanupFid f c) as [[]]. Qed.

Lemma hoare_onError {A} P (m : M C A) f u b Q :
  hoare P m Q (FidInv u (f :: b)) -> hoare P (onError m (cleanupFid f)) Q (FidInv u b).
Proof. intros Hm c Hc. specialize (Hm c Hc). unfold onError. destruct (m c) as [[a|e] c']; [done|]. by apply cleanup_FidInv. Qed.

Lemma hoare_finally {A} P (m : M C A) f u (b : A -> list Fid) b' :
  hoare P m (fun a => FidInv u (f :: b a)) (FidInv u (f :: b')) ->
  hoare P (finally m (cleanupFid f)) (fun a => FidInv u (b a)) (FidInv u b').
Proof.
  intros Hm c Hc. specialize (Hm c Hc). unfold finally. destruct (m c) as [[a|e] c']; by apply cleanup_FidInv.
Qed.

Lemma walkOnto_FidInv base f names complete partial b :
  (forall qids, complete qids = true <-> names = [] \/ length qids = length names) ->
  hoare (FidInv [f] b) (walkOnto base f names complete partial) (fun _ => FidInv [] (f :: b)) (FidInv [] b).
Proof.
  intros Hcomp. apply bind_FidInv. intros s r s' E. unfold mbind, M_bind, twalk in E.
  set (req := MTwalk (Twalk.mk base f names)) in *. right. exists req.
  destruct (rtrip _ _ req s) as [r1 s1] eqn:Et. apply rtrip_spec in Et as (r0 & E0 & Hr).
  assert (s1 = s') as -> by (destruct r1 as [qids|]; [unfold mret, M_ret, throw in E; destruct (complete qids)|]; by injection E).
  exists r0. split; [done|]. split; [done|]. destruct r1 as [qids|e1].
  - destruct Hr as (resp & -> & Hp). destruct resp as []; try done. injection Hp as <-.
    destruct (complete _) eqn:Ec; injection E as <-; [|].
    + eexists. split; [done|]. cbn. rewrite decide_True; [done|]. by apply Hcomp.
    + right. eexists. split; [done|]. cbn. rewrite decide_False; [done|]. intros Hx%Hcomp. congruence.
  - injection E as <-. destruct Hr as [[e0 ->]|(resp & -> & Hr)]; [eauto|]. right. exists resp. split; [done|].
    destruct resp; try done. by destruct Hr as [Hr|Hr].
Qed.

Lemma allSteps_spec names qids : allSteps names qids = true <-> names = [] \/ length qids = length names.
Proof.
  unfold allSteps. rewrite orb_true_iff, !Nat.eqb_eq. split; (intros [Hl|]; [left|by right]); [by apply nil_length_inv|by subst].
Qed.

Lemma walkNew_FidInv base names what b :
  hoare (FidInv [] b) (walkNew base names what) (fun f => FidInv [] (f :: b)) (FidInv [] b).
Proof.
  unfold walkNew. eapply hoare_bind; [apply acquire_FidInv|]. intros f.
  eapply hoare_bind; [apply walkOnto_FidInv, allSteps_spec|]. intros ?. by apply hoare_ret.
Qed.

Lemma allocFile_FidInv u b x R :
  closed x = false -> hoare (FidInv u (fid x :: b)) (allocFile x) (fun _ => FidInv u b) R.
Proof.
  intros Hx [s fa fs r] (q & Hi & Ha). cbn [alloc files wire] in *. exists q. unfold agrees. cbn [alloc files wire].
  rewrite openFids_app, Hx.
  assert (fid x :: b ++ openFids fs ≡ₚ b ++ openFids fs ++ [fid x]) as Hp by (rewrite app_assoc; apply Permutation_cons_append).
  split.
  - eapply Fids_Inv_perm; [|exact Hi]. apply Permutation_app_head. rewrite !app_assoc. apply Permutation_app_tail.
    rewrite <- app_assoc. exact Hp.
  - intros Hl. destruct (Ha Hl) as [H1 H2]. split; intros g Hg.
    + apply H1. by rewrite <- Hp in Hg.
    + rewrite <- Hp. by apply H2.
Qed.

Lemma keeps_setRoot u b p : keeps (FidInv u b) (setRoot p).
Proof. by intros [s fa fs r] Hc. Qed.

Lemma keeps_setSize u b p size : keeps (FidInv u b) (setFile p (setCachedSize size)).
Proof.
  intros [s fa fs r] (q & Hi & Ha). cbn [alloc files wire] in *. exists q. unfold agrees. cbn [alloc files wire].
  by rewrite openFids_alter.
Qed.

Lemma keeps_beginOp u b p : keeps (FidInv u b) (beginOp p).
Proof. intros c Hc. unfold beginOp. destruct (files c !! p) as [f|]; [|done]. by destruct (closed f). Qed.

Lemma keeps_beginRoot u b op : keeps (FidInv u b) (beginRoot op).
Proof. intros c Hc. unfold beginRoot. destruct (rootFile c) as [p|]; [|done]. exact (keeps_beginOp u b p c Hc). Qed.

Lemma keeps_requireDialect u b want op : keeps (FidInv u b) (requireDialect (T := C) dialect want op).
Proof. intros c Hc. unfold requireDialect. by case_decide. Qed.

(** ** The operations *)

Ltac ask := try apply keeps_require; apply keeps_rtrip; [by intros []|reflexivity].
Ltac keep H := eapply hoare_bind; [apply H|intros ?; cbn beta].

Lemma Attach_FidInv uname aname uid : keeps (FidInv [] []) (Attach uname aname uid).
Proof.
  unfold Attach. keep acquire_FidInv. rename a into f. eapply hoare_bind.
  - apply (bind_FidInv f []). intros s r s' E. unfold tattach in E. apply rtrip_spec in E as (r0 & E & Hr).
    right. eexists _, r0. split; [exact E|]. split; [done|]. destruct r as [q|e].
    + destruct Hr as (resp & -> & Hp). exists resp. split; [done|]. by destruct resp.
    + destruct Hr as [Hr|(resp & -> & Hr)]; [by left|]. right. exists resp. split; [done|]. destruct resp; try done. by destruct Hr.
  - intros q. cbn beta. eapply hoare_bind; [by apply (allocFile_FidInv [] [] (newFile f q 0))|]. intros p. cbn beta.
    keep (keeps_setRoot [] []). by apply hoare_ret.
Qed.

Lemma keeps_openWire u b f flags mode : keeps (FidInv u b) (onWire (byDialect dialect (tlopen dialect f flags) (topen dialect f mode))).
Proof. apply keeps_byDialect; unfold tlopen, topen; ask. Qed.

Lemma keeps_createWire u b f name flags perm gid mode ext :
  keeps (FidInv u b) (onWire (byDialect dialect (tlcreate dialect f name flags perm gid) (tcreate dialect f name perm mode ext))).
Proof. apply keeps_byDialect; unfold tlcreate, tcreate; ask. Qed.

Lemma OpenFile_FidInv p flags : keeps (FidInv [] []) (OpenFile dialect p flags).
Proof.
  unfold OpenFile. keep (keeps_beginRoot [] []). keep acquire_FidInv.
  eapply hoare_bind; [apply walkOnto_FidInv, allSteps_spec|]. intros ?. cbn beta.
  eapply hoare_bind; [apply hoare_onError, keeps_openWire|]. intros [q i]. by apply (allocFile_FidInv [] [] (newFile a0 q i)).
Qed.

Lemma Create_FidInv p flags mode : keeps (FidInv [] []) (Create dialect p flags mode).
Proof.
  unfold Create. keep (keeps_beginRoot [] []). destruct (splitPath p); [by apply hoare_throw|].
  destruct (parentAndName _). keep walkNew_FidInv.
  eapply hoare_bind; [apply hoare_onError, keeps_createWire|]. intros [q i]. by apply (allocFile_FidInv [] [] (newFile a0 q i)).
Qed.

Lemma Close_FidInv p : keeps (FidInv [] []) (Close p).
Proof.
  intros c Hc. unfold Close. destruct (files c !! p) as [f|] eqn:Hp; [|done]. destruct (closed f) eqn:Hf; [done|].
  unfold mbind, M_bind. cbn. apply (hoare_cleanup [] (fid f) []).
  destruct Hc as (q & Hi & Ha). pose proof (openFids_close p (files c) f Hp Hf) as Ho. exists q. cbn in *. split.
  - eapply Fids_Inv_perm; [|exact Hi]. by rewrite Ho.
  - intros Hl. destruct (Ha Hl) as [H1 H2]. split; intros g; cbn; [intros Hg; apply H1; cbn; by rewrite Ho|].
    intros Hg. rewrite <- Ho. by apply H2.
Qed.

Lemma Walk_FidInv p names : keeps (FidInv [] []) (Walk p names).
Proof.
  unfold Walk. keep (keeps_beginOp [] []). destruct names as [|name names]; [by apply hoare_throw|]. keep acquire_FidInv.
  eapply hoare_bind; [apply walkOnto_FidInv|].
  - intros qids. rewrite Nat.eqb_eq. split; [by right|by intros [|]].
  - intros qids. cbn beta. by apply (allocFile_FidInv [] [] (newFile a0 (List.last qids QID.zero) 0)).
Qed.

Lemma cloneFile_FidInv p :
  hoare (FidInv [] []) (cloneFile p) (fun f c => closed f = false /\ FidInv [] [fid f] c) (FidInv [] []).
Proof.
  unfold cloneFile. keep (keeps_beginOp [] []). keep acquire_FidInv.
  eapply hoare_bind; [apply walkOnto_FidInv|].
  - intros qids. split; [by left|done].
  - intros ?. by apply hoare_ret.
Qed.

Lemma Clone_FidInv p : keeps (FidInv [] []) (Clone p).
Proof.
  unfold Clone. eapply hoare_bind; [apply cloneFile_FidInv|]. intros f. apply hoare_pure. intros Hf. by apply (allocFile_FidInv [] []).
Qed.

(** A file operation that is one request. *)
Ltac fileOp := keep (keeps_beginOp [] []); try (keep (keeps_requireDialect [] [])).

Lemma RefreshSize_FidInv p : keeps (FidInv [] []) (RefreshSize dialect p).
Proof.
  unfold RefreshSize. fileOp. eapply hoare_bind; [|intros ?; apply keeps_setSize].
  apply keeps_byDialect; apply keeps_wireBind; unfold Tgetattr, Tstat; ask.
Qed.

Lemma FileStat_FidInv p : keeps (FidInv [] []) (FileStat dialect p).
Proof. unfold FileStat. fileOp. apply keeps_byDialect; apply keeps_wireBind; unfold Tgetattr, Tstat; ask. Qed.

Lemma Setattr_FidInv p attr : keeps (FidInv [] []) (Setattr dialect p attr).
Proof. unfold Setattr, Tsetattr. fileOp. ask. Qed.

(** [Getattr], [Statfs], [Fsync], [Readlink], and the lock calls that ask once. *)
Lemma queries_FidInv p mask dataSync pid lt :
  keeps (FidInv [] []) (Getattr dialect p mask) /\ keeps (FidInv [] []) (Statfs dialect p) /\
  keeps (FidInv [] []) (Fsync dialect p dataSync) /\ keeps (FidInv [] []) (Readlink dialect p) /\
  keeps (FidInv [] []) (Unlock dialect pid p) /\ keeps (FidInv [] []) (TryLock dialect pid p lt) /\
  keeps (FidInv [] []) (FileGetLock dialect pid p lt).
Proof.
  split_and!.
  - unfold Getattr, Tgetattr. fileOp. ask.
  - unfold Statfs, Tstatfs. fileOp. ask.
  - unfold Fsync, Tfsync. fileOp. ask.
  - unfold Readlink, Treadlink. fileOp. ask.
  - unfold Unlock, Tlock. fileOp. eapply hoare_bind; [ask|]. intros ?. by apply hoare_ret.
  - unfold TryLock, Tlock. fileOp. eapply hoare_bind; [ask|]. intros ?. repeat case_match; by (apply hoare_ret || apply hoare_throw).
  - unfold FileGetLock, Tgetlock. fileOp. eapply hoare_bind; [ask|]. intros ?. by apply hoare_ret.
Qed.

Lemma keeps_rooted u b op paths ps : keeps (FidInv u b) (rooted dialect op paths ps).
Proof.
  unfold rooted. keep (keeps_requireDialect u b). keep (keeps_beginRoot u b). case_match; [by apply hoare_throw|by apply hoare_ret].
Qed.

(** Two walks from the root, a request, and both fids given back. *)
Lemma twoWalks_FidInv {A} base1 names1 what1 base2 names2 what2 (m : Fid -> Fid -> M S A) :
  (forall f1 f2 u b, keeps (FidInv u b) (onWire (m f1 f2))) ->
  keeps (FidInv [] []) (f1 ← walkNew base1 names1 what1;
    f2 ← onError (walkNew base2 names2 what2) (cleanupFid f1);
    finally (finally (onWire (m f1 f2)) (cleanupFid f2)) (cleanupFid f1)).
Proof.
  intros Hm. keep walkNew_FidInv. eapply hoare_bind; [apply hoare_onError, walkNew_FidInv|]. intros f2. cbn beta.
  apply (hoare_finally _ _ _ [] (fun _ => []) []), (hoare_finally _ _ _ [] (fun _ => [a]) [a]), Hm.
Qed.

Lemma Link_FidInv old new : keeps (FidInv [] []) (Link dialect old new).
Proof.
  unfold Link. eapply hoare_bind; [apply keeps_rooted|]. intros [root fulls]. cbn beta iota.
  repeat case_match; try (by apply hoare_throw).
  apply (twoWalks_FidInv _ _ _ _ _ _ (fun f1 f2 => Tlink dialect f2 f1 _)). intros. unfold Tlink. ask.
Qed.

Lemma Rename_FidInv from to : keeps (FidInv [] []) (Rename dialect from to).
Proof.
  unfold Rename. eapply hoare_bind; [apply keeps_rooted|]. intros [root fulls]. cbn beta iota.
  repeat case_match; try (by apply hoare_throw).
  apply (twoWalks_FidInv _ _ _ _ _ _ (fun f1 f2 => Trenameat dialect f1 _ f2 _)). intros. unfold Trenameat. ask.
Qed.

Lemma keeps_unlinkat u b f name flags : keeps (FidInv u b) (onWire (Tunlinkat dialect f name flags)).
Proof. unfold Tunlinkat. ask. Qed.

Lemma Remove_FidInv p : keeps (FidInv [] []) (Remove dialect p).
Proof.
  unfold Remove. eapply hoare_bind; [apply keeps_rooted|]. intros [root fulls]. cbn beta iota.
  repeat case_match; try (by apply hoare_throw). keep walkNew_FidInv.
  apply (hoare_finally _ _ _ [] (fun _ => []) []). intros c Hc. pose proof (keeps_unlinkat [] [a] a s 0 c Hc) as Hk.
  destruct (onWire _ c) as [[[]|e] c1]; [done|]. destruct (errors_Is e _); [|done]. exact (keeps_unlinkat [] [a] a s atRemoveDir c1 Hk).
Qed.

Lemma makeEntry_FidInv op what path (make : Fid -> string -> M S QID.t) :
  (forall f name u b, keeps (FidInv u b) (onWire (make f name))) ->
  keeps (FidInv [] []) (makeEntry dialect op what path make).
Proof.
  intros Hm. unfold makeEntry. eapply hoare_bind; [apply keeps_rooted|]. intros [root fulls]. cbn beta iota.
  repeat case_match; try (by apply hoare_throw). keep walkNew_FidInv.
  eapply hoare_bind; [apply hoare_onError, Hm|]. intros q. cbn beta.
  eapply hoare_bind; [apply (hoare_finally _ _ a [] (fun f => [f]) [])|].
  - eapply hoare_conseq; [apply (walkNew_FidInv a _ _ [a])|done| |done]. intros f c. cbn beta.
    apply FidInv_perm; [done|apply Permutation_swap].
  - intros f. cbn beta. by apply (allocFile_FidInv [] [] (newFile f q 0)).
Qed.

Lemma keeps_Tlock u b f lt flags start len pid id : keeps (FidInv u b) (onWire (Tlock dialect f lt flags start len pid id)).
Proof. unfold Tlock. ask. Qed.

Lemma lockLoop_FidInv fuel i schedule ctxErr pid f lt slept c r slept' c' :
  lockLoop dialect fuel i schedule ctxErr pid f lt slept c = Some (r, slept', c') -> FidInv [] [] c -> FidInv [] [] c'.
Proof.
  revert i slept c. induction fuel as [|fuel IH]; intros i slept c; cbn [lockLoop]; [done|]. intros E Hc.
  assert (forall c0, FidInv [] [] c0 -> FidInv [] [] (unlockCleanup dialect f pid c0).2) as Hu.
  { intros c0 H0. unfold unlockCleanup. cbn. pose proof (keeps_Tlock [] [] (fid f) LockTypeUnlck 0 0 0 pid "" c0 H0) as Hk.
    by destruct (onWire _ c0) as [[]]. }
  pose proof (keeps_Tlock [] [] (fid f) lt LockFlagBlock 0 0 pid "" c Hc) as Hk.
  destruct (onWire _ c) as [[status|e] c1]; repeat case_match; try discriminate; simplify_eq; auto.
  by eapply IH.
Qed.

(** ** Extended attributes *)

Lemma xattrReadLoop_FidInv msize fuel f size buf c r c' u b :
  xattrReadLoop msize fuel f size buf c = Some (r, c') -> FidInv u b c -> FidInv u b c'.
Proof.
  revert buf c. induction fuel as [|fuel IH]; intros buf c; cbn [xattrReadLoop].
  - destruct (_ <? _); [done|]. by intros [= _ <-].
  - destruct (_ <? _); [|by intros [= _ <-]]. intros E Hc. set (want := if _ <? xattrChunk msize then _ else _) in E.
    pose proof (keeps_tread u b f (Z.of_nat (length buf)) want c Hc) as Hk.
    destruct (onWire _ c) as [[data|e] c1]; [|by injection E as _ <-].
    case_hyp E; [by injection E as _ <-|]. case_hyp E; [by injection E as _ <-|]. by eapply IH.
Qed.

Lemma xattrWriteLoop_FidInv msize fuel f data off c r c' u b :
  xattrWriteLoop msize fuel f data off c = Some (r, c') -> FidInv u b c -> FidInv u b c'.
Proof.
  revert off c. induction fuel as [|fuel IH]; intros off c; cbn [xattrWriteLoop].
  - destruct (_ <? _)%nat; [done|]. by intros [= _ <-].
  - destruct (_ <? _)%nat; [|by intros [= _ <-]]. intros E Hc.
    pose proof (keeps_twrite u b f (Z.of_nat off) (take (Z.to_nat (xattrChunk msize)) (drop off data)) c Hc) as Hk.
    destruct (onWire _ c) as [[n|e] c1]; [|by injection E as _ <-]. destruct (_ =? _); [by injection E as _ <-|]. by eapply IH.
Qed.

Lemma finish_cleanup {A} f (m : M C A) c r c' :
  (forall c0, (m c0).2 = c0) -> FidInv [] [f] c ->
  (finally m (cleanupFid f) c = (r, c') \/ (cleanupFid f;; m) c = (r, c')) -> FidInv [] [] c'.
Proof.
  intros Hm Hc%cleanup_FidInv [E|E].
  - unfold finally in E. destruct (m c) as [r0 c0] eqn:Ec. specialize (Hm c). rewrite Ec in Hm. cbn in Hm. subst c0. by injection E as _ <-.
  - unfold mbind, M_bind in E. destruct (cleanupFid f c) as [[[]|e] c1]; [|by injection E as _ <-].
    specialize (Hm c1). rewrite E in Hm. cbn in Hm. by subst.
Qed.

Lemma twoPhaseXattrRead_FidInv msize fuel p name c r c' :
  twoPhaseXattrRead msize dialect fuel p name c = Some (r, c') -> FidInv [] [] c -> FidInv [] [] c'.
Proof.
  unfold twoPhaseXattrRead. set (start := beginOp p ≫= _). intros E Hc.
  assert (hoare (FidInv [] []) start (fun a => FidInv [] [a.1]) (FidInv [] [])) as Hs.
  { unfold start. fileOp. keep acquire_FidInv. rename a1 into f.
    apply (hoare_bind _ _ _ (fun _ => FidInv [] [f])); [|intros size; by apply hoare_ret].
    apply (bind_FidInv f []). intros s0 r0 s1 E0. unfold Txattrwalk, requireDialect in E0.
    case_decide; [|injection E0 as <- <-; left; split; [done|by eexists]].
    unfold mbind, M_bind in E0. cbn in E0. apply rtrip_spec in E0 as (r1 & E0 & Hr). right. eexists _, r1.
    split; [exact E0|]. split; [done|]. destruct r0 as [z|e].
    - destruct Hr as (resp & -> & Hp). exists resp. split; [done|]. by destruct resp.
    - destruct Hr as [Hr|(resp & -> & Hr)]; [by left|]. right. exists resp. split; [done|]. destruct resp; try done. by destruct Hr. }
  specialize (Hs c Hc). destruct (start c) as [[[f size]|e] c1]; [cbn in Hs|by injection E as _ <-].
  destruct (_ <? _); [apply (inj Some) in E; eapply (finish_cleanup f (throw _)); [by intros ?|exact Hs|left; exact E]|].
  destruct (_ =? _); [apply (inj Some) in E; eapply (finish_cleanup f (mret [])); [by intros ?|exact Hs|right; exact E]|].
  destruct (_ =? _); [apply (inj Some) in E; eapply (finish_cleanup f (throw _)); [by intros ?|exact Hs|left; exact E]|].
  destruct (xattrReadLoop _ _ _ _ _ c1) as [[[buf|e] c2]|] eqn:El; [| |done];
    apply (xattrReadLoop_FidInv _ _ _ _ _ _ _ _ [] [f]) in El; try done; apply (inj Some) in E.
  - eapply (finish_cleanup f (mret buf)); [by intros ?|exact El|right; exact E].
  - eapply (finish_cleanup f (throw e)); [by intros ?|exact El|left; exact E].
Qed.

Lemma XattrSet_FidInv msize fuel p name data flags c r c' :
  XattrSet msize dialect fuel p name data flags c = Some (r, c') -> FidInv [] [] c -> FidInv [] [] c'.
Proof.
  unfold XattrSet. set (start := requireDialect dialect _ _ ≫= _). intros E Hc.
  assert (hoare (FidInv [] []) start (fun f => FidInv [] [fid f]) (FidInv [] [])) as Hs.
  { unfold start. keep (keeps_requireDialect [] []). eapply hoare_bind; [apply cloneFile_FidInv|]. intros f.
    apply hoare_pure. intros _. apply (hoare_bind _ _ _ (fun _ => FidInv [] [fid f])); [|intros ?; by apply hoare_ret].
    apply hoare_onError. unfold Txattrcreate. ask. }
  specialize (Hs c Hc). destruct (start c) as [[f|e] c1]; [cbn in Hs|by injection E as _ <-].
  destruct (_ && _); [apply (inj Some) in E; eapply (finish_cleanup (fid f) (throw _)); [by intros ?|exact Hs|left; exact E]|].
  destruct (xattrWriteLoop _ _ _ _ _ c1) as [[[[]|e] c2]|] eqn:El; [| |done];
    apply (xattrWriteLoop_FidInv _ _ _ _ _ _ _ _ [] [fid f]) in El; try done; apply (inj Some) in E.
  - pose proof (cleanup_FidInv [] (fid f) [] c2 El) as Hk. by rewrite E in Hk.
  - eapply (finish_cleanup (fid f) (throw e)); [by intros ?|exact El|left; exact E].
Qed.

(** ** Calls

    Any call of the package; [call_io] stands for the reads, writes and
    listings of [ClientFile], whose requests bind and give up nothing. *)
Definition ioRequest (m : Message) : bool :=
  match m with MTread _ | MTwrite _ | MTreaddir _ => true | _ => false end.

(** Calls other than [Close]. *)
Inductive clientCall (msize : Z) (c : C) : C -> Prop :=
  | call_Attach uname aname uid : clientCall msize c (Attach uname aname uid c).2
  | call_OpenFile p flags : clientCall msize c (OpenFile dialect p flags c).2
  | call_Create p flags mode : clientCall msize c (Create dialect p flags mode c).2
  | call_Walk p names : clientCall msize c (Walk p names c).2
  | call_Clone p : clientCall msize c (Clone p c).2
  | call_Link old new : clientCall msize c (Link dialect old new c).2
  | call_Rename from to : clientCall msize c (Rename dialect from to c).2
  | call_Remove p : clientCall msize c (Remove dialect p c).2
  | call_Mkdir p mode gid : clientCall msize c (Mkdir dialect p mode gid c).2
  | call_Mknod p mode major minor gid : clientCall msize c (Mknod dialect p mode major minor gid c).2
  | call_Symlink p target : clientCall msize c (Symlink dialect p target c).2
  | call_RefreshSize p : clientCall msize c (RefreshSize dialect p c).2
  | call_Stat p : clientCall msize c (FileStat dialect p c).2
  | call_Getattr p mask : clientCall msize c (Getattr dialect p mask c).2
  | call_Setattr p attr : clientCall msize c (Setattr dialect p attr c).2
  | call_Statfs p : clientCall msize c (Statfs dialect p c).2
  | call_Fsync p dataSync : clientCall msize c (Fsync dialect p dataSync c).2
  | call_Readlink p : clientCall msize c (Readlink dialect p c).2
  | call_Unlock pid p : clientCall msize c (Unlock dialect pid p c).2
  | call_TryLock pid p lt : clientCall msize c (TryLock dialect pid p lt c).2
  | call_GetLock pid p lt : clientCall msize c (FileGetLock dialect pid p lt c).2
  | call_Lock fuel polls ctxErr pid p lt r c' : FileLock dialect fuel polls ctxErr pid p lt c = Some (r, c') -> clientCall msize c c'
  | call_XattrGet fuel p name r c' : XattrGet msize dialect fuel p name c = Some (r, c') -> clientCall msize c c'
  | call_XattrSet fuel p name data flags r c' : XattrSet msize dialect fuel p name data flags c = Some (r, c') -> clientCall msize c c'
  | call_io m : ioRequest m = true -> clientCall msize c (onWire (roundTrip m) c).2
  | call_shutdown : clientCall msize c (mkConn (signalShutdown (wire c)) (alloc c) (files c) (rootFile c)).

Inductive anyCall (msize : Z) (c : C) : C -> Prop :=
  | any_call c' : clientCall msize c c' -> anyCall msize c c'
  | any_Close p : anyCall msize c (Close p c).2.

Lemma keeps_snd {A} (I : C -> Prop) (m : M C A) c : keeps I m -> I c -> I (m c).2.
Proof. intros Hm Hc. specialize (Hm c Hc). by destruct (m c) as [[]]. Qed.

Lemma io_FidInv u b m : ioRequest m = true -> keeps (FidInv u b) (onWire (roundTrip m)).
Proof.
  intros Hm c Hc. unfold onWire, roundTrip. destruct (roundTripWithFlush m true (wire c)) as [r s'] eqn:E.
  assert (FidInv u b (mkConn s' (alloc c) (files c) (rootFile c))) as Hk; [|by destruct r].
  by eapply (neutral_FidInv u b c m); [intros []; destruct m|destruct m| |].
Qed.

Lemma call_FidInv msize c c' : clientCall msize c c' -> FidInv [] [] c -> FidInv [] [] c'.
Proof.
  intros Hcall Hc.
  destruct Hcall as [| | | | | | | |? ? ?|? ? ? ? ?|? ?| | |p mask| |p|p b|p|pid p|pid p lt|pid p lt|? ? ? ? ? ? ? ? E|? ? ? ? ? E|? ? ? ? ? ? ? E|m Hm|];
    try (by (eapply keeps_snd; [|exact Hc]);
         first [apply Attach_FidInv|apply OpenFile_FidInv|apply Create_FidInv|apply Walk_FidInv|apply Clone_FidInv|apply Link_FidInv
               |apply Rename_FidInv|apply Remove_FidInv|apply RefreshSize_FidInv|apply FileStat_FidInv|apply Setattr_FidInv
               |apply (queries_FidInv p mask true 0 0)|apply (queries_FidInv p 0 true 0 0)|apply (queries_FidInv p 0 b 0 0)
               |apply (queries_FidInv p 0 true pid lt)|apply (queries_FidInv p 0 true pid 0)|apply (io_FidInv [] [] m Hm)]).
  all: try (apply (keeps_snd (FidInv [] [])); [|exact Hc]; apply makeEntry_FidInv; intros; first [unfold Tmkdir|unfold Tmknod|unfold Tsymlink]; ask).
  - unfold FileLock in E. pose proof (keeps_beginOp [] [] p c Hc) as Hk.
    destruct (beginOp p c) as [[f|e] c1]; [|by injection E as _ <-]. destruct r as [r slept]. by eapply lockLoop_FidInv.
  - by eapply twoPhaseXattrRead_FidInv.
  - by eapply XattrSet_FidInv.
  - apply dead_FidInv; [done|]. apply (shutdown_dead T F Hok).
Qed.

Lemma anyCall_FidInv msize c c' : anyCall msize c c' -> FidInv [] [] c -> FidInv [] [] c'.
Proof.
  intros [c1 Hc1|p] Hc; [by eapply call_FidInv|]. apply (keeps_snd (FidInv [] [])); [apply Close_FidInv|done].
Qed.

Definition start (s : S) : C := mkConn s Fids.newFidAllocator [] None.

Lemma start_FidInv s : bound s = ∅ -> FidInv [] [] (start s).
Proof.
  intros Hb. exists []. split.
  - cbn. unfold Fids.fidStart, NoFid. split; [lia|]. split; [constructor|]. split; [unfold Fids.reuseCacheSize; lia|constructor].
  - intros _. split; intros f; cbn; [by intros ?%not_elem_of_nil|]. rewrite Hb. set_solver.
Qed.

Lemma reachable_FidInv msize s c : bound s = ∅ -> rtc (anyCall msize) (start s) c -> FidInv [] [] c.
Proof.
  intros Hb. revert c. apply (rtc_ind_r (FidInv [] []) (start s)); [by apply start_FidInv|].
  intros c1 c2 _ Hs Hi. by eapply anyCall_FidInv.
Qed.

Lemma FidInv_free c f : FidInv [] [] c -> free (alloc c) f ->
  f ∉ openFids (files c) /\ (alive (wire c) = true -> f ∉ bound (wire c)).
Proof.
  intros (q & (Hn & Hd & Hl & Hf) & Ha) Hfree. cbn in Hd, Hf.
  assert (forall g, g ∈ openFids (files c) ++ q -> g <> f) as Hne.
  { intros g Hg ->. destruct Hfree as [Hr|Hr].
    - apply NoDup_app in Hd as (_ & Hd & _). by apply (Hd f Hr).
    - rewrite Forall_forall in Hf. specialize (Hf f). rewrite elem_of_app in Hf. specialize (Hf (or_intror Hg)). cbn in Hf. lia. }
  split; [intros Hg; by apply (Hne f); [apply elem_of_app; left|]|].
  intros Hlive Hb. destruct (Ha Hlive) as [_ H2]. apply (Hne f); [|done]. apply elem_of_app.
  destruct (H2 f Hb) as [|[? _]]; auto.
Qed.

(** ** A bound fid on top of the free list *)

Section Stuck.
Context (bad : Fid) (rest : list Fid) (Hrest : (length rest < Fids.reuseCacheSize)%nat).

Definition stays (c : C) : Prop := bad ∉ openFids (files c) /\ (alive (wire c) = true -> bad ∈ bound (wire c)).
Definition Stuck (c : C) : Prop := Fids.reuse (alloc c) = bad :: rest /\ stays c.
Definition Taken (c : C) : Prop := Fids.reuse (alloc c) = rest /\ stays c.

Lemma request_stays m flush s r s' :
  unbinds m = None -> roundTripWithFlush m flush s = (r, s') -> (alive s = true -> bad ∈ bound s) -> alive s' = true -> bad ∈ bound s'.
Proof.
  intros Hu E Hs Hl. assert (alive s = true) as Hl0 by (eapply (alive_before m flush); by rewrite E). specialize (Hs Hl0).
  destruct r as [resp|e].
  - destruct (reply_fids T F Hok _ _ _ _ _ E Hl) as [-> _]. rewrite Hu. cbn. set_solver.
  - destruct (error_fids T F Hok _ _ _ _ _ E Hl) as (_ & Hsub & _). rewrite Hu in Hsub. cbn in Hsub. set_solver.
Qed.

Lemma stuck_rtrip {A} want (project : Message -> option A) req :
  unbinds req = None -> keeps Stuck (onWire (rtrip want project req)).
Proof.
  intros Hu c (Hr & Ho & Hb). unfold onWire. destruct (rtrip want project req (wire c)) as [r s'] eqn:E.
  apply rtrip_spec in E as (r0 & E & _). pose proof (request_stays req true (wire c) r0 s' Hu E Hb). by destruct r.
Qed.

Lemma stuck_require {A} want op (m : M S A) : keeps Stuck (onWire m) -> keeps Stuck (onWire (requireDialect dialect want op;; m)).
Proof. intros Hm c Hc. unfold requireDialect. case_decide; [exact (Hm c Hc)|by destruct c]. Qed.

Lemma stuck_beginOp p : hoare Stuck (beginOp p) (fun f c => fid f <> bad /\ Stuck c) Stuck.
Proof.
  intros c Hc. unfold beginOp. destruct (files c !! p) as [f|] eqn:Hp; [|done]. destruct (closed f) eqn:Hf; [done|].
  split; [|done]. intros Heq. destruct Hc as (_ & Hn & _). apply Hn. rewrite (openFids_close p (files c) f Hp Hf), Heq. by left.
Qed.

Lemma stuck_beginRoot op : hoare Stuck (beginRoot op) (fun f c => fid f <> bad /\ Stuck c) Stuck.
Proof. intros c Hc. unfold beginRoot. destruct (rootFile c) as [p|]; [|done]. exact (stuck_beginOp p c Hc). Qed.

Lemma stuck_requireDialect want op : keeps Stuck (requireDialect (T := C) dialect want op).
Proof. intros c Hc. unfold requireDialect. by case_decide. Qed.

Lemma stuck_acquire : hoare Stuck acquire (fun f c => f = bad /\ Taken c) Stuck.
Proof. intros [s [n reuse] fs r] ([= ->] & Hs). done. Qed.

Lemma taken_release c : Taken c -> Stuck (release bad c).2.
Proof.
  intros [Hr Hs]. unfold Stuck, release, Fids.release. cbn [snd alloc]. rewrite Hr. by rewrite (proj2 (Nat.ltb_lt _ _) Hrest).
Qed.

(** The server refuses to bind it. *)
Lemma stuck_bind {A} (m : M S A) :
  (forall s r s', m s = (r, s') ->
     (s' = s /\ exists e, r = Err e) \/
     exists req r0, roundTripWithFlush req true s = (r0, s') /\ unbinds req = None /\
       match r with
       | Ok _ => exists resp, r0 = Ok resp /\ binds req resp = Some bad /\ inPlace req = false
       | Err _ => True
       end) ->
  hoare Taken (onError (onWire m) (release bad)) (fun _ _ => False) Stuck.
Proof.
  intros Hm c (Hr & Ho & Hb). unfold onError, onWire. destruct (m (wire c)) as [r s'] eqn:E.
  apply Hm in E as [[-> [e ->]]|(req & r0 & E & Hu & Hres)]; [by apply taken_release|].
  destruct r as [a|e].
  - destruct Hres as (resp & -> & Hbind & Hin). pose proof (reply_alive T F Hok _ _ _ _ _ E) as Hl.
    apply (reply_fresh T F Hok _ _ _ _ _ _ E Hl Hbind Hin), Hb. eapply (alive_before req true). by rewrite E.
  - apply taken_release. split; [done|]. split; [done|]. by apply (request_stays req true (wire c) r0 s').
Qed.

Lemma stuck_walkOnto base names complete partial :
  base <> bad -> (forall qids, complete qids = true -> names = [] \/ length qids = length names) ->
  hoare Taken (walkOnto base bad names complete partial) (fun _ _ => False) Stuck.
Proof.
  intros Hbase Hcomp. apply stuck_bind. intros s r s' E. unfold mbind, M_bind, twalk in E.
  destruct (rtrip _ _ _ s) as [r1 s1] eqn:Et. apply rtrip_spec in Et as (r0 & E0 & Hr). right. eexists _, r0.
  assert (s1 = s') as -> by (destruct r1 as [qids|]; [unfold mret, M_ret, throw in E; destruct (complete qids)|]; by injection E).
  split; [exact E0|]. split; [done|]. destruct r as [a|]; [|done]. destruct r1 as [qids|]; [|done].
  destruct Hr as (resp & -> & Hp). exists resp. split; [done|]. destruct resp; try done. injection Hp as <-.
  destruct (complete _) eqn:Ec; [|done]. cbn. rewrite decide_True by by apply Hcomp. split; [done|]. by apply Z.eqb_neq.
Qed.

Lemma hoare_False {A} (m : M C A) Q R : hoare (fun _ => False) m Q R.
Proof. by intros ? []. Qed.

Ltac blocked_by H := eapply hoare_bind; [apply H|intros ?; cbn beta; try (apply hoare_False)].
Ltac at_root := eapply hoare_bind; [apply stuck_beginRoot|intros ?; apply hoare_pure; intros ?].
Ltac at_file := eapply hoare_bind; [apply stuck_beginOp|intros ?; apply hoare_pure; intros ?].
Ltac take_bad := eapply hoare_bind; [apply stuck_acquire|intros ?; apply hoare_pure; intros ->].

Lemma stuck_walkNew base names what : base <> bad -> hoare Stuck (walkNew base names what) (fun _ _ => False) Stuck.
Proof.
  intros Hb. unfold walkNew. take_bad. eapply hoare_bind; [apply stuck_walkOnto; [done|apply allSteps_spec]|]. intros ?. apply hoare_False.
Qed.

Lemma stuck_Attach uname aname uid : hoare Stuck (Attach uname aname uid) (fun _ _ => False) Stuck.
Proof.
  unfold Attach. take_bad. eapply hoare_bind; [apply stuck_bind|intros ?; apply hoare_False].
  intros s r s' E. unfold tattach in E. apply rtrip_spec in E as (r0 & E & Hr). right. eexists _, r0.
  split; [exact E|]. split; [done|]. destruct r; [|done]. destruct Hr as (resp & -> & Hp). exists resp. by destruct resp.
Qed.

Lemma stuck_OpenFile p flags : hoare Stuck (OpenFile dialect p flags) (fun _ _ => False) Stuck.
Proof.
  unfold OpenFile. at_root. take_bad. eapply hoare_bind; [apply stuck_walkOnto; [done|apply allSteps_spec]|]. intros ?. apply hoare_False.
Qed.

Lemma stuck_Create p flags mode : hoare Stuck (Create dialect p flags mode) (fun _ _ => False) Stuck.
Proof.
  unfold Create. at_root. destruct (splitPath p); [by apply hoare_throw|]. destruct (parentAndName _).
  blocked_by (stuck_walkNew (fid a)); done.
Qed.

Lemma stuck_Walk p names : hoare Stuck (Walk p names) (fun _ _ => False) Stuck.
Proof.
  unfold Walk. at_file. destruct names; [by apply hoare_throw|]. take_bad.
  eapply hoare_bind; [apply stuck_walkOnto; [done|]|intros ?; apply hoare_False]. intros qids Hq%Nat.eqb_eq. by right.
Qed.

Lemma stuck_cloneFile p : hoare Stuck (cloneFile p) (fun _ _ => False) Stuck.
Proof.
  unfold cloneFile. at_file. take_bad. eapply hoare_bind; [apply stuck_walkOnto; [done|by left]|intros ?; apply hoare_False].
Qed.

Lemma stuck_rooted op paths ps : hoare Stuck (rooted dialect op paths ps) (fun a c => fid a.1 <> bad /\ Stuck c) Stuck.
Proof.
  unfold rooted. eapply hoare_bind; [apply stuck_requireDialect|intros ?; cbn beta]. at_root.
  case_match; [by apply hoare_throw|by apply hoare_ret].
Qed.

(** The path-rooted calls begin with a walk from the root. *)
Lemma stuck_afterRooted {A} op paths ps (k : File * list (list string) -> M C A) :
  (forall root fulls, fid root <> bad -> hoare Stuck (k (root, fulls)) (fun _ _ => False) Stuck) ->
  hoare Stuck (rooted dialect op paths ps ≫= k) (fun _ _ => False) Stuck.
Proof. intros Hk. eapply hoare_bind; [apply stuck_rooted|]. intros [root fulls]. apply hoare_pure. cbn. apply Hk. Qed.

Lemma stuck_Link old new : hoare Stuck (Link dialect old new) (fun _ _ => False) Stuck.
Proof.
  apply stuck_afterRooted. intros root fulls Hr. repeat case_match; try by apply hoare_throw.
  blocked_by (stuck_walkNew (fid root)); done.
Qed.

Lemma stuck_Rename from to : hoare Stuck (Rename dialect from to) (fun _ _ => False) Stuck.
Proof.
  apply stuck_afterRooted. intros root fulls Hr. repeat case_match; try by apply hoare_throw.
  blocked_by (stuck_walkNew (fid root)); done.
Qed.

Lemma stuck_Remove p : hoare Stuck (Remove dialect p) (fun _ _ => False) Stuck.
Proof.
  apply stuck_afterRooted. intros root fulls Hr. repeat case_match; try by apply hoare_throw.
  blocked_by (stuck_walkNew (fid root)); done.
Qed.

Lemma stuck_makeEntry op what path make : hoare Stuck (makeEntry dialect op what path make) (fun _ _ => False) Stuck.
Proof.
  apply stuck_afterRooted. intros root fulls Hr. repeat case_match; try by apply hoare_throw.
  blocked_by (stuck_walkNew (fid root)); done.
Qed.

Lemma stuck_XattrGet msize fuel p name c : Stuck c ->
  exists e c', XattrGet msize dialect fuel p name c = Some (Err e, c') /\ Stuck c'.
Proof.
  intros Hc. unfold XattrGet, twoPhaseXattrRead. set (st := beginOp p ≫= _).
  assert (hoare Stuck st (fun _ _ => False) Stuck) as Hs.
  { unfold st. at_file. eapply hoare_bind; [apply stuck_requireDialect|intros ?; cbn beta]. take_bad.
    eapply hoare_bind; [apply stuck_bind|intros ?; apply hoare_False]. intros s0 r0 s1 E0. unfold Txattrwalk, requireDialect in E0.
    case_decide; [|injection E0 as <- <-; left; split; [done|by eexists]].
    unfold mbind, M_bind in E0. cbn in E0. apply rtrip_spec in E0 as (r1 & E0 & Hr). right. eexists _, r1.
    split; [exact E0|]. split; [done|]. destruct r0; [|done]. destruct Hr as (resp & -> & Hp). exists resp. by destruct resp. }
  specialize (Hs c Hc). destruct (st c) as [[[]|e] c1]; [done|]. by exists e, c1.
Qed.

Lemma stuck_XattrSet msize fuel p name data flags c : Stuck c ->
  exists e c', XattrSet msize dialect fuel p name data flags c = Some (Err e, c') /\ Stuck c'.
Proof.
  intros Hc. unfold XattrSet. set (st := requireDialect _ _ _ ≫= _).
  assert (hoare Stuck st (fun _ _ => False) Stuck) as Hs.
  { unfold st. eapply hoare_bind; [apply stuck_requireDialect|intros ?; cbn beta]. blocked_by stuck_cloneFile. }
  specialize (Hs c Hc). destruct (st c) as [[?|e] c1]; [done|]. by exists e, c1.
Qed.

(** The calls that take no fid. *)
Lemma stuck_wireBind {A B} (m : M S A) (g : A -> B) : keeps Stuck (onWire m) -> keeps Stuck (onWire (a ← m; mret (g a))).
Proof. intros Hm c Hc. specialize (Hm c Hc). unfold onWire in *. unfold mbind, M_bind. by destruct (m (wire c)) as [[]]. Qed.

Lemma stuck_byDialect {A} (m1 m2 : M S A) :
  keeps Stuck (onWire m1) -> keeps Stuck (onWire m2) -> keeps Stuck (onWire (byDialect dialect m1 m2)).
Proof. intros H1 H2 c Hc. unfold byDialect. destruct dialect; [by destruct c|by apply H1|by apply H2]. Qed.

Lemma stuck_setSize p size : keeps Stuck (setFile p (setCachedSize size)).
Proof. intros [s fa fs r] (Hr & Ho & Hb). split; [done|]. split; [|done]. cbn [files]. by rewrite openFids_alter. Qed.

Ltac sask := try apply stuck_require; apply stuck_rtrip; reflexivity.
Ltac sfile := eapply hoare_bind; [apply stuck_beginOp|intros ?; apply hoare_pure; intros _];
  try (eapply hoare_bind; [apply stuck_requireDialect|intros ?; cbn beta]).

Lemma stuck_queries p mask attr dataSync pid lt :
  keeps Stuck (RefreshSize dialect p) /\ keeps Stuck (FileStat dialect p) /\ keeps Stuck (Getattr dialect p mask) /\
  keeps Stuck (Setattr dialect p attr) /\ keeps Stuck (Statfs dialect p) /\ keeps Stuck (Fsync dialect p dataSync) /\
  keeps Stuck (Readlink dialect p) /\ keeps Stuck (Unlock dialect pid p) /\ keeps Stuck (TryLock dialect pid p lt) /\
  keeps Stuck (FileGetLock dialect pid p lt).
Proof.
  split_and!.
  - unfold RefreshSize. sfile. eapply hoare_bind; [|intros ?; apply stuck_setSize].
    apply stuck_byDialect; apply stuck_wireBind; unfold Tgetattr, Tstat; sask.
  - unfold FileStat. sfile. apply stuck_byDialect; apply stuck_wireBind; unfold Tgetattr, Tstat; sask.
  - unfold Getattr, Tgetattr. sfile. sask.
  - unfold Setattr, Tsetattr. sfile. sask.
  - unfold Statfs, Tstatfs. sfile. sask.
  - unfold Fsync, Tfsync. sfile. sask.
  - unfold Readlink, Treadlink. sfile. sask.
  - unfold Unlock, Tlock. sfile. eapply hoare_bind; [sask|]. intros ?. by apply hoare_ret.
  - unfold TryLock, Tlock. sfile. eapply hoare_bind; [sask|]. intros ?. repeat case_match; by (apply hoare_ret || apply hoare_throw).
  - unfold FileGetLock, Tgetlock. sfile. eapply hoare_bind; [sask|]. intros ?. by apply hoare_ret.
Qed.

Lemma stuck_lockLoop fuel i schedule ctxErr pid f lt slept c r slept' c' :
  lockLoop dialect fuel i schedule ctxErr pid f lt slept c = Some (r, slept', c') -> Stuck c -> Stuck c'.
Proof.
  assert (forall lt flags, keeps Stuck (onWire (Tlock dialect (fid f) lt flags 0 0 pid ""))) as Ht by (intros; unfold Tlock; sask).
  revert i slept c. induction fuel as [|fuel IH]; intros i slept c; cbn [lockLoop]; [done|]. intros E Hc.
  assert (forall c0, Stuck c0 -> Stuck (unlockCleanup dialect f pid c0).2) as Hu.
  { intros c0 H0. unfold unlockCleanup. cbn. specialize (Ht LockTypeUnlck 0 c0 H0). by destruct (onWire _ c0) as [[]]. }
  specialize (Ht lt LockFlagBlock c Hc).
  destruct (onWire _ c) as [[status|e] c1]; repeat case_match; try discriminate; simplify_eq; auto. by eapply IH.
Qed.

Lemma hoare_snd {A} (m : M C A) c Q : hoare Stuck m Q Stuck -> (forall a c', Q a c' -> Stuck c') -> Stuck c -> Stuck (m c).2.
Proof. intros Hm HQ Hc. specialize (Hm c Hc). destruct (m c) as [[]]; eauto. Qed.

Lemma stuck_call msize c c' : clientCall msize c c' -> Stuck c -> Stuck c'.
Proof.
  intros Hcall Hc.
  destruct Hcall as [| | | | | | | |? ? ?|? ? ? ? ?|? ?|p|p|p mask|p attr|p|p b|p|pid p|pid p lt|pid p lt
    |? ? ? ? ? ? ? ? E|? ? ? ? ? E|? ? ? ? ? ? ? E|m Hm|].
  1-11: apply (hoare_snd _ c (fun _ _ => False)); [|by intros ? ? []|exact Hc];
    first [apply stuck_Attach|apply stuck_OpenFile|apply stuck_Create|apply stuck_Walk|apply stuck_Link|apply stuck_Rename
          |apply stuck_Remove|apply stuck_makeEntry|unfold Clone; blocked_by stuck_cloneFile].
  1-10: apply (keeps_snd Stuck); [|exact Hc].
  - apply (stuck_queries p 0 SetAttr.zero true 0 0).
  - apply (stuck_queries p 0 SetAttr.zero true 0 0).
  - apply (stuck_queries p mask SetAttr.zero true 0 0).
  - apply (stuck_queries p 0 attr true 0 0).
  - apply (stuck_queries p 0 SetAttr.zero true 0 0).
  - apply (stuck_queries p 0 SetAttr.zero b 0 0).
  - apply (stuck_queries p 0 SetAttr.zero true 0 0).
  - apply (stuck_queries p 0 SetAttr.zero true pid 0).
  - apply (stuck_queries p 0 SetAttr.zero true pid lt).
  - apply (stuck_queries p 0 SetAttr.zero true pid lt).
  - unfold FileLock in E. pose proof (stuck_beginOp p c Hc) as Hk.
    destruct (beginOp p c) as [[f|e] c1]; [|by injection E as _ <-]. destruct r as [r slept]. eapply stuck_lockLoop; [exact E|apply Hk].
  - destruct (stuck_XattrGet msize fuel p name c Hc) as (e & c1 & E1 & H1). rewrite E1 in E. by injection E as _ <-.
  - destruct (stuck_XattrSet msize fuel p name data flags c Hc) as (e & c1 & E1 & H1). rewrite E1 in E. by injection E as _ <-.
  - destruct Hc as (Hr & Ho & Hb). unfold onWire, roundTrip. destruct (roundTripWithFlush m true (wire c)) as [r s'] eqn:E.
    split; [done|]. split; [done|]. cbn. apply (request_stays m true (wire c) r s'); [by destruct m|done|done].
  - destruct Hc as (Hr & Ho & Hb). split; [done|]. split; [done|]. cbn. by rewrite (shutdown_dead T F Hok).
Qed.
End Stuck.

(** Every call that takes a fid fails. *)
Definition allFail (msize : Z) (c : C) : Prop :=
  let fails {A} (m : M C A) := exists e, (m c).1 = Err e in
  (forall uname aname uid, fails (Attach uname aname uid)) /\
  (forall p flags, fails (OpenFile dialect p flags)) /\ (forall p flags mode, fails (Create dialect p flags mode)) /\
  (forall p names, fails (Walk p names)) /\ (forall p, fails (Clone p)) /\
  (forall old new, fails (Link dialect old new)) /\ (forall from to, fails (Rename dialect from to)) /\
  (forall p, fails (Remove dialect p)) /\ (forall p mode gid, fails (Mkdir dialect p mode gid)) /\
  (forall p mode major minor gid, fails (Mknod dialect p mode major minor gid)) /\
  (forall p target, fails (Symlink dialect p target)) /\
  (forall fuel p name, exists e c', XattrGet msize dialect fuel p name c = Some (Err e, c')) /\
  (forall fuel p name data flags, exists e c', XattrSet msize dialect fuel p name data flags c = Some (Err e, c')).

Lemma hoare_fails {A} P (m : M C A) c R : hoare P m (fun _ _ => False) R -> P c -> exists e, (m c).1 = Err e.
Proof. intros Hm Hc. specialize (Hm c Hc). destruct (m c) as [[?|e] ?]; [done|by exists e]. Qed.

Lemma Stuck_reachable msize bad rest c c' :
  (length rest < Fids.reuseCacheSize)%nat -> Stuck bad rest c -> rtc (clientCall msize) c c' -> Stuck bad rest c'.
Proof. intros Hrest Hc. induction 1 as [|c1 c2 c3 Hs _ IH]; [done|]. apply IH. by eapply stuck_call. Qed.

Lemma Stuck_allFail msize bad rest c : (length rest < Fids.reuseCacheSize)%nat -> Stuck bad rest c -> allFail msize c.
Proof.
  intros Hrest Hc. unfold allFail. split_and!; intros;
    try (eapply hoare_fails; [|exact Hc]; first [by apply stuck_Attach|by apply stuck_OpenFile|by apply stuck_Create|by apply stuck_Walk
      |by apply stuck_Link|by apply stuck_Rename|by apply stuck_Remove|by apply stuck_makeEntry
      |unfold Clone; eapply hoare_bind; [by apply stuck_cloneFile|intros ?; apply hoare_False]]).
  - destruct (stuck_XattrGet bad rest Hrest msize fuel p name c Hc) as (e & c' & E & _). eauto.
  - destruct (stuck_XattrSet bad rest Hrest msize fuel p name data flags c Hc) as (e & c' & E & _). eauto.
Qed.
End Fids.
