(* ===== verification/ServerFids.v ===== *)
(** * What a request does to the fids of a server

    The client keeps its own books of the fids it uses ([ClientFids]).  Here
    the request handlers of [Namespace], whatever the file system behind them,
    are shown to change the set of bound fids as those books assume: Tattach,
    Twalk and Txattrwalk bind their fid when and only when they succeed and it
    was free, Tclunk and Tremove give theirs up whatever they answer, and no
    other request changes the set. *)

From S2P Require Import Prelude GoIO Types Errno Proto Messages P9l P9u Message Dirents.
From S2P Require Import Bufpool FidTable Bridge Inode Namespace RefCount ClientFile ClientConn ClientOps ClientFids.

Section ServerFids.
Context {U Handle XattrWriter : Type} `{NodeOps U Handle XattrWriter}.
Context `{Capabilities (NS U) NodeId Handle XattrWriter} `{BufPool}.
Context (range : gmap string NodeId -> list (string * NodeId)).
Context (msize : Z) (proto : protocol) (maxFids : Z).
Abbreviation Srv := (@Server (NS U) NodeId Handle XattrWriter).
Abbreviation FS := (fidState NodeId Handle XattrWriter).

Definition boundFids (s : Srv) : gset Fid := dom (FidTable.fids (fids s)).
Definition Bound (d : gset Fid) (s : Srv) : Prop := boundFids s = d.

(** ** Steps that change no binding *)

Lemma bound_call {A} d (f : M (NS U) A) : keeps (Bound d) (call f).
Proof. intros s Hs. unfold call. by destruct (f (world s)) as [[] w]. Qed.
Lemma bound_onTree {A} d (f : Tree -> A * Tree) : keeps (Bound d) (onTree f).
Proof. intros s Hs. unfold onTree. by destruct (f _). Qed.
Lemma bound_emit d evs : keeps (Bound d) (emit evs).
Proof. by intros s Hs. Qed.
Lemma bound_setFs d l fs s : Bound d s -> Bound d (setFs l fs s).
Proof. done. Qed.
Lemma bound_rewriteFs d l (f : FS -> FS) :
  keeps (Bound d) (fun s : Srv => match fsAt l s with None => (Ok tt, s) | Some fs => (Ok tt, setFs l (f fs) s) end).
Proof. intros s Hs. by destruct (fsAt l s). Qed.
Lemma bound_finishClunkNow d l cn : keeps (Bound d) (finishClunkNow l cn).
Proof. intros s Hs. unfold finishClunkNow. destruct (fsAt l s) as [fs|]; [|done]. by destruct (finishClunk cn fs). Qed.
Lemma bound_closeUnboundNode d n : keeps (Bound d) (closeUnboundNode n).
Proof. apply keeps_bind; [apply bound_onTree|]. intros refs. destruct (_ && _); [apply keeps_ret|apply bound_emit]. Qed.

Lemma bound_update d fid n p : keeps (Bound d) (onTable (update fid n p)).
Proof. intros s Hs. unfold onTable, update. destruct (FidTable.fids (fids s) !! fid) as [l|]; [|done]. by destruct (FidTable.heap _ !! l). Qed.
Lemma bound_markOpened d fid h : keeps (Bound d) (onTable (markOpenedWithHandle fid h)).
Proof.
  intros s Hs. unfold onTable, markOpenedWithHandle. destruct (FidTable.fids (fids s) !! fid) as [l|]; [|done].
  destruct (FidTable.heap _ !! l); [|done]. by destruct (decide _).
Qed.
Lemma bound_updateAndOpen d fid n h : keeps (Bound d) (onTable (updateAndOpen fid n h)).
Proof.
  intros s Hs. unfold onTable, updateAndOpen. destruct (FidTable.fids (fids s) !! fid) as [l|]; [|done].
  destruct (FidTable.heap _ !! l); [|done]. by destruct (decide _).
Qed.

Ltac bound_step :=
  lazymatch goal with
  | |- keeps _ (mret _) => apply keeps_ret
  | |- keeps _ (throw _) => apply keeps_throw
  | |- keeps _ (fail _) => apply keeps_fail
  | |- keeps _ (guard_ _ _) => apply keeps_guard
  | |- keeps _ (getFid _) => apply keeps_getFid
  | |- keeps _ (stateAt _) => apply keeps_stateAt
  | |- keeps _ (nodeAt _) => apply keeps_nodeAt
  | |- keeps _ (qidOf _) => apply keeps_qidOf
  | |- keeps _ (viewTree _) => apply bound_onTree
  | |- keeps _ (modTree _) => apply bound_onTree
  | |- keeps _ (onTree _) => apply bound_onTree
  | |- keeps _ (call _) => apply bound_call
  | |- keeps _ (emit _) => apply bound_emit
  | |- keeps _ (closeOrphanNode _) => apply bound_emit
  | |- keeps _ (closeUnboundNode _) => apply bound_closeUnboundNode
  | |- keeps _ (finishClunkNow _ _) => apply bound_finishClunkNow
  | |- keeps _ (onTable (update _ _ _)) => apply bound_update
  | |- keeps _ (onTable (markOpenedWithHandle _ _)) => apply bound_markOpened
  | |- keeps _ (onTable (updateAndOpen _ _ _)) => apply bound_updateAndOpen
  | |- keeps _ (mbind _ (capability _)) => apply keeps_capability; intros ? ?
  | |- keeps _ (mbind _ _) => apply keeps_bind; [|intros ?]
  | |- keeps _ (attempt _) => apply keeps_attempt
  | |- keeps _ (when _ _) => apply keeps_when
  | |- keeps _ (match ?x with _ => _ end) => destruct x eqn:?
  | |- keeps _ (let x := _ in _) => cbv zeta
  | |- keeps _ (fun s => match fsAt _ s with _ => _ end) => apply bound_rewriteFs
  end.
Ltac bound_steps := cbn beta; repeat bound_step.

Lemma bound_walkLoop d first walkStart current qids names : keeps (Bound d) (walkLoop first walkStart current qids names).
Proof.
  revert first current qids. induction names as [|name names IH]; intros; cbn [walkLoop]; bound_steps. apply IH.
Qed.

Lemma bound_respond d (h : M Srv Message) s : keeps (Bound d) h -> Bound d s -> Bound d (respond proto h s).2.
Proof. intros Hh Hs. specialize (Hh s Hs). unfold respond. by destruct (h s) as [[]]. Qed.

(** ** Steps that do *)

Lemma addFid_bound d fid fs :
  hoare (Bound d) (addFid maxFids fid fs) (fun r s => match r with
    | None => fid ∉ d /\ Bound (d ∪ {[fid]}) s
    | Some _ => Bound d s
    end) (Bound d).
Proof.
  intros s Hs. unfold addFid, onTable, FidTable.alloc, add, mbind, M_bind. cbn -[fresh].
  destruct (_ && _); cbn -[fresh]; [done|].
  destruct (FidTable.fids (fids s) !! fid) eqn:E; cbn -[fresh]; [done|]. unfold Bound, boundFids in *. cbn. split.
  - rewrite <- Hs. by apply not_elem_of_dom.
  - rewrite dom_insert_L, Hs. set_solver.
Qed.

Lemma bindFid_bound d fid fs : hoare (Bound d) (bindFid maxFids fid fs) (fun _ s => fid ∉ d /\ Bound (d ∪ {[fid]}) s) (Bound d).
Proof.
  eapply hoare_bind; [apply addFid_bound|]. intros [e|]; [by apply hoare_throw|by apply hoare_ret].
Qed.

Lemma takeFid_bound d fid : hoare (Bound d) (takeFid fid) (fun _ => Bound (d ∖ {[fid]})) (Bound (d ∖ {[fid]})).
Proof.
  intros s Hs. unfold takeFid, onTable, clunk, mbind, M_bind.
  destruct (FidTable.fids (fids s) !! fid) eqn:E; cbn; unfold Bound, boundFids in *; cbn.
  - by rewrite dom_delete_L, Hs.
  - apply not_elem_of_dom in E. set_solver.
Qed.

Lemma hoare_getFid_in {B} d fid (k : Loc -> M Srv B) Q R :
  (forall l, fid ∈ d -> hoare (Bound d) (k l) Q R) -> (forall s, Bound d s -> R s) -> hoare (Bound d) (getFid fid ≫= k) Q R.
Proof.
  intros Hk HR s Hs. unfold getFid, mbind, M_bind. destruct (get (fids s) fid) as [l|] eqn:E; [|by apply HR].
  apply Hk; [|done]. rewrite <- Hs. exact (elem_of_dom_2 _ _ _ E).
Qed.

(** ** Responses *)

(** The fids after a response, and that one that is bound was not. *)
Definition fidsAfter (m resp : Message) (d : gset Fid) (s : Srv) : Prop :=
  Bound ((d ∪ ofid (binds m resp)) ∖ ofid (unbinds m)) s /\
  (forall f, binds m resp = Some f -> inPlace m = false -> f ∉ d).

Lemma binds_error m e : binds m (errorMsg proto e) = None.
Proof. unfold errorMsg. by destruct proto, m. Qed.

Lemma respond_fidsAfter m d (h : M Srv Message) s :
  hoare (Bound d) h (fun resp => fidsAfter m resp d) (Bound (d ∖ ofid (unbinds m))) ->
  Bound d s -> let '(resp, s') := respond proto h s in fidsAfter m resp d s'.
Proof.
  intros Hh Hs. specialize (Hh s Hs). unfold respond. destruct (h s) as [[resp|e] s']; [done|].
  unfold fidsAfter. rewrite binds_error. cbn. by rewrite union_empty_r_L.
Qed.

Lemma after_neutral m resp d s : binds m resp = None -> unbinds m = None -> Bound d s -> fidsAfter m resp d s.
Proof. intros Hb Hu Hs. unfold fidsAfter. rewrite Hb, Hu. cbn. split; [|done]. by rewrite union_empty_r_L, difference_empty_L. Qed.

Lemma after_bound m resp d s f :
  binds m resp = Some f -> unbinds m = None -> (inPlace m = false -> f ∉ d) -> Bound (d ∪ {[f]}) s -> fidsAfter m resp d s.
Proof.
  intros Hb Hu Hf Hs. unfold fidsAfter. rewrite Hb, Hu. cbn. split; [by rewrite difference_empty_L|]. intros g [= <-]. done.
Qed.

Lemma keeps_after m d (h : M Srv Message) s :
  (forall resp, binds m resp = None) -> unbinds m = None -> keeps (Bound d) h -> Bound d s ->
  let '(resp, s') := respond proto h s in fidsAfter m resp d s'.
Proof.
  intros Hb Hu Hh Hs. pose proof (bound_respond d h s Hh Hs) as Hr. destruct (respond proto h s). by apply after_neutral.
Qed.

(** [nodeQID] does not fail. *)
Lemma hoare_qidOf (P R : Srv -> Prop) n : hoare P (qidOf n) (fun _ => P) R.
Proof. by intros s Hs. Qed.

Lemma bound_attachNode d ta : keeps (Bound d) (attachNode ta).
Proof. unfold attachNode. bound_steps. Qed.

Lemma handleAttach_after d ta s :
  Bound d s -> let '(resp, s') := handleAttach proto maxFids ta s in fidsAfter (MTattach ta) resp d s'.
Proof.
  apply respond_fidsAfter. cbn [unbinds ofid]. rewrite difference_empty_L.
  eapply hoare_bind; [apply (keeps_guard (Bound d))|intros ?; cbn beta].
  eapply hoare_bind; [apply bound_attachNode|intros n; cbn beta].
  eapply hoare_bind; [apply bindFid_bound|]. intros ?. apply hoare_pure. intros Hf.
  eapply hoare_bind; [apply hoare_qidOf|]. intros q. apply hoare_ret. intros s0 Hs0.
  by apply (after_bound _ _ _ _ (Tattach.Fid ta)).
Qed.

Lemma walkClone_after d l tw :
  Twalk.Names tw = [] -> Twalk.Fid tw ∈ d ->
  hoare (Bound d) (walkClone maxFids l tw) (fun resp => fidsAfter (MTwalk tw) resp d) (Bound d).
Proof.
  intros Hn Hd. assert (binds (MTwalk tw) (MRwalk (Rwalk.mk [])) = Some (Twalk.NewFid tw)) as Hb by (cbn; by rewrite decide_True by by left).
  unfold walkClone. destruct (Z.eqb_spec (Twalk.Fid tw) (Twalk.NewFid tw)) as [E|E].
  - apply hoare_ret. intros s Hs. apply (after_bound _ _ _ _ _ Hb); [done|cbn; by rewrite E, Z.eqb_refl|].
    assert (d ∪ {[Twalk.NewFid tw]} = d) as -> by (rewrite <- E; set_solver). done.
  - eapply hoare_bind; [apply (keeps_stateAt (Bound d))|intros src; cbn beta]. destruct (nodeAndPath src) as [n p].
    eapply hoare_bind; [apply bindFid_bound|intros ?]. apply hoare_pure. intros Hf. apply hoare_ret. intros s Hs.
    by apply (after_bound _ _ _ _ _ Hb).
Qed.

(** A walk of a fid onto itself. *)
Lemma hoare_inPlace {A} d tw (m : M Srv A) R :
  Twalk.Fid tw ∈ d -> Twalk.Fid tw = Twalk.NewFid tw -> keeps (Bound d) m -> (forall s, Bound d s -> R s) ->
  hoare (Bound d) m (fun _ s => (inPlace (MTwalk tw) = false -> Twalk.NewFid tw ∉ d) /\ Bound (d ∪ {[Twalk.NewFid tw]}) s) R.
Proof.
  intros Hd E Hm HR. eapply hoare_conseq; [exact Hm|done| |done]. intros a s Hs. cbn. rewrite E, Z.eqb_refl. split; [done|].
  assert (d ∪ {[Twalk.NewFid tw]} = d) as -> by (rewrite <- E; set_solver). done.
Qed.

Lemma walkBind_bound d l tw walkStart current :
  Twalk.Fid tw ∈ d ->
  hoare (Bound d) (walkBind range maxFids l tw walkStart current)
    (fun _ s => (inPlace (MTwalk tw) = false -> Twalk.NewFid tw ∉ d) /\ Bound (d ∪ {[Twalk.NewFid tw]}) s) (Bound d).
Proof.
  intros Hd. unfold walkBind. eapply hoare_bind; [apply (keeps_stateAt (Bound d))|intros src; cbn beta zeta].
  destruct (Z.eqb_spec (Twalk.Fid tw) (Twalk.NewFid tw)) as [E|E]; [apply hoare_inPlace; try done; bound_steps|].
  eapply hoare_bind; [apply addFid_bound|]. intros [e|].
  - eapply hoare_bind; [apply (keeps_when (Bound d)), bound_closeUnboundNode|]. intros ?. by apply hoare_throw.
  - apply hoare_ret. by intros s [Hf Hs].
Qed.

Lemma handleWalk_after d tw s :
  Bound d s -> let '(resp, s') := handleWalk range proto maxFids tw s in fidsAfter (MTwalk tw) resp d s'.
Proof.
  apply respond_fidsAfter. cbn [unbinds ofid]. rewrite difference_empty_L. apply hoare_getFid_in; [intros l Hd|done].
  destruct (Twalk.Names tw) as [|name names] eqn:Hn; [by apply walkClone_after|].
  eapply hoare_bind; [apply (keeps_guard (Bound d))|intros ?; cbn beta].
  eapply hoare_bind; [apply (keeps_nodeAt (Bound d))|intros walkStart; cbn beta].
  eapply hoare_bind; [apply bound_walkLoop|intros [current qids]; cbn beta iota].
  assert (forall r, binds (MTwalk tw) (MRwalk r) = if decide (length (Rwalk.QIDs r) = length (name :: names)) then Some (Twalk.NewFid tw) else None) as Hb.
  { intros r. cbn. rewrite Hn. by repeat case_decide; naive_solver. }
  destruct (Nat.eqb_spec (length qids) (length (name :: names))) as [El|El].
  - eapply hoare_bind; [by apply walkBind_bound|]. intros ?. apply hoare_ret. intros s0 [Hf Hs0].
    apply (after_bound _ _ _ _ (Twalk.NewFid tw)); try done. by rewrite Hb, decide_True.
  - eapply hoare_bind; [apply (keeps_when (Bound d)), bound_closeUnboundNode|]. intros ?. apply hoare_ret. intros s0 Hs0.
    apply after_neutral; [|done..]. by rewrite Hb, decide_False.
Qed.

Lemma handleClunk_after d tc s :
  Bound d s -> let '(resp, s') := handleClunk range proto tc s in fidsAfter (MTclunk tc) resp d s'.
Proof.
  apply respond_fidsAfter. cbn [unbinds ofid]. eapply hoare_bind; [apply takeFid_bound|intros l; cbn beta].
  set (d' := d ∖ _).
  eapply (hoare_conseq _ (Bound d') (Bound d') _ (fun _ => Bound d') _ (Bound d')); [|done| |done].
  - change (keeps (Bound d') (fs ← stateAt l; lastRef ← onTree (decRefNode range embeds (currentNode fs));
      if decide (state fs = fidXattrWrite) then
        (fun s => (Ok tt, setFs l (set_closing true (closeNode fs) fs) s));; commitXattr fs
      else finishClunkNow l lastRef;; mret (MRclunk Rclunk.mk))).
    unfold commitXattr. bound_steps. by intros ? ?.
  - intros resp s0 Hs0. unfold fidsAfter. cbn. by rewrite union_empty_r_L.
Qed.

Lemma handleRemove_after d tr s :
  Bound d s -> let '(resp, s') := handleRemove range proto tr s in fidsAfter (MTremove tr) resp d s'.
Proof.
  apply respond_fidsAfter. cbn [unbinds ofid]. eapply hoare_bind; [apply takeFid_bound|intros l; cbn beta].
  set (d' := d ∖ _).
  assert (forall m, keeps (Bound d') m -> hoare (Bound d') m (fun resp => fidsAfter (MTremove tr) resp d) (Bound d')) as Hk.
  { intros m Hm. eapply hoare_conseq; [exact Hm|done| |done]. intros resp s0 Hs0. unfold fidsAfter. cbn. by rewrite union_empty_r_L. }
  apply Hk. unfold removeViaInodeTree. bound_steps.
Qed.

Lemma addXattrReadFid_after d tx node name data :
  hoare (Bound d) (addXattrReadFid maxFids (Txattrwalk.NewFid tx) node name data)
    (fun resp => fidsAfter (MTxattrwalk tx) resp d) (Bound d).
Proof.
  eapply hoare_bind; [apply bindFid_bound|intros ?]. apply hoare_pure. intros Hf. apply hoare_ret. intros s Hs.
  by apply (after_bound _ _ _ _ (Txattrwalk.NewFid tx)).
Qed.

Lemma handleXattrwalk_after d tx s :
  Bound d s -> let '(resp, s') := handleXattrwalk proto maxFids tx s in fidsAfter (MTxattrwalk tx) resp d s'.
Proof.
  apply respond_fidsAfter. cbn [unbinds ofid]. rewrite difference_empty_L.
  eapply hoare_bind; [apply (keeps_getFid (Bound d))|intros l; cbn beta].
  eapply hoare_bind; [apply (keeps_nodeAt (Bound d))|intros node; cbn beta zeta].
  assert (forall (f : M (NS U) bytes) name, hoare (Bound d) (data ← call f; addXattrReadFid maxFids (Txattrwalk.NewFid tx) node name data)
    (fun resp => fidsAfter (MTxattrwalk tx) resp d) (Bound d)) as Hcall.
  { intros f name. eapply hoare_bind; [apply bound_call|]. intros ?. apply addXattrReadFid_after. }
  destruct (RawXattrer node); [apply Hcall|]. case_decide.
  - apply hoare_capability; [intros lister _|done]. eapply hoare_bind; [apply bound_call|]. intros ?. apply addXattrReadFid_after.
  - apply hoare_capability; [intros getter _|done]. apply Hcall.
Qed.

(** The handlers of open fids ([Bridge.sameFids], [withIO]). *)
Lemma sameFids_bound d s s' : sameFids s s' -> Bound d s -> Bound d s'.
Proof. intros (E & _) Hs. unfold Bound, boundFids in *. by rewrite E. Qed.

Lemma onOpen_bound d fid (body : FS -> M Srv Message) s :
  (forall fs, keeps (Bound d) (body fs)) -> Bound d s -> Bound d (onOpen proto fid body s).2.
Proof.
  intros Hb Hs. unfold onOpen. destruct (get (fids s) fid) as [l|]; [|done]. destruct (fsAt l s) as [fs|] eqn:Hl; [|done].
  case_decide; [done|]. unfold withIO. rewrite Hl. destruct (beginIO fs) as [[] fs1]; [|done].
  pose proof (bound_respond d (body fs1) (setFs l fs1 s) (Hb fs1) Hs) as Hr.
  destruct (respond proto (body fs1) (setFs l fs1 s)) as [r s2]. cbn in Hr. destruct (fsAt l s2) as [fs2|]; [|done].
  by destruct (endIO fs2) as [[] fs3].
Qed.

Ltac by_keeps := apply keeps_after; [by intros []|reflexivity|]; unfold openFid, createFid, makeChild; bound_steps.

Lemma dispatch_after d msg s :
  Bound d s -> let '(resp, s') := dispatch range msize proto maxFids msg s in fidsAfter msg resp d s'.
Proof.
  assert (forall m, (forall resp, binds m resp = None) -> unbinds m = None -> forall r : Message * Srv,
    (Bound d s -> Bound d r.2) -> Bound d s -> let '(resp, s') := r in fidsAfter m resp d s') as Hn.
  { intros m Hb Hu [resp s'] Hr Hs. apply after_neutral; [done..|]. by apply Hr. }
  destruct msg; cbn [dispatch]; try (by_keeps; fail).
  all: try first [apply handleAttach_after|apply handleWalk_after|apply handleClunk_after|apply handleRemove_after|apply handleXattrwalk_after].
  all: apply Hn; [by intros []|reflexivity|].
  all: try (apply onOpen_bound; intros fs; bound_steps; fail).
  - apply sameFids_bound. destruct (handleRead msize proto m s) as [r s'] eqn:E. by apply handleRead_same in E.
  - apply sameFids_bound. destruct (handleWrite proto m s) as [r s'] eqn:E. by apply handleWrite_same in E.
  - apply sameFids_bound. destruct (handleReaddir msize proto m s) as [r s'] eqn:E. by apply handleReaddir_same in E.
  - apply bound_respond. bound_steps.
    by intros s0 Hs0.
Qed.
End ServerFids.
