(* ===== verification/Sessions.v ===== *)
(** * Clients and servers: fids end to end

    [ClientFids] against the request handlers of [ServerFids]: the connection
    hands each request to [dispatch] and its response back. *)

From S2P Require Import Prelude GoIO Types Errno Proto Messages P9l P9u Message Dirents.
From S2P Require Import Bufpool FidTable Bridge Inode Namespace Walk ClientFile ClientConn ClientOps ClientAdvanced ClientFids ServerFids.

(** ** The connection *)
Section Direct.
Context {U Handle XattrWriter : Type} `{NodeOps U Handle XattrWriter}.
Context `{Capabilities (NS U) NodeId Handle XattrWriter} `{BufPool}.
Context (range : gmap string NodeId -> list (string * NodeId)).
Context (msize : Z) (proto : protocol) (maxFids : Z).
Abbreviation Srv := (@Server (NS U) NodeId Handle XattrWriter).

(** [None] once it is shut down. *)
Definition direct : Transport (option Srv) := {|
  roundTripWithFlush m _ s :=
    match s with
    | None => (Err ErrClosed, None)
    | Some srv => let '(resp, srv) := dispatch range msize proto maxFids m srv in (Ok resp, Some srv)
    end;
  signalShutdown _ := None
|}.

Definition serverFids : FidServer (option Srv) := {|
  bound s := match s with Some srv => boundFids srv | None => ∅ end;
  lost _ := ∅;
  alive s := match s with Some _ => true | None => false end
|}.
End Direct.

(** The connection when every request is carried out, and cancelled by its
    caller before the response is looked at: [flushAndWait] drops the response
    and returns the context's error. *)
Definition cancelling {S} (T : Transport S) (e : GoError) : Transport S := {|
  roundTripWithFlush m flush s := (Err (Wrapf "client: flushed tag %d: %w" [] e), (roundTripWithFlush m flush s).2);
  signalShutdown := signalShutdown
|}.

Lemma dispatch_fid_laws {U Handle XattrWriter} `{NodeOps U Handle XattrWriter}
    `{Capabilities (NS U) NodeId Handle XattrWriter} `{BufPool} range msize proto maxFids :
  FidServer_ok (direct range msize proto maxFids) serverFids.
Proof.
  split.
  - by intros m flush [srv|].
  - done.
  - intros m flush [srv|] resp s'; cbn; [|done]. destruct (dispatch _ _ _ _ _ _). by intros [= _ <-].
  - intros m flush [srv|] resp s' E; cbn in *; [|done]. pose proof (dispatch_after range msize proto maxFids (boundFids srv) m srv eq_refl) as Hd.
    destruct (dispatch _ _ _ _ m srv) as [r srv']. injection E as <- <-. intros _. split; [apply Hd|done].
  - intros m flush [srv|] resp s' f E; cbn in *; [|done]. pose proof (dispatch_after range msize proto maxFids (boundFids srv) m srv eq_refl) as Hd.
    destruct (dispatch _ _ _ _ m srv) as [r srv']. injection E as <- <-. intros _. apply Hd.
  - intros m flush [srv|] e s' E; cbn in E; [|by injection E as _ <-]. by destruct (dispatch _ _ _ _ m srv).
  - intros m flush [srv|] e s' E; cbn in E; [by destruct (dispatch _ _ _ _ m srv)|]. by injection E as <- <-.
Qed.

Lemma acquire_free fa f fa' : Fids.acquire fa = (Ok f, fa') -> free fa f.
Proof.
  unfold Fids.acquire, free. destruct (Fids.reuse fa) as [|g rest]; [|intros [= <- _]; left; by left].
  case_match; [done|]. intros [= <- _]. by right.
Qed.

(** The cancelled [OpenFile]: the walk is carried out, and the fid given back. *)
Lemma cancelled_OpenFile {S} (T : Transport S) dialect p flags e c root fa f resp s1 :
  (beginRoot "OpenFile" c).1 = Ok root -> Fids.acquire (alloc c) = (Ok f, fa) ->
  roundTripWithFlush (MTwalk (Twalk.mk (fid root) f (splitPath p))) true (wire c) = (Ok resp, s1) ->
  OpenFile (H := cancelling T e) dialect p flags c =
    (Err (Wrapf "client: flushed tag %d: %w" [] e), mkConn s1 (Fids.release f fa) (files c) (rootFile c)).
Proof.
  intros Hr Ha Hw. assert (beginRoot "OpenFile" c = (Ok root, c)) as Hr'.
  { unfold beginRoot, beginOp in *. destruct (rootFile c) as [q|]; [|done]. destruct (files c !! q) as [g|]; [|done].
    destruct (closed g); [done|]. cbn in Hr. by injection Hr as ->. }
  unfold OpenFile. rewrite (mbind_ok _ _ _ _ _ Hr'). cbv zeta. unfold acquire at 1. unfold mbind at 1, M_bind at 1. rewrite Ha.
  unfold walkOnto, onError, onWire, twalk, rtrip, roundTrip, mbind, M_bind. cbn. by rewrite Hw.
Qed.

(** ** The theorems *)

(** The server keeps its side of the fids.  Whatever file system is behind
    it, [dispatch] satisfies the laws the client relies on: a fid is bound by
    the success of Tattach, of a complete Twalk or of Txattrwalk, and only if
    it was free, it is given up by Tclunk and Tremove whatever they answer,
    and no other request binds or releases one. *)
Theorem dispatch_keeps_fid_laws {U Handle XattrWriter} `{NodeOps U Handle XattrWriter}
    `{Capabilities (NS U) NodeId Handle XattrWriter} `{BufPool} range msize proto maxFids :
  FidServer_ok (direct range msize proto maxFids) serverFids.
Proof. apply dispatch_fid_laws. Qed.

(** C24: the client's books of fids are exact.  Against any server with the laws
    of [FidServer], after any sequence of calls, open and closed files, failed
    calls and lost answers included: no fid the allocator may hand out is used
    by an open file or bound at the server; no two open files share a fid; the
    fid of every open file is bound at the server; and what else is bound there
    are only fids whose Tclunk got no answer. *)
Theorem client_fids_exact {S} (T : Transport S) (F : FidServer S) dialect msize s0 c :
  FidServer_ok T F -> bound s0 = ∅ -> rtc (anyCall T dialect msize) (start s0) c ->
  NoDup (openFids (files c)) /\
  (forall f, free (alloc c) f -> f ∉ openFids (files c)) /\
  (alive (wire c) = true ->
    (forall f, free (alloc c) f -> f ∉ bound (wire c)) /\
    (forall f, f ∈ openFids (files c) -> f ∈ bound (wire c)) /\
    (forall f, f ∈ bound (wire c) -> f ∈ openFids (files c) \/ f ∈ lost (wire c))).
Proof.
  intros Hok Hb Hc. assert (FidInv F [] [] c) as Hi by by eapply reachable_FidInv.
  pose proof (fun f => FidInv_free F c f Hi) as Hfree. destruct Hi as (q & (_ & Hd & _) & Ha). cbn in Hd.
  split; [|split; [by intros f Hf; apply Hfree|]].
  - apply NoDup_app in Hd as (_ & _ & Hd). by apply NoDup_app in Hd as (? & _ & _).
  - intros Hl. destruct (Ha Hl) as [H1 H2]. split; [by intros f Hf; apply Hfree|]. split; [done|].
    intros f Hf. destruct (H2 f Hf) as [|[_ ?]]; auto.
Qed.

(** C25: a cancelled walk can disable a connection.  A caller cancels
    [OpenFile] when the server has bound the new fid already.  The client
    returns the fid to its free list, where it is the next to be handed out,
    although the server has it bound.  From then on every call that needs a
    fid fails, until a file is closed: whatever other calls are made in
    between, and however often it is tried. *)
Theorem cancelled_walk_blocks {S} (T : Transport S) (F : FidServer S) dialect msize s0 c p flags e root fa f resp s1 :
  FidServer_ok T F -> bound s0 = ∅ -> rtc (anyCall T dialect msize) (start s0) c ->
  (beginRoot "OpenFile" c).1 = Ok root -> Fids.acquire (alloc c) = (Ok f, fa) ->
  (length (Fids.reuse fa) < Fids.reuseCacheSize)%nat ->
  roundTripWithFlush (MTwalk (Twalk.mk (fid root) f (splitPath p))) true (wire c) = (Ok resp, s1) ->
  binds (MTwalk (Twalk.mk (fid root) f (splitPath p))) resp = Some f ->
  exists c1, OpenFile (H := cancelling T e) dialect p flags c = (Err (Wrapf "client: flushed tag %d: %w" [] e), c1) /\
    forall c2, rtc (clientCall T dialect msize) c1 c2 -> allFail T dialect msize c2.
Proof.
  intros Hok Hb Hc Hr Ha Hlen Hw Hbind. assert (FidInv F [] [] c) as Hi by by eapply reachable_FidInv.
  assert (free (alloc c) f) as Hfree by (by eapply acquire_free).
  exists (mkConn s1 (Fids.release f fa) (files c) (rootFile c)). split.
  - by eapply cancelled_OpenFile.
  - intros c2 Hc2.
    assert (Stuck F f (Fids.reuse fa) (mkConn s1 (Fids.release f fa) (files c) (rootFile c))) as Hst.
    { unfold Stuck, stays, Fids.release. cbn [alloc files wire]. rewrite (proj2 (Nat.ltb_lt _ _) Hlen). split; [done|].
      split; [by apply (FidInv_free F c f Hi)|]. intros Hl. destruct (reply_fids T F Hok _ _ _ _ _ Hw Hl) as [-> _]. rewrite Hbind. cbn. set_solver. }
    apply (Stuck_allFail T F Hok dialect msize f (Fids.reuse fa) c2 Hlen). by eapply Stuck_reachable.
Qed.

(** *** At a concrete server: the tree of [Walk.TreeFS] *)
Module Demo.
Definition T : Transport (option (@Server (NS unit) NodeId unit unit)) :=
  @direct unit unit unit TreeFS.ops TreeFS.caps zeroPool map_to_list 8192 protocolL 0.
Definition F : FidServer (option (@Server (NS unit) NodeId unit unit)) := serverFids.
Definition s0 : option (@Server (NS unit) NodeId unit unit) := Some (mkServer newFidTable (mkNS TreeFS.theTree tt) []).
Definition laws : FidServer_ok T F := dispatch_fid_laws map_to_list 8192 protocolL 0.

(** Attached; the root walked to [a/f]; the walk's file cloned, and closed. *)
Definition attached := (@Attach _ T "user" "" 0 (start s0)).2.
Definition walked := (@Walk _ T 0 ["a"; "f"] attached).2.
Definition cloned := (@Clone _ T 1 walked).2.
Definition closed := (@Close _ T 1 cloned).2.
End Demo.

Lemma client_fids_exact_witness :
  openFids (files Demo.closed) = [1; 3] /\ Fids.reuse (alloc Demo.closed) = [2] /\ 2 ∉ bound (FidServer := Demo.F) (wire Demo.closed) /\
  (forall f, f ∈ bound (FidServer := Demo.F) (wire Demo.closed) -> f ∈ [1; 3]).
Proof.
  assert (rtc (anyCall Demo.T protocolL 8192) (start Demo.s0) Demo.closed) as Hr.
  { eapply rtc_l; [exact (any_call _ _ _ _ _ (call_Attach _ _ _ _ "user" "" 0))|].
    eapply rtc_l; [exact (any_call _ _ _ _ _ (call_Walk _ _ _ _ 0 ["a"; "f"]))|].
    eapply rtc_l; [exact (any_call _ _ _ _ _ (call_Clone _ _ _ _ 1))|].
    eapply rtc_l; [exact (any_Close _ _ _ _ 1)|]. apply rtc_refl. }
  destruct (client_fids_exact Demo.T Demo.F protocolL 8192 Demo.s0 Demo.closed Demo.laws) as (_ & _ & Ha);
    [by vm_compute|exact Hr|].
  assert (openFids (files Demo.closed) = [1; 3]) as Ho by by vm_compute.
  assert (Fids.reuse (alloc Demo.closed) = [2]) as Hf by by vm_compute.
  destruct Ha as (H1 & _ & H3); [by vm_compute|]. split; [exact Ho|]. split; [exact Hf|]. split.
  - apply H1. left. rewrite Hf. by left.
  - intros f Hb. rewrite <- Ho. destruct (H3 f Hb) as [?|[]%not_elem_of_empty]. done.
Defined.

Lemma cancelled_walk_blocks_witness :
  (exists q, (@Clone _ Demo.T 0 Demo.attached).1 = Ok q) /\
  exists c1, OpenFile (H := cancelling Demo.T (Sentinel "context canceled")) protocolL "/a" 0 Demo.attached =
      (Err (Wrapf "client: flushed tag %d: %w" [] (Sentinel "context canceled")), c1) /\
    forall c2, rtc (clientCall Demo.T protocolL 8192) c1 c2 -> exists e, (@Clone _ Demo.T 0 c2).1 = Err e.
Proof.
  split; [eexists; by vm_compute|].
  assert (rtc (anyCall Demo.T protocolL 8192) (start Demo.s0) Demo.attached) as Hr.
  { eapply rtc_l; [exact (any_call _ _ _ _ _ (call_Attach _ _ _ _ "user" "" 0))|]. apply rtc_refl. }
  destruct (roundTripWithFlush (Transport := Demo.T) (MTwalk (Twalk.mk 1 2 ["a"])) true (wire Demo.attached)) as [r s1] eqn:Ew.
  destruct r as [resp|e]; [|by vm_compute in Ew].
  destruct (cancelled_walk_blocks Demo.T Demo.F protocolL 8192 Demo.s0 Demo.attached "/a" 0 (Sentinel "context canceled")
    (newFile 1 (QID.mk QTDIR 0 0) 0) (Fids.mk 3 []) 2 resp s1 Demo.laws) as (c1 & E & Hall).
  - by vm_compute.
  - exact Hr.
  - by vm_compute.
  - by vm_compute.
  - cbn. unfold Fids.reuseCacheSize. lia.
  - exact Ew.
  - vm_compute in Ew. injection Ew as <- _. by vm_compute.
  - exists c1. split; [exact E|]. intros c2 Hc2. destruct (Hall c2 Hc2) as (_ & _ & _ & _ & Hclone & _). apply Hclone.
Defined.
