(* ===== verification/HostSys.v ===== *)
(** * Programs that make system calls

    The passthrough file system is the only code that talks to the operating
    system ([golang.org/x/sys/unix]).  Its operations are programs: trees of
    system calls, where the continuation gets whatever the kernel answers, and
    of critical sections on the data of the process.  What the kernel does is
    no part of a program; the theorems quantify over it. *)

From stdpp Require Export pretty.
From S2P Require Import Prelude Types Errno Inode.

(** ** Constants of the Linux interface *)

Definition O_RDONLY : Z := 0.
Definition O_WRONLY : Z := 1.
Definition O_ACCMODE : Z := 3.
Definition O_CREAT : Z := 0x40.
Definition O_TRUNC : Z := 0x200.
Definition O_DIRECTORY : Z := 0x10000.
Definition O_NOFOLLOW : Z := 0x20000.
Definition O_CLOEXEC : Z := 0x80000.
Definition O_PATH : Z := 0x200000.
Definition AT_FDCWD : Z := -100.
Definition AT_SYMLINK_NOFOLLOW : Z := 0x100.
Definition AT_REMOVEDIR : Z := 0x200.
Definition AT_SYMLINK_FOLLOW : Z := 0x400.
Definition AT_EMPTY_PATH : Z := 0x1000.
Definition S_IFMT : Z := 0xf000.
Definition S_IFCHR : Z := 0x2000.
Definition S_IFDIR : Z := 0x4000.
Definition S_IFBLK : Z := 0x6000.
Definition S_IFLNK : Z := 0xa000.
Definition DT_DIR : Z := 4.
Definition DT_LNK : Z := 10.
Definition F_RDLCK : Z := 0.
Definition F_WRLCK : Z := 1.
Definition F_UNLCK : Z := 2.

(** ** Data *)

Record Stat_t : Type := mkStat {
  Dev : Z; Ino : Z; Mode : Z; Nlink : Z; Uid : Z; Gid : Z; Rdev : Z; Size : Z; Blksize : Z; Blocks : Z;
  AtimSec : Z; AtimNsec : Z; MtimSec : Z; MtimNsec : Z; CtimSec : Z; CtimNsec : Z
}.
Record Statfs_t : Type := mkStatfs {
  fsType : Z; fsBsize : Z; fsBlocks : Z; fsBfree : Z; fsBavail : Z; fsFiles : Z; fsFfree : Z;
  fsid0 : Z; fsid1 : Z; fsNamelen : Z
}.
Record Flock_t : Type := mkFlock { lType : Z; lWhence : Z; lStart : Z; lLen : Z; lPid : Z }.

(** Results of functions of the library, kept as the calls. *)
Inductive Timespec : Type := NsecToTimespec (nsec : Z) | UTIME_OMIT.
Inductive devT : Type := Mkdev (major minor : Z).
Inductive lockCmd : Type := F_SETLK | F_GETLK.

Record fileIdentity : Type := mkIdentity { device : Z; inodeNo : Z }.
#[export] Instance fileIdentity_eq_dec : EqDecision fileIdentity.
Proof. solve_decision. Defined.
#[export] Program Instance fileIdentity_countable : Countable fileIdentity :=
  inj_countable' (fun i => (device i, inodeNo i)) (fun '(d, i) => mkIdentity d i) _.
Next Obligation. by intros []. Qed.

(** [int64(x)], [int16(x)]: two's complement. *)
Definition int_wrap (w z : Z) : Z := uint_wrap w (z + 2 ^ (w - 1)) - 2 ^ (w - 1).
Abbreviation int64 := (int_wrap 64).

(** ** System calls, by the type of the answer

    Buffers that the kernel fills are answers; their capacity is an argument. *)

Inductive call : Type -> Type :=
  | Open (path : string) (flags perm : Z) : call (result Z)
  | Openat (dirfd : Z) (path : string) (flags perm : Z) : call (result Z)
  | Close (fd : Z) : call (result unit)
  | Dup (fd : Z) : call (result Z)
  | Fstat (fd : Z) : call (result Stat_t)
  | Fstatat (dirfd : Z) (path : string) (flags : Z) : call (result Stat_t)
  | Fstatfs (fd : Z) : call (result Statfs_t)
  | Fchmodat (dirfd : Z) (path : string) (mode flags : Z) : call (result unit)
  | Fchmod (fd mode : Z) : call (result unit)
  | Fchownat (dirfd : Z) (path : string) (uid gid flags : Z) : call (result unit)
  | Ftruncate (fd size : Z) : call (result unit)
  | UtimesNanoAt (dirfd : Z) (path : string) (ts : list Timespec) (flags : Z) : call (result unit)
  | Mkdirat (dirfd : Z) (path : string) (mode : Z) : call (result unit)
  | Symlinkat (target : string) (dirfd : Z) (path : string) : call (result unit)
  | Mknodat (dirfd : Z) (path : string) (mode : Z) (dev : devT) : call (result unit)
  | Linkat (olddirfd : Z) (oldpath : string) (newdirfd : Z) (newpath : string) (flags : Z) : call (result unit)
  | Unlinkat (dirfd : Z) (path : string) (flags : Z) : call (result unit)
  | Renameat (olddirfd : Z) (oldpath : string) (newdirfd : Z) (newpath : string) : call (result unit)
  | Readlinkat (dirfd : Z) (path : string) (cap : Z) : call (result bytes)
  | Getdents (fd cap : Z) : call (result bytes)
  | Seek (fd offset whence : Z) : call (result Z)
  | Pread (fd cap offset : Z) : call (result bytes)
  | Pwrite (fd : Z) (data : bytes) (offset : Z) : call (result Z)
  | Fsync (fd : Z) : call (result unit)
  | FcntlFlock (fd : Z) (cmd : lockCmd) (lk : Flock_t) : call (result Flock_t)
  | Fgetxattr (fd : Z) (name : string) (cap : Z) : call (result (Z * bytes))
  | Fsetxattr (fd : Z) (name : string) (data : bytes) (flags : Z) : call (result unit)
  | Flistxattr (fd cap : Z) : call (result (Z * bytes))
  | Fremovexattr (fd : Z) (name : string) : call (result unit).

(** Critical sections of the process: [qidFor] under its mutex, the making of
    a node, and the operations of [server.Inode]. *)
Inductive local : Type -> Type :=
  | QidFor (st : Stat_t) : local QID.t
  | NewNode : local NodeId
  | InitInode (n : NodeId) (q : QID.t) : local unit
  | MarkPrunable (n : NodeId) : local unit
  | GetQID (n : NodeId) : local QID.t
  | InodeAddChild (n : NodeId) (name : string) (child : NodeId) : local unit
  | InodeRemoveChild (n : NodeId) (name : string) : local unit.

(** ** Programs *)

Inductive prog (A : Type) : Type :=
  | Ret (a : A)
  | Sys {B} (c : call B) (k : B -> prog A)
  | Loc {B} (l : local B) (k : B -> prog A).
Arguments Ret {A} a.
Arguments Sys {A B} c k.
Arguments Loc {A B} l k.

Fixpoint pbind {A B} (f : A -> prog B) (p : prog A) : prog B :=
  match p with
  | Ret a => f a
  | Sys c k => Sys c (fun r => pbind f (k r))
  | Loc l k => Loc l (fun r => pbind f (k r))
  end.

(** A fallible operation: [x, err := m; if err != nil { return err }]. *)
Definition Op (A : Type) : Type := prog (result A).
#[export] Instance Op_ret : MRet Op := fun A a => Ret (Ok a).
#[export] Instance Op_bind : MBind Op := fun A B f m =>
  pbind (fun r => match r with Ok a => f a | Err e => Ret (Err e) end) m.

Definition sys {A} (c : call (result A)) : Op A := Sys c Ret.
(** [err := c], with the answer at hand. *)
Definition answered {A B} (c : call B) (k : B -> Op A) : Op A := Sys c k.
Definition proc {A} (l : local A) : Op A := Loc l (fun a => Ret (Ok a)).
Definition fail {A} (e : GoError) : Op A := Ret (Err e).
Definition errno {A} (e : Errno) : Op A := fail (ErrnoError e).
Definition guard_ (b : bool) (e : Errno) : Op unit := if b then mret tt else errno e.
Definition when (b : bool) (m : Op unit) : Op unit := if b then m else mret tt.

(** [_ = unix.Close(fd)] *)
Definition close_ (fd : Z) : Op unit := Sys (Close fd) (fun _ => Ret (Ok tt)).
(** The result is dropped. *)
Definition ignore {A} (m : Op A) : Op unit := pbind (fun _ => Ret (Ok tt)) m.
(** [defer func() { _ = unix.Close(fd) }()] around [m] *)
Definition closing {A} (fd : Z) (m : Op A) : Op A := pbind (fun r => pbind (fun _ => Ret r) (close_ fd)) m.
(** [if err := m; err != nil { cleanup; return err }] *)
Definition orElse {A} (m : Op A) (cleanup : Op unit) : Op A :=
  pbind (fun r => match r with Ok a => Ret (Ok a) | Err e => pbind (fun _ => Ret (Err e)) cleanup end) m.

(** [toProtoErr]: the errno of the operating system on the wire. *)
Definition toProtoErr (e : GoError) : GoError :=
  match asSyscallErrno e with
  | Some n => ErrnoError (ErrnoFromUnix n)
  | None => ErrnoError EIO
  end.
(** [if err := m; err != nil { return toProtoErr(err) }] *)
Definition host {A} (m : Op A) : Op A :=
  pbind (fun r => match r with Ok a => Ret (Ok a) | Err e => Ret (Err (toProtoErr e)) end) m.
