(* ===== verification/Passthrough.v ===== *)
(** * The passthrough file system

    [server/passthrough], as it is built for Linux: nodes that hold a file
    descriptor of the host, operations that are system calls relative to it.
    A node's embedded [Inode] is known by its address.  [Root] is what
    [NewRoot] leaves: the options, the identity of the exported directory; the
    table of QID paths is data of the process ([Shared]). *)

From S2P Require Import Prelude Types Errno Dirents Inode HostSys.
Open Scope Z_scope.

(** ** Mappers and options *)

Record UIDMapper : Type := mkMapper { ToHost : option (Z -> Z -> Z * Z); FromHost : option (Z -> Z -> Z * Z) }.
Definition IdentityMapper : UIDMapper := mkMapper (Some pair) (Some pair).

(** The fields of [Root] that options set. *)
Record Config : Type := mkConfig { mapper : UIDMapper; allowDevice : bool; readOnly : bool; allowOwner : bool }.
Definition WithUIDMapper (m : UIDMapper) (c : Config) : Config := mkConfig m (allowDevice c) (readOnly c) (allowOwner c).
Definition WithDeviceNodes (c : Config) : Config := mkConfig (mapper c) true (readOnly c) (allowOwner c).
Definition WithReadOnly (c : Config) : Config := mkConfig (mapper c) (allowDevice c) true (allowOwner c).
Definition WithOwnershipChanges (c : Config) : Config := mkConfig (mapper c) (allowDevice c) (readOnly c) true.

Record Root : Type := mkRoot {
  toHost : Z -> Z -> Z * Z;
  fromHost : Z -> Z -> Z * Z;
  rootId : fileIdentity;
  options : Config
}.

Record Node : Type := mkNode { nid : NodeId; fd : Z; parentFd : Z; name : string; dev : Z; ino : Z }.
Inductive Handle : Type := fileHandle (fd : Z) | dirHandle (fd : Z).

(** ** QIDs *)

Record Shared : Type := mkShared {
  qidPaths : gmap fileIdentity Z;
  nextQIDPath : Z;
  tree : Tree;
  made : nat
}.

Definition identityOf (st : Stat_t) : fileIdentity := mkIdentity (Dev st) (Ino st).

Definition qidVersion (seconds nanoseconds : Z) : Z :=
  uint_wrap 32 (uint_wrap 64 (uint_wrap 64 seconds * 1000000000 + uint_wrap 64 nanoseconds)).

Definition statToQID (st : Stat_t) : QID.t :=
  let fmt := Z.land (Mode st) S_IFMT in
  let t := if fmt =? S_IFDIR then QTDIR else if fmt =? S_IFLNK then QTSYMLINK else QTFILE in
  QID.mk t (qidVersion (CtimSec st) (CtimNsec st)) (Ino st).

Definition withPath (q : QID.t) (path : Z) : QID.t := QID.mk (QID.Type_ q) (QID.Version q) path.

Definition qidFor (st : Stat_t) (s : Shared) : QID.t * Shared :=
  let qid := statToQID st in
  let identity := identityOf st in
  match qidPaths s !! identity with
  | Some path => (withPath qid path, s)
  | None =>
      let path := nextQIDPath s in
      (withPath qid path, mkShared (<[identity := path]> (qidPaths s)) (uint_wrap 64 (path + 1)) (tree s) (made s))
  end.

Definition onTree (f : Tree -> Tree) (s : Shared) : Shared :=
  mkShared (qidPaths s) (nextQIDPath s) (f (tree s)) (made s).

(** The critical sections. *)
Definition runLocal {B} (l : local B) (s : Shared) : B * Shared :=
  match l in local B return B * Shared with
  | QidFor st => qidFor st s
  | NewNode => (made s, mkShared (qidPaths s) (nextQIDPath s) (tree s) (S (made s)))
  | InitInode n q => (tt, onTree (Init n q) s)
  | MarkPrunable n => (tt, onTree (SetPrunable n) s)
  | GetQID n => (QIDof n (tree s), s)
  | InodeAddChild n nm child => (tt, onTree (AddChild n nm child) s)
  | InodeRemoveChild n nm => (tt, onTree (RemoveChild n nm) s)
  end.

(** ** Native directory entries *)

(** [bytes.Cut(b, []byte{0})]: what precedes the first NUL, or all. *)
Fixpoint cutNul (b : bytes) : bytes :=
  match b with [] => [] | x :: b => if decide (x = byte_of_Z 0) then [] else x :: cutNul b end.

Definition dtypeToQIDType (dtype : Z) : QIDType :=
  if dtype =? DT_DIR then QTDIR else if dtype =? DT_LNK then QTSYMLINK else QTFILE.

(** One record at the head of [buf]: the entry and the length of the record. *)
Definition parseHead (buf : bytes) : option (Dirent.t * nat) :=
  if (length buf <? 19)%nat then None
  else
    let ino := field buf 0 8 in
    let offset := field buf 8 8 in
    let reclen := Z.to_nat (field buf 16 2) in
    let dtype := field buf 18 1 in
    if (length buf <? reclen)%nat || (reclen <? 19)%nat then None
    else
      let nm := string_of_bytes (cutNul (take (reclen - 19) (drop 19 buf))) in
      Some (Dirent.mk (QID.mk (dtypeToQIDType dtype) 0 ino) offset dtype nm, reclen).

Definition dotOrDotDot (d : Dirent.t) : bool := bool_decide (Dirent.Name d = "." \/ Dirent.Name d = "..").

(** A record is at least 19 bytes, so the length of the buffer is fuel enough. *)
Fixpoint parseLoop (fuel : nat) (buf : bytes) : list Dirent.t :=
  match fuel with
  | O => []
  | S fuel =>
      match parseHead buf with
      | None => []
      | Some (d, reclen) =>
          let rest := parseLoop fuel (drop reclen buf) in
          if dotOrDotDot d then rest else d :: rest
      end
  end.
Definition parseDirents (buf : bytes) : list Dirent.t := parseLoop (length buf) buf.

(** ** Operations *)

Definition procPath (fd : Z) : string := ("/proc/self/fd/" +:+ pretty fd)%string.
Definition openFlags (flags : Z) : Z := Z.lor (Z.ldiff flags O_NOFOLLOW) O_CLOEXEC.
Definition or4 (a b c d : Z) : Z := Z.lor (Z.lor (Z.lor a b) c) d.
Definition has (flags f : Z) : bool := negb (Z.land flags f =? 0).

(** [buf := make([]byte, n)] filled by a call that answered [sz] and wrote
    [data]; then [buf[:sz]]. *)
Definition filled (n : Z) (data : bytes) : bytes :=
  take (Z.to_nat n) data ++ replicate (Z.to_nat n - length data) (byte_of_Z 0).
Definition slice (buf : bytes) (sz : Z) : Op bytes :=
  if (0 <=? sz) && (sz <=? Z.of_nat (length buf)) then mret (take (Z.to_nat sz) buf)
  else fail (Sentinel "runtime error: slice bounds out of range").

Definition openResolved (n : Node) (flags : Z) : Op Z := sys (Open (procPath (fd n)) (openFlags flags) 0).

Definition chmodResolved (n : Node) (mode : Z) : Op unit :=
  answered (Fchmodat (fd n) "" mode AT_EMPTY_PATH) (fun r =>
    match r with
    | Ok _ => mret tt
    | Err e =>
        if negb (bool_decide (e = SyscallErrno EOPNOTSUPP)) then fail e
        else
          fd ← openResolved n O_RDONLY;
          closing fd (sys (Fchmod fd mode))
    end).

Definition truncateResolved (n : Node) (size : Z) : Op unit :=
  if 2 ^ 63 - 1 <? size then fail (SyscallErrno EFBIG)
  else
    fd ← openResolved n O_WRONLY;
    closing fd (sys (Ftruncate fd (int64 size))).

Definition chownResolved (n : Node) (uid gid : Z) : Op unit :=
  sys (Fchownat (fd n) "" uid gid (Z.lor AT_EMPTY_PATH AT_SYMLINK_NOFOLLOW)).

Definition readlinkResolved (n : Node) : Op string :=
  buf ← sys (Readlinkat (fd n) "" 4096);
  mret (string_of_bytes buf).

Definition setTimesResolved (n : Node) (ts : list Timespec) : Op unit :=
  sys (UtimesNanoAt (fd n) "" ts (Z.lor AT_EMPTY_PATH AT_SYMLINK_NOFOLLOW)).

Definition linkResolved (n : Node) (dstFD : Z) (nm : string) : Op unit :=
  sys (Linkat AT_FDCWD (procPath (fd n)) dstFD nm AT_SYMLINK_FOLLOW).

Definition xattrFd (n : Node) : Op Z := openResolved n O_RDONLY.

(** [NewRoot]: the options are applied before the mapper is checked. *)
Definition NewRoot (hostPath : string) (opts : list (Config -> Config)) : Op (Root * Node) :=
  fd ← sys (Open hostPath (Z.lor (Z.lor O_RDONLY O_DIRECTORY) O_CLOEXEC) 0);
  st ← orElse (sys (Fstat fd)) (close_ fd);
  let c := fold_left (fun c opt => opt c) opts (mkConfig IdentityMapper false false false) in
  match ToHost (mapper c), FromHost (mapper c) with
  | Some to, Some from =>
      id ← proc NewNode;
      q ← proc (QidFor st);
      proc (InitInode id q);;
      mret (mkRoot to from (identityOf st) c, mkNode id fd 0 "" (Dev st) (Ino st))
  | _, _ => close_ fd;; fail (Sentinel "passthrough: UID mapper callbacks must not be nil")
  end.

Section Ops.
Context (root : Root).

Definition requireMutable : Op unit := guard_ (negb (readOnly (options root))) EROFS.

Definition creationGID (gid : Z) : Op (Z * bool) :=
  if gid =? NoUID then mret (-1, false)
  else if negb (allowOwner (options root)) then errno EPERM
  else mret (snd (toHost root 0 gid), true).

Definition deviceNodeDenied (mode : FileMode) : bool :=
  if allowDevice (options root) then false
  else let fmt := Z.land mode S_IFMT in (fmt =? S_IFBLK) || (fmt =? S_IFCHR).

Definition statToAttr (st : Stat_t) : Op Attr.t :=
  let '(uid, gid) := fromHost root (Uid st) (Gid st) in
  q ← proc (QidFor st);
  mret (Attr.mk AttrAll q (Mode st) uid gid (Nlink st) (Rdev st) (uint_wrap 64 (Size st))
    (uint_wrap 64 (Blksize st)) (uint_wrap 64 (Blocks st))
    (uint_wrap 64 (AtimSec st)) (uint_wrap 64 (AtimNsec st)) (uint_wrap 64 (MtimSec st)) (uint_wrap 64 (MtimNsec st))
    (uint_wrap 64 (CtimSec st)) (uint_wrap 64 (CtimNsec st)) 0 0 0 0).

Definition childNode (n : Node) (fd' : Z) (nm : string) (dev ino : Z) : Op Node :=
  pfd ← orElse (sys (Dup (fd n))) (close_ fd');
  id ← proc NewNode;
  mret (mkNode id fd' pfd nm dev ino).

(** [child.Init(n.root.qidFor(&st), child)] and [SetPrunable] *)
Definition initChild (child : Node) (st : Stat_t) : Op unit :=
  q ← proc (QidFor st);
  proc (InitInode (nid child) q);;
  proc (MarkPrunable (nid child)).

Definition requireDir (n : Node) : Op unit :=
  q ← proc (GetQID (nid n));
  guard_ (QID.Type_ q =? QTDIR) ENOTDIR.

Definition openDirFlags : Z := or4 O_RDONLY O_DIRECTORY O_NOFOLLOW O_CLOEXEC.
Definition openPathFlags : Z := Z.lor (Z.lor O_PATH O_NOFOLLOW) O_CLOEXEC.

Definition lookupParent (n : Node) : Op Node :=
  st ← host (sys (Fstat (fd n)));
  let clampToRoot := bool_decide (identityOf st = rootId root) in
  let target := if clampToRoot then "." else ".." in
  fd' ← host (sys (Openat (fd n) target openDirFlags 0));
  cst ← host (orElse (sys (Fstat fd')) (close_ fd'));
  child ← (if clampToRoot then id ← proc NewNode; mret (mkNode id fd' 0 "" (Dev cst) (Ino cst))
           else host (childNode n fd' ".." (Dev cst) (Ino cst)));
  initChild child cst;;
  mret child.

Definition Lookup (n : Node) (nm : string) : Op Node :=
  if decide (nm = "..") then lookupParent n
  else
    st ← host (sys (Fstatat (fd n) nm AT_SYMLINK_NOFOLLOW));
    fd' ← host (sys (Openat (fd n) nm
      (if Z.land (Mode st) S_IFMT =? S_IFDIR then openDirFlags else openPathFlags) 0));
    st ← host (orElse (sys (Fstat fd')) (close_ fd'));
    child ← host (childNode n fd' nm (Dev st) (Ino st));
    initChild child st;;
    proc (InodeAddChild (nid n) nm (nid child));;
    mret child.

Definition Open_ (n : Node) (flags : Z) : Op (Handle * Z) :=
  guard_ (negb (readOnly (options root) && (negb (Z.land flags O_ACCMODE =? O_RDONLY) || has flags O_TRUNC))) EROFS;;
  q ← proc (GetQID (nid n));
  if QID.Type_ q =? QTDIR then
    fd' ← host (openResolved n (Z.lor O_RDONLY O_DIRECTORY));
    mret (dirHandle fd', 0)
  else
    fd' ← host (openResolved n flags);
    mret (fileHandle fd', 0).

Definition Getattr (n : Node) : Op Attr.t :=
  st ← host (sys (Fstat (fd n)));
  statToAttr st.

Definition nanos (sec nsec : Z) : Z := int64 (int64 sec * 1000000000 + int64 nsec).

Definition Setattr (n : Node) (attr : SetAttr.t) : Op unit :=
  let valid := SetAttr.Valid attr in
  when (negb (valid =? 0)) requireMutable;;
  guard_ (negb (has valid (Z.lor SetAttrUID SetAttrGID) && negb (allowOwner (options root)))) EPERM;;
  when (has valid SetAttrMode) (host (chmodResolved n (SetAttr.Mode attr)));;
  when (has valid SetAttrUID || has valid SetAttrGID)
    (let uid := if has valid SetAttrUID then fst (toHost root (SetAttr.UID attr) 0) else -1 in
     let gid := if has valid SetAttrGID then snd (toHost root 0 (SetAttr.GID attr)) else -1 in
     host (chownResolved n uid gid));;
  when (has valid SetAttrSize) (host (truncateResolved n (SetAttr.Size attr)));;
  when (has valid SetAttrATime || has valid SetAttrMTime)
    (let at_ := if has valid SetAttrATime then NsecToTimespec (nanos (SetAttr.ATimeSec attr) (SetAttr.ATimeNSec attr)) else UTIME_OMIT in
     let mt := if has valid SetAttrMTime then NsecToTimespec (nanos (SetAttr.MTimeSec attr) (SetAttr.MTimeNSec attr)) else UTIME_OMIT in
     host (setTimesResolved n [at_; mt])).

(** Both descriptors are closed; the error is the first one's. *)
Definition Close_ (n : Node) : Op unit :=
  answered (Close (fd n)) (fun r =>
    when (0 <? parentFd n) (close_ (parentFd n));;
    host (Ret r)).

(** ** Directories *)

(** The end of the operations that make an entry: the child is opened, and
    given the group that was asked for, or else taken away again. *)
Definition openMade (n : Node) (nm : string) (flags rmFlags hostGID : Z) (setGID : bool) : Op Node :=
  fd' ← host (sys (Openat (fd n) nm flags 0));
  st ← host (orElse (sys (Fstat fd')) (close_ fd'));
  child ← host (childNode n fd' nm (Dev st) (Ino st));
  initChild child st;;
  when setGID (host (orElse (chownResolved child (-1) hostGID)
    (ignore (Close_ child);; ignore (sys (Unlinkat (fd n) nm rmFlags)))));;
  mret child.

Definition Create (n : Node) (nm : string) (flags : Z) (mode : FileMode) (gid : Z) : Op (Node * Handle * Z) :=
  requireMutable;;
  '(hostGID, setGID) ← creationGID gid;
  requireDir n;;
  fd' ← host (sys (Openat (fd n) nm (or4 flags O_CREAT O_NOFOLLOW O_CLOEXEC) mode));
  st ← host (orElse (sys (Fstat fd')) (close_ fd'));
  pathFd ← host (orElse (sys (Dup fd')) (close_ fd'));
  child ← host (orElse (childNode n pathFd nm (Dev st) (Ino st)) (close_ fd'));
  initChild child st;;
  when setGID (host (orElse (chownResolved child (-1) hostGID)
    (ignore (Close_ child);; close_ fd';; ignore (sys (Unlinkat (fd n) nm 0)))));;
  mret (child, fileHandle fd', 0).

Definition Mkdir (n : Node) (nm : string) (mode : FileMode) (gid : Z) : Op Node :=
  requireMutable;;
  '(hostGID, setGID) ← creationGID gid;
  requireDir n;;
  host (sys (Mkdirat (fd n) nm mode));;
  openMade n nm openDirFlags AT_REMOVEDIR hostGID setGID.

Definition Symlink (n : Node) (nm target : string) (gid : Z) : Op Node :=
  requireMutable;;
  '(hostGID, setGID) ← creationGID gid;
  requireDir n;;
  host (sys (Symlinkat target (fd n) nm));;
  openMade n nm openPathFlags 0 hostGID setGID.

Definition mknodat (dirfd : Z) (nm : string) (mode : Z) (d : devT) : Op unit := sys (Mknodat dirfd nm mode d).

Definition Mknod (n : Node) (nm : string) (mode : FileMode) (major minor gid : Z) : Op Node :=
  requireMutable;;
  '(hostGID, setGID) ← creationGID gid;
  requireDir n;;
  guard_ (negb (deviceNodeDenied mode)) EPERM;;
  host (mknodat (fd n) nm mode (Mkdev major minor));;
  openMade n nm openPathFlags 0 hostGID setGID.

(** [target]: [None] is a node of another file system. *)
Definition Link (n : Node) (target : option Node) (nm : string) : Op unit :=
  requireMutable;;
  requireDir n;;
  match target with
  | None => errno EINVAL
  | Some source => host (linkResolved source (fd n) nm)
  end.

Definition Readlink (n : Node) : Op string := host (readlinkResolved n).

Definition Unlink (n : Node) (nm : string) (flags : Z) : Op unit :=
  requireMutable;;
  requireDir n;;
  host (sys (Unlinkat (fd n) nm flags));;
  proc (InodeRemoveChild (nid n) nm).

(** The new directory with its own root. *)
Definition Rename (n : Node) (oldName : string) (newDir : option (Root * Node)) (newName : string) : Op unit :=
  requireMutable;;
  requireDir n;;
  match newDir with
  | None => errno EINVAL
  | Some (r, d) =>
      guard_ (negb (readOnly (options r))) EROFS;;
      host (sys (Renameat (fd n) oldName (fd d) newName))
  end.

(** [fuel] bounds the calls of Getdents. *)
Fixpoint getdentsLoop (fuel : nat) (fd : Z) (dirents : list Dirent.t) : Op (list Dirent.t) :=
  match fuel with
  | O => fail (Sentinel "fuel")
  | S fuel =>
      buf ← host (sys (Getdents fd 8192));
      if (length buf =? 0)%nat then mret dirents else getdentsLoop fuel fd (dirents ++ parseDirents buf)
  end.

Definition Readdir (fuel : nat) (n : Node) : Op (list Dirent.t) :=
  requireDir n;;
  fd' ← host (sys (Openat (fd n) "." (Z.lor (Z.lor O_RDONLY O_DIRECTORY) O_CLOEXEC) 0));
  closing fd' (getdentsLoop fuel fd' []).

Definition StatFS (n : Node) : Op FSStat.t :=
  st ← host (sys (Fstatfs (fd n)));
  mret (FSStat.mk (uint_wrap 32 (fsType st)) (uint_wrap 32 (fsBsize st)) (fsBlocks st) (fsBfree st) (fsBavail st)
    (fsFiles st) (fsFfree st) (Z.lor (uint_wrap 32 (fsid0 st)) (Z.shiftl (uint_wrap 32 (fsid1 st)) 32))
    (uint_wrap 32 (fsNamelen st))).

(** ** Extended attributes *)

Definition GetXattr (n : Node) (nm : string) : Op bytes :=
  fd' ← host (xattrFd n);
  closing fd' (
    answered (Fgetxattr fd' nm 256) (fun r =>
      match r with
      | Err e =>
          if errors_Is e (SyscallErrno ERANGE) then
            '(sz, _) ← host (sys (Fgetxattr fd' nm 0));
            '(sz', data) ← host (sys (Fgetxattr fd' nm sz));
            slice (filled sz data) sz'
          else fail (toProtoErr e)
      | Ok (sz, data) => slice (filled 256 data) sz
      end)).

Definition SetXattr (n : Node) (nm : string) (data : bytes) (flags : Z) : Op unit :=
  requireMutable;;
  fd' ← host (xattrFd n);
  closing fd' (host (sys (Fsetxattr fd' nm data flags))).

Definition ListXattrs (n : Node) : Op (list string) :=
  fd' ← host (xattrFd n);
  closing fd' (
    '(sz, _) ← host (sys (Flistxattr fd' 0));
    if sz =? 0 then mret []
    else
      '(sz', data) ← host (sys (Flistxattr fd' sz));
      buf ← slice (filled sz data) sz';
      mret (string_of_bytes <$> List.filter (fun part => negb (length part =? 0)%nat) (splitNul buf []))).

Definition RemoveXattr (n : Node) (nm : string) : Op unit :=
  requireMutable;;
  fd' ← host (xattrFd n);
  closing fd' (host (sys (Fremovexattr fd' nm))).
End Ops.

(** ** Handles *)

Module FileHandle.
(** The bytes read; [buf] has room for [cap]. *)
Definition Read (fd cap offset : Z) : Op bytes := host (sys (Pread fd cap (int64 offset))).
Definition Write (fd : Z) (data : bytes) (offset : Z) : Op Z :=
  n ← host (sys (Pwrite fd data (int64 offset)));
  mret (uint_wrap 32 n).
Definition Release (fd : Z) : Op unit := host (sys (Close fd)).
Definition Fsync (fd : Z) : Op unit := host (sys (HostSys.Fsync fd)).

Definition lockTypeToFcntl (lt : LockType) : Z :=
  if lt =? LockTypeRdLck then F_RDLCK else if lt =? LockTypeWrLck then F_WRLCK else F_UNLCK.
Definition fcntlToLockType (ft : Z) : LockType :=
  if ft =? F_RDLCK then LockTypeRdLck else if ft =? F_WRLCK then LockTypeWrLck else LockTypeUnlck.

(** The status, with the error that accompanies [LockStatusError]. *)
Definition Lock (fd : Z) (lockType : LockType) (start length : Z) : Op LockStatus :=
  answered (FcntlFlock fd F_SETLK (mkFlock (lockTypeToFcntl lockType) 0 (int64 start) (int64 length) 0)) (fun r =>
    match r with
    | Ok _ => mret LockStatusOK
    | Err e =>
        if errors_Is e (SyscallErrno EAGAIN) || errors_Is e (SyscallErrno EACCES) then mret LockStatusBlocked
        else fail (toProtoErr e)
    end).

Definition GetLock (fd : Z) (lockType : LockType) (start length procID : Z) (clientID : string)
    : Op (LockType * Z * Z * Z * string) :=
  flock ← host (sys (FcntlFlock fd F_GETLK
    (mkFlock (lockTypeToFcntl lockType) 0 (int64 start) (int64 length) (int_wrap 32 procID))));
  if lType flock =? F_UNLCK then mret (LockTypeUnlck, start, length, procID, clientID)
  else mret (fcntlToLockType (lType flock), uint_wrap 64 (lStart flock), uint_wrap 64 (lLen flock),
             uint_wrap 32 (lPid flock), clientID).
End FileHandle.

Module DirHandle.
(** The buffer after the call and the bytes encoded into it. *)
Definition RawReaddir (fd : Z) (buf : bytes) (offset : Z) : Op (bytes * nat) :=
  if 2 ^ 63 - 1 <? offset then errno EINVAL
  else
    host (sys (Seek fd (int64 offset) 0));;
    raw ← host (sys (Getdents fd 8192));
    let '(buf, (encoded, _)) := EncodeDirentsInto buf (parseDirents raw) in
    mret (buf, encoded).
Definition Release (fd : Z) : Op unit := host (sys (Close fd)).
End DirHandle.
