(* ===== verification/PassSystem.v ===== *)
(** * Descriptors of the passthrough file system

    Any number of goroutines run operations of the passthrough file system at
    once, each interrupted at any system call.  [kernel] is what the manual
    pages say of the calls that make, close and identify descriptors; [wp]
    steps through a program for every answer of the kernel.  [State] is the
    process: its descriptors, the nodes and handles that the server holds,
    the operations that run, and the descriptors of everybody else. *)

From S2P Require Import Prelude Types Errno Inode Namespace HostSys Passthrough.
Open Scope Z_scope.

Abbreviation fdTable := (gmap Z fileIdentity).

(** A path that is one component, and is not followed if it is a link. *)
Definition component (nm : string) : Prop := validatePathElement nm = None.
Definition nofollow (flags : Z) (nm : string) : Prop := has flags O_NOFOLLOW = true \/ nm = "." \/ nm = "..".

(** ** The kernel *)

Section Kernel.
(** [entry d nm f]: [f] is what the name [nm] in directory [d] stands for. *)
Context (entry : fileIdentity -> string -> fileIdentity -> Prop).

(** A call that makes a descriptor fails, or takes a number that is not in use. *)
Definition opened (P : fileIdentity -> Prop) (T : fdTable) (r : result Z) (T' : fdTable) : Prop :=
  match r with
  | Err _ => T' = T
  | Ok d => 0 <= d /\ T !! d = None /\ exists f, P f /\ T' = <[d := f]> T
  end.

Definition kernel {B} (T : fdTable) (c : call B) : B -> fdTable -> Prop :=
  match c in call B return B -> fdTable -> Prop with
  | Open path _ _ => opened (fun f => forall d, path = procPath d -> T !! d = Some f) T
  | Openat d nm flags _ =>
      opened (fun f => exists df, T !! d = Some df /\ (component nm -> nofollow flags nm -> entry df nm f)) T
  | Dup d => opened (fun f => T !! d = Some f) T
  | Close d => fun _ T' => T' = delete d T
  | Fstat d => fun r T' => T' = T /\ match r with Ok st => T !! d = Some (identityOf st) | Err _ => True end
  | _ => fun _ T' => T' = T
  end.
End Kernel.

(** ** What a program may ask of the kernel *)

(** The last component of a path argument: empty for the descriptor itself. *)
Definition inside (nm : string) : Prop := nm = "" \/ (component nm /\ nm <> "..").

(** Every descriptor is one that [L] has, and no path leads elsewhere; only
    the descriptors in [hs] are written to. *)
Definition fine {B} (L hs : gset Z) (c : call B) : Prop :=
  let open d := d ∈ L in
  match c with
  | Open path _ _ => exists d, path = procPath d /\ open d
  | Openat d nm flags _ => open d /\ component nm /\ nofollow flags nm
  | Fstatat d nm flags => open d /\ inside nm /\ has flags AT_SYMLINK_NOFOLLOW = true
  | Fchownat d nm _ _ flags | UtimesNanoAt d nm _ flags => open d /\ nm = "" /\ has flags AT_SYMLINK_NOFOLLOW = true
  | Fchmodat d nm _ _ | Readlinkat d nm _ => open d /\ nm = ""
  | Mkdirat d nm _ | Symlinkat _ d nm | Mknodat d nm _ _ | Unlinkat d nm _ => open d /\ component nm /\ inside nm
  | Linkat _ old d nm _ => (exists s, old = procPath s /\ open s) /\ open d /\ component nm /\ inside nm
  | Renameat d nm d' nm' => open d /\ open d' /\ inside nm /\ inside nm'
  | Pwrite d _ _ => open d /\ d ∈ hs
  | Close d | Dup d | Fstat d | Fstatfs d | Fchmod d _ | Ftruncate d _ | Getdents d _ | Seek d _ _ | Pread d _ _
  | Fsync d | FcntlFlock d _ _ | Fgetxattr d _ _ | Fsetxattr d _ _ _ | Flistxattr d _
  | Fremovexattr d _ => open d
  end.

(** What the options of the root allow.  A write is to a handle, which the
    server opened ([writers] below). *)
Definition readsOnly (flags : Z) : bool := (Z.land flags O_ACCMODE =? O_RDONLY) && negb (has flags O_TRUNC).

Definition permitted {B} (o : Config) (c : call B) : Prop :=
  match c with
  (* of what is open already: [O_CREAT] has nothing to create *)
  | Open path flags _ => (exists d, path = procPath d) /\ (readOnly o = true -> readsOnly flags = true)
  | Openat _ _ flags _ => readOnly o = true -> readsOnly flags = true /\ has flags O_CREAT = false
  | Fchownat _ _ _ _ _ => readOnly o = false /\ allowOwner o = true
  | Mknodat _ _ mode _ =>
      readOnly o = false /\ (allowDevice o = true \/ (Z.land mode S_IFMT <> S_IFBLK /\ Z.land mode S_IFMT <> S_IFCHR))
  | Fchmodat _ _ _ _ | Fchmod _ _ | Ftruncate _ _ | UtimesNanoAt _ _ _ _ | Mkdirat _ _ _ | Symlinkat _ _ _
  | Linkat _ _ _ _ _ | Unlinkat _ _ _ | Renameat _ _ _ _ | Fsetxattr _ _ _ _ | Fremovexattr _ _ => readOnly o = false
  | _ => True
  end.

(** ** Programs and the descriptors they hold *)

Definition closes {B} (c : call B) : option Z := match c with Close d => Some d | _ => None end.
Definition gives {B} (c : call B) : B -> option Z :=
  match c in call B return B -> option Z with
  | Open _ _ _ | Openat _ _ _ _ | Dup _ => fun r => match r with Ok d => Some d | Err _ => None end
  | _ => fun _ => None
  end.

Definition after {B} (own : gset Z) (c : call B) (r : B) : gset Z :=
  match closes c, gives c r with
  | Some d, _ => own ∖ {[d]}
  | None, Some d => {[d]} ∪ own
  | None, None => own
  end.

Section WP.
Context (entry : fileIdentity -> string -> fileIdentity -> Prop) (exported : fileIdentity -> Prop).
Context (root : Root).

(** [names]: the descriptors of the nodes and handles that the operation was
    given, [hs] those of the handles; [bor]: those of them, with their files, that stay open while it
    runs; [own]: those it must close or hand over.  Descriptor 0 is always
    open (standard input). *)
Definition serves (bor : fdTable) (own : gset Z) (T : fdTable) : Prop :=
  bor ⊆ T /\ (forall d, d ∈ own -> exists f, T !! d = Some f /\ exported f) /\ is_Some (T !! 0).

Fixpoint wp {A} (names hs : gset Z) (bor : fdTable) (own : gset Z) (p : prog A) (Q : gset Z -> A -> Prop) : Prop :=
  match p with
  | Ret a => Q own a
  | Loc l k => forall s, wp names hs bor own (k (fst (runLocal l s))) Q
  | Sys c k =>
      fine (own ∪ names) hs c /\ permitted (options root) c /\ (forall d, closes c = Some d -> d ∈ own) /\
      forall T r T', serves bor own T -> kernel entry T c r T' ->
        (forall d f, gives c r = Some d -> T' !! d = Some f -> exported f) /\ wp names hs bor (after own c r) (k r) Q
  end.

Lemma wp_mono {A} (p : prog A) names hs bor own (Q Q' : gset Z -> A -> Prop) :
  wp names hs bor own p Q -> (forall o a, Q o a -> Q' o a) -> wp names hs bor own p Q'.
Proof.
  intros Hp HQ. revert own Hp. induction p as [a|B c k IH|B l k IH]; cbn; intros own.
  - apply HQ.
  - intros (Hf & Hpm & Hc & Hk). split_and!; [done..|]. intros T r T' HT Hr. destruct (Hk T r T' HT Hr). split; [done|]. by apply IH.
  - intros Hk s. by apply IH.
Qed.

Lemma wp_bind {A B} (p : prog A) (f : A -> prog B) names hs bor own Q :
  wp names hs bor own p (fun o a => wp names hs bor o (f a) Q) -> wp names hs bor own (pbind f p) Q.
Proof.
  revert own. induction p as [a|C c k IH|C l k IH]; cbn; intros own; [done| |].
  - intros (Hf & Hpm & Hc & Hk). split_and!; [done..|]. intros T r T' HT Hr. destruct (Hk T r T' HT Hr). split; [done|]. by apply IH.
  - intros Hk s. by apply IH.
Qed.

(** *** One call at a time *)

Section Rules.
Context {A : Type} (names hs : gset Z) (bor : fdTable) (own : gset Z) (Q : gset Z -> A -> Prop).

Lemma wp_loc {B} (l : local B) k : (forall b, wp names hs bor own (k b) Q) -> wp names hs bor own (Loc l k) Q.
Proof. cbn. auto. Qed.

Lemma wp_close d k : d ∈ own -> (forall r, wp names hs bor (own ∖ {[d]}) (k r) Q) -> wp names hs bor own (Sys (Close d) k) Q.
Proof. intros Hd Hk. cbn. split_and!; [set_solver|done|by intros ? [= <-]|]. intros T r T' _ _. by split. Qed.

Lemma wp_stat d k : d ∈ own ∪ names ->
  (forall e, wp names hs bor own (k (Err e)) Q) ->
  (forall st, (forall f, bor !! d = Some f -> f = identityOf st) -> wp names hs bor own (k (Ok st)) Q) ->
  wp names hs bor own (Sys (Fstat d) k) Q.
Proof.
  intros Hd He Ho. cbn. split_and!; [done|done|done|]. intros T r T' (Hb & _) [-> Hr]. split; [done|].
  destruct r as [st|e]; [|done]. apply Ho. intros f Hf. pose proof (lookup_weaken _ _ _ _ Hf Hb). congruence.
Qed.

(** The calls that make a descriptor of a file that [P] describes. *)
Lemma wp_opened (c : call (result Z)) (P : fdTable -> fileIdentity -> Prop) k :
  closes c = None -> (forall r, gives c r = match r with Ok d => Some d | Err _ => None end) ->
  (forall T r T', kernel entry T c r T' -> opened (P T) T r T') ->
  fine (own ∪ names) hs c -> permitted (options root) c ->
  (forall T f, serves bor own T -> P T f -> exported f) ->
  (forall e, wp names hs bor own (k (Err e)) Q) ->
  (forall d, 0 < d -> d ∉ own -> d ∉ dom bor -> wp names hs bor ({[d]} ∪ own) (k (Ok d)) Q) ->
  wp names hs bor own (Sys c k) Q.
Proof.
  intros Hc Hg Hop Hf Hp HP He Ho. cbn. split_and!; [done|done|by rewrite Hc|]. intros T r T' HT Hr%Hop.
  unfold after. rewrite Hc, Hg. destruct r as [d|e]; [|by split].
  destruct Hr as (Hd & HTd & f & HPf & ->). destruct HT as (Hb & Hown & [f0 H0]).
  split; [intros ? f' [= <-]; rewrite lookup_insert_eq; intros [= <-]; by apply (HP T)|]. apply Ho.
  - assert (d <> 0) by congruence. lia.
  - intros Hin. destruct (Hown d Hin) as (? & ? & _). congruence.
  - intros [f' Hf']%elem_of_dom. pose proof (lookup_weaken _ _ _ _ Hf' Hb). congruence.
Qed.

Definition quiet {B} (c : call B) : bool :=
  match c with Open _ _ _ | Openat _ _ _ _ | Dup _ | Close _ | Fstat _ => false | _ => true end.

Lemma wp_quiet {B} (c : call B) k :
  quiet c = true -> fine (own ∪ names) hs c -> permitted (options root) c -> (forall r, wp names hs bor own (k r) Q) ->
  wp names hs bor own (Sys c k) Q.
Proof.
  intros Hq Hf Hp Hk. cbn. split_and!; [done|done|by destruct c|]. intros T r T' _ _.
  assert (gives c r = None /\ after own c r = own) as [-> ->] by (by destruct c). by split.
Qed.

(** Either what is named stays open, or nothing is asked of the files. *)
Context (Hsafe : (forall f, exported f) \/ names ⊆ dom bor).
Context (Hbor : forall d f, bor !! d = Some f -> exported f).

Lemma served_exported T d f : serves bor own T -> d ∈ own ∪ names -> T !! d = Some f -> exported f.
Proof.
  intros (Hb & Hown & _) [Hd|Hd]%elem_of_union HT; [destruct (Hown d Hd) as (? & ? & ?); congruence|].
  destruct Hsafe as [|Hn]; [done|]. apply Hn, elem_of_dom in Hd as [f' Hf']. apply (Hbor d). rewrite (lookup_weaken _ _ _ _ Hf' Hb) in HT. congruence.
Qed.

Lemma wp_dup d k : d ∈ own ∪ names -> (forall e, wp names hs bor own (k (Err e)) Q) ->
  (forall d, 0 < d -> d ∉ own -> d ∉ dom bor -> wp names hs bor ({[d]} ∪ own) (k (Ok d)) Q) ->
  wp names hs bor own (Sys (Dup d) k) Q.
Proof. intros Hd. eapply (wp_opened _ (fun T f => T !! d = Some f)); try done. intros T f HT. by eapply served_exported. Qed.

Lemma wp_reopen d flags perm k : d ∈ own ∪ names -> permitted (options root) (Open (procPath d) flags perm) ->
  (forall e, wp names hs bor own (k (Err e)) Q) ->
  (forall d, 0 < d -> d ∉ own -> d ∉ dom bor -> wp names hs bor ({[d]} ∪ own) (k (Ok d)) Q) ->
  wp names hs bor own (Sys (Open (procPath d) flags perm) k) Q.
Proof.
  intros Hd Hp. eapply (wp_opened _ (fun T f => forall d', procPath d = procPath d' -> T !! d' = Some f)); try done; [by exists d|].
  intros T f HT Hf. eapply served_exported; [done|done|]. by apply Hf.
Qed.

(** [entry] keeps to the export, for the directory that is opened. *)
Lemma wp_openat d nm flags perm k : d ∈ own ∪ names -> component nm -> nofollow flags nm ->
  permitted (options root) (Openat d nm flags perm) ->
  (forall T df f, serves bor own T -> T !! d = Some df -> exported df -> entry df nm f -> exported f) ->
  (forall e, wp names hs bor own (k (Err e)) Q) ->
  (forall d, 0 < d -> d ∉ own -> d ∉ dom bor -> wp names hs bor ({[d]} ∪ own) (k (Ok d)) Q) ->
  wp names hs bor own (Sys (Openat d nm flags perm) k) Q.
Proof.
  intros Hd Hc Hn Hp He. eapply (wp_opened _ (fun T f => exists df, T !! d = Some df /\ (component nm -> nofollow flags nm -> entry df nm f))); try done.
  intros T f HT (df & Hdf & Hent). eapply He; [done|done|by eapply served_exported|auto].
Qed.
End Rules.

(** ** The operations *)

(** The laws of the exported tree: what is below it, and that [..] of a
    directory other than its root does not leave it. *)
Context (exported_down : forall d nm f, exported d -> nm <> ".." -> entry d nm f -> exported f).
Context (exported_up : forall d f, exported d -> d <> rootId root -> entry d ".." f -> exported f).

(** The descriptors of a node: [parentFd] is 0 when there is none. *)
Definition fdsOf (n : Node) : list Z := fd n :: (if 0 <? parentFd n then [parentFd n] else []).
Definition handleFd (h : Handle) : Z := match h with fileHandle d | dirHandle d => d end.

(** What an operation hands to the server. *)
Record Out : Type := mkOut { outNode : option Node; outHandle : option Handle }.
Definition outFds (o : Out) : list Z :=
  match outNode o with Some n => fdsOf n | None => [] end ++ match outHandle o with Some h => [handleFd h] | None => [] end.

(** The descriptors a finished operation holds are exactly those it hands over. *)
Definition settles (own : gset Z) (r : result Out) : Prop :=
  match r with
  | Ok o => (forall d, d ∈ own <-> d ∈ outFds o) /\ NoDup (outFds o)
  | Err _ => own = ∅
  end.

Definition nothing {A} (m : Op A) : Op Out := _ ← m; mret (mkOut None None).
Definition aNode (m : Op Node) : Op Out := n ← m; mret (mkOut (Some n) None).
Definition aHandle {A} (m : Op (Handle * A)) : Op Out := '(h, _) ← m; mret (mkOut None (Some h)).
Definition both {A} (m : Op (Node * Handle * A)) : Op Out := '(n, h, _) ← m; mret (mkOut (Some n) (Some h)).

Section Specs.
Context (names hs : gset Z) (bor : fdTable) (Hsafe : (forall f, exported f) \/ names ⊆ dom bor).
Context (Hbor : forall d f, bor !! d = Some f -> exported f).
Abbreviation runs own p := (wp names hs bor own p settles).

Lemma has_lor_r a b m : has b m = true -> has (Z.lor a b) m = true.
Proof.
  unfold has. rewrite Z.land_lor_distr_l, !negb_true_iff, !Z.eqb_neq. intros Hb [_ H]%Z.lor_eq_0_iff. done.
Qed.
Lemma has_lor_l a b m : has a m = true -> has (Z.lor a b) m = true.
Proof. rewrite Z.lor_comm. apply has_lor_r. Qed.

Lemma has_or v a b : has v (Z.lor a b) = has v a || has v b.
Proof.
  unfold has. rewrite Z.land_lor_distr_r. destruct (Z.eqb_spec (Z.land v a) 0) as [->|Ha]; [done|].
  cbn. apply negb_true_iff, Z.eqb_neq. intros [? _]%Z.lor_eq_0_iff. done.
Qed.

Lemma land_openFlags flags m : Z.land m O_NOFOLLOW = 0 -> Z.land m O_CLOEXEC = 0 -> Z.land (openFlags flags) m = Z.land flags m.
Proof.
  intros Hn Hc. unfold openFlags. rewrite Z.land_lor_distr_l, (Z.land_comm O_CLOEXEC), Hc, Z.lor_0_r.
  apply Z.bits_inj'. intros i Hi. rewrite !Z.land_spec, Z.ldiff_spec.
  assert (Hb : Z.testbit (Z.land m O_NOFOLLOW) i = false) by (by rewrite Hn, Z.bits_0).
  rewrite Z.land_spec in Hb. by destruct (Z.testbit flags i), (Z.testbit m i), (Z.testbit O_NOFOLLOW i).
Qed.

Lemma readsOnly_openFlags flags : readsOnly (openFlags flags) = readsOnly flags.
Proof. unfold readsOnly, has. by rewrite !land_openFlags. Qed.

Lemma validName_component nm : validName nm = true -> component nm /\ nm <> "..".
Proof.
  unfold validName, component, validatePathElement. case_decide as H; [done|]. intros Hs%negb_true_iff.
  rewrite decide_False by tauto. rewrite Hs. tauto.
Qed.

Lemma component_dot : component "." /\ component "..".
Proof. done. Qed.

(** Symbolic execution: one rule per call, for every answer. *)
Ltac wp_hnf :=
  match goal with |- wp ?ns ?hs ?b ?o ?p ?Q => let p' := eval hnf in p in change (wp ns hs b o p' Q) end.
Ltac drop_laws := repeat match goal with H : forall _, _ |- _ => clear H end.
Ltac sets :=
  drop_laws; cbn [fd parentFd] in *;
  first [apply set_eq; intros ? | progress intros ? | idtac];
  rewrite ?elem_of_difference, ?elem_of_union, ?elem_of_singleton, ?elem_of_empty, ?elem_of_cons, ?elem_of_nil in *;
  first [tauto | intuition congruence].
Ltac held :=
  lazymatch goal with
  | |- _ ∈ {[_]} => by apply elem_of_singleton
  | |- _ ∈ _ ∖ _ => sets
  | |- _ ∈ _ ∪ _ => first [apply elem_of_union_l; solve [held] | apply elem_of_union_r; solve [held]]
  | |- _ => assumption
  end.
Ltac wp_case :=
  wp_hnf;
  lazymatch goal with
  | |- wp _ _ _ _ (Ret _) _ => cbn [wp]; cbv beta
  | |- wp _ _ _ _ (Loc _ _) _ => apply wp_loc; intros ?
  | |- wp _ _ _ _ (Sys (Close _) _) _ => apply wp_close; [held|intros ?]
  | |- wp _ _ _ _ (Sys (Fstat _) _) _ => apply wp_stat; [held|intros ?|intros ? ?]
  | |- wp _ _ _ _ (Sys (Dup _) _) _ => apply wp_dup; [done|done|held|intros ?|intros ? ? ? ?]
  | |- wp _ _ _ _ (Sys (Open _ _ _) _) _ => apply wp_reopen; [done|done|held| |intros ?|intros ? ? ? ?]
  | |- wp _ _ _ _ (Sys (Openat _ _ _ _) _) _ => apply wp_openat; [done|done|held| | | | |intros ?|intros ? ? ? ?]
  | |- wp _ _ _ _ (Sys _ _) _ => apply wp_quiet; [done| | |intros []]
  | |- wp _ _ _ _ (match 0 <? ?x with _ => _ end) _ => destruct (Z.ltb_spec 0 x); [|cbn [parentFd] in *; lia]
  | |- wp _ _ _ _ (match ?x with _ => _ end) _ => destruct x eqn:?
  | |- wp _ _ _ _ (pbind _ _) _ => apply wp_bind
  end.
Ltac settle :=
  lazymatch goal with
  | |- settles _ (Err _) => cbn [settles]; sets
  | |- settles _ (Ok _) =>
      unfold settles, outFds, fdsOf; cbn -[Z.ltb];
      repeat match goal with H : 0 < ?d |- context [0 <? ?d] => rewrite (proj2 (Z.ltb_lt 0 d) H) end;
      cbn; split; [sets|repeat (apply NoDup_cons; split; [sets|]); by apply NoDup_nil_2]
  end.
Ltac opening :=
  lazymatch goal with
  | |- component _ => first [assumption | done]
  | |- nofollow _ _ => first [by left | by right; left | by right; right | left; apply has_lor_l, has_lor_r; reflexivity]
  | |- permitted _ _ => first [done | intros _; done | split; [by eexists|first [done | intros _; done | congruence]]]
  | |- forall T df f, serves _ _ T -> _ => intros ? ? ? ? ? ? ?; try (eapply exported_down; [eassumption| |eassumption]; done)
  end.

Context (n : Node) (Hn : fd n ∈ names).

Ltac policy :=
  lazymatch goal with
  | |- fine _ _ _ => cbn; split_and?; first [held | done | by right | by left | eexists; split; [reflexivity|held] | idtac]
  | |- permitted _ _ => cbn; first [done | intros; rewrite ?negb_true_iff, ?negb_false_iff in *; split_and?; (done || congruence) | idtac]
  end.
Ltac run := repeat wp_case; first [settle | opening | policy | idtac]; try done.

Lemma lookup_settles nm : component nm -> runs ∅ (aNode (Lookup root n nm)).
Proof.
  intros Hnm. unfold Lookup. case_decide as Hd; run.
  - by case_bool_decide.
  - destruct Hsafe as [|Hsub]; [done|]. case_bool_decide as Hid; [by apply (exported_down df ".")|].
    apply (exported_up df); [done| |done]. apply Hsub, elem_of_dom in Hn as [f' Hf']. intros ->. apply Hid. rewrite <- (H f' Hf').
    destruct H0 as (Hb & _). pose proof (lookup_weaken _ _ _ _ Hf' Hb). congruence.
  - by destruct (_ =? _); left.
  - by destruct (_ =? _).
Qed.

Lemma open_settles flags : runs ∅ (aHandle (Open_ root n flags)).
Proof.
  unfold Open_. run. split; [by eexists|]. rewrite readsOnly_openFlags. unfold readsOnly. destruct (readOnly _); [intros _|done].
  by destruct (_ =? _), (has _ _).
Qed.
Lemma getattr_settles : runs ∅ (nothing (Getattr root n)).
Proof. unfold Getattr, statToAttr. run. Qed.

Section Named.
Context (nm : string) (Hnm : validName nm = true).
Let Hc : component nm. Proof. by apply validName_component. Qed.
Let Hd : nm <> "..". Proof. by apply validName_component. Qed.
Let Hin : inside nm. Proof. by right. Qed.

Lemma create_settles flags mode gid : runs ∅ (both (Create root n nm flags mode gid)).
Proof. unfold Create, requireMutable, creationGID. run. Qed.

Lemma mkdir_settles mode gid : runs ∅ (aNode (Mkdir root n nm mode gid)).
Proof. unfold Mkdir, requireMutable, creationGID, openMade. run. Qed.

Lemma symlink_settles target gid : runs ∅ (aNode (Symlink root n nm target gid)).
Proof. unfold Symlink, requireMutable, creationGID, openMade. run. Qed.

Lemma mknod_settles mode major minor gid : runs ∅ (aNode (Mknod root n nm mode major minor gid)).
Proof.
  assert (Hdev : negb (deviceNodeDenied root mode) = true -> allowDevice (options root) = true \/
    Z.land mode S_IFMT <> S_IFBLK /\ Z.land mode S_IFMT <> S_IFCHR).
  { unfold deviceNodeDenied. destruct (allowDevice _); [by left|]. intros [?%Z.eqb_neq ?%Z.eqb_neq]%negb_true_iff%orb_false_iff. by right. }
  unfold Mknod, requireMutable, creationGID, openMade. run.
  all: by split; [apply negb_true_iff|auto].
Qed.

Lemma link_settles target : (forall t, target = Some t -> fd t ∈ names) -> runs ∅ (nothing (Link root n target nm)).
Proof. unfold Link, requireMutable. intros Ht. destruct target as [t|]; [specialize (Ht _ eq_refl)|]; run.
Qed.

Lemma unlink_settles flags : runs ∅ (nothing (Unlink root n nm flags)).
Proof. unfold Unlink, requireMutable. run. Qed.

Lemma rename_settles newName d : validName newName = true -> (forall t, d = Some t -> fd t ∈ names) ->
  runs ∅ (nothing (Rename root n nm (pair root <$> d) newName)).
Proof. 
  intros [Hc' Hd']%validName_component Ht. unfold Rename, requireMutable. destruct d as [t|]; [specialize (Ht _ eq_refl)|]; run.
Qed.
End Named.

Lemma readlink_settles : runs ∅ (nothing (Readlink n)).
Proof. unfold Readlink. run. Qed.

Lemma statfs_settles : runs ∅ (nothing (StatFS n)).
Proof. unfold StatFS. run.
Qed.

(** A stage that keeps what is held. *)
Lemma wp_then {A B} own (m : Op A) (k : A -> Op B) Q :
  wp names hs bor own m (fun o _ => o = own) -> (forall a, wp names hs bor own (k a) Q) -> (forall e, Q own (Err e)) -> wp names hs bor own (m ≫= k) Q.
Proof. intros Hm Hk He. apply wp_bind. eapply wp_mono; [exact Hm|]. intros o [a|e] ->; [apply Hk|apply He]. Qed.

Ltac stage := apply wp_then; [|intros _|done].
Ltac keeps_held := repeat wp_case; first [done | opening | policy | idtac]; try (cbn [wp]; sets).

Lemma setattr_settles attr : runs ∅ (nothing (Setattr root n attr)).
Proof.
  unfold nothing. apply wp_then; [|intros _; run|done]. unfold Setattr, requireMutable.
  destruct (SetAttr.Valid attr =? 0) eqn:Ev.
  { apply Z.eqb_eq in Ev. rewrite Ev. done. }
  destruct (readOnly (options root)) eqn:Er; [done|]. stage; [done|].
  destruct (negb _) eqn:Eo; [|done]. stage; [done|].
  stage; [destruct (has _ SetAttrMode); keeps_held|].
  stage; [|stage; [destruct (has _ SetAttrSize); keeps_held|destruct (has _ SetAttrATime || _); keeps_held]].
  destruct (has _ SetAttrUID || has _ SetAttrGID) eqn:Eu; [|done]. keeps_held.
  split; [done|]. rewrite has_or, Eu in Eo. by destruct (allowOwner _).
Qed.

Lemma getxattr_settles nm : runs ∅ (nothing (GetXattr n nm)).
Proof. unfold GetXattr, slice. run. Qed.
Lemma setxattr_settles nm data flags : runs ∅ (nothing (SetXattr root n nm data flags)).
Proof. unfold SetXattr, requireMutable. run. Qed.
Lemma listxattrs_settles : runs ∅ (nothing (ListXattrs n)).
Proof. unfold ListXattrs, slice. run. Qed.
Lemma removexattr_settles nm : runs ∅ (nothing (RemoveXattr root n nm)).
Proof. unfold RemoveXattr, requireMutable. run. Qed.

Lemma getdents_keeps fuel d own acc : d ∈ own -> wp names hs bor own (getdentsLoop fuel d acc) (fun o _ => o = own).
Proof.
  intros Hd. revert acc. induction fuel as [|fuel IH]; intros acc; [done|]. wp_case; [by cbn; held|done| |done].
  wp_case; [done|apply IH].
Qed.

Lemma readdir_settles fuel : runs ∅ (nothing (Readdir fuel n)).
Proof.
  unfold Readdir. run. eapply wp_mono; [by apply getdents_keeps; held|]. intros o r ->. apply wp_bind.
  destruct r; run.
Qed.


Section Handles.
Context (d : Z) (Hd : d ∈ names).
Lemma read_settles cap offset : runs ∅ (nothing (FileHandle.Read d cap offset)).
Proof. unfold FileHandle.Read. run. Qed.
Lemma write_settles data offset : d ∈ hs -> runs ∅ (nothing (FileHandle.Write d data offset)).
Proof. intros Hw. unfold FileHandle.Write. run. Qed.
Lemma fsync_settles : runs ∅ (nothing (FileHandle.Fsync d)).
Proof. unfold FileHandle.Fsync. run. Qed.
Lemma flock_settles lt start len : runs ∅ (nothing (FileHandle.Lock d lt start len)).
Proof. unfold FileHandle.Lock. run. Qed.
Lemma getlock_settles lt start len pid cid : runs ∅ (nothing (FileHandle.GetLock d lt start len pid cid)).
Proof. unfold FileHandle.GetLock. run. Qed.
Lemma rawreaddir_settles buf offset : runs ∅ (nothing (DirHandle.RawReaddir d buf offset)).
Proof. unfold DirHandle.RawReaddir. run. Qed.
End Handles.

(** A close owns what it closes. *)
Lemma close_settles m : NoDup (fdsOf m) -> runs (list_to_set (fdsOf m)) (nothing (Close_ m)).
Proof.
  unfold fdsOf. intros Hnd. unfold Close_. destruct (0 <? parentFd m) eqn:E; cbn [list_to_set] in *.
  - apply NoDup_cons in Hnd as [[Hne _]%not_elem_of_cons _]. wp_case. destruct r; run.
  - wp_case. destruct r; run.
Qed.

Lemma release_settles d : runs {[d]} (nothing (FileHandle.Release d)).
Proof. unfold FileHandle.Release. wp_case. destruct r; run. Qed.
End Specs.
End WP.

(** ** Descriptors that are open for writing

    [writers] are the descriptors of the process that may be open for writing;
    a duplicate is if its original is. *)

Definition forReading (flags : Z) : bool := Z.land flags O_ACCMODE =? O_RDONLY.

Definition opensReader {B} (c : call B) : bool :=
  match c with Open _ flags _ | Openat _ _ flags _ => forReading flags | _ => false end.
Definition mayWrite {B} (c : call B) (w : gset Z) : bool :=
  match c with Open _ flags _ | Openat _ _ flags _ => negb (forReading flags) | Dup d => bool_decide (d ∈ w) | _ => false end.

Definition writtenTo {B} (c : call B) : option Z := match c with Pwrite d _ _ => Some d | _ => None end.

(** A set of descriptors, of which a new one is in or not. *)
Definition tracked {B} (isIn : bool) (c : call B) (r : B) (ds : gset Z) : gset Z :=
  match closes c, gives c r with
  | Some d, _ => ds ∖ {[d]}
  | None, Some d => if isIn then {[d]} ∪ ds else ds ∖ {[d]}
  | None, None => ds
  end.
Definition writersAfter {B} (c : call B) (r : B) (w : gset Z) : gset Z := tracked (mayWrite c w) c r w.

(** [ro]: the descriptors that the program itself opened for reading. *)
Fixpoint rwp {A} (ro : gset Z) (p : prog A) (Q : gset Z -> A -> Prop) : Prop :=
  match p with
  | Ret a => Q ro a
  | Loc l k => forall s, rwp ro (k (fst (runLocal l s))) Q
  | Sys c k => forall r, rwp (tracked (opensReader c) c r ro) (k r) Q
  end.

(** A handle that the program hands over is one of them. *)
Definition handsReader (ro : gset Z) (r : result Out) : Prop :=
  match r with Ok o => forall h, outHandle o = Some h -> handleFd h ∈ ro | Err _ => True end.

Lemma rwp_all {A} (p : prog A) ro (Q : gset Z -> A -> Prop) : (forall ro a, Q ro a) -> rwp ro p Q.
Proof. intros HQ. revert ro. induction p as [a|B c k IH|B l k IH]; cbn; auto. Qed.

Lemma rwp_bind {A B} (p : prog A) (f : A -> prog B) ro Q : rwp ro p (fun ro a => rwp ro (f a) Q) -> rwp ro (pbind f p) Q.
Proof. revert ro. induction p as [a|C c k IH|C l k IH]; cbn; auto. Qed.

Lemma nothing_reader {A} (m : Op A) ro : rwp ro (nothing m) handsReader.
Proof. apply rwp_bind, rwp_all. by intros ro' []. Qed.
Lemma aNode_reader (m : Op Node) ro : rwp ro (aNode m) handsReader.
Proof. apply rwp_bind, rwp_all. by intros ro' []. Qed.

Lemma forReading_openFlags flags : forReading (openFlags flags) = forReading flags.
Proof. unfold forReading. by rewrite land_openFlags. Qed.

(** On a read-only root. *)
Section ReadOnlyRoot.
Context (root : Root) (Hro : readOnly (options root) = true) (n : Node).

Lemma create_reader nm flags mode gid ro : rwp ro (both (Create root n nm flags mode gid)) handsReader.
Proof. unfold Create, requireMutable. rewrite Hro. done. Qed.

Lemma open_reader flags ro : rwp ro (aHandle (Open_ root n flags)) handsReader.
Proof.
  unfold Open_. rewrite Hro. destruct (forReading flags) eqn:Ef; unfold forReading in Ef; rewrite Ef; [|done].
  destruct (has flags O_TRUNC); [done|].
  match goal with |- rwp ?ro ?p ?Q => let p' := eval hnf in p in change (rwp ro p' Q) end.
  intros s.
  cbn. destruct (QID.Type_ _ =? QTDIR).
  all: cbn; intros [d|e]; cbn; try done.
  - intros h [= <-]. cbn. set_solver.
  - intros h [= <-]. unfold tracked. cbn. rewrite forReading_openFlags. unfold forReading. rewrite Ef. set_solver.
Qed.
End ReadOnlyRoot.
