(* ===== verification/PassProcess.v ===== *)
(** * A process that serves a passthrough file system

    The operations of [Passthrough] as any number of goroutines run them, one
    system call or critical section at a time, next to the rest of the
    process, which opens and closes descriptors of its own.  The server holds
    the nodes and handles that operations return, uses them for requests,
    closes each node at most once and releases each handle at most once, a
    handle not while an I/O request uses it.  That is what [FidLife] shows of
    handles, teardown apart ([Teardown]); a node is closed twice after the race
    of [SharedRefs.clone_race_closes_node], which is left out here.

    Nothing keeps a node while a request that is not I/O uses it, so its
    descriptors can be closed, and their numbers taken by something else, in
    the middle of a Lookup, a Getattr or an Open.  [guarded] tells the two
    apart: who owns a descriptor and what a read-only root refuses does not
    depend on it, confinement does. *)

From S2P Require Import Prelude Types Errno Inode Namespace HostSys Passthrough PassSystem.
Open Scope Z_scope.

(** ** Requests *)

Inductive request : Type :=
  | QLookup (n : Node) (nm : string)
  | QOpen (n : Node) (flags : Z)
  | QGetattr (n : Node)
  | QSetattr (n : Node) (attr : SetAttr.t)
  | QCreate (n : Node) (nm : string) (flags : Z) (mode : FileMode) (gid : Z)
  | QMkdir (n : Node) (nm : string) (mode : FileMode) (gid : Z)
  | QSymlink (n : Node) (nm target : string) (gid : Z)
  | QMknod (n : Node) (nm : string) (mode : FileMode) (major minor gid : Z)
  | QLink (n : Node) (target : option Node) (nm : string)
  | QReadlink (n : Node)
  | QUnlink (n : Node) (nm : string) (flags : Z)
  | QRename (n : Node) (nm : string) (newDir : option Node) (newName : string)
  | QReaddir (n : Node) (calls : nat)
  | QStatFS (n : Node)
  | QGetXattr (n : Node) (nm : string)
  | QSetXattr (n : Node) (nm : string) (data : bytes) (flags : Z)
  | QListXattrs (n : Node)
  | QRemoveXattr (n : Node) (nm : string)
  | QRead (d cap offset : Z)
  | QWrite (d : Z) (data : bytes) (offset : Z)
  | QFsync (d : Z)
  | QLock (d : Z) (lt : LockType) (start len : Z)
  | QGetLock (d : Z) (lt : LockType) (start len pid : Z) (cid : string)
  | QRawReaddir (d : Z) (buf : bytes) (offset : Z)
  | QClose (n : Node)
  | QRelease (h : Handle).

Definition reqNodes (q : request) : list Node :=
  match q with
  | QLookup n _ | QOpen n _ | QGetattr n | QSetattr n _ | QCreate n _ _ _ _ | QMkdir n _ _ _ | QSymlink n _ _ _
  | QMknod n _ _ _ _ _ | QReadlink n | QUnlink n _ _ | QReaddir n _ | QStatFS n | QGetXattr n _ | QSetXattr n _ _ _
  | QListXattrs n | QRemoveXattr n _ => [n]
  | QLink n t _ | QRename n _ t _ => n :: match t with Some t => [t] | None => [] end
  | _ => []
  end.
Definition reqHandles (q : request) : list Handle :=
  match q with
  | QRead d _ _ | QWrite d _ _ | QFsync d | QLock d _ _ _ | QGetLock d _ _ _ _ _ => [fileHandle d]
  | QRawReaddir d _ _ => [dirHandle d]
  | _ => []
  end.
Definition borrows (q : request) : list Z := (fd <$> reqNodes q) ++ (handleFd <$> reqHandles q).

(** What the server does not let go of while [q] runs: the handle of an I/O
    request ([FidLife]).  [guarded] is a server that keeps the nodes as well:
    this one does not, as only reads, writes, directory reads, fsync and locks
    go through [beginIO]. *)
Definition kept (guarded : bool) (q : request) : list Z := if guarded then borrows q else handleFd <$> reqHandles q.

(** The names the server lets through ([Names.names_validated]). *)
Definition validRequest (q : request) : Prop :=
  match q with
  | QLookup _ nm => component nm
  | QCreate _ nm _ _ _ | QMkdir _ nm _ _ | QSymlink _ nm _ _ | QMknod _ nm _ _ _ _ | QLink _ _ nm | QUnlink _ nm _ =>
      validName nm = true
  | QRename _ nm _ nm' => validName nm = true /\ validName nm' = true
  | QClose _ | QRelease _ => False
  | _ => True
  end.

Section Process.
Context (guarded : bool) (entry : fileIdentity -> string -> fileIdentity -> Prop) (root : Root).

Definition body (q : request) : Op Out :=
  match q with
  | QLookup n nm => aNode (Lookup root n nm)
  | QOpen n flags => aHandle (Open_ root n flags)
  | QGetattr n => nothing (Getattr root n)
  | QSetattr n attr => nothing (Setattr root n attr)
  | QCreate n nm flags mode gid => both (Create root n nm flags mode gid)
  | QMkdir n nm mode gid => aNode (Mkdir root n nm mode gid)
  | QSymlink n nm target gid => aNode (Symlink root n nm target gid)
  | QMknod n nm mode major minor gid => aNode (Mknod root n nm mode major minor gid)
  | QLink n t nm => nothing (Link root n t nm)
  | QReadlink n => nothing (Readlink n)
  | QUnlink n nm flags => nothing (Unlink root n nm flags)
  | QRename n nm t nm' => nothing (Rename root n nm (pair root <$> t) nm')
  | QReaddir n calls => nothing (Readdir calls n)
  | QStatFS n => nothing (StatFS n)
  | QGetXattr n nm => nothing (GetXattr n nm)
  | QSetXattr n nm data flags => nothing (SetXattr root n nm data flags)
  | QListXattrs n => nothing (ListXattrs n)
  | QRemoveXattr n nm => nothing (RemoveXattr root n nm)
  | QRead d cap offset => nothing (FileHandle.Read d cap offset)
  | QWrite d data offset => nothing (FileHandle.Write d data offset)
  | QFsync d => nothing (FileHandle.Fsync d)
  | QLock d lt start len => nothing (FileHandle.Lock d lt start len)
  | QGetLock d lt start len pid cid => nothing (FileHandle.GetLock d lt start len pid cid)
  | QRawReaddir d buf offset => nothing (DirHandle.RawReaddir d buf offset)
  | QClose n => nothing (Close_ n)
  | QRelease h => nothing (FileHandle.Release (handleFd h))
  end.

(** ** The process *)

Record State : Type := mkState {
  table : fdTable;
  shared : Shared;
  env : gset Z;
  (** The descriptors that may be open for writing. *)
  writers : gset Z;
  nodes : gmap nat Node;
  handles : gmap nat Handle;
  threads : gmap nat (request * prog (result Out))
}.

Definition setThread (g : nat) (t : option (request * prog (result Out))) (s : State) : State :=
  mkState (table s) (shared s) (env s) (writers s) (nodes s) (handles s)
    match t with Some t => <[g := t]> (threads s) | None => delete g (threads s) end.

(** What a finished operation hands over gets a name. *)
Definition received (kn kh : nat) (r : result Out) (s : State) : State :=
  match r with
  | Err _ => s
  | Ok o =>
      mkState (table s) (shared s) (env s) (writers s)
        match outNode o with Some n => <[kn := n]> (nodes s) | None => nodes s end
        match outHandle o with Some h => <[kh := h]> (handles s) | None => handles s end (threads s)
  end.

Inductive step : State -> State -> Prop :=
  | step_start g q s :
      threads s !! g = None -> validRequest q ->
      (forall n, n ∈ reqNodes q -> exists k, nodes s !! k = Some n) ->
      (forall h, h ∈ reqHandles q -> exists k, handles s !! k = Some h) ->
      step s (setThread g (Some (q, body q)) s)
  | step_close g k n s :
      threads s !! g = None -> nodes s !! k = Some n ->
      (forall g' q p d, threads s !! g' = Some (q, p) -> d ∈ kept guarded q -> d ∉ fdsOf n) ->
      step s (setThread g (Some (QClose n, body (QClose n)))
        (mkState (table s) (shared s) (env s) (writers s) (delete k (nodes s)) (handles s) (threads s)))
  | step_release g k h s :
      threads s !! g = None -> handles s !! k = Some h ->
      (forall g' q p, threads s !! g' = Some (q, p) -> handleFd h ∉ kept guarded q) ->
      step s (setThread g (Some (QRelease h, body (QRelease h)))
        (mkState (table s) (shared s) (env s) (writers s) (nodes s) (delete k (handles s)) (threads s)))
  | step_sys {B} g q (c : call B) k r T' s :
      threads s !! g = Some (q, Sys c k) -> kernel entry (table s) c r T' ->
      step s (setThread g (Some (q, k r)) (mkState T' (shared s) (env s) (writersAfter c r (writers s)) (nodes s) (handles s) (threads s)))
  | step_local {B} g q (l : local B) k b sh s :
      threads s !! g = Some (q, Loc l k) -> runLocal l (shared s) = (b, sh) ->
      step s (setThread g (Some (q, k b)) (mkState (table s) sh (env s) (writers s) (nodes s) (handles s) (threads s)))
  | step_return g q r kn kh s :
      threads s !! g = Some (q, Ret r) -> nodes s !! kn = None -> handles s !! kh = None ->
      step s (received kn kh r (setThread g None s))
  (* the rest of the process, which may write to what it opens; standard input
     stays open *)
  | step_env_open d f s :
      0 <= d -> table s !! d = None ->
      step s (mkState (<[d := f]> (table s)) (shared s) ({[d]} ∪ env s) ({[d]} ∪ writers s) (nodes s) (handles s) (threads s))
  | step_env_close d s :
      d ∈ env s -> d <> 0 ->
      step s (mkState (delete d (table s)) (shared s) (env s ∖ {[d]}) (writers s ∖ {[d]}) (nodes s) (handles s) (threads s)).

(** After [NewRoot], next to the descriptors [others]. *)
Definition initial (others : fdTable) (rootNode : Node) (sh : Shared) : State :=
  mkState (<[fd rootNode := rootId root]> others) sh (dom others) (dom others) {[0%nat := rootNode]} ∅ ∅.
End Process.

(** ** Who owns a descriptor *)

Inductive Owner : Type := OEnv | ONode (k : nat) | OHandle (k : nat) | OThread (g : nat).
#[export] Instance Owner_eq_dec : EqDecision Owner.
Proof. solve_decision. Defined.

(** Owned by something that the server holds. *)
Definition lent (o : option Owner) : Prop := exists k, o = Some (ONode k) \/ o = Some (OHandle k).

Section Ownership.
Context (guarded : bool) (entry : fileIdentity -> string -> fileIdentity -> Prop) (exported : fileIdentity -> Prop) (root : Root).
Context (exported_root : exported (rootId root)).
Context (exported_down : forall d nm f, exported d -> nm <> ".." -> entry d nm f -> exported f).
Context (exported_up : forall d f, exported d -> d <> rootId root -> entry d ".." f -> exported f).

(** Without the guard nothing is asked of the files. *)
Context (Hany : guarded = true \/ forall f, exported f).

Abbreviation owns owner o d := (owner d = Some o).

(** On a read-only root. *)
Abbreviation ro := (readOnly (options root) = true).

Definition thread_ok (T : fdTable) (w : gset Z) (owner : Z -> option Owner) (g : nat) (t : option (request * prog (result Out))) : Prop :=
  match t with
  | None => forall d, ~ owns owner (OThread g) d
  | Some (q, p) =>
      exists bor own, wp entry exported root (list_to_set (borrows q)) (list_to_set (handleFd <$> reqHandles q)) bor own p settles /\ bor ⊆ T /\
        (forall d, owns owner (OThread g) d <-> d ∈ own) /\
        (forall d, d ∈ dom bor <-> d ∈ kept guarded q) /\ (forall d, d ∈ kept guarded q -> lent (owner d)) /\
        (ro -> exists rd, rwp rd p handsReader /\ rd ⊆ own /\ rd ## w)
  end.

Record Owned (owner : Z -> option Owner) (s : State) : Prop := {
  ow_dom d : is_Some (table s !! d) <-> is_Some (owner d);
  ow_env d : owns owner OEnv d <-> d ∈ env s;
  ow_zero : 0 ∈ env s;
  ow_node k : match nodes s !! k with
              | Some n => NoDup (fdsOf n) /\ forall d, owns owner (ONode k) d <-> d ∈ fdsOf n
              | None => forall d, ~ owns owner (ONode k) d
              end;
  ow_handle k d : owns owner (OHandle k) d <-> exists h, handles s !! k = Some h /\ d = handleFd h;
  ow_thread g : thread_ok (table s) (writers s) owner g (threads s !! g);
  ow_reader k h : ro -> handles s !! k = Some h -> handleFd h ∉ writers s;
  ow_exported d f : table s !! d = Some f -> d ∉ env s -> exported f
}.

(** A thread whose own and borrowed descriptors stay as they are. *)
Lemma thread_frame T T' w w' owner owner' g t :
  thread_ok T w owner g t ->
  (forall d, owner' d = Some (OThread g) <-> owner d = Some (OThread g)) ->
  (forall d, owner d = Some (OThread g) -> d ∈ w' -> d ∈ w) ->
  (forall d q p, t = Some (q, p) -> d ∈ kept guarded q -> lent (owner d) -> T' !! d = T !! d /\ lent (owner' d)) ->
  thread_ok T' w' owner' g t.
Proof.
  destruct t as [[q p]|]; cbn; [|intros Ht Ho _ _ d; by rewrite Ho].
  intros (bor & own & Hwp & Hb & Hown & Hdom & Hl & Hrd) Ho Hw Hk. exists bor, own. split_and!; [done| |intros d; by rewrite Ho|done| |].
  - apply map_subseteq_spec. intros d f Hf. pose proof (lookup_weaken _ _ _ _ Hf Hb).
    assert (Hd : d ∈ kept guarded q) by (apply Hdom, elem_of_dom; eauto). destruct (Hk d q p eq_refl Hd (Hl d Hd)). congruence.
  - intros d Hd. by apply (Hk d q p eq_refl Hd (Hl d Hd)).
  - intros (rd & Hrwp & Hsub & Hdisj)%Hrd. exists rd. split_and!; [done|done|]. intros d Hd Hdw. apply (Hdisj d Hd), Hw; [|done].
    apply Hown. auto.
Qed.

Lemma bor_exported owner s bor q : Owned owner s -> bor ⊆ table s -> (forall d, d ∈ dom bor <-> d ∈ kept guarded q) ->
  (forall d, d ∈ kept guarded q -> lent (owner d)) -> forall d f, bor !! d = Some f -> exported f.
Proof.
  intros Ho Hb Hdom Hl d f Hf. apply (ow_exported _ _ Ho d); [by eapply lookup_weaken|].
  rewrite <- (ow_env _ _ Ho). destruct (Hl d) as (k & [-> | ->]); [apply Hdom, elem_of_dom; eauto|done|done].
Qed.

(** *** Steps *)

(** The borrowed part of the table. *)
Definition lendable (ds : list Z) (T : fdTable) : fdTable := filter (fun p => p.1 ∈ ds) T.

Lemma lendable_spec ds T : (forall d, d ∈ ds -> is_Some (T !! d)) -> lendable ds T ⊆ T /\ (forall d, d ∈ dom (lendable ds T) <-> d ∈ ds).
Proof.
  intros Hd. unfold lendable. split; [apply map_filter_subseteq|]. intros d. rewrite elem_of_dom. split.
  - intros [f [_ Hin]%map_lookup_filter_Some]. done.
  - intros Hin. destruct (Hd d Hin) as [f Hf]. exists f. by apply map_lookup_filter_Some.
Qed.

Lemma body_settles q bor : validRequest q -> (forall d f, bor !! d = Some f -> exported f) ->
  (forall d, d ∈ dom bor <-> d ∈ kept guarded q) -> wp entry exported root (list_to_set (borrows q)) (list_to_set (handleFd <$> reqHandles q)) bor ∅ (body root q) settles.
Proof.
  intros Hv Hb Hd. set (ns := list_to_set (borrows q) : gset Z).
  assert (Hsafe : (forall f, exported f) \/ ns ⊆ dom bor).
  { destruct Hany as [Hg|]; [right|by left]. intros d Hin%elem_of_list_to_set. apply Hd. by rewrite Hg. }
  assert (Hn : forall n, n ∈ reqNodes q -> fd n ∈ ns) by (intros n Hn; apply elem_of_list_to_set, elem_of_app; left; by apply list_elem_of_fmap_2).
  assert (Hh : forall h, h ∈ reqHandles q -> handleFd h ∈ ns) by (intros h Hh; apply elem_of_list_to_set, elem_of_app; right; by apply list_elem_of_fmap_2).
  clearbody ns. destruct q; cbn [validRequest reqNodes reqHandles] in *; try done;
    try (assert (H1 : fd n ∈ ns) by (apply Hn, list_elem_of_here)).
  all: try (assert (Hd' : d ∈ ns) by (apply (Hh _ (list_elem_of_here _ _)))).
  - by apply lookup_settles.
  - by apply open_settles.
  - by apply getattr_settles.
  - by apply setattr_settles.
  - by apply create_settles.
  - by apply mkdir_settles.
  - by apply symlink_settles.
  - by apply mknod_settles.
  - apply link_settles; [done..|]. intros t ->. apply Hn. right. apply list_elem_of_here.
  - by apply readlink_settles.
  - by apply unlink_settles.
  - destruct Hv. apply rename_settles; [done..|]. intros t ->. apply Hn. right. apply list_elem_of_here.
  - by apply readdir_settles.
  - by apply statfs_settles.
  - by apply getxattr_settles.
  - by apply setxattr_settles.
  - by apply listxattrs_settles.
  - by apply removexattr_settles.
  - by apply read_settles.
  - apply write_settles; [done..|]. apply elem_of_list_to_set, list_elem_of_here.
  - by apply fsync_settles.
  - by apply flock_settles.
  - by apply getlock_settles.
  - by apply rawreaddir_settles.
Qed.

(** On a read-only root only an open gives a handle, for reading. *)
Lemma body_reader q : ro -> rwp ∅ (body root q) handsReader.
Proof.
  intros Hro. destruct q; try apply nothing_reader; try apply aNode_reader; [by apply open_reader|by apply create_reader].
Qed.

(** Another thread, when one of [g] changes. *)
Lemma thread_other T w owner g t s : Owned owner s -> T = table s -> w = writers s -> thread_ok T w owner g t ->
  forall g', thread_ok T w owner g' (threads (setThread g t s) !! g').
Proof.
  intros Ho -> -> Ht g'. destruct (decide (g = g')) as [<-|Hne].
  - destruct t; cbn; [by rewrite lookup_insert_eq|by rewrite lookup_delete_eq].
  - pose proof (ow_thread _ _ Ho g') as Hg'. destruct t; cbn; [by rewrite lookup_insert_ne|by rewrite lookup_delete_ne].
Qed.

Lemma owned_start owner g q s : Owned owner s -> threads s !! g = None -> validRequest q ->
  (forall n, n ∈ reqNodes q -> exists k, nodes s !! k = Some n) ->
  (forall h, h ∈ reqHandles q -> exists k, handles s !! k = Some h) ->
  Owned owner (setThread g (Some (q, body root q)) s).
Proof.
  intros Ho Hg Hv Hn Hh.
  assert (Hlh : forall d, d ∈ handleFd <$> reqHandles q -> lent (owner d)).
  { intros d (h & -> & Hin)%list_elem_of_fmap. destruct (Hh h Hin) as [k Hk]. exists k. right. apply (ow_handle _ _ Ho). eauto. }
  assert (Hl : forall d, d ∈ kept guarded q -> lent (owner d)).
  { unfold kept. destruct guarded; [|exact Hlh]. intros d [(n & -> & Hin)%list_elem_of_fmap|Hin]%elem_of_app; [|by apply Hlh].
    destruct (Hn n Hin) as [k Hk]. exists k. left. pose proof (ow_node _ _ Ho k) as Hnk. rewrite Hk in Hnk. apply Hnk. apply list_elem_of_here. }
  assert (Hopen : forall d, d ∈ kept guarded q -> is_Some (table s !! d)).
  { intros d Hd. apply (ow_dom _ _ Ho). destruct (Hl d Hd) as (k & [-> | ->]); eauto. }
  destruct (lendable_spec (kept guarded q) (table s) Hopen) as [Hsub Hdom].
  assert (Ht : thread_ok (table s) (writers s) owner g (Some (q, body root q))).
  { exists (lendable (kept guarded q) (table s)), ∅. split_and!; [|done| |done|done|].
    - apply body_settles; [done| |done]. by eapply bor_exported.
    - intros d. pose proof (ow_thread _ _ Ho g) as Hth. rewrite Hg in Hth. cbn in Hth. specialize (Hth d). set_solver.
    - intros Hro. exists ∅. split_and!; [by apply body_reader|done|set_solver]. }
  pose proof (thread_other _ _ _ _ _ _ Ho eq_refl eq_refl Ht). destruct Ho. by split.
Qed.

(** The step of a thread that changes the descriptor [d] alone, its own. *)
Lemma owned_fd owner s g q p T' w' (d : Z) (o : option Owner) bor own :
  Owned owner s -> d ∉ env s -> (forall d', d' <> d -> d' ∈ w' -> d' ∈ writers s) ->
  (owner d = None \/ owner d = Some (OThread g)) -> (o = None \/ o = Some (OThread g)) ->
  (forall d', d' <> d -> T' !! d' = table s !! d') -> (is_Some (T' !! d) <-> is_Some o) ->
  (forall f, T' !! d = Some f -> exported f) ->
  let owner' d' := if decide (d' = d) then o else owner d' in
  wp entry exported root (list_to_set (borrows q)) (list_to_set (handleFd <$> reqHandles q)) bor own p settles -> bor ⊆ table s ->
  (forall d', owner' d' = Some (OThread g) <-> d' ∈ own) ->
  (forall d', d' ∈ dom bor <-> d' ∈ kept guarded q) -> (forall d', d' ∈ kept guarded q -> lent (owner d')) ->
  (ro -> exists rd, rwp rd p handsReader /\ rd ⊆ own /\ rd ## w') ->
  Owned owner' (setThread g (Some (q, p)) (mkState T' (shared s) (env s) w' (nodes s) (handles s) (threads s))).
Proof.
  intros Ho Hd Hw Hod Ho' HT HTd Hexp owner' Hwp Hb Hown Hdom Hl Hrd.
  assert (Hother : forall d' x, (forall g', x <> OThread g') -> owner' d' = Some x <-> owner d' = Some x).
  { intros d' x Hx. unfold owner'. case_decide as E; [|done]. subst d'. destruct Hod as [-> | ->], Ho' as [-> | ->]; naive_solver. }
  assert (Hlent : forall d', lent (owner d') -> d' <> d).
  { intros d' (k & Hk) ->. destruct Hod; naive_solver. }
  split; cbn.
  - intros d'. unfold owner'. case_decide as E; [by subst|]. rewrite HT by done. apply (ow_dom _ _ Ho).
  - intros d'. rewrite Hother by done. apply (ow_env _ _ Ho).
  - apply (ow_zero _ _ Ho).
  - intros k. pose proof (ow_node _ _ Ho k) as Hk. destruct (nodes s !! k); [|intros d'; by rewrite Hother].
    destruct Hk as [? Hk]. split; [done|]. intros d'. by rewrite Hother.
  - intros k d'. rewrite Hother by done. apply (ow_handle _ _ Ho).
  - intros g'. destruct (decide (g = g')) as [<-|Hne].
    + rewrite lookup_insert_eq. exists bor, own. split_and!; [done| |done|done| |done].
      * apply map_subseteq_spec. intros d' f Hf. rewrite HT; [by eapply lookup_weaken|]. apply Hlent, Hl, Hdom, elem_of_dom. eauto.
      * intros d' Hd'. unfold owner'. rewrite decide_False; [auto|]. by apply Hlent, Hl.
    + rewrite lookup_insert_ne by done. eapply thread_frame; [apply (ow_thread _ _ Ho g')| | |].
      * intros d'. unfold owner'. case_decide as E; [|done]. subst d'. destruct Hod as [-> | ->], Ho' as [-> | ->]; naive_solver.
      * intros d' Hd'. apply Hw. intros ->. destruct Hod as [E|E]; rewrite E in Hd'; congruence.
      * intros d' q' p' _ _ Hld. pose proof (Hlent _ Hld). unfold owner'. rewrite decide_False by done. by rewrite HT.
  - intros k h Hro Hk Hin. assert (Hoh : owner (handleFd h) = Some (OHandle k)) by (apply (ow_handle _ _ Ho); eauto).
    apply (ow_reader _ _ Ho k h Hro Hk), Hw; [|done]. intros E. rewrite E in Hoh. destruct Hod; congruence.
  - intros d' f Hf He. destruct (decide (d' = d)) as [->|Hne]; [by apply Hexp|]. rewrite HT in Hf by done. by apply (ow_exported _ _ Ho d').
Qed.

Lemma tracked_disjoint {B} (c : call B) r (rd w : gset Z) : rd ## w -> tracked (opensReader c) c r rd ## writersAfter c r w.
Proof.
  intros Hd. unfold writersAfter, tracked. destruct (closes c) as [d|]; [set_solver|]. destruct (gives c r) as [d|]; [|done].
  assert (opensReader c = true -> mayWrite c w = false) by (destruct c; cbn; try done; by intros ->).
  destruct (opensReader c), (mayWrite c w); try set_solver.
Qed.

Lemma tracked_sub {B} b (c : call B) r (rd own : gset Z) : rd ⊆ own -> tracked b c r rd ⊆ after own c r.
Proof. intros Hs. unfold tracked, after. destruct (closes c) as [d|]; [set_solver|]. destruct (gives c r) as [d|]; [|done]. destruct b; set_solver. Qed.

(** A descriptor of no one is outside the table, so it is nobody's. *)
Lemma owned_sys {B} owner s g q (c : call B) k r T' : Owned owner s -> threads s !! g = Some (q, Sys c k) ->
  kernel entry (table s) c r T' -> exists owner',
  Owned owner' (setThread g (Some (q, k r)) (mkState T' (shared s) (env s) (writersAfter c r (writers s)) (nodes s) (handles s) (threads s))).
Proof.
  intros Ho Hg Hk. pose proof (ow_thread _ _ Ho g) as Ht. rewrite Hg in Ht. destruct Ht as (bor & own & Hwp & Hb & Hown & Hdom & Hl & Hrd).
  destruct Hwp as (Hf & _ & Hc & Hwp).
  assert (Hs : serves exported bor own (table s)).
  { split_and!; [done| |].
    - intros d Hd. apply Hown in Hd. destruct (proj2 (ow_dom _ _ Ho d) (mk_is_Some _ _ Hd)) as [f Hfd]. exists f. split; [done|].
      apply (ow_exported _ _ Ho d); [done|]. rewrite <- (ow_env _ _ Ho). congruence.
    - apply (ow_dom _ _ Ho). rewrite (proj2 (ow_env _ _ Ho 0) (ow_zero _ _ Ho)). eauto. }
  assert (Hrd' : ro -> exists rd, rwp rd (k r) handsReader /\ rd ⊆ after own c r /\ rd ## writersAfter c r (writers s)).
  { intros (rd & Hrwp & Hsub & Hdisj)%Hrd. exists (tracked (opensReader c) c r rd). split_and!; [apply Hrwp|by apply tracked_sub|by apply tracked_disjoint]. }
  destruct (Hwp _ _ _ Hs Hk) as [Hexp Hwp']. revert Hrd' Hwp'. unfold after, writersAfter, tracked.
  destruct (closes c) as [d|] eqn:Ec; [|destruct (gives c r) as [d|] eqn:Eg]; intros Hrd' Hwp'.
  - assert (T' = delete d (table s)) as -> by (by destruct c; cbn in *; try done; injection Ec as <-).
    pose proof (proj2 (Hown d) (Hc d eq_refl)) as Hod.
    eexists. apply (owned_fd owner s g q (k r) _ _ d None bor (own ∖ {[d]})); try done.
    + rewrite <- (ow_env _ _ Ho). congruence.
    + set_solver.
    + by right.
    + by left.
    + intros d' Hd'. by rewrite lookup_delete_ne.
    + rewrite lookup_delete_eq. by split; intros [].
    + intros f. by rewrite lookup_delete_eq.
    + intros d'. cbn. case_decide as E; [subst; set_solver|]. rewrite Hown. set_solver.
  - assert (exists f, table s !! d = None /\ T' = <[d := f]> (table s)) as (f & HTd & ->).
    { destruct c; cbn in Eg; try done; destruct r as [d'|]; try done; injection Eg as ->; destruct Hk as (_ & HTd & f & _ & ->); eauto. }
    assert (Hnone : owner d = None).
    { destruct (owner d) eqn:E; [|done]. destruct (proj2 (ow_dom _ _ Ho d)) as [? ?]; [eauto|congruence]. }
    eexists. apply (owned_fd owner s g q (k r) _ _ d (Some (OThread g)) bor ({[d]} ∪ own)); try done.
    + rewrite <- (ow_env _ _ Ho). congruence.
    + destruct (mayWrite c (writers s)); set_solver.
    + by left.
    + by right.
    + intros d' Hd'. by rewrite lookup_insert_ne.
    + rewrite lookup_insert_eq. by split; eauto.
    + intros f' Hf'. by apply (Hexp d).
    + intros d'. cbn. case_decide as E; [subst; set_solver|]. rewrite Hown. set_solver.
  - assert (T' = table s) as -> by (destruct c; cbn in *; try done; destruct r; try done; by destruct Hk).
    exists owner. destruct s as [T sh e w ns hs ths]. cbn in *. pose proof (thread_other T w owner g (Some (q, k r)) _ Ho eq_refl eq_refl) as Hall.
    assert (Ht : thread_ok T w owner g (Some (q, k r))) by (by exists bor, own). specialize (Hall Ht). destruct Ho. by split.
Qed.

Lemma owned_local {B} owner s g q (l : local B) k b sh : Owned owner s -> threads s !! g = Some (q, Loc l k) ->
  runLocal l (shared s) = (b, sh) ->
  Owned owner (setThread g (Some (q, k b)) (mkState (table s) sh (env s) (writers s) (nodes s) (handles s) (threads s))).
Proof.
  intros Ho Hg Hl. pose proof (ow_thread _ _ Ho g) as Ht. rewrite Hg in Ht. destruct Ht as (bor & own & Hwp & Hrest).
  specialize (Hwp (shared s)). rewrite Hl in Hwp. cbn in Hwp.
  destruct Hrest as (Hb & Hown & Hdom & Hle & Hrd).
  assert (Ht : thread_ok (table s) (writers s) owner g (Some (q, k b))).
  { exists bor, own. split_and!; [done..|]. intros (rd & Hrwp & Hsub)%Hrd. exists rd. split; [|done].
    specialize (Hrwp (shared s)). by rewrite Hl in Hrwp. }
  pose proof (thread_other _ _ _ _ _ s Ho eq_refl eq_refl Ht) as Hall. destruct Ho. by split.
Qed.

(** Owners change, the table does not: [x] hands over to [y] and [z]. *)
Section Relabel.
Context (owner : Z -> option Owner) (s : State) (Ho : Owned owner s).
Context (owner' : Z -> option Owner) (ns : gmap nat Node) (hs : gmap nat Handle) (ths : gmap nat (request * prog (result Out))).
Context (Hsome : forall d, is_Some (owner' d) <-> is_Some (owner d)).
Context (Henv : forall d, owner' d = Some OEnv <-> owner d = Some OEnv).
Context (Hnodes : forall k, match ns !! k with
                            | Some n => NoDup (fdsOf n) /\ forall d, owner' d = Some (ONode k) <-> d ∈ fdsOf n
                            | None => forall d, owner' d <> Some (ONode k)
                            end).
Context (Hhandles : forall k d, owner' d = Some (OHandle k) <-> exists h, hs !! k = Some h /\ d = handleFd h).
Context (Hthreads : forall g, thread_ok (table s) (writers s) owner' g (ths !! g)).
Context (Hreaders : forall k h, ro -> hs !! k = Some h -> handleFd h ∉ writers s).

Lemma owned_relabel : Owned owner' (mkState (table s) (shared s) (env s) (writers s) ns hs ths).
Proof.
  split; cbn; try done.
  - intros d. rewrite Hsome. apply (ow_dom _ _ Ho).
  - intros d. rewrite Henv. apply (ow_env _ _ Ho).
  - apply (ow_zero _ _ Ho).
  - apply (ow_exported _ _ Ho).
Qed.
End Relabel.

Lemma owned_close owner s g k n : Owned owner s -> threads s !! g = None -> nodes s !! k = Some n ->
  (forall g' q p d, threads s !! g' = Some (q, p) -> d ∈ kept guarded q -> d ∉ fdsOf n) -> exists owner',
  Owned owner' (setThread g (Some (QClose n, body root (QClose n)))
    (mkState (table s) (shared s) (env s) (writers s) (delete k (nodes s)) (handles s) (threads s))).
Proof.
  intros Ho Hg Hk Hfree. exists (fun d => if decide (owner d = Some (ONode k)) then Some (OThread g) else owner d).
  pose proof (ow_node _ _ Ho k) as Hn. rewrite Hk in Hn. destruct Hn as [Hnd Hn].
  assert (Hnog : forall d, owner d <> Some (OThread g)) by (pose proof (ow_thread _ _ Ho g) as H; by rewrite Hg in H).
  apply (owned_relabel _ _ Ho); cbn.
  - intros d. case_decide as E; [rewrite E|]; split; eauto.
  - intros d. case_decide as E; [rewrite E; naive_solver|done].
  - intros k'. destruct (decide (k = k')) as [<-|Hne].
    + rewrite lookup_delete_eq. intros d. case_decide; naive_solver.
    + rewrite lookup_delete_ne by done. pose proof (ow_node _ _ Ho k') as Hk'. destruct (nodes s !! k').
      * destruct Hk' as [? Hk']. split; [done|]. intros d. rewrite <- Hk'. case_decide; naive_solver.
      * intros d. case_decide; naive_solver.
  - intros k' d. rewrite <- (ow_handle _ _ Ho). case_decide; naive_solver.
  - intros g'. destruct (decide (g = g')) as [<-|Hne].
    + rewrite lookup_insert_eq. exists ∅, (list_to_set (fdsOf n)).
      split_and!; [apply close_settles; [right; set_solver|done]|apply map_empty_subseteq| | | |].
      * intros d. rewrite elem_of_list_to_set, <- Hn. case_decide; naive_solver.
      * intros d. unfold kept. destruct guarded; set_solver.
      * intros d. unfold kept. destruct guarded; set_solver.
      * intros Hro. exists ∅. split_and!; [exact (body_reader (QClose n) Hro)|set_solver|set_solver].
    + rewrite lookup_insert_ne by done. eapply thread_frame; [apply (ow_thread _ _ Ho g')| |done|].
      * intros d. cbn. case_decide; naive_solver.
      * intros d q p Hq Hd Hl. split; [done|]. case_decide as E; [|done]. apply Hn in E. by apply (Hfree g' q p d) in E.
  - apply (ow_reader _ _ Ho).
Qed.

Lemma owned_release owner s g k h : Owned owner s -> threads s !! g = None -> handles s !! k = Some h ->
  (forall g' q p, threads s !! g' = Some (q, p) -> handleFd h ∉ kept guarded q) -> exists owner',
  Owned owner' (setThread g (Some (QRelease h, body root (QRelease h)))
    (mkState (table s) (shared s) (env s) (writers s) (nodes s) (delete k (handles s)) (threads s))).
Proof.
  intros Ho Hg Hk Hfree. exists (fun d => if decide (owner d = Some (OHandle k)) then Some (OThread g) else owner d).
  assert (Hn : forall d, owner d = Some (OHandle k) <-> d = handleFd h) by (intros d; rewrite (ow_handle _ _ Ho), Hk; naive_solver).
  assert (Hnog : forall d, owner d <> Some (OThread g)) by (pose proof (ow_thread _ _ Ho g) as H; by rewrite Hg in H).
  apply (owned_relabel _ _ Ho); cbn.
  - intros d. case_decide as E; [rewrite E|]; split; eauto.
  - intros d. case_decide as E; [rewrite E; naive_solver|done].
  - intros k'. pose proof (ow_node _ _ Ho k') as Hk'. destruct (nodes s !! k').
    + destruct Hk' as [? Hk']. split; [done|]. intros d. rewrite <- Hk'. case_decide; naive_solver.
    + intros d. case_decide; naive_solver.
  - intros k' d. destruct (decide (k = k')) as [<-|Hne].
    + rewrite lookup_delete_eq. case_decide; naive_solver.
    + rewrite lookup_delete_ne by done. rewrite <- (ow_handle _ _ Ho). case_decide; naive_solver.
  - intros g'. destruct (decide (g = g')) as [<-|Hne].
    + rewrite lookup_insert_eq. exists ∅, {[handleFd h]}.
      split_and!; [apply release_settles; right; set_solver|apply map_empty_subseteq| | | |].
      * intros d. rewrite elem_of_singleton, <- Hn. case_decide; naive_solver.
      * intros d. unfold kept. destruct guarded; set_solver.
      * intros d. unfold kept. destruct guarded; set_solver.
      * intros Hro. exists ∅. split_and!; [exact (body_reader (QRelease h) Hro)|set_solver|set_solver].
    + rewrite lookup_insert_ne by done. eapply thread_frame; [apply (ow_thread _ _ Ho g')| |done|].
      * intros d. cbn. case_decide; naive_solver.
      * intros d q p Hq Hd Hl. split; [done|]. case_decide as E; [|done]. apply Hn in E as ->. by apply (Hfree g' q p) in Hq.
  - intros k' h' Hro [_ Hk']%lookup_delete_Some. by apply (ow_reader _ _ Ho k').
Qed.

Lemma owned_return owner s g q r kn kh : Owned owner s -> threads s !! g = Some (q, Ret r) -> nodes s !! kn = None ->
  handles s !! kh = None -> exists owner', Owned owner' (received kn kh r (setThread g None s)).
Proof.
  intros Ho Hg Hkn Hkh. pose proof (ow_thread _ _ Ho g) as Ht. rewrite Hg in Ht. destruct Ht as (bor & own & Hset & _ & Hown & _ & _ & Hrd).
  cbn in Hset. destruct r as [o|e]; cbn in Hset.
  - destruct Hset as [Hfds Hnd]. set (nodeFds := match outNode o with Some n => fdsOf n | None => [] end).
    exists (fun d => if decide (owner d = Some (OThread g)) then Some (if decide (d ∈ nodeFds) then ONode kn else OHandle kh) else owner d).
    assert (Hno : forall d, owner d <> Some (ONode kn)) by (pose proof (ow_node _ _ Ho kn) as H; by rewrite Hkn in H).
    assert (Hnoh : forall d, owner d <> Some (OHandle kh)) by (intros d [h [Hh _]]%(ow_handle _ _ Ho); congruence).
    assert (Hmine : forall d, owner d = Some (OThread g) <-> d ∈ nodeFds \/ exists h, outHandle o = Some h /\ d = handleFd h).
    { intros d. rewrite Hown, Hfds. unfold outFds. rewrite elem_of_app. destruct (outHandle o); set_solver. }
    assert (Hdisj : forall h, outHandle o = Some h -> handleFd h ∉ nodeFds).
    { intros h Hh Hin. unfold outFds in Hnd. rewrite Hh in Hnd. apply NoDup_app in Hnd as (_ & Hx & _). apply (Hx _ Hin), list_elem_of_here. }
    apply (owned_relabel _ _ Ho); cbn.
    + intros d. case_decide as E; [rewrite E|]; split; eauto.
    + intros d. case_decide as E; [rewrite E; case_decide; naive_solver|done].
    + intros k'. destruct (decide (k' = kn)) as [->|Hne].
      * assert (Hon : forall d, (if decide (owner d = Some (OThread g)) then Some (if decide (d ∈ nodeFds) then ONode kn else OHandle kh) else owner d) = Some (ONode kn) <-> d ∈ nodeFds).
        { intros d. repeat case_decide; naive_solver. }
        unfold nodeFds in *. destruct (outNode o) as [n|] eqn:En.
        -- rewrite lookup_insert_eq. split; [|done]. unfold outFds in Hnd. rewrite En in Hnd. by apply NoDup_app in Hnd as [? _].
        -- rewrite Hkn. intros d. rewrite Hon. by intros ?%not_elem_of_nil.
      * assert (Hold : match outNode o with Some n => <[kn := n]> (nodes s) | None => nodes s end !! k' = nodes s !! k') by (destruct (outNode o); [by rewrite lookup_insert_ne|done]).
        rewrite Hold. pose proof (ow_node _ _ Ho k') as Hk'. destruct (nodes s !! k').
        -- destruct Hk' as [? Hk']. split; [done|]. intros d. rewrite <- Hk'. repeat case_decide; naive_solver.
        -- intros d. repeat case_decide; naive_solver.
    + intros k' d. destruct (decide (k' = kh)) as [->|Hne].
      * assert (Hold : forall h, match outHandle o with Some h => <[kh := h]> (handles s) | None => handles s end !! kh = Some h <-> outHandle o = Some h) by (intros h; destruct (outHandle o); [by rewrite lookup_insert_eq|rewrite Hkh; naive_solver]).
        setoid_rewrite Hold. repeat case_decide; naive_solver.
      * assert (Hold : match outHandle o with Some h => <[kh := h]> (handles s) | None => handles s end !! k' = handles s !! k') by (destruct (outHandle o); [by rewrite lookup_insert_ne|done]).
        rewrite Hold, <- (ow_handle _ _ Ho). repeat case_decide; naive_solver.
    + intros g'. destruct (decide (g = g')) as [<-|Hne].
      * rewrite lookup_delete_eq. intros d. repeat case_decide; naive_solver.
      * rewrite lookup_delete_ne by done. eapply thread_frame; [apply (ow_thread _ _ Ho g')| |done|].
        -- intros d. repeat case_decide; naive_solver.
        -- intros d q' p' _ _ [k' Hk']. split; [done|]. case_decide as E; [|by exists k']. rewrite E in Hk'. by destruct Hk'.
    + intros k' h Hro Hk'. destruct (Hrd Hro) as (rd & Hrwp & _ & Hdw). cbn in Hrwp.
      destruct (outHandle o) as [h0|] eqn:Eh; [|by apply (ow_reader _ _ Ho k')].
      apply lookup_insert_Some in Hk' as [[_ <-]|[_ Hk']]; [|by apply (ow_reader _ _ Ho k')]. intros Hin. by apply (Hdw (handleFd h0)); [apply Hrwp|].
  - subst own. exists owner. pose proof (thread_other (table s) (writers s) owner g None s Ho eq_refl eq_refl) as Hall. cbn in Hall.
    assert (Hn : forall d, owner d <> Some (OThread g)) by (intros d; rewrite Hown; set_solver). specialize (Hall Hn). destruct Ho. by split.
Qed.

(** The rest of the process. *)
Lemma owned_env owner s d (o : option Owner) T' e' w' : Owned owner s -> (owner d = None \/ owner d = Some OEnv) -> (o = None \/ o = Some OEnv) ->
  (forall d', d' <> d -> T' !! d' = table s !! d') -> (is_Some (T' !! d) <-> is_Some o) ->
  (forall d', d' <> d -> d' ∈ e' <-> d' ∈ env s) -> (d ∈ e' <-> o = Some OEnv) -> 0 ∈ e' ->
  (forall d', d' <> d -> d' ∈ w' -> d' ∈ writers s) ->
  Owned (fun d' => if decide (d' = d) then o else owner d') (mkState T' (shared s) e' w' (nodes s) (handles s) (threads s)).
Proof.
  intros Ho Hod Ho' HT HTd He Hed H0 Hw.
  assert (Hother : forall d' x, x <> OEnv -> (if decide (d' = d) then o else owner d') = Some x <-> owner d' = Some x).
  { intros d' x Hx. case_decide as E; [|done]. subst d'. destruct Hod as [-> | ->], Ho' as [-> | ->]; naive_solver. }
  split; cbn.
  - intros d'. case_decide as E; [by subst|]. rewrite HT by done. apply (ow_dom _ _ Ho).
  - intros d'. case_decide as E; [by subst|]. rewrite He by done. apply (ow_env _ _ Ho).
  - done.
  - intros k. pose proof (ow_node _ _ Ho k) as Hk. destruct (nodes s !! k); [|intros d'; by rewrite Hother].
    destruct Hk as [? Hk]. split; [done|]. intros d'. by rewrite Hother.
  - intros k d'. rewrite Hother by done. apply (ow_handle _ _ Ho).
  - intros g'. eapply thread_frame; [apply (ow_thread _ _ Ho g')|intros d'; by rewrite Hother| |].
    { intros d' Hd'. apply Hw. intros ->. destruct Hod; congruence. }
    intros d' q' p' _ _ Hl. assert (d' <> d) by (intros ->; destruct Hl as (k & Hk); destruct Hod; naive_solver).
    rewrite HT by done. split; [done|]. by rewrite decide_False.
  - intros k h Hro Hk Hin. assert (Hoh : owner (handleFd h) = Some (OHandle k)) by (apply (ow_handle _ _ Ho); eauto).
    apply (ow_reader _ _ Ho k h Hro Hk), Hw; [|done]. intros E. rewrite E in Hoh. destruct Hod; congruence.
  - intros d' f Hf He'. destruct (decide (d' = d)) as [->|Hne].
    + exfalso. apply He', Hed. destruct Ho' as [-> | ->]; [|done]. destruct (proj1 HTd (mk_is_Some _ _ Hf)). done.
    + rewrite HT in Hf by done. apply (ow_exported _ _ Ho d' f Hf). by rewrite <- He.
Qed.

Lemma owned_step owner s s' : Owned owner s -> step guarded entry root s s' -> exists owner', Owned owner' s'.
Proof.
  intros Ho. destruct 1 as [| | |B g q c k r T' s Hg Hk|B g q l k b sh s Hg Hl| |d f s Hd HT|d s Hd H0].
  - eexists. by apply owned_start.
  - by eapply owned_close.
  - by eapply owned_release.
  - by eapply owned_sys.
  - exists owner. by eapply owned_local.
  - by eapply owned_return.
  - assert (owner d = None) by (destruct (owner d) eqn:E; [destruct (proj2 (ow_dom _ _ Ho d)) as [? ?]; [eauto|congruence]|done]).
    eexists. apply (owned_env owner s d (Some OEnv)); try done; [by left|by right| | | | | |].
    + intros d' Hd'. by rewrite lookup_insert_ne.
    + rewrite lookup_insert_eq. split; eauto.
    + set_solver.
    + set_solver.
    + pose proof (ow_zero _ _ Ho). set_solver.
    + set_solver.
  - eexists. apply (owned_env owner s d None); try done; [right; by apply (ow_env _ _ Ho)|by left| | | | | |].
    + intros d' Hd'. by rewrite lookup_delete_ne.
    + rewrite lookup_delete_eq. by split; intros [].
    + set_solver.
    + set_solver.
    + pose proof (ow_zero _ _ Ho). set_solver.
    + set_solver.
Qed.

Context (others : fdTable) (rootNode : Node) (sh : Shared).
Context (Hzero : is_Some (others !! 0)) (Hroot : others !! fd rootNode = None) (Hparent : parentFd rootNode = 0).
Abbreviation reachable := (Reachable (initial root others rootNode sh) (step guarded entry root)).

Lemma owned_initial : exists owner, Owned owner (initial root others rootNode sh).
Proof.
  exists (fun d => if decide (d = fd rootNode) then Some (ONode 0%nat) else if decide (d ∈ dom others) then Some OEnv else None).
  assert (Hne : forall d, d ∈ dom others -> d <> fd rootNode) by (intros d Hd ->; by apply not_elem_of_dom in Hroot).
  assert (Hfds : fdsOf rootNode = [fd rootNode]) by (unfold fdsOf; by rewrite Hparent).
  split; cbn.
  - intros d. case_decide as E; [subst; rewrite lookup_insert_eq; split; eauto|]. rewrite lookup_insert_ne by done.
    case_decide as E'; [rewrite <- elem_of_dom; split; eauto|]. apply not_elem_of_dom in E'. rewrite E'. by split; intros [].
  - intros d. repeat case_decide; naive_solver.
  - by apply elem_of_dom.
  - intros k. destruct (decide (k = 0%nat)) as [->|Hk].
    + rewrite lookup_singleton_eq. rewrite Hfds. split; [apply NoDup_singleton|]. intros d. rewrite list_elem_of_singleton. repeat case_decide; naive_solver.
    + rewrite lookup_singleton_ne by done. intros d. repeat case_decide; naive_solver.
  - intros k d. rewrite lookup_empty. repeat case_decide; naive_solver.
  - intros g. rewrite lookup_empty. intros d. repeat case_decide; naive_solver.
  - intros k h _. by rewrite lookup_empty.
  - intros d f Hf Hd. destruct (decide (d = fd rootNode)) as [->|Hne']; [rewrite lookup_insert_eq in Hf; by injection Hf as <-|].
    rewrite lookup_insert_ne in Hf by done. apply not_elem_of_dom in Hd. congruence.
Qed.

Lemma reachable_owned s : reachable s -> exists owner, Owned owner s.
Proof.
  apply (Reachable_invariant _ _ (fun s => exists owner, Owned owner s)); [apply owned_initial|].
  intros s1 s2 _ [owner Ho] Hs. by eapply owned_step.
Qed.
End Ownership.

(** ** What holds of the process *)

(** [exported] are the files at or below the root: single components lead
    down, and [..] of a directory other than the root stays. *)
Record ExportLaws (entry : fileIdentity -> string -> fileIdentity -> Prop) (exported : fileIdentity -> Prop) (root : Root) : Prop := {
  export_root : exported (rootId root);
  export_down d nm f : exported d -> nm <> ".." -> entry d nm f -> exported f;
  export_up d f : exported d -> d <> rootId root -> entry d ".." f -> exported f
}.

(** The root node has one descriptor, which is not among the others. *)
Record StartLaws (others : fdTable) (rootNode : Node) : Prop := {
  start_zero : is_Some (others !! 0);
  start_root : others !! fd rootNode = None;
  start_parent : parentFd rootNode = 0
}.

Lemma fine_mono {B} (L L' hs : gset Z) (c : call B) : L ⊆ L' -> fine L hs c -> fine L' hs c.
Proof. intros HL. destruct c; cbn; intros H; destruct_and?; split_and?; try set_solver; try done; naive_solver. Qed.

(** The descriptors of the handles that a request was given. *)
Definition handleFds (q : request) : gset Z := list_to_set (handleFd <$> reqHandles q).

(** A server that keeps the nodes of running requests. *)
Lemma guarded_call {B} entry exported root owner s g q (c : call B) k :
  Owned true entry exported root owner s -> threads s !! g = Some (q, Sys c k) -> fine (dom (table s) ∖ env s) (handleFds q) c.
Proof.
  intros Ho Hg. pose proof (ow_thread _ _ _ _ _ _ Ho g) as Ht. rewrite Hg in Ht.
  destruct Ht as (bor & own & (Hf & _) & _ & Hown & Hdom & Hl & _). eapply fine_mono; [|exact Hf].
  assert (Hin : forall d o, owner d = Some o -> o <> OEnv -> d ∈ dom (table s) ∖ env s).
  { intros d o Hd Hne. apply elem_of_difference. split; [apply elem_of_dom, (ow_dom _ _ _ _ _ _ Ho); eauto|]. rewrite <- (ow_env _ _ _ _ _ _ Ho). congruence. }
  intros d [Hd%Hown|Hd%elem_of_list_to_set]%elem_of_union; [by eapply Hin|]. destruct (Hl d Hd) as (k' & [Hk|Hk]); by eapply Hin.
Qed.

(** Any server: the files are not asked about. *)
Definition anyFile (f : fileIdentity) : Prop := True.

Section AnyServer.
Context (guarded : bool) (entry : fileIdentity -> string -> fileIdentity -> Prop) (root : Root).
Context (others : fdTable) (rootNode : Node) (sh : Shared) (Hstart : StartLaws others rootNode).
Abbreviation reachable := (Reachable (initial root others rootNode sh) (step guarded entry root)).

Lemma any_owned s : reachable s -> exists owner, Owned guarded entry anyFile root owner s.
Proof. destruct Hstart. apply reachable_owned; try done. by right. Qed.

(** The handle of an I/O request is the server's while the request runs. *)
Lemma reachable_held s g q p h : reachable s -> threads s !! g = Some (q, p) -> h ∈ reqHandles q -> exists k, handles s !! k = Some h.
Proof.
  intros Hr. revert g q p h. pattern s. revert s Hr. apply Reachable_invariant; [by intros *; cbn; rewrite lookup_empty|].
  intros s s' _ IH Hs.
  destruct Hs as [g0 q0 s Hg Hv Hn Hh|g0 k0 n s Hg Hk Hfree|g0 k0 h0 s Hg Hk Hfree|B g0 q0 c k0 r T' s Hg Hk|B g0 q0 l k0 b sh' s Hg Hl
    |g0 q0 r kn kh s Hg Hkn Hkh|d f s Hd HT|d s Hd H0]; intros g q p h; cbn; try (by apply IH).
  - intros [[<- [= <- <-]]|[_ H]]%lookup_insert_Some Hin; [by apply Hh|by eapply IH].
  - intros [[<- [= <- <-]]|[_ H]]%lookup_insert_Some Hin; [by apply not_elem_of_nil in Hin|by eapply IH].
  - intros [[<- [= <- <-]]|[_ H]]%lookup_insert_Some Hin; [by apply not_elem_of_nil in Hin|].
    destruct (IH _ _ _ _ H Hin) as [k Hk']. exists k. rewrite lookup_delete_ne; [done|]. intros <-. rewrite Hk in Hk'. injection Hk' as ->.
    apply (Hfree _ _ _ H). unfold kept, borrows. assert (handleFd h ∈ handleFd <$> reqHandles q) by (by apply list_elem_of_fmap_2).
    destruct guarded; [apply elem_of_app; by right|done].
  - intros [[<- [= <- <-]]|[_ H]]%lookup_insert_Some Hin; by eapply IH.
  - intros [[<- [= <- <-]]|[_ H]]%lookup_insert_Some Hin; by eapply IH.
  - intros H Hin. assert (threads s !! g = Some (q, p)) as H1 by (destruct r; cbn in H; by apply lookup_delete_Some in H as [_ ?]).
    destruct (IH _ _ _ _ H1 Hin) as [k Hk]. exists k. destruct r as [o|]; cbn; [|done]. destruct (outHandle o); [|done].
    rewrite lookup_insert_ne; [done|congruence].
Qed.
End AnyServer.

(** C36: descriptors of the passthrough file system.  However operations,
    closes and releases interleave with each other and with the rest of the
    process, requests still using the nodes included ([guarded] or not), and
    whatever the kernel answers: every open descriptor has exactly one owner,
    which is the rest of the process, a node or a handle that the server
    holds, or an operation that is still running.  So nothing is leaked on any
    error path and no descriptor is closed by two.  The server is taken to
    close a node at most once and to start no request on it afterwards, which
    the race of [SharedRefs.clone_race_closes_node] breaks, and to release a
    handle at most once and not under an I/O request ([FidLife]). *)
Theorem passthrough_descriptors guarded entry root others rootNode sh s :
  StartLaws others rootNode -> Reachable (initial root others rootNode sh) (step guarded entry root) s ->
  exists owner,
    (forall d, is_Some (table s !! d) <-> is_Some (owner d)) /\
    (forall d, owner d = Some OEnv <-> d ∈ env s) /\
    (forall k n d, nodes s !! k = Some n -> owner d = Some (ONode k) <-> d ∈ fdsOf n) /\
    (forall k h d, handles s !! k = Some h -> owner d = Some (OHandle k) <-> d = handleFd h) /\
    (forall d o, owner d = Some o ->
       match o with
       | OEnv => True
       | ONode k => is_Some (nodes s !! k)
       | OHandle k => is_Some (handles s !! k)
       | OThread g => is_Some (threads s !! g)
       end).
Proof.
  intros Hst Hreach. destruct (any_owned guarded entry root others rootNode sh Hst s Hreach) as [owner Ho].
  exists owner. split_and!; [apply (ow_dom _ _ _ _ _ _ Ho)|apply (ow_env _ _ _ _ _ _ Ho)| | |].
  - intros k n d Hn. pose proof (ow_node _ _ _ _ _ _ Ho k) as Hk. rewrite Hn in Hk. apply Hk.
  - intros k h d Hh. rewrite (ow_handle _ _ _ _ _ _ Ho), Hh. naive_solver.
  - intros d [|k|k|g] Hod; [done| | |].
    + pose proof (ow_node _ _ _ _ _ _ Ho k) as Hk. destruct (nodes s !! k); [eauto|]. by apply Hk in Hod.
    + apply (ow_handle _ _ _ _ _ _ Ho) in Hod as (h & -> & _). eauto.
    + pose proof (ow_thread _ _ _ _ _ _ Ho g) as Hg. destruct (threads s !! g); [eauto|]. by apply Hg in Hod.
Qed.

(** C38: the options are enforced before the kernel is asked, whatever runs at
    the same time, nodes closed under running requests included (each node and
    handle at most once, a handle not under an I/O request).  On a read-only root no operation makes a call that changes
    the host by name or through attributes; it opens single names for reading
    only, without truncation or creation, and what is open already
    ([/proc/self/fd/N], where [O_CREAT] has nothing to create) for reading
    only and without truncation; and a write, which it does not refuse itself,
    names a handle of the server whose descriptor was not opened for writing.
    On any root ownership changes only when that was allowed, and block and
    character devices are made only when they were allowed. *)
Theorem passthrough_policy guarded entry root others rootNode sh s :
  StartLaws others rootNode -> Reachable (initial root others rootNode sh) (step guarded entry root) s ->
  forall g q B (c : call B) k, threads s !! g = Some (q, Sys c k) ->
    permitted (options root) c /\
    (readOnly (options root) = true -> forall d, writtenTo c = Some d ->
       d ∉ writers s /\ exists i h, handles s !! i = Some h /\ handleFd h = d).
Proof.
  intros Hst Hreach g q B c k Hg. destruct (any_owned guarded entry root others rootNode sh Hst s Hreach) as [owner Ho].
  pose proof (ow_thread _ _ _ _ _ _ Ho g) as Ht. rewrite Hg in Ht. destruct Ht as (bor & own & (Hf & Hp & _) & _). split; [done|].
  intros Hro d Hd. assert (d ∈ handleFds q) as (h & -> & Hin)%elem_of_list_to_set%list_elem_of_fmap
    by (destruct c; cbn in Hd, Hf; try done; injection Hd as <-; by destruct Hf).
  destruct (reachable_held guarded entry root others rootNode sh s g q _ h Hreach Hg Hin) as [i Hi].
  split; [by apply (ow_reader _ _ _ _ _ _ Ho i)|by exists i, h].
Qed.

(** ** An operation alone, with the answers it gets *)

Inductive runs {A} (entry : fileIdentity -> string -> fileIdentity -> Prop) :
    fdTable -> gset Z -> Shared -> prog A -> fdTable -> gset Z -> Shared -> A -> Prop :=
  | runs_ret T w sh a : runs entry T w sh (Ret a) T w sh a
  | runs_sys {B} T w sh (c : call B) k r T1 T' w' sh' a :
      kernel entry T c r T1 -> runs entry T1 (writersAfter c r w) sh (k r) T' w' sh' a -> runs entry T w sh (Sys c k) T' w' sh' a
  | runs_loc {B} T w sh (l : local B) k b sh1 T' w' sh' a :
      runLocal l sh = (b, sh1) -> runs entry T w sh1 (k b) T' w' sh' a -> runs entry T w sh (Loc l k) T' w' sh' a.
#[global] Arguments runs_sys {_ _ _} _ _ _ _ _ _ _ _ _ _ _.

Lemma runs_reachable guarded entry root s0 s g q p T' w' sh' r :
  Reachable s0 (step guarded entry root) s -> threads s !! g = Some (q, p) -> runs entry (table s) (writers s) (shared s) p T' w' sh' r ->
  Reachable s0 (step guarded entry root) (setThread g (Some (q, Ret r)) (mkState T' sh' (env s) w' (nodes s) (handles s) (threads s))).
Proof.
  intros Hs Hg Hr. remember (table s) as T eqn:HT. remember (writers s) as w eqn:Hw. remember (shared s) as sh eqn:Hsh.
  revert s Hs Hg HT Hw Hsh.
  induction Hr as [T w sh a|B T w sh c k r T1 T' w' sh' a Hk _ IH|B T w sh l k b sh1 T' w' sh' a Hl _ IH]; intros s Hs Hg -> -> ->.
  - unfold setThread. cbn. rewrite insert_id by done. by destruct s.
  - specialize (IH (setThread g (Some (q, k r)) (mkState T1 (shared s) (env s) (writersAfter c r (writers s)) (nodes s) (handles s) (threads s)))).
    unfold setThread in IH. cbn in IH. rewrite lookup_insert_eq, insert_insert_eq in IH. apply IH; try done.
    eapply reach_step; [done|]. by eapply step_sys.
  - specialize (IH (setThread g (Some (q, k b)) (mkState (table s) sh1 (env s) (writers s) (nodes s) (handles s) (threads s)))).
    unfold setThread in IH. cbn in IH. rewrite lookup_insert_eq, insert_insert_eq in IH. apply IH; try done.
    eapply reach_step; [done|]. by eapply step_local.
Qed.

(** A request from its start to its end, with no other in between. *)
Lemma request_reachable guarded entry root s0 s g q T' w' sh' r kn kh :
  Reachable s0 (step guarded entry root) s -> threads s !! g = None -> validRequest q ->
  (forall n, n ∈ reqNodes q -> exists k, nodes s !! k = Some n) ->
  (forall h, h ∈ reqHandles q -> exists k, handles s !! k = Some h) ->
  runs entry (table s) (writers s) (shared s) (body root q) T' w' sh' r -> nodes s !! kn = None -> handles s !! kh = None ->
  Reachable s0 (step guarded entry root) (received kn kh r (mkState T' sh' (env s) w' (nodes s) (handles s) (threads s))).
Proof.
  intros Hs Hg Hv Hn Hh Hr Hkn Hkh.
  assert (H1 := reach_step _ _ _ _ Hs (step_start guarded entry root g q s Hg Hv Hn Hh)).
  eapply runs_reachable in H1; [|by apply lookup_insert_eq|exact Hr].
  match type of H1 with Reachable _ _ ?s1 =>
    assert (H2 := reach_step _ _ _ _ H1 (step_return guarded entry root g q r kn kh s1 (lookup_insert_eq _ _ _) Hkn Hkh)) end.
  assert (Hdel : forall x y, delete g (<[g := x]> (<[g := y]> (threads s))) = threads s).
  { intros x y. rewrite insert_insert_eq, delete_insert_eq. by apply delete_id. }
  unfold received, setThread in H2 |- *. cbn [table shared env nodes handles threads] in H2 |- *. by rewrite Hdel in H2.
Qed.

(** ** An instance: device 1 is exported, device 2 is above it *)

Module Demo.
Definition rid : fileIdentity := mkIdentity 1 10.
Definition entry (d : fileIdentity) (nm : string) (f : fileIdentity) : Prop :=
  if bool_decide (nm = ".." /\ d = rid) then device f = 2 else device f = device d.
Definition exported (f : fileIdentity) : Prop := device f = 1.
Definition config (ro : bool) : Config := mkConfig IdentityMapper false ro false.
Definition root (ro : bool) : Root := mkRoot pair pair rid (config ro).
Definition rootNode : Node := mkNode 0 3 0 "" 1 10.
Definition sh : Shared := mkShared ∅ 1 {[0%nat := mkInode (QID.mk QTDIR 0 1) None ∅ 0 false true]} 1.
Definition others : fdTable := {[0 := mkIdentity 2 1]}.
Definition start (ro : bool) : State := initial (root ro) others rootNode sh.
Definition stat (mode : Z) : Stat_t := mkStat 1 11 mode 1 0 0 0 5 4096 8 0 0 0 0 0 0.

Lemma laws ro : ExportLaws entry exported (root ro).
Proof.
  split; [done| |]; unfold entry, exported.
  - intros d nm f Hd Hn. rewrite bool_decide_eq_false_2 by tauto. congruence.
  - intros d f Hd Hn. rewrite bool_decide_eq_false_2 by tauto. congruence.
Qed.
Lemma starts : StartLaws others rootNode.
Proof. split; [by eexists|by vm_compute|done]. Qed.

(** A lookup of a file, run to its end: descriptors 4 and 5 are the node's. *)
Definition child : Node := mkNode 1 4 5 "a" 1 11.

Lemma lookup_runs ro : exists sh', runs entry (table (start ro)) (writers (start ro)) sh (body (root ro) (QLookup rootNode "a"))
  (<[5 := rid]> (<[4 := mkIdentity 1 11]> (table (start ro)))) (dom others) sh' (Ok (mkOut (Some child) None)).
Proof.
  eexists. cbn [body]. unfold aNode, Lookup. rewrite decide_False by done.
  eapply (runs_sys _ _ _ (Fstatat 3 "a" AT_SYMLINK_NOFOLLOW) _ (Ok (stat 0x8000))); [done|].
  eapply (runs_sys _ _ _ (Openat 3 "a" openPathFlags 0) _ (Ok 4)).
  { split_and!; [done|by vm_compute|]. exists (mkIdentity 1 11). split; [|done]. exists rid. split; [by vm_compute|]. intros _ _.
    unfold entry. by rewrite bool_decide_eq_false_2 by (by intros []). }
  eapply (runs_sys _ _ _ (Fstat 4) _ (Ok (stat 0x8000))); [by split|].
  eapply (runs_sys _ _ _ (Dup 3) _ (Ok 5)).
  { split_and!; [done|by vm_compute|]. by exists rid. }
  repeat (eapply runs_loc; [reflexivity|]). match goal with |- runs _ _ ?w _ _ _ _ _ _ => replace w with (dom others) by by vm_compute end.
  apply runs_ret.
Qed.

Definition lookedUp (ro : bool) (sh' : Shared) : State :=
  mkState (<[5 := rid]> (<[4 := mkIdentity 1 11]> (table (start ro)))) sh' (dom others) (dom others) {[1%nat := child; 0%nat := rootNode]} ∅ ∅.

Lemma lookedUp_reachable guarded ro : exists sh', Reachable (start ro) (step guarded entry (root ro)) (lookedUp ro sh').
Proof.
  destruct (lookup_runs ro) as [sh' Hr]. exists sh'.
  refine (request_reachable guarded entry (root ro) _ _ 0 _ _ _ _ _ 1 0 (reach_init _ _) _ _ _ _ Hr _ _); try done.
  - intros n ->%list_elem_of_singleton. by exists 0%nat.
  - by intros h ?%not_elem_of_nil.
Qed.

(** An open of the root directory, about to ask the kernel. *)
Definition opened (r : result Z) : prog (result Out) := aHandle (fd' ← host (Ret r); mret (dirHandle fd', 0)).
Definition opening (ro : bool) : State :=
  setThread 0 (Some (QOpen rootNode 0, Sys (Open (procPath 3) (openFlags (Z.lor O_RDONLY O_DIRECTORY)) 0) opened)) (start ro).

Lemma opening_reachable guarded ro : Reachable (start ro) (step guarded entry (root ro)) (opening ro).
Proof.
  assert (H1 : Reachable (start ro) (step guarded entry (root ro)) (setThread 0 (Some (QOpen rootNode 0, body (root ro) (QOpen rootNode 0))) (start ro))).
  { eapply reach_step; [apply reach_init|]. apply step_start; [done|done| |by intros h ?%not_elem_of_nil].
    intros n ->%list_elem_of_singleton. by exists 0%nat. }
  destruct ro; match type of H1 with Reachable _ _ ?s1 =>
    assert (H2 := reach_step _ _ _ _ H1 (step_local guarded entry (root _) 0%nat _ (GetQID 0%nat) _ _ _ s1 (lookup_insert_eq _ _ _) eq_refl)) end;
  unfold setThread in H2; cbn [threads table shared env writers nodes handles] in H2; rewrite insert_insert_eq in H2; exact H2.
Qed.

(** A file that is not exported, opened by the rest of the process under the
    number of a descriptor that was closed. *)
Definition secret : fileIdentity := mkIdentity 2 7.

Lemma procPath_inj d d' : procPath d = procPath d' -> d = d'.
Proof. unfold procPath. intros [=H]. by apply pretty_Z_inj. Qed.

(** The node is closed in the middle of the open, which then opens what took
    its number. *)
Lemma escape : exists s, Reachable (start false) (step false entry (root false)) s /\
  handles s !! 0%nat = Some (dirHandle 4) /\ table s !! 4 = Some secret /\ 4 ∉ env s.
Proof.
  pose proof (opening_reachable false false) as R.
  assert (Hfree : forall g' q p d, threads (opening false) !! g' = Some (q, p) -> d ∈ kept false q -> d ∉ fdsOf rootNode).
  { intros g' q p d H Hd. unfold opening, setThread in H. cbn [threads] in H.
    apply lookup_insert_Some in H as [[_ [= <- <-]]|[_ H]]; [by apply not_elem_of_nil in Hd|].
    by destruct g'. }
  assert (R1 := reach_step _ _ _ _ R (step_close false entry (root false) 1 0 rootNode (opening false) eq_refl eq_refl Hfree)).
  match type of R1 with Reachable _ _ ?x => set (s1 := x) in R1 end.
  assert (exists k, threads s1 !! 1%nat = Some (QClose rootNode, Sys (Close 3) k)) as [k Hk] by (eexists; reflexivity).
  assert (R2 := reach_step _ _ _ _ R1 (step_sys false entry (root false) 1 (QClose rootNode) (Close 3) k (Ok tt) _ s1 Hk eq_refl)).
  match type of R2 with Reachable _ _ ?x => set (s2 := x) in R2 end.
  assert (H2 : table s2 !! 3 = None) by by vm_compute.
  assert (R3 := reach_step _ _ _ _ R2 (step_env_open false entry (root false) 3 secret s2 ltac:(done) H2)).
  match type of R3 with Reachable _ _ ?x => set (s3 := x) in R3 end.
  assert (H3 : threads s3 !! 0%nat = Some (QOpen rootNode 0, Sys (Open (procPath 3) (openFlags (Z.lor O_RDONLY O_DIRECTORY)) 0) opened))
    by reflexivity.
  assert (K3 : kernel entry (table s3) (Open (procPath 3) (openFlags (Z.lor O_RDONLY O_DIRECTORY)) 0) (Ok 4) (<[4 := secret]> (table s3))).
  { split_and!; [done|by vm_compute|]. exists secret. split; [|reflexivity]. intros d <-%procPath_inj. by vm_compute. }
  assert (R4 := reach_step _ _ _ _ R3 (step_sys false entry (root false) 0 _ _ opened _ _ s3 H3 K3)).
  match type of R4 with Reachable _ _ ?x => set (s4 := x) in R4 end.
  assert (H4 : threads s4 !! 0%nat = Some (QOpen rootNode 0, Ret (Ok (mkOut None (Some (dirHandle 4)))))) by reflexivity.
  assert (R5 := reach_step _ _ _ _ R4 (step_return false entry (root false) 0 _ _ 1 0 s4 H4 eq_refl eq_refl)).
  eexists. split; [exact R5|]. split_and!; by vm_compute.
Qed.
End Demo.

Lemma passthrough_descriptors_witness :
  exists sh' owner, Reachable (Demo.start false) (step false Demo.entry (Demo.root false)) (Demo.lookedUp false sh') /\
    owner 4 = Some (ONode 1%nat) /\ owner 5 = Some (ONode 1%nat) /\ owner 3 = Some (ONode 0%nat) /\ owner 6 = None.
Proof.
  destruct (Demo.lookedUp_reachable false false) as [sh' Hr]. exists sh'.
  destruct (passthrough_descriptors _ _ _ _ _ _ _ Demo.starts Hr) as (owner & Hd & _ & Hn & _).
  exists owner. split_and!; [done|apply (Hn 1%nat Demo.child); [done|left]|apply (Hn 1%nat Demo.child); [done|right; left]|apply (Hn 0%nat Demo.rootNode); [done|left]|].
  apply eq_None_not_Some. rewrite <- Hd. intros [f Hf]. vm_compute in Hf. done.
Defined.


Lemma passthrough_policy_witness :
  readOnly (options (Demo.root true)) = true /\ readsOnly (openFlags (Z.lor O_RDONLY O_DIRECTORY)) = true.
Proof.
  split; [done|]. destruct (passthrough_policy _ _ _ _ _ _ _ Demo.starts (Demo.opening_reachable false true) 0%nat _ _ _ _ eq_refl) as [Hp _].
  by apply Hp.
Defined.
