(* ===== verification/PassResults.v ===== *)
(** * What the passthrough operations leave behind

    Effects of the operations of [Passthrough] beyond descriptors: the
    entries of the directory they work in, the QIDs they give out, and the
    listing of a directory page by page. *)

From S2P Require Import Prelude GoIO Types Errno Proto Message Frame Dirents Inode HostSys Passthrough.
Open Scope Z_scope.

(** ** The entries of a directory *)

Definition O_EXCL : Z := 0x80.

(** A directory of the host, as the calls on its descriptor [dir] change it.
    Calls that make an entry fail when the name is taken, except an open that
    may create: it opens what is there unless [O_EXCL] is given. *)
Abbreviation Entries := (gmap string fileIdentity).

Definition made_ (nm : string) (H : Entries) (r : result unit) (H' : Entries) : Prop :=
  match r with Ok _ => H !! nm = None /\ exists f, H' = <[nm := f]> H | Err _ => H' = H end.

Definition dirStep {B} (dir : Z) (H : Entries) (c : call B) : B -> Entries -> Prop :=
  match c in call B return B -> Entries -> Prop with
  | Openat d nm flags _ => fun r H' =>
      match r with
      | Err _ => H' = H
      | Ok _ =>
          if bool_decide (d = dir) && has flags O_CREAT then
            match H !! nm with
            | Some _ => has flags O_EXCL = false /\ H' = H
            | None => exists f, H' = <[nm := f]> H
            end
          else H' = H
      end
  | Mkdirat d nm _ | Symlinkat _ d nm | Mknodat d nm _ _ => fun r H' => if bool_decide (d = dir) then made_ nm H r H' else H' = H
  | Unlinkat d nm _ => fun r H' => match r with Ok _ => H' = (if bool_decide (d = dir) then delete nm H else H) | Err _ => H' = H end
  | _ => fun _ H' => H' = H
  end.

(** Whatever the kernel answers, and for some of its answers. *)
Fixpoint always {A} (dir : Z) (H : Entries) (p : prog A) (Q : Entries -> A -> Prop) : Prop :=
  match p with
  | Ret a => Q H a
  | Loc l k => forall b, always dir H (k b) Q
  | Sys c k => forall r H', dirStep dir H c r H' -> always dir H' (k r) Q
  end.
Fixpoint sometimes {A} (dir : Z) (s : Shared) (H : Entries) (p : prog A) (Q : Entries -> A -> Prop) : Prop :=
  match p with
  | Ret a => Q H a
  | Loc l k => sometimes dir (snd (runLocal l s)) H (k (fst (runLocal l s))) Q
  | Sys c k => exists r H', dirStep dir H c r H' /\ sometimes dir s H' (k r) Q
  end.

Lemma always_mono {A} dir (p : prog A) H (Q Q' : Entries -> A -> Prop) :
  always dir H p Q -> (forall h a, Q h a -> Q' h a) -> always dir H p Q'.
Proof.
  intros Hp HQ. revert H Hp. induction p as [a|B c k IH|B l k IH]; cbn; intros H; [apply HQ| |]; intros Hk.
  - intros r H' Hr. by apply IH, Hk.
  - intros b. by apply IH.
Qed.

Lemma always_bind {A B} dir (p : prog A) (f : A -> prog B) H Q :
  always dir H p (fun h a => always dir h (f a) Q) -> always dir H (pbind f p) Q.
Proof. revert H. induction p as [a|C c k IH|C l k IH]; cbn; intros H Hk; [done| |]; eauto. Qed.

Lemma sometimes_mono {A} dir (p : prog A) s H (Q Q' : Entries -> A -> Prop) :
  sometimes dir s H p Q -> (forall h a, Q h a -> Q' h a) -> sometimes dir s H p Q'.
Proof.
  intros Hp HQ. revert s H Hp. induction p as [a|B c k IH|B l k IH]; cbn; intros s H; [apply HQ| |by apply IH].
  intros (r & H' & Hr & Hk). exists r, H'. split; [done|]. by apply IH.
Qed.

(** The flags of a create. *)
Lemma create_flags flags : has (or4 flags O_CREAT O_NOFOLLOW O_CLOEXEC) O_CREAT = true /\
  has (or4 flags O_CREAT O_NOFOLLOW O_CLOEXEC) O_EXCL = has flags O_EXCL.
Proof.
  unfold or4, has. rewrite !Z.land_lor_distr_l. split.
  - apply negb_true_iff, Z.eqb_neq. rewrite !Z.lor_eq_0_iff. by intros [[[_ ?] _] _].
  - by rewrite !Z.lor_0_r.
Qed.

Section Entries.
Context (root : Root) (n : Node) (nm : string) (gid : Z).
Abbreviation kept H := (fun (H' : Entries) _ => H ⊆ H').

(** Steps through every answer. *)
Ltac always_step :=
  match goal with |- always ?d ?h ?p ?Q => let p' := eval hnf in p in change (always d h p' Q) end;
  lazymatch goal with
  | |- always _ _ (Ret _) _ => cbn [always]
  | |- always _ _ (Loc _ _) _ => intros ?
  | |- always _ _ (Sys _ _) _ =>
      let Hs := fresh "Hs" in
      intros [] ? Hs; cbn [dirStep made_] in Hs; rewrite ?bool_decide_eq_true_2 in Hs by done; cbn [andb] in Hs; try subst
  | |- always _ _ (match ?x with _ => _ end) _ => destruct x eqn:?
  | |- always _ _ (pbind _ _) _ => apply always_bind
  end.
Ltac entries :=
  change (has openDirFlags O_CREAT) with false in *; change (has openPathFlags O_CREAT) with false in *; cbv iota in *;
  repeat match goal with Hs : _ /\ _ |- _ => destruct Hs | Hs : exists _, _ |- _ => destruct Hs end; simplify_eq;
  first [done | congruence | by apply insert_subseteq | by rewrite delete_insert_id].

Lemma mkdir_entries H mode : always (fd n) H (Mkdir root n nm mode gid) (kept H).
Proof. unfold Mkdir, requireMutable, creationGID, openMade. repeat always_step; entries. Qed.

Lemma symlink_entries H target : always (fd n) H (Symlink root n nm target gid) (kept H).
Proof. unfold Symlink, requireMutable, creationGID, openMade. repeat always_step; entries. Qed.

Lemma mknod_entries H mode major minor : always (fd n) H (Mknod root n nm mode major minor gid) (kept H).
Proof. unfold Mknod, requireMutable, creationGID, openMade. repeat always_step; entries. Qed.

Lemma create_entries H flags mode : has flags O_EXCL = true \/ gid = NoUID ->
  always (fd n) H (Create root n nm flags mode gid) (kept H).
Proof.
  destruct (create_flags flags) as [Hc He]. intros Hx. unfold Create, requireMutable, creationGID.
  destruct (Z.eqb_spec gid NoUID) as [Hg|Hg]; repeat always_step.
  all: rewrite ?Hc, ?He in *; destruct (H !! nm) eqn:E; destruct Hx; try done; entries.
Qed.

(** The clean-up of a create that found the file. *)
Lemma create_removes H flags mode f :
  readOnly (options root) = false -> allowOwner (options root) = true -> gid <> NoUID -> has flags O_EXCL = false ->
  H !! nm = Some f ->
  forall s, QID.Type_ (QIDof (nid n) (tree s)) = QTDIR ->
  sometimes (fd n) s H (Create root n nm flags mode gid) (fun H' r => r = Err (ErrnoError EPERM) /\ H' = delete nm H).
Proof.
  intros Hro Hao Hg Hx Hnm s Hq. destruct (create_flags flags) as [Hc He].
  unfold Create, requireMutable, creationGID. rewrite Hro, Hao, (proj2 (Z.eqb_neq _ _) Hg). cbn [negb guard_].
  unfold requireDir. cbn -[or4 has]. rewrite Hq. cbn -[or4 has].
  exists (Ok 7), H. split; [by rewrite bool_decide_eq_true_2, Hc, Hnm, He|]. cbn.
  exists (Ok (mkStat 0 0 0 0 0 0 0 0 0 0 0 0 0 0 0 0)), H. split; [done|]. cbn.
  exists (Ok 8), H. split; [done|]. cbn. exists (Ok 9), H. split; [done|]. cbn.
  exists (Err (SyscallErrno EPERM)), H. split; [done|]. cbn. do 3 (exists (Ok tt), H; split; [done|]; cbn).
  exists (Ok tt), (delete nm H). split; [by rewrite bool_decide_eq_true_2|]. done.
Qed.
End Entries.

(** C39: entries of the host survive failed operations, with one exception.
    Whatever the kernel answers, Mkdir, Symlink, Mknod, and Create with
    [O_EXCL] or without a group, leave every entry that the directory had: what
    they take away on an error is what they made.  But Create opens an
    existing file unless [O_EXCL] is given, and when the group that was asked
    for cannot be set it unlinks the name: an existing file is deleted by a
    create that fails with EPERM. *)
Theorem passthrough_entries root n nm gid H :
  (forall mode, always (fd n) H (Mkdir root n nm mode gid) (fun H' _ => H ⊆ H')) /\
  (forall target, always (fd n) H (Symlink root n nm target gid) (fun H' _ => H ⊆ H')) /\
  (forall mode major minor, always (fd n) H (Mknod root n nm mode major minor gid) (fun H' _ => H ⊆ H')) /\
  (forall flags mode, has flags O_EXCL = true \/ gid = NoUID ->
     always (fd n) H (Create root n nm flags mode gid) (fun H' _ => H ⊆ H')) /\
  (forall flags mode f s, readOnly (options root) = false -> allowOwner (options root) = true -> gid <> NoUID ->
     has flags O_EXCL = false -> H !! nm = Some f -> QID.Type_ (QIDof (nid n) (tree s)) = QTDIR ->
     sometimes (fd n) s H (Create root n nm flags mode gid) (fun H' r => r = Err (ErrnoError EPERM) /\ H' !! nm = None)).
Proof.
  split_and!.
  - intros. apply mkdir_entries.
  - intros. apply symlink_entries.
  - intros. apply mknod_entries.
  - intros. by apply create_entries.
  - intros flags mode f s Hro Hao Hg Hx Hnm Hq. eapply sometimes_mono; [by eapply (create_removes root n nm gid H flags mode f)|].
    intros h r [-> ->]. split; [done|]. apply lookup_delete_eq.
Qed.

(** ** QIDs *)

(** One critical section after another. *)
Definition locals (s s' : Shared) : Prop := exists B (l : local B), s' = snd (runLocal l s).

(** Paths are handed out in order, as long as they do not wrap. *)
Record Paths (s : Shared) : Prop := {
  paths_next : nextQIDPath s = 1 + Z.of_nat (size (qidPaths s));
  paths_range i p : qidPaths s !! i = Some p -> 1 <= p < nextQIDPath s;
  paths_inj i j p : qidPaths s !! i = Some p -> qidPaths s !! j = Some p -> i = j
}.
Definition fresh (s : Shared) : Prop := qidPaths s = ∅ /\ nextQIDPath s = 1.

Lemma qidFor_keeps st s q s' : qidFor st s = (q, s') ->
  qidPaths s ⊆ qidPaths s' /\ qidPaths s' !! identityOf st = Some (QID.Path q).
Proof.
  unfold qidFor. destruct (qidPaths s !! identityOf st) as [p|] eqn:E; intros [= <- <-]; cbn; [done|].
  split; [by apply insert_subseteq|apply lookup_insert_eq].
Qed.

Lemma locals_grow s s' : locals s s' -> qidPaths s ⊆ qidPaths s'.
Proof.
  intros (B & l & ->). destruct l; cbn; try done. destruct (qidFor st s) as [q s'] eqn:E. by apply qidFor_keeps in E as [? _].
Qed.

Lemma locals_paths s s' : locals s s' -> Z.of_nat (size (qidPaths s')) < 2 ^ 64 - 1 -> Paths s -> Paths s'.
Proof.
  intros (B & l & ->) Hsz Hp. destruct l; cbn in *; try (destruct Hp; by split). unfold qidFor in *.
  destruct (qidPaths s !! identityOf st) as [p|] eqn:E; cbn in *; [done|]. destruct Hp as [Hn Hr Hi].
  rewrite map_size_insert_None in Hsz by done.
  assert (Hw : uint_wrap 64 (nextQIDPath s + 1) = nextQIDPath s + 1) by (apply uint_wrap_id; unfold is_uint; lia).
  split; cbn; rewrite ?Hw.
  - rewrite map_size_insert_None by done. lia.
  - intros i p [[<- <-]|[_ Hi']]%lookup_insert_Some; [lia|]. pose proof (Hr _ _ Hi'). lia.
  - intros i j p [[<- <-]|[? Hi']]%lookup_insert_Some [[<- ?]|[? Hj']]%lookup_insert_Some; try done; subst.
    + pose proof (Hr _ _ Hj'). lia.
    + pose proof (Hr _ _ Hi'). lia.
    + by eapply Hi.
Qed.

Lemma rtc_locals_grow s s' : rtc locals s s' -> qidPaths s ⊆ qidPaths s'.
Proof. induction 1 as [|x y z Hxy _ IH]; [done|]. etrans; [by apply locals_grow|done]. Qed.

Lemma rtc_locals_paths s s' : rtc locals s s' -> Z.of_nat (size (qidPaths s')) < 2 ^ 64 - 1 -> Paths s -> Paths s'.
Proof.
  induction 1 as [|x y z Hxy Hyz IH]; [done|]. intros Hsz Hp. apply IH; [done|]. eapply locals_paths; [done| |done].
  pose proof (map_subseteq_size _ _ (rtc_locals_grow _ _ Hyz)). lia.
Qed.

(** QID paths name files.  For the lifetime of a root, whatever the
    goroutines do between, two QIDs have the same path exactly when they were
    made for the same device and inode (short of 2^64 files); and a path is
    never 0. *)
Theorem passthrough_qids s0 s1 s1' s2 s2' st1 st2 q1 q2 :
  fresh s0 -> rtc locals s0 s1 -> qidFor st1 s1 = (q1, s1') ->
  rtc locals s1' s2 -> qidFor st2 s2 = (q2, s2') ->
  Z.of_nat (size (qidPaths s2')) < 2 ^ 64 - 1 ->
  (QID.Path q1 = QID.Path q2 <-> identityOf st1 = identityOf st2) /\ 1 <= QID.Path q1 < 2 ^ 64.
Proof.
  intros [H0 Hn0] Hr1 Hq1 Hr2 Hq2 Hsz.
  assert (Hl : forall st s q s', qidFor st s = (q, s') -> locals s s') by (intros st s q s' Hq; exists _, (QidFor st); cbn; by rewrite Hq).
  destruct (qidFor_keeps _ _ _ _ Hq1) as [_ Hp1]. destruct (qidFor_keeps _ _ _ _ Hq2) as [Hsub Hp2].
  assert (Hp : Paths s2').
  { apply (rtc_locals_paths s0); [|done|split; rewrite ?H0, ?Hn0; [by rewrite map_size_empty|done|done]].
    etrans; [exact Hr1|]. eapply rtc_l; [by eapply Hl|]. eapply rtc_r; [done|by eapply Hl]. }
  assert (Hp1' : qidPaths s2' !! identityOf st1 = Some (QID.Path q1)).
  { eapply lookup_weaken; [exact Hp1|]. etrans; [by apply rtc_locals_grow|done]. }
  split; [split|].
  - intros E. rewrite E in Hp1'. by eapply (paths_inj _ Hp).
  - intros E. rewrite E, Hp2 in Hp1'. by injection Hp1'.
  - pose proof (paths_range _ Hp _ _ Hp1'). rewrite (paths_next _ Hp) in *. lia.
Qed.

(** Two files of one inode number on two devices. *)
Module Demo.
Definition st (dev ino : Z) : Stat_t := mkStat dev ino 0x8000 1 0 0 0 0 0 0 0 0 0 0 7 0.
Definition s0 : Shared := mkShared ∅ 1 ∅ 0.
Definition s1 : Shared := snd (qidFor (st 1 5) s0).
Definition s2 : Shared := snd (qidFor (st 2 5) s1).
Definition root : Root := mkRoot pair pair (mkIdentity 1 10) (mkConfig IdentityMapper false false true).
Definition dir : Node := mkNode 0 3 0 "" 1 10.
Definition sh : Shared := mkShared ∅ 1 {[0%nat := mkInode (QID.mk QTDIR 0 1) None ∅ 0 false true]} 1.
End Demo.

Lemma passthrough_qids_witness :
  QID.Path (fst (qidFor (Demo.st 1 5) Demo.s0)) <> QID.Path (fst (qidFor (Demo.st 2 5) Demo.s1)).
Proof.
  intros E. destruct (passthrough_qids Demo.s0 Demo.s0 Demo.s1 Demo.s1 Demo.s2 (Demo.st 1 5) (Demo.st 2 5)
    (fst (qidFor (Demo.st 1 5) Demo.s0)) (fst (qidFor (Demo.st 2 5) Demo.s1))) as [[Hp _] _].
  - by split.
  - apply rtc_refl.
  - reflexivity.
  - apply rtc_refl.
  - reflexivity.
  - by vm_compute.
  - by specialize (Hp E).
Defined.

Lemma passthrough_entries_witness :
  sometimes 3 Demo.sh {["a" := mkIdentity 1 11]} (Create Demo.root Demo.dir "a" 2 0x1b4 100)
    (fun H' r => r = Err (ErrnoError EPERM) /\ H' !! "a" = None).
Proof.
  destruct (passthrough_entries Demo.root Demo.dir "a" 100 {["a" := mkIdentity 1 11]}) as (_ & _ & _ & _ & H).
  by apply (H 2 0x1b4 (mkIdentity 1 11) Demo.sh).
Defined.
