(* ===== verification/PassListing.v ===== *)
(** * Listing a host directory

    [parseDirents] on what the kernel writes for [getdents64], and the pages
    that [dirHandle.RawReaddir] makes of it.  A directory of the host is its
    entries in the order of the stream, each with the cookie that continues
    after it. *)

From S2P Require Import Prelude GoIO Types Errno Proto Message Frame Dirents Inode HostSys Passthrough.
Open Scope Z_scope.

(** ** [struct linux_dirent64] *)

Record native : Type := mkNative { d_ino : Z; d_off : Z; d_type : Z; d_name : string; d_pad : bytes }.

Definition reclen (e : native) : nat := (20 + String.length (d_name e) + length (d_pad e))%nat.
Definition nativeBytes (e : native) : bytes :=
  le_bytes 8 (d_ino e) ++ le_bytes 8 (d_off e) ++ le_bytes 2 (Z.of_nat (reclen e)) ++ le_bytes 1 (d_type e) ++
  bytes_of_string (d_name e) ++ byte_of_Z 0 :: d_pad e.

Record native_wf (e : native) : Prop := {
  nat_ino : u64 (d_ino e);
  nat_off : 0 < d_off e < 2 ^ 63;
  nat_type : u8 (d_type e);
  nat_name : Forall (fun b => b <> byte_of_Z 0) (bytes_of_string (d_name e));
  nat_len : Z.of_nat (reclen e) < 2 ^ 16
}.

(** What the server makes of an entry: the QID path is the inode number. *)
Definition toDirent (e : native) : Dirent.t :=
  Dirent.mk (QID.mk (dtypeToQIDType (d_type e)) 0 (d_ino e)) (d_off e) (d_type e) (d_name e).
Definition visible (es : list native) : list Dirent.t := List.filter (fun d => negb (dotOrDotDot d)) (toDirent <$> es).

Lemma length_nativeBytes e : length (nativeBytes e) = reclen e.
Proof. unfold nativeBytes, reclen. rewrite !length_app, !length_le_bytes, length_bytes_of_string. cbn. lia. Qed.

Lemma cutNul_app bs tl : Forall (fun b => b <> byte_of_Z 0) bs -> cutNul (bs ++ byte_of_Z 0 :: tl) = bs.
Proof.
  induction 1 as [|b bs Hb _ IH]; cbn [cutNul app]; [by rewrite decide_True|]. rewrite decide_False by done. by rewrite IH.
Qed.

Lemma parseHead_native e tl : native_wf e -> parseHead (nativeBytes e ++ tl) = Some (toDirent e, reclen e).
Proof.
  intros [Hi Ho Ht Hn Hl]. set (data := nativeBytes e ++ tl).
  assert (Hlen : length data = (reclen e + length tl)%nat) by (unfold data; by rewrite length_app, length_nativeBytes).
  assert (Hr : (20 <= reclen e)%nat) by (unfold reclen; lia).
  assert (Hd : drop 0 data = nativeBytes e ++ tl) by done. unfold nativeBytes in Hd. rewrite <- !app_assoc in Hd.
  pose proof (drop_field_app _ _ _ _ _ Hd) as Hd8. pose proof (drop_field_app _ _ _ _ _ Hd8) as Hd16.
  pose proof (drop_field_app _ _ _ _ _ Hd16) as Hd18. pose proof (drop_field_app _ _ _ _ _ Hd18) as Hd19.
  cbn [Nat.add] in *. unfold parseHead. rewrite (proj2 (Nat.ltb_ge _ _)) by lia.
  rewrite (field_app _ _ _ _ _ _ Hd eq_refl Hi), (field_app _ _ _ _ _ _ Hd8 eq_refl) by (unfold is_uint in *; lia).
  rewrite (field_app _ _ _ _ _ _ Hd16 eq_refl) by (unfold is_uint in *; lia).
  rewrite (field_app _ _ _ _ _ _ Hd18 eq_refl Ht), Nat2Z.id.
  rewrite !(proj2 (Nat.ltb_ge _ _)) by lia. cbn [orb]. do 2 f_equal. rewrite Hd19.
  replace (reclen e - 19)%nat with (length (bytes_of_string (d_name e) ++ byte_of_Z 0 :: d_pad e)).
  2: { rewrite length_app, length_bytes_of_string. unfold reclen. cbn. lia. }
  rewrite app_assoc, take_app_length, cutNul_app, string_of_bytes_of_string by done. done.
Qed.

Lemma parseLoop_native es fuel : Forall native_wf es -> (length (concat (nativeBytes <$> es)) <= fuel)%nat ->
  parseLoop fuel (concat (nativeBytes <$> es)) = visible es.
Proof.
  intros Hes. revert fuel. induction Hes as [|e es He _ IH]; intros fuel Hf; cbn in *; [by destruct fuel|].
  rewrite length_app, length_nativeBytes in Hf. destruct fuel as [|fuel]; [unfold reclen in Hf; lia|]. cbn.
  rewrite parseHead_native by done. rewrite drop_app_length' by (by rewrite length_nativeBytes).
  rewrite IH by (unfold reclen in Hf; lia). unfold visible. cbn. by destruct (dotOrDotDot _).
Qed.

Lemma parseDirents_native es : Forall native_wf es -> parseDirents (concat (nativeBytes <$> es)) = visible es.
Proof. intros. by apply parseLoop_native. Qed.

(** ** The stream of a directory *)

Section Stream.
(** [chunk i]: how many entries a read at position [i] returns. *)
Context (es : list native) (chunk : nat -> nat).

Definition posOf (off : Z) : nat :=
  match list_find (fun e => d_off e = off) es with Some (j, _) => S j | None => 0 end.

Definition answer {B} (pos : nat) (c : call B) : option (B * nat) :=
  match c in call B return option (B * nat) with
  | Seek _ off _ => Some (Ok off, posOf off)
  | Getdents _ _ => Some (Ok (concat (nativeBytes <$> take (chunk pos) (drop pos es))), (pos + chunk pos)%nat)
  | _ => None
  end.

Fixpoint onStream {A} (pos : nat) (p : prog A) : option A :=
  match p with
  | Ret a => Some a
  | Loc _ _ => None
  | Sys c k => match answer pos c with Some (r, pos) => onStream pos (k r) | None => None end
  end.

(** The pages of a client: each starts after the last entry of the one
    before, and an empty one is the end. *)
Fixpoint listing (fuel : nat) (buf : bytes) (offset : Z) : option (list Dirent.t) :=
  match fuel with
  | O => None
  | S fuel =>
      match onStream 0 (DirHandle.RawReaddir 0 buf offset) with
      | Some (Ok (buf', n)) =>
          match ParseDirents (take n buf') with
          | (ds, None) =>
              match last ds with
              | None => Some []
              | Some d => rest ← listing fuel buf (Dirent.Offset d); Some (ds ++ rest)
              end
          | _ => None
          end
      | _ => None
      end
  end.

Context (Hwf : Forall native_wf es) (Hoffs : NoDup (d_off <$> es)) (Hnames : NoDup (d_name <$> es)).
Context (Hchunk : forall pos, (Nat.min 3 (length es - pos) <= chunk pos)%nat).

Lemma posOf_at j e : es !! j = Some e -> posOf (d_off e) = S j.
Proof.
  intros Hj. unfold posOf. destruct (list_find _ es) as [[j' e']|] eqn:E.
  - apply list_find_Some in E as (Hj' & Ho & _). f_equal.
    apply (NoDup_lookup _ _ _ (d_off e) Hoffs); rewrite list_lookup_fmap; [by rewrite Hj', <- Ho|by rewrite Hj].
  - apply list_find_None in E. rewrite Forall_lookup in E. by destruct (E j e Hj).
Qed.

Lemma posOf_start : posOf 0 = 0%nat.
Proof.
  unfold posOf. destruct (list_find _ es) as [[j' e']|] eqn:E; [|done].
  apply list_find_Some in E as (Hj' & Ho & _). rewrite Forall_lookup in Hwf. destruct (Hwf _ _ Hj'). lia.
Qed.

Lemma visible_app a b : visible (a ++ b) = visible a ++ visible b.
Proof. unfold visible. by rewrite fmap_app, List.filter_app. Qed.

(** The entry at which a page ends. *)
Lemma visible_split l ds more d : visible l = ds ++ more -> last ds = Some d ->
  exists l1 e l2, l = l1 ++ e :: l2 /\ toDirent e = d /\ visible (l1 ++ [e]) = ds.
Proof.
  revert ds. induction l as [|x l IH]; intros ds Hv Hl; [by destruct ds|].
  unfold visible in Hv. cbn in Hv. fold (visible l) in Hv. destruct (dotOrDotDot (toDirent x)) eqn:Ex; cbn in Hv.
  - destruct (IH ds Hv Hl) as (l1 & e & l2 & -> & He & Hv'). exists (x :: l1), e, l2. split_and!; [done|done|].
    unfold visible in *. cbn. by rewrite Ex.
  - destruct ds as [|d0 ds]; [done|]. injection Hv as <- Hv. destruct ds as [|d1 ds].
    + injection Hl as <-. exists [], x, l. split_and!; [done|done|]. unfold visible. cbn. by rewrite Ex.
    + destruct (IH (d1 :: ds) Hv Hl) as (l1 & e & l2 & -> & He & Hv'). exists (x :: l1), e, l2. split_and!; [done|done|].
      unfold visible in *. cbn. by rewrite Ex, Hv'.
Qed.

(** Three entries are not all [.] or [..]. *)
Lemma chunk_visible i : visible (drop i es) <> [] -> visible (take (chunk i) (drop i es)) <> [].
Proof.
  intros Hv. destruct (decide (length (drop i es) <= chunk i)%nat) as [Hle|Hgt]; [by rewrite take_ge|].
  specialize (Hchunk i). rewrite length_drop in Hgt.
  assert (Hnd : NoDup (d_name <$> drop i es)).
  { rewrite <- (take_drop i es), fmap_app in Hnames. by apply NoDup_app in Hnames as (_ & _ & ?). }
  assert (Hl : (3 <= length (drop i es))%nat) by (rewrite length_drop; lia).
  destruct (drop i es) as [|a [|b [|c l]]]; cbn in Hl; [lia..|]. destruct (chunk i) as [|[|[|k]]]; [lia..|].
  cbn [take]. unfold visible. cbn. cbn in Hnd. rewrite !NoDup_cons, !not_elem_of_cons in Hnd.
  unfold dotOrDotDot, toDirent. cbn.
  case_bool_decide as Ha; [|done]. cbn. case_bool_decide as Hb; [|done]. cbn. case_bool_decide as Hc; [|done].
  exfalso. clear -Hnd Ha Hb Hc. intuition congruence.
Qed.

Lemma toDirent_wf e : e ∈ es -> Dirent.wf (toDirent e).
Proof.
  intros He. rewrite Forall_forall in Hwf. destruct (Hwf e He) as [Hi Ho Ht _ Hl]. unfold Dirent.wf, QID.wf. cbn. split_and!; try done.
  - unfold dtypeToQIDType. repeat destruct (_ =? _); unfold is_uint, QTDIR, QTSYMLINK, QTFILE; lia.
  - unfold is_uint. lia.
  - unfold strlen, MaxStringLen. unfold reclen in Hl. lia.
Qed.

Lemma visible_wf l : (forall e, e ∈ l -> e ∈ es) -> Forall Dirent.wf (visible l).
Proof.
  intros Hl. apply Forall_forall. intros d Hd. apply list_elem_of_In, List.filter_In in Hd as [Hd _].
  apply list_elem_of_In, list_elem_of_fmap in Hd as (e & -> & He). by apply toDirent_wf, Hl.
Qed.

(** What fits is a prefix, and not empty if the first entry fits. *)
Lemma fitting_takes room ds : Forall Dirent.wf ds -> exists more, ds = fitting room ds ++ more.
Proof.
  intros Hds. revert room. induction Hds as [|d ds Hd _ IH]; intros room; [by exists []|]. cbn.
  rewrite decide_True by apply Hd. case_decide; [|by exists (d :: ds)]. destruct (IH (room - entrySize d)%nat) as [more E].
  exists more. cbn. by rewrite <- E.
Qed.

Lemma fitting_nonempty room ds : Forall Dirent.wf ds -> Forall (fun d => (entrySize d <= room)%nat) ds -> ds <> [] -> fitting room ds <> [].
Proof.
  intros Hds Hf Hne. destruct ds as [|d ds]; [done|]. inversion Hds; inversion Hf; subst. cbn.
  rewrite decide_True by (by apply H1). by rewrite decide_True.
Qed.

Lemma taken_elem k i e : e ∈ take k (drop i es) -> e ∈ es.
Proof.
  intros (j & Hj)%list_elem_of_lookup_1. apply lookup_take_Some in Hj as [Hj _]. rewrite lookup_drop in Hj. by eapply list_elem_of_lookup_2.
Qed.

Context (buf : bytes) (Hfit : Forall (fun e => (entrySize (toDirent e) <= length buf)%nat) es).

(** One page, as the client reads it. *)
Definition page (i : nat) : list Dirent.t := fitting (length buf) (visible (take (chunk i) (drop i es))).

Lemma page_ok off : 0 <= off < 2 ^ 63 -> exists buf' n, onStream 0 (DirHandle.RawReaddir 0 buf off) = Some (Ok (buf', n)) /\
  ParseDirents (take n buf') = (page (posOf off), None).
Proof.
  intros Ho. set (i := posOf off). set (l := take (chunk i) (drop i es)).
  assert (Hl : forall e, e ∈ l -> e ∈ es) by apply taken_elem.
  assert (Hlwf : Forall native_wf l) by (apply Forall_forall; intros e He; rewrite Forall_forall in Hwf; auto).
  assert (Hoff : int64 off = off).
  { unfold int_wrap. change (64 - 1) with 63. rewrite uint_wrap_id by (unfold is_uint; lia). lia. }
  unfold DirHandle.RawReaddir. rewrite (proj2 (Z.ltb_ge _ _)) by lia.
  cbn -[EncodeDirentsInto parseDirents page int_wrap]. rewrite Hoff. fold i l. rewrite parseDirents_native by done.
  destruct (encode_dirents_spec buf [] (visible l) 0) as (E & Hle & _); [cbn; lia|]. rewrite E. cbn.
  eexists _, _. split; [reflexivity|]. rewrite take_app_length. unfold ParseDirents.
  rewrite (parseLoop_ok _ _ _ _ (fitting (length buf) (visible l))); [done| |by rewrite drop_0|lia].
  apply fitting_Forall, visible_wf, Hl.
Qed.

Lemma listing_from fuel off : 0 <= off < 2 ^ 63 -> (length es - posOf off < fuel)%nat ->
  listing fuel buf off = Some (visible (drop (posOf off) es)).
Proof.
  revert off. induction fuel as [|fuel IH]; intros off Ho Hf; [lia|]. cbn [listing].
  destruct (page_ok off Ho) as (buf' & n & -> & ->). set (i := posOf off) in *.
  pose proof (taken_elem (chunk i) i) as Hin.
  pose proof (visible_wf _ Hin) as Hvwf. destruct (fitting_takes (length buf) _ Hvwf) as [more Hmore]. fold (page i) in Hmore.
  destruct (last (page i)) as [d|] eqn:El.
  - destruct (visible_split _ _ _ _ Hmore El) as (l1 & e & l2 & Hl & <- & Hpage).
    assert (Hdrop : drop i es = l1 ++ e :: (l2 ++ drop (chunk i) (drop i es))).
    { rewrite <- (take_drop (chunk i) (drop i es)) at 1. rewrite Hl, <- app_assoc. done. }
    assert (He : es !! (i + length l1)%nat = Some e) by (rewrite <- lookup_drop, Hdrop; by apply list_lookup_middle).
    pose proof (posOf_at _ _ He) as Hpos. pose proof (lookup_lt_Some _ _ _ He).
    assert (Hoe : 0 <= d_off e < 2 ^ 63) by (rewrite Forall_lookup in Hwf; destruct (Hwf _ _ He); lia).
    change (Dirent.Offset (toDirent e)) with (d_off e). rewrite IH, Hpos by lia. cbn.
    replace (S (i + length l1)) with (i + S (length l1))%nat by lia. rewrite <- drop_drop, Hdrop.
    set (tl := l2 ++ _). f_equal. rewrite (cons_middle e l1 tl), app_assoc, visible_app, Hpage. f_equal.
    by rewrite drop_app_length' by (rewrite length_app; cbn; lia).
  - apply last_None in El. destruct (decide (visible (drop i es) = [])) as [->|Hne]; [done|].
    apply chunk_visible in Hne. exfalso. apply (fitting_nonempty (length buf) _ Hvwf) in Hne; [by apply Hne|].
    apply Forall_forall. intros d Hd. apply list_elem_of_In, List.filter_In in Hd as [Hd _].
    apply list_elem_of_In, list_elem_of_fmap in Hd as (e & -> & He). rewrite Forall_forall in Hfit. auto.
Qed.
End Stream.

(** C40: a directory of the host is listed completely.  Whatever the kernel
    returns per call (all that is left, or at least three entries), a client
    that continues each page of [RawReaddir] at the cookie of the last entry
    gets every entry but [.] and [..], once, in order, and then the empty page,
    if each entry fits into a page.  Entries are as the kernel wrote them; the
    path of their QIDs is the inode number, not the path that [qidFor] gives
    the file. *)
Theorem passthrough_listing es chunk buf :
  Forall native_wf es -> NoDup (d_off <$> es) -> NoDup (d_name <$> es) ->
  (forall pos, (Nat.min 3 (length es - pos) <= chunk pos)%nat) ->
  Forall (fun e => (entrySize (toDirent e) <= length buf)%nat) es ->
  listing es chunk (S (length es)) buf 0 = Some (visible es) /\
  Forall (fun d => exists e, e ∈ es /\ d = toDirent e /\ QID.Path (Dirent.QID d) = d_ino e) (visible es).
Proof.
  intros Hwf Ho Hn Hc Hf. split.
  - rewrite (listing_from es chunk Hwf Ho Hn Hc buf Hf) by (rewrite ?(posOf_start es Hwf); lia). by rewrite (posOf_start es Hwf), drop_0.
  - apply Forall_forall. intros d Hd. apply list_elem_of_In, List.filter_In in Hd as [Hd _].
    apply list_elem_of_In, list_elem_of_fmap in Hd as (e & -> & He). eauto.
Qed.

(** Two pages of a directory of three files. *)
Module Demo.
Definition file (i : Z) (nm : string) : native := mkNative (100 + i) i 8 nm [byte_of_Z 0; byte_of_Z 7].
Definition dir : list native := [file 1 "."; file 2 "a"; file 3 ".."; file 4 "b"; file 5 "c"].
End Demo.

Lemma passthrough_listing_witness :
  listing Demo.dir (fun _ => 3%nat) 6 (replicate 60 (byte_of_Z 0)) 0 = Some (toDirent <$> [Demo.file 2 "a"; Demo.file 4 "b"; Demo.file 5 "c"]).
Proof.
  apply (passthrough_listing Demo.dir (fun _ => 3%nat) (replicate 60 (byte_of_Z 0))).
  - repeat constructor; by vm_compute.
  - by apply (bool_decide_unpack _); vm_compute.
  - by apply (bool_decide_unpack _); vm_compute.
  - intros pos. lia.
  - repeat constructor; vm_compute; lia.
Defined.
