(* ===== verification/Wire.v ===== *)
(** * Frames on a connection

    [internal/wire/wire.go] and the framing that both connections build on it:
    the size-checked read of one frame ([client/read_loop.go],
    [readFrameLocked] in [server/conn.go]) and the header, fixed part and
    payload that [writeT] ([client/write.go]) and [sendResponseInline]
    ([server/conn.go]) hand to one [writev].  The codec's own [EncodeFrame] and
    [DecodeFrame] are not on these paths; the lemmas show that what travels is
    the same [frame]. *)

From S2P Require Import Prelude GoIO Types Proto Messages P9l P9u Message Frame Codec.

(** ** [internal/wire] *)

Definition ReadSize : M Reader Z :=
  hdr ← ReadFull 4;
  let size := le_val hdr in
  if size <? HeaderSize
  then throw (Errorf "wire: frame size %d smaller than 9P header (%d)" [size; HeaderSize])
  else mret size.

Definition ReadBody (n : nat) : M Reader bytes := ReadFull n.

(** [net.Buffers.WriteTo]: buffer by buffer, up to the first error. *)
Fixpoint WriteTo (bufs : list bytes) : M Writer unit :=
  match bufs with
  | [] => mret tt
  | b :: bufs => Write b;; WriteTo bufs
  end.
Definition WriteFramesLocked (bufs : list bytes) : M Writer unit := wrapf "wire: writev: %w" (WriteTo bufs).

(** ** Reading a frame

    Size, policy, body: how both receive loops start.  The policy error is
    only logged. *)
Definition readFrameBytes (msize : Z) : M Reader (Z * bytes) :=
  size ← ReadSize;
  if msize <? size then throw (Errorf "message exceeds msize" [size; msize]) else
  b ← ReadBody (Z.to_nat (size - 4));
  mret (size, b).

(** The fields of the inner header, [b[0]], [b[1:3]], and the rest [b[3:]]. *)
Definition msgTypeOf (b : bytes) : MessageType := le_val (take 1 b).
Definition tagOf (b : bytes) : Tag := le_val (take 2 (drop 1 b)).

(** ** Writing a frame *)

(** [msg.(proto.Payloader)]: the fixed part and the payload. *)
Definition Payloader (msg : Message) : option (M Writer unit * bytes) :=
  match msg with
  | MTwrite m => Some (Twrite.EncodeFixed m, Twrite.Payload m)
  | MRread m => Some (Rread.EncodeFixed m, Rread.Payload m)
  | MRreaddir m => Some (Rreaddir.EncodeFixed m, Rreaddir.Payload m)
  | _ => None
  end.

(** The pooled body and the payload that is not copied. *)
Definition encodeParts (msg : Message) : result (bytes * bytes) :=
  match Payloader msg with
  | Some (fixed, payload) => match encode fixed with Ok b => Ok (b, payload) | Err e => Err e end
  | None => match encode (Message_EncodeTo msg) with Ok b => Ok (b, []) | Err e => Err e end
  end.

(** [uint32] additions. *)
Definition wireSize (body payload : bytes) : Z :=
  uint_wrap 32 (uint_wrap 32 (HeaderSize + uint_wrap 32 (Len body)) + uint_wrap 32 (Len payload)).

Definition encHdr (size : Z) (t : MessageType) (tag : Tag) : bytes := le_bytes 4 size ++ le_bytes 1 t ++ le_bytes 2 tag.
Definition encBufs (hdr body payload : bytes) : list bytes :=
  [hdr; body] ++ (if (0 <? length payload)%nat then [payload] else []).

(** ** What is read *)

Definition bytes_wf (msize : Z) (sb : Z * bytes) : Prop :=
  sb.1 = 4 + Len sb.2 /\ HeaderSize <= sb.1 /\ sb.1 <= msize /\ u32 sb.1.
Definition bytes_wire (sb : Z * bytes) : bytes := le_bytes 4 sb.1 ++ sb.2.

Lemma ReadSize_decoder : decoder ReadSize (fun n => HeaderSize <= n /\ u32 n) (le_bytes 4).
Proof.
  split.
  - intros n r rest [Hn Hu] Hav. unfold ReadSize.
    destruct (ReadFull_ok 4 r (le_bytes 4 n) rest Hav ltac:(by rewrite length_le_bytes)) as (r1 & E & T).
    exists r1. split; [|done]. rewrite (mbind_ok _ _ _ _ _ E), (le_val_le_bytes_id 4 32) by done.
    by rewrite (proj2 (Z.ltb_ge _ _)) by done.
  - intros r n r' (hdr & r1 & [Hl T]%ReadFull_Ok_inv & E)%mbind_Ok_inv.
    cbv zeta in E. destruct (Z.ltb_spec (le_val hdr) HeaderSize); [done|]. injection E as <- <-.
    pose proof (le_val_bound hdr) as Hb. rewrite Hl in Hb. split; [split; [done|exact Hb]|].
    by rewrite <- Hl, le_bytes_le_val.
Qed.

Lemma readFrameBytes_decoder msize : decoder (readFrameBytes msize) (bytes_wf msize) bytes_wire.
Proof.
  split.
  - intros [n b] r rest (Hn & Hh & Hm & Hu) Hav. unfold bytes_wire, Len in *. cbn [fst snd] in *. unfold readFrameBytes.
    eapply bind_complete; [apply ReadSize_decoder|done|exact Hav|]. intros r1 Hr1.
    rewrite (proj2 (Z.ltb_ge _ _)) by done.
    destruct (ReadFull_ok (Z.to_nat (n - 4)) r1 b rest Hr1 ltac:(lia)) as (r2 & E & T).
    exists r2. unfold ReadBody. by rewrite (mbind_ok _ _ _ _ _ E).
  - intros r [n b] r' E. unfold readFrameBytes in E.
    apply mbind_Ok_inv in E as (size & r1 & [[Hh Hu] T1]%(decoder_sound ReadSize_decoder) & E).
    destruct (Z.ltb_spec msize size); [done|].
    apply mbind_Ok_inv in E as (b' & r2 & [Hl T2]%ReadFull_Ok_inv & E). injection E as <- <- <-.
    unfold bytes_wf, bytes_wire, Len, HeaderSize in *. cbn [fst snd]. split; [|by eapply takes_app]. split; [lia|done].
Qed.

Definition inner (tm : Tag * Message) : bytes := le_bytes 1 (Message_Type tm.2) ++ le_bytes 2 tm.1 ++ Message_wire tm.2.

Lemma frame_inner tm : frame tm = bytes_wire (frame_size tm.2, inner tm).
Proof. done. Qed.

Lemma length_inner tm : Len (inner tm) = frame_size tm.2 - 4.
Proof. unfold inner, frame_size, HeaderSize, Len. cbn [body MessageCodec_Message]. rewrite !length_app, !length_le_bytes. lia. Qed.

Lemma frame_size_min m : HeaderSize <= frame_size m.
Proof. unfold frame_size. lia. Qed.

Lemma inner_bytes_wf msize tm :
  Message_wf tm.2 -> frame_size tm.2 <= msize -> bytes_wf msize (frame_size tm.2, inner tm).
Proof.
  intros Hwf%frame_size_bound Hm. unfold bytes_wf. cbn [fst snd]. rewrite length_inner.
  pose proof (frame_size_min tm.2). assert (MaxMessageSize < 2 ^ 32) by done. unfold is_uint, HeaderSize in *. lia.
Qed.

Lemma readFrameBytes_frame msize tm r rest :
  Message_wf tm.2 -> frame_size tm.2 <= msize -> avail r = frame tm ++ rest ->
  exists r', readFrameBytes msize r = (Ok (frame_size tm.2, inner tm), r') /\ avail r' = rest.
Proof.
  intros Hwf Hm Hav.
  destruct (decoder_complete (readFrameBytes_decoder msize) (frame_size tm.2, inner tm) r rest)
    as (r' & E & T); [by apply inner_bytes_wf|exact Hav|].
  exists r'. split; [done|]. by eapply takes_avail.
Qed.

Lemma msgTypeOf_inner tm : msgTypeOf (inner tm) = Message_Type tm.2.
Proof. unfold msgTypeOf, inner. rewrite take_field, (le_val_le_bytes_id 1 8) by (done || exact (Message_Type_range tm.2)). done. Qed.
Lemma tagOf_inner tm : u16 tm.1 -> tagOf (inner tm) = tm.1.
Proof. intros Ht. unfold tagOf, inner. by rewrite drop_field, take_field, (le_val_le_bytes_id 2 16) by done. Qed.
Lemma drop_inner tm : drop 3 (inner tm) = Message_wire tm.2.
Proof.
  unfold inner. change 3%nat with (1 + 2)%nat. by rewrite <- drop_drop, !drop_field.
Qed.

(** Decoding what follows the inner header, into a zero message of its type. *)
Lemma decode_inner m0 tm :
  Message_wf tm.2 -> Message_Type m0 = Message_Type tm.2 ->
  exists br, Message_DecodeFrom m0 (BytesReader (drop 3 (inner tm))) = (Ok tm.2, br).
Proof.
  intros Hwf Ht. rewrite drop_inner.
  destruct (decoder_complete (Message_decoder m0) tm.2 (BytesReader (Message_wire tm.2)) [])
    as (br & E & _); [by split|cbn; by rewrite app_nil_r|]. by exists br.
Qed.

Lemma decode_sound m0 b m br :
  Message_DecodeFrom m0 (BytesReader b) = (Ok m, br) ->
  Message_wf m /\ Message_Type m = Message_Type m0 /\ exists rest, b = Message_wire m ++ rest.
Proof. intros [[Hwf Ht] [_ Hav]]%(decoder_sound (Message_decoder m0)). eauto. Qed.

(** ** What is written *)

Lemma WriteTo_emits bufs : emits (WriteTo bufs) (concat bufs).
Proof. induction bufs as [|b bufs IH]; cbn; [apply ret_emits|]. by apply bind_emits; [apply Write_emits|]. Qed.

Lemma encodeParts_ok m : Message_encodable m -> exists b p, encodeParts m = Ok (b, p) /\ b ++ p = Message_wire m.
Proof.
  intros He. unfold encodeParts.
  destruct (Payloader m) as [[fixed p]|] eqn:E.
  - enough (exists b, emits fixed b /\ b ++ p = Message_wire m) as (b & Hb & Hw).
    { exists b, p. by rewrite (emits_encode _ _ Hb). }
    destruct m; try discriminate E; injection E as <- <-; cbn in He.
    + eexists. split; [by apply Rread.Rread_fixed_emits|done].
    + eexists. split; [by apply Twrite.Twrite_fixed_emits|]. symmetry. apply Twrite.wire_split.
    + eexists. split; [by apply Rreaddir.Rreaddir_fixed_emits|done].
  - exists (Message_wire m), []. rewrite app_nil_r.
    by rewrite (emits_encode _ _ (Message_emits m He)).
Qed.

Lemma refuses_encode e : refuses e -> exists err, encode e = Err err.
Proof. intros H. destruct (H (Buffer [])) as (err & w & E). exists err. unfold encode. by rewrite E. Qed.

Lemma encodeParts_err m : ~ Message_encodable m -> exists e, encodeParts m = Err e.
Proof.
  intros He. unfold encodeParts. destruct (Payloader m) as [[fixed p]|] eqn:E.
  - assert (refuses fixed) as [e ->]%refuses_encode; [|by eexists].
    destruct m; try discriminate E; injection E as <- <-; cbn in He;
      first [by apply data_count_refuses|by apply Twrite.Twrite_fixed_refuses].
  - destruct (refuses_encode _ (Message_refuses m He)) as [e E']. cbn in E'. rewrite E'. by eexists.
Qed.

Lemma wireSize_frame m b p : b ++ p = Message_wire m -> wireSize b p = uint_wrap 32 (frame_size m).
Proof.
  intros E. unfold wireSize, frame_size, Len, uint_wrap. cbn [body MessageCodec_Message]. rewrite <- E, length_app.
  rewrite Zplus_mod_idemp_l, Zplus_mod_idemp_r, <- Z.add_assoc, <- Zplus_mod_idemp_r, Zplus_mod_idemp_l, Zplus_mod_idemp_r.
  f_equal. lia.
Qed.

Lemma concat_encBufs hdr b p : concat (encBufs hdr b p) = hdr ++ b ++ p.
Proof. unfold encBufs. destruct p; cbn; by rewrite ?app_nil_r. Qed.

(** What goes to the connection is the frame. *)
Lemma encBufs_emits tag m b p :
  b ++ p = Message_wire m ->
  emits (WriteFramesLocked (encBufs (encHdr (wireSize b p) (Message_Type m) tag) b p)) (frame (tag, m)).
Proof.
  intros E. apply wrapf_emits.
  replace (frame (tag, m)) with (concat (encBufs (encHdr (wireSize b p) (Message_Type m) tag) b p)); [apply WriteTo_emits|].
  rewrite concat_encBufs, E, (wireSize_frame m b p E). unfold encHdr. rewrite (le_bytes_wrap 4 32) by done.
  rewrite <- !app_assoc. done.
Qed.

(** ** A network connection, both directions *)

Record Net : Type := mkNet { rd : Reader; wr : Writer }.

Definition reading {A} (m : M Reader A) : M Net A := fun s => let '(r, rd) := m (rd s) in (r, mkNet rd (wr s)).
Definition writing {A} (m : M Writer A) : M Net A := fun s => let '(r, wr) := m (wr s) in (r, mkNet (rd s) wr).
Definition ofResult {S A} (r : result A) : M S A := fun s => (r, s).

(** A step that reads [bs] off what is to come. *)
Lemma reading_ok {A} (m : M Reader A) wf wire (v : A) s rest :
  decoder m wf wire -> wf v -> avail (rd s) = wire v ++ rest ->
  exists s', reading m s = (Ok v, s') /\ avail (rd s') = rest /\ wr s' = wr s.
Proof.
  intros Hd Hv Hav. destruct (decoder_complete Hd v (rd s) rest Hv Hav) as (r' & E & T).
  exists (mkNet r' (wr s)). unfold reading. rewrite E. split; [done|]. split; [|done]. by eapply takes_avail.
Qed.

Lemma writing_ok e bs s out : emits e bs -> wr s = Conn out None ->
  writing e s = (Ok tt, mkNet (rd s) (Conn (out ++ bs) None)).
Proof. intros He Hw. unfold writing. specialize (He (wr s)). rewrite Hw in *. cbn in He. by rewrite He. Qed.

Lemma ReadFull_decoder_n n : decoder (ReadFull n) (fun bs => length bs = n) id.
Proof.
  split.
  - intros bs r rest Hl Hav. by apply ReadFull_ok with (rest := rest).
  - intros r bs r' [Hl T]%ReadFull_Ok_inv. done.
Qed.
