(* ===== verification/ClientWire.v ===== *)
(** * The client's side of the wire

    [client/read_loop.go]: one frame from the connection to the in-flight map,
    with the zero-copy path that puts the payload of an [Rread] into the
    caller's buffer, and the loop; [client/write.go]: one request onto the
    connection.  The frame is a value here; the pool its buffer comes from is
    in [Bufpool].

    The theorems: whatever the server sends, the loop ends, hands out only
    well-formed responses of the dialect and stays inside the buffers it was
    given; and it hands out exactly what a server that keeps to the protocol
    sent. *)

From S2P Require Import Prelude GoIO Types Proto Messages P9l P9u Message Frame Codec Wire ClientConn.

Inductive protocol : Type := protocolNone | protocolL | protocolU.
#[export] Instance protocol_eq_dec : EqDecision protocol.
Proof. solve_decision. Defined.

(** ** The message table

    In the order of the source; the dialect a type is gated on. *)
Definition rCases : list (MessageType * (option protocol * Message)) :=
  let any m := (None, m) in
  let onL m := (Some protocolL, m) in
  let onU m := (Some protocolU, m) in
  [ (TypeRversion, any (MRversion Rversion.zero)); (TypeRattach, any (MRattach Rattach.zero));
    (TypeRwalk, any (MRwalk Rwalk.zero)); (TypeRread, any (MRread Rread.zero));
    (TypeRwrite, any (MRwrite Rwrite.zero)); (TypeRclunk, any (MRclunk Rclunk.zero));
    (TypeRremove, any (MRremove Rremove.zero)); (TypeRflush, any (MRflush Rflush.zero));
    (TypeRlerror, any (MRlerror Rlerror.zero));
    (TypeRlopen, onL (MRlopen Rlopen.zero)); (TypeRlcreate, onL (MRlcreate Rlcreate.zero));
    (TypeRopen, onU (MRopen Ropen.zero)); (TypeRcreate, onU (MRcreate Rcreate.zero));
    (TypeRerror, any (MRerror Rerror.zero)); (TypeRreaddir, onL (MRreaddir Rreaddir.zero));
    (TypeRgetattr, onL (MRgetattr Rgetattr.zero)); (TypeRsetattr, onL (MRsetattr Rsetattr.zero));
    (TypeRstatfs, onL (MRstatfs Rstatfs.zero)); (TypeRsymlink, onL (MRsymlink Rsymlink.zero));
    (TypeRreadlink, onL (MRreadlink Rreadlink.zero)); (TypeRlock, onL (MRlock Rlock.zero));
    (TypeRgetlock, onL (MRgetlock Rgetlock.zero)); (TypeRxattrwalk, onL (MRxattrwalk Rxattrwalk.zero));
    (TypeRxattrcreate, onL (MRxattrcreate Rxattrcreate.zero)); (TypeRlink, onL (MRlink Rlink.zero));
    (TypeRmknod, onL (MRmknod Rmknod.zero)); (TypeRmkdir, onL (MRmkdir Rmkdir.zero));
    (TypeRfsync, onL (MRfsync Rfsync.zero)); (TypeRrename, onL (MRrename Rrename.zero));
    (TypeRrenameat, onL (MRrenameat Rrenameat.zero)); (TypeRunlinkat, onL (MRunlinkat Runlinkat.zero));
    (TypeRstat, onU (MRstat Rstat.zero)); (TypeRwstat, onU (MRwstat Rwstat.zero)) ].

Definition newRMessage (dialect : protocol) (t : MessageType) : result Message :=
  match assoc t rCases with
  | Some (None, m) => Ok m
  | Some (Some want, m) => if decide (dialect = want) then Ok m else Err (Errorf "client: unknown R-message type" [])
  | None => Err (Errorf "client: unknown R-message type" [])
  end.

(** ** The connection *)

(** What arrives on a response channel. *)
Inductive RMsg : Type := rreadSentinelOK | Decoded (m : Message).

Record conn : Type := mkConn {
  dialect : protocol;
  msize : Z;
  inflight : inflightMap RMsg;
  closed : bool;
  nc : Writer
}.
Definition setInflight (im : inflightMap RMsg) (c : conn) : conn := mkConn (dialect c) (msize c) im (closed c) (nc c).
Definition setNc (w : Writer) (c : conn) : conn := mkConn (dialect c) (msize c) (inflight c) (closed c) w.

(** Only the first call does anything ([closeOnce]). *)
Definition signalShutdown (c : conn) : conn :=
  if closed c then c else mkConn (dialect c) (msize c) (cancelAll (inflight c)) true (nc c).

(** ** The read loop *)

(** The entry of a zero-copy read and the caller's buffer. *)
Definition zcEntry (tag : Tag) (im : inflightMap RMsg) : option (Addr * bytes) :=
  match entries im !! tag with
  | None => None
  | Some a =>
      match heap im !! a with
      | None => None
      | Some e => match dst e with Some d => Some (a, d) | None => None end
      end
  end.

(** [copy(entry.dst[:count], data)], [entry.n = count] and the send. *)
Definition deliverZC (a : Addr) (d data : bytes) : inflightMap RMsg -> inflightMap RMsg :=
  at_ a (fun e => send rreadSentinelOK (mkEntry (ch e) (chClosed e) (Some (data ++ drop (length data) d)) (Len data))).

Definition receiveRread (b : bytes) (a : Addr) (d : bytes) (im : inflightMap RMsg) : result (inflightMap RMsg) :=
  if (length b <? 7)%nat then Err (Errorf "client: Rread body too short" []) else
  let count := le_val (take 4 (drop 3 b)) in
  if MaxDataSize <? count then Err (Errorf "client: Rread count exceeds MaxDataSize" [count]) else
  if uint_wrap 32 (Len d) <? count then Err (Errorf "client: Rread count > dst" [count]) else
  if Len b - 7 <? count then Err (Errorf "client: Rread count exceeds body" [count]) else
  Ok (deliverZC a d (take (Z.to_nat count) (drop 7 b)) im).

(** The check before decoding a payload prefixed with its count. *)
Definition countFits (b : bytes) : bool :=
  (7 <=? length b)%nat && (le_val (take 4 (drop 3 b)) <=? Len b - 7).

Definition receive (c : conn) (b : bytes) : result (inflightMap RMsg) :=
  let im := inflight c in
  if (length b <? 3)%nat then Err (Errorf "client: frame body smaller than inner header" [Len b]) else
  let msgType := msgTypeOf b in
  let tag := tagOf b in
  match (if msgType =? TypeRread then zcEntry tag im else None) with
  | Some (a, d) => receiveRread b a d im
  | None =>
      if ((msgType =? TypeRread) || (msgType =? TypeRreaddir)) && negb (countFits b)
      then Err (Errorf "client: count exceeds body" [])
      else
        match newRMessage (dialect c) msgType with
        | Err e => Err e
        | Ok rmsg =>
            match Message_DecodeFrom rmsg (BytesReader (drop 3 b)) with
            | (Err e, _) => Err e
            | (Ok rmsg, _) => Ok (deliver tag (Decoded rmsg) im)
            end
        end
  end.

Definition readFrame (c : conn) : M Reader (inflightMap RMsg) := fun r =>
  match readFrameBytes (msize c) r with
  | (Ok (_, b), r) => (receive c b, r)
  | (Err e, r) => (Err e, r)
  end.

(** Any error shuts the connection down. *)
Fixpoint readLoop (fuel : nat) (c : conn) (r : Reader) : option conn :=
  match fuel with
  | O => None
  | S fuel =>
      match readFrame c r with
      | (Ok im, r) => readLoop fuel (setInflight im c) r
      | (Err _, _) => Some (signalShutdown c)
      end
  end.

(** ** Writing a request

    The second look at [closed], under the write lock, sees what the first
    did. *)
Definition writeT (tag : Tag) (msg : Message) : M conn Z := fun c =>
  let t := Message_Type msg in
  if closed c then (Err (Wrapf "client: writeT: %w" [] ErrClosed), c) else
  match encodeParts msg with
  | Err e => (Err (Wrapf "client: encode %s: %w" [t] e), c)
  | Ok (body, payload) =>
      let size := wireSize body payload in
      if msize c <? size then (Err (Errorf "client: frame size %d exceeds negotiated msize %d" [size; msize c]), c) else
      match WriteFramesLocked (encBufs (encHdr size t tag) body payload) (nc c) with
      | (Ok _, w) => (Ok size, setNc w c)
      | (Err e, w) => (Err (Wrapf "client: write %s: %w" [t] e), signalShutdown (setNc w c))
      end
  end.

(** ** The loop ends *)

Lemma newRMessage_ok d t m : newRMessage d t = Ok m -> Message_Type m = t.
Proof.
  unfold newRMessage. destruct (assoc t rCases) as [[g m']|] eqn:E; [|done].
  apply (assoc_Forall (fun t v => Message_Type v.2 =? t)) in E; [|done]. apply Z.eqb_eq in E. cbn in E.
  destruct g as [want|]; [case_decide; [|done]|]; intros [= <-]; done.
Qed.

Lemma readFrame_advances c r im r' :
  readFrame c r = (Ok im, r') ->
  exists b, receive c b = Ok im /\ (length (avail r') < length (avail r))%nat.
Proof.
  unfold readFrame. destruct (readFrameBytes (msize c) r) as [[[n b]|e] r1] eqn:E; [|done]. intros [= Hb ->].
  exists b. split; [done|]. apply (decoder_sound (readFrameBytes_decoder (msize c))) in E as [_ [_ ->]].
  unfold bytes_wire. rewrite !length_app, length_le_bytes. lia.
Qed.

Lemma readLoop_ends fuel c r :
  (length (avail r) < fuel)%nat -> exists c1, readLoop fuel c r = Some (signalShutdown c1).
Proof.
  revert c r. induction fuel as [|fuel IH]; intros c r Hf; [lia|]. cbn.
  destruct (readFrame c r) as [[im|e] r1] eqn:E; [|by exists c].
  apply readFrame_advances in E as (b & _ & Hl). apply IH. lia.
Qed.

(** ** Whatever the server sends *)

(** What one entry can become: no response is taken back or replaced, what is
    handed out is a well-formed response of the dialect, and a caller's buffer
    keeps its length. *)
Record grown (d : protocol) (e e' : requestEntry RMsg) : Prop := {
  grown_closed : chClosed e = true -> chClosed e' = true;
  grown_ch : ch e' = ch e \/ (ch e = None /\
    match ch e' with
    | Some (Decoded m) =>
        Message_wf m /\ (exists m0, newRMessage d (Message_Type m) = Ok m0) /\ (dst e <> None -> Message_Type m <> TypeRread)
    | Some rreadSentinelOK => dst e <> None
    | None => False
    end);
  grown_dst : length <$> dst e' = length <$> dst e;
  grown_n : 0 <= n e <= from_option Len 0 (dst e) -> 0 <= n e' <= from_option Len 0 (dst e')
}.
Definition grows (d : protocol) (im im' : inflightMap RMsg) : Prop :=
  forall a e, heap im !! a = Some e -> exists e', heap im' !! a = Some e' /\ grown d e e'.

Lemma grown_refl d e : grown d e e.
Proof. split; auto. Qed.
Lemma grown_trans d e1 e2 e3 : grown d e1 e2 -> grown d e2 e3 -> grown d e1 e3.
Proof.
  intros [Hc1 Hr1 Hd1 Hn1] [Hc2 Hr2 Hd2 Hn2]. split; [auto| |congruence|auto]. clear Hn1 Hn2.
  assert (dst e1 <> None <-> dst e2 <> None) as Hiff by (destruct (dst e1), (dst e2); naive_solver).
  destruct Hr2 as [E2|[E2 H2]]; [by rewrite E2|]. destruct Hr1 as [E1|[E1 H1]]; [|by rewrite E2 in H1].
  right. split; [congruence|]. destruct (ch e3) as [[|m]|]; naive_solver.
Qed.
Lemma grows_refl d im : grows d im im.
Proof. intros a e He. exists e. split; [done|apply grown_refl]. Qed.
Lemma grows_trans d im1 im2 im3 : grows d im1 im2 -> grows d im2 im3 -> grows d im1 im3.
Proof.
  intros H1 H2 a e He. destruct (H1 a e He) as (e' & He' & G1). destruct (H2 a e' He') as (e'' & He'' & G2).
  exists e''. split; [done|by eapply grown_trans].
Qed.
Lemma grows_at d im a f : (forall e, heap im !! a = Some e -> grown d e (f e)) -> grows d im (at_ a f im).
Proof.
  intros Hf b e He. cbn. destruct (decide (b = a)) as [->|].
  - rewrite lookup_alter_eq, He. eexists. split; [done|by apply Hf].
  - rewrite lookup_alter_ne by done. exists e. split; [done|apply grown_refl].
Qed.

Lemma grows_cancelAll d (im : inflightMap RMsg) : grows d im (cancelAll im).
Proof.
  unfold cancelAll, grows. cbn. induction (map_to_list (entries im)).*2 as [|x xs IH]; cbn; intros a e He.
  - exists e. split; [done|apply grown_refl].
  - destruct (IH a e He) as (e' & He' & G). destruct (decide (x = a)) as [->|]; [|rewrite lookup_alter_ne by done; eauto].
    rewrite lookup_alter_eq, He'. eexists. split; [done|]. eapply grown_trans; [exact G|]. by split; auto.
Qed.

Lemma zcEntry_Some tag im a d :
  zcEntry tag im = Some (a, d) -> entries im !! tag = Some a /\ exists e, heap im !! a = Some e /\ dst e = Some d.
Proof.
  unfold zcEntry. destruct (entries im !! tag) as [x|]; [|done].
  destruct (heap im !! x) as [e|] eqn:E; [|done]. destruct (dst e) eqn:Ed; [|done]. intros [= -> ->]. eauto.
Qed.

(** A decoded message goes to an entry without a buffer, or is no [Rread]. *)
Lemma grows_deliver d tag m im m0 :
  Message_wf m -> newRMessage d (Message_Type m) = Ok m0 ->
  (Message_Type m = TypeRread -> zcEntry tag im = None) ->
  grows d im (deliver tag (Decoded m) im).
Proof.
  intros Hwf Hm Hzc. unfold deliver. destruct (entries im !! tag) as [a|] eqn:Ea; [|apply grows_refl].
  apply grows_at. intros e He. unfold send. destruct (ch e) eqn:Ec; [apply grown_refl|].
  split; cbn; auto. right. split; [done|]. split_and!; [done|by eexists|].
  intros Hd Ht. apply Hzc in Ht. unfold zcEntry in Ht. rewrite Ea, He in Ht. by destruct (dst e).
Qed.

Lemma grows_deliverZC d tag a dst0 data im :
  zcEntry tag im = Some (a, dst0) -> (length data <= length dst0)%nat -> grows d im (deliverZC a dst0 data im).
Proof.
  intros (_ & e0 & He0 & Hd)%zcEntry_Some Hl. apply grows_at. intros e He.
  assert (e = e0) as -> by congruence. clear He0.
  assert (length (data ++ drop (length data) dst0) = length dst0) as Hlen by (rewrite length_app, length_drop; lia).
  unfold send. cbn [ch]. destruct (ch e0) eqn:Ec; split; cbn [ch chClosed dst n]; rewrite ?Ec, ?Hd; auto; cbn;
    rewrite ?Hlen; try done; intros _; unfold Len; rewrite Hlen; lia.
Qed.

Lemma receive_grows c b im : receive c b = Ok im -> grows (dialect c) (inflight c) im.
Proof.
  unfold receive. destruct (length b <? 3)%nat; [done|]. cbv zeta.
  destruct (if msgTypeOf b =? TypeRread then zcEntry (tagOf b) (inflight c) else None) as [[a d]|] eqn:Ez.
  - destruct (msgTypeOf b =? TypeRread); [|done]. unfold receiveRread.
    destruct (length b <? 7)%nat; [done|]. cbv zeta. set (count := le_val _).
    destruct (MaxDataSize <? count); [done|]. destruct (Z.ltb_spec (uint_wrap 32 (Len d)) count); [done|].
    destruct (Len b - 7 <? count); [done|]. intros [= <-]. eapply grows_deliverZC; [exact Ez|].
    rewrite length_take. unfold uint_wrap, Len in *.
    pose proof (Z.mod_le (Z.of_nat (length d)) (2 ^ 32)). lia.
  - destruct (_ && _); [done|]. destruct (newRMessage _ _) as [m0|] eqn:Em; [|done].
    destruct (Message_DecodeFrom m0 _) as [[m|] br] eqn:Ed; [|done]. intros [= <-].
    apply decode_sound in Ed as (Hwf & Ht & _). pose proof (newRMessage_ok _ _ _ Em) as Ht0.
    eapply grows_deliver; [done|by rewrite Ht, Ht0|]. rewrite Ht, Ht0. intros E. by rewrite (proj2 (Z.eqb_eq _ _) E) in Ez.
Qed.

Lemma readLoop_grows fuel c r c' :
  closed c = false -> readLoop fuel c r = Some c' ->
  closed c' = true /\ entries (inflight c') = ∅ /\ grows (dialect c) (inflight c) (inflight c').
Proof.
  revert c r. induction fuel as [|fuel IH]; intros c r Hc; cbn; [done|].
  destruct (readFrame c r) as [[im|e] r1] eqn:E.
  - intros (Hcl & Hen & G)%IH; [|done]. split; [done|]. split; [done|].
    apply readFrame_advances in E as (b & Hb%receive_grows & _). by eapply grows_trans.
  - intros [= <-]. unfold signalShutdown. rewrite Hc. cbn. split; [done|]. split; [done|]. apply grows_cancelAll.
Qed.

(** C22: the read loop against any server.  Whatever bytes arrive, in whatever
    segmentation, the loop ends, with the connection shut down and no request
    registered.  A response that was handed out is neither taken back nor
    replaced; what is handed out is a well-formed response the dialect allows,
    and to a zero-copy read only the notice that its buffer was filled or a
    message that is no [Rread]; a caller's buffer keeps its length and the
    reported count stays within it. *)
Theorem read_loop_safe c r fuel :
  closed c = false -> (length (avail r) < fuel)%nat ->
  exists c', readLoop fuel c r = Some c' /\ closed c' = true /\ entries (inflight c') = ∅ /\
    forall a e, heap (inflight c) !! a = Some e -> exists e', heap (inflight c') !! a = Some e' /\ grown (dialect c) e e'.
Proof.
  intros Hc Hf. destruct (readLoop_ends fuel c r Hf) as [c1 E]. exists (signalShutdown c1). split; [done|].
  by apply (readLoop_grows fuel c r).
Qed.

(** ** What a server that keeps to the protocol sends *)

(** A response reaches its caller. *)
Definition handOver (tm : Tag * Message) (im : inflightMap RMsg) : inflightMap RMsg :=
  match tm.2, zcEntry tm.1 im with
  | MRread m, Some (a, d) => deliverZC a d (Rread.Data m) im
  | m, _ => deliver tm.1 (Decoded m) im
  end.

(** A response of the dialect within the msize, whose data the caller has
    room for. *)
Definition acceptable (d : protocol) (msize : Z) (im : inflightMap RMsg) (tm : Tag * Message) : Prop :=
  u16 tm.1 /\ Message_wf tm.2 /\ frame_size tm.2 <= msize /\ (exists m0, newRMessage d (Message_Type tm.2) = Ok m0) /\
  match tm.2, zcEntry tm.1 im with
  | MRread m, Some (_, dst) => (length (Rread.Data m) <= length dst)%nat /\ u32 (Len dst)
  | _, _ => True
  end.

Lemma count_inner tag (data : bytes) w m :
  Message_wire m = wire_data data ++ w -> data_ok data ->
  le_val (take 4 (drop 3 (inner (tag, m)))) = Len data /\ take (length data) (drop 7 (inner (tag, m))) = data.
Proof.
  intros Hw Hd. change 7%nat with (3 + 4)%nat. rewrite <- drop_drop, drop_inner. cbn [snd].
  rewrite Hw. unfold wire_data. rewrite <- app_assoc, take_field, drop_field, take_app_length. split; [|done].
  apply (le_val_le_bytes_id 4 32); [|done]. unfold data_ok in Hd. assert (MaxDataSize < 2 ^ 32) by done. unfold is_uint, Len. lia.
Qed.

Lemma length_inner_data tag data m :
  Message_wire m = wire_data data -> length (inner (tag, m)) = (7 + length data)%nat.
Proof. intros E. unfold inner. cbn [fst snd]. rewrite E. unfold wire_data. rewrite !length_app, !length_le_bytes. lia. Qed.

Lemma receiveRread_ok tag m a d im :
  Rread.wf m -> (length (Rread.Data m) <= length d)%nat -> u32 (Len d) ->
  receiveRread (inner (tag, MRread m)) a d im = Ok (deliverZC a d (Rread.Data m) im).
Proof.
  intros Hwf Hl Hd. pose proof (count_inner tag (Rread.Data m) [] (MRread m)) as [Hc Ht];
    [cbn; by rewrite app_nil_r|exact Hwf|].
  unfold receiveRread. unfold Len at 2. rewrite (length_inner_data tag (Rread.Data m)) by done. rewrite Hc, uint_wrap_id by done.
  rewrite (proj2 (Nat.ltb_ge _ _)) by lia. unfold Rread.wf, Rread.encodable, data_ok, Len in *.
  rewrite !(proj2 (Z.ltb_ge _ _)) by lia. cbv zeta. by rewrite Nat2Z.id, Ht.
Qed.

Lemma countFits_inner tag m :
  Message_wf m -> Message_Type m = TypeRread \/ Message_Type m = TypeRreaddir -> countFits (inner (tag, m)) = true.
Proof.
  intros Hwf Ht. assert (exists data, Message_wire m = wire_data data /\ data_ok data) as (data & E & Hd).
  { destruct m; destruct Ht as [Ht|Ht]; try discriminate Ht; eexists; (split; [reflexivity|]); exact Hwf. }
  unfold countFits. destruct (count_inner tag data [] m) as [-> _]; [by rewrite app_nil_r|done|].
  unfold Len. rewrite (length_inner_data tag data m E). apply andb_true_iff. rewrite Nat.leb_le, Z.leb_le. lia.
Qed.

Lemma receive_ok c tm :
  acceptable (dialect c) (msize c) (inflight c) tm -> receive c (inner tm) = Ok (handOver tm (inflight c)).
Proof.
  destruct tm as [tag m]. intros (Hu & Hwf & _ & [m0 Hm0] & Hz). cbn [fst snd] in *.
  assert (3 <= length (inner (tag, m)))%nat by (unfold inner; rewrite !length_app, !length_le_bytes; lia).
  unfold receive. rewrite (proj2 (Nat.ltb_ge _ _)) by done. cbv zeta.
  rewrite msgTypeOf_inner, tagOf_inner by done. cbn [fst snd].
  destruct (if Message_Type m =? TypeRread then zcEntry tag (inflight c) else None) as [[a d]|] eqn:Ez.
  - destruct (Z.eqb_spec (Message_Type m) TypeRread) as [Ht|]; [|done].
    destruct m; try discriminate Ht. unfold handOver in *. cbn [fst snd] in *. rewrite Ez in *.
    destruct Hz. by apply receiveRread_ok.
  - replace (_ && _) with false.
    2: { symmetry. apply andb_false_iff. destruct (Z.eqb_spec (Message_Type m) TypeRread);
         destruct (Z.eqb_spec (Message_Type m) TypeRreaddir); cbn; auto; right; by rewrite countFits_inner by auto. }
    rewrite Hm0. destruct (decode_inner m0 (tag, m)) as [br E]; [done|by apply newRMessage_ok in Hm0|].
    rewrite E. unfold handOver. cbn [fst snd]. destruct m; try done.
    cbn in Ez. change (TypeRread =? TypeRread) with true in Ez. by rewrite Ez.
Qed.

Lemma readFrame_ok c tm r rest :
  acceptable (dialect c) (msize c) (inflight c) tm -> avail r = frame tm ++ rest ->
  exists r', readFrame c r = (Ok (handOver tm (inflight c)), r') /\ avail r' = rest.
Proof.
  intros Ha Hav. pose proof Ha as (_ & Hwf & Hs & _).
  destruct (readFrameBytes_frame (msize c) tm r rest Hwf Hs Hav) as (r' & E & Hr). exists r'.
  unfold readFrame. rewrite E. by rewrite receive_ok.
Qed.

(** The entries stay, so a response is acceptable when it was at the start. *)
Lemma entries_handOver tm im : entries (handOver tm im) = entries im.
Proof.
  unfold handOver, deliver. destruct tm as [tag []]; cbn [fst snd]; try (by destruct (entries im !! tag)).
  destruct (zcEntry tag im) as [[]|]; [done|]. by destruct (entries im !! tag).
Qed.

(** Other callers see nothing of it. *)
Lemma heap_handOver_ne tm im a :
  entries im !! tm.1 <> Some a -> heap (handOver tm im) !! a = heap im !! a.
Proof.
  intros Hne. assert (forall m, heap (deliver tm.1 (Decoded m) im) !! a = heap im !! a) as Hd.
  { intros m. unfold deliver. destruct (entries im !! tm.1) as [b|] eqn:E; [|done]. cbn.
    rewrite lookup_alter_ne; [done|]. congruence. }
  unfold handOver. destruct tm as [tag []]; cbn [fst snd] in *; try apply Hd.
  destruct (zcEntry tag im) as [[b d]|] eqn:E; [|apply Hd]. apply zcEntry_Some in E as [E _].
  cbn. rewrite lookup_alter_ne; [done|]. congruence.
Qed.

(** What the caller's entry is afterwards. *)
Definition answered (tm : Tag * Message) (e : requestEntry RMsg) : requestEntry RMsg :=
  match tm.2, dst e with
  | MRread m, Some d =>
      mkEntry (Some rreadSentinelOK) (chClosed e) (Some (Rread.Data m ++ drop (length (Rread.Data m)) d)) (Len (Rread.Data m))
  | m, _ => mkEntry (Some (Decoded m)) (chClosed e) (dst e) (n e)
  end.

Lemma heap_handOver tm im a e :
  entries im !! tm.1 = Some a -> heap im !! a = Some e -> ch e = None ->
  heap (handOver tm im) !! a = Some (answered tm e).
Proof.
  intros Ea He Hch. assert (forall m, heap (deliver tm.1 (Decoded m) im) !! a = Some (mkEntry (Some (Decoded m)) (chClosed e) (dst e) (n e))) as Hd.
  { intros m. unfold deliver. rewrite Ea. cbn. rewrite lookup_alter_eq, He. cbn. unfold send. by rewrite Hch. }
  unfold handOver, answered, zcEntry. destruct tm as [tag []]; cbn [fst snd] in *; try apply Hd.
  rewrite Ea, He. destruct (dst e) as [d|] eqn:Ed; [|apply Hd].
  cbn. rewrite lookup_alter_eq, He. cbn. unfold send. by rewrite Hch.
Qed.

(** What makes a response acceptable is in the entry it answers. *)
Lemma acceptable_other d msize im tm tm' :
  entries im !! tm.1 <> entries im !! tm'.1 -> acceptable d msize im tm' -> acceptable d msize (handOver tm im) tm'.
Proof.
  intros Hne (Hu & Hwf & Hs & Hm & Hz). split_and!; try done.
  replace (zcEntry tm'.1 (handOver tm im)) with (zcEntry tm'.1 im); [done|]. unfold zcEntry. rewrite entries_handOver.
  destruct (entries im !! tm'.1) as [a|]; [|done]. by rewrite heap_handOver_ne.
Qed.

(** Requests that wait for an answer, each with an entry of its own. *)
Definition outstanding (im : inflightMap RMsg) (tags : list Tag) : Prop :=
  NoDup ((fun t => entries im !! t) <$> tags) /\
  forall t, t ∈ tags -> exists a e, entries im !! t = Some a /\ heap im !! a = Some e /\ ch e = None.

Definition handOverAll (tms : list (Tag * Message)) (im : inflightMap RMsg) : inflightMap RMsg :=
  foldl (fun im tm => handOver tm im) im tms.

Lemma outstanding_other tm tags im :
  outstanding im (tm.1 :: tags) -> outstanding (handOver tm im) tags /\ (forall t, t ∈ tags -> entries im !! tm.1 <> entries im !! t).
Proof.
  intros [[Hn Hd]%NoDup_cons Ho]. assert (forall t, t ∈ tags -> entries im !! tm.1 <> entries im !! t) as Hne.
  { intros t Ht E. apply Hn. rewrite E. by apply (list_elem_of_fmap_2 (fun t => entries im !! t)). }
  split; [|done]. unfold outstanding. rewrite entries_handOver. split; [done|].
  intros t Ht. destruct (Ho t) as (a & e & Ea & He & Hc); [by right|]. exists a, e. split; [done|]. split; [|done].
  rewrite heap_handOver_ne; [done|]. intros E. apply (Hne t Ht). congruence.
Qed.

(** The read loop on the frames of the responses. *)
Lemma readLoop_delivers tms c r rest fuel :
  outstanding (inflight c) tms.*1 -> Forall (acceptable (dialect c) (msize c) (inflight c)) tms ->
  avail r = wire_list frame tms ++ rest ->
  exists r', avail r' = rest /\ readLoop (length tms + fuel) c r = readLoop fuel (setInflight (handOverAll tms (inflight c)) c) r'.
Proof.
  revert c r. induction tms as [|tm tms IH]; intros c r Ho Hf Hav; cbn [length Nat.add handOverAll foldl].
  - exists r. split; [done|]. by destruct c.
  - apply Forall_cons in Hf as [Ha Hf]. unfold wire_list in Hav. cbn [map concat] in Hav. rewrite <- app_assoc in Hav.
    destruct (readFrame_ok c tm r _ Ha Hav) as (r1 & E & Hr1). cbn [readLoop]. rewrite E.
    apply outstanding_other in Ho as [Ho Hne].
    destruct (IH (setInflight (handOver tm (inflight c)) c) r1) as (r' & Hr' & El); [done| |exact Hr1|by exists r'].
    rewrite Forall_forall in Hf |- *. intros tm' Hin. apply acceptable_other; [|by apply Hf].
    apply Hne. by apply list_elem_of_fmap_2.
Qed.

Lemma handOverAll_entry tms im tm a e :
  outstanding im tms.*1 -> tm ∈ tms -> entries im !! tm.1 = Some a -> heap im !! a = Some e ->
  heap (handOverAll tms im) !! a = Some (answered tm e).
Proof.
  revert im. induction tms as [|tm1 tms IH]; intros im Ho Hin Ea He; [by apply not_elem_of_nil in Hin|].
  cbn [handOverAll foldl]. pose proof Ho as [_ Hc]. apply outstanding_other in Ho as [Ho Hne].
  apply elem_of_cons in Hin as [<-|Hin].
  - destruct (Hc tm.1) as (a' & e1 & Ea' & He' & Hch); [by left|]. simplify_eq.
    enough (forall im', (forall t, t ∈ tms.*1 -> entries im' !! t <> Some a) ->
      heap (foldl (fun im tm => handOver tm im) im' tms) !! a = heap im' !! a) as Hrest.
    { rewrite Hrest; [by apply heap_handOver|]. intros t Ht. rewrite entries_handOver, <- Ea. by apply not_eq_sym, Hne. }
    clear. induction tms as [|tm1 tms IH]; intros im' Hn; [done|]. cbn. rewrite IH.
    + apply heap_handOver_ne, Hn. by left.
    + intros t Ht. rewrite entries_handOver. apply Hn. by right.
  - apply IH; [done|done|by rewrite entries_handOver|]. rewrite heap_handOver_ne; [done|].
    rewrite <- Ea. apply Hne. by apply list_elem_of_fmap_2.
Qed.

Lemma cancelAll_lookup (im : inflightMap RMsg) a e :
  heap im !! a = Some e -> exists b, heap (cancelAll im) !! a = Some (mkEntry (ch e) b (dst e) (n e)).
Proof.
  unfold cancelAll. cbn. intros He. induction (map_to_list (entries im)).*2 as [|x xs [b IH]]; cbn.
  - exists (chClosed e). rewrite He. by destruct e.
  - destruct (decide (x = a)) as [->|]; [|rewrite lookup_alter_ne by done; eauto].
    rewrite lookup_alter_eq, IH. by eexists.
Qed.

Lemma readFrame_at_end c r : avail r = [] -> exists e r', readFrame c r = (Err e, r').
Proof.
  intros Hr. destruct (readFrame c r) as [[im|e] r'] eqn:E; [|eauto].
  apply readFrame_advances in E as (_ & _ & Hl). rewrite Hr in Hl. cbn in Hl. lia.
Qed.

(** When the connection then ends: every caller has the answer to its own
    request, if it was sent. *)
Lemma readLoop_answers tms c r fuel :
  closed c = false -> outstanding (inflight c) tms.*1 -> Forall (acceptable (dialect c) (msize c) (inflight c)) tms ->
  avail r = wire_list frame tms -> (length tms < fuel)%nat ->
  exists c', readLoop fuel c r = Some c' /\
    forall tm a e, tm ∈ tms -> entries (inflight c) !! tm.1 = Some a -> heap (inflight c) !! a = Some e ->
      exists b, heap (inflight c') !! a =
        Some (mkEntry (ch (answered tm e)) b (dst (answered tm e)) (n (answered tm e))).
Proof.
  intros Hc Ho Hf Hav Hfuel. rewrite <- (app_nil_r (wire_list frame tms)) in Hav.
  destruct (readLoop_delivers tms c r [] (fuel - length tms) Ho Hf Hav) as (r' & Hr' & E).
  replace (length tms + (fuel - length tms))%nat with fuel in E by lia. rewrite E.
  destruct (fuel - length tms)%nat as [|k] eqn:Ek; [lia|]. cbn [readLoop].
  destruct (readFrame_at_end (setInflight (handOverAll tms (inflight c)) c) r' Hr') as (err & r2 & ->).
  eexists. split; [done|]. intros tm a e Hin Ea He. unfold signalShutdown. cbn. rewrite Hc. cbn.
  apply cancelAll_lookup. by apply handOverAll_entry.
Qed.

(** ** Requests *)

(** A request within the msize goes out as its frame, any other not at all. *)
Lemma writeT_ok c tag m :
  closed c = false -> Message_wf m -> frame_size m <= msize c -> fits (nc c) (frame (tag, m)) = true ->
  writeT tag m c = (Ok (frame_size m), setNc (push (nc c) (frame (tag, m))) c).
Proof.
  intros Hc Hwf Hs Hfit. unfold writeT. rewrite Hc.
  destruct (encodeParts_ok m (Message_wf_encodable m Hwf)) as (b & p & E & Hbp). rewrite E. cbv zeta.
  pose proof (encBufs_emits tag m b p Hbp (nc c)) as He. rewrite Hfit in He. rewrite He.
  pose proof (frame_size_bound m Hwf). pose proof (frame_size_min m). assert (MaxMessageSize < 2 ^ 32) by done.
  rewrite (wireSize_frame m b p Hbp), uint_wrap_id by (unfold is_uint, HeaderSize in *; lia).
  by rewrite (proj2 (Z.ltb_ge _ _)) by done.
Qed.

Lemma writeT_too_large c tag m :
  closed c = false -> Message_wf m -> msize c < frame_size m -> exists e, writeT tag m c = (Err e, c).
Proof.
  intros Hc Hwf Hs. unfold writeT. rewrite Hc.
  destruct (encodeParts_ok m (Message_wf_encodable m Hwf)) as (b & p & E & Hbp). rewrite E. cbv zeta.
  pose proof (frame_size_bound m Hwf). pose proof (frame_size_min m). assert (MaxMessageSize < 2 ^ 32) by done.
  rewrite (wireSize_frame m b p Hbp), uint_wrap_id by (unfold is_uint, HeaderSize in *; lia).
  rewrite (proj2 (Z.ltb_lt _ _)) by done. by eexists.
Qed.

(** A server that answers a zero-copy read of four bytes with eight. *)
Lemma read_loop_safe_witness :
  let im := (registerZC 1 (repeat (byte_of_Z 0) 4) newInflightMap).2 in
  let c := mkConn protocolL 256 im false (Conn [] None) in
  let r := BytesReader (frame (1, MRread (Rread.mk (repeat (byte_of_Z 7) 8)))) in
  exists c' e', readLoop 20 c r = Some c' /\ closed c' = true /\ heap (inflight c') !! 0%nat = Some e' /\
    length <$> dst e' = Some 4%nat.
Proof.
  intros im c r. destruct (read_loop_safe c r 20) as (c' & E & Hcl & _ & Hg); [done|apply Nat.ltb_lt; by vm_compute|].
  destruct (Hg 0%nat (mkEntry None false (Some (repeat (byte_of_Z 0) 4)) 0)) as (e' & He & [_ _ Hd _]); [done|].
  exists c', e'. split; [done|]. split; [done|]. split; [done|]. by rewrite Hd.
Defined.
