(* ===== verification/ClientClose.v ===== *)
(** * Closing a client connection

    [beginCall], [endCall], [closeAdmission] ([client/conn.go]),
    [signalShutdown] ([client/read_loop.go]) and [Close], [Shutdown] and
    [shutdown] ([client/close.go]), with any number of callers and closers.
    [sync.Once] is explicit: one actor runs its body step by step, the others
    wait.  When the drain timer fires, when a call returns and when the read
    loop fails on its own are open. *)

From S2P Require Import Prelude.

(** [time.Duration], in nanoseconds. *)
Definition cleanupDeadline : Z := 5 * 10 ^ 9.
(** [Shutdown]: the drain window from the context's deadline. *)
Definition shutdownTimeout (deadline : option Z) (now : Z) : Z :=
  match deadline with
  | Some t => let d := t - now in if 0 <? d then d else 0
  | None => cleanupDeadline
  end.

(** Who calls [signalShutdown], and what it does next. *)
Inductive caller : Type := FromCall | FromReader | FromClose.

Inductive actor : Type :=
  | ABegin                              (* a call, before beginCall *)
  | ACall                               (* admitted *)
  | AEnd                                (* before endCall *)
  | ARefused                            (* ErrClosed *)
  | AReading                            (* readLoop *)
  | AReaderEnd                          (* defer c.readerWG.Done() *)
  | ASignal (k : caller)                (* at closeOnce.Do *)
  | AOnce (k : caller) (pc : nat)       (* in the function it runs *)
  | ADrain                              (* the select of shutdown *)
  | AReap (clean : bool)                (* readerWG.Wait() *)
  | AClosed (clean : bool).             (* shutdown has returned *)

Inductive onceState : Type := ONew | ORunning | OFinished.

Record Conn : Type := mkConn {
  closing : bool;
  closeCh : bool;            (* closed *)
  ncClosed : bool;
  cancelled : bool;          (* inflight.cancelAll has run *)
  closeOnce : onceState;
  callerWG : nat;
  readerWG : nat;
  actors : gmap nat actor
}.

Definition setActors (a : gmap nat actor) (c : Conn) : Conn :=
  mkConn (closing c) (closeCh c) (ncClosed c) (cancelled c) (closeOnce c) (callerWG c) (readerWG c) a.
Definition goto (g : nat) (p : actor) (c : Conn) : Conn := setActors (<[g := p]> (actors c)) c.
Definition setCallers (n : nat) (c : Conn) : Conn :=
  mkConn (closing c) (closeCh c) (ncClosed c) (cancelled c) (closeOnce c) n (readerWG c) (actors c).
Definition setReaders (n : nat) (c : Conn) : Conn :=
  mkConn (closing c) (closeCh c) (ncClosed c) (cancelled c) (closeOnce c) (callerWG c) n (actors c).
Definition setOnce (o : onceState) (c : Conn) : Conn :=
  mkConn (closing c) (closeCh c) (ncClosed c) (cancelled c) o (callerWG c) (readerWG c) (actors c).

(** Under [admissionMu]. *)
Definition beginCall (c : Conn) : bool * Conn :=
  if closing c then (false, c) else (true, setCallers (S (callerWG c)) c).
Definition endCall (c : Conn) : Conn := setCallers (pred (callerWG c)) c.
Definition closeAdmission (c : Conn) : Conn :=
  mkConn true (closeCh c) (ncClosed c) (cancelled c) (closeOnce c) (callerWG c) (readerWG c) (actors c).

(** The function [signalShutdown] gives to [closeOnce.Do]. *)
Definition signalShutdown (pc : nat) (c : Conn) : Conn :=
  match pc with
  | 0%nat => closeAdmission c
  | 1%nat => mkConn (closing c) true (ncClosed c) (cancelled c) (closeOnce c) (callerWG c) (readerWG c) (actors c)
  | 2%nat => mkConn (closing c) (closeCh c) true (cancelled c) (closeOnce c) (callerWG c) (readerWG c) (actors c)
  | _ => mkConn (closing c) (closeCh c) (ncClosed c) true (closeOnce c) (callerWG c) (readerWG c) (actors c)
  end.
Definition onceSteps : nat := 4.
Definition after (k : caller) : actor :=
  match k with FromCall => ACall | FromReader => AReaderEnd | FromClose => ADrain end.

(** [true]: what an actor does by itself; [false]: a new call or closer, what
    a call does, and a read loop that fails on what the server sends. *)
Inductive step : bool -> Conn -> Conn -> Prop :=
  | s_call g c : actors c !! g = None -> step false c (goto g ABegin c)
  | s_close g c : actors c !! g = None -> step false c (goto g (ASignal FromClose) c)
  | s_begin g c : actors c !! g = Some ABegin ->
      step true c (let '(ok, c') := beginCall c in goto g (if ok then ACall else ARefused) c')
  | s_return g c : actors c !! g = Some ACall -> step false c (goto g AEnd c)
  | s_abort g c : actors c !! g = Some ACall -> step false c (goto g (ASignal FromCall) c)
  | s_end g c : actors c !! g = Some AEnd -> step true c (setActors (delete g (actors c)) (endCall c))
  | s_readFail g c : actors c !! g = Some AReading -> step (ncClosed c) c (goto g (ASignal FromReader) c)
  | s_readEnd g c : actors c !! g = Some AReaderEnd ->
      step true c (setActors (delete g (actors c)) (setReaders (pred (readerWG c)) c))
  | s_first g k c : actors c !! g = Some (ASignal k) -> closeOnce c = ONew ->
      step true c (goto g (AOnce k 0) (setOnce ORunning c))
  | s_later g k c : actors c !! g = Some (ASignal k) -> closeOnce c = OFinished -> step true c (goto g (after k) c)
  | s_once g k pc c : actors c !! g = Some (AOnce k pc) -> (pc < onceSteps)%nat ->
      step true c (goto g (AOnce k (S pc)) (signalShutdown pc c))
  | s_onceEnd g k c : actors c !! g = Some (AOnce k onceSteps) -> step true c (goto g (after k) (setOnce OFinished c))
  | s_drained g c : actors c !! g = Some ADrain -> callerWG c = 0%nat -> step true c (goto g (AReap true) c)
  (* the drain timer, or the context of Shutdown *)
  | s_timeout g c : actors c !! g = Some ADrain -> step true c (goto g (AReap false) c)
  | s_reaped g b c : actors c !! g = Some (AReap b) -> readerWG c = 0%nat -> step true c (goto g (AClosed b) c).

(** After [Dial]: the read loop runs. *)
Definition dialed : Conn := mkConn false false false false ONew 0 1 {[0%nat := AReading]}.
Definition reachable : Conn -> Prop := Reachable dialed (fun c c' => exists own, step own c c').

(** ** The invariant *)

Definition admitted (p : actor) : nat :=
  match p with ACall | AEnd | ASignal FromCall | AOnce FromCall _ => 1 | _ => 0 end.
Definition reader (p : actor) : nat :=
  match p with AReading | AReaderEnd | ASignal FromReader | AOnce FromReader _ => 1 | _ => 0 end.
Definition inOnce (p : actor) : nat := match p with AOnce _ _ => 1 | _ => 0 end.
Definition running (c : Conn) : nat := match closeOnce c with ORunning => 1 | _ => 0 end.
(** Past [signalShutdown]. *)
Definition late (p : actor) : bool :=
  match p with AReaderEnd | ADrain | AReap _ | AClosed _ => true | _ => false end.
Definition clean (p : actor) : bool := match p with AReap true | AClosed true => true | _ => false end.
Definition closed (p : actor) : bool := match p with AClosed _ => true | _ => false end.
(** The first [n] operations of [signalShutdown] are done. *)
Definition signalled (n : nat) (c : Conn) : Prop :=
  ((1 <= n)%nat -> closing c = true) /\ ((2 <= n)%nat -> closeCh c = true) /\
  ((3 <= n)%nat -> ncClosed c = true) /\ ((4 <= n)%nat -> cancelled c = true).

Record Inv (c : Conn) : Prop := {
  v_callers : callerWG c = weigh admitted (actors c);
  v_readers : readerWG c = weigh reader (actors c);
  v_running : weigh inOnce (actors c) = running c;
  v_pc g k pc : actors c !! g = Some (AOnce k pc) -> (pc <= onceSteps)%nat /\ signalled pc c;
  v_finished : closeOnce c = OFinished -> signalled onceSteps c;
  v_late g p : actors c !! g = Some p -> late p = true -> closeOnce c = OFinished;
  v_clean g p : actors c !! g = Some p -> clean p = true -> callerWG c = 0%nat;
  v_closed g p : actors c !! g = Some p -> closed p = true -> readerWG c = 0%nat
}.

Definition upd (g : nat) (o : option actor) (m : gmap nat actor) : gmap nat actor :=
  match o with Some p => <[g := p]> m | None => delete g m end.
Definition ow (w : actor -> nat) (o : option actor) : nat := match o with Some p => w p | None => 0 end.

Lemma weigh_upd w g o' m : (weigh w (upd g o' m) + ow w (m !! g) = weigh w m + ow w o')%nat.
Proof.
  destruct (m !! g) as [p|] eqn:E; destruct o' as [p'|]; cbn.
  - by apply weigh_move.
  - pose proof (weigh_delete w g p m E). lia.
  - rewrite weigh_insert by done. lia.
  - by rewrite delete_id.
Qed.
Lemma upd_lookup g o' m h q : upd g o' m !! h = Some q -> (h = g /\ o' = Some q) \/ (h <> g /\ m !! h = Some q).
Proof.
  destruct o' as [p'|]; cbn.
  - intros [[<- <-]|[Hn Hq]]%lookup_insert_Some; [by left|by right].
  - intros [Hn Hq]%lookup_delete_Some. by right.
Qed.

Section Move.
Context (c c' : Conn) (g : nat) (o' : option actor) (Hi : Inv c) (Ha : actors c' = upd g o' (actors c)).
Context (Hcallers : (callerWG c' + ow admitted (actors c !! g) = callerWG c + ow admitted o')%nat).
Context (Hreaders : (readerWG c' + ow reader (actors c !! g) = readerWG c + ow reader o')%nat).
Context (Honce : (running c' + ow inOnce (actors c !! g) = running c + ow inOnce o')%nat).
Context (Hmono : forall n, signalled n c -> signalled n c').
Context (Hpc : forall k pc, o' = Some (AOnce k pc) -> (pc <= onceSteps)%nat /\ signalled pc c').
Context (Hkeep : closeOnce c = OFinished -> closeOnce c' = OFinished).
Context (Hfin : closeOnce c' = OFinished -> signalled onceSteps c').
Context (Hlate : forall p, o' = Some p -> late p = true -> closeOnce c' = OFinished).
Context (Hclean : forall p, o' = Some p -> clean p = true -> callerWG c' = 0%nat).
Context (Hclosed : forall p, o' = Some p -> closed p = true -> readerWG c' = 0%nat).
Context (Hcut : closing c = true -> (callerWG c' <= callerWG c)%nat) (Hrd : (readerWG c' <= readerWG c)%nat).

Lemma clean_late p : clean p = true -> late p = true.
Proof. by destruct p. Qed.

Lemma inv_moved : Inv c'.
Proof.
  pose proof Hi as [Vc Vr Vo Vp Vf Vl Vcl Vcd]. split; rewrite ?Ha.
  - pose proof (weigh_upd admitted g o' (actors c)). lia.
  - pose proof (weigh_upd reader g o' (actors c)). lia.
  - pose proof (weigh_upd inOnce g o' (actors c)). lia.
  - intros h k pc [[-> Hh]|[Hn Hh]]%upd_lookup; [by apply (Hpc k)|]. destruct (Vp h k pc Hh). auto.
  - done.
  - intros h p [[-> Hh]|[Hn Hh]]%upd_lookup Hp; [by apply (Hlate p)|]. apply Hkeep. by apply (Vl h p).
  - intros h p [[-> Hh]|[Hn Hh]]%upd_lookup Hp; [by apply (Hclean p)|]. pose proof (Vcl h p Hh Hp) as H0.
    pose proof (Vf (Vl h p Hh (clean_late p Hp))) as (Hcl & _). specialize (Hcl ltac:(unfold onceSteps; lia)). specialize (Hcut Hcl). lia.
  - intros h p [[-> Hh]|[Hn Hh]]%upd_lookup Hp; [by apply (Hclosed p)|]. pose proof (Vcd h p Hh Hp). lia.
Qed.
End Move.

Lemma once_running c g k pc : Inv c -> actors c !! g = Some (AOnce k pc) -> closeOnce c = ORunning.
Proof.
  intros Hi Hg. pose proof (weigh_le inOnce g _ _ Hg) as Hw. rewrite (v_running _ Hi) in Hw. unfold running in Hw. cbn in Hw.
  by destruct (closeOnce c); [lia| |lia].
Qed.
Lemma signalled_next pc c : (pc < onceSteps)%nat -> signalled pc c -> signalled (S pc) (signalShutdown pc c).
Proof.
  intros Hpc (H1 & H2 & H3 & H4). unfold onceSteps in Hpc. unfold signalled.
  destruct pc as [|[|[|[|pc]]]]; cbn; split_and!; intros; try lia; auto with lia.
Qed.
Lemma signalled_mono n pc c : signalled n c -> signalled n (signalShutdown pc c).
Proof. intros (H1 & H2 & H3 & H4). unfold signalled. destruct pc as [|[|[|pc]]]; cbn; split_and!; intros; auto. Qed.

Ltac settle Hi Hg :=
  rewrite ?Hg; cbn; intros; simplify_eq; cbn in *;
  first [done | lia | congruence | by apply (v_finished _ Hi) | by eapply (v_late _ Hi); [exact Hg|] | by split; [lia|]; unfold signalled; split_and!; lia].

Lemma close_inv_step own c c' : Inv c -> step own c c' -> Inv c'.
Proof.
  intros Hi Hst. destruct Hst as [g c Hg|g c Hg|g c Hg|g c Hg|g c Hg|g c Hg|g c Hg|g c Hg|g k c Hg Ho|g k c Hg Ho|g k pc c Hg Hlt
    |g k c Hg|g c Hg Hn|g c Hg|g b c Hg Hn].
  - eapply (inv_moved c _ g (Some ABegin) Hi); [done|..]; settle Hi Hg.
  - eapply (inv_moved c _ g (Some (ASignal FromClose)) Hi); [done|..]; settle Hi Hg.
  - unfold beginCall. destruct (closing c) eqn:Ec.
    + eapply (inv_moved c _ g (Some ARefused) Hi); [done|..]; settle Hi Hg.
    + eapply (inv_moved c _ g (Some ACall) Hi); [done|..]; settle Hi Hg.
  - eapply (inv_moved c _ g (Some AEnd) Hi); [done|..]; settle Hi Hg.
  - eapply (inv_moved c _ g (Some (ASignal FromCall)) Hi); [done|..]; settle Hi Hg.
  - pose proof (weigh_le admitted g _ _ Hg) as Hw. rewrite <- (v_callers _ Hi) in Hw.
    eapply (inv_moved c _ g None Hi); [done|..]; settle Hi Hg.
  - eapply (inv_moved c _ g (Some (ASignal FromReader)) Hi); [done|..]; settle Hi Hg.
  - pose proof (weigh_le reader g _ _ Hg) as Hw. rewrite <- (v_readers _ Hi) in Hw.
    eapply (inv_moved c _ g None Hi); [done|..]; settle Hi Hg.
  - eapply (inv_moved c _ g (Some (AOnce k 0)) Hi); [done|..]; unfold running; rewrite ?Ho; settle Hi Hg.
  - eapply (inv_moved c _ g (Some (after k)) Hi); [done|..]; destruct k; settle Hi Hg.
  - pose proof (once_running c g k pc Hi Hg) as Ho. pose proof (v_pc _ Hi g k pc Hg) as [_ Hs].
    assert (Hsame : closeOnce (signalShutdown pc c) = ORunning /\ callerWG (signalShutdown pc c) = callerWG c /\
      readerWG (signalShutdown pc c) = readerWG c /\ actors (signalShutdown pc c) = actors c) by (destruct pc as [|[|[|pc]]]; cbn; auto).
    destruct Hsame as (So & Sc & Sr & Sa).
    eapply (inv_moved c _ g (Some (AOnce k (S pc))) Hi); cbn; unfold running; cbn; rewrite ?So, ?Ho, ?Sc, ?Sr, ?Sa, ?Hg;
      try solve [settle Hi Hg].
    + intros n. apply signalled_mono.
    + intros k' pc' [= <- <-]. split; [unfold onceSteps in *; lia|by apply signalled_next].
  - pose proof (once_running c g k _ Hi Hg) as Ho. pose proof (v_pc _ Hi g k _ Hg) as [_ Hs].
    eapply (inv_moved c _ g (Some (after k)) Hi); [done|..]; unfold running; rewrite ?Ho; destruct k; settle Hi Hg.
  - eapply (inv_moved c _ g (Some (AReap true)) Hi); [done|..]; settle Hi Hg.
  - eapply (inv_moved c _ g (Some (AReap false)) Hi); [done|..]; settle Hi Hg.
  - eapply (inv_moved c _ g (Some (AClosed b)) Hi); [done|..]; destruct b; try solve [settle Hi Hg].
    intros p [= <-] _. by apply (v_clean _ Hi g _ Hg).
Qed.

Lemma close_inv_reach c : reachable c -> Inv c.
Proof.
  unfold reachable. induction 1 as [|c c' _ IH [own Hst]]; [|by apply (close_inv_step own c)].
  split; cbn; rewrite ?weigh_singleton; try done; intros * [<- Hp]%lookup_singleton_Some; try discriminate Hp; by rewrite <- Hp.
Qed.

(** ** Progress *)

(** Steps left before an actor waits for the server or is through. *)
Definition rank (p : actor) : nat :=
  match p with
  | ABegin => 3 | ACall => 2 | AEnd => 1 | ARefused => 0 | AReading => 12 | AReaderEnd => 3
  | ASignal _ => 11 | AOnce _ pc => 4 + (onceSteps + 1 - pc) | ADrain => 3 | AReap _ => 2 | AClosed _ => 0
  end.

Lemma own_decreases c c' : Inv c -> step true c c' -> (weigh rank (actors c') < weigh rank (actors c))%nat.
Proof.
  intros Hi. remember true as own eqn:Eo. intros Hst.
  assert (HW : forall g p o', actors c !! g = Some p -> actors c' = upd g o' (actors c) -> (ow rank o' < rank p)%nat ->
    (weigh rank (actors c') < weigh rank (actors c))%nat).
  { intros g p o' Hg Ha Hlt. rewrite Ha. pose proof (weigh_upd rank g o' (actors c)) as H. rewrite Hg in H. cbn in H. lia. }
  destruct Hst as [g c Hg|g c Hg|g c Hg|g c Hg|g c Hg|g c Hg|g c Hg|g c Hg|g k c Hg Ho|g k c Hg Ho|g k pc c Hg Hlt
    |g k c Hg|g c Hg Hn|g c Hg|g b c Hg Hn]; try discriminate Eo.
  - unfold beginCall in *. destruct (closing c); [eapply (HW g _ (Some ARefused))|eapply (HW g _ (Some ACall))]; try done; cbn; lia.
  - eapply (HW g _ None); [done..|cbn; lia].
  - eapply (HW g _ (Some (ASignal FromReader))); [done..|cbn; lia].
  - eapply (HW g _ None); [done..|cbn; lia].
  - eapply (HW g _ (Some (AOnce k 0))); [done..|cbn; lia].
  - eapply (HW g _ (Some (after k))); [done..|destruct k; cbn; lia].
  - eapply (HW g _ (Some (AOnce k (S pc)))); [done| |cbn; unfold onceSteps in *; lia]. by destruct pc as [|[|[|pc]]].
  - eapply (HW g _ (Some (after k))); [done..|destruct k; cbn; lia].
  - eapply (HW g _ (Some (AReap true))); [done..|cbn; lia].
  - eapply (HW g _ (Some (AReap false))); [done..|cbn; lia].
  - eapply (HW g _ (Some (AClosed b))); [done..|cbn; lia].
Qed.

Lemma signal_moves c g k : Inv c -> actors c !! g = Some (ASignal k) -> exists c', step true c c'.
Proof.
  intros Hi Hg. destruct (closeOnce c) eqn:Eo; [eexists; by eapply (s_first g)| |eexists; by eapply (s_later g)].
  destruct (weigh_some inOnce (actors c)) as (h & p & Hh & Hp); [rewrite (v_running _ Hi); unfold running; rewrite Eo; lia|].
  destruct p as [| | | | | | |k' pc| | |]; cbn in Hp; try lia. pose proof (v_pc _ Hi h k' pc Hh) as [Hle _].
  destruct (decide (pc = onceSteps)) as [->|]; [eexists; by eapply s_onceEnd|eexists; eapply (s_once h); [done|lia]].
Qed.
Lemma once_moves c g k pc : Inv c -> actors c !! g = Some (AOnce k pc) -> exists c', step true c c'.
Proof.
  intros Hi Hg. pose proof (v_pc _ Hi g k pc Hg) as [Hle _].
  destruct (decide (pc = onceSteps)) as [->|]; [eexists; by eapply s_onceEnd|eexists; eapply (s_once g); [done|lia]].
Qed.
(** Once the connection is closed the read loop goes on to its end. *)
Lemma reader_moves c g p : Inv c -> actors c !! g = Some p -> reader p <> 0%nat -> ncClosed c = true -> exists c', step true c c'.
Proof.
  intros Hi Hg Hp Hnc. destruct p as [| | | | | |[| |]|[| |] pc| | |]; cbn in Hp; try lia.
  - eexists. rewrite <- Hnc. by eapply (s_readFail g).
  - eexists. by eapply (s_readEnd g).
  - by eapply signal_moves.
  - by eapply once_moves.
Qed.

(** Where an actor waits for the server, the client or nobody. *)
Definition settled (c : Conn) (p : actor) : bool :=
  match p with ACall | ARefused | AClosed _ => true | AReading => negb (ncClosed c) | _ => false end.

Lemma unsettled_moves c g p : Inv c -> actors c !! g = Some p -> settled c p = false -> exists c', step true c c'.
Proof.
  intros Hi Hg Hs. destruct p as [| | | | | |k|k pc| |b|b]; try discriminate Hs.
  - eexists. by eapply (s_begin g).
  - eexists. by eapply (s_end g).
  - cbn in Hs. apply (reader_moves c g AReading); [done..|]. by destruct (ncClosed c).
  - eexists. by eapply (s_readEnd g).
  - by eapply signal_moves.
  - by eapply once_moves.
  - eexists. by eapply (s_timeout g).
  - destruct (decide (readerWG c = 0%nat)) as [Hr|Hr]; [eexists; by eapply (s_reaped g)|].
    destruct (weigh_some reader (actors c)) as (h & p & Hh & Hp); [rewrite <- (v_readers _ Hi); lia|].
    apply (reader_moves c h p); [done..|lia|].
    apply (v_finished _ Hi (v_late _ Hi g _ Hg eq_refl)). unfold onceSteps. lia.
Qed.

Lemma weigh_zero w (m : gmap nat actor) g p : weigh w m = 0%nat -> m !! g = Some p -> w p = 0%nat.
Proof. intros Hw Hg. pose proof (weigh_le w g p m Hg). lia. Qed.

(** C33: When [Close] or [Shutdown] has returned, and at any time after that:
    the connection is closed, no call is admitted any more, every call in
    flight has been woken, and the read loop has ended; and when the drain was
    clean no call is left, and none will be. *)
Theorem client_close c g b (Hreach : reachable c) (Hret : actors c !! g = Some (AClosed b)) :
  (closing c = true /\ closeCh c = true /\ ncClosed c = true /\ cancelled c = true) /\
  (readerWG c = 0%nat /\ forall h p, actors c !! h = Some p -> reader p = 0%nat) /\
  (b = true -> callerWG c = 0%nat /\ forall h p, actors c !! h = Some p -> admitted p = 0%nat).
Proof.
  pose proof (close_inv_reach c Hreach) as Hi. split_and!.
  1-4: apply (v_finished _ Hi (v_late _ Hi g _ Hret eq_refl)); unfold onceSteps; lia.
  - by apply (v_closed _ Hi g _ Hret).
  - intros h p. apply (weigh_zero reader). rewrite <- (v_readers _ Hi). by apply (v_closed _ Hi g _ Hret).
  - intros ->. assert (H0 : callerWG c = 0%nat) by by apply (v_clean _ Hi g _ Hret). split; [done|].
    intros h p. apply (weigh_zero admitted). by rewrite <- (v_callers _ Hi).
Qed.

(** [Close] ends, and so does everything it waits for: what closers, the
    read loop and calls do by themselves is over after a bounded number of
    steps, and then every closer has returned, the read loop has ended unless
    the connection is still open, and what is left are calls that wait for
    their response. *)
Theorem client_close_settles c n c' (Hreach : reachable c) (Hrun : nsteps (step true) n c c') :
  (n <= weigh rank (actors c))%nat /\
  ((forall c'', ~ step true c' c'') -> forall g p, actors c' !! g = Some p -> settled c' p = true).
Proof.
  pose proof (close_inv_reach c Hreach) as Hi. clear Hreach. induction Hrun as [c|n c c1 c' Hst Hrun IH].
  - split; [lia|]. intros Hend g p Hg. destruct (settled c p) eqn:Es; [done|].
    destruct (unsettled_moves c g p Hi Hg Es) as [c2 H2]. by destruct (Hend c2).
  - pose proof (own_decreases c c1 Hi Hst). destruct (IH (close_inv_step _ _ _ Hi Hst)) as [Hn Hend]. split; [lia|done].
Qed.

Tactic Notation "cwalk" ident(R) uconstr(st) :=
  let R' := fresh in unshelve epose proof (reach_step _ _ _ _ R (ex_intro _ _ st)) as R'; [first [done|unfold onceSteps; lia]..|clear R; rename R' into R].

(** A call is in flight (1), another closes (2), the drain times out. *)
Definition abandoned (b : bool) (callers : nat) (a : gmap nat actor) : Conn :=
  mkConn true true true true OFinished callers 0 (<[2%nat := AClosed b]> a).

Lemma client_close_witness :
  let c := abandoned true 0 ∅ in reachable c /\ callerWG c = 0%nat.
Proof.
  intros c. assert (Hr : reachable c).
  { pose proof (reach_init dialed (fun c c' => exists own, step own c c')) as R.
    cwalk R (s_close 2 _ _).
    cwalk R (s_first 2 FromClose _ _ _). cwalk R (s_once 2 FromClose 0 _ _ _). cwalk R (s_once 2 FromClose 1 _ _ _).
    cwalk R (s_once 2 FromClose 2 _ _ _). cwalk R (s_once 2 FromClose 3 _ _ _). cwalk R (s_onceEnd 2 FromClose _ _).
    cwalk R (s_readFail 0 _ _). cwalk R (s_later 0 FromReader _ _ _). cwalk R (s_readEnd 0 _ _). cwalk R (s_drained 2 _ _ _).
    cwalk R (s_reaped 2 true _ _ _).
    exact R. }
  split; [done|]. by apply (client_close c 2 true Hr eq_refl).
Defined.

(** [Close] can return while a call is still running: the drain timer, or
    the context given to [Shutdown], ends the wait. *)
Theorem close_leaves_callers : let c := abandoned false 1 {[1%nat := ACall]} in
  reachable c /\ actors c !! 2%nat = Some (AClosed false) /\ actors c !! 1%nat = Some ACall /\ callerWG c = 1%nat.
Proof.
  intros c. split_and!; [|done..].
  pose proof (reach_init dialed (fun c c' => exists own, step own c c')) as R.
  cwalk R (s_call 1 _ _). cwalk R (s_begin 1 _ _). cwalk R (s_close 2 _ _).
  cwalk R (s_first 2 FromClose _ _ _). cwalk R (s_once 2 FromClose 0 _ _ _). cwalk R (s_once 2 FromClose 1 _ _ _).
  cwalk R (s_once 2 FromClose 2 _ _ _). cwalk R (s_once 2 FromClose 3 _ _ _). cwalk R (s_onceEnd 2 FromClose _ _).
  cwalk R (s_readFail 0 _ _). cwalk R (s_later 0 FromReader _ _ _). cwalk R (s_readEnd 0 _ _). cwalk R (s_timeout 2 _ _).
  cwalk R (s_reaped 2 false _ _ _).
  exact R.
Qed.

Lemma client_close_settles_witness :
  let c := mkConn true true true true OFinished 0 0 {[2%nat := AReap true]} in
  nsteps (step true) 1 c (abandoned true 0 ∅) /\ (1 <= weigh rank (actors c))%nat.
Proof.
  intros c. assert (Hr : reachable c).
  { pose proof (reach_init dialed (fun c c' => exists own, step own c c')) as R.
    cwalk R (s_close 2 _ _).
    cwalk R (s_first 2 FromClose _ _ _). cwalk R (s_once 2 FromClose 0 _ _ _). cwalk R (s_once 2 FromClose 1 _ _ _).
    cwalk R (s_once 2 FromClose 2 _ _ _). cwalk R (s_once 2 FromClose 3 _ _ _). cwalk R (s_onceEnd 2 FromClose _ _).
    cwalk R (s_readFail 0 _ _). cwalk R (s_later 0 FromReader _ _ _). cwalk R (s_readEnd 0 _ _). cwalk R (s_drained 2 _ _ _).
    exact R. }
  assert (Hn : nsteps (step true) 1 c (abandoned true 0 ∅)).
  { eapply nsteps_l; [|apply nsteps_O]. by apply (s_reaped 2 true c). }
  split; [done|]. by apply (client_close_settles c 1 _ Hr Hn).
Defined.
