(* ===== verification/Handshake.v ===== *)
(** * The version handshake

    Both ends of the first exchange on a connection: [negotiate],
    [negotiateVersion] and [writeRaw] of [server/conn.go], and [Dial]
    ([client/dial.go]) up to the start of the read loop.  Deadlines and
    keepalive are left out; a peer that stalls is a reader that ends in a
    timeout error.

    The theorem: the two ends agree on msize and dialect, or both give up. *)

From S2P Require Import Prelude GoIO Types Proto Messages P9l P9u Message Frame Codec Wire.
From S2P Require Import Bufpool FidTable Bridge ClientConn ClientWire.

Definition minMsize : Z := 256.

(** ** The server *)

Module Server.
Definition maxVersionFrame : Z := 1024.
Definition ErrNotNegotiated : GoError := Sentinel "version not negotiated".
Definition ErrMsizeTooSmall : GoError := Sentinel "msize too small".

Record negotiationResult : Type := mkResult {
  msize : Z;
  selected : Bridge.protocol;
  version : string
}.

Definition negotiate (maxMsize : Z) (tv : Tversion.t) : result negotiationResult :=
  let msize := Z.min (Tversion.Msize tv) maxMsize in
  if msize <? minMsize then Err ErrMsizeTooSmall else
  Ok (if decide (Tversion.Version tv = "9P2000.L") then mkResult msize Bridge.protocolL (Tversion.Version tv)
      else if decide (Tversion.Version tv = "9P2000.u") then mkResult msize Bridge.protocolU (Tversion.Version tv)
      else mkResult msize Bridge.protocolNone "unknown").

(** Header and body in four writes. *)
Definition writeRaw (tag : Tag) (msg : Message) : M Net unit :=
  let t := Message_Type msg in
  body ← wrapf_args "encode %s body: %w" [t] (ofResult (encode (Message_EncodeTo msg)));
  wrapf "write size: %w" (writing (WriteUint32 (uint_wrap 32 (HeaderSize + uint_wrap 32 (Len body)))));;
  wrapf "write type: %w" (writing (WriteUint8 t));;
  wrapf "write tag: %w" (writing (WriteUint16 tag));;
  wrapf "write body: %w" (writing (Write body)).

(** The negotiated msize and protocol. *)
Definition negotiateVersion (maxMsize : Z) : M Net (Z * Bridge.protocol) :=
  size ← wrapf "read version size: %w" (reading ReadSize);
  let limit := Z.min maxMsize maxVersionFrame in
  if limit <? size then throw (Errorf "version frame size %d exceeds maximum %d" [size; limit]) else
  msgType ← wrapf "read version type: %w" (reading ReadUint8);
  if negb (msgType =? TypeTversion) then throw ErrNotNegotiated else
  tag ← wrapf "read version tag: %w" (reading ReadUint16);
  body ← wrapf "read tversion body: %w" (reading (ReadFull (Z.to_nat (size - HeaderSize))));
  tver ← wrapf "decode tversion: %w" (ofResult (Tversion.DecodeFrom (BytesReader body)).1);
  res ← ofResult (negotiate maxMsize tver);
  wrapf "send rversion: %w" (writeRaw tag (MRversion (Rversion.mk (msize res) (version res))));;
  if decide (selected res = Bridge.protocolNone) then throw ErrNotNegotiated else
  mret (msize res, selected res).
End Server.

(** ** The client *)

Module Client.
Definition ErrVersionMismatch : GoError := Sentinel "client: version mismatch".
Definition ErrMsizeTooSmall : GoError := Sentinel "client: msize too small".

Definition proposed (cfgVersion : string) : string := if decide (cfgVersion = "") then "9P2000.L" else cfgVersion.

Definition dialectOf (v : string) : option protocol :=
  if decide (v = "9P2000.L") then Some protocolL
  else if decide (v = "9P2000.u" \/ v = "9P2000") then Some protocolU
  else None.

(** [cfgVersion] is [""] when the caller set none. *)
Definition Dial (cfgMsize : Z) (cfgVersion : string) : M Net conn :=
  let tver := Tversion.mk cfgMsize (proposed cfgVersion) in
  body ← wrapf "client.Dial: encode Tversion: %w" (ofResult (encode (Tversion.EncodeTo tver)));
  let size := uint_wrap 32 (HeaderSize + uint_wrap 32 (Len body)) in
  wrapf "client.Dial: write Tversion header: %w" (writing (Write (encHdr size TypeTversion NoTag)));;
  wrapf "client.Dial: write Tversion body: %w" (writing (Write body));;
  rsize ← wrapf "client.Dial: read Rversion size: %w" (reading ReadSize);
  if cfgMsize <? rsize then throw (Errorf "client.Dial: invalid Rversion size %d (proposed msize %d)" [rsize; cfgMsize]) else
  bodyBuf ← wrapf "client.Dial: read Rversion body: %w" (reading (ReadBody (Z.to_nat (rsize - 4))));
  if (length bodyBuf <? 3)%nat then throw (Errorf "client.Dial: Rversion body too small: %d bytes" [Len bodyBuf]) else
  if negb (msgTypeOf bodyBuf =? TypeRversion) then throw (Errorf "client.Dial: expected Rversion, got %v" [msgTypeOf bodyBuf]) else
  if negb (tagOf bodyBuf =? NoTag) then throw (Errorf "client.Dial: Rversion tag %d != NoTag" [tagOf bodyBuf]) else
  rver ← wrapf "client.Dial: decode Rversion: %w" (ofResult (Rversion.DecodeFrom (BytesReader (drop 3 bodyBuf))).1);
  if decide (cfgVersion <> "" /\ Rversion.Version rver <> cfgVersion) then throw (Wrapf "%w: exact version match failed" [] ErrVersionMismatch) else
  match dialectOf (Rversion.Version rver) with
  | None => throw (Wrapf "%w: server returned %q" [] ErrVersionMismatch)
  | Some dialect =>
      let negotiated := Z.min (Rversion.Msize rver) cfgMsize in
      if negotiated <? minMsize then throw (Wrapf "%w: negotiated %d < %d" [negotiated; minMsize] ErrMsizeTooSmall) else
      fun s => (Ok (mkConn dialect negotiated newInflightMap false (wr s)), s)
  end.
End Client.

(** ** Each end on what the other sends *)

Definition request (cm : Z) (v : string) : bytes := frame (NoTag, MTversion (Tversion.mk cm v)).
Definition reply (m : Z) (v : string) : bytes := frame (NoTag, MRversion (Rversion.mk m v)).

Lemma tversion_size cm v : frame_size (MTversion (Tversion.mk cm v)) = 13 + strlen v.
Proof.
  unfold frame_size, HeaderSize. cbn [body MessageCodec_Message]. unfold Message_wire, Tversion.wire.
  cbn [Tversion.Msize Tversion.Version]. rewrite length_app, length_le_bytes. pose proof (length_wire_string v). lia.
Qed.
Lemma rversion_size m v : frame_size (MRversion (Rversion.mk m v)) = 13 + strlen v.
Proof.
  unfold frame_size, HeaderSize. cbn [body MessageCodec_Message]. unfold Message_wire, Rversion.wire.
  cbn [Rversion.Msize Rversion.Version]. rewrite length_app, length_le_bytes. pose proof (length_wire_string v). lia.
Qed.

Lemma wrapf_step {S A} fmt (m : M S A) s a s' : m s = (Ok a, s') -> wrapf fmt m s = (Ok a, s').
Proof. intros E. by apply wrapf_ok. Qed.

Lemma writeRaw_ok tag m s out :
  Message_wf m -> wr s = Conn out None ->
  Server.writeRaw tag m s = (Ok tt, mkNet (rd s) (Conn (out ++ frame (tag, m)) None)).
Proof.
  intros Hwf Hw. unfold Server.writeRaw. pose proof (Message_emits m (Message_wf_encodable m Hwf)) as He.
  rewrite (emits_encode _ _ He). cbv zeta.
  erewrite mbind_ok by done.
  erewrite mbind_ok; [|apply wrapf_step, (writing_ok _ _ s out (WriteUint32_emits _) Hw)].
  erewrite mbind_ok; [|by eapply wrapf_step, (writing_ok _ _ _ _ (WriteUint8_emits _))].
  erewrite mbind_ok; [|by eapply wrapf_step, (writing_ok _ _ _ _ (WriteUint16_emits _))].
  erewrite wrapf_step; [|by eapply (writing_ok _ _ _ _ (Write_emits _))].
  match goal with |- (_, mkNet _ (Conn ?x _)) = (_, mkNet _ (Conn ?y _)) => replace x with y; [done|] end.
  rewrite <- !app_assoc. unfold frame, frame_size, Len, uint_wrap. cbn [fst snd body Type_ MessageCodec_Message].
  rewrite Zplus_mod_idemp_r. do 2 f_equal. symmetry. by apply (le_bytes_wrap 4 32).
Qed.

(** A reading step of a handshake: [m] takes [wire v] off what is to come. *)
Lemma reading_step {A B} fmt (m : M Reader A) wf wire (v : A) (k : A -> M Net B) s rest :
  decoder m wf wire -> wf v -> avail (rd s) = wire v ++ rest ->
  exists s', (wrapf fmt (reading m) ≫= k) s = k v s' /\ avail (rd s') = rest /\ wr s' = wr s.
Proof.
  intros Hd Hv Hav. destruct (reading_ok m wf wire v s rest Hd Hv Hav) as (s' & E & Hr & Hw).
  exists s'. split; [|done]. apply mbind_ok. by apply wrapf_step.
Qed.

Ltac read_step dec Hav s' Hr Hw :=
  match goal with
  | |- context [@mbind ?N ?I ?A ?B ?k (wrapf ?fmt (reading ?m)) ?s] =>
      let E := fresh "E" in
      unshelve epose proof (reading_step fmt m _ _ _ k s _ dec _ Hav) as (s' & E & Hr & Hw);
        [|lazymatch type of E with
          | _ = ?rhs => replace (@mbind N I A B k (wrapf fmt (reading m)) s) with rhs by (symmetry; exact E)
          end; clear E]
  end.

Lemma decode_body {A} (m : M Reader A) wf wire (v : A) :
  decoder m wf wire -> wf v -> (m (BytesReader (wire v))).1 = Ok v.
Proof.
  intros Hd Hv. destruct (decoder_complete Hd v (BytesReader (wire v)) []) as (r' & -> & _); [done|by rewrite app_nil_r|done].
Qed.

(** What the server makes of a version. *)
Definition selectedBy (v : string) : Bridge.protocol * string :=
  if decide (v = "9P2000.L") then (Bridge.protocolL, v)
  else if decide (v = "9P2000.u") then (Bridge.protocolU, v) else (Bridge.protocolNone, "unknown").

Lemma negotiate_spec sm cm v :
  Server.negotiate sm (Tversion.mk cm v) =
  if Z.min cm sm <? minMsize then Err Server.ErrMsizeTooSmall
  else Ok (Server.mkResult (Z.min cm sm) (selectedBy v).1 (selectedBy v).2).
Proof. unfold Server.negotiate, selectedBy. cbn. repeat case_decide; done. Qed.

Lemma selectedBy_short v : strlen (selectedBy v).2 <= 8.
Proof. unfold selectedBy. repeat case_decide; subst; cbn [snd]; by vm_compute. Qed.

Section Ends.
Context (cm sm : Z) (Hcm : minMsize <= cm <= MaxMessageSize) (Hsm : minMsize <= sm <= MaxMessageSize).

Lemma agreed_range : u32 (Z.min cm sm) /\ u32 cm.
Proof. assert (MaxMessageSize < 2 ^ 32) by done. unfold is_uint, minMsize in *. lia. Qed.

Lemma version_replies v : Message_wf (MRversion (Rversion.mk (Z.min cm sm) (selectedBy v).2)).
Proof.
  cbn. split; [apply agreed_range|]. pose proof (selectedBy_short v). unfold Rversion.encodable, str_ok, MaxStringLen. cbn. lia.
Qed.

(** The server, on a proposal of [v]. *)
Lemma server_end v s rest out :
  13 + strlen v <= Z.min sm Server.maxVersionFrame ->
  avail (rd s) = request cm v ++ rest -> wr s = Conn out None ->
  exists s', avail (rd s') = rest /\ wr s' = Conn (out ++ reply (Z.min cm sm) (selectedBy v).2) None /\
    Server.negotiateVersion sm s =
      (if decide ((selectedBy v).1 = Bridge.protocolNone) then Err Server.ErrNotNegotiated
       else Ok (Z.min cm sm, (selectedBy v).1), s').
Proof.
  intros Hv Hav Hw. unfold Server.maxVersionFrame in Hv. destruct agreed_range as [_ Hu].
  assert (str_ok v) as Hok by (unfold str_ok, MaxStringLen; lia).
  assert (0 <= strlen v) by (unfold strlen; lia).
  unfold request, frame in Hav. cbn [fst snd] in Hav. rewrite <- !app_assoc, tversion_size in Hav.
  unfold Server.negotiateVersion.
  read_step ReadSize_decoder Hav s1 Hr1 Hw1.
  { unfold HeaderSize, is_uint. assert (MaxMessageSize < 2 ^ 32) by done. lia. }
  cbv zeta. rewrite (proj2 (Z.ltb_ge _ _)) by (unfold Server.maxVersionFrame; lia).
  read_step ReadUint8_decoder Hr1 s2 Hr2 Hw2; [apply Message_Type_range|].
  change (negb _) with false. cbv iota.
  read_step ReadUint16_decoder Hr2 s3 Hr3 Hw3; [by vm_compute|].
  read_step (ReadFull_decoder_n (Z.to_nat (13 + strlen v - HeaderSize))) Hr3 s4 Hr4 Hw4.
  { pose proof (tversion_size cm v) as Hs. unfold frame_size in Hs. cbv beta. lia. }
  erewrite (mbind_ok (wrapf _ _)).
  2: { apply wrapf_step. apply (f_equal (fun r => (r, s4))).
       by apply (decode_body _ _ _ (Tversion.mk cm v) Tversion.Tversion_decoder). }
  unfold ofResult. rewrite negotiate_spec.
  rewrite (proj2 (Z.ltb_ge _ _)) by lia. erewrite mbind_ok by done.
  erewrite (mbind_ok (wrapf _ _)); [|apply wrapf_step, (writeRaw_ok _ _ _ out); [apply version_replies|congruence]].
  cbn [Server.selected Server.msize Server.version]. eexists. split; [|split]; [..|by case_decide]; done.
Qed.

(** The client, on the server's answer. *)
Definition clientDialect (p : Bridge.protocol) : option protocol :=
  match p with Bridge.protocolNone => None | Bridge.protocolL => Some protocolL | Bridge.protocolU => Some protocolU end.

Definition dialed (p : Bridge.protocol) (w : Writer) (r : result conn) : Prop :=
  match clientDialect p with
  | None => exists e, r = Err e /\ errors_Is e Client.ErrVersionMismatch = true
  | Some d => r = Ok (mkConn d (Z.min cm sm) newInflightMap false w)
  end.

Lemma dial_select ver s :
  let v := Client.proposed ver in
  exists r, dialed (selectedBy v).1 (wr s) r /\
    (if decide (ver <> "" /\ (selectedBy v).2 <> ver) then throw (Wrapf "%w: exact version match failed" [] Client.ErrVersionMismatch) else
      match Client.dialectOf (selectedBy v).2 with
      | None => throw (Wrapf "%w: server returned %q" [] Client.ErrVersionMismatch)
      | Some dialect =>
          let negotiated := Z.min (Z.min cm sm) cm in
          if negotiated <? minMsize then throw (Wrapf "%w: negotiated %d < %d" [negotiated; minMsize] Client.ErrMsizeTooSmall) else
          fun s => (Ok (mkConn dialect negotiated newInflightMap false (wr s)), s)
      end : M Net conn) s = (r, s).
Proof.
  cbv zeta. replace (Z.min (Z.min cm sm) cm) with (Z.min cm sm) by lia. rewrite (proj2 (Z.ltb_ge _ _)) by lia.
  unfold dialed, selectedBy, Client.proposed. destruct (decide (ver = "")) as [->|Hne].
  - eexists. by split.
  - destruct (decide (ver = "9P2000.L")) as [->|HL]; [eexists; by split|].
    destruct (decide (ver = "9P2000.u")) as [->|HU]; [eexists; by split|].
    cbn [fst snd clientDialect]. case_decide; (eexists; split; [|reflexivity]; eexists; by split).
Qed.

Lemma client_end ver s rest out :
  str_ok (Client.proposed ver) ->
  avail (rd s) = reply (Z.min cm sm) (selectedBy (Client.proposed ver)).2 ++ rest -> wr s = Conn out None ->
  exists s' r, Client.Dial cm ver s = (r, s') /\ avail (rd s') = rest /\
    wr s' = Conn (out ++ request cm (Client.proposed ver)) None /\ dialed (selectedBy (Client.proposed ver)).1 (wr s') r.
Proof.
  intros Hok Hav Hw. pose proof (dial_select ver) as Hsel. cbv zeta in Hsel. revert Hav Hsel. set (v := Client.proposed ver) in *.
  pose proof (selectedBy_short v) as Hshort. set (v' := (selectedBy v).2) in *. intros Hav Hsel.
  pose proof (version_replies v) as Hwf. fold v' in Hwf. destruct agreed_range as [_ Hu].
  assert (Message_encodable (MTversion (Tversion.mk cm v))) as Henc by done.
  unfold Client.Dial. fold v. cbv zeta.
  rewrite (emits_encode _ (Tversion.wire (Tversion.mk cm v))) by by apply Tversion.Tversion_emits.
  unfold ofResult at 1. erewrite (mbind_ok (wrapf _ _)) by by apply wrapf_step.
  erewrite (mbind_ok (wrapf _ _)); [|apply wrapf_step, (writing_ok _ _ s out (Write_emits _) Hw)].
  erewrite (mbind_ok (wrapf _ _)); [|by eapply wrapf_step, (writing_ok _ _ _ _ (Write_emits _))].
  set (s0 := mkNet (rd _) _) at 1. assert (avail (rd s0) = reply (Z.min cm sm) v' ++ rest) as Hav0 by exact Hav.
  assert (wr s0 = Conn (out ++ request cm v) None) as Hw0.
  { cbn. rewrite <- app_assoc. do 2 f_equal. unfold request, frame, encHdr. cbn [fst snd].
    replace (uint_wrap 32 _) with (uint_wrap 32 (frame_size (MTversion (Tversion.mk cm v))))
      by (unfold frame_size, uint_wrap, Len; by rewrite Zplus_mod_idemp_r).
    rewrite (le_bytes_wrap 4 32) by done. by rewrite <- !app_assoc. }
  clearbody s0. clear Hav Hw. unfold reply in Hav0. rewrite frame_inner in Hav0. cbn [snd] in Hav0.
  pose proof (inner_bytes_wf cm (NoTag, MRversion (Rversion.mk (Z.min cm sm) v')) Hwf) as (_ & Hmin & Hmax & Hu32).
  { cbn [snd]. rewrite rversion_size. unfold minMsize in *. lia. }
  cbn [fst snd] in *. unfold bytes_wire in Hav0. cbn [fst snd] in Hav0. rewrite <- app_assoc in Hav0.
  read_step ReadSize_decoder Hav0 s1 Hr1 Hw1; [by split|]. rewrite (proj2 (Z.ltb_ge _ _)) by done.
  pose proof (length_inner (NoTag, MRversion (Rversion.mk (Z.min cm sm) v'))) as Hlen. cbn [snd] in Hlen.
  unfold ReadBody. read_step (ReadFull_decoder_n (Z.to_nat (frame_size (MRversion (Rversion.mk (Z.min cm sm) v')) - 4))) Hr1 s2 Hr2 Hw2.
  { cbv beta. unfold Len in Hlen. lia. }
  rewrite (proj2 (Nat.ltb_ge _ _)) by (unfold Len, HeaderSize in *; lia).
  rewrite msgTypeOf_inner, tagOf_inner by by vm_compute. change (negb _) with false at 1. cbv iota. cbn [fst].
  change (negb _) with false at 1. cbv iota. rewrite drop_inner.
  erewrite (mbind_ok (wrapf _ _)).
  2: { apply wrapf_step. apply (f_equal (fun r => (r, s2))).
       by apply (decode_body _ _ _ (Rversion.mk (Z.min cm sm) v') Rversion.Rversion_decoder). }
  cbn [Rversion.Version Rversion.Msize]. destruct (Hsel s2) as (r & Hd & E). exists s2, r.
  split; [exact E|]. split; [done|]. split; [congruence|done].
Qed.
End Ends.

(** The two ends of a connection agree.  Whatever msizes the two are
    configured with and whatever version the client asks for, the server's
    answer to [Dial]'s proposal is a reply on which [Dial] ends as the server
    did: for [9P2000.L] and [9P2000.u] both hold the same dialect and the
    smaller of the two msizes; for any other version the server refuses after
    it has answered and the client reports a version mismatch.  Each takes
    exactly the other's message off the connection. *)
Theorem handshake_agrees cm sm ver :
  minMsize <= cm <= MaxMessageSize -> minMsize <= sm <= MaxMessageSize ->
  13 + strlen (Client.proposed ver) <= Z.min sm Server.maxVersionFrame ->
  let v := Client.proposed ver in
  let proto := (selectedBy v).1 in
  exists answer,
    (forall s rest out, avail (rd s) = request cm v ++ rest -> wr s = Conn out None ->
       exists s', avail (rd s') = rest /\ wr s' = Conn (out ++ answer) None /\
         Server.negotiateVersion sm s =
           (if decide (proto = Bridge.protocolNone) then Err Server.ErrNotNegotiated else Ok (Z.min cm sm, proto), s')) /\
    (forall c rest out, avail (rd c) = answer ++ rest -> wr c = Conn out None ->
       exists c' r, Client.Dial cm ver c = (r, c') /\ avail (rd c') = rest /\ wr c' = Conn (out ++ request cm v) None /\
         match clientDialect proto with
         | None => exists e, r = Err e /\ errors_Is e Client.ErrVersionMismatch = true
         | Some d => r = Ok (mkConn d (Z.min cm sm) newInflightMap false (wr c'))
         end).
Proof.
  intros Hcm Hsm Hv v proto. exists (reply (Z.min cm sm) (selectedBy v).2). split.
  - intros s rest out. by apply server_end.
  - intros c rest out. apply (client_end cm sm); [done|done|]. unfold str_ok, MaxStringLen, Server.maxVersionFrame in *. lia.
Qed.

Lemma handshake_agrees_witness :
  exists answer,
    let net := mkNet (BytesReader answer) (Conn [] None) in
    exists c', Client.Dial 8192 "" net = (Ok (mkConn protocolL 4096 newInflightMap false (wr c')), c').
Proof.
  destruct (handshake_agrees 8192 4096 "") as (answer & _ & Hc);
    [by vm_compute|by vm_compute|by vm_compute|]. exists answer. intros net.
  destruct (Hc net [] []) as (c' & r & E & _ & _ & Hd); [by rewrite app_nil_r|done|].
  exists c'. cbn in Hd. by rewrite E, Hd.
Defined.
