(* ===== verification/ServerRun.v ===== *)
(** * The server: configuration, middleware, and its connections

    [server/options.go], [server/middleware.go] and [server/server.go]: the
    options of [New] and its validation, the handler chain that [newConn]
    builds, the count that bounds the connections, and the accept loop.
    Listener, logger and the telemetry of [server/otel.go] are parameters. *)

From S2P Require Import Prelude.
From S2P Require Import Types.
From S2P Require Import Errno.
From S2P Require Import Frame.
From S2P Require Import Message.
From S2P Require Import Handshake.

Open Scope Z_scope.

(** [time.Duration], in nanoseconds. *)
Definition Millisecond : Z := 10 ^ 6.
Definition Second : Z := 10 ^ 9.
Definition acceptBackoffStart : Z := 5 * Millisecond.
Definition acceptBackoffMax : Z := 1 * Second.
Definition defaultMaxConnections : Z := 1024.
Definition defaultMaxFids : Z := 4096.
Definition defaultIdleTimeout : Z := 120 * Second.
Definition defaultHandshakeTimeout : Z := 30 * Second.
Definition defaultDrainTimeout : Z := 5 * Second.

(** ** Middleware *)

Section Middleware.
Context {S : Type}.

(** What a request leaves in the log; the duration is left out. *)
Record LogRecord : Type := mkLog { op : Z; failed : bool }.
(** A handler works on the connection; the log is beside it. *)
Definition Handler : Type := Z -> Message -> S * list LogRecord -> Message * (S * list LogRecord).
Definition Middleware : Type := Handler -> Handler.

(** The loop over [slices.Backward(mws)]. *)
Definition chain (inner : Handler) (mws : list Middleware) : Handler :=
  match mws with
  | [] => inner
  | _ => fold_left (fun h v => v h) (rev mws) inner
  end.

Definition isErrorResponse (msg : Message) : bool :=
  (Message_Type msg =? TypeRlerror) || (Message_Type msg =? TypeRerror).

Definition NewLoggingMiddleware : Middleware := fun next tag msg s =>
  let '(resp, (c, log)) := next tag msg s in
  (resp, (c, log ++ [mkLog (Message_Type msg) (isErrorResponse resp)])).

(** The first middleware is the outermost. *)
Lemma chain_outermost inner m mws : chain inner (m :: mws) = m (chain inner mws).
Proof. unfold chain. cbn [rev]. rewrite fold_left_app. cbn. by destruct mws. Qed.
Lemma chain_app inner mws mws' : chain inner (mws ++ mws') = chain (chain inner mws') mws.
Proof. induction mws as [|m mws IH]; [done|]. cbn [app]. by rewrite !chain_outermost, IH. Qed.
End Middleware.
Arguments Handler : clear implicits.
Arguments Middleware : clear implicits.

(** ** Configuration *)

Section Config.
Context {Node Attacher Logger S : Type}.

(** The telemetry that [New] prepares is beside it, in [Telemetry]. *)
Record Server : Type := mkServer {
  configErr : option GoError;
  root : option Node;                (* None: nil *)
  maxMsize : Z;
  maxInflight : Z;
  maxConnections : Z;                (* 0: unlimited *)
  maxFids : Z;
  idleTimeout : Z;
  handshakeTimeout : Z;
  drainTimeout : Z;
  logger : option Logger;
  anames : gmap string (option Node);
  attacher : option Attacher;
  middlewares : list (Middleware S);
  requestLogging : bool
}.
Definition Option : Type := Server -> Server.

Definition setConfigError (e : GoError) : Option := fun s =>
  match configErr s with
  | None =>
      mkServer (Some e) (root s) (maxMsize s) (maxInflight s) (maxConnections s) (maxFids s) (idleTimeout s) (handshakeTimeout s)
        (drainTimeout s) (logger s) (anames s) (attacher s) (middlewares s) (requestLogging s)
  | Some _ => s
  end.
Definition WithMaxMsize (msize : Z) : Option := fun s =>
  mkServer (configErr s) (root s) (msize) (maxInflight s) (maxConnections s) (maxFids s) (idleTimeout s) (handshakeTimeout s)
    (drainTimeout s) (logger s) (anames s) (attacher s) (middlewares s) (requestLogging s).
Definition WithMaxInflight (n : Z) : Option := fun s =>
  mkServer (configErr s) (root s) (maxMsize s) (n) (maxConnections s) (maxFids s) (idleTimeout s) (handshakeTimeout s)
    (drainTimeout s) (logger s) (anames s) (attacher s) (middlewares s) (requestLogging s).
Definition WithMaxConnections (n : Z) : Option := fun s =>
  mkServer (configErr s) (root s) (maxMsize s) (maxInflight s) (n) (maxFids s) (idleTimeout s) (handshakeTimeout s) (drainTimeout
    s) (logger s) (anames s) (attacher s) (middlewares s) (requestLogging s).
Definition WithMaxFids (n : Z) : Option := fun s =>
  mkServer (configErr s) (root s) (maxMsize s) (maxInflight s) (maxConnections s) (n) (idleTimeout s) (handshakeTimeout s)
    (drainTimeout s) (logger s) (anames s) (attacher s) (middlewares s) (requestLogging s).
(** [NewTraceHandler], around the logger's handler. *)
Context (traced : Logger -> Logger).
Definition WithLogger (l : option Logger) : Option := fun s =>
  mkServer (configErr s) (root s) (maxMsize s) (maxInflight s) (maxConnections s) (maxFids s) (idleTimeout s) (handshakeTimeout s)
    (drainTimeout s) (traced <$> l) (anames s) (attacher s) (middlewares s) (requestLogging s).
Definition WithRequestLogging : Option := fun s =>
  mkServer (configErr s) (root s) (maxMsize s) (maxInflight s) (maxConnections s) (maxFids s) (idleTimeout s) (handshakeTimeout s)
    (drainTimeout s) (logger s) (anames s) (attacher s) (middlewares s) (true).
Definition WithAnames (m : gmap string (option Node)) : Option := fun s =>
  mkServer (configErr s) (root s) (maxMsize s) (maxInflight s) (maxConnections s) (maxFids s) (idleTimeout s) (handshakeTimeout s)
    (drainTimeout s) (logger s) (m) (attacher s) (middlewares s) (requestLogging s).
Definition setAttacher (a : option Attacher) : Option := fun s =>
  mkServer (configErr s) (root s) (maxMsize s) (maxInflight s) (maxConnections s) (maxFids s) (idleTimeout s) (handshakeTimeout s)
    (drainTimeout s) (logger s) (anames s) (a) (middlewares s) (requestLogging s).
Definition WithAttacher (a : option Attacher) : Option := fun s =>
  match a with
  | Some _ => setAttacher a s
  | None => setConfigError (Errorf "server: attacher must not be nil" []) (setAttacher a s)
  end.
Definition WithDrainTimeout (d : Z) : Option := fun s =>
  mkServer (configErr s) (root s) (maxMsize s) (maxInflight s) (maxConnections s) (maxFids s) (idleTimeout s) (handshakeTimeout s)
    (d) (logger s) (anames s) (attacher s) (middlewares s) (requestLogging s).
Definition WithIdleTimeout (d : Z) : Option := fun s =>
  mkServer (configErr s) (root s) (maxMsize s) (maxInflight s) (maxConnections s) (maxFids s) (d) (handshakeTimeout s)
    (drainTimeout s) (logger s) (anames s) (attacher s) (middlewares s) (requestLogging s).
Definition WithTrustedNetwork : Option := fun s =>
  mkServer (configErr s) (root s) (maxMsize s) (maxInflight s) (0) (0) (0) (handshakeTimeout s) (drainTimeout s) (logger s)
    (anames s) (attacher s) (middlewares s) (requestLogging s).
Definition addMiddlewares (mw : list (Middleware S)) : Option := fun s =>
  mkServer (configErr s) (root s) (maxMsize s) (maxInflight s) (maxConnections s) (maxFids s) (idleTimeout s) (handshakeTimeout s)
    (drainTimeout s) (logger s) (anames s) (attacher s) (middlewares s ++ mw) (requestLogging s).
(** A nil middleware anywhere: none is added. *)
Definition WithMiddleware (mw : list (option (Middleware S))) : Option := fun s =>
  match mapM (fun m => m) mw with
  | Some mw => addMiddlewares mw s
  | None => setConfigError (Errorf "server: middleware must not be nil" []) s
  end.

(** [if cond { return err }] of [validate]. *)
Definition reject (cond : bool) (e : GoError) (rest : option GoError) : option GoError := if cond then Some e else rest.

Definition validate (s : Server) : option GoError :=
  match configErr s with
  | Some e => Some e
  | None =>
      reject (bool_decide (root s = None) && bool_decide (attacher s = None) && bool_decide (anames s = ∅))
        (Errorf "server: root, aname, or attacher is required" []) $
      reject (bool_decide (map_Exists (fun _ r => r = None) (anames s))) (Errorf "server: aname %q has a nil root" []) $
      reject ((maxMsize s <? minMsize) || (MaxMessageSize <? maxMsize s))
        (Errorf "server: max msize %d outside [%d, %d]" [maxMsize s; minMsize; MaxMessageSize]) $
      reject (maxInflight s <? 1) (Errorf "server: max inflight must be positive: %d" [maxInflight s]) $
      reject (maxConnections s <? 0) (Errorf "server: max connections must not be negative: %d" [maxConnections s]) $
      reject (maxFids s <? 0) (Errorf "server: max fids must not be negative: %d" [maxFids s]) $
      reject (idleTimeout s <? 0) (Errorf "server: idle timeout must not be negative: %s" [idleTimeout s]) $
      reject (handshakeTimeout s <=? 0) (Errorf "server: handshake timeout must be positive: %s" [handshakeTimeout s]) $
      reject (drainTimeout s <=? 0) (Errorf "server: drain timeout must be positive: %s" [drainTimeout s]) $
      reject (bool_decide (logger s = None)) (Errorf "server: logger must not be nil" []) None
  end.

(** The telemetry of [otel.go]: its providers are options as well, its
    constructors can fail. *)
Context {ServerInst Core ConnInst : Type}.
Context (telemetryConfigured : bool).
Context (newServerOTelInstruments : result ServerInst) (newOTelCore : result Core) (newConnOTelInstruments : result ConnInst).
Context (defaultLogger : Logger).

Record Telemetry : Type := mkTelemetry { otelInst : ServerInst; otelCore : option Core; connInst : option ConnInst }.

Definition defaults (r : option Node) : Server :=
  mkServer None r (1024 * 1024) 64 defaultMaxConnections defaultMaxFids defaultIdleTimeout defaultHandshakeTimeout
    defaultDrainTimeout (Some (traced defaultLogger)) ∅ None [] false.

Definition New (r : option Node) (opts : list Option) : result (Server * Telemetry) :=
  let s := fold_left (fun s opt => opt s) opts (defaults r) in
  match validate s with
  | Some e => Err e
  | None =>
      match newServerOTelInstruments with
      | Err e => Err (Wrapf "server: initialize telemetry: %w" [] e)
      | Ok inst =>
          if telemetryConfigured then
            match newOTelCore with
            | Err e => Err (Wrapf "server: initialize request telemetry: %w" [] e)
            | Ok core =>
                match newConnOTelInstruments with
                | Err e => Err (Wrapf "server: initialize connection telemetry: %w" [] e)
                | Ok conn => Ok (s, mkTelemetry inst (Some core) (Some conn))
                end
            end
          else Ok (s, mkTelemetry inst None None)
      end
  end.

(** The handler of a connection ([newConn]): the middleware of the telemetry
    first, the request log last. *)
Context (core_middleware : Core -> Middleware S).
Definition newConnHandler (s : Server) (t : Telemetry) (dispatch : Handler S) : Handler S :=
  let mws := match otelCore t with Some core => core_middleware core :: middlewares s | None => middlewares s end in
  let mws := if requestLogging s then mws ++ [NewLoggingMiddleware] else mws in
  chain dispatch mws.
End Config.
Arguments Server : clear implicits.

Section ConfigLemmas.
Context {Node Attacher Logger S : Type}.
Implicit Types s : Server Node Attacher Logger S.

(** What a server is configured with. *)
Record Valid s : Prop := {
  valid_options : configErr s = None;
  valid_root : root s <> None \/ attacher s <> None \/ anames s <> ∅;
  valid_anames name r : anames s !! name = Some r -> r <> None;
  valid_msize : minMsize <= maxMsize s <= MaxMessageSize;
  valid_inflight : 1 <= maxInflight s;
  valid_limits : 0 <= maxConnections s /\ 0 <= maxFids s;
  valid_timeouts : 0 <= idleTimeout s /\ 0 < handshakeTimeout s /\ 0 < drainTimeout s;
  valid_logger : logger s <> None
}.

Lemma reject_none cond e rest : reject cond e rest = None <-> cond = false /\ rest = None.
Proof. unfold reject. destruct cond; split; [done|by intros []|by intros ->|by intros []]. Qed.

Lemma validate_spec s : validate s = None <-> Valid s.
Proof.
  unfold validate. destruct (configErr s) eqn:Ec; [split; [done|intros []; congruence]|].
  rewrite !reject_none, !andb_false_iff, !bool_decide_eq_false, orb_false_iff, !Z.ltb_ge, !Z.leb_gt.
  split.
  - intros (Hr & Ha & [Hm1 Hm2] & Hi & Hc & Hf & Hid & Hh & Hd & Hl & _). split; try done; try lia.
    + tauto.
    + intros nm r Hn ->. apply Ha. by exists nm, None.
  - intros [_ Hr Ha Hm Hi Hl Ht Hg]. split_and!; try done; try lia; [tauto|].
    intros (nm & r & Hn & Hnil). by apply (Ha nm r).
Qed.

(** The first option that finds an error decides it; later ones keep it. *)
Lemma setConfigError_first e s e0 : configErr s = Some e0 -> setConfigError e s = s.
Proof. unfold setConfigError. by intros ->. Qed.

Context {ServerInst Core ConnInst : Type} (traced : Logger -> Logger) (telemetryConfigured : bool).
Context (newServerOTelInstruments : result ServerInst) (newOTelCore : result Core) (newConnOTelInstruments : result ConnInst).
Context (defaultLogger : Logger) (core_middleware : Core -> Middleware S).
Local Abbreviation newServer := (New traced telemetryConfigured newServerOTelInstruments newOTelCore newConnOTelInstruments defaultLogger).

(** [New] succeeds only with a configuration that is valid as a whole, and
    installs the request telemetry exactly when some is configured. *)
Theorem new_valid r (opts : list (@Option Node Attacher Logger S)) s t (Hnew : newServer r opts = Ok (s, t)) :
  Valid s /\ s = fold_left (fun s opt => opt s) opts (defaults traced defaultLogger r) /\
  (otelCore t = None <-> telemetryConfigured = false).
Proof.
  revert Hnew. unfold New. set (s0 := fold_left _ _ _). destruct (validate s0) eqn:Ev; [done|]. apply validate_spec in Ev.
  destruct newServerOTelInstruments as [inst|]; [|done]. destruct telemetryConfigured.
  - destruct newOTelCore; [|done]. destruct newConnOTelInstruments; [|done]. by intros [= <- <-].
  - by intros [= <- <-].
Qed.

(** The layers of a connection's handler: telemetry, the configured
    middleware in its order, the request log, [dispatch]. *)
Lemma newConnHandler_layers s (t : @Telemetry ServerInst Core ConnInst) (dispatch : Handler S) :
  newConnHandler core_middleware s t dispatch =
  (match otelCore t with Some core => core_middleware core | None => fun h => h end)
    (chain (if requestLogging s then NewLoggingMiddleware dispatch else dispatch) (middlewares s)).
Proof.
  unfold newConnHandler. destruct (otelCore t) as [core|], (requestLogging s).
  all: cbn [app]; rewrite ?chain_outermost, ?chain_app.
  all: reflexivity.
Qed.
End ConfigLemmas.

(** The request log does not change what a request does. *)
Lemma logging_transparent {S} (next : Handler S) tag msg c log resp c' log' : next tag msg (c, log) = (resp, (c', log')) ->
  NewLoggingMiddleware next tag msg (c, log) = (resp, (c', log' ++ [mkLog (Message_Type msg) (isErrorResponse resp)])).
Proof. unfold NewLoggingMiddleware. by intros ->. Qed.

(** ** [ServeConn]

    Any number of connections; [connCount] is an atomic counter.  How long a
    connection is served is open. *)

Inductive connPhase : Type :=
  | VServing            (* newConn(s, nc).serve(ctx) *)
  | VUncounted          (* served without a limit *)
  | VRejected           (* before connCount.Add(-1) *)
  | VGone.

Record serving : Type := mkServing { connCount : Z; conns : gmap nat connPhase }.

Section ServeConn.
Context (max : Z).

Inductive serveStep : serving -> serving -> Prop :=
  | serve_unlimited i s : max <= 0 -> conns s !! i = None -> serveStep s (mkServing (connCount s) (<[i := VUncounted]> (conns s)))
  | serve_add i s : 0 < max -> conns s !! i = None ->
      serveStep s (mkServing (connCount s + 1) (<[i := if max <? connCount s + 1 then VRejected else VServing]> (conns s)))
  | serve_reject i s : conns s !! i = Some VRejected -> serveStep s (mkServing (connCount s - 1) (<[i := VGone]> (conns s)))
  | serve_end i s : conns s !! i = Some VServing -> serveStep s (mkServing (connCount s - 1) (<[i := VGone]> (conns s)))
  | serve_endUnlimited i s : conns s !! i = Some VUncounted -> serveStep s (mkServing (connCount s) (<[i := VGone]> (conns s))).

Definition serveReachable : serving -> Prop := Reachable (mkServing 0 ∅) serveStep.

Definition isServed (p : connPhase) : nat := match p with VServing | VUncounted => 1 | _ => 0 end.
Definition isCounted (p : connPhase) : nat := match p with VServing | VRejected => 1 | _ => 0 end.

Lemma serve_counts s : 0 < max -> serveReachable s ->
  connCount s = Z.of_nat (weigh isCounted (conns s)) /\ Z.of_nat (weigh isServed (conns s)) <= max /\
  (forall i, conns s !! i <> Some VUncounted).
Proof.
  intros Hmax. unfold serveReachable. induction 1 as [|s s' _ (Hc & Hs & Hu) Hst]; cbn.
  { rewrite !weigh_empty. cbn. split_and!; [done|lia|done]. }
  assert (Hle : (weigh isServed (conns s) <= weigh isCounted (conns s))%nat).
  { clear Hc Hs Hst. induction (conns s) as [|i p m Hi IH] using map_ind; [by rewrite !weigh_empty|]. rewrite !weigh_insert by done.
    assert ((isServed p <= isCounted p)%nat) by (specialize (Hu i); rewrite lookup_insert_eq in Hu; by destruct p; cbn; try lia).
    assert (weigh isServed m <= weigh isCounted m)%nat; [|lia]. apply IH. intros j Hj.
    apply (Hu j). rewrite lookup_insert_ne; [done|]. intros ->. congruence. }
  destruct Hst as [i s Hm Hi|i s Hm Hi|i s Hi|i s Hi|i s Hi]; cbn; [lia| | | |by destruct (Hu i)].
  - rewrite !weigh_insert by done. destruct (Z.ltb_spec max (connCount s + 1)); cbn; split_and!; try lia;
      intros j; destruct (decide (j = i)) as [->|]; rewrite ?lookup_insert_eq, ?lookup_insert_ne by done; done.
  - pose proof (weigh_move isCounted i _ VGone _ Hi) as H1. pose proof (weigh_move isServed i _ VGone _ Hi) as H2. cbn in H1, H2.
    split_and!; try lia. intros j; destruct (decide (j = i)) as [->|]; rewrite ?lookup_insert_eq, ?lookup_insert_ne by done; done.
  - pose proof (weigh_move isCounted i _ VGone _ Hi) as H1. pose proof (weigh_move isServed i _ VGone _ Hi) as H2. cbn in H1, H2.
    split_and!; try lia. intros j; destruct (decide (j = i)) as [->|]; rewrite ?lookup_insert_eq, ?lookup_insert_ne by done; done.
Qed.

(** C34: With a limit on connections ([maxConnections] not zero, which means no
    limit), however [ServeConn] calls interleave, at most [maxConnections]
    connections are served at a time, the counter counts exactly the calls
    that have not taken themselves out again, and a call is refused only when
    that many others are counted. *)
Theorem connections_bounded s (Hmax : 0 < max) (Hreach : serveReachable s) :
  Z.of_nat (weigh isServed (conns s)) <= max /\ connCount s = Z.of_nat (weigh isCounted (conns s)) /\
  (forall i s', conns s !! i = None -> serveStep s s' ->
    (conns s' !! i = Some VRejected -> max <= Z.of_nat (weigh isCounted (conns s)))).
Proof.
  destruct (serve_counts s Hmax Hreach) as (Hc & Hs & _). split_and!; [done|done|]. intros i s' Hi Hst.
  destruct Hst as [j s Hm Hj|j s Hm Hj|j s Hj|j s Hj|j s Hj]; cbn; (destruct (decide (i = j)) as [->|];
    [rewrite lookup_insert_eq|rewrite lookup_insert_ne by done; congruence]); try congruence.
  destruct (Z.ltb_spec max (connCount s + 1)); [intros _; lia|done].
Qed.
End ServeConn.

(** Two connections are served in turn. *)
Lemma connections_bounded_witness :
  let s := mkServing 1 {[0%nat := VGone; 1%nat := VServing]} in serveReachable 1 s /\ Z.of_nat (weigh isServed (conns s)) <= 1.
Proof.
  intros s. assert (Hr : serveReachable 1 s).
  { pose proof (reach_init (mkServing 0 ∅) (serveStep 1)) as R0.
    pose proof (reach_step _ _ _ _ R0 (serve_add 1 0 (mkServing 0 ∅) eq_refl eq_refl)) as R1.
    pose proof (reach_step _ _ _ _ R1 (serve_end 1 0 (mkServing 1 {[0%nat := VServing]}) eq_refl)) as R2.
    pose proof (reach_step _ _ _ _ R2 (serve_add 1 1 (mkServing 0 {[0%nat := VGone]}) eq_refl eq_refl)) as R3. exact R3. }
  split; [done|]. by apply (connections_bounded 1 s).
Defined.

(** A refused call counts until it has taken itself out: another one is then
    refused although no connection is served. *)
Theorem refused_while_idle : let s := mkServing 2 {[0%nat := VGone; 1%nat := VRejected; 2%nat := VRejected]} in
  serveReachable 1 s /\ weigh isServed (conns s) = 0%nat.
Proof.
  intros s. split; [|done].
  pose proof (reach_init (mkServing 0 ∅) (serveStep 1)) as R0.
  pose proof (reach_step _ _ _ _ R0 (serve_add 1 0 (mkServing 0 ∅) eq_refl eq_refl)) as R1.
  pose proof (reach_step _ _ _ _ R1 (serve_add 1 1 (mkServing 1 {[0%nat := VServing]}) eq_refl eq_refl)) as R2.
  pose proof (reach_step _ _ _ _ R2 (serve_end 1 0 (mkServing 2 {[0%nat := VServing; 1%nat := VRejected]}) eq_refl)) as R3.
  pose proof (reach_step _ _ _ _ R3 (serve_add 1 2 (mkServing 1 {[0%nat := VGone; 1%nat := VRejected]}) eq_refl eq_refl)) as R4.
  exact R4.
Qed.

(** ** [Serve] *)

(** One return of [ln.Accept]: a connection ([None]) or an error; what
    [ctx.Err()] is when an error is looked at, and whether the context ends
    before the delay does. *)
Record acceptEvent : Type := mkAccept { acceptErr : option GoError; ctxAtError : option GoError; ctxInDelay : option GoError }.

Definition isTransientAcceptError (e : GoError) : bool :=
  errors_Is e (SyscallErrno EMFILE) || errors_Is e (SyscallErrno ENFILE).
Definition nextBackoff (backoff : Z) : Z := if backoff =? 0 then acceptBackoffStart else Z.min (backoff * 2) acceptBackoffMax.

(** The delays, the number of connections handed to [ServeConn] and what
    [Serve] returns; [None] while it waits for the next connection. *)
Fixpoint serveLoop (backoff : Z) (evs : list acceptEvent) : list Z * nat * option GoError :=
  match evs with
  | [] => ([], 0%nat, None)
  | ev :: evs =>
      match acceptErr ev with
      | None => let '(delays, n, r) := serveLoop 0 evs in (delays, S n, r)
      | Some e =>
          match ctxAtError ev with
          | Some ce => ([], 0%nat, Some ce)
          | None =>
              if isTransientAcceptError e then
                let backoff := nextBackoff backoff in
                match ctxInDelay ev with
                | Some ce => ([backoff], 0%nat, Some ce)
                | None => let '(delays, n, r) := serveLoop backoff evs in (backoff :: delays, n, r)
                end
              else ([], 0%nat, Some (Wrapf "accept: %w" [] e))
          end
      end
  end.

Definition transient (ev : acceptEvent) : Prop :=
  exists e, acceptErr ev = Some e /\ isTransientAcceptError e = true /\ ctxAtError ev = None /\ ctxInDelay ev = None.
(** The [k]-th delay of a row of transient errors. *)
Definition delay (k : nat) : Z := Z.min (acceptBackoffStart * 2 ^ Z.of_nat k) acceptBackoffMax.

Lemma delay_next k : nextBackoff (delay k) = delay (S k).
Proof.
  unfold nextBackoff, delay, acceptBackoffStart, acceptBackoffMax, Millisecond, Second. rewrite Nat2Z.inj_succ, Z.pow_succ_r by lia.
  pose proof (Z.pow_pos_nonneg 2 (Z.of_nat k) ltac:(lia) ltac:(lia)). destruct (Z.eqb_spec (Z.min (5 * 10 ^ 6 * 2 ^ Z.of_nat k) (1 * 10 ^ 9)) 0); lia.
Qed.
Lemma delay_range k : acceptBackoffStart <= delay k <= acceptBackoffMax.
Proof.
  unfold delay, acceptBackoffStart, acceptBackoffMax, Millisecond, Second.
  pose proof (Z.pow_pos_nonneg 2 (Z.of_nat k) ltac:(lia) ltac:(lia)). lia.
Qed.

(** What precedes the next event: no error, or a row of [k + 1] of them. *)
Definition backoffOf (row : option nat) : Z := match row with None => 0 | Some k => delay k end.
Lemma next_backoffOf row : nextBackoff (backoffOf row) = delay (match row with None => 0 | Some k => S k end).
Proof. destruct row as [k|]; [apply delay_next|]. vm_compute. reflexivity. Qed.

Lemma serveLoop_row row n evs : Forall transient evs -> length evs = n ->
  serveLoop (backoffOf row) evs = (delay <$> seq (match row with None => 0 | Some k => S k end) n, 0%nat, None).
Proof.
  intros Hall <-. revert row. induction Hall as [|ev evs (e & He & Ht & Hc & Hd) _ IH]; intros row; [done|].
  cbn [serveLoop length seq fmap list_fmap]. rewrite He, Hc, Ht, Hd, next_backoffOf.
  specialize (IH (Some (match row with None => 0 | Some k => S k end)%nat)). cbn [backoffOf] in IH. by rewrite IH.
Qed.

(** The accept loop outlives descriptor exhaustion: a row of [n] EMFILE or
    ENFILE errors waits 5ms, 10ms, ... doubling up to 1s, and starts again at
    5ms after a connection; every delay is within these bounds; and when
    [Serve] returns it is with the error of its context or with an [Accept]
    error of another kind. *)
Theorem serve_backoff evs1 evs2 (Hrow : Forall transient evs2) :
  let '(delays, n, r) := serveLoop 0 (evs1 ++ mkAccept None None None :: evs2) in
  Forall (fun d => acceptBackoffStart <= d <= acceptBackoffMax) delays /\
  (r = None -> exists before, delays = before ++ (delay <$> seq 0 (length evs2))) /\
  (forall e, r = Some e -> exists ev, ev ∈ evs1 /\
    (ctxAtError ev = Some e \/ ctxInDelay ev = Some e \/
     exists e', acceptErr ev = Some e' /\ isTransientAcceptError e' = false /\ e = Wrapf "accept: %w" [] e')).
Proof.
  change 0 with (backoffOf None). generalize (@None nat) as row. induction evs1 as [|ev evs1 IH]; intros row; cbn [app serveLoop acceptErr].
  - change 0 with (backoffOf None). rewrite (serveLoop_row None (length evs2)) by done. split_and!; [|by exists []|done].
    apply Forall_fmap, Forall_forall. intros k _. apply delay_range.
  - assert (Hin : forall e ev0, ev0 ∈ evs1 /\ (ctxAtError ev0 = Some e \/ ctxInDelay ev0 = Some e \/
      exists e', acceptErr ev0 = Some e' /\ isTransientAcceptError e' = false /\ e = Wrapf "accept: %w" [] e') -> ev0 ∈ ev :: evs1 /\
      (ctxAtError ev0 = Some e \/ ctxInDelay ev0 = Some e \/
      exists e', acceptErr ev0 = Some e' /\ isTransientAcceptError e' = false /\ e = Wrapf "accept: %w" [] e')).
    { intros e ev0 [H1 H2]. split; [by apply list_elem_of_further|done]. }
    destruct (acceptErr ev) as [e|] eqn:Ee; [destruct (ctxAtError ev) as [ce|] eqn:Ec; [|destruct (isTransientAcceptError e) eqn:Et;
      [destruct (ctxInDelay ev) as [ce|] eqn:Ed|]]|].
    + split_and!; [done|done|]. intros e0 [= <-]. exists ev. split; [by apply list_elem_of_here|by left].
    + split_and!; [|done|].
      * rewrite next_backoffOf. apply Forall_singleton, delay_range.
      * intros e0 [= <-]. exists ev. split; [by apply list_elem_of_here|by right; left].
    + rewrite next_backoffOf. specialize (IH (Some (match row with None => 0 | Some k => S k end)%nat)). cbn [backoffOf] in IH.
      destruct (serveLoop _ _) as [[ds n] r]. destruct IH as (Hd & Hn & He). split_and!.
      * constructor; [apply delay_range|done].
      * intros Hr. destruct (Hn Hr) as [b ->]. by exists (delay (match row with None => 0 | Some k => S k end) :: b).
      * intros e0 Hr. destruct (He e0 Hr) as [ev0 H0]. exists ev0. by apply Hin.
    + split_and!; [done|done|]. intros e0 [= <-]. exists ev. split; [by apply list_elem_of_here|]. right; right. by exists e.
    + specialize (IH None). cbn [backoffOf] in IH. destruct (serveLoop _ _) as [[ds n] r]. destruct IH as (Hd & Hn & He).
      split_and!; [done|done|]. intros e0 Hr. destruct (He e0 Hr) as [ev0 H0]. exists ev0. by apply Hin.
Qed.

Lemma serve_backoff_witness :
  let full := mkAccept (Some (SyscallErrno EMFILE)) None None in
  Forall transient [full; full] /\
  serveLoop 0 [full; mkAccept None None None; full; full] = ([5 * Millisecond; 5 * Millisecond; 10 * Millisecond], 1%nat, None) /\
  Forall (fun d => acceptBackoffStart <= d <= acceptBackoffMax) (serveLoop 0 [full; mkAccept None None None; full; full]).1.1.
Proof.
  intros full. assert (Hf : Forall transient [full; full]) by (repeat constructor; by eexists).
  split_and!; [done|done|]. exact (proj1 (serve_backoff [full] [full; full] Hf)).
Defined.
