(* ===== verification/ClientConfig.v ===== *)
(** * The configuration of a client connection

    [client/options.go] and the start of [Dial] ([client/dial.go]): the
    options, the first error among them, and what an accepted configuration
    means for the handshake and for the tags.  Keep-alive, deadlines and
    telemetry do not appear. *)

From S2P Require Import Prelude.
From S2P Require Import GoIO.
From S2P Require Import Types.
From S2P Require Import Proto.
From S2P Require Import Frame.
From S2P Require Import ClientFile.
From S2P Require Import ClientConn.
From S2P Require Import Wire.
From S2P Require Import ClientWire.
From S2P Require Import Handshake.
From S2P Require Import ServerRun.

Open Scope Z_scope.

Section Config.
Context {Logger Tracer Meter : Type}.

Record config : Type := mkConfig {
  err : option GoError;
  msize : Z;
  version : string;                  (* empty: none set *)
  maxInflight : Z;
  logger : option Logger;
  lockPollSchedule : option (list Z);
  requestTimeout : Z;
  cleanupTimeout : Z;
  tracerProvider : option Tracer;
  meterProvider : option Meter
}.
Definition Option : Type := config -> config.

Definition defaultMsize : Z := 2 ^ 20.
Definition defaultMaxInflight : Z := 64.
Definition defaultCleanupTimeout : Z := 5 * Second.
Definition maxMaxInflight : Z := 32766.
Definition ErrMsizeTooLarge : GoError := Sentinel "client: msize too large".

Context (defaultLogger : Logger).
Definition newConfig : config :=
  mkConfig None defaultMsize "" defaultMaxInflight (Some defaultLogger) None 0 defaultCleanupTimeout None None.

Definition setError (e : GoError) (c : config) : config :=
  match err c with
  | None => mkConfig (Some e) (msize c) (version c) (maxInflight c) (logger c) (lockPollSchedule c) (requestTimeout c) (cleanupTimeout c)
      (tracerProvider c) (meterProvider c)
  | Some _ => c
  end.
(** [if cond { c.setError(e) }] *)
Definition errorIf (cond : bool) (e : GoError) (c : config) : config := if cond then setError e c else c.

Definition WithCleanupTimeout (d : Z) : Option := fun c =>
  errorIf (d <=? 0) (Errorf "client: cleanup timeout must be positive" [])
    (mkConfig (err c) (msize c) (version c) (maxInflight c) (logger c) (lockPollSchedule c) (requestTimeout c) d (tracerProvider c) (meterProvider c)).
Definition WithVersion (v : string) : Option := fun c =>
  mkConfig (err c) (msize c) v (maxInflight c) (logger c) (lockPollSchedule c) (requestTimeout c) (cleanupTimeout c) (tracerProvider c) (meterProvider c).
Definition WithMsize (n : Z) : Option := fun c =>
  let c := mkConfig (err c) n (version c) (maxInflight c) (logger c) (lockPollSchedule c) (requestTimeout c) (cleanupTimeout c)
    (tracerProvider c) (meterProvider c) in
  if n <? minMsize then setError Client.ErrMsizeTooSmall c
  else if MaxMessageSize <? n then setError ErrMsizeTooLarge c else c.
Definition WithMaxInflight (n : Z) : Option := fun c =>
  errorIf ((n <? 1) || (maxMaxInflight <? n)) (Errorf "client: max inflight %d outside [1, %d]" [n; maxMaxInflight])
    (mkConfig (err c) (msize c) (version c) n (logger c) (lockPollSchedule c) (requestTimeout c) (cleanupTimeout c) (tracerProvider c) (meterProvider c)).
Definition WithLogger (l : option Logger) : Option := fun c =>
  errorIf (bool_decide (l = None)) (Errorf "client: logger must not be nil" [])
    (mkConfig (err c) (msize c) (version c) (maxInflight c) l (lockPollSchedule c) (requestTimeout c) (cleanupTimeout c) (tracerProvider c) (meterProvider c)).
(** A bad schedule is not stored. *)
Definition WithLockPollSchedule (schedule : list Z) : Option := fun c =>
  match schedule with
  | [] => setError (Errorf "client: lock poll schedule must not be empty" []) c
  | _ =>
      if existsb (fun delay => delay <? 0) schedule
      then setError (Errorf "client: lock poll schedule must not contain negative durations" []) c
      else mkConfig (err c) (msize c) (version c) (maxInflight c) (logger c) (Some schedule) (requestTimeout c) (cleanupTimeout c)
        (tracerProvider c) (meterProvider c)
  end.
Definition WithRequestTimeout (d : Z) : Option := fun c =>
  errorIf (d <? 0) (Errorf "client: request timeout must not be negative" [])
    (mkConfig (err c) (msize c) (version c) (maxInflight c) (logger c) (lockPollSchedule c) d (cleanupTimeout c) (tracerProvider c) (meterProvider c)).
Definition WithTracer (tp : option Tracer) : Option := fun c =>
  errorIf (bool_decide (tp = None)) (Errorf "client: tracer provider must not be nil" [])
    (mkConfig (err c) (msize c) (version c) (maxInflight c) (logger c) (lockPollSchedule c) (requestTimeout c) (cleanupTimeout c) tp (meterProvider c)).
Definition WithMeter (mp : option Meter) : Option := fun c =>
  errorIf (bool_decide (mp = None)) (Errorf "client: meter provider must not be nil" [])
    (mkConfig (err c) (msize c) (version c) (maxInflight c) (logger c) (lockPollSchedule c) (requestTimeout c) (cleanupTimeout c) (tracerProvider c) mp).

(** The options of the package. *)
Inductive isOption : Option -> Prop :=
  | o_cleanup d : isOption (WithCleanupTimeout d)
  | o_version v : isOption (WithVersion v)
  | o_msize n : isOption (WithMsize n)
  | o_inflight n : isOption (WithMaxInflight n)
  | o_logger l : isOption (WithLogger l)
  | o_schedule s : isOption (WithLockPollSchedule s)
  | o_timeout d : isOption (WithRequestTimeout d)
  | o_tracer tp : isOption (WithTracer tp)
  | o_meter mp : isOption (WithMeter mp).

Definition configure (opts : list Option) : config := fold_left (fun c opt => opt c) opts newConfig.

(** [Dial]: no byte moves with a bad configuration or a context that is over. *)
Definition Dial (opts : list Option) (ctxErr : option GoError) : M Net conn :=
  let cfg := configure opts in
  match err cfg with
  | Some e => throw (Wrapf "client.Dial: invalid configuration: %w" [] e)
  | None =>
      match ctxErr with
      | Some e => throw (Wrapf "client.Dial: %w" [] e)
      | None => Client.Dial (msize cfg) (version cfg)
      end
  end.

(** ** Accepted configurations *)

Record Accepted (c : config) : Prop := {
  accepted_msize : minMsize <= msize c <= MaxMessageSize;
  accepted_inflight : 1 <= maxInflight c <= maxMaxInflight;
  accepted_logger : logger c <> None;
  accepted_schedule s : lockPollSchedule c = Some s -> s <> [] /\ Forall (fun d => 0 <= d) s;
  accepted_timeouts : 0 <= requestTimeout c /\ 0 < cleanupTimeout c
}.

Lemma setError_err e c : err (setError e c) <> None.
Proof. unfold setError. by destruct (err c) eqn:E; cbn; rewrite ?E. Qed.
Lemma errorIf_err cond e c : err (errorIf cond e c) = None -> cond = false /\ err c = None /\ errorIf cond e c = c.
Proof. unfold errorIf. destruct cond; [intros H; by destruct (setError_err e c)|done]. Qed.

(** An option that leaves no error found none, and left the rest good. *)
Lemma option_accepted opt c : isOption opt -> err (opt c) = None -> err c = None /\ (Accepted c -> Accepted (opt c)).
Proof.
  intros Ho H. destruct Ho as [d|v|n|n|l|s|d|tp|mp].
  - apply errorIf_err in H as (Hc & H & He). split; [done|]. intros []. unfold WithCleanupTimeout. rewrite He.
    split; cbn; try done. apply Z.leb_gt in Hc. tauto.
  - split; [done|]. by intros [].
  - unfold WithMsize in *. destruct (Z.ltb_spec n minMsize); [by destruct (setError_err _ _ H)|].
    destruct (Z.ltb_spec MaxMessageSize n); [by destruct (setError_err _ _ H)|]. split; [done|]. intros []. by split.
  - apply errorIf_err in H as (Hc & H & He). split; [done|]. intros []. unfold WithMaxInflight. rewrite He.
    apply orb_false_iff in Hc as [H1%Z.ltb_ge H2%Z.ltb_ge]. by split.
  - apply errorIf_err in H as (Hc & H & He). split; [done|]. intros []. unfold WithLogger. rewrite He.
    apply bool_decide_eq_false in Hc. by split.
  - unfold WithLockPollSchedule in *. destruct s as [|d0 s]; [by destruct (setError_err _ _ H)|].
    destruct (existsb _ _) eqn:Ee; [by destruct (setError_err _ _ H)|]. split; [done|]. intros []. split; cbn; try done.
    intros s' [= <-]. split; [done|]. apply Forall_forall. intros d Hd. apply list_elem_of_In in Hd.
    destruct (Z.ltb_spec d 0) as [Hlt|]; [|done]. apply Z.ltb_lt in Hlt.
    assert (existsb (fun delay => delay <? 0) (d0 :: s) = true) by (apply existsb_exists; by exists d). congruence.
  - apply errorIf_err in H as (Hc & H & He). split; [done|]. intros []. unfold WithRequestTimeout. rewrite He.
    split; cbn; try done. apply Z.ltb_ge in Hc. tauto.
  - apply errorIf_err in H as (Hc & H & He). split; [done|]. intros []. unfold WithTracer. rewrite He. by split.
  - apply errorIf_err in H as (Hc & H & He). split; [done|]. intros []. unfold WithMeter. rewrite He. by split.
Qed.

Lemma newConfig_accepted : Accepted newConfig.
Proof. split; cbn; try done; by vm_compute. Qed.

Lemma configure_accepted opts : Forall isOption opts -> err (configure opts) = None -> Accepted (configure opts).
Proof.
  intros Hall. unfold configure.
  assert (H : forall c, err (fold_left (fun c opt => opt c) opts c) = None -> err c = None /\ (Accepted c -> Accepted (fold_left (fun c opt => opt c) opts c))).
  { induction Hall as [|opt opts Ho _ IH]; intros c; cbn; [done|]. intros He. destruct (IH (opt c) He) as [H1 H2].
    destruct (option_accepted opt c Ho H1) as [H3 H4]. auto. }
  intros He. apply H; [done|]. apply newConfig_accepted.
Qed.

(** The tags of an accepted configuration and of their flushes are apart from
    each other and from [NoTag]. *)
Lemma accepted_tags c t t' : Accepted c -> 1 <= t <= maxInflight c -> 1 <= t' <= maxInflight c ->
  flushTagFor t <> t' /\ flushTagFor t <> NoTag /\ t <> NoTag /\ (flushTagFor t = flushTagFor t' -> t = t').
Proof.
  intros [_ Hm _ _ _] Ht Ht'. unfold maxMaxInflight in Hm. assert (flushTagBit = 32768) by done. assert (NoTag = 65535) by done.
  rewrite !ClientConn.System.flushTagFor_add by lia. lia.
Qed.
End Config.

(** ** Both ends, configured *)

Definition dialectFor (ver : string) : protocol := if decide (ver = VersionU) then protocolU else protocolL.
Definition serverDialect (d : protocol) : Bridge.protocol := match d with protocolU => Bridge.protocolU | _ => Bridge.protocolL end.

Lemma proposed_select ver : ver = "" \/ ver = VersionL \/ ver = VersionU ->
  (selectedBy (Client.proposed ver)).1 = serverDialect (dialectFor ver) /\
  clientDialect (serverDialect (dialectFor ver)) = Some (dialectFor ver) /\ strlen (Client.proposed ver) = 8.
Proof. intros [-> | [-> | ->] ]; by vm_compute. Qed.

(** C23: Whatever options the client and the server are made with: when both
    configurations are accepted and the client asks for a dialect the library
    has (or for none), the server answers [Dial]'s proposal with a reply that
    leaves both ends with the same dialect and the smaller of their msizes,
    each having taken exactly the other's message off the connection; and the
    tags the client may use are apart from the tags of its flushes and from
    [NoTag]. *)
Theorem configured_ends_agree {Logger Tracer Meter Node Attacher SLogger S : Type} (l : Logger)
    (opts : list (@Option Logger Tracer Meter)) (s : Server Node Attacher SLogger S)
    (Hopts : Forall isOption opts) (Hc : err (configure l opts) = None) (Hs : validate s = None)
    (Hver : version (configure l opts) = "" \/ version (configure l opts) = VersionL \/ version (configure l opts) = VersionU) :
  let cfg := configure l opts in
  let agreed := Z.min (msize cfg) (maxMsize s) in
  let d := dialectFor (version cfg) in
  (exists answer,
    (forall n rest out, avail (rd n) = request (msize cfg) (Client.proposed (version cfg)) ++ rest -> wr n = Conn out None ->
      exists n', avail (rd n') = rest /\ wr n' = Conn (out ++ answer) None /\
        Handshake.Server.negotiateVersion (maxMsize s) n =
          (Ok (agreed, serverDialect d), n')) /\
    (forall n rest out, avail (rd n) = answer ++ rest -> wr n = Conn out None ->
      exists n', Dial l opts None n = (Ok (mkConn d agreed newInflightMap false (wr n')), n') /\ avail (rd n') = rest /\
        wr n' = Conn (out ++ request (msize cfg) (Client.proposed (version cfg))) None)) /\
  (forall t t', 1 <= t <= maxInflight cfg -> 1 <= t' <= maxInflight cfg ->
    flushTagFor t <> t' /\ flushTagFor t <> NoTag /\ t <> NoTag /\ (flushTagFor t = flushTagFor t' -> t = t')).
Proof.
  intros cfg agreed d. pose proof (configure_accepted l opts Hopts Hc) as Ha. apply validate_spec in Hs.
  split; [|intros t t'; by apply accepted_tags]. fold cfg in Ha, Hc, Hver.
  destruct (proposed_select _ Hver) as (Hsel & Hd & Hlen). fold d in Hsel, Hd.
  pose proof (accepted_msize _ Ha) as Hcm. pose proof (valid_msize _ Hs) as Hsm.
  exists (reply agreed (selectedBy (Client.proposed (version cfg))).2). split; intros n rest out Hav Hw.
  - destruct (server_end (msize cfg) (maxMsize s) Hcm Hsm (Client.proposed (version cfg)) n rest out) as (n' & H1 & H2 & H3); try done.
    { rewrite Hlen. unfold Handshake.Server.maxVersionFrame, minMsize in *. lia. }
    exists n'. split; [done|]. split; [done|]. rewrite H3, Hsel. by destruct d.
  - destruct (client_end (msize cfg) (maxMsize s) Hcm Hsm (version cfg) n rest out) as (n' & r & H1 & H2 & H3 & H4); try done.
    { unfold str_ok, MaxStringLen. lia. }
    exists n'. split; [|done]. unfold Dial. fold cfg. rewrite Hc, H1. unfold dialed in H4. rewrite Hsel, Hd in H4. by rewrite H4.
Qed.

(** The defaults of both, and a server that takes smaller messages. *)
Lemma configured_ends_agree_witness :
  let cfg := configure (Logger := unit) (Tracer := unit) (Meter := unit) tt [WithMaxInflight 100] in
  let s := fold_left (fun s opt => opt s) [WithMaxMsize 8192] (ServerRun.defaults (Attacher := unit) (S := unit) (fun l => l) tt (Some tt)) in
  err cfg = None /\ validate s = None /\
  (exists answer, forall n rest out, avail (rd n) = answer ++ rest -> wr n = Conn out None ->
    exists n', Dial (Tracer := unit) (Meter := unit) tt [WithMaxInflight 100] None n = (Ok (mkConn protocolL 8192 newInflightMap false (wr n')), n')) /\
  flushTagFor 7 <> 100.
Proof.
  intros cfg s. assert (Hc : err cfg = None) by by vm_compute. assert (Hs : validate s = None) by by vm_compute.
  split; [done|]. split; [done|].
  destruct (configured_ends_agree (Tracer := unit) (Meter := unit) tt [WithMaxInflight 100] s) as [(answer & _ & Hdial) Htags];
    [by repeat constructor|done|done|by left|]. split.
  - exists answer. intros n rest out Hav Hw. destruct (Hdial n rest out Hav Hw) as (n' & E & _). by exists n'.
  - apply (Htags 7 100); by vm_compute.
Defined.
