(* ===== verification/ServerConn.v ===== *)
(** * The server's connection loop

    [server/conn.go] from the bytes of a request to the bytes of its response:
    [readFrameLocked] with the message table of the dialect, [handleRequest],
    [dispatchInline] around [dispatch], [sendResponseInline] and the
    renegotiation of the version in [handleReVersion].  The loop is that of one
    goroutine: it stops where [readFrameLocked] has it start a second one,
    which would read on while the request is handled.  With [WithMaxInflight]
    at 1 it never does, and a request is handled before the next is read; the
    goroutines of a larger limit are in [Workers], the interleavings of their
    requests and flushes in [Inflight].

    The theorems: what reaches [dispatch] is a well-formed request of the
    dialect; with one request at a time the connection turns the frames of
    requests into the frames of [dispatch]'s answers, and client and server
    together answer every caller; and
    an answer larger than the msize ends the connection. *)

From S2P Require Import Prelude GoIO Types Errno Proto Messages P9l P9u Message Frame Codec Wire Bufpool FidTable.
From S2P Require Import Bridge Inode Namespace ClientConn.
From S2P Require ClientWire Handshake Workers.

(** ** The message table *)

Definition sharedCases : list (MessageType * Message) :=
  [ (TypeTattach, MTattach Tattach.zero); (TypeTwalk, MTwalk Twalk.zero); (TypeTclunk, MTclunk Tclunk.zero);
    (TypeTflush, MTflush Tflush.zero); (TypeTauth, MTauth Tauth.zero); (TypeTread, MTread Tread.zero);
    (TypeTwrite, MTwrite Twrite.zero); (TypeTremove, MTremove Tremove.zero) ].

Definition lCases : list (MessageType * Message) :=
  [ (TypeTlopen, MTlopen Tlopen.zero); (TypeTlcreate, MTlcreate Tlcreate.zero); (TypeTgetattr, MTgetattr Tgetattr.zero);
    (TypeTsetattr, MTsetattr Tsetattr.zero); (TypeTreaddir, MTreaddir Treaddir.zero); (TypeTmkdir, MTmkdir Tmkdir.zero);
    (TypeTsymlink, MTsymlink Tsymlink.zero); (TypeTlink, MTlink Tlink.zero); (TypeTmknod, MTmknod Tmknod.zero);
    (TypeTreadlink, MTreadlink Treadlink.zero); (TypeTstatfs, MTstatfs Tstatfs.zero); (TypeTfsync, MTfsync Tfsync.zero);
    (TypeTunlinkat, MTunlinkat Tunlinkat.zero); (TypeTrenameat, MTrenameat Trenameat.zero); (TypeTrename, MTrename Trename.zero);
    (TypeTlock, MTlock Tlock.zero); (TypeTgetlock, MTgetlock Tgetlock.zero); (TypeTxattrwalk, MTxattrwalk Txattrwalk.zero);
    (TypeTxattrcreate, MTxattrcreate Txattrcreate.zero) ].

Definition uCases : list (MessageType * Message) :=
  [ (TypeTopen, MTopen Topen.zero); (TypeTcreate, MTcreate Tcreate.zero); (TypeTstat, MTstat Tstat.zero);
    (TypeTwstat, MTwstat Twstat.zero) ].

Definition newFrom (cases : list (MessageType * Message)) (t : MessageType) : result Message :=
  match assoc t cases with Some m => Ok m | None => Err (Errorf "unknown message type %d" [t]) end.
Definition newLMessage : MessageType -> result Message := newFrom lCases.
Definition newUMessage : MessageType -> result Message := newFrom uCases.

Definition newMessage (proto : protocol) (t : MessageType) : result Message :=
  match assoc t sharedCases with
  | Some m => Ok m
  | None =>
      match proto with
      | protocolL => newLMessage t
      | protocolU => newUMessage t
      | protocolNone => Err (Errorf "unknown message type %d" [t])
      end
  end.

(** ** One frame *)

(** The three shapes of a frame that was read, and a body that does not
    decode. *)
Inductive recvFrame : Type :=
  | UnknownType (tag : Tag)
  | ReVersion (tag : Tag) (body : bytes)
  | Request (tag : Tag) (msg : Message)
  | DecodeErr (tag : Tag) (e : GoError).

(** The type switch on [Twrite]: writes decode without a copy. *)
Definition decodeRequest (tag : Tag) (msg : Message) (b : bytes) : recvFrame :=
  match msg with
  | MTwrite _ =>
      match Twrite.DecodeFromBuf b with
      | Ok m => Request tag (MTwrite m)
      | Err e => DecodeErr tag e
      end
  | _ =>
      match Message_DecodeFrom msg (BytesReader b) with
      | (Ok msg, _) => Request tag msg
      | (Err e, _) => DecodeErr tag e
      end
  end.

Definition parseFrame (proto : protocol) (b : bytes) : recvFrame :=
  let msgType := msgTypeOf b in
  let tag := tagOf b in
  if msgType =? TypeTversion then ReVersion tag (drop 3 b) else
  match newMessage proto msgType with
  | Err _ => UnknownType tag
  | Ok msg => decodeRequest tag msg (drop 3 b)
  end.

Definition readFrameLocked (proto : protocol) (msize : Z) : M Reader recvFrame := fun r =>
  match readFrameBytes msize r with
  | (Ok (_, b), r) => (Ok (parseFrame proto b), r)
  | (Err e, r) => (Err e, r)
  end.

(** A response that cannot be encoded is replaced by EIO, which can. *)
Definition sendResponseInline (proto : protocol) (tag : Tag) (msg : Message) : M Writer unit :=
  let put msg bp := WriteFramesLocked (encBufs (encHdr (wireSize bp.1 bp.2) (Message_Type msg) tag) bp.1 bp.2) in
  match encodeParts msg with
  | Ok bp => put msg bp
  | Err _ => match encodeParts (errorMsg proto EIO) with Ok bp => put (errorMsg proto EIO) bp | Err e => throw e end
  end.

(** ** What is read is a request of the dialect *)

Definition keyedCases (cases : list (MessageType * Message)) : bool := forallb (fun kv => Message_Type kv.2 =? kv.1) cases.

Lemma assoc_keyed cases t m : keyedCases cases = true -> assoc t cases = Some m -> Message_Type m = t.
Proof. intros Hk E. apply Z.eqb_eq. exact (assoc_Forall (fun k v => Message_Type v =? k) cases t m Hk E). Qed.

Lemma newFrom_keyed cases t m : keyedCases cases = true -> newFrom cases t = Ok m -> Message_Type m = t.
Proof. unfold newFrom. destruct (assoc t cases) eqn:E; [|done]. intros Hk [= <-]. by eapply assoc_keyed. Qed.

Lemma newMessage_ok proto t m : newMessage proto t = Ok m -> Message_Type m = t.
Proof.
  unfold newMessage. destruct (assoc t sharedCases) eqn:E; [intros [= <-]; by apply (assoc_keyed sharedCases t)|].
  destruct proto; [done|by apply newFrom_keyed..].
Qed.

Lemma newMessage_not_version proto : exists e, newMessage proto TypeTversion = Err e.
Proof. destruct proto; eexists; reflexivity. Qed.

(** Both decoders accept the same bodies. *)
Lemma decodeRequest_spec tag m0 b :
  Z.of_nat (length b) < 2 ^ 32 ->
  match decodeRequest tag m0 b with
  | Request t m => t = tag /\ Message_wf m /\ Message_Type m = Message_Type m0 /\ exists rest, b = Message_wire m ++ rest
  | DecodeErr t _ => t = tag /\ forall m rest, Message_wf m -> Message_Type m = Message_Type m0 -> b <> Message_wire m ++ rest
  | _ => False
  end.
Proof.
  intros Hb. assert (match (match Message_DecodeFrom m0 (BytesReader b) with (Ok m, _) => Request tag m | (Err e, _) => DecodeErr tag e end) with
    | Request t m => t = tag /\ Message_wf m /\ Message_Type m = Message_Type m0 /\ exists rest, b = Message_wire m ++ rest
    | DecodeErr t _ => t = tag /\ forall m rest, Message_wf m -> Message_Type m = Message_Type m0 -> b <> Message_wire m ++ rest
    | _ => False end) as Hgen.
  { destruct (Message_DecodeFrom m0 (BytesReader b)) as [[m|e] br] eqn:Ed.
    - split; [done|]. by apply decode_sound in Ed.
    - split; [done|]. intros m rest Hwf Ht ->.
      destruct (decoder_complete (Message_decoder m0) m (BytesReader (Message_wire m ++ rest)) rest) as (r' & E & _);
        [done|done|]. congruence. }
  destruct m0; try exact Hgen. clear Hgen. cbn [decodeRequest].
  destruct (Twrite.DecodeFromBuf b) as [m'|e] eqn:Ed.
  - apply Twrite_DecodeFromBuf_spec in Ed as [Hwf Hr]; done.
  - split; [done|]. intros m1 rest Hwf Ht ->. destruct m1; try discriminate Ht.
    assert (Twrite.DecodeFromBuf (Twrite.wire m0 ++ rest) = Ok m0) as E; [|cbn in Ed; congruence].
    apply Twrite_DecodeFromBuf_spec; [done|]. split; [exact Hwf|by exists rest].
Qed.

(** A frame of a well-formed request of the dialect. *)
Definition request_ok (proto : protocol) (msize : Z) (tm : Tag * Message) : Prop :=
  u16 tm.1 /\ Message_wf tm.2 /\ frame_size tm.2 <= msize /\ exists m0, newMessage proto (Message_Type tm.2) = Ok m0.

Lemma parseFrame_inner proto msize tm :
  request_ok proto msize tm -> parseFrame proto (inner tm) = Request tm.1 tm.2.
Proof.
  intros (Hu & Hwf & _ & m0 & Hm0). unfold parseFrame. rewrite msgTypeOf_inner, tagOf_inner, drop_inner by done. cbv zeta.
  destruct (Z.eqb_spec (Message_Type tm.2) TypeTversion) as [Ht|_].
  { rewrite Ht in Hm0. destruct (newMessage_not_version proto) as [e E]. congruence. }
  rewrite Hm0. pose proof (newMessage_ok _ _ _ Hm0) as HT.
  assert (Z.of_nat (length (Message_wire tm.2)) < 2 ^ 32) as Hlen.
  { apply Message_size_bound in Hwf. assert (MaxDataSize + 4096 < 2 ^ 32) by done. lia. }
  pose proof (decodeRequest_spec tm.1 m0 (Message_wire tm.2) Hlen) as Hs.
  destruct (decodeRequest _ _ _) as [| |t m|t e]; [done|done| |].
  - destruct Hs as (-> & Hwf' & Ht' & rest & E). f_equal.
    assert (decoder (Message_DecodeFrom m0) (fun m => Message_wf m /\ Message_Type m = Message_Type m0) Message_wire) as [Hc _]
      by apply Message_decoder.
    destruct (Hc m (BytesReader (Message_wire m ++ rest)) rest) as (r1 & E1 & _); [done|done|].
    destruct (Hc tm.2 (BytesReader (Message_wire tm.2 ++ [])) []) as (r2 & E2 & _); [done|done|].
    rewrite app_nil_r, E in E2. congruence.
  - destruct Hs as [_ Hs]. exfalso. apply (Hs tm.2 []); [done|done|]. by rewrite app_nil_r.
Qed.

Lemma readFrameLocked_request proto msize tm r rest :
  request_ok proto msize tm -> avail r = frame tm ++ rest ->
  exists r', readFrameLocked proto msize r = (Ok (Request tm.1 tm.2), r') /\ avail r' = rest.
Proof.
  intros Hq Hav. pose proof Hq as (_ & Hwf & Hs & _).
  destruct (readFrameBytes_frame msize tm r rest Hwf Hs Hav) as (r' & E & Hr). exists r'.
  unfold readFrameLocked. rewrite E. by rewrite (parseFrame_inner proto msize).
Qed.

(** C21: the requests of a connection are typed.  Whatever bytes a client
    sends, a frame the receive loop accepts is no larger than the msize, and a
    request it hands on is a well-formed message that the negotiated dialect
    has, decoded from the bytes of that frame under the tag the frame carries;
    the loop answers "unknown" only to a type the dialect does not have, and
    gives up on a body only when it starts with the encoding of no message of
    its type. *)
Theorem server_frames_typed proto msize r f r' :
  readFrameLocked proto msize r = (Ok f, r') ->
  exists b, avail r = le_bytes 4 (4 + Len b) ++ b ++ avail r' /\ HeaderSize <= 4 + Len b <= msize /\
    match f with
    | Request tag m =>
        tag = tagOf b /\ Message_wf m /\ Message_Type m = msgTypeOf b /\ (exists m0, newMessage proto (Message_Type m) = Ok m0) /\
        exists rest, drop 3 b = Message_wire m ++ rest
    | UnknownType tag => tag = tagOf b /\ exists e, newMessage proto (msgTypeOf b) = Err e
    | ReVersion tag body => tag = tagOf b /\ msgTypeOf b = TypeTversion /\ body = drop 3 b
    | DecodeErr tag _ =>
        tag = tagOf b /\ forall m rest, Message_wf m -> Message_Type m = msgTypeOf b -> drop 3 b <> Message_wire m ++ rest
    end.
Proof.
  unfold readFrameLocked. destruct (readFrameBytes msize r) as [[[n b]|e] r1] eqn:E; [|done]. intros [= <- ->].
  apply (decoder_sound (readFrameBytes_decoder msize)) in E as [(Hn & Hh & Hm & Hu) [_ Hav]]. cbn [fst snd] in *. subst n.
  exists b. unfold bytes_wire in Hav. cbn [fst snd] in Hav. rewrite <- app_assoc in Hav. split; [done|]. split; [done|].
  unfold parseFrame. cbv zeta. destruct (Z.eqb_spec (msgTypeOf b) TypeTversion) as [Ht|Ht]; [done|].
  destruct (newMessage proto (msgTypeOf b)) as [m0|e] eqn:E0; [|split; [done|by eexists]].
  pose proof (newMessage_ok _ _ _ E0) as HT.
  assert (Z.of_nat (length (drop 3 b)) < 2 ^ 32) as Hb by (rewrite length_drop; unfold is_uint, Len in *; lia).
  pose proof (decodeRequest_spec (tagOf b) m0 (drop 3 b) Hb) as Hs. rewrite HT in Hs.
  destruct (decodeRequest _ _ _) as [| |t m|t e]; [done|done| |done].
  destruct Hs as (-> & Hwf & Ht' & Hr). rewrite Ht'. split_and!; [done..|by eexists|done].
Qed.

(** A Twrite with data after its payload is accepted, as the write it starts
    with. *)
Lemma server_frames_typed_witness :
  let b := le_bytes 1 TypeTwrite ++ le_bytes 2 7 ++ Twrite.wire (Twrite.mk 1 0 [byte_of_Z 65]) ++ [byte_of_Z 1] in
  let r := BytesReader (le_bytes 4 (4 + Len b) ++ b) in
  exists r', readFrameLocked protocolU 256 r = (Ok (Request 7 (MTwrite (Twrite.mk 1 0 [byte_of_Z 65]))), r') /\
    exists b, avail r = le_bytes 4 (4 + Len b) ++ b ++ avail r' /\ HeaderSize <= 4 + Len b <= 256 /\
      exists rest, drop 3 b = Twrite.wire (Twrite.mk 1 0 [byte_of_Z 65]) ++ rest.
Proof.
  intros b r. eexists. split; [by vm_compute|].
  destruct (server_frames_typed protocolU 256 r (Request 7 (MTwrite (Twrite.mk 1 0 [byte_of_Z 65]))) (BytesReader []))
    as (b' & Hav & Hs & _ & _ & _ & _ & rest & Hr); [by vm_compute|]. exists b'. split; [done|]. split; [done|]. by exists rest.
Defined.

(** ** What is written *)

Lemma errorMsg_wf proto : Message_wf (errorMsg proto EIO) /\ Message_wf (errorMsg proto ENOSYS).
Proof. destruct proto; repeat split; by vm_compute. Qed.

(** The response that goes out. *)
Definition onWire (proto : protocol) (m : Message) : Message :=
  if decide (Message_encodable m) then m else errorMsg proto EIO.

Lemma sendResponseInline_emits proto tag m : emits (sendResponseInline proto tag m) (frame (tag, onWire proto m)).
Proof.
  assert (forall m b p, encodeParts m = Ok (b, p) -> Message_encodable m -> b ++ p = Message_wire m) as Hparts.
  { intros m' b p E (b' & p' & E' & Hw)%encodeParts_ok. rewrite E in E'. by simplify_eq. }
  unfold sendResponseInline, onWire. case_decide as He.
  - destruct (encodeParts_ok m He) as (b & p & E & Hw). rewrite E. by apply encBufs_emits.
  - destruct (encodeParts_err m He) as [e ->]. pose proof (proj1 (errorMsg_wf proto)) as Hwf.
    destruct (encodeParts_ok _ (Message_wf_encodable _ Hwf)) as (b & p & E & Hw). rewrite E. by apply encBufs_emits.
Qed.

(** ** The connection *)

Section Loop.
Context {U Handle XattrWriter : Type} `{NodeOps U Handle XattrWriter}.
Context `{Capabilities (NS U) NodeId Handle XattrWriter} `{BufPool}.
Context (range : gmap string NodeId -> list (string * NodeId)).
(** The server's configuration. *)
Context (maxInflight : nat) (maxMsize maxFids : Z).
Abbreviation Srv := (@Server (NS U) NodeId Handle XattrWriter).

Definition negotiationRateLimit : Z := 100 * 1000 * 1000.

Record conn : Type := mkConn {
  proto : protocol;
  msize : Z;
  srv : Srv;
  net : Net;
  lastNegotiation : Z;
  recvShutdown : bool     (** or the connection was closed *)
}.
Definition setSrv (s : Srv) (c : conn) : conn := mkConn (proto c) (msize c) s (net c) (lastNegotiation c) (recvShutdown c).
Definition setRd (r : Reader) (c : conn) : conn :=
  mkConn (proto c) (msize c) (srv c) (mkNet r (wr (net c))) (lastNegotiation c) (recvShutdown c).
Definition setWr (w : Writer) (c : conn) : conn :=
  mkConn (proto c) (msize c) (srv c) (mkNet (rd (net c)) w) (lastNegotiation c) (recvShutdown c).
Definition shutdownRecv (c : conn) : conn := mkConn (proto c) (msize c) (srv c) (net c) (lastNegotiation c) true.
Definition setNegotiated (p : protocol) (n : Z) (c : conn) : conn :=
  mkConn p n (srv c) (net c) (lastNegotiation c) (recvShutdown c).
Definition setLast (t : Z) (c : conn) : conn := mkConn (proto c) (msize c) (srv c) (net c) t (recvShutdown c).

(** A failed write shuts the receive side down. *)
Definition sendResponse (tag : Tag) (msg : Message) (c : conn) : conn :=
  match sendResponseInline (proto c) tag msg (wr (net c)) with
  | (Ok _, w) => setWr w c
  | (Err _, w) => shutdownRecv (setWr w c)
  end.
Definition sendError (tag : Tag) (errno : Errno) (c : conn) : conn := sendResponse tag (errorMsg (proto c) errno) c.

(** A Tversion in the middle of a connection, at time [now]; [drained]:
    whether the handlers in flight ended in time. *)
Definition handleReVersion (now : Z) (drained : bool) (tag : Tag) (body : bytes) (c : conn) : conn :=
  if now - lastNegotiation c <? negotiationRateLimit then c else
  let c := setLast now c in
  if negb drained then shutdownRecv c else
  let c := setSrv (cleanupFids range true (srv c)).2 c in
  match (Tversion.DecodeFrom (BytesReader body)).1 with
  | Err _ => shutdownRecv c
  | Ok tver =>
      match Handshake.Server.negotiate maxMsize tver with
      | Err _ => shutdownRecv c
      | Ok res =>
          match Handshake.Server.writeRaw tag (MRversion (Rversion.mk (Handshake.Server.msize res) (Handshake.Server.version res))) (net c) with
          | (Err _, s) => shutdownRecv (setWr (wr s) c)
          | (Ok _, s) =>
              let c := setWr (wr s) c in
              if decide (Handshake.Server.selected res = protocolNone) then c
              else setNegotiated (Handshake.Server.selected res) (Handshake.Server.msize res) c
          end
      end
  end.

(** [dispatchInline], without a panic: the tag is not in flight, so [start]
    accepts it. *)
Definition dispatchInline (tag : Tag) (msg : Message) (c : conn) : conn :=
  let '(resp, s) := dispatch range (msize c) (proto c) maxFids msg (srv c) in
  sendResponse tag resp (setSrv s c).

(** The decision of [readFrameLocked] for the only goroutine of the connection:
    nobody else waits for the lock. *)
Definition frameOf (f : recvFrame) : Workers.frame :=
  match f with
  | ReVersion _ _ => Workers.FVersion
  | DecodeErr _ _ => Workers.FBad
  | Request _ (MTflush _) | UnknownType _ => Workers.FOther
  | Request _ _ => Workers.FRequest
  end.
Definition spawnReplacement (f : recvFrame) : bool :=
  let alone := Workers.serveStart in
  Workers.spawns maxInflight (frameOf f) (Workers.recvIdle alone =? 0)%nat alone.

(** One iteration of [handleRequest] by the only goroutine; [None] when it
    starts another.  A Tflush finds no request in flight. *)
Definition handleRequest (now : Z) (c : conn) : option conn :=
  if recvShutdown c then Some c else
  match readFrameLocked (proto c) (msize c) (rd (net c)) with
  | (Err _, r) => Some (shutdownRecv (setRd r c))
  | (Ok f, r) =>
      if spawnReplacement f then None else
      let c := setRd r c in
      Some match f with
      | ReVersion tag body => handleReVersion now true tag body c
      | UnknownType tag => sendError tag ENOSYS c
      | DecodeErr _ _ => shutdownRecv c
      | Request tag (MTflush _) => sendResponse tag (MRflush Rflush.zero) c
      | Request tag msg => dispatchInline tag msg c
      end
  end.

(** The frames that arrive at the given times. *)
Fixpoint handleRequests (times : list Z) (c : conn) : option conn :=
  match times with
  | [] => Some c
  | now :: times => c ← handleRequest now c; handleRequests times c
  end.

(** ** The messages of a connection *)

(** What a request does to the file system and what the client is told. *)
Definition handled (c : conn) (tm : Tag * Message) (s : Srv) : (Tag * Message) * Srv :=
  match tm.2 with
  | MTflush _ => ((tm.1, MRflush Rflush.zero), s)
  | m => let '(resp, s) := dispatch range (msize c) (proto c) maxFids m s in ((tm.1, onWire (proto c) resp), s)
  end.

Fixpoint answers (c : conn) (tms : list (Tag * Message)) (s : Srv) : list (Tag * Message) * Srv :=
  match tms with
  | [] => ([], s)
  | tm :: tms =>
      let '(a, s) := handled c tm s in
      let '(rest, s) := answers c tms s in
      (a :: rest, s)
  end.

Lemma sendResponse_ok tag m c out :
  wr (net c) = Conn out None -> sendResponse tag m c = setWr (Conn (out ++ frame (tag, onWire (proto c) m)) None) c.
Proof.
  intros Hw. unfold sendResponse. pose proof (sendResponseInline_emits (proto c) tag m (wr (net c))) as He.
  rewrite Hw in *. cbn [fits push] in He. by rewrite He.
Qed.

Lemma spawnReplacement_one f : maxInflight = 1%nat -> spawnReplacement f = false.
Proof. unfold spawnReplacement. intros ->. by destruct (frameOf f). Qed.

Lemma handleRequest_ok now c tm rest out : maxInflight = 1%nat ->
  recvShutdown c = false -> request_ok (proto c) (msize c) tm -> avail (rd (net c)) = frame tm ++ rest ->
  wr (net c) = Conn out None ->
  exists r, avail r = rest /\
    handleRequest now c = Some (setWr (Conn (out ++ frame (handled c tm (srv c)).1) None) (setSrv (handled c tm (srv c)).2 (setRd r c))).
Proof.
  intros Hone Hc Hq Hav Hw. destruct (readFrameLocked_request _ _ tm _ _ Hq Hav) as (r & E & Hr). exists r. split; [done|].
  unfold handleRequest. rewrite Hc, E, spawnReplacement_one by done. cbv zeta. destruct tm as [tag m]. unfold handled. cbn [fst snd].
  destruct m; try (unfold dispatchInline; cbn [msize proto srv setRd]; destruct (dispatch _ _ _ _ _ _) as [resp s];
    cbn [fst snd]; by rewrite (sendResponse_ok _ _ _ out)).
  cbn [fst snd]. rewrite (sendResponse_ok _ _ _ out) by done. unfold onWire. rewrite decide_True by done. by destruct c.
Qed.

Lemma handled_conn c c' : proto c' = proto c -> msize c' = msize c -> forall tm s, handled c' tm s = handled c tm s.
Proof. intros Hp Hm tm s. unfold handled. by rewrite Hp, Hm. Qed.

Lemma answers_conn c c' : proto c' = proto c -> msize c' = msize c -> forall tms s, answers c' tms s = answers c tms s.
Proof.
  intros Hp Hm tms. induction tms as [|tm tms IH]; intros s; [done|]. cbn. rewrite (handled_conn c c') by done.
  destruct (handled c tm s) as [a s1]. by rewrite IH.
Qed.

Lemma answers_tags c tms s : (answers c tms s).1.*1 = tms.*1.
Proof.
  revert s. induction tms as [|[tag m] tms IH]; intros s; [done|]. cbn.
  assert ((handled c (tag, m) s).1.1 = tag) as Ht.
  { unfold handled. cbn [fst snd]. destruct m; try done; by destruct (dispatch _ _ _ _ _ _). }
  destruct (handled c (tag, m) s) as [a s1]. specialize (IH s1). destruct (answers c tms s1). cbn in *. by rewrite Ht, IH.
Qed.

(** The bytes of requests become the bytes of their answers. *)
Lemma handleRequests_answers times tms c rest out : maxInflight = 1%nat ->
  length times = length tms -> recvShutdown c = false -> Forall (request_ok (proto c) (msize c)) tms ->
  avail (rd (net c)) = wire_list frame tms ++ rest -> wr (net c) = Conn out None ->
  exists r, avail r = rest /\
    handleRequests times c =
      Some (setWr (Conn (out ++ wire_list frame (answers c tms (srv c)).1) None) (setSrv (answers c tms (srv c)).2 (setRd r c))).
Proof.
  intros Hone. revert times c out. induction tms as [|tm tms IH]; intros [|now times] c out Hl Hc Hq Hav Hw; try discriminate Hl.
  - exists (rd (net c)). split; [done|]. cbn. rewrite app_nil_r, <- Hw. by destruct c as [? ? ? [] ? ?].
  - apply Forall_cons in Hq as [Hq Hqs]. unfold wire_list in Hav. cbn [map concat] in Hav. rewrite <- app_assoc in Hav.
    destruct (handleRequest_ok now c tm _ out Hone Hc Hq Hav Hw) as (r1 & Hr1 & E). cbn [handleRequests]. rewrite E. cbn [mbind option_bind].
    cbn [answers]. destruct (handled c tm (srv c)) as [a s1] eqn:Eh. cbn [fst snd].
    set (c1 := setWr _ (setSrv s1 (setRd r1 c))).
    destruct (IH times c1 (out ++ frame a)) as (r & Hr & E2); [by injection Hl|done|done|exact Hr1|done|].
    exists r. split; [done|]. rewrite E2, (answers_conn c c1) by done. cbn [srv c1 setWr setSrv].
    destruct (answers c tms s1) as [rest' s2]. unfold wire_list. cbn [fst snd map concat]. by rewrite app_assoc.
Qed.

(** A request whose type the dialect does not have. *)
Lemma unknown_refused now c tag t body out r b : maxInflight = 1%nat ->
  b = le_bytes 1 t ++ le_bytes 2 tag ++ body -> u8 t -> u16 tag -> t <> TypeTversion ->
  (exists e, newMessage (proto c) t = Err e) -> recvShutdown c = false ->
  readFrameBytes (msize c) (rd (net c)) = (Ok (4 + Len b, b), r) -> wr (net c) = Conn out None ->
  handleRequest now c = Some (setWr (Conn (out ++ frame (tag, errorMsg (proto c) ENOSYS)) None) (setRd r c)).
Proof.
  intros Hone -> Ht Htag Hne [e He] Hc Hr Hw. unfold handleRequest, readFrameLocked. rewrite Hc, Hr, spawnReplacement_one by done. unfold parseFrame.
  assert (msgTypeOf (le_bytes 1 t ++ le_bytes 2 tag ++ body) = t) as ->
    by (unfold msgTypeOf; by rewrite take_field, (le_val_le_bytes_id 1 8)).
  assert (tagOf (le_bytes 1 t ++ le_bytes 2 tag ++ body) = tag) as ->
    by (unfold tagOf; by rewrite drop_field, take_field, (le_val_le_bytes_id 2 16)).
  cbv zeta. rewrite (proj2 (Z.eqb_neq _ _)), He by done. unfold sendError. rewrite (sendResponse_ok _ _ _ out) by done.
  unfold onWire. rewrite decide_True; [done|]. apply Message_wf_encodable. cbn [proto setRd]. apply errorMsg_wf.
Qed.

(** ** Client and server *)

(** The client's requests onto a connection, one after the other. *)
Fixpoint writeAll (tms : list (Tag * Message)) : M ClientWire.conn unit :=
  match tms with
  | [] => mret tt
  | tm :: tms => ClientWire.writeT tm.1 tm.2;; writeAll tms
  end.

Lemma writeAll_ok tms cl out :
  ClientWire.closed cl = false -> ClientWire.nc cl = Conn out None ->
  Forall (fun tm => Message_wf tm.2 /\ frame_size tm.2 <= ClientWire.msize cl) tms ->
  writeAll tms cl = (Ok tt, ClientWire.setNc (Conn (out ++ wire_list frame tms) None) cl).
Proof.
  revert cl out. induction tms as [|tm tms IH]; intros cl out Hc Hn Hf; cbn [writeAll].
  - unfold wire_list. cbn. rewrite app_nil_r, <- Hn. by destruct cl.
  - apply Forall_cons in Hf as [[Hwf Hs] Hf].
    erewrite mbind_ok; [|by apply ClientWire.writeT_ok; rewrite ?Hn]. rewrite Hn.
    rewrite (IH _ (out ++ frame tm)); [|done|by destruct tm|done]. unfold wire_list. cbn [map concat]. by rewrite app_assoc.
Qed.

(** C20: every caller gets the answer to its own request, from a server that
    handles one request of a connection at a time ([WithMaxInflight(1)]; with
    a larger limit handlers overlap).  A client whose callers each registered their request under a tag of their own writes the
    requests to a connection; the server reads them from it, in whatever
    pieces they arrive, and its responses arrive at the client in whatever
    pieces.  Then, if the answers fit the msize and the buffers of zero-copy
    reads, the client's read loop ends with each caller holding what [dispatch]
    answered to its request, the requests having been executed one after the
    other in the order they were written, without another goroutine ever being
    started; a zero-copy read has the data in its buffer. *)
Theorem session_answers cl sv tms times inp fuel :
  maxInflight = 1%nat ->
  ClientWire.closed cl = false -> ClientWire.nc cl = Conn [] None ->
  recvShutdown sv = false -> wr (net sv) = Conn [] None -> ClientWire.msize cl = msize sv ->
  ClientWire.outstanding (ClientWire.inflight cl) tms.*1 -> Forall (request_ok (proto sv) (msize sv)) tms ->
  (forall a, a ∈ (answers sv tms (srv sv)).1 -> ClientWire.acceptable (ClientWire.dialect cl) (ClientWire.msize cl) (ClientWire.inflight cl) a) ->
  length times = length tms -> (length tms < fuel)%nat ->
  exists requests cl1, writeAll tms cl = (Ok tt, cl1) /\ ClientWire.nc cl1 = Conn requests None /\
    (avail (rd (net sv)) = requests ->
     exists sv1 responses, handleRequests times sv = Some sv1 /\ wr (net sv1) = Conn responses None /\
       srv sv1 = (answers sv tms (srv sv)).2 /\
       (avail inp = responses ->
        exists cl2, ClientWire.readLoop fuel cl1 inp = Some cl2 /\
          forall k tm ans a e, tms !! k = Some tm -> (answers sv tms (srv sv)).1 !! k = Some ans ->
            entries (ClientWire.inflight cl) !! tm.1 = Some a -> heap (ClientWire.inflight cl) !! a = Some e ->
            ans.1 = tm.1 /\ exists e', heap (ClientWire.inflight cl2) !! a = Some e' /\
              ch e' = ch (ClientWire.answered ans e) /\ dst e' = dst (ClientWire.answered ans e) /\
              n e' = n (ClientWire.answered ans e))).
Proof.
  intros Hone Hc Hnc Hs Hw Hm Ho Hq Ha Hl Hf. exists (wire_list frame tms). eexists. split.
  { apply writeAll_ok; [done|done|]. eapply Forall_impl; [exact Hq|]. intros tm (_ & Hwf & Hsz & _). by rewrite Hm. }
  split; [done|]. intros Hav. rewrite <- (app_nil_r (wire_list frame tms)) in Hav.
  destruct (handleRequests_answers times tms sv [] [] Hone Hl Hs Hq Hav Hw) as (r & _ & E).
  eexists _, (wire_list frame (answers sv tms (srv sv)).1). split; [exact E|]. split; [done|]. split; [done|]. intros Hin.
  set (as_ := (answers sv tms (srv sv)).1) in *. pose proof (answers_tags sv tms (srv sv)) as Htags. fold as_ in Htags.
  assert (length as_ = length tms) as Hlen by (apply (f_equal length) in Htags; by rewrite !length_fmap in Htags).
  set (cl1 := ClientWire.setNc _ cl).
  destruct (ClientWire.readLoop_answers as_ cl1 inp fuel) as (cl2 & El & Hend);
    [done|by rewrite Htags|by apply Forall_forall|done|lia|].
  exists cl2. split; [done|]. intros k tm ans a e Htm Hans Hen He.
  assert (ans.1 = tm.1) as Htag.
  { assert (as_.*1 !! k = tms.*1 !! k) as E1 by by rewrite Htags. rewrite !list_lookup_fmap, Htm, Hans in E1. by injection E1. }
  split; [done|]. destruct (Hend ans a e) as [b Hb]; [by eapply list_elem_of_lookup_2|by rewrite Htag|done|].
  by eexists.
Qed.
End Loop.

(** ** A connection to one symbolic link

    The root of the file system is a link with the given target. *)
Module OneLink.
Section Target.
Context (target : string).
#[export] Instance ops : NodeOps unit unit unit := {
  embeds _ := true;
  nodeQID n w := QIDof n (tree w);
  NodeLookuper _ := None; NodeOpener _ := None; NodeCreater _ := None; NodeMkdirer _ := None;
  NodeSymlinker _ := None; NodeMknoder _ := None; NodeLinker _ := None; NodeUnlinker _ := None;
  NodeRenamer _ := None; NodeGetattrer _ := None; NodeSetattrer _ := None;
  NodeReadlinker _ := Some (mret target);
  NodeStatFSer _ := None; FileSyncer _ := None; NodeFsyncer _ := None; FileLocker _ := None;
  NodeLocker _ := None; RawXattrer _ := None; NodeXattrGetter _ := None; NodeXattrSetter _ := None;
  NodeXattrLister _ := None; NodeXattrRemover _ := None;
  XattrWriter_Commit _ w := (Ok tt, w);
  attacher := None; anames := None; root := 0%nat
}.
Definition caps : Capabilities (NS unit) NodeId unit unit := {|
  FileReader _ := None; FileWriter _ := None; FileRawReaddirer _ := None; FileReaddirer _ := None;
  NodeReader _ := None; NodeWriter _ := None; NodeRawReaddirer _ := None; NodeReaddirer _ := None;
  XattrWriter_Write _ _ w := (Ok 0, w)
|}.

Definition server (input : bytes) : @conn unit unit unit :=
  mkConn protocolL 256 (mkServer newFidTable (mkNS (Init 0 (QID.mk QTSYMLINK 0 0) ∅) tt) [])
    (mkNet (BytesReader input) (Conn [] None)) 0 false.
Definition serve (times : list Z) : conn -> option conn :=
  @handleRequests unit unit unit ops caps zeroPool map_to_list 1 8192 0 times.
End Target.

(** Two callers, with tags 1 and 2, and their requests. *)
Definition client : ClientWire.conn :=
  let '(_, im) := register 1 newInflightMap in
  let '(_, im) := register 2 im in
  ClientWire.mkConn ClientWire.protocolL 256 im false (Conn [] None).
Definition requests : list (Tag * Message) :=
  [(1, MTattach (Tattach.mk 1 NoFid "u" "" 0)); (2, MTreadlink (Treadlink.mk 1))].
Definition output (target : string) : option Writer :=
  (fun c => wr (net c)) <$> serve target [0; 0] (server (wire_list frame requests)).
Definition replies (target : string) : list (Tag * Message) :=
  let sv := server (wire_list frame requests) in
  (@answers unit unit unit (ops target) caps zeroPool map_to_list 0 sv requests (srv sv)).1.
Definition sentBy (w : option Writer) : bytes := match w with Some (Conn out _) => out | _ => [] end.
Definition entryOf (tag : Tag) (c : option ClientWire.conn) : option (option ClientWire.RMsg * bool) :=
  c ← c; a ← entries (ClientWire.inflight client) !! tag; e ← heap (ClientWire.inflight c) !! a; Some (ch e, chClosed e).

Lemma requests_ok : Forall (request_ok protocolL 256) requests.
Proof.
  apply Forall_cons. split; [|apply Forall_cons; split; [|done]];
    (split; [by vm_compute|]; split; [by vm_compute|]; split; [by vm_compute|by eexists]).
Qed.
End OneLink.

(** An answer can end the connection.  The link's target has 300 bytes and
    the msize is the smallest allowed: the server answers the Treadlink with
    an Rreadlink of 309 bytes, more than the msize it negotiated, and the
    client that keeps to the msize shuts the connection down; the caller gets
    no answer and no error of its own.  The Tattach before it was answered. *)
Theorem oversize_reply_disconnects :
  let target := string_of_bytes (repeat (byte_of_Z 97) 300) in
  Forall (request_ok protocolL 256) OneLink.requests /\
  frame_size (MRreadlink (Rreadlink.mk target)) = 309 /\
  OneLink.output target =
    Some (Conn (frame (1, MRattach (Rattach.mk (QID.mk QTSYMLINK 0 0))) ++ frame (2, MRreadlink (Rreadlink.mk target))) None) /\
  let cl := ClientWire.readLoop 3 OneLink.client (BytesReader (OneLink.sentBy (OneLink.output target))) in
  ClientWire.closed <$> cl = Some true /\
  OneLink.entryOf 1 cl = Some (Some (ClientWire.Decoded (MRattach (Rattach.mk (QID.mk QTSYMLINK 0 0)))), true) /\
  OneLink.entryOf 2 cl = Some (None, true).
Proof.
  cbv zeta. split; [exact OneLink.requests_ok|]. split_and!; by vm_compute.
Qed.

(** With a target that fits, both callers are answered. *)
Lemma session_answers_witness :
  let inp := BytesReader (OneLink.sentBy (OneLink.output "x")) in
  exists cl1 cl2 e, writeAll OneLink.requests OneLink.client = (Ok tt, cl1) /\
    ClientWire.readLoop 3 cl1 inp = Some cl2 /\
    heap (ClientWire.inflight cl2) !! 1%nat = Some e /\
    ch e = Some (ClientWire.Decoded (MRreadlink (Rreadlink.mk "x"))).
Proof.
  cbv zeta. set (sv := OneLink.server (wire_list frame OneLink.requests)).
  destruct (@session_answers unit unit unit (OneLink.ops "x") OneLink.caps zeroPool map_to_list 1 8192 0
    OneLink.client sv OneLink.requests [0; 0] (BytesReader (OneLink.sentBy (OneLink.output "x"))) 3)
    as (reqs & cl1 & E & Hn & Hserve); [done|by vm_compute|by vm_compute|done|done|done| | | |done|cbn; lia|].
  - split; [apply (bool_decide_eq_true_1 _); by vm_compute|]. intros t Ht.
    repeat (apply elem_of_cons in Ht as [->|Ht]; [eexists _, _; split_and!; by vm_compute|]). by apply not_elem_of_nil in Ht.
  - exact OneLink.requests_ok.
  - intros a Ha. change (a ∈ OneLink.replies "x") in Ha.
    replace (OneLink.replies "x") with [(1, MRattach (Rattach.mk (QID.mk QTSYMLINK 0 0))); (2, MRreadlink (Rreadlink.mk "x"))]
      in Ha by by vm_compute.
    repeat (apply elem_of_cons in Ha as [->|Ha];
      [split; [by vm_compute|]; split; [by vm_compute|]; split; [by vm_compute|]; split; [by eexists|by vm_compute]|]).
    by apply not_elem_of_nil in Ha.
  - exists cl1. destruct Hserve as (sv1 & resp & Hsv & Hw & _ & Hread).
    { assert (ClientWire.nc (writeAll OneLink.requests OneLink.client).2 = Conn (wire_list frame OneLink.requests) None) as Hc
        by by vm_compute.
      rewrite E in Hc. cbn [snd] in Hc. rewrite Hn in Hc. by injection Hc as ->. }
    destruct Hread as (cl2 & Hl & Hall).
    { assert (OneLink.output "x" = Some (Conn resp None)) as ->; [|done]. unfold OneLink.output. change (OneLink.serve "x" [0; 0] sv = Some sv1) in Hsv.
      fold sv. rewrite Hsv. cbn. by rewrite Hw. }
    destruct (Hall 1%nat (2, MTreadlink (Treadlink.mk 1)) (2, MRreadlink (Rreadlink.mk "x")) 1%nat (mkEntry None false None 0))
      as (_ & e & He & Hch & _); [by vm_compute..|].
    exists cl2, e. split; [exact E|]. split; [exact Hl|]. split; [exact He|]. rewrite Hch. reflexivity.
Defined.
